(* ===== verification/_CoqProject ===== *)
-Q . S2P
Prelude.v
RustStd.v
Event.v
Trigger.v
Retention.v
Store.v
FileSystem.v
Jsonl.v
JsonlSpec.v
Durability.v
FileStore.v
FileDurability.v
Sharing.v
SharingRuns.v
Samples.v
JsonlFaults.v
FileCalm.v
StorageRuns.v
Backends.v
Testing.v
JsonText.v
JsonTextSpec.v
StorageTests.v
Runtime.v
Submission.v
Handling.v
Replay.v
RuntimeRuns.v
Ingest.v
RuntimeTests.v
Delivery.v
Recovery.v
Settlement.v
RetryCrash.v
Http.v
HttpSpec.v
HttpRuns.v
Config.v
Cli.v
Serde.v
SerdeSpec.v
SerdeRuns.v
Durations.v
CliSpec.v
CliCommands.v
CliRuns.v
Process.v
ProcessSpec.v
ProcessRuns.v
Concurrency.v
FileTasks.v
ConcurrencyRuns.v
Sweeping.v
SweepingTests.v
Server.v
ServerSpec.v
ServerDrain.v
ServerRuns.v
CoreTests.v
HttpTests.v
CliTests.v
ExampleMain.v
Invoker.v
InvokerSpec.v
InvokerRuns.v
InvokerTests.v
