(* ===== verification/Prelude.v ===== *)
(** * Triggerlane: a verification library

    Triggerlane accepts events (over HTTP, from the command line or from files),
    appends them to a durable log, matches them against a registry of triggers
    and submits one Worklane job per match; what cannot be submitted is recorded
    as a dead trigger and can be retried. This library models that program, crate
    by crate, and proves what makes it correct.

    ** The parts, from the bottom

    - [Prelude]: results, the state-and-error monad the other files are written
      in, and the lemmas and hints they share.
    - [RustStd]: what the code uses of Rust's standard library: bytes, UTF-8,
      lines, trimming, integer parsing, durations, the stable sort, paths.
    - [Event], [Trigger]: [crates/triggerlane-core/src/event.rs] and [trigger.rs].
      [Trigger] and [Binding] are type classes as they are traits.
    - [Retention], [Store]: [crates/triggerlane-storage/src/lib.rs], the retention
      policies, the two storage traits as classes, their contracts
      ([EventStoreSpec], [DeadTriggerQueueSpec]: an abstract log and queue that
      every backend refines), what a durable one promises besides
      ([DurableEventStore], [DurableDeadTriggerQueue]: files in order stay so under
      operations that succeed, and give the log back when they are opened again), and
      the in-memory backends.
    - [FileSystem]: files and directories with what a power loss may undo, and a
      schedule of failing system calls. [Jsonl] is the [JsonlStore] over it,
      [JsonlSpec] and [Durability] what it guarantees, [JsonlFaults] where it
      fails. [FileCalm] is the durable store when no call fails. [FileStore] is the two durable backends and their refinement of the
      contracts, [FileDurability] what survives a crash. [Sharing] is the same
      store seen from several processes, cut at the calls that open, lock and
      rename its file. [Backends] compares the backends as their clients do.
    - [Runtime]: [crates/triggerlane-runtime/src/lib.rs], lines 23-677: registry,
      handling, submission with backoff, replay, dead-trigger retry, metrics and
      traces. The state is a [World]: broker, queue, trace sink, observed lanes
      and the list of effects (metrics, sleeps). [Submission], [Handling] and
      [Replay] hold its theorems.
    - [Ingest]: the same file, lines 679-799 ([EventIngest]), over a store and a
      world; [Delivery] proves its guarantees against the store's contract only,
      [Recovery] puts them on the durable store, across a crash. [Settlement]
      runs every operation of the process against any store, queue and
      deduplicating broker, with restarts in between. [RetryCrash] is a retry pass
      over the durable queue, cut short by a crash.
    - [Concurrency]: the tasks of the process interleaved at their lock sections. A
      section succeeds, fails and leaves the files in order, or fails otherwise
      ([Outcome]); after the last a restart may find anything ([reopened]).
      [FileTasks] runs the same tasks on the files, every lock section the operation
      of [FileStore] that it is, and shows that this is what they do. [Sweeping] races
      appends against repeated retention sweeps.
    - [Http]: [crates/triggerlane-http/src/lib.rs]; [HttpSpec] its theorems.
    - [Config]: [crates/triggerlane-cli/src/config.rs] with its theorem.
    - [Cli]: [crates/triggerlane-cli/src/main.rs]: settings, commands, startup,
      the application, dispatcher, maintenance; [Durations], [CliSpec] and
      [CliCommands] its theorems. [Process] is one process of the command line,
      from [main] to its exit status, over the files it finds and leaves;
      [ProcessSpec] refines it to commands on an abstract log, through any sequence
      of processes and power losses.
    - [JsonText]: JSON as [serde_json] reads and writes it, on bytes;
      [JsonTextSpec] its theorems. [Serde]: the documents, that is, what the
      derived [Serialize] and [Deserialize] of the program's types make of them:
      the stored records, the event inputs, the answers, the configuration.
      [SerdeSpec] shows that these codecs satisfy the laws ([JsonCodec]) that the
      rest of the library asks of a codec, and what a stored event reads back as.
    - [Server]: [serve] and [serve_ingest] of the same file as a running process:
      recovery, requests and their timeout, the dispatch channel, the dispatcher,
      the maintenance ticker, shutdown, crashes and restarts, around the shared
      store of [Concurrency]. [ServerSpec] shows, through those tasks, that it owes
      nothing when it listens; [ServerDrain] bounds what is in
      flight and shows that draining ends.
    - [Invoker]: [examples/invoker/src/lib.rs], the example worker that runs the
      jobs; [InvokerSpec] its theorems. [ExampleMain]: [examples/src/main.rs].
    - [Samples], [StorageRuns], [RuntimeRuns], [HttpRuns], [CliRuns],
      [ProcessRuns], [ConcurrencyRuns], [ServerRuns], [SharingRuns], [SerdeRuns], [InvokerRuns]:
      concrete codecs, brokers, stores and requests, and the theorems applied to
      them, so that no hypothesis is empty.
    - [Testing], [CoreTests], [StorageTests], [SweepingTests], [RuntimeTests],
      [HttpTests], [CliTests], [InvokerTests]: the crates' own tests (the modules
      [tests] of their source files), written over the model with their fixtures,
      and run: what the code's authors assert of the code holds of these
      definitions. Their JSON is that of [JsonText] and [Serde].

    ** What the theorems show

    - Handling: every matching trigger is accounted for, by a job or a dead
      trigger, in registration order; submissions are bounded, spaced by the
      capped backoff, and carry one key; the only error is a dead trigger that
      cannot be stored.
    - Delivery: what each branch of ingestion leaves behind; keys stay unique;
      recovery handles exactly the undelivered events; a replay adds jobs only for
      triggers that had failed, when the broker deduplicates; a range replay handles
      exactly its preview.
    - Settlement: along any run of the process, with any failures, and restarts that
      open files in order, an
      event of the log stays undelivered until each trigger that matches it has a
      job or a dead-trigger record; left out of the runs are what discards events
      or records on purpose (hard bounds, pruning) and a retry pass that fails,
      which does lose records ([retry_error_loses_records]).
    - Durability: on a store in order, an acknowledged record survives any later power
      loss; a compaction cut short anywhere leaves the old or the new records, and so
      does an append, but for a line that is not ASCII cut inside a character, which
      keeps the store from opening. A store in order is one whose path has a
      directory part and where no earlier operation failed in a way that left the
      files otherwise ([store_ok], [fes_ok]); every restart here opens without a
      failing call.
    - Concurrency: under every interleaving, cancellation and crash, and every failure
      that leaves the files in order, an
      acknowledged event that was not handled is recovered at the next start, if
      retention has no hard bounds (the default has one, of 1,000,000 events); and
      sweeps that race with appends leave what sweeping first would have left. The
      tasks on the files refine these ([files_refine_tasks]).
    - Documents: a stored event is one line that reads back as the event, no torn
      part of it reads as anything, and it reads back with its fields in any
      order, with unknown ones, and without the optional one.
    - The process, under the same conditions: the listener opens only when
      every event acknowledged before has been handled; the channel is bounded and
      everything in it is durable; draining takes a bounded number of steps.
    - The command line: processes run one after the other on the same files, with
      the power lost in between, do to the stored log what the abstract commands do
      to theirs, whether they succeed or fail, and print what those print
      ([command_line_refines_log]); the calls on the store's own volume do not fail there. The path
      of a store must have a directory part ([paths_ok]) for its file to survive.
    - Several processes: the lock keeps two from writing one file, and processes
      that only append share a store exactly; with compactions they do not.
    - Backends: a client cannot tell a backend from the in-memory store, except by
      its size in bytes.
    - Edges: signatures and tokens are checked exactly; every status of the write
      and replay endpoints says what happened; a configuration means what it says;
      durations parse without overflow and settings are values of their types; what
      was posted can be read back; with a secret and a token configured nothing is
      reachable without them; what [load-file] leaves behind; the server takes traffic only after
      recovery and never under an empty key.
    - The worker: a bounded invocation ends by its deadline, unless an extension of
      its reservation is under way then, which can also hang it; a reservation is
      resolved once; a job is tried at most as often as it may be, and once more for
      each redelivery.
    - Faults: the runs in which the code does not keep what its comments say
      ([JsonlFaults], [retry_error_loses_records], [dedup_race],
      [duplicate_answer_unknown_id], [stranded_event], [lock_races],
      [abandoned_until_restart], [reload_skips_failed], [interrupted_retry],
      [zero_interval_stops_maintenance], [prune_panics_on_long_durations]).

    ** Conventions and bounds

    An instant or a span is a number of nanoseconds; machine integers are [Z],
    with the wrap-around or the overflow check written out where the code can
    reach it; [usize] has 64 bits. Random ids, the clock and the environment are
    arguments. A panic is [None] or a value of its own. Loops are structural but
    for two: the seven steps of [Concurrency.run_alone], which
    [alone_is_sequential] shows to be enough for every task, and
    [Invoker.bounded_fuel], one turn per heartbeat before the deadline and three
    more, which [bounded_invocation_ends] shows to be enough.

    Other crates are parameters: the JSON codec ([Serialize], [Deserialize],
    [Json]) where the text does not matter, and [UuidText] and [DateTimeText]
    where it does; Worklane ([Worklane], [Broker], [BrokerDeadLetters], and [DedupBroker]
    for its documented deduplication), [Chrono], [HeaderMaps], [Hex], [Hmac], [Mpsc],
    [SourceJson], the worker's [Consumer],
    [HttpTransport], [Hyper] and [Processes], the example's [Reserving], and the order in which a hash set iterates ([HashSetIter]).

    ** Not modelled

    Log lines, clap's parser (a [Cli] is what it makes of the arguments), sockets, signals (a shutdown is a step of the environment),
    axum's path matching and extraction, and the metrics exporter. Lock contention
    is not modelled: each lock section is one step. Of [serde], the texts of its
    errors, its limit on nesting and the array form of a tagged condition are left
    out, and a number is kept as its text where [serde_json] rounds it. The
    order in which tokio schedules tasks is left open, and so is when a timeout
    expires: both are any order of steps. Of the tests, the two of the clap
    grammar are left out. The two stores of a [Process] are on file systems of their
    own, and what else changes the queue and the broker between processes is left
    open. *)

From stdpp Require Import base gmap strings list sorting.
From Stdlib Require Import ZArith Lia.

(** ** Results

    [Result<A, E>]: the error type comes first so that [result E] is a monad
    in stdpp's sense and [x ← m; k] reads as Rust's [let x = m?; k]. *)

Inductive result (E A : Type) : Type :=
| Ok (a : A)
| Err (e : E).
Arguments Ok {E A} a.
Arguments Err {E A} e.

#[export] Instance result_ret E : MRet (result E) := λ A a, Ok a.
#[export] Instance result_bind E : MBind (result E) := λ A B f m,
  match m with Ok a => f a | Err e => Err e end.
#[export] Instance result_fmap E : FMap (result E) := λ A B f m,
  match m with Ok a => Ok (f a) | Err e => Err e end.

(** [Result::map_err]. *)
Definition map_err {E F A} (f : E → F) (m : result E A) : result F A :=
  match m with Ok a => Ok a | Err e => Err (f e) end.

(** [Result::ok] and [Option::ok_or_else]. *)
Definition ok {E A} (m : result E A) : option A :=
  match m with Ok a => Some a | Err _ => None end.
Definition ok_or {E A} (e : E) (o : option A) : result E A :=
  match o with Some a => Ok a | None => Err e end.

Definition is_ok {E A} (m : result E A) : bool :=
  match m with Ok _ => true | Err _ => false end.

#[export] Instance result_eq_dec `{EqDecision E} `{EqDecision A} : EqDecision (result E A).
Proof. solve_decision. Defined.

(** ** Effects

    Code that mutates state and may return early with [?]: the state reached
    so far is kept when an error is returned, as the process keeps it. *)

Definition M (S E A : Type) : Type := S → result E A * S.

#[export] Instance M_ret S E : MRet (M S E) := λ A a s, (Ok a, s).
#[export] Instance M_bind S E : MBind (M S E) := λ A B f m s,
  match m s with
  | (Ok a, s') => f a s'
  | (Err e, s') => (Err e, s')
  end.

Definition throw {S E A} (e : E) : M S E A := λ s, (Err e, s).
Definition lift {S E A} (r : result E A) : M S E A := λ s, (r, s).
Definition gets {S E A} (f : S → A) : M S E A := λ s, (Ok (f s), s).
Definition modify {S E} (f : S → S) : M S E unit := λ s, (Ok tt, f s).

(** Change the error type of a computation: the [From] conversion of [?]. *)
Definition mapM_err {S E F A} (f : E → F) (m : M S E A) : M S F A :=
  λ s, let '(r, s') := m s in (map_err f r, s').

(** Run a computation and hand its result on as a value, as an [await] that
    is matched on instead of propagated with [?]. *)
Definition catch {S E F A} (m : M S E A) : M S F (result E A) :=
  λ s, let '(r, s') := m s in (Ok r, s').

(** Run a computation on a component of the state. *)
Definition zoom {S T E A} (get : S → T) (set : T → S → S) (m : M T E A) : M S E A :=
  λ s, let '(r, t) := m (get s) in (r, set t s).

(** A loop over a list that stops at the first error. *)
Fixpoint for_each {S E A} (l : list A) (body : A → M S E unit) : M S E unit :=
  match l with
  | [] => mret tt
  | x :: xs => body x ≫= λ _, for_each xs body
  end.

(** ** Lemmas on the effect monad *)

Section monad.
Context {S E : Type}.

Lemma bind_ok {A B} (m : M S E A) (k : A → M S E B) s a s' :
  m s = (Ok a, s') → (m ≫= k) s = k a s'.
Proof. unfold mbind, M_bind. by intros ->. Qed.

Lemma bind_err {A B} (m : M S E A) (k : A → M S E B) s e s' :
  m s = (Err e, s') → (m ≫= k) s = (Err e, s').
Proof. unfold mbind, M_bind. by intros ->. Qed.

(** Inversion: a sequence that succeeds ran both halves. *)
Lemma bind_ok_inv {A B} (m : M S E A) (k : A → M S E B) s b s'' :
  (m ≫= k) s = (Ok b, s'') → ∃ a s', m s = (Ok a, s') ∧ k a s' = (Ok b, s'').
Proof.
  unfold mbind, M_bind. destruct (m s) as [[a|e] s'] eqn:Em; [eauto | done].
Qed.

(** A property of states that every step preserves is preserved by a
    sequence, by a loop, and whatever the outcome. *)
Definition preserves {A} (P : S → Prop) (m : M S E A) : Prop :=
  ∀ s, P s → P (m s).2.

Lemma preserves_ret {A} P (a : A) : preserves P (mret a).
Proof. by intros s. Qed.

Lemma preserves_bind {A B} P (m : M S E A) (k : A → M S E B) :
  preserves P m → (∀ a, preserves P (k a)) → preserves P (m ≫= k).
Proof.
  intros Hm Hk s Hs. unfold mbind, M_bind.
  specialize (Hm s Hs). destruct (m s) as [[a|e] s']; [by apply Hk | done].
Qed.

Lemma preserves_for_each {A} P (l : list A) (body : A → M S E unit) :
  (∀ x, x ∈ l → preserves P (body x)) → preserves P (for_each l body).
Proof.
  induction l as [|x l IH]; intros Hb; simpl; [apply preserves_ret|].
  apply preserves_bind; [apply Hb; left|].
  intros _. apply IH. intros y Hy. apply Hb. by right.
Qed.

Lemma for_each_app {A} (l1 l2 : list A) (body : A → M S E unit) s :
  for_each (l1 ++ l2) body s = (for_each l1 body ≫= λ _, for_each l2 body) s.
Proof.
  revert s. induction l1 as [|x l1 IH]; intros s; [done|].
  unfold mbind, M_bind in *; simpl. unfold mbind, M_bind.
  destruct (body x s) as [[u|e] s']; [apply IH | done].
Qed.
End monad.

(** [step_bind H] runs the first half of a sequence with the equation [H]. *)
Ltac step_bind H :=
  first [rewrite (bind_ok _ _ _ _ _ H) | rewrite (bind_err _ _ _ _ _ H)].

(** [invert_bind H] splits a successful sequence into its two halves. *)
Ltac invert_bind H :=
  let a := fresh "a" in let s := fresh "s" in let H1 := fresh "Hm" in
  apply bind_ok_inv in H as (a & s & H1 & H).

(** ** Automation *)

Create HintDb triggerlane.

(** Case analysis on the boolean and decidable tests of the code. *)
Ltac case_tests :=
  repeat match goal with
  | H : context [Z.leb ?a ?b] |- _ => destruct (Z.leb_spec a b)
  | H : context [Z.ltb ?a ?b] |- _ => destruct (Z.ltb_spec a b)
  | H : context [Z.eqb ?a ?b] |- _ => destruct (Z.eqb_spec a b)
  | |- context [Z.leb ?a ?b] => destruct (Z.leb_spec a b)
  | |- context [Z.ltb ?a ?b] => destruct (Z.ltb_spec a b)
  | |- context [Z.eqb ?a ?b] => destruct (Z.eqb_spec a b)
  end.

(** ** Lists *)

Section lists.
Context {A : Type}.
Implicit Types l k : list A.

Lemma filter_all (P : A → Prop) `{!∀ x, Decision (P x)} l :
  Forall P l → filter P l = l.
Proof.
  induction 1 as [|x l Hx Hl IH]; [done|]. rewrite filter_cons.
  rewrite decide_True by done. by f_equal.
Qed.

Lemma sublist_same_length l k : l `sublist_of` k → (length k ≤ length l)%nat → l = k.
Proof.
  induction 1 as [|x l k Hlk IH|x l k Hlk IH]; intros Hlen; simpl in *; [done| |].
  - f_equal. apply IH. lia.
  - apply sublist_length in Hlk. lia.
Qed.

Lemma list_eq_nil_filter (P : A → Prop) `{!∀ x, Decision (P x)} l :
  (∀ x, x ∈ l → ¬ P x) → filter P l = [].
Proof.
  intros Hn. destruct (filter P l) as [|x k] eqn:Hf; [done|]. exfalso.
  assert (x ∈ filter P l) as [Hp Hx]%list_elem_of_filter by (rewrite Hf; left). by eapply Hn.
Qed.

(** What holds of a sequence holds of any part of it. *)
Lemma Forall_sublist (P : A → Prop) l k : l `sublist_of` k → Forall P k → Forall P l.
Proof. intros Hl. rewrite !Forall_forall. intros Hk x Hx. apply Hk. by eapply elem_of_sublist. Qed.

Lemma filter_comm (P Q : A → Prop) `{!∀ x, Decision (P x)} `{!∀ x, Decision (Q x)} l :
  filter P (filter Q l) = filter Q (filter P l).
Proof. rewrite !list_filter_filter. apply list_filter_iff. tauto. Qed.

Lemma strongly_sorted_filter (R : A → A → Prop) (P : A → Prop) `{!∀ x, Decision (P x)} l :
  StronglySorted R l → StronglySorted R (filter P l).
Proof.
  induction 1 as [|x l Hl IH Hx]; [constructor|]. rewrite filter_cons. case_decide; [|done].
  constructor; [done|]. apply Forall_forall. intros y [_ Hy]%list_elem_of_filter.
  rewrite Forall_forall in Hx. auto.
Qed.

Lemma strongly_sorted_impl (R R' : A → A → Prop) l :
  (∀ x y, R x y → R' x y) → StronglySorted R l → StronglySorted R' l.
Proof.
  intros HR. induction 1 as [|x l Hl IH Hx]; constructor; [done|].
  eapply Forall_impl; [exact Hx|]. simpl. auto.
Qed.

(** The first element satisfying a boolean test ([Iterator::find]). *)
Lemma find_Some_elem (p : A → bool) l x :
  List.find p l = Some x → x ∈ l ∧ p x = true.
Proof. intros H. apply List.find_some in H as [Hin Hp]. by rewrite list_elem_of_In. Qed.
End lists.

(** Filtering after mapping is filtering by the pulled-back test. *)
Lemma filter_fmap {A B} (f : A → B) (P : B → Prop) (Q : A → Prop)
    `{!∀ x, Decision (P x)} `{!∀ x, Decision (Q x)} (l : list A) :
  (∀ x, P (f x) ↔ Q x) → filter P (f <$> l) = f <$> filter Q l.
Proof.
  intros HPQ. induction l as [|x l IH]; [done|]. rewrite fmap_cons, !filter_cons, IH.
  pose proof (HPQ x). destruct (decide (P (f x))), (decide (Q x)); done || tauto.
Qed.

#[export] Hint Resolve sublist_filter sublist_drop : triggerlane.
