(* ===== verification/RustStd.v ===== *)
(** * The Rust standard library, as far as the program uses it

    Bytes and UTF-8, [str::lines], [str::trim], integer parsing, the stable
    [sort_by_key], [std::time::Duration] arithmetic, and the wrap-around and
    checked operations on machine integers. *)

From stdpp Require Import base countable strings list sorting pretty.
From Stdlib Require Import ZArith Lia Ascii.
From S2P Require Import Prelude.
Local Open Scope Z_scope.

(** ** Bytes *)

Abbreviation byte := Byte.byte.
Abbreviation bytes := (list Byte.byte).

#[export] Instance byte_eq_dec : EqDecision byte.
Proof. intros a b. apply Byte.byte_eq_dec. Defined.

#[export] Instance byte_countable : Countable byte.
Proof.
  refine (inj_countable Byte.to_N Byte.of_N _).
  intros x. apply Byte.of_to_N.
Defined.

(** The value of a [u8]. *)
Definition u8 (b : byte) : Z := Z.of_N (Byte.to_N b).

(** [x as u8]: the low eight bits. *)
Definition as_u8 (z : Z) : byte :=
  match Byte.of_N (Z.to_N (z mod 256)) with Some b => b | None => Byte.x00 end.

Lemma u8_range b : 0 <= u8 b < 256.
Proof.
  unfold u8. pose proof (Byte.to_N_bounded b). lia.
Qed.

Lemma u8_inj a b : u8 a = u8 b → a = b.
Proof.
  unfold u8. intros H. apply N2Z.inj in H.
  pose proof (Byte.of_to_N a) as Ha. rewrite H, Byte.of_to_N in Ha. congruence.
Qed.

Lemma u8_as_u8 z : 0 <= z < 256 → u8 (as_u8 z) = z.
Proof.
  intros Hz. unfold as_u8, u8. rewrite Z.mod_small by done.
  destruct (Byte.of_N (Z.to_N z)) as [b|] eqn:Hb.
  - apply Byte.to_of_N in Hb. lia.
  - apply Byte.of_N_None_iff in Hb. lia.
Qed.

(** Rocq's [string] is a sequence of eight-bit units, and stands for a Rust
    [String] or [&str] by its UTF-8 bytes. *)
Definition as_bytes (s : string) : bytes := String.list_byte_of_string s.
Definition of_bytes (b : bytes) : string := String.string_of_list_byte b.

Lemma of_as_bytes s : of_bytes (as_bytes s) = s.
Proof. apply String.string_of_list_byte_of_string. Qed.

Lemma as_of_bytes b : as_bytes (of_bytes b) = b.
Proof. apply String.list_byte_of_string_of_list_byte. Qed.

#[export] Instance as_bytes_inj : Inj (=) (=) as_bytes.
Proof. intros s t H. by rewrite <-(of_as_bytes s), H, of_as_bytes. Qed.

(** ** UTF-8

    [core::str::from_utf8] accepts exactly the well-formed sequences of the
    Unicode standard: no overlong forms, no surrogates, nothing above
    U+10FFFF. [utf8_decode] follows its byte-class table and returns the
    [char]s. *)

Definition between (lo hi x : Z) : bool := (lo <=? x) && (x <=? hi).

Definition cont (b : byte) : bool := between 128 191 (u8 b).

(** The range the second byte of a three-byte sequence must be in. *)
Definition second3 (b0 b1 : byte) : bool :=
  if u8 b0 =? 224 then between 160 191 (u8 b1)
  else if u8 b0 =? 237 then between 128 159 (u8 b1)
  else cont b1.

(** The range the second byte of a four-byte sequence must be in. *)
Definition second4 (b0 b1 : byte) : bool :=
  if u8 b0 =? 240 then between 144 191 (u8 b1)
  else if u8 b0 =? 244 then between 128 143 (u8 b1)
  else cont b1.

Definition char2 (b0 b1 : byte) : Z := (u8 b0 - 192) * 64 + (u8 b1 - 128).
Definition char3 (b0 b1 b2 : byte) : Z :=
  (u8 b0 - 224) * 4096 + (u8 b1 - 128) * 64 + (u8 b2 - 128).
Definition char4 (b0 b1 b2 b3 : byte) : Z :=
  (u8 b0 - 240) * 262144 + (u8 b1 - 128) * 4096 + (u8 b2 - 128) * 64 + (u8 b3 - 128).

Fixpoint utf8_decode (bs : bytes) : option (list Z) :=
  match bs with
  | [] => Some []
  | b0 :: r0 =>
    if u8 b0 <? 128 then cons (u8 b0) <$> utf8_decode r0 else
    match r0 with
    | [] => None
    | b1 :: r1 =>
      if between 194 223 (u8 b0) then
        if cont b1 then cons (char2 b0 b1) <$> utf8_decode r1 else None
      else match r1 with
      | [] => None
      | b2 :: r2 =>
        if between 224 239 (u8 b0) then
          if second3 b0 b1 && cont b2
          then cons (char3 b0 b1 b2) <$> utf8_decode r2 else None
        else match r2 with
        | [] => None
        | b3 :: r3 =>
          if between 240 244 (u8 b0) && second4 b0 b1 && cont b2 && cont b3
          then cons (char4 b0 b1 b2 b3) <$> utf8_decode r3 else None
        end
      end
    end
  end.

(** [core::str::from_utf8(bytes).is_ok()]. *)
Definition is_utf8 (bs : bytes) : bool :=
  match utf8_decode bs with Some _ => true | None => false end.

(** [char::len_utf8] and [char::encode_utf8]. *)
Definition len_utf8 (c : Z) : nat :=
  if c <? 128 then 1 else if c <? 2048 then 2 else if c <? 65536 then 3 else 4.

Definition utf8_encode_char (c : Z) : bytes :=
  if c <? 128 then [as_u8 c]
  else if c <? 2048 then [as_u8 (192 + c / 64); as_u8 (128 + c mod 64)]
  else if c <? 65536 then
    [as_u8 (224 + c / 4096); as_u8 (128 + c / 64 mod 64); as_u8 (128 + c mod 64)]
  else
    [as_u8 (240 + c / 262144); as_u8 (128 + c / 4096 mod 64);
     as_u8 (128 + c / 64 mod 64); as_u8 (128 + c mod 64)].

Definition utf8_encode (cs : list Z) : bytes := cs ≫= utf8_encode_char.

(** A [char] is a Unicode scalar value. *)
Definition is_char (c : Z) : Prop := 0 <= c < 55296 ∨ 57344 <= c < 1114112.

(** [s.chars()]. A [&str] is always well-formed, so the default is not reached
    from one. *)
Definition chars (s : string) : list Z := default [] (utf8_decode (as_bytes s)).
Definition of_chars (cs : list Z) : string := of_bytes (utf8_encode cs).

(** [String::from_utf8_lossy]: every maximal ill-formed part becomes one
    U+FFFD. *)
Definition replacement : Z := 65533.

Fixpoint utf8_lossy (bs : bytes) : list Z :=
  match bs with
  | [] => []
  | b0 :: r0 =>
    if u8 b0 <? 128 then u8 b0 :: utf8_lossy r0
    else match r0 with
    | [] => [replacement]
    | b1 :: r1 =>
      if between 194 223 (u8 b0) then
        if cont b1 then char2 b0 b1 :: utf8_lossy r1 else replacement :: utf8_lossy r0
      else if between 224 239 (u8 b0) && second3 b0 b1 || between 240 244 (u8 b0) && second4 b0 b1 then
        match r1 with
        | [] => [replacement]
        | b2 :: r2 =>
          if cont b2 then
            if between 224 239 (u8 b0) then char3 b0 b1 b2 :: utf8_lossy r2
            else match r2 with
            | [] => [replacement]
            | b3 :: r3 => if cont b3 then char4 b0 b1 b2 b3 :: utf8_lossy r3 else replacement :: utf8_lossy r2
            end
          else replacement :: utf8_lossy r1
        end
      else replacement :: utf8_lossy r0
    end
  end.

(** ** White space and trimming *)

(** [char::is_whitespace]: the characters with the property [White_Space]. *)
Definition is_whitespace (c : Z) : bool :=
  between 9 13 c || (c =? 32) || (c =? 133) || (c =? 160) || (c =? 5760)
  || between 8192 8202 c || (c =? 8232) || (c =? 8233) || (c =? 8239)
  || (c =? 8287) || (c =? 12288).

Fixpoint drop_while {A} (p : A → bool) (l : list A) : list A :=
  match l with
  | [] => []
  | x :: l' => if p x then drop_while p l' else l
  end.

Definition trim_chars (cs : list Z) : list Z :=
  rev (drop_while is_whitespace (rev (drop_while is_whitespace cs))).

(** [str::trim]. *)
Definition trim (s : string) : string := of_chars (trim_chars (chars s)).

(** [line.trim().is_empty()] on a line of a text. *)
Definition is_blank (line : bytes) : bool :=
  forallb is_whitespace (default [] (utf8_decode line)).

(** ** Lines *)

Definition newline : byte := Byte.x0a.
Definition carriage_return : byte := Byte.x0d.

(** [str::split_inclusive('\n')], each piece without its ['\n'] and with the
    information whether it had one. *)
Fixpoint split_newline (bs : bytes) : list (bytes * bool) :=
  match bs with
  | [] => []
  | b :: bs' =>
    if decide (b = newline) then ([], true) :: split_newline bs' else
    match split_newline bs' with
    | [] => [([b], false)]
    | (piece, nl) :: rest => (b :: piece, nl) :: rest
    end
  end.

Definition strip_cr (piece : bytes) : bytes :=
  match rev piece with
  | b :: r => if decide (b = carriage_return) then rev r else piece
  | [] => piece
  end.

(** [str::lines]: a ['\r'] is dropped only together with the ['\n'] after it. *)
Definition line_content (piece : bytes * bool) : bytes :=
  if piece.2 then strip_cr piece.1 else piece.1.

Definition lines (bs : bytes) : list bytes := line_content <$> split_newline bs.

(** ** Integers *)

Definition u32_max : Z := 2 ^ 32 - 1.
Definition u64_max : Z := 2 ^ 64 - 1.
Definition i64_max : Z := 2 ^ 63 - 1.
Definition i64_min : Z := - 2 ^ 63.

(** [a.checked_mul(b)] on [i64]. *)
Definition checked_mul_i64 (a b : Z) : option Z :=
  if between i64_min i64_max (a * b) then Some (a * b) else None.

(** [x.checked_shl(n)] on [u32]: [None] once [n] reaches the width. *)
Definition checked_shl_u32 (x n : Z) : option Z :=
  if n <? 32 then Some (Z.shiftl x n mod 2 ^ 32) else None.

(** [x.wrapping_add(y)] on [u32]: what [+] is in a release build. *)
Definition wrapping_add_u32 (x y : Z) : Z := (x + y) mod 2 ^ 32.

(** [char::to_digit(10)]. *)
Definition digit (c : Z) : option Z := if between 48 57 c then Some (c - 48) else None.

(** The digits of [from_str_radix(_, 10)]: an error at the first byte that is
    not a digit, or as soon as the value leaves the type. *)
Fixpoint parse_digits (lo hi : Z) (negative : bool) (acc : Z) (cs : list Z) : option Z :=
  match cs with
  | [] => Some acc
  | c :: cs' =>
    d ← digit c;
    let acc' := if negative then acc * 10 - d else acc * 10 + d in
    if between lo hi acc' then parse_digits lo hi negative acc' cs' else None
  end.

(** [str::parse] for an integer type with the range [lo..=hi]: one optional sign
    ([-] only where the type has negative values), then at least one digit. *)
Definition parse_int (lo hi : Z) (cs : list Z) : option Z :=
  match cs with
  | [] => None
  | [c] => if (c =? 43) || (c =? 45) then None else parse_digits lo hi false 0 cs
  | c :: cs' =>
    if c =? 43 then parse_digits lo hi false 0 cs'
    else if (c =? 45) && (lo <? 0) then parse_digits lo hi true 0 cs'
    else parse_digits lo hi false 0 cs
  end.

Definition parse_u32 (s : string) : option Z := parse_int 0 u32_max (u8 <$> as_bytes s).
Definition parse_u64 (s : string) : option Z := parse_int 0 u64_max (u8 <$> as_bytes s).
Definition parse_i64 (s : string) : option Z := parse_int i64_min i64_max (u8 <$> as_bytes s).

(** ** Strings *)

(** [s.strip_prefix(p)]. *)
Fixpoint strip_prefix (p s : string) : option string :=
  match p, s with
  | EmptyString, _ => Some s
  | String a p', String b s' => if decide (a = b) then strip_prefix p' s' else None
  | String _ _, EmptyString => None
  end.

(** [char::to_ascii_lowercase] on every byte. *)
Definition lower_byte (b : byte) : byte :=
  if between 65 90 (u8 b) then as_u8 (u8 b + 32) else b.
Definition to_ascii_lowercase (s : string) : string := of_bytes (lower_byte <$> as_bytes s).

(** ** [std::time::Duration]

    A duration is its number of nanoseconds. *)

Definition nanos_per_sec : Z := 1000000000.
Definition nanos_per_milli : Z := 1000000.

(** [Duration::MAX]: [u64::MAX] seconds and 999,999,999 nanoseconds. *)
Definition duration_max : Z := (u64_max + 1) * nanos_per_sec - 1.

Definition duration_from_secs (n : Z) : Z := n * nanos_per_sec.
Definition duration_from_millis (n : Z) : Z := n * nanos_per_milli.

(** [Duration::saturating_mul]. *)
Definition saturating_mul (d k : Z) : Z := Z.min (d * k) duration_max.

(** ** [slice::sort_by_key]

    The standard library's sort is stable, so its result is determined: an
    insertion that goes after every element whose key is not larger. *)

Section sort.
Context {A : Type} (key : A → Z).

Fixpoint insert_by_key (x : A) (l : list A) : list A :=
  match l with
  | [] => [x]
  | y :: l' => if key x <? key y then x :: y :: l' else y :: insert_by_key x l'
  end.

Definition sort_by_key (l : list A) : list A :=
  fold_left (λ acc x, insert_by_key x acc) l [].
End sort.

(** ** [Debug] of a string

    What [{:?}] prints: quotes around the characters, each escaped. A character
    outside ASCII is printed as it is; the escapes of the unprintable ones among
    them are not modelled. *)

Definition hex_digit (n : Z) : byte := as_u8 (if n <? 10 then 48 + n else 87 + n).

(** The value of a hexadecimal digit of either case. *)
Definition hex_value (b : byte) : option Z :=
  if between 48 57 (u8 b) then Some (u8 b - 48)
  else if between 97 102 (u8 b) then Some (u8 b - 87)
  else if between 65 70 (u8 b) then Some (u8 b - 55) else None.

Definition escape_unicode (c : Z) : bytes :=
  [Byte.x5c; Byte.x75; Byte.x7b] ++ (if c <? 16 then [hex_digit c] else [hex_digit (c / 16); hex_digit (c mod 16)])
  ++ [Byte.x7d].

Definition escape_debug (b : byte) : bytes :=
  let c := u8 b in
  if c =? 0 then [Byte.x5c; Byte.x30]
  else if c =? 9 then [Byte.x5c; Byte.x74]
  else if c =? 10 then [Byte.x5c; Byte.x6e]
  else if c =? 13 then [Byte.x5c; Byte.x72]
  else if (c =? 34) || (c =? 92) then [Byte.x5c; b]
  else if (c <? 32) || (c =? 127) then escape_unicode c
  else [b].

Definition debug_str (s : string) : string :=
  of_bytes ([Byte.x22] ++ (as_bytes s ≫= escape_debug) ++ [Byte.x22]).

(** ** [std::io::Error]

    The kinds the program tests or creates; [OsError] is any other failure the
    operating system reports. *)

Inductive ErrorKind := NotFound | InvalidData | WouldBlock | OtherError | OsError (errno : Z).

#[export] Instance ErrorKind_eq_dec : EqDecision ErrorKind.
Proof. solve_decision. Defined.

Record io_error := mkIoError { io_kind : ErrorKind; io_message : string }.

#[export] Instance io_error_eq_dec : EqDecision io_error.
Proof. solve_decision. Defined.

(** [io::Error::other]. *)
Definition io_other (message : string) : io_error := mkIoError OtherError message.

(** ** Paths *)

(** The bytes after the last [sep], and everything up to and including it. *)
Fixpoint split_last (sep : Ascii.ascii) (s : string) : option (string * string) :=
  match s with
  | EmptyString => None
  | String a s' =>
    match split_last sep s' with
    | Some (before, after) => Some (String a before, after)
    | None => if decide (a = sep) then Some (String a EmptyString, s') else None
    end
  end.

(** [Path::file_name] and the directory part in front of it. *)
Definition split_file_name (path : string) : string * string :=
  match split_last "/"%char path with Some (dir, name) => (dir, name) | None => (""%string, path) end.

(** [Path::file_stem]: the name before its last dot, unless that dot is the
    name's first character. *)
Definition file_stem (name : string) : string :=
  match split_last "."%char name with
  | Some (before, _) =>
    let stem := String.substring 0 (String.length before - 1) before in
    if decide (stem = ""%string) then name else stem
  | None => name
  end.

(** [Path::with_extension] on a path that names a file. *)
Definition with_extension (path ext : string) : string :=
  let '(dir, name) := split_file_name path in
  (dir +:+ file_stem name +:+ "." +:+ ext)%string.

(** [Path::parent], when it is not empty (with its final separator kept: the
    same directory). *)
Definition parent (path : string) : option string :=
  match split_last "/"%char path with
  | Some (dir, _) => Some dir
  | None => None
  end.

(** ** Lemmas: UTF-8 *)

Lemma between_true lo hi x : between lo hi x = true ↔ lo <= x <= hi.
Proof. unfold between. rewrite andb_true_iff, !Z.leb_le. done. Qed.

Lemma between_false lo hi x : between lo hi x = false ↔ ¬ (lo <= x <= hi).
Proof. rewrite <-between_true. by destruct between. Qed.

(** Decide the range tests of the goal by arithmetic on the bytes' values. *)
Ltac case_between :=
  repeat match goal with
  | |- context [between ?lo ?hi ?x] =>
    let E := fresh "E" in
    destruct (between lo hi x) eqn:E;
    [apply between_true in E | apply between_false in E]
  end.

Lemma utf8_decode_ascii bs :
  Forall (λ b, u8 b < 128) bs → utf8_decode bs = Some (u8 <$> bs).
Proof.
  induction 1 as [|b bs Hb _ IH]; [done|]. simpl.
  rewrite (proj2 (Z.ltb_lt _ _) Hb), IH. done.
Qed.

(** Decoding a well-formed text followed by anything decodes the text first. *)
Lemma utf8_decode_app a b cs :
  utf8_decode a = Some cs → utf8_decode (a ++ b) = app cs <$> utf8_decode b.
Proof.
  revert cs. induction a as [a IH] using (well_founded_induction (well_founded_ltof _ length)).
  assert (Hrec : ∀ r k n cs, (length r < length a)%nat →
    cons n <$> utf8_decode r = Some cs → k = utf8_decode (r ++ b) →
    cons n <$> k = app cs <$> utf8_decode b).
  { intros r k n cs Hl Hcs ->. destruct (utf8_decode r) as [cs'|] eqn:Hr; [|done].
    simplify_eq/=. rewrite (IH r) with (cs := cs') by done.
    by destruct (utf8_decode b). }
  intros cs. destruct a as [|b0 r0]; simpl.
  { intros [= <-]. by destruct (utf8_decode b). }
  destruct (u8 b0 <? 128); [intros H; eapply Hrec; eauto; simpl; lia|].
  destruct r0 as [|b1 r1]; simpl; [done|].
  destruct (between 194 223 (u8 b0)).
  { destruct (cont b1); [|done]. intros H; eapply Hrec; eauto; simpl; lia. }
  destruct r1 as [|b2 r2]; simpl; [done|].
  destruct (between 224 239 (u8 b0)).
  { destruct (second3 b0 b1 && cont b2); [|done]. intros H; eapply Hrec; eauto; simpl; lia. }
  destruct r2 as [|b3 r3]; simpl; [done|].
  destruct (between 240 244 (u8 b0) && second4 b0 b1 && cont b2 && cont b3); [|done].
  intros H; eapply Hrec; eauto; simpl; lia.
Qed.

Lemma is_utf8_app a b : is_utf8 a = true → is_utf8 b = true → is_utf8 (a ++ b) = true.
Proof.
  unfold is_utf8. destruct (utf8_decode a) eqn:Ha; [|done].
  rewrite (utf8_decode_app a b _ Ha). by destruct (utf8_decode b).
Qed.

Lemma is_utf8_concat l : Forall (λ b, is_utf8 b = true) l → is_utf8 (concat l) = true.
Proof. induction 1; [done|]. by apply is_utf8_app. Qed.

(** Linear arithmetic with the quotients and remainders of the encodings. *)
Ltac div_lia := Z.to_euclidean_division_equations; lia.

Lemma utf8_decode_encode_char c rest :
  is_char c → utf8_decode (utf8_encode_char c ++ rest) = cons c <$> utf8_decode rest.
Proof.
  intros Hc. unfold is_char in Hc. unfold utf8_encode_char.
  destruct (Z.ltb_spec c 128).
  { simpl. rewrite u8_as_u8 by div_lia. by rewrite (proj2 (Z.ltb_lt _ _)) by div_lia. }
  destruct (Z.ltb_spec c 2048).
  { simpl. unfold cont, char2. rewrite !u8_as_u8 by div_lia.
    rewrite (proj2 (Z.ltb_ge _ _)) by div_lia.
    rewrite !(proj2 (between_true _ _ _)) by div_lia. do 2 f_equal. div_lia. }
  destruct (Z.ltb_spec c 65536).
  { simpl. unfold second3, cont, char3. rewrite !u8_as_u8 by div_lia.
    rewrite (proj2 (Z.ltb_ge _ _)) by div_lia.
    rewrite (proj2 (between_false 194 223 _)) by div_lia.
    rewrite (proj2 (between_true 224 239 _)) by div_lia.
    rewrite (proj2 (between_true 128 191 (128 + c mod 64))) by div_lia.
    destruct (Z.eqb_spec (224 + c / 4096) 224);
      [|destruct (Z.eqb_spec (224 + c / 4096) 237)];
      rewrite (proj2 (between_true _ _ _)) by div_lia; simpl; do 2 f_equal; div_lia. }
  simpl. unfold second4, cont, char4. rewrite !u8_as_u8 by div_lia.
  rewrite (proj2 (Z.ltb_ge _ _)) by div_lia.
  rewrite (proj2 (between_false 194 223 _)) by div_lia.
  rewrite (proj2 (between_false 224 239 _)) by div_lia.
  rewrite (proj2 (between_true 240 244 _)) by div_lia.
  rewrite (proj2 (between_true 128 191 (128 + c mod 64))) by div_lia.
  rewrite (proj2 (between_true 128 191 (128 + c / 64 mod 64))) by div_lia.
  destruct (Z.eqb_spec (240 + c / 262144) 240);
    [|destruct (Z.eqb_spec (240 + c / 262144) 244)];
    rewrite (proj2 (between_true _ _ _)) by div_lia; simpl; do 2 f_equal; div_lia.
Qed.

(** Encoding a sequence of characters and decoding it again is the identity. *)
Lemma utf8_decode_encode cs : Forall is_char cs → utf8_decode (utf8_encode cs) = Some cs.
Proof.
  induction 1 as [|c cs Hc _ IH]; [done|].
  change (utf8_encode (c :: cs)) with (utf8_encode_char c ++ utf8_encode cs).
  by rewrite utf8_decode_encode_char, IH by done.
Qed.

(** ** Lemmas: lines *)

Lemma split_newline_app line rest :
  newline ∉ line →
  split_newline (line ++ newline :: rest) = (line, true) :: split_newline rest.
Proof.
  induction line as [|b line IH]; intros Hn; simpl; [done|].
  apply not_elem_of_cons in Hn as [Hb Hn].
  rewrite decide_False by done. by rewrite IH.
Qed.

Lemma split_newline_last line :
  newline ∉ line → line ≠ [] → split_newline line = [(line, false)].
Proof.
  induction line as [|b line IH]; intros Hn Hne; [done|]. simpl.
  apply not_elem_of_cons in Hn as [Hb Hn]. rewrite decide_False by done.
  destruct line as [|c line]; [done|]. by rewrite IH.
Qed.

Lemma strip_cr_id line : carriage_return ∉ line → strip_cr line = line.
Proof.
  intros Hn. unfold strip_cr. destruct (rev line) as [|b r] eqn:E; [done|].
  rewrite decide_False; [done|]. intros ->. apply Hn.
  rewrite <-(rev_involutive line), E. simpl. apply elem_of_app. right. left.
Qed.

(** A line with its terminator. *)
Definition terminated (line : bytes) : bytes := line ++ [newline].

(** A text made of complete lines is read back as those lines. *)
Lemma lines_concat ls rest :
  Forall (λ l, (newline ∉ l) ∧ (carriage_return ∉ l)) ls →
  lines (concat (terminated <$> ls) ++ rest) = ls ++ lines rest.
Proof.
  unfold lines. induction 1 as [|l ls [Hn Hc] _ IH]; [done|]. cbn [fmap list_fmap concat].
  unfold terminated at 1. rewrite <-!app_assoc. cbn [app].
  rewrite split_newline_app by done. cbn [fmap list_fmap]. unfold line_content at 1. simpl.
  by rewrite strip_cr_id, IH.
Qed.

(** ... and an unterminated piece at the end is a line of its own. *)
Lemma lines_last line : newline ∉ line → line ≠ [] → lines line = [line].
Proof. intros ??. unfold lines. by rewrite split_newline_last. Qed.

(** ** Lemmas: sorting *)

Section sort_lemmas.
Context {A : Type} (key : A → Z).
Implicit Types l : list A.

Definition by_key (x y : A) : Prop := key x <= key y.

Lemma insert_by_key_perm x l : insert_by_key key x l ≡ₚ x :: l.
Proof.
  induction l as [|y l IH]; simpl; [done|]. case_match; [done|].
  rewrite IH. by rewrite Permutation_swap.
Qed.

Lemma insert_by_key_sorted x l :
  StronglySorted by_key l → StronglySorted by_key (insert_by_key key x l).
Proof.
  induction 1 as [|y l Hl IH Hy]; simpl; [repeat constructor|].
  case_tests; constructor; try done.
  - by constructor.
  - constructor; [unfold by_key; lia|].
    eapply Forall_impl; [exact Hy|]. unfold by_key. intros; lia.
  - rewrite insert_by_key_perm. constructor; [unfold by_key; lia|done].
Qed.

(** Stability: among elements with the same key, the new one goes last, and
    no other pair changes places. *)
Lemma insert_by_key_filter x l k :
  StronglySorted by_key l →
  filter (λ y, key y = k) (insert_by_key key x l) =
  filter (λ y, key y = k) (l ++ [x]).
Proof.
  induction 1 as [|y l Hl IH Hy]; simpl; [done|].
  destruct (Z.ltb_spec (key x) (key y)) as [Hlt|Hge].
  - (* nothing from [y] on has the key of [x] *)
    rewrite (filter_cons _ x). case_decide as Hk.
    + assert (filter (λ y, key y = k) (y :: l) = []) as Hnil.
      { rewrite filter_cons, decide_False by lia.
        clear -Hy Hk Hlt. induction Hy as [|z l Hz Hl IH]; [done|].
        rewrite filter_cons, decide_False; [done|]. unfold by_key in Hz. lia. }
      change (y :: l ++ [x]) with ((y :: l) ++ [x]). rewrite filter_app, Hnil. simpl.
      by rewrite filter_cons, decide_True.
    + change (y :: l ++ [x]) with ((y :: l) ++ [x]). rewrite filter_app, (filter_cons _ x).
      rewrite decide_False by done. by rewrite app_nil_r.
  - rewrite !filter_cons, IH. done.
Qed.

Lemma sort_by_key_perm l : sort_by_key key l ≡ₚ l.
Proof.
  unfold sort_by_key. rewrite <-(app_nil_r l) at 2. generalize (@nil A).
  induction l as [|x l IH]; intros acc; simpl; [done|].
  rewrite IH, insert_by_key_perm. by rewrite Permutation_middle.
Qed.

Lemma sort_by_key_sorted_acc l acc :
  StronglySorted by_key acc →
  StronglySorted by_key (fold_left (λ acc x, insert_by_key key x acc) l acc).
Proof.
  revert acc. induction l as [|x l IH]; intros acc Hacc; simpl; [done|].
  by apply IH, insert_by_key_sorted.
Qed.

Lemma sort_by_key_sorted l : StronglySorted by_key (sort_by_key key l).
Proof. apply sort_by_key_sorted_acc. constructor. Qed.

Lemma sort_by_key_stable l k :
  filter (λ y, key y = k) (sort_by_key key l) = filter (λ y, key y = k) l.
Proof.
  unfold sort_by_key. rewrite <-(app_nil_l l) at 2.
  assert (StronglySorted by_key []) as Hs by constructor. revert Hs.
  generalize (@nil A). induction l as [|x l IH]; intros acc Hacc; simpl.
  { by rewrite app_nil_r. }
  rewrite IH by (by apply insert_by_key_sorted).
  rewrite filter_app, insert_by_key_filter, <-filter_app by done.
  by rewrite <-app_assoc.
Qed.

(** Inserting into a sorted list is the whole of sorting it again. *)
Lemma sort_by_key_snoc l x : sort_by_key key (l ++ [x]) = insert_by_key key x (sort_by_key key l).
Proof. unfold sort_by_key. by rewrite fold_left_app. Qed.

Lemma insert_by_key_last x l :
  Forall (λ y, key y <= key x) l → insert_by_key key x l = l ++ [x].
Proof.
  induction 1 as [|y l Hy _ IH]; simpl; [done|].
  rewrite (proj2 (Z.ltb_ge _ _)) by done. by rewrite IH.
Qed.

Lemma sort_by_key_id l : StronglySorted by_key l → sort_by_key key l = l.
Proof.
  intros Hl. unfold sort_by_key.
  assert (∀ acc, StronglySorted by_key (acc ++ l) →
    fold_left (λ acc x, insert_by_key key x acc) l acc = acc ++ l) as H; [|by apply H].
  clear Hl. induction l as [|x l IH]; intros acc Hs; simpl; [by rewrite app_nil_r|].
  rewrite insert_by_key_last.
  - rewrite IH; rewrite <-app_assoc; done.
  - clear IH. induction acc as [|y acc IH]; constructor; inversion Hs as [|? ? Hs' Hy]; subst.
    + rewrite Forall_app, Forall_cons in Hy. apply Hy.
    + by apply IH.
Qed.
End sort_lemmas.
