(* ===== verification/Event.v ===== *)
(** * The event model: [crates/triggerlane-core/src/event.rs]

    Ids, sources, types, metadata and the envelope, with the choreography
    primitive [follow_up]. The random id and the clock that the constructors
    read are arguments of the definitions. A [Uuid] is its 128-bit value; its
    text form belongs to the [uuid] crate and is a parameter ([UuidText]). An
    instant ([DateTime<Utc>]) and a [TimeDelta] are numbers of nanoseconds. *)

From stdpp Require Import base countable strings list relations.
From Stdlib Require Import ZArith.
From S2P Require Import Prelude RustStd.

Definition EVENT_GITHUB_ISSUE_CREATED : string := "event.github.issue.created".
Definition EVENT_GITHUB_PR_CREATED : string := "event.github.pr.created".
Definition EVENT_DISCORD_MESSAGE_CREATED : string := "event.discord.message.created".
Definition EVENT_CRON_DAILY : string := "event.cron.daily".

(** An instant, in nanoseconds since the epoch. *)
Abbreviation DateTime := Z.
(** A signed span of time, in nanoseconds. *)
Abbreviation TimeDelta := Z.

Record EventId := mkEventId { uuid : N }.

#[export] Instance EventId_eq_dec : EqDecision EventId.
Proof. solve_decision. Defined.
#[export] Instance EventId_countable : Countable EventId.
Proof. refine (inj_countable' uuid mkEventId _). by intros []. Defined.

(** The text form of a [Uuid] ([Display] and [Uuid::parse_str]), and what the
    crate documents of it: parsing what was printed gives the id back. *)
Class UuidText := {
  uuid_to_string : N → string;
  uuid_parse_str : string → result string N;
}.
Class UuidTextLaws `{UuidText} : Prop :=
  uuid_parse_to_string u : uuid_parse_str (uuid_to_string u) = Ok u.

Section EventId.
Context `{UuidText}.

(** [impl Display for EventId]. *)
Definition EventId_to_string (id : EventId) : string := uuid_to_string (uuid id).

(** [impl FromStr for EventId]. *)
Definition EventId_from_str (value : string) : result string EventId :=
  u ← uuid_parse_str value; mret (mkEventId u).
End EventId.

Inductive Source := Http | GitHub | Discord | Slack | Cron | Manual.

#[export] Instance Source_eq_dec : EqDecision Source.
Proof. solve_decision. Defined.
#[export] Instance Source_countable : Countable Source.
Proof.
  refine (inj_countable'
    (λ s, match s with Http => 0 | GitHub => 1 | Discord => 2 | Slack => 3 | Cron => 4 | Manual => 5 end)
    (λ n, match n with 0 => Http | 1 => GitHub | 2 => Discord | 3 => Slack | 4 => Cron | _ => Manual end) _).
  by intros [].
Defined.

Record EventType := mkEventType { as_str : string }.

#[export] Instance EventType_eq_dec : EqDecision EventType.
Proof. solve_decision. Defined.
#[export] Instance EventType_countable : Countable EventType.
Proof. refine (inj_countable' as_str mkEventType _). by intros []. Defined.

Record EventMetadata := mkEventMetadata {
  trace_id : option string;
  correlation_id : option string;
  tenant_id : option string;
  idempotency_key : option string;
  causation_id : option string;
}.

Definition EventMetadata_default : EventMetadata := mkEventMetadata None None None None None.

#[export] Instance EventMetadata_eq_dec : EqDecision EventMetadata.
Proof. solve_decision. Defined.
#[export] Instance EventMetadata_countable : Countable EventMetadata.
Proof.
  refine (inj_countable'
    (λ m, (trace_id m, correlation_id m, tenant_id m, idempotency_key m, causation_id m))
    (λ '(t, c, n, i, u), mkEventMetadata t c n i u) _).
  by intros [].
Defined.

Record EventEnvelope := mkEventEnvelope {
  ev_id : EventId;
  ev_source : Source;
  ev_type : EventType;
  ev_payload : bytes;
  ev_timestamp : DateTime;
  ev_metadata : EventMetadata;
}.

#[export] Instance EventEnvelope_eq_dec : EqDecision EventEnvelope.
Proof. solve_decision. Defined.
#[export] Instance EventEnvelope_countable : Countable EventEnvelope.
Proof.
  refine (inj_countable'
    (λ e, (ev_id e, ev_source e, ev_type e, ev_payload e, ev_timestamp e, ev_metadata e))
    (λ '(i, s, t, p, d, m), mkEventEnvelope i s t p d m) _).
  by intros [].
Defined.

(** [EventEnvelope::new]: [fresh] is what [EventId::new()] draws and [now] what
    [Utc::now()] reads. *)
Definition EventEnvelope_new (fresh : EventId) (now : DateTime)
    (source : Source) (event_type : EventType) (payload : bytes) : EventEnvelope :=
  {| ev_id := fresh; ev_source := source; ev_type := event_type; ev_payload := payload;
     ev_timestamp := now; ev_metadata := EventMetadata_default |}.

Definition with_metadata (self : EventEnvelope) (metadata : EventMetadata) : EventEnvelope :=
  {| ev_id := ev_id self; ev_source := ev_source self; ev_type := ev_type self;
     ev_payload := ev_payload self; ev_timestamp := ev_timestamp self;
     ev_metadata := metadata |}.

Section follow_up.
Context `{UuidText}.

Definition follow_up (cause : EventEnvelope) (fresh : EventId) (now : DateTime)
    (source : Source) (event_type : EventType) (payload : bytes) : EventEnvelope :=
  let correlation :=
    match correlation_id (ev_metadata cause) with
    | Some c => Some c
    | None => Some (EventId_to_string (ev_id cause))
    end in
  with_metadata (EventEnvelope_new fresh now source event_type payload)
    {| trace_id := trace_id (ev_metadata cause);
       correlation_id := correlation;
       tenant_id := tenant_id (ev_metadata cause);
       idempotency_key := None;
       causation_id := Some (EventId_to_string (ev_id cause)) |}.

(** The id of the chain an event belongs to: its correlation id, or its own id
    when it starts one. *)
Definition chain_id (e : EventEnvelope) : string :=
  match correlation_id (ev_metadata e) with
  | Some c => c
  | None => EventId_to_string (ev_id e)
  end.

(** [effect] was emitted as a follow-up of [cause]. *)
Inductive causes (cause : EventEnvelope) : EventEnvelope → Prop :=
| causes_follow_up fresh now source event_type payload :
    causes cause (follow_up cause fresh now source event_type payload).

Lemma causes_chain_id e e' : causes e e' → chain_id e' = chain_id e.
Proof. intros []. unfold chain_id. simpl. by destruct correlation_id. Qed.

(** Along any chain of follow-ups the correlation, tenant and trace
    ids never change, and every event but the first names its direct cause and
    carries no idempotency key. *)
Theorem follow_up_chain e e' :
  rtc causes e e' →
  chain_id e' = chain_id e ∧
  tenant_id (ev_metadata e') = tenant_id (ev_metadata e) ∧
  trace_id (ev_metadata e') = trace_id (ev_metadata e) ∧
  (e' = e ∨ ∃ c, rtc causes e c ∧
     causation_id (ev_metadata e') = Some (EventId_to_string (ev_id c)) ∧
     correlation_id (ev_metadata e') = Some (chain_id e) ∧
     idempotency_key (ev_metadata e') = None).
Proof.
  revert e'. apply rtc_ind_r; [by eauto|]. intros c e' Hec Hce IH.
  destruct IH as (Hch & Hten & Htr & _). pose proof (causes_chain_id _ _ Hce) as Hid.
  destruct Hce. split; [congruence|]. split; [exact Hten|]. split; [exact Htr|].
  right. exists c. split; [exact Hec|]. split; [done|]. split; [|done].
  simpl. rewrite <-Hch. unfold chain_id. by destruct (correlation_id (ev_metadata c)).
Qed.

(** Printing an id and parsing it gives the id back. *)
Lemma EventId_from_to_string `{!UuidTextLaws} i : EventId_from_str (EventId_to_string i) = Ok i.
Proof.
  unfold EventId_from_str, EventId_to_string. rewrite uuid_parse_to_string. by destruct i.
Qed.

#[export] Instance EventId_to_string_inj `{!UuidTextLaws} : Inj (=) (=) EventId_to_string.
Proof.
  intros i j Hij. pose proof (EventId_from_to_string i) as Hi.
  rewrite Hij, EventId_from_to_string in Hi. congruence.
Qed.
End follow_up.
