(* ===== verification/Trigger.v ===== *)
(** * Triggers and bindings: [crates/triggerlane-core/src/trigger.rs]

    The [Trigger] and [Binding] traits are type classes; a [Box<dyn Trigger>]
    is the method its vtable holds. JSON belongs to [serde_json] and is the
    parameter [Json]. *)

From stdpp Require Import base strings list pretty.
From Stdlib Require Import ZArith.
From S2P Require Import Prelude RustStd Event.

(** What the code uses of [serde_json::Value]. *)
Class Json := {
  Value : Type;
  from_slice : bytes → result string Value;
  pointer : Value → string → option Value;
  value_eqb : Value → Value → bool;
}.

(** [trait Trigger]. *)
Class Trigger (T : Type) := matches : T → EventEnvelope → bool.

(** [Box<dyn Trigger>] and [Arc<dyn Trigger>]: the object's [matches]. *)
Definition DynTrigger : Type := EventEnvelope → bool.
Definition box_trigger {T} `{Trigger T} (t : T) : DynTrigger := matches t.

(** [enum BindingError], with the text its [Display] gives. *)
Inductive BindingError := Rejected (reason : string).

Definition BindingError_to_string (e : BindingError) : string :=
  match e with Rejected r => "binding rejected event: " +:+ r end.

(** [struct WorklaneJob] and its constructor. *)
Record WorklaneJob := mkWorklaneJob {
  job_lane : string;
  job_kind : string;
  job_payload : bytes;
  job_max_attempts : Z;
}.

Definition WorklaneJob_new (lane kind : string) (payload : bytes) (max_attempts : Z) : WorklaneJob :=
  mkWorklaneJob lane kind payload max_attempts.

(** [trait Binding], at the only [Job] the runtime uses. *)
Class Binding (B : Type) := bind : B → EventEnvelope → result BindingError WorklaneJob.

Definition DynBinding : Type := EventEnvelope → result BindingError WorklaneJob.
Definition box_binding {B} `{Binding B} (b : B) : DynBinding := bind b.

(** ** The triggers *)

Record EventTypeTrigger := mkEventTypeTrigger { ett_event_type : EventType }.

#[export] Instance EventTypeTrigger_Trigger : Trigger EventTypeTrigger := λ self event,
  bool_decide (ev_type event = ett_event_type self).

Section json.
Context `{Json}.

Record PayloadFieldEquals := mkPayloadFieldEquals {
  pfe_pointer : string;
  pfe_expected : Value;
}.

#[export] Instance PayloadFieldEquals_Trigger : Trigger PayloadFieldEquals := λ self event,
  match (v ← ok (from_slice (ev_payload event)); pointer v (pfe_pointer self)) with
  | Some found => value_eqb found (pfe_expected self)
  | None => false
  end.
End json.

Record AllOf := mkAllOf { all_triggers : list DynTrigger }.

#[export] Instance AllOf_Trigger : Trigger AllOf := λ self event,
  forallb (λ t, t event) (all_triggers self).

Record AnyOf := mkAnyOf { any_triggers : list DynTrigger }.

#[export] Instance AnyOf_Trigger : Trigger AnyOf := λ self event,
  existsb (λ t, t event) (any_triggers self).

(** ** The binding *)

Record WorklaneJobBinding := mkWorklaneJobBinding {
  wjb_lane : string;
  wjb_kind : string;
  wjb_max_attempts : Z;
  wjb_transform : option (EventEnvelope → result BindingError bytes);
}.

Definition WorklaneJobBinding_new (lane kind : string) (max_attempts : Z) : WorklaneJobBinding :=
  mkWorklaneJobBinding lane kind max_attempts None.

(** [{:?}]: a transform has no text of its own. *)
Definition WorklaneJobBinding_debug (self : WorklaneJobBinding) : string :=
  "WorklaneJobBinding { lane: " +:+ debug_str (wjb_lane self) +:+ ", kind: " +:+ debug_str (wjb_kind self)
  +:+ ", max_attempts: " +:+ pretty (wjb_max_attempts self)
  +:+ ", transform: " +:+ match wjb_transform self with
                          | Some _ => "Some(" +:+ debug_str "<fn>" +:+ ")"
                          | None => "None"
                          end +:+ " }".

Definition with_payload_transform (self : WorklaneJobBinding)
    (transform : EventEnvelope → result BindingError bytes) : WorklaneJobBinding :=
  mkWorklaneJobBinding (wjb_lane self) (wjb_kind self) (wjb_max_attempts self) (Some transform).

#[export] Instance WorklaneJobBinding_Binding : Binding WorklaneJobBinding := λ self event,
  payload ← match wjb_transform self with
            | Some transform => transform event
            | None => Ok (ev_payload event)
            end;
  mret (WorklaneJob_new (wjb_lane self) (wjb_kind self) payload (wjb_max_attempts self)).

(** ** Lemmas *)

Lemma AllOf_matches ts e : matches (mkAllOf ts) e = true ↔ ∀ t, t ∈ ts → t e = true.
Proof.
  unfold matches, AllOf_Trigger. simpl. rewrite forallb_forall.
  setoid_rewrite list_elem_of_In. done.
Qed.

Lemma AnyOf_matches ts e : matches (mkAnyOf ts) e = true ↔ ∃ t, t ∈ ts ∧ t e = true.
Proof.
  unfold matches, AnyOf_Trigger. simpl. rewrite existsb_exists.
  setoid_rewrite list_elem_of_In. done.
Qed.

(** The duality of the two combinators: [AnyOf] fails exactly when [AllOf] of
    the negated conditions holds. *)
Lemma AnyOf_AllOf_dual ts e :
  matches (mkAnyOf ts) e = negb (matches (mkAllOf ((λ (t : DynTrigger) e, negb (t e)) <$> ts)) e).
Proof.
  unfold matches, AllOf_Trigger, AnyOf_Trigger. simpl.
  induction ts as [|t ts IH]; simpl; [done|]. rewrite IH. by destruct (t e).
Qed.

(** What a bound job carries: the binding's lane, kind and attempts, and the
    event's payload when there is no transform. *)
Lemma WorklaneJobBinding_bind b e :
  bind b e =
  match wjb_transform b with
  | Some f =>
    match f e with
    | Ok p => Ok (mkWorklaneJob (wjb_lane b) (wjb_kind b) p (wjb_max_attempts b))
    | Err err => Err err
    end
  | None => Ok (mkWorklaneJob (wjb_lane b) (wjb_kind b) (ev_payload e) (wjb_max_attempts b))
  end.
Proof. unfold bind, WorklaneJobBinding_Binding. destruct (wjb_transform b) as [f|]; [by destruct (f e)|done]. Qed.
