(* ===== verification/Retention.v ===== *)
(** * Retention policies: [crates/triggerlane-storage/src/lib.rs], lines 25-169

    Which records a store keeps: the operator's [ManualRetention] and the
    bounded [AutoRetention] that [serve] applies. A [usize] or [u64] bound is a
    [Z]; [Vec::drain(0..n)] and [Iterator::skip(n)] are [drop n]. *)

From stdpp Require Import base gmap strings list.
From Stdlib Require Import ZArith Lia.
From S2P Require Import Prelude RustStd Event.
Local Open Scope Z_scope.

(** [serde_json::to_vec] and [serde_json::from_str] at a record type; the error
    is the text [serde_json] reports. *)
Class Serialize (T : Type) := to_vec : T → result string bytes.
Class Deserialize (T : Type) := from_str : bytes → result string T.

(** [struct DeadTriggerRecord]. *)
Record DeadTriggerRecord := mkDeadTriggerRecord {
  dt_event : EventEnvelope;
  dt_trigger_name : string;
  dt_error : string;
}.

#[export] Instance DeadTriggerRecord_eq_dec : EqDecision DeadTriggerRecord.
Proof. solve_decision. Defined.
#[export] Instance DeadTriggerRecord_countable : Countable DeadTriggerRecord.
Proof.
  refine (inj_countable' (λ r, (dt_event r, dt_trigger_name r, dt_error r))
            (λ '(e, n, m), mkDeadTriggerRecord e n m) _).
  by intros [].
Defined.

(** [l.len()] as an integer. *)
Definition len {A} (l : list A) : Z := Z.of_nat (length l).

(** ** Manual retention *)

Inductive ManualRetention :=
| OlderThan (cutoff : DateTime)
| KeepMostRecent (max : Z).

(** [ManualRetention::keep]. *)
Definition keep {T} (self : ManualRetention) (items : list T) (timestamp : T → DateTime) : list T :=
  match self with
  | OlderThan cutoff => filter (λ item, timestamp item >= cutoff) items
  | KeepMostRecent max =>
    let skip := Z.max 0 (len items - max) in
    drop (Z.to_nat skip) items
  end.

(** ** Automatic retention *)

Record AutoRetention := mkAutoRetention {
  delivered_grace : option TimeDelta;
  max_age : option TimeDelta;
  max_count : option Z;
  max_bytes : option Z;
}.

(** [AutoRetention::unbounded], also its [Default]. *)
Definition unbounded : AutoRetention := mkAutoRetention None None None None.

Definition is_none {A} (o : option A) : bool := match o with None => true | Some _ => false end.

Definition is_unbounded (self : AutoRetention) : bool :=
  is_none (delivered_grace self) && is_none (max_age self)
  && is_none (max_count self) && is_none (max_bytes self).

(** [serialized_len]: the JSON and the trailing newline; [0] when the record
    does not serialize. *)
Definition serialized_len {T} `{Serialize T} (record : T) : Z :=
  match to_vec record with Ok b => len b + 1 | Err _ => 0 end.

Section size_bounds.
Context {T : Type} `{Serialize T}.

(** The loop of the [max_bytes] bound, from the newest record to the oldest:
    [rev_enumerated] is what [kept.iter().enumerate().rev()] still yields. *)
Fixpoint first_within_budget (budget : Z) (first_kept : nat) (rev_enumerated : list (nat * T)) : nat :=
  match rev_enumerated with
  | [] => first_kept
  | (index, record) :: rest =>
    let size := serialized_len record in
    if size >? budget then first_kept
    else first_within_budget (budget - size) index rest
  end.

Definition apply_size_bounds (kept : list T) (policy : AutoRetention) : list T :=
  let kept :=
    match max_count policy with
    | Some max => if len kept >? max then drop (Z.to_nat (len kept - max)) kept else kept
    | None => kept
    end in
  match max_bytes policy with
  | Some max_bytes =>
    let first_kept := first_within_budget max_bytes (length kept) (rev (imap pair kept)) in
    drop first_kept kept
  | None => kept
  end.
End size_bounds.

(** The test of [retain_events]' filter. *)
Definition event_survives (delivered : gset EventId) (policy : AutoRetention) (now : DateTime)
    (event : EventEnvelope) : bool :=
  let age := now - ev_timestamp event in
  if match max_age policy with Some max => age >? max | None => false end then false
  else match delivered_grace policy with
       | Some grace => negb (bool_decide (ev_id event ∈ delivered) && (age >? grace))
       | None => true
       end.

Definition retain_events `{Serialize EventEnvelope} (events : list EventEnvelope)
    (delivered : gset EventId) (policy : AutoRetention) (now : DateTime) : list EventEnvelope :=
  apply_size_bounds (filter (λ e, event_survives delivered policy now e = true) events) policy.

Definition record_survives (policy : AutoRetention) (now : DateTime) (record : DeadTriggerRecord) : bool :=
  match max_age policy with
  | Some max => now - ev_timestamp (dt_event record) <=? max
  | None => true
  end.

Definition retain_dead_triggers `{Serialize DeadTriggerRecord} (records : list DeadTriggerRecord)
    (policy : AutoRetention) (now : DateTime) : list DeadTriggerRecord :=
  apply_size_bounds (filter (λ r, record_survives policy now r = true) records) policy.

(** ** What the size bounds guarantee *)

Section size_bounds_spec.
Context {T : Type} `{Serialize T}.
Implicit Types (kept : list T) (policy : AutoRetention).

(** The serialized size of a sequence of records. *)
Definition total_len (l : list T) : Z := foldr (λ r n, serialized_len r + n) 0 l.

Lemma serialized_len_nonneg (r : T) : 0 <= serialized_len r.
Proof. unfold serialized_len, len. case_match; lia. Qed.

Lemma total_len_nonneg l : 0 <= total_len l.
Proof. induction l as [|r l IH]; simpl; [lia|]. pose proof (serialized_len_nonneg r). lia. Qed.

Lemma total_len_app l k : total_len (l ++ k) = total_len l + total_len k.
Proof. induction l as [|r l IH]; simpl; lia. Qed.

(** The hard bounds, as a predicate on what is left. *)
Definition within_count policy (l : list T) : Prop :=
  match max_count policy with Some m => len l <= m | None => True end.
Definition within_bytes policy (l : list T) : Prop :=
  match max_bytes policy with Some m => total_len l <= m | None => True end.
Definition within_bounds policy (l : list T) : Prop := within_count policy l ∧ within_bytes policy l.

(** Every bound is at least zero: they are unsigned in the code. *)
Definition policy_wf policy : Prop :=
  match max_count policy with Some m => 0 <= m | None => True end ∧
  match max_bytes policy with Some m => 0 <= m | None => True end.

(** A suffix of a sequence within the bounds is within the bounds. *)
Lemma within_bounds_suffix policy l k : within_bounds policy (l ++ k) → within_bounds policy k.
Proof.
  unfold within_bounds, within_count, within_bytes, len. rewrite total_len_app, length_app.
  pose proof (total_len_nonneg l). destruct (max_count policy), (max_bytes policy); lia.
Qed.

(** The loop's invariant: it has accounted for the records after [pre], which
    start at [first], and [budget] is what is left of the bound. *)
Lemma first_within_budget_spec pre post m budget :
  total_len post <= m → budget = m - total_len post →
  ∃ n, (n ≤ length pre)%nat ∧
    first_within_budget budget (length pre) (rev (imap pair pre)) = n ∧
    total_len (drop n pre ++ post) <= m ∧
    (∀ j, (j < n)%nat → m < total_len (drop j pre ++ post)).
Proof.
  revert post budget. induction pre as [|r pre IH] using rev_ind; intros post budget Hpost ->.
  { exists 0%nat. split_and!; [done|done|done|lia]. }
  rewrite imap_app, rev_app_distr. simpl. rewrite ?Nat.add_0_r.
  pose proof (serialized_len_nonneg r). rewrite length_app. simpl.
  destruct (Z.gtb_spec (serialized_len r) (m - total_len post)).
  - exists (length pre + 1)%nat. split_and!; [lia|done| |].
    + rewrite drop_ge; [done|]. rewrite length_app. simpl. lia.
    + intros j Hj. rewrite drop_app_le by lia. rewrite !total_len_app. simpl.
      pose proof (total_len_nonneg (drop j pre)). lia.
  - destruct (IH (r :: post) (m - total_len post - serialized_len r)) as (n & Hn & Hf & Ht & Hj);
      [simpl; lia|simpl; lia|].
    exists n. split_and!; [lia|done| |].
    + rewrite drop_app_le by lia. by rewrite <-app_assoc.
    + intros j Hjn. rewrite drop_app_le by lia. rewrite <-app_assoc. by apply Hj.
Qed.

(** [apply_size_bounds] keeps the longest run of newest records that is within
    the bounds: it drops [n] of the oldest, and dropping fewer would exceed a
    bound. *)
Lemma apply_size_bounds_longest kept policy :
  policy_wf policy →
  ∃ n, apply_size_bounds kept policy = drop n kept ∧ (n ≤ length kept)%nat ∧
    within_bounds policy (drop n kept) ∧
    ∀ j, (j < n)%nat → ¬ within_bounds policy (drop j kept).
Proof.
  intros [Hc Hb]. unfold apply_size_bounds.
  set (c := match max_count policy with Some max => Z.to_nat (len kept - max) | None => 0%nat end).
  assert (match max_count policy with
    | Some max => if len kept >? max then drop (Z.to_nat (len kept - max)) kept else kept
    | None => kept end = drop c kept) as ->.
  { subst c. destruct (max_count policy) as [m|]; [|done].
    destruct (Z.gtb_spec (len kept) m); [done|].
    by replace (Z.to_nat (len kept - m)) with 0%nat by lia. }
  assert ((c ≤ length kept)%nat ∧ within_count policy (drop c kept) ∧
    ∀ j, (j < c)%nat → ¬ within_count policy (drop j kept)) as (Hcl & Hcw & Hcj).
  { subst c. unfold within_count, len in *. destruct (max_count policy) as [m|].
    - rewrite length_drop. split_and!; [lia..|]. intros j Hj. rewrite length_drop. lia.
    - split_and!; [lia|done|lia]. }
  unfold within_bounds, within_bytes. destruct (max_bytes policy) as [m|]; last first.
  { exists c. split_and!; [done..|]. intros j Hj [Hw _]. by eapply Hcj. }
  destruct (first_within_budget_spec (drop c kept) [] m m) as (n & Hn & -> & Ht & Hj);
    [simpl; lia|simpl; lia|].
  setoid_rewrite app_nil_r in Ht. setoid_rewrite app_nil_r in Hj. setoid_rewrite drop_drop in Hj.
  rewrite length_drop in Hn. rewrite drop_drop in Ht |- *.
  exists (c + n)%nat. split_and!; [done|lia| |done|].
  - revert Hcw. unfold within_count, len. destruct (max_count policy); [|done].
    rewrite !length_drop. lia.
  - intros j Hjn [Hw Hb']. destruct (decide (j < c)%nat) as [Hlt|Hge]; [by eapply Hcj|].
    specialize (Hj (j - c)%nat). replace (c + (j - c))%nat with j in Hj by lia. lia.
Qed.

(** A sequence already within the bounds is kept whole. *)
Lemma apply_size_bounds_id kept policy :
  policy_wf policy → within_bounds policy kept → apply_size_bounds kept policy = kept.
Proof.
  intros Hwf Hk. destruct (apply_size_bounds_longest kept policy Hwf) as (n & -> & _ & _ & Hj).
  destruct n as [|n]; [done|]. destruct (Hj 0%nat); [lia|done].
Qed.

Lemma apply_size_bounds_sublist kept policy :
  policy_wf policy → apply_size_bounds kept policy `sublist_of` kept.
Proof.
  intros Hwf. destruct (apply_size_bounds_longest kept policy Hwf) as (n & -> & _). apply sublist_drop.
Qed.
End size_bounds_spec.

(** ** Retention of events and of dead triggers *)

Section retention_spec.
Context `{Serialize EventEnvelope} `{Serialize DeadTriggerRecord}.
Implicit Types (policy : AutoRetention) (delivered : gset EventId) (events : list EventEnvelope).

Definition past_max_age policy (now ts : DateTime) : Prop :=
  ∃ a, max_age policy = Some a ∧ now - ts > a.

Definition past_grace delivered policy now (e : EventEnvelope) : Prop :=
  ev_id e ∈ delivered ∧ ∃ g, delivered_grace policy = Some g ∧ now - ev_timestamp e > g.

Lemma event_survives_false delivered policy now e :
  event_survives delivered policy now e = false ↔
  past_max_age policy now (ev_timestamp e) ∨ past_grace delivered policy now e.
Proof.
  unfold event_survives, past_max_age, past_grace.
  destruct (max_age policy) as [a|]; destruct (delivered_grace policy) as [g|];
    repeat match goal with |- context [?x >? ?y] => destruct (Z.gtb_spec x y) end;
    destruct (decide (ev_id e ∈ delivered));
    rewrite ?bool_decide_true, ?bool_decide_false by done; simpl;
    (split; [intros Hs; try discriminate Hs; eauto 8 with lia|
             intros [(a' & ? & ?)|(? & g' & ? & ?)]; simplify_eq; try done; lia]).
Qed.

Lemma record_survives_false policy now r :
  record_survives policy now r = false ↔ past_max_age policy now (ev_timestamp (dt_event r)).
Proof.
  unfold record_survives, past_max_age. destruct (max_age policy) as [a|].
  - rewrite Z.leb_gt. split; [eauto with lia|]. intros (? & [= <-] & ?). lia.
  - split; [done|]. by intros (? & ? & ?).
Qed.

(** Nothing is reordered or invented, every survivor passes the age tests, and
    the hard bounds hold of what is left. *)
Lemma retain_events_bounded events delivered policy now :
  policy_wf policy →
  retain_events events delivered policy now `sublist_of` events ∧
  within_bounds policy (retain_events events delivered policy now) ∧
  ∀ e, e ∈ retain_events events delivered policy now →
    ¬ past_max_age policy now (ev_timestamp e) ∧ ¬ past_grace delivered policy now e.
Proof.
  intros Hwf. unfold retain_events.
  destruct (apply_size_bounds_longest
    (filter (λ e, event_survives delivered policy now e = true) events) policy Hwf)
    as (n & -> & _ & Hb & _).
  split_and!; [|done|].
  - etrans; [apply sublist_drop|apply sublist_filter].
  - intros e He. assert (e ∈ filter (λ e, event_survives delivered policy now e = true) events) as Hf.
    { rewrite <-(take_drop n). apply elem_of_app. by right. }
    apply list_elem_of_filter in Hf as [Hs _].
    assert (¬ event_survives delivered policy now e = false) as Hn by congruence.
    rewrite event_survives_false in Hn. tauto.
Qed.

(** The only ways to lose an event: it crossed the hard age bound, it was
    delivered and crossed the grace window, or keeping it together with the
    newer survivors would have exceeded a hard size bound. In particular an
    undelivered event is only ever removed by a hard bound. *)
Lemma retain_events_removed events delivered policy now e :
  policy_wf policy → e ∈ events → e ∉ retain_events events delivered policy now →
  past_max_age policy now (ev_timestamp e) ∨
  past_grace delivered policy now e ∨
  ∃ older newer,
    filter (λ e, event_survives delivered policy now e = true) events = older ++ e :: newer ∧
    ¬ within_bounds policy (e :: newer).
Proof.
  intros Hwf He Hout. destruct (event_survives delivered policy now e) eqn:Hs; last first.
  { apply event_survives_false in Hs. tauto. }
  right; right. unfold retain_events in Hout.
  set (kept := filter _ events) in *.
  assert (e ∈ kept) as Hin by (by apply list_elem_of_filter).
  destruct (apply_size_bounds_longest kept policy Hwf) as (n & Heq & _ & _ & Hj).
  rewrite Heq in Hout. rewrite <-(take_drop n kept) in Hin.
  apply elem_of_app in Hin as [Hin|Hin]; [|done].
  apply list_elem_of_lookup in Hin as [j Hlk].
  pose proof (lookup_lt_Some _ _ _ Hlk) as Hlt. rewrite length_take in Hlt.
  rewrite lookup_take_lt in Hlk by lia.
  exists (take j kept), (drop (S j) kept). split.
  - symmetry. by apply take_drop_middle.
  - rewrite <-(drop_S _ _ _ Hlk). apply Hj. lia.
Qed.

(** Retention policies without hard bounds: only delivered events expire. *)
Definition grace_only (policy : AutoRetention) : Prop :=
  max_age policy = None ∧ max_count policy = None ∧ max_bytes policy = None.

(** What retention without hard bounds drops was delivered in the snapshot. *)
Lemma grace_only_keeps events delivered policy now e :
  grace_only policy → e ∈ events → e ∈ retain_events events delivered policy now ∨ ev_id e ∈ delivered.
Proof.
  intros (Ha & Hc & Hb) He. unfold retain_events, apply_size_bounds. rewrite Hc, Hb.
  destruct (event_survives delivered policy now e) eqn:Hs; [left; by apply list_elem_of_filter|].
  right. unfold event_survives in Hs. rewrite Ha in Hs. destruct (delivered_grace policy); [|done].
  apply negb_false_iff, andb_true_iff in Hs as [Hs _]. by apply bool_decide_eq_true in Hs.
Qed.

(** A second sweep at the same instant removes nothing more. *)
Lemma retain_events_idempotent events delivered policy now :
  policy_wf policy →
  retain_events (retain_events events delivered policy now) delivered policy now =
  retain_events events delivered policy now.
Proof.
  intros Hwf. destruct (retain_events_bounded events delivered policy now Hwf) as (_ & Hb & Hs).
  unfold retain_events at 1. rewrite filter_all.
  - by apply apply_size_bounds_id.
  - apply Forall_forall. intros e He. destruct (event_survives delivered policy now e) eqn:E; [done|].
    apply event_survives_false in E. destruct (Hs e He). tauto.
Qed.

(** C27: what automatic retention keeps and removes. What is kept is in order,
    within the hard bounds and past none of the ages. An event is lost only if it
    is past the hard age, or delivered and past the grace, or keeping it together
    with the newer survivors would exceed a hard size bound: an undelivered event
    is removed by a hard bound alone. A second sweep removes nothing more. *)
Theorem retention_is_exact events delivered policy now :
  policy_wf policy →
  let kept := retain_events events delivered policy now in
  kept `sublist_of` events ∧ within_bounds policy kept ∧
  (∀ e, e ∈ kept → ¬ past_max_age policy now (ev_timestamp e) ∧ ¬ past_grace delivered policy now e) ∧
  (∀ e, e ∈ events → e ∉ kept →
     past_max_age policy now (ev_timestamp e) ∨ past_grace delivered policy now e ∨
     ∃ older newer, filter (λ e, event_survives delivered policy now e = true) events = older ++ e :: newer ∧
       ¬ within_bounds policy (e :: newer)) ∧
  retain_events kept delivered policy now = kept.
Proof.
  intros Hwf kept. destruct (retain_events_bounded events delivered policy now Hwf) as (Hs & Hb & Ha).
  split; [done|]. split; [done|]. split; [done|]. split; [|by apply retain_events_idempotent].
  intros e. by apply retain_events_removed.
Qed.

(** dead triggers are bounded by the hard valves, oldest first, and never by
    the grace. *)
Theorem retain_dead_triggers_bounded records policy now :
  policy_wf policy →
  ∃ n, retain_dead_triggers records policy now =
         drop n (filter (λ r, record_survives policy now r = true) records) ∧
    within_bounds policy (retain_dead_triggers records policy now) ∧
    retain_dead_triggers records
      (mkAutoRetention None (max_age policy) (max_count policy) (max_bytes policy)) now =
    retain_dead_triggers records policy now.
Proof.
  intros Hwf. unfold retain_dead_triggers.
  destruct (apply_size_bounds_longest
    (filter (λ r, record_survives policy now r = true) records) policy Hwf) as (n & Heq & _ & Hb & _).
  exists n. rewrite Heq. split_and!; [done..|].
  unfold record_survives in *. simpl. by rewrite <-Heq.
Qed.

(** The unbounded policy keeps everything. *)
Lemma retain_events_unbounded events delivered now :
  retain_events events delivered unbounded now = events.
Proof.
  unfold retain_events, unbounded, apply_size_bounds. simpl. apply filter_all.
  by apply Forall_forall.
Qed.
End retention_spec.

(** Pruning by count keeps the newest [min max len] items and pruning by age
    keeps exactly the items at or after the cutoff, both in order. *)
Theorem keep_spec {T} (items : list T) (timestamp : T → DateTime) :
  (∀ max, 0 <= max → ∃ n, keep (KeepMostRecent max) items timestamp = drop n items ∧
     len (keep (KeepMostRecent max) items timestamp) = Z.min max (len items)) ∧
  (∀ cutoff, keep (OlderThan cutoff) items timestamp `sublist_of` items ∧
     ∀ x, x ∈ keep (OlderThan cutoff) items timestamp ↔ timestamp x >= cutoff ∧ x ∈ items).
Proof.
  split; [intros max Hmax|intros cutoff]; simpl.
  - eexists. split; [done|]. unfold len. rewrite length_drop. lia.
  - split; [apply sublist_filter|]. intros x. by rewrite list_elem_of_filter.
Qed.

(** Pruning or retaining never yields more records than there were, so the
    count of removed records does not wrap around. *)
Lemma keep_len_le {T} (p : ManualRetention) (items : list T) ts : len (keep p items ts) <= len items.
Proof.
  unfold len. destruct p as [cutoff|max]; simpl.
  - apply Nat2Z.inj_le, length_filter.
  - rewrite length_drop. lia.
Qed.
