(* ===== verification/Store.v ===== *)
(** * The storage contracts: [crates/triggerlane-storage/src/lib.rs], lines 171-302 and 567-660

    The traits [EventStore] and [DeadTriggerQueue] as type classes, what a
    backend promises through them ([EventStoreSpec], [DeadTriggerQueueSpec]: a
    refinement of the abstract logs [EventLog] and [list DeadTriggerRecord]),
    and the in-memory backends. The file backends are in [FileStore]. *)

From stdpp Require Import base gmap strings list.
From Stdlib Require Import ZArith Lia.
From S2P Require Import Prelude RustStd Event Retention.
Local Open Scope Z_scope.

(** ** The locks

    [std::sync::Mutex]: a holder that panics leaves the value and poisons it.
    [PoisonError] carries the guard, which is the value here. *)

Record Mutex (T : Type) := mkMutex { mx_value : T; mx_poisoned : bool }.
Arguments mkMutex {T} _ _.
Arguments mx_value {T} _.
Arguments mx_poisoned {T} _.

Definition mutex_lock {T} (mutex : Mutex T) : result T T :=
  if mx_poisoned mutex then Err (mx_value mutex) else Ok (mx_value mutex).

(** [lock], which every method of the backends takes a lock with: never an error. *)
Definition lock {T} (mutex : Mutex T) : T :=
  match mutex_lock mutex with Ok guard => guard | Err poisoned => poisoned end.

(** ** [trait EventStore] *)

Class EventStore (S : Type) := {
  es_append : EventEnvelope → M S io_error unit;
  es_get : EventId → S → option EventEnvelope;
  es_all : S → list EventEnvelope;
  es_mark_delivered : EventId → M S io_error unit;
  es_undelivered : S → list EventEnvelope;
  es_enforce_retention : AutoRetention → DateTime → M S io_error Z;
  es_len : S → Z;
  es_size_bytes : S → Z;
  es_find_by_idempotency_key : string → S → option EventEnvelope;
  es_prune : ManualRetention → M S io_error Z;
}.

(** The test of [find_by_idempotency_key]:
    [event.metadata.idempotency_key.as_deref() == Some(key)]. *)
Definition has_idempotency_key (key : string) (event : EventEnvelope) : bool :=
  bool_decide (idempotency_key (ev_metadata event) = Some key).

(** The trait's provided methods, for a backend that does not override them. *)
Section default_methods.
Context {S : Type} (all : S → list EventEnvelope).

Definition default_mark_delivered (_id : EventId) : M S io_error unit := mret tt.
Definition default_undelivered (s : S) : list EventEnvelope := all s.
Definition default_enforce_retention (_policy : AutoRetention) (_now : DateTime) : M S io_error Z := mret 0.
Definition default_len (s : S) : Z := len (all s).
Definition default_is_empty (s : S) : bool := default_len s =? 0.
Definition default_size_bytes (_ : S) : Z := 0.
Definition default_find_by_idempotency_key (key : string) (s : S) : option EventEnvelope :=
  List.find (has_idempotency_key key) (all s).
End default_methods.

(** ** The abstract event log *)

Record EventLog := mkEventLog {
  log_events : list EventEnvelope;
  log_delivered : gset EventId;
}.

Definition ids (events : list EventEnvelope) : gset EventId := list_to_set (ev_id <$> events).

Definition log_append (e : EventEnvelope) (l : EventLog) : EventLog :=
  mkEventLog (log_events l ++ [e]) (log_delivered l).

Definition log_mark_delivered (id : EventId) (l : EventLog) : EventLog :=
  mkEventLog (log_events l) ({[id]} ∪ log_delivered l).

Definition log_get (id : EventId) (l : EventLog) : option EventEnvelope :=
  List.find (λ e, bool_decide (ev_id e = id)) (log_events l).

Definition log_undelivered (l : EventLog) : list EventEnvelope :=
  filter (λ e, ev_id e ∉ log_delivered l) (log_events l).

(** Retention drops events, and the delivery marks of the dropped events. *)
Definition log_enforce_retention `{Serialize EventEnvelope}
    (policy : AutoRetention) (now : DateTime) (l : EventLog) : Z * EventLog :=
  let kept := retain_events (log_events l) (log_delivered l) policy now in
  let removed := len (log_events l) - len kept in
  if removed >? 0 then (removed, mkEventLog kept (log_delivered l ∩ ids kept)) else (removed, l).

Definition log_prune (policy : ManualRetention) (l : EventLog) : Z * EventLog :=
  let kept := keep policy (log_events l) ev_timestamp in
  (len (log_events l) - len kept, mkEventLog kept (log_delivered l)).

(** What a backend promises: through [view] it is an [EventLog], every operation
    that succeeds is the log's operation, and one that fails leaves the log as
    it was, except that a failing retention sweep may already have dropped the
    events (never a mark). *)
Class EventStoreSpec (S : Type) `{EventStore S} `{Serialize EventEnvelope} := {
  view : S → EventLog;
  all_view s : es_all s = log_events (view s);
  get_view id s : es_get id s = log_get id (view s);
  undelivered_view s : es_undelivered s = log_undelivered (view s);
  len_view s : es_len s = len (log_events (view s));
  find_view key s :
    es_find_by_idempotency_key key s = List.find (has_idempotency_key key) (log_events (view s));
  append_ok e s s' : es_append e s = (Ok tt, s') → view s' = log_append e (view s);
  append_err e s x s' : es_append e s = (Err x, s') → view s' = view s;
  mark_delivered_ok id s s' :
    es_mark_delivered id s = (Ok tt, s') → view s' = log_mark_delivered id (view s);
  mark_delivered_err id s x s' : es_mark_delivered id s = (Err x, s') → view s' = view s;
  enforce_retention_ok policy now s n s' :
    es_enforce_retention policy now s = (Ok n, s') →
    (n, view s') = if is_unbounded policy then (0, view s) else log_enforce_retention policy now (view s);
  enforce_retention_err policy now s x s' :
    es_enforce_retention policy now s = (Err x, s') →
    view s' = view s ∨
    view s' = mkEventLog (log_events (log_enforce_retention policy now (view s)).2) (log_delivered (view s));
  prune_ok policy s n s' :
    es_prune policy s = (Ok n, s') → (n, view s') = log_prune policy (view s);
  prune_err policy s x s' : es_prune policy s = (Err x, s') → view s' = view s;
}.

(** What a durable backend promises besides: while its files are in order, they hold
    what [view] says. Opening them again, after the process ended or the power was
    lost, gives that log back. The operations that report success keep the files in
    order; one that fails need not. *)
Class DurableEventStore (S : Type) `{EventStoreSpec S} := {
  es_in_order : S → Prop;
  es_reopens : S → S → Prop;
  append_in_order e s s' : es_append e s = (Ok tt, s') → es_in_order s → es_in_order s';
  mark_delivered_in_order id s s' : es_mark_delivered id s = (Ok tt, s') → es_in_order s → es_in_order s';
  enforce_retention_in_order policy now s n s' :
    es_enforce_retention policy now s = (Ok n, s') → es_in_order s → es_in_order s';
  prune_in_order policy s n s' : es_prune policy s = (Ok n, s') → es_in_order s → es_in_order s';
  reopens_view s s' : es_in_order s → es_reopens s s' → view s' = view s ∧ es_in_order s';
}.

(** ** [InMemoryEventStore] *)

Record InMemoryEventStore := mkInMemoryEventStore {
  mem_events : list EventEnvelope;
  mem_delivered : gset EventId;
}.

Definition InMemoryEventStore_new : InMemoryEventStore := mkInMemoryEventStore [] ∅.

Section in_memory.
Context `{Serialize EventEnvelope}.
Local Abbreviation Mem := (M InMemoryEventStore io_error).

Definition mem_append (event : EventEnvelope) : Mem unit := λ s,
  (Ok tt, mkInMemoryEventStore (mem_events s ++ [event]) (mem_delivered s)).

Definition mem_get (id : EventId) (s : InMemoryEventStore) : option EventEnvelope :=
  List.find (λ event, bool_decide (ev_id event = id)) (mem_events s).

Definition mem_mark_delivered (id : EventId) : Mem unit := λ s,
  (Ok tt, mkInMemoryEventStore (mem_events s) ({[id]} ∪ mem_delivered s)).

Definition mem_undelivered (s : InMemoryEventStore) : list EventEnvelope :=
  filter (λ event, ev_id event ∉ mem_delivered s) (mem_events s).

Definition mem_enforce_retention (policy : AutoRetention) (now : DateTime) : Mem Z := λ s,
  if is_unbounded policy then (Ok 0, s) else
  let kept := retain_events (mem_events s) (mem_delivered s) policy now in
  let removed := len (mem_events s) - len kept in
  if removed >? 0 then
    let kept_ids := ids kept in
    (Ok removed, mkInMemoryEventStore kept (filter (λ id, id ∈ kept_ids) (mem_delivered s)))
  else (Ok removed, s).

Definition mem_prune (policy : ManualRetention) : Mem Z := λ s,
  let kept := keep policy (mem_events s) ev_timestamp in
  let removed := len (mem_events s) - len kept in
  (Ok removed, mkInMemoryEventStore kept (mem_delivered s)).

#[export] Instance InMemoryEventStore_EventStore : EventStore InMemoryEventStore := {
  es_append := mem_append;
  es_get := mem_get;
  es_all := mem_events;
  es_mark_delivered := mem_mark_delivered;
  es_undelivered := mem_undelivered;
  es_enforce_retention := mem_enforce_retention;
  es_len := λ s, len (mem_events s);
  es_size_bytes := default_size_bytes;
  es_find_by_idempotency_key := default_find_by_idempotency_key mem_events;
  es_prune := mem_prune;
}.

Lemma filter_gset_inter (X Y : gset EventId) : filter (λ id, id ∈ Y) X = X ∩ Y.
Proof. apply set_eq. intros x. rewrite elem_of_filter, elem_of_intersection. tauto. Qed.

#[export] Instance InMemoryEventStore_EventStoreSpec : EventStoreSpec InMemoryEventStore.
Proof.
  refine {| view := λ s, mkEventLog (mem_events s) (mem_delivered s) |}; try done.
  - by intros e s s' [= <-].
  - by intros id s s' [= <-].
  - intros policy now s n s' Hs. simpl in Hs. unfold mem_enforce_retention in Hs.
    destruct (is_unbounded policy); [by simplify_eq|]. unfold log_enforce_retention; simpl.
    case_match; simplify_eq; simpl; by rewrite ?filter_gset_inter.
  - intros policy now s x s' Hs. simpl in Hs. unfold mem_enforce_retention in Hs.
    repeat case_match; simplify_eq.
  - by intros policy s n s' [= <- <-].
Defined.
End in_memory.

(** ** [trait DeadTriggerQueue] *)

Class DeadTriggerQueue (Q : Type) := {
  dq_record : DeadTriggerRecord → M Q io_error unit;
  dq_all : Q → list DeadTriggerRecord;
  dq_drain : M Q io_error (list DeadTriggerRecord);
  dq_prune : ManualRetention → M Q io_error Z;
  dq_len : Q → Z;
  dq_size_bytes : Q → Z;
  dq_enforce_retention : AutoRetention → DateTime → M Q io_error Z;
}.

(** What a queue promises: a sequence of records; an operation that fails leaves
    it as it was. *)
Class DeadTriggerQueueSpec (Q : Type) `{DeadTriggerQueue Q} `{Serialize DeadTriggerRecord} := {
  records : Q → list DeadTriggerRecord;
  dq_all_view q : dq_all q = records q;
  dq_len_view q : dq_len q = len (records q);
  dq_record_ok r q q' : dq_record r q = (Ok tt, q') → records q' = records q ++ [r];
  dq_record_err r q x q' : dq_record r q = (Err x, q') → records q' = records q;
  dq_drain_ok q l q' : dq_drain q = (Ok l, q') → l = records q ∧ records q' = [];
  dq_drain_err q x q' : dq_drain q = (Err x, q') → records q' = records q;
  dq_prune_ok p q n q' :
    dq_prune p q = (Ok n, q') →
    records q' = keep p (records q) (λ r, ev_timestamp (dt_event r)) ∧ n = len (records q) - len (records q');
  dq_prune_err p q x q' : dq_prune p q = (Err x, q') → records q' = records q;
  dq_enforce_retention_ok policy now q n q' :
    policy_wf policy → dq_enforce_retention policy now q = (Ok n, q') →
    records q' = retain_dead_triggers (records q) policy now ∧ n = len (records q) - len (records q');
  dq_enforce_retention_err policy now q x q' :
    dq_enforce_retention policy now q = (Err x, q') → records q' = records q;
}.

(** The same of a durable queue. *)
Class DurableDeadTriggerQueue (Q : Type) `{DeadTriggerQueueSpec Q} := {
  dq_in_order : Q → Prop;
  dq_reopens : Q → Q → Prop;
  dq_record_in_order r q q' : dq_record r q = (Ok tt, q') → dq_in_order q → dq_in_order q';
  dq_drain_in_order q l q' : dq_drain q = (Ok l, q') → dq_in_order q → dq_in_order q';
  dq_prune_in_order p q n q' : dq_prune p q = (Ok n, q') → dq_in_order q → dq_in_order q';
  dq_enforce_retention_in_order policy now q n q' :
    dq_enforce_retention policy now q = (Ok n, q') → dq_in_order q → dq_in_order q';
  dq_reopens_view q q' : dq_in_order q → dq_reopens q q' → records q' = records q ∧ dq_in_order q';
}.

(** ** [InMemoryDeadTriggerQueue] *)

Record InMemoryDeadTriggerQueue := mkInMemoryDeadTriggerQueue { mem_records : list DeadTriggerRecord }.

Definition InMemoryDeadTriggerQueue_new : InMemoryDeadTriggerQueue := mkInMemoryDeadTriggerQueue [].

(** A retained sequence that lost nothing is the whole sequence. *)
Lemma retain_dead_triggers_none_removed `{Serialize DeadTriggerRecord} rs policy now :
  policy_wf policy → len rs - len (retain_dead_triggers rs policy now) <= 0 →
  retain_dead_triggers rs policy now = rs.
Proof.
  intros Hwf Hl. assert (retain_dead_triggers rs policy now `sublist_of` rs) as Hs.
  { unfold retain_dead_triggers. etrans; [by apply apply_size_bounds_sublist|apply sublist_filter]. }
  apply (sublist_same_length _ _ Hs). unfold len in Hl. lia.
Qed.

Lemma retain_dead_triggers_unbounded `{Serialize DeadTriggerRecord} rs policy now :
  is_unbounded policy = true → retain_dead_triggers rs policy now = rs.
Proof.
  destruct policy as [[g|] [a|] [c|] [b|]]; try done. intros _.
  unfold retain_dead_triggers, apply_size_bounds. simpl. apply filter_all. by apply Forall_forall.
Qed.

Section in_memory_queue.
Context `{Serialize DeadTriggerRecord}.
Local Abbreviation MemQ := (M InMemoryDeadTriggerQueue io_error).

Definition memq_record (record : DeadTriggerRecord) : MemQ unit := λ q,
  (Ok tt, mkInMemoryDeadTriggerQueue (mem_records q ++ [record])).

Definition memq_drain : MemQ (list DeadTriggerRecord) := λ q,
  (Ok (mem_records q), mkInMemoryDeadTriggerQueue []).

Definition memq_prune (policy : ManualRetention) : MemQ Z := λ q,
  let kept := keep policy (mem_records q) (λ record, ev_timestamp (dt_event record)) in
  let removed := len (mem_records q) - len kept in
  (Ok removed, mkInMemoryDeadTriggerQueue kept).

Definition memq_enforce_retention (policy : AutoRetention) (now : DateTime) : MemQ Z := λ q,
  if is_unbounded policy then (Ok 0, q) else
  let kept := retain_dead_triggers (mem_records q) policy now in
  let removed := len (mem_records q) - len kept in
  if removed >? 0 then (Ok removed, mkInMemoryDeadTriggerQueue kept) else (Ok removed, q).

#[export] Instance InMemoryDeadTriggerQueue_DeadTriggerQueue : DeadTriggerQueue InMemoryDeadTriggerQueue := {
  dq_record := memq_record;
  dq_all := mem_records;
  dq_drain := memq_drain;
  dq_prune := memq_prune;
  dq_len := λ q, len (mem_records q);
  dq_size_bytes := λ _, 0;
  dq_enforce_retention := memq_enforce_retention;
}.

#[export] Instance InMemoryDeadTriggerQueue_Spec : DeadTriggerQueueSpec InMemoryDeadTriggerQueue.
Proof.
  refine {| records := mem_records |}; try done.
  - by intros r q q' [= <-].
  - by intros q l q' [= <- <-].
  - by intros p q n q' [= <- <-].
  - intros policy now q n q' Hwf Hq. simpl in Hq. unfold memq_enforce_retention in Hq.
    destruct (is_unbounded policy) eqn:Hu.
    { simplify_eq. rewrite retain_dead_triggers_unbounded by done. split; [done|lia]. }
    destruct (Z.gtb_spec (len (mem_records q) - len (retain_dead_triggers (mem_records q) policy now)) 0);
      simplify_eq; [done|].
    by rewrite retain_dead_triggers_none_removed.
  - intros policy now q x q' Hq. simpl in Hq. unfold memq_enforce_retention in Hq.
    repeat case_match; simplify_eq.
Defined.
End in_memory_queue.
