(* ===== verification/FileSystem.v ===== *)
(** * The file system the stores run on

    The operations of [std::fs] that [crates/triggerlane-storage/src/lib.rs]
    calls, over named inodes, and what a power loss leaves behind.

    Every system call takes the next entry of the environment's schedule
    [fs_faults]: [None], or an exhausted schedule, lets it succeed; [Some f]
    makes it fail with [f]'s error, a [write_all] after the first
    [f.fault_written] bytes of its buffer. Theorems quantify over the schedule,
    so they cover every pattern of failures. The advisory lock of the [fs2]
    crate is such a call: whether another process holds it is the schedule's
    answer. *)

From stdpp Require Import base gmap strings list.
From Stdlib Require Import ZArith Lia.
From S2P Require Import Prelude RustStd.

Record Fault := mkFault {
  fault_error : io_error;
  fault_written : nat;
}.

Abbreviation inode := nat.

Record FS := mkFS {
  fs_dir : gmap string inode;          (** names, as processes see them *)
  fs_data : gmap inode bytes;          (** contents, as processes see them *)
  fs_durable_dir : gmap string inode;  (** names that survive a power loss *)
  fs_durable : gmap inode bytes;       (** contents that survive a power loss *)
  fs_next : inode;                     (** the next unused inode *)
  fs_faults : list (option Fault);     (** the environment's schedule *)
}.

Definition fs_empty : FS := mkFS ∅ ∅ ∅ ∅ 0 [].

Definition set_dir (d : gmap string inode) (fs : FS) : FS :=
  mkFS d (fs_data fs) (fs_durable_dir fs) (fs_durable fs) (fs_next fs) (fs_faults fs).
Definition set_data (d : gmap inode bytes) (fs : FS) : FS :=
  mkFS (fs_dir fs) d (fs_durable_dir fs) (fs_durable fs) (fs_next fs) (fs_faults fs).
Definition set_durable_dir (d : gmap string inode) (fs : FS) : FS :=
  mkFS (fs_dir fs) (fs_data fs) d (fs_durable fs) (fs_next fs) (fs_faults fs).
Definition set_durable (d : gmap inode bytes) (fs : FS) : FS :=
  mkFS (fs_dir fs) (fs_data fs) (fs_durable_dir fs) d (fs_next fs) (fs_faults fs).
Definition set_faults (l : list (option Fault)) (fs : FS) : FS :=
  mkFS (fs_dir fs) (fs_data fs) (fs_durable_dir fs) (fs_durable fs) (fs_next fs) l.

(** The contents of an inode; a new inode is empty. *)
Definition content (fs : FS) (i : inode) : bytes := default [] (fs_data fs !! i).
Definition durable (fs : FS) (i : inode) : bytes := default [] (fs_durable fs !! i).

Abbreviation IO := (M FS io_error).

(** One system call: its effect when it succeeds, and what a failing one leaves
    behind after [n] bytes. *)
Definition syscall {A} (run : FS → result io_error A * FS) (torn : nat → FS → FS) : IO A := λ fs,
  match fs_faults fs with
  | Some f :: rest => (Err (fault_error f), torn (fault_written f) (set_faults rest fs))
  | _ :: rest => run (set_faults rest fs)
  | [] => run fs
  end.

Definition no_tear (n : nat) (fs : FS) : FS := fs.

(** [std::fs::read]. *)
Definition fs_read (path : string) : IO bytes :=
  syscall (λ fs, match fs_dir fs !! path with
                 | Some i => (Ok (content fs i), fs)
                 | None => (Err (mkIoError NotFound "No such file or directory"), fs)
                 end) no_tear.

(** [Path::exists]. *)
Definition fs_exists (path : string) (fs : FS) : bool := bool_decide (is_Some (fs_dir fs !! path)).

(** The inode a name opens with [create(true)]: its own, or a new empty one. *)
Definition open_or_create (path : string) (fs : FS) : inode * FS :=
  match fs_dir fs !! path with
  | Some i => (i, fs)
  | None =>
    (fs_next fs,
     mkFS (<[path := fs_next fs]> (fs_dir fs)) (<[fs_next fs := []]> (fs_data fs))
       (fs_durable_dir fs) (fs_durable fs) (S (fs_next fs)) (fs_faults fs))
  end.

(** [OpenOptions::new().create(true).append(true).open(path)]. *)
Definition fs_open_append (path : string) : IO inode :=
  syscall (λ fs, let '(i, fs') := open_or_create path fs in (Ok i, fs')) no_tear.

(** A file cut to nothing. *)
Definition truncated (file : inode) (fs : FS) : FS := set_data (<[file := []]> (fs_data fs)) fs.

(** [OpenOptions::new().create(true).write(true).truncate(true).open(path)]. *)
Definition fs_open_truncate (path : string) : IO inode :=
  syscall (λ fs, let '(i, fs') := open_or_create path fs in
                 (Ok i, truncated i fs')) no_tear.

(** Add bytes at the end of a file. Every handle of the stores writes there: it
    was opened with [O_APPEND], or truncated and written sequentially. *)
Definition extend (file : inode) (b : bytes) (fs : FS) : FS :=
  set_data (<[file := content fs file ++ b]> (fs_data fs)) fs.

(** [Write::write_all]: a failing one has written a proper prefix. *)
Definition fs_write_all (file : inode) (b : bytes) : IO unit :=
  syscall (λ fs, (Ok tt, extend file b fs))
          (λ n fs, extend file (take (min n (length b - 1)) b) fs).

(** [File::sync_data] and [File::sync_all]: both make the contents durable. *)
Definition synced (file : inode) (fs : FS) : FS :=
  set_durable (<[file := content fs file]> (fs_durable fs)) fs.
Definition fs_sync (file : inode) : IO unit := syscall (λ fs, (Ok tt, synced file fs)) no_tear.

(** [File::set_len(0)]. *)
Definition fs_truncate (file : inode) : IO unit := syscall (λ fs, (Ok tt, truncated file fs)) no_tear.

(** [std::fs::rename]. *)
Definition fs_rename (from to : string) : IO unit :=
  syscall (λ fs, match fs_dir fs !! from with
                 | Some i => (Ok tt, set_dir (<[to := i]> (delete from (fs_dir fs))) fs)
                 | None => (Err (mkIoError NotFound "No such file or directory"), fs)
                 end) no_tear.

(** [File::open(dir)?.sync_all()] on the directory the stores are in. *)
Definition fs_sync_dir : IO unit :=
  syscall (λ fs, (Ok tt, set_durable_dir (fs_dir fs) fs)) no_tear.

(** [FileExt::try_lock_exclusive]. *)
Definition fs_try_lock_exclusive (file : inode) : IO unit :=
  syscall (λ fs, (Ok tt, fs)) no_tear.

(** [fs::metadata(path).map(|m| m.len()).unwrap_or(0)]. *)
Definition fs_size (path : string) (fs : FS) : Z :=
  match fs_dir fs !! path with Some i => Z.of_nat (length (content fs i)) | None => 0 end.

(** ** Power loss

    What was synced is kept. Of an append that was not synced any part may have
    reached the disk, in order; of any other change of a file, all or nothing;
    of the names, the synced ones or the current ones. *)

Definition crash_content (d c b : bytes) : Prop :=
  b = d ∨ b = c ∨ ∃ tail p, c = d ++ tail ∧ p `prefix_of` tail ∧ b = d ++ p.

Inductive crash (fs : FS) : FS → Prop :=
| crash_intro dir data faults :
    (dir = fs_durable_dir fs ∨ dir = fs_dir fs) →
    (∀ i, crash_content (durable fs i) (content fs i) (default [] (data !! i))) →
    crash fs (mkFS dir data dir data (fs_next fs) faults).

(** The power loss that leaves exactly what was synced. *)
Definition power_loss (fs : FS) : FS :=
  mkFS (fs_durable_dir fs) (fs_durable fs) (fs_durable_dir fs) (fs_durable fs) (fs_next fs) [].

Lemma crash_power_loss fs : crash fs (power_loss fs).
Proof. constructor; [by left|]. intros i. by left. Qed.

(** ** Runs without failures *)

Definition no_faults (fs : FS) : Prop := fs_faults fs = [].

Lemma syscall_ok {A} (run : FS → result io_error A * FS) torn fs :
  no_faults fs → syscall run torn fs = run fs.
Proof. unfold no_faults, syscall. by intros ->. Qed.

(** A system call either takes effect or fails; the schedule decides. *)
Lemma syscall_cases {A} (run : FS → result io_error A * FS) torn fs :
  ∃ rest, syscall run torn fs = run (set_faults rest fs) ∨
    ∃ f, syscall run torn fs = (Err (fault_error f), torn (fault_written f) (set_faults rest fs)).
Proof.
  unfold syscall. destruct fs as [? ? ? ? ? [|[f|] rest]]; simpl.
  - exists []. by left.
  - exists rest. right. by exists f.
  - exists rest. by left.
Qed.

Lemma content_extend fs i b j :
  content (extend i b fs) j = if decide (i = j) then content fs i ++ b else content fs j.
Proof.
  unfold content, extend. simpl. rewrite lookup_insert. by case_decide.
Qed.

(** ** Outcomes of a system call, and what it leaves alone *)

Lemma syscall_ok_inv {A} (run : FS → result io_error A * FS) torn fs a fs' :
  syscall run torn fs = (Ok a, fs') → ∃ rest, run (set_faults rest fs) = (Ok a, fs').
Proof.
  destruct (syscall_cases run torn fs) as (rest & [->|(f & ->)]); [eauto|done].
Qed.

(** The schedule a successful call leaves, moved to the end of its effect. *)
Lemma fs_write_all_ok f x fs fs' :
  fs_write_all f x fs = (Ok tt, fs') → ∃ rest, fs' = set_faults rest (extend f x fs).
Proof. intros [rest [= <-]]%syscall_ok_inv. by exists rest. Qed.

Lemma fs_sync_ok f fs fs' :
  fs_sync f fs = (Ok tt, fs') → ∃ rest, fs' = set_faults rest (synced f fs).
Proof. intros [rest [= <-]]%syscall_ok_inv. by exists rest. Qed.

Lemma fs_truncate_ok f fs fs' :
  fs_truncate f fs = (Ok tt, fs') → ∃ rest, fs' = set_faults rest (truncated f fs).
Proof. intros [rest [= <-]]%syscall_ok_inv. by exists rest. Qed.

(** A predicate on file systems that does not read the schedule. *)
Definition ignores_faults (P : FS → Prop) : Prop := ∀ rest fs, P fs → P (set_faults rest fs).

Lemma syscall_preserves {A} P (run : FS → result io_error A * FS) torn :
  ignores_faults P → (∀ fs, P fs → P (run fs).2) → (∀ n fs, P fs → P (torn n fs)) →
  preserves P (syscall run torn).
Proof.
  intros Hf Hr Ht fs Hfs.
  destruct (syscall_cases run torn fs) as (rest & [->|(f & ->)]); simpl; auto.
Qed.

(** A directory names every inode once, and new inodes are unused. *)
Record fs_wf (fs : FS) : Prop := mk_fs_wf {
  wf_inj p q i : fs_dir fs !! p = Some i → fs_dir fs !! q = Some i → p = q;
  wf_dir p i : fs_dir fs !! p = Some i → i < fs_next fs;
  wf_durable_dir p i : fs_durable_dir fs !! p = Some i → i < fs_next fs;
  wf_durable_inj p q i : fs_durable_dir fs !! p = Some i → fs_durable_dir fs !! q = Some i → p = q;
  wf_unused i : fs_next fs ≤ i → content fs i = [] ∧ durable fs i = [];
}.

(** [path] names the inode [i], also after a power loss, and [i] holds exactly
    [b], also after a power loss. *)
Record holds (path : string) (i : inode) (b : bytes) (fs : FS) : Prop := mk_holds {
  holds_dir : fs_dir fs !! path = Some i;
  holds_durable_dir : fs_durable_dir fs !! path = Some i;
  holds_content : content fs i = b;
  holds_durable : durable fs i = b;
}.

Definition safe (path : string) (i : inode) (b : bytes) (fs : FS) : Prop :=
  fs_wf fs ∧ holds path i b fs.

Section framing.
Context (path : string) (i : inode) (b : bytes).

Lemma fs_wf_ignores_faults : ignores_faults fs_wf.
Proof. intros rest fs []. by constructor. Qed.

Lemma safe_ignores_faults : ignores_faults (safe path i b).
Proof. intros rest fs [[] []]. split; by constructor. Qed.

Lemma fs_wf_extend f x fs : f < fs_next fs → fs_wf fs → fs_wf (extend f x fs).
Proof.
  intros Hf [Hi Hd Hdd Hddi Hu]. constructor; simpl; [done..|]. intros k Hk.
  rewrite content_extend, decide_False by lia. by apply Hu.
Qed.

Lemma fs_wf_sync f fs :
  f < fs_next fs → fs_wf fs → fs_wf (synced f fs).
Proof.
  intros Hf [Hi Hd Hdd Hddi Hu]. constructor; simpl; [done..|]. intros k Hk.
  destruct (Hu k Hk) as [Hc Hdu]. split; [done|].
  unfold durable. simpl. rewrite lookup_insert_ne by lia. done.
Qed.

Lemma fs_wf_truncate f fs :
  fs_wf fs → fs_wf (truncated f fs).
Proof.
  intros [Hi Hd Hdd Hddi Hu]. constructor; simpl; [done..|]. intros k Hk.
  destruct (Hu k Hk) as [Hc Hdu]. split; [|done].
  unfold content. simpl. rewrite lookup_insert. by case_decide.
Qed.

(** Appending to another file that is in use. *)
Lemma safe_extend f x fs :
  f ≠ i → f < fs_next fs → safe path i b fs → safe path i b (extend f x fs).
Proof.
  intros Hf Hlt [Hwf []]. split; [by apply fs_wf_extend|]. constructor; [done..| |done].
  rewrite content_extend. by rewrite decide_False.
Qed.

Definition safe_with (f : inode) (fs : FS) : Prop := safe path i b fs ∧ f < fs_next fs.

Lemma safe_with_ignores_faults f : ignores_faults (safe_with f).
Proof. intros rest fs [Hs Hlt]. split; [by apply safe_ignores_faults|done]. Qed.

Lemma safe_write_all f x : f ≠ i → preserves (safe_with f) (fs_write_all f x).
Proof.
  intros Hf. apply syscall_preserves;
    [apply safe_with_ignores_faults|intros fs [Hs Hlt]|intros n fs [Hs Hlt]];
    (split; [by apply safe_extend|done]).
Qed.

Lemma safe_read p : preserves (safe path i b) (fs_read p).
Proof.
  apply syscall_preserves; [apply safe_ignores_faults|..]; intros; simpl; [by case_match|done].
Qed.

Lemma safe_try_lock f : preserves (safe path i b) (fs_try_lock_exclusive f).
Proof. by apply syscall_preserves; [apply safe_ignores_faults|..]. Qed.

Lemma safe_sync_dir : preserves (safe path i b) fs_sync_dir.
Proof.
  apply syscall_preserves; [apply safe_ignores_faults|..]; [|done].
  intros fs [[] []]. split; by constructor.
Qed.

Lemma safe_sync f : f ≠ i → preserves (safe_with f) (fs_sync f).
Proof.
  intros Hf. apply syscall_preserves; [apply safe_with_ignores_faults|intros fs Hs|done]; simpl.
  destruct Hs as [[Hwf []] Hlt]. split; [|done]. split; [by apply fs_wf_sync|].
  constructor; [done..|]. unfold durable in *. simpl. by rewrite lookup_insert_ne.
Qed.

(** Opening another name does not touch [path]'s file. *)
Lemma safe_open_or_create p fs j fs' :
  p ≠ path → safe path i b fs → open_or_create p fs = (j, fs') →
  safe path i b fs' ∧ fs_dir fs' !! p = Some j.
Proof.
  intros Hp [[Hinj Hdir Hddir Hdinj Hun] [Hd Hdd Hc Hdu]]. unfold open_or_create.
  destruct (fs_dir fs !! p) as [k|] eqn:Hk; intros [= <- <-];
    [split; [by split; constructor|done]|].
  simpl. rewrite lookup_insert_eq. split; [|done]. split; constructor; simpl.
  - intros q q' l Hq Hq'. rewrite lookup_insert in Hq, Hq'.
    repeat case_decide; simplify_eq; eauto;
      match goal with H : fs_dir fs !! _ = Some (fs_next fs) |- _ => apply Hdir in H; lia end.
  - intros q l Hq. rewrite lookup_insert in Hq. case_decide; simplify_eq; [lia|].
    apply Hdir in Hq. lia.
  - intros q l Hq. apply Hddir in Hq. lia.
  - eauto.
  - intros l Hl. destruct (Hun l) as [Hcl Hdl]; [lia|]. split; [|done].
    unfold content in *. simpl. by rewrite lookup_insert_ne by lia.
  - by rewrite lookup_insert_ne.
  - done.
  - unfold content in *. simpl. rewrite lookup_insert_ne; [done|].
    apply Hdir in Hd. lia.
  - done.
Qed.

Lemma safe_open_append p : p ≠ path → preserves (safe path i b) (fs_open_append p).
Proof.
  intros Hp. apply syscall_preserves; [apply safe_ignores_faults| |done].
  intros fs Hs. destruct (open_or_create p fs) as [j fs'] eqn:Ho. simpl.
  by eapply safe_open_or_create.
Qed.

Lemma safe_open_truncate p : p ≠ path → preserves (safe path i b) (fs_open_truncate p).
Proof.
  intros Hp. apply syscall_preserves; [apply safe_ignores_faults| |done].
  intros fs Hs. destruct (open_or_create p fs) as [j fs'] eqn:Ho. simpl.
  destruct (safe_open_or_create _ _ _ _ Hp Hs Ho) as [[Hwf []] Hj].
  assert (j ≠ i) by (intros ->; apply Hp; by eapply wf_inj).
  split; [by apply fs_wf_truncate|]. constructor; [done..| |done].
  unfold content in *. simpl. by rewrite lookup_insert_ne.
Qed.

(** A rename that fails changes nothing. *)
Lemma rename_err_safe p q fs e fs' :
  safe path i b fs → fs_rename p q fs = (Err e, fs') → safe path i b fs'.
Proof.
  intros Hs Hr. unfold fs_rename in Hr.
  match type of Hr with syscall ?rn ?t fs = _ =>
    destruct (syscall_cases rn t fs) as (rest & [Hr'|(f & Hr')]); rewrite Hr' in Hr end.
  - simpl in Hr. destruct (fs_dir fs !! p); simplify_eq. by apply safe_ignores_faults.
  - simplify_eq. by apply safe_ignores_faults.
Qed.
End framing.

(** [writing path i b tmp j x fs]: [path] safely holds [b] while [x] is being
    written to the inode [j] under the name [tmp]. *)
Definition writing (path : string) (i : inode) (b : bytes) (tmp : string) (j : inode) (x : bytes) (fs : FS) : Prop :=
  safe path i b fs ∧ fs_dir fs !! tmp = Some j ∧ content fs j = x ∧ tmp ≠ path.

(** [path] has been renamed over: processes see [j] with [new]; a power loss
    leaves either that or [i] with [old]. *)
Record switched (path : string) (i : inode) (old : bytes) (j : inode) (new : bytes) (fs : FS) : Prop := mk_switched {
  sw_wf : fs_wf fs;
  sw_dir : fs_dir fs !! path = Some j;
  sw_durable_dir : fs_durable_dir fs !! path = Some i ∨ fs_durable_dir fs !! path = Some j;
  sw_old_content : content fs i = old;
  sw_old_durable : durable fs i = old;
  sw_new_content : content fs j = new;
  sw_new_durable : durable fs j = new;
}.

Section compaction.
Context (path : string) (i : inode) (old : bytes) (tmp : string).

Lemma writing_ne j x fs : writing path i old tmp j x fs → j ≠ i ∧ j < fs_next fs.
Proof.
  intros ([[] []] & Htmp & _ & Hne). split; [|eauto]. intros ->. apply Hne. eauto.
Qed.

Lemma open_truncate_writing fs j fs' :
  tmp ≠ path → safe path i old fs → fs_open_truncate tmp fs = (Ok j, fs') →
  writing path i old tmp j [] fs'.
Proof.
  intros Hne Hs Ho. apply syscall_ok_inv in Ho as [rest Ho].
  apply (safe_ignores_faults path i old rest) in Hs.
  destruct (open_or_create tmp (set_faults rest fs)) as [k fs1] eqn:Hoc. simplify_eq.
  destruct (safe_open_or_create _ _ _ _ _ _ _ Hne Hs Hoc) as [[[] []] Htmp].
  assert (j ≠ i) by (intros ->; apply Hne; eauto).
  split_and!; simpl; [|done| |done].
  - split; [by apply fs_wf_truncate; constructor|]. constructor; simpl; try done.
    unfold content in *. simpl. by rewrite lookup_insert_ne.
  - unfold content. simpl. by rewrite lookup_insert_eq.
Qed.

Lemma write_all_writing j x y fs fs' :
  writing path i old tmp j x fs → fs_write_all j y fs = (Ok tt, fs') →
  writing path i old tmp j (x ++ y) fs'.
Proof.
  intros Hw Ho. pose proof (writing_ne _ _ _ Hw) as [Hji Hlt].
  destruct Hw as (Hs & Htmp & Hx & Hne).
  pose proof (safe_write_all path i old j y Hji fs (conj Hs Hlt)) as [Hs' _]. rewrite Ho in Hs'.
  apply syscall_ok_inv in Ho as [rest Ho]. simplify_eq/=.
  split_and!; [done|done| |done]. rewrite content_extend. by rewrite decide_True.
Qed.

(** A synced temporary file is renamed over [path]. *)
Lemma sync_rename_switched j x fs fs1 fs2 :
  writing path i old tmp j x fs → fs_sync j fs = (Ok tt, fs1) → fs_rename tmp path fs1 = (Ok tt, fs2) →
  switched path i old j x fs2.
Proof.
  intros Hw Ho Hr. pose proof (writing_ne _ _ _ Hw) as [Hji Hlt].
  destruct Hw as (Hs & Htmp & Hx & Hne).
  pose proof (safe_sync path i old j Hji fs (conj Hs Hlt)) as Hs'. rewrite Ho in Hs'.
  destruct Hs' as [[[Hinj Hdir Hddir Hdinj Hun] [Hd Hdd Hc Hdu]] _].
  apply syscall_ok_inv in Ho as [rest Ho]. simplify_eq/=.
  apply syscall_ok_inv in Hr as [rest' Hr]. simpl in Hr. rewrite Htmp in Hr. simplify_eq/=.
  constructor; simpl.
  - constructor; simpl; [|intros p k Hp|eauto..].
    + intros p q k Hp Hq. rewrite lookup_insert, lookup_delete in Hp, Hq.
      repeat case_decide; simplify_eq; eauto; exfalso.
      * match goal with H : tmp ≠ _ |- _ => apply H end. eauto.
      * match goal with H : tmp ≠ _ |- _ => apply H end. eauto.
    + rewrite lookup_insert, lookup_delete in Hp. repeat case_decide; simplify_eq; eauto.
  - by rewrite lookup_insert_eq.
  - by left.
  - done.
  - done.
  - done.
  - unfold durable. simpl. by rewrite lookup_insert_eq.
Qed.

Lemma switched_ignores_faults j x : ignores_faults (switched path i old j x).
Proof. intros rest fs [[]]. by constructor. Qed.

Lemma sync_dir_switched j x fs fs' :
  switched path i old j x fs → fs_sync_dir fs = (Ok tt, fs') → safe path j x fs'.
Proof.
  intros [[] ] Ho. apply syscall_ok_inv in Ho as [rest Ho]. simplify_eq/=.
  split; by constructor.
Qed.

Lemma switched_sync_dir j x : preserves (switched path i old j x) fs_sync_dir.
Proof.
  apply syscall_preserves; [apply switched_ignores_faults| |done].
  intros fs [[]]. constructor; try done. by right.
Qed.
End compaction.

(** Opening an existing file for appending changes nothing. *)
Lemma open_append_existing path j fs :
  fs_dir fs !! path = Some j →
  ∃ rest, fs_open_append path fs = (Ok j, set_faults rest fs) ∨
    ∃ e, fs_open_append path fs = (Err e, set_faults rest fs).
Proof.
  intros Hd. unfold fs_open_append.
  destruct (syscall_cases (λ fs, let '(i, fs') := open_or_create path fs in (Ok i, fs')) no_tear fs)
    as (rest & [->|(f & ->)]); exists rest; [left|right; by exists (fault_error f)].
  unfold open_or_create. simpl. by rewrite Hd.
Qed.
