(* ===== verification/Jsonl.v ===== *)
(** * The JSONL store: [crates/triggerlane-storage/src/lib.rs], lines 304-444 and 716-819

    One JSON record per line, reread on open, compacted by writing a sibling
    file and renaming it. The operations run on the store's own state and the
    file system ([Store T]); the locks that make each of them atomic are the
    reason it is one step here. *)

From stdpp Require Import base gmap strings list pretty.
From Stdlib Require Import ZArith Lia.
From S2P Require Import Prelude RustStd Event Retention Store FileSystem.

(** [u64::to_string] and the like: the decimal digits of a count. *)
Definition show_nat (n : nat) : string := pretty (N.of_nat n).

(** [open_locked_append]. *)
Definition open_locked_append (path : string) : IO inode :=
  file ← fs_open_append path;
  mapM_err (λ error, mkIoError WouldBlock
              ("store " +:+ path +:+ " is already locked by another writer: " +:+ io_message error))
    (fs_try_lock_exclusive file);;
  mret file.

(** [sync_parent_dir]: nothing is synced for a path without a directory part. *)
Definition sync_parent_dir (path : string) : IO unit :=
  match parent path with
  | Some _ => fs_sync_dir
  | None => mret tt
  end.

Section jsonl.
Context {T : Type} `{Serialize T} `{Deserialize T}.

(** ** Compaction and reading *)

(** One iteration of [compact_jsonl]'s loop. *)
Definition write_item (writer : inode) (item : T) : IO unit :=
  encoded ← lift (map_err io_other (to_vec item));
  fs_write_all writer encoded;;
  fs_write_all writer [newline].

Definition compact_jsonl (path : string) (kept : list T) : IO inode :=
  let tmp := with_extension path "compact" in
  writer ← fs_open_truncate tmp;
  for_each kept (write_item writer);;
  fs_sync writer;;
  fs_rename tmp path;;
  sync_parent_dir path;;
  open_locked_append path.

(** The loop of [read_jsonl] over the numbered, non-blank lines. The text that
    [serde_json] adds to the message is kept; that of [Utf8Error] is not
    modelled. *)
Fixpoint parse_lines (path : string) (last : nat) (ends_with_newline : bool)
    (position : nat) (records : list T) (rest : list (nat * bytes)) : result io_error (list T) :=
  match rest with
  | [] => Ok records
  | (index, line) :: rest' =>
    match from_str line with
    | Ok record =>
      parse_lines path last ends_with_newline (S position) (records ++ [record]) rest'
    | Err error =>
      if bool_decide (position = last) && negb ends_with_newline then Ok records
      else Err (mkIoError InvalidData
             ("invalid JSON in " +:+ path +:+ " on line " +:+ show_nat (index + 1) +:+ ": " +:+ error))
    end
  end.

(** [bytes.last() == Some(&b'\n')]. *)
Definition ends_with_newline (b : bytes) : bool := bool_decide (last b = Some newline).

(** [read_jsonl] after the file is read. *)
Definition parse_jsonl (path : string) (b : bytes) : result io_error (list T) :=
  if negb (is_utf8 b) then Err (mkIoError InvalidData ("invalid UTF-8 in " +:+ path)) else
  let numbered := filter (λ p : nat * bytes, is_blank p.2 = false) (imap pair (lines b)) in
  parse_lines path (length numbered - 1) (ends_with_newline b) 0 [] numbered.

Definition read_jsonl (path : string) : IO (list T) :=
  read ← catch (fs_read path);
  match read with
  | Ok b => lift (parse_jsonl path b)
  | Err error => if decide (io_kind error = NotFound) then mret [] else throw error
  end.

(** ** [struct JsonlStore] *)

Record JsonlStore := mkJsonlStore {
  js_path : string;
  js_records : list T;
  js_file : inode;
}.

Abbreviation St := (M (JsonlStore * FS) io_error).

Definition on_fs {A} (m : IO A) : St A := zoom snd (λ fs s, (s.1, fs)) m.

Definition set_records (l : list T) : St unit :=
  modify (λ s, (mkJsonlStore (js_path s.1) l (js_file s.1), s.2)).

Definition set_file (file : inode) : St unit :=
  modify (λ s, (mkJsonlStore (js_path s.1) (js_records s.1) file, s.2)).

(** [JsonlStore::open]. *)
Definition jsonl_open (path : string) : IO JsonlStore :=
  records ← read_jsonl path;
  newly_created ← gets (λ fs, negb (fs_exists path fs));
  file ← open_locked_append path;
  (if newly_created : bool then sync_parent_dir path else mret tt);;
  mret (mkJsonlStore path records file).

(** [JsonlStore::append]. *)
Definition jsonl_append (record : T) : St unit :=
  encoded ← lift (map_err io_other (to_vec record));
  let encoded := encoded ++ [newline] in
  file ← gets (λ s, js_file s.1);
  on_fs (fs_write_all file encoded);;
  on_fs (fs_sync file);;
  records ← gets (λ s, js_records s.1);
  set_records (records ++ [record]).

Definition jsonl_all (s : JsonlStore) : list T := js_records s.

Definition jsonl_find (predicate : T → bool) (s : JsonlStore) : option T :=
  List.find predicate (js_records s).

Definition jsonl_len (s : JsonlStore) : Z := len (js_records s).

Definition jsonl_size_bytes (s : JsonlStore * FS) : Z := fs_size (js_path s.1) s.2.

(** [JsonlStore::drain]. *)
Definition jsonl_drain : St (list T) :=
  file ← gets (λ s, js_file s.1);
  on_fs (fs_truncate file);;
  on_fs (fs_sync file);;
  records ← gets (λ s, js_records s.1);
  set_records [];;
  mret records.

(** [JsonlStore::replace_all]. *)
Definition jsonl_replace_all (kept : list T) : St unit :=
  path ← gets (λ s, js_path s.1);
  file ← on_fs (compact_jsonl path kept);
  set_file file;;
  set_records kept.

(** [JsonlStore::retain]. *)
Definition jsonl_retain (keep : list T → list T) : St Z :=
  records ← gets (λ s, js_records s.1);
  let kept := keep records in
  let removed := (len records - len kept)%Z in
  (if (removed >? 0)%Z then
     path ← gets (λ s, js_path s.1);
     file ← on_fs (compact_jsonl path kept);
     set_file file;;
     set_records kept
   else mret tt);;
  mret removed.

(** [JsonlStore::prune]. *)
Definition jsonl_prune (policy : ManualRetention) (timestamp : T → DateTime) : St Z :=
  jsonl_retain (λ records, keep policy records timestamp).
End jsonl.
Arguments JsonlStore : clear implicits.
