(* ===== verification/JsonlSpec.v ===== *)
(** * What the JSONL store guarantees

    Reading back what was written, recovery of a torn tail, the invariant that
    ties the store's memory to its file, and what survives a power loss. *)

From stdpp Require Import base gmap strings list.
From Stdlib Require Import ZArith Lia.
From S2P Require Import Prelude RustStd Event Retention Store FileSystem Jsonl.

(** What [serde_json] documents of a record type that serializes to an object or
    a string: the encoding reads back, is one line of valid UTF-8 without control
    characters, starts with a visible ASCII character, and no proper prefix of it
    is a document. *)
Class JsonCodec (T : Type) `{Serialize T} `{Deserialize T} : Prop := {
  from_str_to_vec (r : T) b : to_vec r = Ok b → from_str b = Ok r;
  to_vec_printable (r : T) b : to_vec r = Ok b → Forall (λ x, (32 <= u8 x)%Z) b;
  to_vec_utf8 (r : T) b : to_vec r = Ok b → is_utf8 b = true;
  to_vec_head (r : T) b : to_vec r = Ok b → ∃ h t, b = h :: t ∧ (33 <= u8 h < 127)%Z;
  from_str_prefix (r : T) b p :
    to_vec r = Ok b → p `prefix_of` b → p ≠ b → ∃ e, from_str (T := T) p = Err e;
}.

(** ** Lines that are not blank *)

Lemma is_blank_visible h t :
  (33 <= u8 h < 127)%Z → is_utf8 (h :: t) = true → is_blank (h :: t) = false.
Proof.
  unfold is_utf8, is_blank. intros Hh. simpl.
  rewrite (proj2 (Z.ltb_lt _ _)) by lia. destruct (utf8_decode t); [|done]. intros _. simpl.
  apply andb_false_iff. left. unfold is_whitespace. rewrite !orb_false_iff.
  unfold between. repeat split; lia.
Qed.

Lemma printable_no_newline b :
  Forall (λ x, (32 <= u8 x)%Z) b → (newline ∉ b) ∧ (carriage_return ∉ b).
Proof.
  rewrite Forall_forall. intros Hb.
  split; intros Hin; apply Hb in Hin; by vm_compute in Hin.
Qed.

Lemma printable_not_terminated b : Forall (λ x, (32 <= u8 x)%Z) b → ends_with_newline b = false.
Proof.
  intros Hb. apply bool_decide_eq_false. intros Hl%last_Some_elem_of.
  by apply (proj1 (printable_no_newline b Hb)).
Qed.

Lemma imap_pair_snd {A} (l : list A) : (imap pair l).*2 = l.
Proof.
  rewrite fmap_imap. transitivity (imap (const id) l); [done|]. by rewrite imap_const, list_fmap_id.
Qed.

Section parsing.
Context {T : Type} `{JsonCodec T}.
Implicit Types (r : T) (rs : list T) (b p : bytes) (bs : list bytes).

(** [bs] are the encodings of the records [rs]. *)
Definition encodes rs bs : Prop := Forall2 (λ r b, to_vec r = Ok b) rs bs.

(** The file that holds these encodings. *)
Definition file_of bs : bytes := concat (terminated <$> bs).

Lemma file_of_app bs1 bs2 : file_of (bs1 ++ bs2) = file_of bs1 ++ file_of bs2.
Proof. unfold file_of. by rewrite fmap_app, concat_app. Qed.

Lemma encodes_app rs1 rs2 bs1 bs2 : encodes rs1 bs1 → encodes rs2 bs2 → encodes (rs1 ++ rs2) (bs1 ++ bs2).
Proof. apply Forall2_app. Qed.

Lemma encodes_one r b : to_vec r = Ok b → encodes [r] [b].
Proof. by repeat constructor. Qed.

Lemma encodes_one_line rs bs :
  encodes rs bs → Forall (λ b, (newline ∉ b) ∧ (carriage_return ∉ b)) bs.
Proof.
  induction 1 as [|r b rs bs Hrb _ IH]; constructor; [|done].
  by eapply printable_no_newline, to_vec_printable.
Qed.

Lemma encodes_utf8 rs bs : encodes rs bs → is_utf8 (file_of bs) = true.
Proof.
  intros Hrs. apply is_utf8_concat. induction Hrs as [|r b rs bs Hrb _ IH]; [constructor|].
  simpl. constructor; [|done]. apply is_utf8_app; [by eapply to_vec_utf8|done].
Qed.

Lemma encodes_nonblank rs bs : encodes rs bs → Forall (λ b, is_blank b = false) bs.
Proof.
  induction 1 as [|r b rs bs Hrb _ IH]; constructor; [|done].
  pose proof (to_vec_utf8 _ _ Hrb) as Hu. destruct (to_vec_head _ _ Hrb) as (h & t & -> & Hh).
  by apply is_blank_visible.
Qed.

(** The lines that parse are accumulated, whatever follows them. *)
Lemma parse_lines_ok path last nl pos acc rs ls rest :
  Forall2 (λ l r, from_str l.2 = Ok r) ls rs →
  parse_lines path last nl pos acc (ls ++ rest) =
  parse_lines path last nl (pos + length ls) (acc ++ rs) rest.
Proof.
  intros Hls. revert pos acc. induction Hls as [|l r ls rs Hl _ IH]; intros pos acc; simpl.
  { by rewrite Nat.add_0_r, app_nil_r. }
  destruct l as [i l]; simpl in *. rewrite Hl, IH, <-app_assoc. f_equal. lia.
Qed.

Lemma imap_pair_parses rs bs :
  encodes rs bs → Forall2 (λ l r, from_str l.2 = Ok r) (imap pair bs) rs.
Proof.
  intros Hrs. assert (Forall2 (λ b r, from_str b = Ok r) ((imap pair bs).*2) rs) as Hf.
  { rewrite imap_pair_snd. apply Forall2_flip. eapply Forall2_impl; [exact Hrs|].
    intros r b Hrb. simpl. by eapply from_str_to_vec. }
  by apply Forall2_fmap_l in Hf.
Qed.

Lemma imap_pair_nonblank ls :
  Forall (λ b, is_blank b = false) ls →
  filter (λ p : nat * bytes, is_blank p.2 = false) (imap pair ls) = imap pair ls.
Proof.
  intros Hls. apply filter_all. rewrite <-(imap_pair_snd ls) in Hls at 1.
  by apply Forall_fmap in Hls.
Qed.

(** Reading a file of complete lines and one more line [l]. *)
Lemma parse_jsonl_last path rs bs l :
  encodes rs bs → is_utf8 l = true → is_blank l = false → newline ∉ l → l ≠ [] →
  parse_jsonl path (file_of bs ++ l) =
  match from_str l with
  | Ok r => Ok (rs ++ [r])
  | Err e =>
    if ends_with_newline (file_of bs ++ l)
    then Err (mkIoError InvalidData
           ("invalid JSON in " +:+ path +:+ " on line " +:+ show_nat (length bs + 1) +:+ ": " +:+ e))
    else Ok rs
  end.
Proof.
  intros Hrs Hu Hb Hn Hne. unfold parse_jsonl.
  rewrite (is_utf8_app _ _ (encodes_utf8 _ _ Hrs) Hu). simpl.
  unfold file_of. rewrite (lines_concat _ _ (encodes_one_line _ _ Hrs)), lines_last by done.
  fold (file_of bs). rewrite imap_pair_nonblank.
  2: { apply Forall_app. split; [by eapply encodes_nonblank|by repeat constructor]. }
  rewrite imap_app. simpl. rewrite (parse_lines_ok _ _ _ _ _ _ _ _ (imap_pair_parses _ _ Hrs)).
  simpl. rewrite length_app, !length_imap, Nat.add_0_r. simpl.
  destruct (from_str l) as [r|e]; [done|].
  rewrite bool_decide_true by lia. simpl. by destruct (ends_with_newline _).
Qed.

Lemma lines_file_of rs bs : encodes rs bs → lines (file_of bs) = bs.
Proof.
  intros Hrs. rewrite <-(app_nil_r (file_of bs)). unfold file_of.
  rewrite (lines_concat _ _ (encodes_one_line _ _ Hrs)). simpl. by rewrite app_nil_r.
Qed.

(** Everything that was written reads back. *)
Lemma parse_jsonl_complete path rs bs :
  encodes rs bs → parse_jsonl path (file_of bs) = Ok rs.
Proof.
  intros Hrs. unfold parse_jsonl. rewrite (encodes_utf8 _ _ Hrs). simpl.
  rewrite (lines_file_of _ _ Hrs), imap_pair_nonblank by (by eapply encodes_nonblank).
  pose proof (parse_lines_ok path (length (imap pair bs) - 1) (ends_with_newline (file_of bs))
    0 [] _ _ [] (imap_pair_parses _ _ Hrs)) as Hp.
  by rewrite app_nil_r in Hp.
Qed.

Lemma ends_with_newline_app b p : p ≠ [] → ends_with_newline (b ++ p) = ends_with_newline p.
Proof.
  intros Hp. unfold ends_with_newline. rewrite last_app. by destruct p using rev_ind; rewrite ?last_snoc.
Qed.

(** A crash in the middle of an append leaves the complete lines and a prefix
    of the last one: the complete records are recovered, and the last one too
    when all of its body made it to the disk. *)
Lemma parse_jsonl_torn path rs bs r b p :
  encodes rs bs → to_vec r = Ok b → p `prefix_of` terminated b → is_utf8 p = true →
  parse_jsonl path (file_of bs ++ p) = Ok (if decide (b `prefix_of` p) then rs ++ [r] else rs).
Proof.
  intros Hrs Hrb Hp Hu. pose proof (to_vec_printable _ _ Hrb) as Hpr.
  destruct (to_vec_head _ _ Hrb) as (h & t & Hb & Hh).
  destruct Hp as [k Hp]. destruct k as [|x k _] using rev_ind.
  - (* the whole line *)
    rewrite app_nil_r in Hp. subst p. rewrite decide_True by (by apply prefix_app_r).
    rewrite <-(app_nil_r (terminated b)). change (terminated b ++ []) with (file_of [b]).
    rewrite <-file_of_app. apply parse_jsonl_complete. by apply encodes_app, encodes_one.
  - unfold terminated in Hp. rewrite app_assoc in Hp. apply app_inj_tail in Hp as [-> _].
    destruct (decide (p = [])) as [->|Hne].
    { rewrite app_nil_r, decide_False; [by apply parse_jsonl_complete|].
      intros [m Hm]. by rewrite Hb in Hm. }
    apply Forall_app in Hpr as [Hpr _].
    assert (is_blank p = false) as Hbl.
    { destruct p as [|h' p']; [done|]. simplify_eq/=. by apply is_blank_visible. }
    rewrite (parse_jsonl_last path rs bs p Hrs Hu Hbl (proj1 (printable_no_newline p Hpr)) Hne).
    rewrite ends_with_newline_app, printable_not_terminated by done.
    destruct (decide (k = [])) as [->|Hk].
    + rewrite app_nil_r in *. rewrite decide_True by done. by rewrite (from_str_to_vec _ _ Hrb).
    + destruct (from_str_prefix _ _ p Hrb) as [e ->].
      * by apply prefix_app_r.
      * intros Heq. apply Hk. by apply (app_inv_head p); rewrite app_nil_r.
      * rewrite decide_False; [done|]. intros [m Hm].
        apply (f_equal length) in Hm. rewrite !length_app in Hm.
        destruct k; [done|simpl in Hm; lia].
Qed.
End parsing.
