(* ===== verification/Durability.v ===== *)
(** * Durability of the JSONL store

    The invariant [store_ok] (memory, file and disk agree) is kept by every
    operation that reports success; what an acknowledged operation wrote survives
    a power loss; an append cut short loses at most its own record; compaction is
    atomic. All of it for every schedule of failing system calls. *)

From stdpp Require Import base gmap strings list relations.
From Stdlib Require Import ZArith Lia.
From S2P Require Import Prelude RustStd Event Retention Store FileSystem Jsonl JsonlSpec.

(** ** Runs of the store's primitives *)

Section primitives.
Context (path : string) (i : inode).

(** After a write to the store's own file, whatever its outcome. *)
Record torn (b y : bytes) (fs : FS) : Prop := mk_torn {
  torn_wf : fs_wf fs;
  torn_dir : fs_dir fs !! path = Some i;
  torn_durable_dir : fs_durable_dir fs !! path = Some i;
  torn_content : ∃ p, p `prefix_of` y ∧ content fs i = b ++ p;
  torn_durable : durable fs i = b;
}.

Lemma torn_ignores_faults b y : ignores_faults (torn b y).
Proof. intros rest fs [[]]. by constructor. Qed.

Lemma write_all_torn b y fs : safe path i b fs → torn b y (fs_write_all i y fs).2.
Proof.
  intros Hs. unfold fs_write_all.
  assert (∀ rest z, z `prefix_of` y → torn b y (extend i z (set_faults rest fs))) as Hz.
  { intros rest z Hz. pose proof (safe_ignores_faults path i b rest fs Hs) as [Hwf [Hd Hdd Hc Hdu]].
    constructor; try done; [by apply fs_wf_extend; [eapply wf_dir|]|].
    exists z. split; [done|]. rewrite content_extend, decide_True by done. by rewrite Hc. }
  match goal with |- torn _ _ (syscall ?r ?t fs).2 =>
    destruct (syscall_cases r t fs) as (rest & [->|(f & ->)]) end; simpl; apply Hz; [done|].
  apply prefix_take.
Qed.

(** Bytes written and synced are safe. *)
Lemma write_sync_safe b y fs fs1 fs2 :
  safe path i b fs → fs_write_all i y fs = (Ok tt, fs1) → fs_sync i fs1 = (Ok tt, fs2) →
  safe path i (b ++ y) fs2.
Proof.
  intros [Hwf [Hd Hdd Hc Hdu]] [rest ->]%fs_write_all_ok [rest' ->]%fs_sync_ok.
  pose proof (wf_dir _ Hwf _ _ Hd) as Hlt.
  assert (content (extend i y fs) i = b ++ y) as Hc'.
  { by rewrite content_extend, decide_True, Hc. }
  apply safe_ignores_faults. split.
  - apply fs_wf_sync; [done|]. apply fs_wf_ignores_faults. by apply fs_wf_extend.
  - constructor; [done..|]. unfold durable. simpl. by rewrite lookup_insert_eq.
Qed.

(** A truncated and synced file is safely empty. *)
Lemma truncate_sync_safe b fs fs1 fs2 :
  safe path i b fs → fs_truncate i fs = (Ok tt, fs1) → fs_sync i fs1 = (Ok tt, fs2) →
  safe path i [] fs2.
Proof.
  intros [Hwf [Hd Hdd Hc Hdu]] [rest ->]%fs_truncate_ok [rest' ->]%fs_sync_ok.
  pose proof (wf_dir _ Hwf _ _ Hd) as Hlt.
  assert (content (truncated i fs) i = []) as Hc'.
  { unfold content. simpl. by rewrite lookup_insert_eq. }
  apply safe_ignores_faults. split.
  - apply fs_wf_sync; [done|]. apply fs_wf_ignores_faults. by apply fs_wf_truncate.
  - constructor; [done..|]. unfold durable. simpl. by rewrite lookup_insert_eq.
Qed.

(** What a power loss leaves of a file that is safe, or that was being
    appended to. *)
Lemma crash_safe b fs fs' :
  safe path i b fs → crash fs fs' → fs_dir fs' !! path = Some i ∧ content fs' i = b.
Proof.
  intros [_ [Hd Hdd Hc Hdu]] [dir data faults Hdir Hcont]. simpl. split.
  - by destruct Hdir as [-> | ->].
  - unfold content. simpl. destruct (Hcont i) as [->|[->|(tail & p & Ht & Hp & ->)]]; [done..|].
    rewrite Hc, Hdu in Ht. rewrite <-(app_nil_r b) in Ht at 1. apply app_inv_head in Ht as <-.
    apply prefix_nil_inv in Hp as ->. by rewrite Hdu, app_nil_r.
Qed.

Lemma crash_torn b y fs fs' :
  torn b y fs → crash fs fs' →
  fs_dir fs' !! path = Some i ∧ ∃ p, p `prefix_of` y ∧ content fs' i = b ++ p.
Proof.
  intros [_ Hd Hdd (q & Hq & Hc) Hdu] [dir data faults Hdir Hcont]. simpl. split.
  - by destruct Hdir as [-> | ->].
  - unfold content. simpl. destruct (Hcont i) as [->|[->|(tail & p & Ht & Hp & ->)]].
    + exists []. split; [apply prefix_nil|]. by rewrite app_nil_r.
    + by exists q.
    + rewrite Hc, Hdu in Ht. apply app_inv_head in Ht as <-.
      exists p. split; [by etrans|by rewrite Hdu].
Qed.

Lemma crash_switched old j new fs fs' :
  switched path i old j new fs → crash fs fs' →
  ∃ k, fs_dir fs' !! path = Some k ∧ (content fs' k = old ∨ content fs' k = new).
Proof.
  intros [_ Hd Hdd Hc Hdu Hc' Hdu'] [dir data faults Hdir Hcont]. simpl.
  assert (content (mkFS dir data dir data (fs_next fs) faults) i = old ∧
          content (mkFS dir data dir data (fs_next fs) faults) j = new) as [Hi Hj].
  { assert (∀ k x, content fs k = x → durable fs k = x → default [] (data !! k) = x) as Hk.
    { intros k x Hck Hdk. destruct (Hcont k) as [->|[->|(tail & p & Ht & Hp & ->)]]; [done..|].
      rewrite Hck, Hdk in Ht. rewrite <-(app_nil_r x) in Ht at 1. apply app_inv_head in Ht as <-.
      apply prefix_nil_inv in Hp as ->. by rewrite Hdk, app_nil_r. }
    unfold content. simpl. eauto. }
  destruct Hdir as [-> | ->]; [destruct Hdd as [Hdd|Hdd]|]; rewrite ?Hdd, ?Hd; eauto.
Qed.
End primitives.

Lemma crash_wf fs fs' : fs_wf fs → crash fs fs' → fs_wf fs'.
Proof.
  intros [Hi Hd Hdd Hddi Hu] [dir data faults Hdir Hcont].
  assert (∀ i, fs_next fs ≤ i → default [] (data !! i) = []) as Hun.
  { intros i Hge. destruct (Hu i Hge) as [Hc Hdu].
    destruct (Hcont i) as [->|[->|(tail & p & Ht & Hp & ->)]]; [done..|].
    rewrite Hc, Hdu in *. simplify_eq/=. by apply prefix_nil_inv in Hp. }
  constructor; simpl; [destruct Hdir as [-> | ->]; by eauto..|].
  intros i Hge. unfold content, durable. simpl. split; by apply Hun.
Qed.

(** ** The store's invariant *)

(** The name compaction writes to is another one, and directory entries can be
    synced. *)
Definition path_ok (path : string) : Prop :=
  with_extension path "compact" ≠ path ∧ is_Some (parent path).

#[export] Instance path_ok_dec path : Decision (path_ok path).
Proof. unfold path_ok. apply _. Defined.

Section store.
Context {T : Type} `{JsonCodec T}.
Implicit Types (s : JsonlStore T * FS) (r : T).

(** The records in memory are exactly the lines of the file, and the file and
    its name are durable. *)
Definition store_ok s : Prop :=
  path_ok (js_path s.1) ∧
  ∃ bs, encodes (js_records s.1) bs ∧ safe (js_path s.1) (js_file s.1) (file_of bs) s.2.

(** Running a system call on the store's file system. *)
Lemma on_fs_ok_inv {A} (m : IO A) s a s' :
  on_fs m s = (Ok a, s') → ∃ fs', m s.2 = (Ok a, fs') ∧ s' = (s.1, fs').
Proof. unfold on_fs, zoom. destruct (m s.2) as [x fs']. intros [= -> <-]. eauto. Qed.

Lemma on_fs_run {A} (m : IO A) s : on_fs m s = ((m s.2).1, (s.1, (m s.2).2)).
Proof. unfold on_fs, zoom. by destruct (m s.2). Qed.

(** *** Append *)

Lemma append_ok_inv r s s' :
  jsonl_append r s = (Ok tt, s') →
  ∃ b fs1 fs2, to_vec r = Ok b ∧
    fs_write_all (js_file s.1) (terminated b) s.2 = (Ok tt, fs1) ∧
    fs_sync (js_file s.1) fs1 = (Ok tt, fs2) ∧
    s' = (mkJsonlStore (js_path s.1) (js_records s.1 ++ [r]) (js_file s.1), fs2).
Proof.
  intros Ha. unfold jsonl_append, lift, gets in Ha.
  apply bind_ok_inv in Ha as (b & ? & [= Hb <-] & Ha).
  destruct (to_vec r) as [b'|e] eqn:Hr; simplify_eq/=.
  apply bind_ok_inv in Ha as (f & ? & [= <- <-] & Ha).
  apply bind_ok_inv in Ha as ([] & ? & Hw & Ha). apply on_fs_ok_inv in Hw as (fs1 & Hw & ->).
  apply bind_ok_inv in Ha as ([] & ? & Hs & Ha). apply on_fs_ok_inv in Hs as (fs2 & Hs & ->).
  apply bind_ok_inv in Ha as (rs & ? & [= <- <-] & Ha).
  unfold set_records, modify in Ha. simplify_eq/=. eauto 10.
Qed.

(** A failing append leaves the memory alone, and after the lines of the file
    at most a part of the new one. *)
Lemma append_err_inv r s e s' bs :
  safe (js_path s.1) (js_file s.1) (file_of bs) s.2 →
  jsonl_append r s = (Err e, s') →
  s'.1 = s.1 ∧ ∃ y, (y = [] ∨ ∃ b, to_vec r = Ok b ∧ y = terminated b) ∧
    torn (js_path s.1) (js_file s.1) (file_of bs) y s'.2.
Proof.
  intros Hs Ha. unfold jsonl_append, lift, gets in Ha. unfold mbind, M_bind in Ha.
  destruct (to_vec r) as [b|x] eqn:Hr; simpl in Ha; last first.
  { simplify_eq. split; [done|]. exists []. split; [by left|].
    destruct Hs as [Hwf []]. constructor; try done. exists []. by rewrite app_nil_r. }
  rewrite on_fs_run in Ha. simpl in Ha.
  pose proof (write_all_torn _ _ _ (terminated b) _ Hs) as Ht.
  destruct (fs_write_all (js_file s.1) (b ++ [newline]) s.2) as [[[]|x] fs1] eqn:Hw; simpl in Ha;
    unfold terminated in Ht; rewrite Hw in Ht; simpl in Ht; last first.
  { simplify_eq. split; [done|]. exists (terminated b). eauto. }
  rewrite on_fs_run in Ha. simpl in Ha. unfold fs_sync in Ha.
  match type of Ha with context [syscall ?rn ?t fs1] =>
    destruct (syscall_cases rn t fs1) as (rest & [Hr'|(f & Hr')]); rewrite Hr' in Ha end;
    simpl in Ha; [done|]. simplify_eq. split; [done|]. exists (terminated b).
  split; [by eauto|]. by apply torn_ignores_faults.
Qed.

Lemma append_store_ok r s s' :
  store_ok s → jsonl_append r s = (Ok tt, s') →
  store_ok s' ∧ js_records s'.1 = js_records s.1 ++ [r].
Proof.
  intros (Hp & bs & Hbs & Hs) (b & fs1 & fs2 & Hb & Hw & Hsy & ->)%append_ok_inv.
  split; [|done]. split; [done|]. exists (bs ++ [b]). simpl.
  split; [by apply encodes_app, encodes_one|].
  rewrite file_of_app. unfold file_of at 2. simpl. rewrite app_nil_r.
  by eapply write_sync_safe.
Qed.

(** *** Drain *)

Lemma drain_store_ok s l s' :
  store_ok s → jsonl_drain s = (Ok l, s') →
  store_ok s' ∧ l = js_records s.1 ∧ js_records s'.1 = [].
Proof.
  intros (Hp & bs & Hbs & Hs) Hd. unfold jsonl_drain in Hd.
  unfold gets in Hd. apply bind_ok_inv in Hd as (f & ? & [= <- <-] & Hd).
  apply bind_ok_inv in Hd as ([] & ? & Hw & Hd). apply on_fs_ok_inv in Hw as (fs1 & Hw & ->).
  apply bind_ok_inv in Hd as ([] & ? & Hsy & Hd). apply on_fs_ok_inv in Hsy as (fs2 & Hsy & ->).
  unfold set_records, modify, mbind, M_bind, mret, M_ret in Hd. simplify_eq/=.
  split; [|done]. split; [done|]. exists []. split; [constructor|]. by eapply truncate_sync_safe.
Qed.
(** *** Compaction *)

(** The loop writes the encodings of its items, each on a line. *)
Lemma write_items_ok path i old tmp j x (kept : list T) fs fs' :
  writing path i old tmp j x fs → for_each kept (write_item j) fs = (Ok tt, fs') →
  ∃ bs, encodes kept bs ∧ writing path i old tmp j (x ++ file_of bs) fs'.
Proof.
  revert x fs. induction kept as [|r kept IH]; intros x fs Hw Hf; simpl in Hf.
  { unfold mret, M_ret in Hf. simplify_eq. exists []. split; [constructor|]. by rewrite app_nil_r. }
  apply bind_ok_inv in Hf as ([] & fs1 & Hi & Hf). unfold write_item, lift in Hi.
  apply bind_ok_inv in Hi as (b & ? & [= Hb <-] & Hi).
  destruct (to_vec r) as [b'|e] eqn:Hr; simplify_eq/=.
  apply bind_ok_inv in Hi as ([] & fs2 & Hw1 & Hw2).
  pose proof (write_all_writing _ _ _ _ _ _ _ _ _ Hw Hw1) as Hx.
  pose proof (write_all_writing _ _ _ _ _ _ _ _ _ Hx Hw2) as Hx'.
  destruct (IH _ _ Hx' Hf) as (bs & Hbs & Hx'').
  exists (b :: bs). split; [by constructor|].
  change (file_of (b :: bs)) with (terminated b ++ file_of bs). unfold terminated.
  rewrite <-!app_assoc in Hx''. by rewrite <-app_assoc.
Qed.

Lemma write_items_safe path i old tmp j (kept : list T) x fs :
  writing path i old tmp j x fs → safe path i old (for_each kept (write_item j) fs).2.
Proof.
  intros Hw. pose proof (writing_ne _ _ _ _ _ _ _ Hw) as [Hji Hlt]. destruct Hw as [Hs _].
  assert (preserves (safe_with path i old j) (for_each kept (write_item j))) as Hp.
  { apply preserves_for_each. intros r _. unfold write_item.
    apply preserves_bind; [by intros ?|]. intros b.
    apply preserves_bind; [by apply safe_write_all|]. intros _. by apply safe_write_all. }
  by apply Hp.
Qed.

(** The end of compaction, once the name is switched. *)
Lemma open_locked_append_existing path j fs res fs' :
  fs_dir fs !! path = Some j → open_locked_append path fs = (res, fs') →
  (∃ rest, fs' = set_faults rest fs) ∧ (∀ j', res = Ok j' → j' = j).
Proof.
  intros Hd Ho. unfold open_locked_append, mbind, M_bind in Ho.
  destruct (open_append_existing path j fs Hd) as (rest & [Hr|(e & Hr)]); rewrite Hr in Ho;
    [|simplify_eq; split; [by exists rest|done]].
  unfold mapM_err, fs_try_lock_exclusive in Ho.
  match type of Ho with context [syscall ?rn ?t ?f] =>
    destruct (syscall_cases rn t f) as (rest' & [Hl|(e & Hl)]); rewrite Hl in Ho end; simpl in Ho.
  - unfold mret, M_ret in Ho. simplify_eq. split; [by exists rest'|]. by intros j' [= <-].
  - simplify_eq. split; [by exists rest'|done].
Qed.

(** Compaction under any schedule: either the old file is untouched and an
    error is reported, or the name has been switched to a file that holds
    exactly the kept records, durably when success is reported. *)
Lemma compact_cases path i old (kept : list T) fs res fs' :
  path_ok path → safe path i old fs → compact_jsonl path kept fs = (res, fs') →
  ((∃ e, res = Err e) ∧ safe path i old fs') ∨
  ∃ j bs, encodes kept bs ∧ switched path i old j (file_of bs) fs' ∧
    ∀ j', res = Ok j' → j' = j ∧ safe path j (file_of bs) fs'.
Proof.
  intros [Hne [d Hpar]] Hs Hc. unfold compact_jsonl in Hc. unfold mbind at 1, M_bind at 1 in Hc.
  destruct (fs_open_truncate (with_extension path "compact") fs) as [[j|e] fs1] eqn:Ho; last first.
  { simplify_eq. left. split; [by eexists|].
    pose proof (safe_open_truncate path i old _ Hne fs Hs) as Hs'. by rewrite Ho in Hs'. }
  pose proof (open_truncate_writing _ _ _ _ _ _ _ Hne Hs Ho) as Hw.
  unfold mbind at 1, M_bind at 1 in Hc.
  pose proof (write_items_safe _ _ _ _ _ kept _ _ Hw) as Hs1.
  destruct (for_each kept (write_item j) fs1) as [[[]|e] fs2] eqn:Hf; last first.
  { simplify_eq. left. eauto. }
  destruct (write_items_ok _ _ _ _ _ _ _ _ _ Hw Hf) as (bs & Hbs & Hw2). simpl in Hw2.
  destruct (writing_ne _ _ _ _ _ _ _ Hw2) as [Hji Hlt].
  unfold mbind at 1, M_bind at 1 in Hc.
  destruct (safe_sync path i old j Hji fs2 (conj Hs1 Hlt)) as [Hs3 _].
  destruct (fs_sync j fs2) as [[[]|e] fs3] eqn:Hsy; [|simplify_eq; left; eauto].
  unfold mbind at 1, M_bind at 1 in Hc.
  destruct (fs_rename _ path fs3) as [[[]|e] fs4] eqn:Hr; last first.
  { simplify_eq. left. split; [by eexists|].
    pose proof (rename_err_safe path i old _ path _ _ _ Hs3 Hr). done. }
  pose proof (sync_rename_switched _ _ _ _ _ _ _ _ _ Hw2 Hsy Hr) as Hsw.
  right. exists j, bs. split; [done|].
  unfold mbind at 1, M_bind at 1, sync_parent_dir in Hc. rewrite Hpar in Hc.
  pose proof (switched_sync_dir path i old j (file_of bs) fs4 Hsw) as Hsw'.
  destruct (fs_sync_dir fs4) as [[[]|e] fs5] eqn:Hsd; [|by simplify_eq].
  pose proof (sync_dir_switched _ _ _ _ _ _ _ Hsw Hsd) as Hs5.
  destruct (open_locked_append_existing path j fs5 res fs' (sw_dir _ _ _ _ _ _ Hsw') Hc)
    as [[rest ->] Hj].
  split; [by apply switched_ignores_faults|]. intros j' Hj'. split; [eauto|].
  by apply safe_ignores_faults.
Qed.

(** What a power loss leaves of a compaction, finished or not. *)
Lemma compact_crash path i rs bs (kept : list T) fs res fs1 fs' :
  path_ok path → encodes rs bs → safe path i (file_of bs) fs →
  compact_jsonl path kept fs = (res, fs1) → crash fs1 fs' →
  ∃ k cs, fs_dir fs' !! path = Some k ∧ content fs' k = file_of cs ∧
    (encodes rs cs ∧ (∃ e, res = Err e) ∨ encodes kept cs).
Proof.
  intros Hp Hbs Hs Hc Hcr.
  destruct (compact_cases _ _ _ _ _ _ _ Hp Hs Hc) as [[He Hs1]|(j & cs & Hcs & Hsw & Hok)].
  - destruct (crash_safe _ _ _ _ _ Hs1 Hcr). eauto 10.
  - destruct res as [j'|e].
    + destruct (Hok j' eq_refl) as [-> Hs1]. destruct (crash_safe _ _ _ _ _ Hs1 Hcr). eauto 10.
    + destruct (crash_switched _ _ _ _ _ _ _ Hsw Hcr) as (k & Hk & [Hck|Hck]); eauto 12.
Qed.
Lemma compact_ok path i old (kept : list T) fs j fs' :
  path_ok path → safe path i old fs → compact_jsonl path kept fs = (Ok j, fs') →
  ∃ bs, encodes kept bs ∧ safe path j (file_of bs) fs'.
Proof.
  intros Hp Hs Hc. destruct (compact_cases _ _ _ _ _ _ _ Hp Hs Hc) as [[[e He] _]|(k & bs & Hbs & _ & Hj)];
    [done|]. destruct (Hj j eq_refl) as [-> Hs']. eauto.
Qed.

Lemma replace_all_store_ok kept s s' :
  store_ok s → jsonl_replace_all kept s = (Ok tt, s') →
  store_ok s' ∧ js_records s'.1 = kept.
Proof.
  intros (Hp & bs & Hbs & Hs) Hr. unfold jsonl_replace_all, gets in Hr.
  apply bind_ok_inv in Hr as (p & ? & [= <- <-] & Hr).
  apply bind_ok_inv in Hr as (j & ? & Hc & Hr). apply on_fs_ok_inv in Hc as (fs1 & Hc & ->).
  unfold set_file, set_records, modify, mbind, M_bind in Hr. simplify_eq/=.
  destruct (compact_ok _ _ _ _ _ _ _ Hp Hs Hc) as (cs & Hcs & Hs'). split; [|done]. split; eauto.
Qed.

Lemma retain_store_ok keep s n s' :
  store_ok s → jsonl_retain keep s = (Ok n, s') →
  store_ok s' ∧ n = (len (js_records s.1) - len (keep (js_records s.1)))%Z ∧
  js_records s'.1 = if (n >? 0)%Z then keep (js_records s.1) else js_records s.1.
Proof.
  intros Hok Hr. pose proof Hok as (Hp & bs & Hbs & Hs). unfold jsonl_retain, gets in Hr.
  apply bind_ok_inv in Hr as (rs & ? & [= <- <-] & Hr).
  apply bind_ok_inv in Hr as ([] & s1 & Hi & Hr). unfold mret, M_ret in Hr. simplify_eq.
  destruct (Z.gtb_spec (len (js_records s.1) - len (keep (js_records s.1))) 0) as [Hgt|Hle];
    [|by unfold mret, M_ret in Hi; simplify_eq].
  apply bind_ok_inv in Hi as (p & ? & [= <- <-] & Hi).
  apply bind_ok_inv in Hi as (j & ? & Hc & Hi). apply on_fs_ok_inv in Hc as (fs1 & Hc & ->).
  unfold set_file, set_records, modify, mbind, M_bind in Hi. simplify_eq/=.
  destruct (compact_ok _ _ _ _ _ _ _ Hp Hs Hc) as (cs & Hcs & Hs').
  split; [|done]. split; eauto.
Qed.

(** *** Opening *)

Lemma open_existing path k rs fs :
  no_faults fs → fs_dir fs !! path = Some k → parse_jsonl path (content fs k) = Ok rs →
  jsonl_open (T := T) path fs = (Ok (mkJsonlStore path rs k), fs).
Proof.
  intros Hnf Hd Hp. unfold jsonl_open, read_jsonl, open_locked_append, catch, gets, lift.
  unfold mbind, M_bind, mapM_err, fs_read, fs_open_append, fs_try_lock_exclusive.
  rewrite !(syscall_ok _ _ fs) by done. rewrite Hd. rewrite Hp.
  rewrite (syscall_ok _ _ fs) by done. unfold open_or_create. rewrite Hd.
  rewrite (syscall_ok _ _ fs) by done. unfold fs_exists.
  rewrite bool_decide_true by (by rewrite Hd). done.
Qed.

(** A store that is opened on a file of complete lines is in order. *)
Lemma open_store_ok path k rs bs fs :
  path_ok path → no_faults fs → fs_wf fs → encodes rs bs →
  fs_dir fs !! path = Some k → fs_durable_dir fs !! path = Some k →
  content fs k = file_of bs → durable fs k = file_of bs →
  jsonl_open (T := T) path fs = (Ok (mkJsonlStore path rs k), fs) ∧
  store_ok (mkJsonlStore path rs k, fs).
Proof.
  intros Hp Hnf Hwf Hbs Hd Hdd Hc Hdu. split.
  - apply open_existing; [done..|]. rewrite Hc. by apply parse_jsonl_complete.
  - split; [done|]. exists bs. split; [done|]. by split.
Qed.

Lemma read_missing path fs rs fs' :
  fs_dir fs !! path = None → read_jsonl path fs = (Ok rs, fs') →
  rs = [] ∧ ∃ rest, fs' = set_faults rest fs.
Proof.
  intros Hd Hr. unfold read_jsonl, catch, fs_read, mbind, M_bind in Hr.
  match type of Hr with context [syscall ?rn ?t fs] =>
    destruct (syscall_cases rn t fs) as (rest & [Hs|(f & Hs)]); rewrite Hs in Hr end; simpl in Hr.
  - rewrite Hd in Hr. simpl in Hr. unfold mret, M_ret in Hr. simplify_eq. eauto.
  - unfold mret, M_ret, throw in Hr. case_decide; simplify_eq. split; [done|]. by exists rest.
Qed.

Lemma open_locked_append_new path fs j fs' :
  fs_dir fs !! path = None → open_locked_append path fs = (Ok j, fs') →
  j = fs_next fs ∧ ∃ rest, fs' = set_faults rest (open_or_create path fs).2.
Proof.
  intros Hd Ho. unfold open_locked_append in Ho.
  apply bind_ok_inv in Ho as (f & fs1 & Ho1 & Ho). apply syscall_ok_inv in Ho1 as [rest Ho1].
  apply bind_ok_inv in Ho as ([] & fs2 & Hl & Ho). unfold mret, M_ret in Ho. simplify_eq.
  unfold mapM_err, fs_try_lock_exclusive in Hl.
  match type of Hl with context [syscall ?rn ?t fs1] =>
    destruct (syscall_cases rn t fs1) as (rest' & [Hs|(x & Hs)]); rewrite Hs in Hl end; simplify_eq/=.
  unfold open_or_create in *. simpl in *. rewrite Hd in *. simplify_eq/=. eauto.
Qed.

(** A new store on a file system without the file. *)
Lemma open_new path fs st fs' :
  path_ok path → fs_wf fs → fs_dir fs !! path = None →
  jsonl_open (T := T) path fs = (Ok st, fs') →
  js_records st = [] ∧ js_path st = path ∧ store_ok (st, fs').
Proof.
  intros Hp Hwf Hd Ho. unfold jsonl_open, gets in Ho.
  apply bind_ok_inv in Ho as (rs & fs1 & Hr & Ho).
  destruct (read_missing _ _ _ _ Hd Hr) as (-> & rest & ->).
  apply bind_ok_inv in Ho as (nc & ? & [= <- <-] & Ho).
  apply bind_ok_inv in Ho as (j & fs2 & Hl & Ho).
  destruct (open_locked_append_new _ (set_faults rest fs) _ _ Hd Hl) as (-> & rest' & ->).
  assert (fs_exists path (set_faults rest fs) = false) as Hex.
  { apply bool_decide_eq_false. simpl. rewrite Hd. by intros [? ?]. }
  rewrite Hex in Ho. simpl in Ho. unfold sync_parent_dir in Ho.
  destruct Hp as [Hne [d Hpar]]. rewrite Hpar in Ho.
  apply bind_ok_inv in Ho as ([] & fs3 & Hs & Ho). unfold mret, M_ret in Ho. simplify_eq/=.
  apply syscall_ok_inv in Hs as [rest'' [= <-]]. unfold open_or_create. simpl. rewrite Hd. simpl.
  destruct Hwf as [Hi Hdir Hddir Hddi Hu]. destruct (Hu (fs_next fs)) as [Hcn Hdn]; [done|].
  split; [done|]. split; [done|]. split; [split; eauto|]. exists []. split; [constructor|].
  assert (∀ q l, <[path := fs_next fs]> (fs_dir fs) !! q = Some l →
            q = path ∧ l = fs_next fs ∨ q ≠ path ∧ fs_dir fs !! q = Some l ∧ l < fs_next fs) as Hq.
  { intros q l Hq. apply lookup_insert_Some in Hq as [[<- <-]|[? Hq]]; [by left|]. right. eauto. }
  split; constructor; simpl.
  - intros p q l [[-> ->]|(? & Hp' & ?)]%Hq [[-> ?]|(? & Hq' & ?)]%Hq; try done; [lia|lia|eauto].
  - intros p l [[-> ->]|(? & Hp' & ?)]%Hq; lia.
  - intros p l [[-> ->]|(? & Hp' & ?)]%Hq; lia.
  - intros p q l [[-> ->]|(? & Hp' & ?)]%Hq [[-> ?]|(? & Hq' & ?)]%Hq; try done; [lia|lia|eauto].
  - intros l Hge. destruct (Hu l) as [Hcl Hdl]; [lia|]. split; [|done].
    unfold content. simpl. rewrite lookup_insert. by case_decide.
  - by rewrite lookup_insert_eq.
  - by rewrite lookup_insert_eq.
  - unfold content. simpl. by rewrite lookup_insert_eq.
  - done.
Qed.

(** ... which does not create any other name. *)
Lemma open_new_others path fs st fs' q :
  path_ok path → fs_dir fs !! path = None → jsonl_open (T := T) path fs = (Ok st, fs') → q ≠ path →
  fs_dir fs !! q = None → fs_dir fs' !! q = None.
Proof.
  intros Hp Hd Ho Hq Hn. unfold jsonl_open, gets in Ho.
  apply bind_ok_inv in Ho as (rs & fs1 & Hr & Ho).
  destruct (read_missing _ _ _ _ Hd Hr) as (-> & rest & ->).
  apply bind_ok_inv in Ho as (nc & ? & [= <- <-] & Ho).
  apply bind_ok_inv in Ho as (j & fs2 & Hl & Ho).
  destruct (open_locked_append_new _ (set_faults rest fs) _ _ Hd Hl) as (-> & rest' & ->).
  apply bind_ok_inv in Ho as ([] & fs3 & Hs & Ho). unfold mret, M_ret in Ho. injection Ho as <- <-.
  assert (fs_dir fs3 = <[path := fs_next fs]> (fs_dir fs)) as ->; [|by rewrite lookup_insert_ne].
  unfold open_or_create in Hs. simpl in Hs. rewrite Hd in Hs. simpl in Hs.
  destruct (negb _); [|by injection Hs as <-]. unfold sync_parent_dir in Hs.
  destruct Hp as [_ [d Hpar]]. rewrite Hpar in Hs. by apply syscall_ok_inv in Hs as [rest'' [= <-]].
Qed.
End store.

(** ** The life of a store

    Operations that report success, and restarts after a power loss. *)

Section lifecycle.
Context {T : Type} `{JsonCodec T}.
Implicit Types (s : JsonlStore T * FS) (r : T).

Inductive lifecycle s : JsonlStore T * FS → Prop :=
| life_append r s' : jsonl_append r s = (Ok tt, s') → lifecycle s s'
| life_drain l s' : jsonl_drain s = (Ok l, s') → lifecycle s s'
| life_replace_all kept s' : jsonl_replace_all kept s = (Ok tt, s') → lifecycle s s'
| life_retain keep n s' : jsonl_retain keep s = (Ok n, s') → lifecycle s s'
| life_prune policy ts n s' : jsonl_prune policy ts s = (Ok n, s') → lifecycle s s'
| life_restart fs st fs' :
    crash s.2 fs → no_faults fs → jsonl_open (js_path s.1) fs = (Ok st, fs') → lifecycle s (st, fs').

(** Restarting after a power loss finds exactly the records in memory. *)
Lemma store_ok_restart s fs :
  store_ok s → crash s.2 fs → no_faults fs →
  jsonl_open (js_path s.1) fs = (Ok s.1, fs) ∧ store_ok (s.1, fs).
Proof.
  intros (Hp & bs & Hbs & Hs) Hcr Hnf. destruct (crash_safe _ _ _ _ _ Hs Hcr) as [Hd Hc].
  assert (fs_durable_dir fs = fs_dir fs ∧ ∀ k, durable fs k = content fs k) as [Hdd Hdu]
    by (by destruct Hcr).
  destruct s as [[path rs k] fs0]. simpl in *.
  apply (open_store_ok path k rs bs fs); try done.
  - eapply crash_wf; [apply Hs|done].
  - by rewrite Hdd.
  - by rewrite Hdu.
Qed.

Lemma lifecycle_store_ok s s' : store_ok s → lifecycle s s' → store_ok s'.
Proof.
  intros Hs [r s1 Ho|l s1 Ho|kept s1 Ho|kp n s1 Ho|policy ts n s1 Ho|fs st fs' Hcr Hnf Ho].
  - by eapply append_store_ok.
  - by eapply drain_store_ok.
  - by eapply replace_all_store_ok.
  - by eapply retain_store_ok.
  - by eapply retain_store_ok.
  - destruct (store_ok_restart _ _ Hs Hcr Hnf) as [Ho' Hok]. rewrite Ho' in Ho. by simplify_eq.
Qed.

Lemma lifecycle_rtc_store_ok s s' : store_ok s → rtc lifecycle s s' → store_ok s'.
Proof. intros Hs. induction 1 as [|s s1 s2 Hl _ IH]; eauto using lifecycle_store_ok. Qed.

(** Whatever a store went through, a power loss loses nothing it acknowledged
    and invents nothing: reopening finds exactly the records in memory. *)
Theorem acknowledged_records_survive s s' fs :
  store_ok s → rtc lifecycle s s' → crash s'.2 fs → no_faults fs →
  jsonl_open (js_path s'.1) fs = (Ok s'.1, fs) ∧ store_ok (s'.1, fs).
Proof. intros Hs Hl. eapply store_ok_restart, lifecycle_rtc_store_ok; eauto. Qed.

(** A text file written in the ASCII subset: every prefix of a record's line is
    valid UTF-8. *)
Definition ascii_encoded r : Prop :=
  ∀ b, to_vec r = Ok b → Forall (λ x, (u8 x < 128)%Z) b.

Lemma ascii_prefix_utf8 b p :
  Forall (λ x, (u8 x < 128)%Z) b → p `prefix_of` terminated b → is_utf8 p = true.
Proof.
  intros Hb [k Hk]. unfold is_utf8. rewrite utf8_decode_ascii; [done|].
  assert (Forall (λ x, (u8 x < 128)%Z) (p ++ k)) as Hpk.
  { rewrite <-Hk. apply Forall_app. split; [done|]. by repeat constructor. }
  by apply Forall_app in Hpk as [? _].
Qed.

(** A torn tail that is not text makes the whole file unreadable. *)
Lemma torn_not_utf8 rs bs p : encodes rs bs → is_utf8 p = false → is_utf8 (file_of bs ++ p) = false.
Proof.
  intros Hrs Hu. pose proof (encodes_utf8 _ _ Hrs) as Hf. unfold is_utf8 in *.
  destruct (utf8_decode (file_of bs)) eqn:Hdec; [|done].
  rewrite (utf8_decode_app _ _ _ Hdec). by destruct (utf8_decode p).
Qed.

(** Opening a file that does not parse. *)
Lemma open_bad path k x fs :
  no_faults fs → fs_dir fs !! path = Some k → parse_jsonl (T := T) path (content fs k) = Err x →
  jsonl_open (T := T) path fs = (Err x, fs).
Proof.
  intros Hnf Hd Hp. unfold jsonl_open, read_jsonl, catch, lift, mbind, M_bind, fs_read.
  rewrite syscall_ok by done. simpl. by rewrite Hd, Hp.
Qed.

(** What an append that did not return leaves, or one that did: the records before
    it, or those and its own. Or, when it was not acknowledged and its text is not
    ASCII, a line cut inside a character, and a file that does not open. *)
Definition append_left r (res : result io_error unit) s (fs : FS) : Prop :=
  (∃ st, jsonl_open (js_path s.1) fs = (Ok st, fs) ∧
    (js_records st = js_records s.1 ∨ js_records st = js_records s.1 ++ [r]) ∧
    (res = Ok tt → js_records st = js_records s.1 ++ [r])) ∨
  (res ≠ Ok tt ∧ ¬ ascii_encoded r ∧
    ∃ b p msg, to_vec r = Ok b ∧ p `prefix_of` terminated b ∧ is_utf8 p = false ∧
      jsonl_open (T := T) (js_path s.1) fs = (Err (mkIoError InvalidData msg), fs)).

Lemma append_cut_short s r res s' fs :
  store_ok s → jsonl_append r s = (res, s') → crash s'.2 fs → no_faults fs → append_left r res s fs.
Proof.
  intros Hok Ha Hcr Hnf. destruct res as [[]|e].
  - left. destruct (append_store_ok _ _ _ Hok Ha) as [Hok' Hrs].
    destruct (append_ok_inv _ _ _ Ha) as (b & fs1 & fs2 & _ & _ & _ & ->).
    destruct (store_ok_restart _ _ Hok' Hcr Hnf) as [Ho _]. simpl in *. eauto 10.
  - destruct Hok as (Hp & bs & Hbs & Hs).
    destruct (append_err_inv _ _ _ _ _ Hs Ha) as (Hst & y & Hy & Ht).
    destruct (crash_torn _ _ _ _ _ _ Ht Hcr) as (Hd & p & Hpy & Hc).
    destruct Hy as [->|(b & Hb & ->)].
    + left. apply prefix_nil_inv in Hpy as ->. rewrite app_nil_r in Hc.
      exists (mkJsonlStore (js_path s.1) (js_records s.1) (js_file s.1)).
      split; [|split; [by left|done]]. apply open_existing; [done..|].
      rewrite Hc. by apply parse_jsonl_complete.
    + destruct (is_utf8 p) eqn:Hu.
      * left. pose proof (parse_jsonl_torn (js_path s.1) _ _ _ _ p Hbs Hb Hpy Hu) as Hpt. rewrite <-Hc in Hpt.
        eexists. split; [by apply open_existing|]. split; [|done].
        simpl. case_decide; [by right|by left].
      * right. split; [done|]. split.
        { intros Hascii. by rewrite (ascii_prefix_utf8 _ _ (Hascii _ Hb) Hpy) in Hu. }
        exists b, p. eexists. split_and!; [done..|]. apply (open_bad _ (js_file s.1)); [done..|].
        unfold parse_jsonl. by rewrite Hc, (torn_not_utf8 _ _ _ Hbs Hu).
Qed.

(** C8: an append interrupted anywhere by a failure and a power loss, on a store in
    order: reopening succeeds, keeps every earlier record and invents none, and has
    the new one if it was acknowledged. There is one exception: an append that was
    not acknowledged, of a record whose text is not ASCII, can be cut inside a
    character; the file is not UTF-8 then, and the store does not open. *)
Theorem interrupted_append_recovers s r res s' fs :
  store_ok s → jsonl_append r s = (res, s') → crash s'.2 fs → no_faults fs →
  (∃ st, jsonl_open (js_path s.1) fs = (Ok st, fs) ∧
    (js_records st = js_records s.1 ∨ js_records st = js_records s.1 ++ [r]) ∧
    (res = Ok tt → js_records st = js_records s.1 ++ [r])) ∨
  (res ≠ Ok tt ∧ ¬ ascii_encoded r ∧
    ∃ b p msg, to_vec r = Ok b ∧ p `prefix_of` terminated b ∧ is_utf8 p = false ∧
      jsonl_open (T := T) (js_path s.1) fs = (Err (mkIoError InvalidData msg), fs)).
Proof. apply append_cut_short. Qed.

(** C10: compaction is atomic: whatever failed while it ran, and wherever the power
    was lost, reopening finds the old records or the kept ones, and the kept
    ones when success was reported. *)
Theorem compaction_is_atomic s kept res s' fs :
  store_ok s → jsonl_replace_all kept s = (res, s') → crash s'.2 fs → no_faults fs →
  ∃ st, jsonl_open (js_path s.1) fs = (Ok st, fs) ∧
    (js_records st = js_records s.1 ∧ (∃ e, res = Err e) ∨ js_records st = kept).
Proof.
  intros (Hp & bs & Hbs & Hs) Hr Hcr Hnf.
  assert (∃ res', compact_jsonl (js_path s.1) kept s.2 = (res', s'.2) ∧
            ((∃ e, res' = Err e) → ∃ e, res = Err e)) as (res' & Hc & Hres).
  { unfold jsonl_replace_all, gets, set_file, set_records, modify, mbind, M_bind in Hr.
    rewrite on_fs_run in Hr.
    destruct (compact_jsonl (js_path s.1) kept s.2) as [[j|e] fs1]; simplify_eq/=; [|by eauto].
    eexists. split; [done|]. by intros [? ?]. }
  destruct (compact_crash _ _ _ _ _ _ _ _ _ Hp Hbs Hs Hc Hcr) as (k & cs & Hd & Hck & Hcs).
  assert (∀ rs, encodes rs cs →
    jsonl_open (js_path s.1) fs = (Ok (mkJsonlStore (js_path s.1) rs k), fs)) as Ho.
  { intros rs Hrs. apply open_existing; [done..|]. rewrite Hck. by apply parse_jsonl_complete. }
  destruct Hcs as [[Hcs He]|Hcs]; eexists; (split; [by apply Ho|]); [left|right]; eauto.
Qed.
End lifecycle.
