(* ===== verification/FileStore.v ===== *)
(** * The durable backends: [crates/triggerlane-storage/src/lib.rs], lines 446-555 and 662-714

    [FileEventStore] (a JSONL store of events, a sibling JSONL store of
    delivered ids and the set of those ids) and [FileDeadTriggerQueue], with
    their refinement of the storage contracts of [Store]. Their durability is in
    [FileDurability]. *)

From stdpp Require Import base gmap strings list.
From Stdlib Require Import ZArith Lia.
From S2P Require Import Prelude RustStd Event Retention Store FileSystem Jsonl.
Local Open Scope Z_scope.

(** The order in which a [HashSet<EventId>] is iterated is unspecified: any
    listing of its elements. *)
Class HashSetIter := {
  iter : gset EventId → list EventId;
  iter_perm X : iter X ≡ₚ elements X;
}.

(** ** [FileEventStore] *)

(** [delivered_path]. *)
Definition delivered_path (path : string) : string := path +:+ ".delivered".

Record FileEventStore := mkFileEventStore {
  fes_inner : JsonlStore EventEnvelope;
  fes_delivered : JsonlStore EventId;
  fes_delivered_set : gset EventId;
}.

Section file_event_store.
Context `{Serialize EventEnvelope} `{Deserialize EventEnvelope}.
Context `{Serialize EventId} `{Deserialize EventId} `{HashSetIter}.

Local Abbreviation FES := (M (FileEventStore * FS) io_error).

(** [FileEventStore::open]. *)
Definition fes_open (path : string) : IO FileEventStore :=
  inner ← jsonl_open path;
  delivered ← jsonl_open (delivered_path (js_path inner));
  mret (mkFileEventStore inner delivered (list_to_set (jsonl_all delivered))).

Definition on_inner {A} (m : M (JsonlStore EventEnvelope * FS) io_error A) : FES A :=
  zoom (λ s, (fes_inner s.1, s.2))
       (λ t s, (mkFileEventStore t.1 (fes_delivered s.1) (fes_delivered_set s.1), t.2)) m.

Definition on_delivered {A} (m : M (JsonlStore EventId * FS) io_error A) : FES A :=
  zoom (λ s, (fes_delivered s.1, s.2))
       (λ t s, (mkFileEventStore (fes_inner s.1) t.1 (fes_delivered_set s.1), t.2)) m.

Definition set_delivered_set (X : gset EventId) : FES unit :=
  modify (λ s, (mkFileEventStore (fes_inner s.1) (fes_delivered s.1) X, s.2)).

Definition fes_append (event : EventEnvelope) : FES unit := on_inner (jsonl_append event).

Definition fes_get (id : EventId) (s : FileEventStore * FS) : option EventEnvelope :=
  jsonl_find (λ event, bool_decide (ev_id event = id)) (fes_inner s.1).

Definition fes_all (s : FileEventStore * FS) : list EventEnvelope := jsonl_all (fes_inner s.1).

Definition fes_mark_delivered (id : EventId) : FES unit :=
  delivered ← gets (λ s, fes_delivered_set s.1);
  if bool_decide (id ∈ delivered) then mret tt else
  on_delivered (jsonl_append id);;
  delivered ← gets (λ s, fes_delivered_set s.1);
  set_delivered_set ({[id]} ∪ delivered).

Definition fes_undelivered (s : FileEventStore * FS) : list EventEnvelope :=
  filter (λ event, ev_id event ∉ fes_delivered_set s.1) (jsonl_all (fes_inner s.1)).

(** [enforce_retention]: the closure given to [retain] also records the ids it
    kept; it runs on the records of the event log. *)
Definition fes_enforce_retention (policy : AutoRetention) (now : DateTime) : FES Z :=
  if is_unbounded policy then mret 0 else
  delivered ← gets (λ s, fes_delivered_set s.1);
  kept_ids ← gets (λ s, ids (retain_events (js_records (fes_inner s.1)) delivered policy now));
  removed ← on_inner (jsonl_retain (λ events, retain_events events delivered policy now));
  (if removed >? 0 then
     let kept_delivered := filter (λ id, id ∈ kept_ids) (iter delivered) in
     on_delivered (jsonl_replace_all kept_delivered);;
     set_delivered_set (list_to_set kept_delivered)
   else mret tt);;
  mret removed.

Definition fes_prune (policy : ManualRetention) : FES Z :=
  on_inner (jsonl_prune policy ev_timestamp).

Definition fes_len (s : FileEventStore * FS) : Z := jsonl_len (fes_inner s.1).

(** [inner.size_bytes() + delivered.size_bytes()]. *)
Definition fes_size_bytes (s : FileEventStore * FS) : Z :=
  jsonl_size_bytes (fes_inner s.1, s.2) + jsonl_size_bytes (fes_delivered s.1, s.2).

#[export] Instance FileEventStore_EventStore : EventStore (FileEventStore * FS) := {
  es_append := fes_append;
  es_get := fes_get;
  es_all := fes_all;
  es_mark_delivered := fes_mark_delivered;
  es_undelivered := fes_undelivered;
  es_enforce_retention := fes_enforce_retention;
  es_len := fes_len;
  es_size_bytes := fes_size_bytes;
  es_find_by_idempotency_key := default_find_by_idempotency_key fes_all;
  es_prune := fes_prune;
}.
End file_event_store.

(** ** [FileDeadTriggerQueue] *)

Record FileDeadTriggerQueue := mkFileDeadTriggerQueue {
  fdq_inner : JsonlStore DeadTriggerRecord;
}.

Section file_dead_trigger_queue.
Context `{Serialize DeadTriggerRecord} `{Deserialize DeadTriggerRecord}.

Local Abbreviation FDQ := (M (FileDeadTriggerQueue * FS) io_error).

(** [FileDeadTriggerQueue::open]. *)
Definition fdq_open (path : string) : IO FileDeadTriggerQueue :=
  inner ← jsonl_open path;
  mret (mkFileDeadTriggerQueue inner).

Definition on_queue {A} (m : M (JsonlStore DeadTriggerRecord * FS) io_error A) : FDQ A :=
  zoom (λ s, (fdq_inner s.1, s.2)) (λ t s, (mkFileDeadTriggerQueue t.1, t.2)) m.

Definition fdq_record (record : DeadTriggerRecord) : FDQ unit := on_queue (jsonl_append record).

Definition fdq_all (s : FileDeadTriggerQueue * FS) : list DeadTriggerRecord := jsonl_all (fdq_inner s.1).

Definition fdq_drain : FDQ (list DeadTriggerRecord) := on_queue jsonl_drain.

Definition fdq_prune (policy : ManualRetention) : FDQ Z :=
  on_queue (jsonl_prune policy (λ record, ev_timestamp (dt_event record))).

Definition fdq_enforce_retention (policy : AutoRetention) (now : DateTime) : FDQ Z :=
  if is_unbounded policy then mret 0 else
  on_queue (jsonl_retain (λ records, retain_dead_triggers records policy now)).

Definition fdq_len (s : FileDeadTriggerQueue * FS) : Z := jsonl_len (fdq_inner s.1).

Definition fdq_size_bytes (s : FileDeadTriggerQueue * FS) : Z := jsonl_size_bytes (fdq_inner s.1, s.2).

#[export] Instance FileDeadTriggerQueue_DeadTriggerQueue : DeadTriggerQueue (FileDeadTriggerQueue * FS) := {
  dq_record := fdq_record;
  dq_all := fdq_all;
  dq_drain := fdq_drain;
  dq_prune := fdq_prune;
  dq_len := fdq_len;
  dq_size_bytes := fdq_size_bytes;
  dq_enforce_retention := fdq_enforce_retention;
}.
End file_dead_trigger_queue.

(** ** What the operations do to the memory

    Whatever the file system answers: an operation that fails leaves the records
    in memory as they were. *)

Section memory.
Context {T : Type} `{Serialize T} `{Deserialize T}.
Implicit Types (s : JsonlStore T * FS) (r : T).

(** [m] changes the store's memory as [f] says, when it succeeds, and not at
    all when it fails. *)
Definition memory {A} (m : M (JsonlStore T * FS) io_error A) (f : list T → A → list T → Prop) : Prop :=
  ∀ s, match m s with
       | (Ok a, s') => f (js_records s.1) a (js_records s'.1)
       | (Err _, s') => js_records s'.1 = js_records s.1
       end.

Lemma memory_on_fs {A} (m : IO A) : memory (on_fs m) (λ l _ l', l' = l).
Proof. intros s. unfold on_fs, zoom. by destruct (m s.2) as [[a|e] fs]. Qed.

Lemma memory_impl {A} m (f g : list T → A → list T → Prop) :
  memory m f → (∀ l a l', f l a l' → g l a l') → memory m g.
Proof. intros Hm Hfg s. specialize (Hm s). destruct (m s) as [[a|e] s']; eauto. Qed.

(** A step that leaves the memory alone, and one after which nothing fails. *)
Lemma memory_bind {A B} (m : M (JsonlStore T * FS) io_error A) k (f : list T → B → list T → Prop) :
  memory m (λ l _ l', l' = l) → (∀ a, memory (k a) f) → memory (m ≫= k) f.
Proof.
  intros Hm Hk s. unfold mbind, M_bind. specialize (Hm s).
  destruct (m s) as [[a|e] s1]; [|done]. specialize (Hk a s1). rewrite Hm in Hk. done.
Qed.

Lemma memory_gets_records {B} k (f : list T → B → list T → Prop) :
  (∀ l, memory (k l) (λ l0 b l', l0 = l → f l0 b l')) →
  memory (gets (λ s, js_records s.1) ≫= k) f.
Proof.
  intros Hk s. specialize (Hk (js_records s.1) s). unfold gets, mbind, M_bind.
  destruct (k (js_records s.1) s) as [[b|e] s']; auto.
Qed.

Lemma memory_gets {A} (g : JsonlStore T * FS → A) : memory (gets g) (λ l _ l', l' = l).
Proof. by intros s. Qed.
Lemma memory_lift {A} (r : result io_error A) : memory (lift r) (λ l _ l', l' = l).
Proof. intros s. by destruct r. Qed.
Lemma memory_set_records l : memory (set_records l) (λ _ _ l', l' = l).
Proof. by intros s. Qed.
Lemma memory_set_file f : memory (set_file f) (λ l _ l', l' = l).
Proof. by intros s. Qed.
Lemma memory_ret {A} (a : A) : memory (mret a) (λ l a' l', a' = a ∧ l' = l).
Proof. by intros s. Qed.

Lemma append_memory r : memory (jsonl_append r) (λ l _ l', l' = l ++ [r]).
Proof.
  unfold jsonl_append. apply memory_bind; [apply memory_lift|]. intros b.
  apply memory_bind; [apply memory_gets|]. intros file.
  apply memory_bind; [apply memory_on_fs|]. intros _.
  apply memory_bind; [apply memory_on_fs|]. intros _.
  apply memory_gets_records. intros l. eapply memory_impl; [apply memory_set_records|].
  by intros ? ? ? -> ->.
Qed.

Lemma drain_memory : memory (jsonl_drain (T := T)) (λ l a l', a = l ∧ l' = []).
Proof.
  unfold jsonl_drain. apply memory_bind; [apply memory_gets|]. intros file.
  apply memory_bind; [apply memory_on_fs|]. intros _.
  apply memory_bind; [apply memory_on_fs|]. intros _.
  apply memory_gets_records. intros l s. by intros ->.
Qed.

Lemma replace_all_memory kept : memory (jsonl_replace_all kept) (λ _ _ l', l' = kept).
Proof.
  unfold jsonl_replace_all. apply memory_bind; [apply memory_gets|]. intros path.
  apply memory_bind; [apply memory_on_fs|]. intros file.
  apply memory_bind; [apply memory_set_file|]. intros _. apply memory_set_records.
Qed.

Lemma retain_memory (keep : list T → list T) :
  memory (jsonl_retain keep)
    (λ l n l', n = len l - len (keep l) ∧ l' = if n >? 0 then keep l else l).
Proof.
  unfold jsonl_retain. apply memory_gets_records. intros l.
  intros s. unfold mbind, M_bind at 1.
  destruct (len l - len (keep l) >? 0) eqn:Hn.
  - unfold gets, set_file, set_records, modify. unfold mbind, M_bind.
    pose proof (memory_on_fs (compact_jsonl (js_path s.1) (keep l)) s) as Hm.
    destruct (on_fs _ s) as [[f|e] s1]; simpl in *; [|done]. intros ->. by rewrite Hn.
  - unfold mret, M_ret. intros ->. by rewrite Hn.
Qed.

Lemma memory_ok {A} (m : M (JsonlStore T * FS) io_error A) f s a s' :
  memory m f → m s = (Ok a, s') → f (js_records s.1) a (js_records s'.1).
Proof. intros Hm Hs. specialize (Hm s). by rewrite Hs in Hm. Qed.

Lemma memory_err {A} (m : M (JsonlStore T * FS) io_error A) f s x s' :
  memory m f → m s = (Err x, s') → js_records s'.1 = js_records s.1.
Proof. intros Hm Hs. specialize (Hm s). by rewrite Hs in Hm. Qed.

(** Keeping a part of the records, with as many records: keeping all of them. *)
Lemma retained_all (l kept : list T) :
  kept `sublist_of` l → (if len l - len kept >? 0 then kept else l) = kept.
Proof.
  intros Hs. destruct (Z.gtb_spec (len l - len kept) 0) as [|Hle]; [done|].
  symmetry. apply (sublist_same_length _ _ Hs). unfold len in Hle. lia.
Qed.
End memory.

Lemma keep_sublist {T} (p : ManualRetention) (l : list T) ts : keep p l ts `sublist_of` l.
Proof. destruct p; simpl; [apply sublist_filter|apply sublist_drop]. Qed.

(** ** The refinements *)

Section refinement.
Context `{Serialize EventEnvelope} `{Deserialize EventEnvelope}.
Context `{Serialize EventId} `{Deserialize EventId} `{HashSetIter}.
Implicit Types s : FileEventStore * FS.

(** The log a file event store is, through its memory. *)
Definition fes_view s : EventLog := mkEventLog (js_records (fes_inner s.1)) (fes_delivered_set s.1).

Lemma retain_events_sublist events delivered policy now :
  policy_wf policy → retain_events events delivered policy now `sublist_of` events.
Proof. intros Hwf. etrans; [by apply apply_size_bounds_sublist|apply sublist_filter]. Qed.

Lemma on_inner_ok {A} (m : M (JsonlStore EventEnvelope * FS) io_error A) f s a s' :
  memory m f → on_inner m s = (Ok a, s') →
  f (js_records (fes_inner s.1)) a (js_records (fes_inner s'.1)) ∧
  fes_delivered_set s'.1 = fes_delivered_set s.1.
Proof.
  intros Hm Hs. unfold on_inner, zoom in Hs.
  destruct (m (fes_inner s.1, s.2)) as [r t] eqn:Ht. simplify_eq/=.
  split; [|done]. exact (memory_ok _ _ _ _ _ Hm Ht).
Qed.

Lemma on_inner_err {A} (m : M (JsonlStore EventEnvelope * FS) io_error A) f s x s' :
  memory m f → on_inner m s = (Err x, s') → fes_view s' = fes_view s.
Proof.
  intros Hm Hs. unfold on_inner, zoom in Hs.
  destruct (m (fes_inner s.1, s.2)) as [r t] eqn:Ht. simplify_eq/=.
  unfold fes_view. simpl. by rewrite (memory_err _ _ _ _ _ Hm Ht).
Qed.

(** The journal of delivered ids is not part of the view. *)
Lemma on_delivered_view {A} (m : M (JsonlStore EventId * FS) io_error A) s :
  fes_view (on_delivered m s).2 = fes_view s.
Proof. unfold on_delivered, zoom. by destruct (m _). Qed.

Lemma kept_delivered_set delivered kept :
  list_to_set (filter (λ id, id ∈ ids kept) (iter delivered)) = delivered ∩ ids kept.
Proof.
  apply set_eq. intros i. rewrite elem_of_list_to_set, list_elem_of_filter, elem_of_intersection.
  rewrite iter_perm, elem_of_elements. tauto.
Qed.

Lemma fes_mark_delivered_inv id s r s' :
  fes_mark_delivered id s = (r, s') →
  fes_view s' = match r with Ok _ => log_mark_delivered id (fes_view s) | Err _ => fes_view s end.
Proof.
  intros Hs. unfold fes_mark_delivered, gets, mbind, M_bind in Hs. case_bool_decide as Hin.
  - unfold mret, M_ret in Hs. simplify_eq. unfold log_mark_delivered, fes_view. simpl.
    by rewrite (subseteq_union_1_L {[id]} _) by (by apply singleton_subseteq_l).
  - pose proof (on_delivered_view (jsonl_append id) s) as Hv.
    destruct (on_delivered (jsonl_append id) s) as [[[]|e] s1]; simpl in Hv; [|injection Hs as <- <-; exact Hv].
    unfold set_delivered_set, modify in Hs. injection Hs as <- <-.
    unfold fes_view, log_mark_delivered in *. simpl in *. injection Hv as Hrs HX. by rewrite Hrs, HX.
Qed.

Lemma fes_enforce_retention_inv policy now s r s' :
  fes_enforce_retention policy now s = (r, s') → is_unbounded policy = false →
  match r with
  | Ok n => (n, fes_view s') = log_enforce_retention policy now (fes_view s)
  | Err _ =>
    fes_view s' = fes_view s ∨
    fes_view s' = mkEventLog (log_events (log_enforce_retention policy now (fes_view s)).2)
                    (log_delivered (fes_view s))
  end.
Proof.
  intros Hs Hu. unfold fes_enforce_retention in Hs. rewrite Hu in Hs.
  unfold gets, mbind, M_bind in Hs. set (X := fes_delivered_set s.1) in *.
  set (kp := λ events : list EventEnvelope, retain_events events X policy now) in *.
  pose proof (retain_memory kp) as Hm.
  unfold log_enforce_retention, fes_view at 2. simpl. fold X.
  change (retain_events (js_records (fes_inner s.1)) X policy now)
    with (kp (js_records (fes_inner s.1))) in *.
  destruct (on_inner (jsonl_retain kp) s) as [[n|e] s1] eqn:Hin; simplify_eq/=.
  2: { left. by eapply on_inner_err. }
  destruct (on_inner_ok _ _ _ _ _ Hm Hin) as [[Hn Hrs] HX]. rewrite <-Hn.
  destruct (n >? 0) eqn:Hgt.
  - pose proof (on_delivered_view (jsonl_replace_all
      (filter (λ id, id ∈ ids (kp (js_records (fes_inner s.1)))) (iter X))) s1) as Hv.
    destruct (on_delivered _ s1) as [[[]|e] s2]; simpl in Hv, Hs.
    + unfold set_delivered_set, modify, mret, M_ret in Hs. injection Hs as <- <-.
      unfold fes_view in *. simpl in *. injection Hv as Hrs2 _.
      by rewrite kept_delivered_set, Hrs2, Hrs.
    + injection Hs as <- <-. right. rewrite Hv. unfold fes_view. by rewrite Hrs, HX.
  - unfold mret, M_ret in Hs. simplify_eq. unfold fes_view. by rewrite Hrs, HX.
Qed.

#[export] Instance FileEventStore_EventStoreSpec : EventStoreSpec (FileEventStore * FS).
Proof.
  refine {| view := fes_view |}; try done.
  - intros e s s' [Hrs HX]%(on_inner_ok _ _ _ _ _ (append_memory e)). unfold fes_view, log_append.
    by rewrite Hrs, HX.
  - intros e s x s'. apply (on_inner_err _ _ _ _ _ (append_memory e)).
  - intros id s s' Hs. by apply fes_mark_delivered_inv in Hs.
  - intros id s x s' Hs. by apply fes_mark_delivered_inv in Hs.
  - intros policy now s n s' Hs. destruct (is_unbounded policy) eqn:Hu.
    + simpl in Hs. unfold fes_enforce_retention in Hs. rewrite Hu in Hs.
      unfold mret, M_ret in Hs. by simplify_eq.
    + by apply fes_enforce_retention_inv in Hs.
  - intros policy now s x s' Hs. destruct (is_unbounded policy) eqn:Hu.
    + simpl in Hs. unfold fes_enforce_retention in Hs. rewrite Hu in Hs.
      unfold mret, M_ret in Hs. by simplify_eq.
    + by apply fes_enforce_retention_inv in Hs.
  - intros policy s n s' [[Hn Hrs] HX]%(on_inner_ok _ _ _ _ _ (retain_memory _)).
    unfold fes_view, log_prune. simpl. rewrite Hn in Hrs.
    rewrite retained_all in Hrs by apply keep_sublist. by rewrite Hrs, HX, Hn.
  - intros policy s x s'. apply (on_inner_err _ _ _ _ _ (retain_memory _)).
Defined.
End refinement.

Section queue_refinement.
Context `{Serialize DeadTriggerRecord} `{Deserialize DeadTriggerRecord}.
Implicit Types q : FileDeadTriggerQueue * FS.

Definition fdq_records q : list DeadTriggerRecord := js_records (fdq_inner q.1).

Lemma on_queue_ok {A} (m : M (JsonlStore DeadTriggerRecord * FS) io_error A) f q a q' :
  memory m f → on_queue m q = (Ok a, q') → f (fdq_records q) a (fdq_records q').
Proof.
  intros Hm Hq. unfold on_queue, zoom in Hq.
  destruct (m (fdq_inner q.1, q.2)) as [r t] eqn:Ht. simplify_eq/=.
  exact (memory_ok _ _ _ _ _ Hm Ht).
Qed.

Lemma on_queue_err {A} (m : M (JsonlStore DeadTriggerRecord * FS) io_error A) f q x q' :
  memory m f → on_queue m q = (Err x, q') → fdq_records q' = fdq_records q.
Proof.
  intros Hm Hq. unfold on_queue, zoom in Hq.
  destruct (m (fdq_inner q.1, q.2)) as [r t] eqn:Ht. simplify_eq/=.
  exact (memory_err _ _ _ _ _ Hm Ht).
Qed.

Lemma retain_dead_triggers_sublist rs policy now :
  policy_wf policy → retain_dead_triggers rs policy now `sublist_of` rs.
Proof. intros Hwf. etrans; [by apply apply_size_bounds_sublist|apply sublist_filter]. Qed.

#[export] Instance FileDeadTriggerQueue_Spec : DeadTriggerQueueSpec (FileDeadTriggerQueue * FS).
Proof.
  refine {| records := fdq_records |}; try done.
  - intros r q q'. apply (on_queue_ok _ _ _ _ _ (append_memory r)).
  - intros r q x q'. apply (on_queue_err _ _ _ _ _ (append_memory r)).
  - intros q l q'. apply (on_queue_ok _ _ _ _ _ drain_memory).
  - intros q x q'. apply (on_queue_err _ _ _ _ _ drain_memory).
  - intros p q n q' [Hn Hrs]%(on_queue_ok _ _ _ _ _ (retain_memory _)).
    rewrite Hn in Hrs. rewrite retained_all in Hrs by apply keep_sublist. by rewrite Hrs, Hn.
  - intros p q x q'. apply (on_queue_err _ _ _ _ _ (retain_memory _)).
  - intros policy now q n q' Hwf Hq. simpl in Hq. unfold fdq_enforce_retention in Hq.
    destruct (is_unbounded policy) eqn:Hu.
    + unfold mret, M_ret in Hq. simplify_eq. rewrite retain_dead_triggers_unbounded by done.
      split; [done|lia].
    + apply (on_queue_ok _ _ _ _ _ (retain_memory _)) in Hq as [Hn Hrs].
      rewrite Hn in Hrs. rewrite retained_all in Hrs by (by apply retain_dead_triggers_sublist).
      by rewrite Hrs, Hn.
  - intros policy now q x q' Hq. simpl in Hq. unfold fdq_enforce_retention in Hq.
    destruct (is_unbounded policy); [done|].
    by apply (on_queue_err _ _ _ _ _ (retain_memory _)) in Hq.
Defined.
End queue_refinement.
