(* ===== verification/FileDurability.v ===== *)
(** * Durability of the event store

    The event journal and the journal of delivered ids share a directory: an
    operation on one leaves the other's file alone ([append_frame],
    [compact_frame]). What survives a power loss of [FileEventStore] follows:
    events and delivery marks together. *)

From stdpp Require Import base gmap strings list relations.
From Stdlib Require Import ZArith Lia.
From S2P Require Import Prelude RustStd Event Retention Store FileSystem Jsonl JsonlSpec Durability FileStore.

(** ** Framing: another file of the directory *)

Section frame.
Context (path : string) (i : inode) (b : bytes).

Lemma safe_rename p q : p ≠ path → q ≠ path → preserves (safe path i b) (fs_rename p q).
Proof.
  intros Hp Hq. apply syscall_preserves; [apply safe_ignores_faults| |done].
  intros fs Hs. destruct (fs_dir fs !! p) as [j|] eqn:Hj; [|done]. simpl.
  destruct Hs as [[Hinj Hdir Hddir Hdinj Hun] [Hd Hdd Hc Hdu]]. split; constructor; simpl; try done.
  - intros p' q' k Hp' Hq'. rewrite lookup_insert, lookup_delete in Hp', Hq'.
    repeat case_decide; simplify_eq; eauto; exfalso;
      match goal with H : p ≠ _ |- _ => apply H; eauto end.
  - intros p' k Hp'. rewrite lookup_insert, lookup_delete in Hp'.
    repeat case_decide; simplify_eq; eauto.
  - by rewrite lookup_insert_ne, lookup_delete_ne.
Qed.

Lemma safe_truncate f : f ≠ i → preserves (safe path i b) (fs_truncate f).
Proof.
  intros Hf. apply syscall_preserves; [apply safe_ignores_faults|intros fs Hs|done]; simpl.
  destruct Hs as [Hwf []]. split; [by apply fs_wf_truncate|]. constructor; [done..| |done].
  unfold content in *. simpl. by rewrite lookup_insert_ne.
Qed.

Lemma safe_open_locked_append p : p ≠ path → preserves (safe path i b) (open_locked_append p).
Proof.
  intros Hp. unfold open_locked_append. apply preserves_bind; [by apply safe_open_append|].
  intros j. apply preserves_bind; [|intros _; apply preserves_ret].
  intros fs Hs. pose proof (safe_try_lock path i b j fs Hs) as Hl. unfold mapM_err.
  by destruct (fs_try_lock_exclusive j fs).
Qed.

Lemma safe_sync_parent_dir p : preserves (safe path i b) (sync_parent_dir p).
Proof. unfold sync_parent_dir. case_match; [apply safe_sync_dir|apply preserves_ret]. Qed.

(** Opening the temporary file of another store. *)
Lemma safe_with_open_truncate p fs j fs' :
  p ≠ path → safe path i b fs → fs_open_truncate p fs = (Ok j, fs') →
  j ≠ i ∧ safe_with path i b j fs'.
Proof.
  intros Hp Hs Ho.
  destruct (writing_ne _ _ _ _ _ _ _ (open_truncate_writing _ _ _ _ _ _ _ Hp Hs Ho)) as [Hji Hlt].
  split; [done|]. split; [|done].
  pose proof (safe_open_truncate path i b p Hp fs Hs) as Hs'. by rewrite Ho in Hs'.
Qed.

Lemma write_items_frame {T} `{Serialize T} f (kept : list T) :
  f ≠ i → preserves (safe_with path i b f) (for_each kept (write_item f)).
Proof.
  intros Hf. apply preserves_for_each. intros r _. unfold write_item.
  apply preserves_bind; [by intros ?|]. intros x.
  apply preserves_bind; [by apply safe_write_all|]. intros _. by apply safe_write_all.
Qed.

(** Compacting another store. *)
Lemma compact_frame {T} `{Serialize T} p (kept : list T) :
  p ≠ path → with_extension p "compact" ≠ path → preserves (safe path i b) (compact_jsonl p kept).
Proof.
  intros Hp Ht fs Hs. unfold compact_jsonl. unfold mbind at 1, M_bind at 1.
  pose proof (safe_open_truncate path i b _ Ht fs Hs) as Hs1.
  destruct (fs_open_truncate _ fs) as [[j|e] fs1] eqn:Ho; [|done].
  destruct (safe_with_open_truncate _ _ _ _ Ht Hs Ho) as [Hji Hw].
  revert Hw. generalize fs1. clear fs1 Ho Hs1.
  assert (preserves (safe_with path i b j) (for_each kept (write_item j))) as Hi by by apply write_items_frame.
  intros fs1 Hw. unfold mbind at 1, M_bind at 1. specialize (Hi fs1 Hw).
  destruct (for_each kept (write_item j) fs1) as [[[]|e] fs2]; [|by destruct Hi].
  unfold mbind at 1, M_bind at 1. pose proof (safe_sync path i b j Hji fs2 Hi) as [Hs3 _].
  destruct (fs_sync j fs2) as [[[]|e] fs3]; [|done].
  revert fs3 Hs3. apply preserves_bind; [by apply safe_rename|]. intros _.
  apply preserves_bind; [apply safe_sync_parent_dir|]. intros _. by apply safe_open_locked_append.
Qed.
End frame.

Section store_frame.
Context {T : Type} `{JsonCodec T} (path : string) (i : inode) (b : bytes).
Implicit Types s : JsonlStore T * FS.

(** Two safe files of different names are different inodes. *)
Lemma safe_inode_ne p j c fs : p ≠ path → safe p j c fs → safe path i b fs → j ≠ i ∧ j < fs_next fs.
Proof. intros Hp [[] []] [_ []]. split; [|eauto]. intros ->. apply Hp. eauto. Qed.

Lemma append_frame r s :
  js_file s.1 ≠ i → js_file s.1 < fs_next s.2 → safe path i b s.2 →
  safe path i b (jsonl_append r s).2.2.
Proof.
  intros Hf Hlt Hs. unfold jsonl_append, lift, gets, mbind, M_bind.
  destruct (map_err io_other (to_vec r)) as [x|e]; [|done]. rewrite on_fs_run. simpl.
  pose proof (safe_write_all path i b (js_file s.1) (x ++ [newline]) Hf s.2 (conj Hs Hlt)) as Hw.
  destruct (fs_write_all _ _ s.2) as [[[]|e] fs1]; [|apply Hw]. rewrite on_fs_run. simpl.
  pose proof (safe_sync path i b (js_file s.1) Hf fs1 Hw) as Hy.
  destruct (fs_sync _ fs1) as [[[]|e] fs2]; apply Hy.
Qed.

Lemma replace_all_frame kept s :
  js_path s.1 ≠ path → with_extension (js_path s.1) "compact" ≠ path → safe path i b s.2 →
  safe path i b (jsonl_replace_all kept s).2.2.
Proof.
  intros Hp Ht Hs. unfold jsonl_replace_all, gets, set_file, set_records, modify, mbind, M_bind.
  rewrite on_fs_run. pose proof (compact_frame path i b (js_path s.1) kept Hp Ht s.2 Hs) as Hc.
  by destruct (compact_jsonl (js_path s.1) kept s.2) as [[j|e] fs1].
Qed.

Lemma retain_frame kp s :
  js_path s.1 ≠ path → with_extension (js_path s.1) "compact" ≠ path → safe path i b s.2 →
  safe path i b (jsonl_retain kp s).2.2.
Proof.
  intros Hp Ht Hs. unfold jsonl_retain, gets, set_file, set_records, modify, mbind, M_bind.
  destruct (len _ - len _ >? 0)%Z; [|done]. rewrite on_fs_run.
  pose proof (compact_frame path i b (js_path s.1) (kp (js_records s.1)) Hp Ht s.2 Hs) as Hc.
  by destruct (compact_jsonl (js_path s.1) _ s.2) as [[j|e] fs1].
Qed.

(** Creating another store. *)
Lemma open_frame p : p ≠ path → preserves (safe path i b) (jsonl_open (T := T) p).
Proof.
  intros Hp. unfold jsonl_open. apply preserves_bind.
  { intros fs Hs. unfold read_jsonl, catch, mbind, M_bind.
    pose proof (safe_read path i b p fs Hs) as Hr. destruct (fs_read p fs) as [[x|e] fs1]; [done|].
    by case_decide. }
  intros rs. apply preserves_bind; [by intros fs|]. intros nc.
  apply preserves_bind; [by apply safe_open_locked_append|]. intros f.
  apply preserves_bind; [|intros _; apply preserves_ret].
  destruct nc; [apply safe_sync_parent_dir|apply preserves_ret].
Qed.
End store_frame.

(** ** The event store's invariant *)

(** The two journals and their temporary files have different names. *)
Definition paths_ok (path : string) : Prop :=
  path_ok path ∧ path_ok (delivered_path path) ∧ delivered_path path ≠ path ∧
  with_extension path "compact" ≠ delivered_path path ∧
  with_extension (delivered_path path) "compact" ≠ path.

#[export] Instance paths_ok_dec path : Decision (paths_ok path).
Proof. unfold paths_ok. apply _. Defined.

Section event_store.
Context `{JsonCodec EventEnvelope} `{JsonCodec EventId} `{HashSetIter}.
Implicit Types s : FileEventStore * FS.

(** Both journals are in order, and the set in memory is the one they record. *)
Record fes_ok s : Prop := mk_fes_ok {
  fes_paths : paths_ok (js_path (fes_inner s.1));
  fes_delivered_path : js_path (fes_delivered s.1) = delivered_path (js_path (fes_inner s.1));
  fes_inner_ok : store_ok (fes_inner s.1, s.2);
  fes_delivered_ok : store_ok (fes_delivered s.1, s.2);
  fes_set : fes_delivered_set s.1 = list_to_set (js_records (fes_delivered s.1));
}.

Lemma on_inner_run {A} (m : M (JsonlStore EventEnvelope * FS) io_error A) s :
  on_inner m s = ((m (fes_inner s.1, s.2)).1,
    (mkFileEventStore (m (fes_inner s.1, s.2)).2.1 (fes_delivered s.1) (fes_delivered_set s.1),
     (m (fes_inner s.1, s.2)).2.2)).
Proof. unfold on_inner, zoom. by destruct (m _). Qed.

Lemma on_delivered_run {A} (m : M (JsonlStore EventId * FS) io_error A) s :
  on_delivered m s = ((m (fes_delivered s.1, s.2)).1,
    (mkFileEventStore (fes_inner s.1) (m (fes_delivered s.1, s.2)).2.1 (fes_delivered_set s.1),
     (m (fes_delivered s.1, s.2)).2.2)).
Proof. unfold on_delivered, zoom. by destruct (m _). Qed.

(** An operation on the event journal that keeps it in order and leaves the
    other journal's file alone keeps the store in order. *)
Lemma fes_ok_inner {A} (m : M (JsonlStore EventEnvelope * FS) io_error A) s a s' :
  fes_ok s →
  (∀ t, m (fes_inner s.1, s.2) = (Ok a, t) →
     store_ok t ∧ js_path t.1 = js_path (fes_inner s.1) ∧
     ∀ i b, safe (js_path (fes_delivered s.1)) i b s.2 → safe (js_path (fes_delivered s.1)) i b t.2) →
  on_inner m s = (Ok a, s') → fes_ok s'.
Proof.
  intros [Hp Hdp Hi (Hpd & bs & Hbs & Hs) Hset] Hm Ho. rewrite on_inner_run in Ho.
  destruct (m (fes_inner s.1, s.2)) as [r t] eqn:Hr. simpl in Ho. injection Ho as -> <-.
  destruct (Hm t eq_refl) as (Hok & Hpath & Hfr). constructor; simpl; rewrite ?Hpath; [done|done|by destruct t| |done].
  split; [done|]. exists bs. split; [done|]. by apply Hfr.
Qed.

Lemma fes_ok_delivered {A} (m : M (JsonlStore EventId * FS) io_error A) s a t :
  fes_ok s → m (fes_delivered s.1, s.2) = (Ok a, t) →
  store_ok t → js_path t.1 = js_path (fes_delivered s.1) →
  (∀ i b, safe (js_path (fes_inner s.1)) i b s.2 → safe (js_path (fes_inner s.1)) i b t.2) →
  fes_ok (mkFileEventStore (fes_inner s.1) t.1 (list_to_set (js_records t.1)), t.2).
Proof.
  intros [Hp Hdp (Hpi & bs & Hbs & Hs) Hd Hset] Hm Hok Hpath Hfr.
  constructor; simpl; rewrite ?Hpath; [done|done| |by destruct t|done].
  split; [done|]. exists bs. split; [done|]. by apply Hfr.
Qed.

Lemma fes_ok_journals s :
  fes_ok s →
  ∃ bs cs, safe (js_path (fes_inner s.1)) (js_file (fes_inner s.1)) (file_of bs) s.2 ∧
    safe (js_path (fes_delivered s.1)) (js_file (fes_delivered s.1)) (file_of cs) s.2 ∧
    js_path (fes_inner s.1) ≠ js_path (fes_delivered s.1).
Proof.
  intros [Hp Hdp (_ & bs & _ & Hs) (_ & cs & _ & Hc) _]. exists bs, cs. split; [done|]. split; [done|].
  rewrite Hdp. destruct Hp as (_ & _ & Hne & _). by intros Heq%eq_sym.
Qed.

Lemma fes_append_ok e s s' : fes_ok s → fes_append e s = (Ok tt, s') → fes_ok s'.
Proof.
  intros Hok. apply fes_ok_inner; [done|]. intros t Ht.
  destruct (fes_ok_journals _ Hok) as (bs & cs & Hs & Hc & Hne).
  destruct (append_store_ok _ _ _ (fes_inner_ok _ Hok) Ht) as [Hok' _]. split; [done|]. split.
  { by destruct (append_ok_inv _ _ _ Ht) as (? & ? & ? & _ & _ & _ & ->). }
  intros i b Hi.
  destruct (safe_inode_ne _ _ _ _ _ _ _ Hne Hs Hi) as [Hji Hlt].
  pose proof (append_frame _ i b e (fes_inner s.1, s.2) Hji Hlt Hi) as Hf. by rewrite Ht in Hf.
Qed.

(** The path of a store never changes. *)
Lemma retain_path {T} `{JsonCodec T} kp (s : JsonlStore T * FS) : js_path (jsonl_retain kp s).2.1 = js_path s.1.
Proof.
  unfold jsonl_retain, gets, set_file, set_records, modify, mbind, M_bind.
  destruct (len _ - len _ >? 0)%Z; [|done]. rewrite on_fs_run.
  by destruct (compact_jsonl _ _ s.2) as [[j|e] fs1].
Qed.

Lemma replace_all_path {T} `{JsonCodec T} kept (s : JsonlStore T * FS) :
  js_path (jsonl_replace_all kept s).2.1 = js_path s.1.
Proof.
  unfold jsonl_replace_all, gets, set_file, set_records, modify, mbind, M_bind.
  rewrite on_fs_run. by destruct (compact_jsonl _ _ s.2) as [[j|e] fs1].
Qed.

Lemma fes_retain_ok kp n s s' :
  fes_ok s → on_inner (jsonl_retain kp) s = (Ok n, s') → fes_ok s'.
Proof.
  intros Hok. apply fes_ok_inner; [done|]. intros t Ht.
  destruct (retain_store_ok _ _ _ _ (fes_inner_ok _ Hok) Ht) as [Hok' _].
  pose proof (fes_paths _ Hok) as (_ & _ & Hdn & Hcn & _). rewrite <-(fes_delivered_path _ Hok) in *.
  split; [done|]. split.
  { pose proof (retain_path kp (fes_inner s.1, s.2)) as Hp. by rewrite Ht in Hp. }
  intros i b Hi. pose proof (retain_frame _ i b kp (fes_inner s.1, s.2) (not_eq_sym Hdn) Hcn Hi) as Hf.
  by rewrite Ht in Hf.
Qed.

(** The journal of delivered ids, one more id or a new one; the set in memory then
    has to be brought in line. *)
Definition with_journal s (t : JsonlStore EventId * FS) : FileEventStore * FS :=
  (mkFileEventStore (fes_inner s.1) t.1 (list_to_set (js_records t.1)), t.2).

Lemma journal_append_ok id s t :
  fes_ok s → jsonl_append id (fes_delivered s.1, s.2) = (Ok tt, t) →
  fes_ok (with_journal s t) ∧ js_records t.1 = js_records (fes_delivered s.1) ++ [id].
Proof.
  intros Hok Ha. destruct (append_store_ok _ _ _ (fes_delivered_ok _ Hok) Ha) as [Hok' Hrs].
  destruct (fes_ok_journals _ Hok) as (bs & cs & Hs & Hc & Hne). split; [|exact Hrs].
  eapply fes_ok_delivered; [done|done|done|..].
  - by destruct (append_ok_inv _ _ _ Ha) as (? & ? & ? & _ & _ & _ & ->).
  - intros i b Hi. destruct (safe_inode_ne _ _ _ _ _ _ _ (not_eq_sym Hne) Hc Hi) as [Hji Hlt].
    pose proof (append_frame _ i b id (fes_delivered s.1, s.2) Hji Hlt Hi) as Hf. by rewrite Ha in Hf.
Qed.

Lemma journal_replace_ok kept s t :
  fes_ok s → jsonl_replace_all kept (fes_delivered s.1, s.2) = (Ok tt, t) →
  fes_ok (with_journal s t) ∧ js_records t.1 = kept.
Proof.
  intros Hok Ha. destruct (replace_all_store_ok _ _ _ (fes_delivered_ok _ Hok) Ha) as [Hok' Hrs]. split; [|exact Hrs].
  pose proof (fes_paths _ Hok) as (_ & _ & Hdn & _ & Hcn). rewrite <-(fes_delivered_path _ Hok) in *.
  eapply fes_ok_delivered; [done|exact Ha|done|..].
  - pose proof (replace_all_path kept (fes_delivered s.1, s.2)) as Hp. by rewrite Ha in Hp.
  - intros i b Hi. pose proof (replace_all_frame _ i b kept (fes_delivered s.1, s.2) Hdn Hcn Hi) as Hf. by rewrite Ha in Hf.
Qed.

Lemma fes_mark_delivered_ok id s s' : fes_ok s → fes_mark_delivered id s = (Ok tt, s') → fes_ok s'.
Proof.
  intros Hok Hm. unfold fes_mark_delivered, gets, mbind, M_bind in Hm. case_bool_decide.
  { unfold mret, M_ret in Hm. by simplify_eq. }
  rewrite on_delivered_run in Hm.
  destruct (jsonl_append id (fes_delivered s.1, s.2)) as [[[]|e] t] eqn:Ha; [|done].
  unfold set_delivered_set, modify in Hm. simpl in Hm. injection Hm as <-.
  destruct (journal_append_ok _ _ _ Hok Ha) as [Hok' Hrs]. unfold with_journal in Hok'.
  replace ({[id]} ∪ fes_delivered_set s.1) with (list_to_set (js_records t.1) : gset EventId); [done|].
  rewrite Hrs, (fes_set _ Hok), list_to_set_app_L, list_to_set_singleton_L. apply union_comm_L.
Qed.

Lemma fes_enforce_retention_ok policy now n s s' :
  fes_ok s → fes_enforce_retention policy now s = (Ok n, s') → fes_ok s'.
Proof.
  intros Hok Hm. unfold fes_enforce_retention, gets in Hm.
  destruct (is_unbounded policy); [unfold mret, M_ret in Hm; by injection Hm as _ <-|].
  apply bind_ok_inv in Hm as (X & ? & [= <- <-] & Hm).
  apply bind_ok_inv in Hm as (Y & ? & [= <- <-] & Hm).
  apply bind_ok_inv in Hm as (k & s1 & Hr & Hm). apply fes_retain_ok in Hr as Hok1; [|done].
  apply bind_ok_inv in Hm as ([] & s2 & Hd & Hm). unfold mret, M_ret in Hm. injection Hm as <- <-.
  destruct (k >? 0)%Z; [|unfold mret, M_ret in Hd; by injection Hd as <-].
  unfold mbind, M_bind in Hd. rewrite on_delivered_run in Hd.
  destruct (jsonl_replace_all _ (fes_delivered s1.1, s1.2)) as [[[]|e] t] eqn:Ha; [|done].
  unfold set_delivered_set, modify in Hd. simpl in Hd. injection Hd as <-.
  destruct (journal_replace_ok _ _ _ Hok1 Ha) as [Hok' Hrs]. unfold with_journal in Hok'. by rewrite Hrs in Hok'.
Qed.

Lemma fes_prune_ok policy n s s' : fes_ok s → fes_prune policy s = (Ok n, s') → fes_ok s'.
Proof. apply fes_retain_ok. Qed.

(** Restarting after a power loss. *)
Lemma fes_restart s fs :
  fes_ok s → crash s.2 fs → no_faults fs →
  fes_open (js_path (fes_inner s.1)) fs = (Ok s.1, fs) ∧ fes_ok (s.1, fs).
Proof.
  intros [Hp Hdp Hi Hd Hset] Hcr Hnf.
  destruct (store_ok_restart _ _ Hi Hcr Hnf) as [Hoi Hi'].
  destruct (store_ok_restart _ _ Hd Hcr Hnf) as [Hod Hd']. split; [|by constructor].
  unfold fes_open, mbind, M_bind. simpl in Hoi, Hod. rewrite Hoi, <-Hdp, Hod.
  unfold mret, M_ret, jsonl_all. rewrite <-Hset. by destruct s as [[] ?].
Qed.

(** The operations that report success, and restarts after a power loss. *)
Inductive fes_lifecycle s : FileEventStore * FS → Prop :=
| fes_life_append e s' : fes_append e s = (Ok tt, s') → fes_lifecycle s s'
| fes_life_mark id s' : fes_mark_delivered id s = (Ok tt, s') → fes_lifecycle s s'
| fes_life_retention policy now n s' : fes_enforce_retention policy now s = (Ok n, s') → fes_lifecycle s s'
| fes_life_prune policy n s' : fes_prune policy s = (Ok n, s') → fes_lifecycle s s'
| fes_life_restart fs st fs' :
    crash s.2 fs → no_faults fs → fes_open (js_path (fes_inner s.1)) fs = (Ok st, fs') →
    fes_lifecycle s (st, fs').

Lemma fes_lifecycle_ok s s' : rtc fes_lifecycle s s' → fes_ok s → fes_ok s'.
Proof.
  induction 1 as [|s s1 s2 Hl _ IH]; [done|]. intros Hs. apply IH. clear IH s2.
  destruct Hl as [e s1 Ho|id s1 Ho|policy now n s1 Ho|policy n s1 Ho|fs st fs' Hcr Hnf Ho].
  - by eapply fes_append_ok.
  - by eapply fes_mark_delivered_ok.
  - by eapply fes_enforce_retention_ok.
  - by eapply fes_prune_ok.
  - destruct (fes_restart _ _ Hs Hcr Hnf) as [Ho' Hok]. rewrite Ho' in Ho. by injection Ho as <- <-.
Qed.

(** A new store, on a file system without either journal. *)
Lemma fes_open_new path fs st fs' :
  paths_ok path → fs_wf fs → fs_dir fs !! path = None → fs_dir fs !! delivered_path path = None →
  fes_open path fs = (Ok st, fs') →
  fes_view (st, fs') = mkEventLog [] ∅ ∧ fes_ok (st, fs').
Proof.
  intros Hp Hwf Hn Hdn Ho. pose proof Hp as (Hpi & Hpd & Hne & Hcn & Hcn').
  unfold fes_open in Ho. apply bind_ok_inv in Ho as (inner & fs1 & Hi & Ho).
  apply bind_ok_inv in Ho as (delivered & fs2 & Hd & Ho). unfold mret, M_ret in Ho. injection Ho as <- <-.
  destruct (open_new _ _ _ _ Hpi Hwf Hn Hi) as (Hri & Hpath & _ & bs & Hbs & Hs).
  rewrite Hpath in Hd. simpl in Hbs, Hs.
  assert (fs_dir fs1 !! delivered_path path = None) as Hdn1.
  { by apply (open_new_others path fs inner). }
  destruct (open_new _ _ _ _ Hpd (proj1 Hs) Hdn1 Hd) as (Hrd & Hpathd & Hokd).
  pose proof (open_frame (T := EventId) _ _ _ _ (λ H, Hne (eq_trans H Hpath)) _ Hs) as Hs2.
  rewrite Hd in Hs2. unfold fes_view, jsonl_all. simpl. rewrite Hri, Hrd. split; [done|].
  constructor; simpl; rewrite ?Hpath; try done.
  - split; [by simpl; rewrite Hpath|]. exists bs. split; [done|]. exact Hs2.
  - unfold jsonl_all. by rewrite Hrd.
Qed.
End event_store.

(** ** The durable backends

    To be opened again is: the power is lost, or the process only ends; then a new
    one opens the same paths and no call fails. *)

Section durable.
Context `{JsonCodec EventEnvelope} `{JsonCodec EventId} `{JsonCodec DeadTriggerRecord} `{HashSetIter}.

Definition fes_reopens (s s' : FileEventStore * FS) : Prop :=
  ∃ fs, crash s.2 fs ∧ no_faults fs ∧ fes_open (js_path (fes_inner s.1)) fs = (Ok s'.1, s'.2).

#[export] Instance FileEventStore_Durable : DurableEventStore (FileEventStore * FS).
Proof.
  refine {| es_in_order := fes_ok; es_reopens := fes_reopens |}.
  - intros e s s' Ha Hok. exact (fes_append_ok e s s' Hok Ha).
  - intros id s s' Hm Hok. exact (fes_mark_delivered_ok id s s' Hok Hm).
  - intros policy now s n s' Hr Hok. exact (fes_enforce_retention_ok policy now n s s' Hok Hr).
  - intros policy s n s' Hp Hok. exact (fes_prune_ok policy n s s' Hok Hp).
  - intros s s' Hok (fs & Hcr & Hnf & Ho). destruct (fes_restart s fs Hok Hcr Hnf) as [Ho' Hok'].
    rewrite Ho' in Ho. injection Ho as Hst Hfs. destruct s' as [st fs']. simpl in Hst, Hfs. subst. by split.
Defined.

Definition queue_ok (q : FileDeadTriggerQueue * FS) : Prop := store_ok (fdq_inner q.1, q.2).

Definition fdq_reopens (q q' : FileDeadTriggerQueue * FS) : Prop :=
  ∃ fs, crash q.2 fs ∧ no_faults fs ∧ fdq_open (js_path (fdq_inner q.1)) fs = (Ok q'.1, q'.2).

Lemma on_queue_queue_ok {A} (m : M (JsonlStore DeadTriggerRecord * FS) io_error A) q a q' :
  (∀ s s', m s = (Ok a, s') → store_ok s → store_ok s') → on_queue m q = (Ok a, q') → queue_ok q → queue_ok q'.
Proof.
  intros Hm Hq Hok. unfold on_queue, zoom in Hq. destruct (m (fdq_inner q.1, q.2)) as [r [t fs]] eqn:Ht.
  injection Hq as -> <-. by eapply Hm.
Qed.

(** Restarting after a power loss. *)
Lemma fdq_restart q fs :
  queue_ok q → crash q.2 fs → no_faults fs →
  fdq_open (js_path (fdq_inner q.1)) fs = (Ok q.1, fs) ∧ queue_ok (q.1, fs).
Proof.
  intros Hok Hcr Hnf. destruct (store_ok_restart _ _ Hok Hcr Hnf) as [Ho Hok']. split; [|done].
  unfold fdq_open, mbind, M_bind. simpl in Ho. rewrite Ho. unfold mret, M_ret. by destruct q as [[] ?].
Qed.

#[export] Instance FileDeadTriggerQueue_Durable : DurableDeadTriggerQueue (FileDeadTriggerQueue * FS).
Proof.
  refine {| dq_in_order := queue_ok; dq_reopens := fdq_reopens |}.
  - intros r q q'. apply on_queue_queue_ok. intros s s' Ha Hok. by eapply append_store_ok.
  - intros q l q'. apply on_queue_queue_ok. intros s s' Hd Hok. by eapply drain_store_ok.
  - intros p q n q'. apply on_queue_queue_ok. intros s s' Hr Hok. by eapply retain_store_ok.
  - intros policy now q n q' Hq. simpl in Hq. unfold fdq_enforce_retention in Hq.
    destruct (is_unbounded policy); [unfold mret, M_ret in Hq; by simplify_eq|]. revert Hq.
    apply on_queue_queue_ok. intros s s' Hr Hok. by eapply retain_store_ok.
  - intros q q' Hok (fs & Hcr & Hnf & Ho). destruct (fdq_restart q fs Hok Hcr Hnf) as [Ho' Hok'].
    rewrite Ho' in Ho. injection Ho as Hst Hfs. destruct q' as [st fs']. simpl in Hst, Hfs. subst. by split.
Defined.
End durable.

(** ** Interrupted sweeps *)

(** A restart finds the records [rs] under [path]. *)
Definition reopens {T} `{Serialize T} (path : string) (fs : FS) (rs : list T) : Prop :=
  ∃ k bs, fs_dir fs !! path = Some k ∧ content fs k = file_of bs ∧ encodes rs bs.

Section reopen.
Context {T : Type} `{JsonCodec T}.
Implicit Types s : JsonlStore T * FS.

Lemma reopens_open path (rs : list T) fs :
  no_faults fs → reopens path fs rs → ∃ k, jsonl_open path fs = (Ok (mkJsonlStore path rs k), fs).
Proof.
  intros Hnf (k & bs & Hd & Hc & Hbs). exists k. apply open_existing; [done..|].
  rewrite Hc. by apply parse_jsonl_complete.
Qed.

Lemma store_ok_reopens s fs : store_ok s → crash s.2 fs → reopens (js_path s.1) fs (js_records s.1).
Proof.
  intros (Hp & bs & Hbs & Hs) Hcr. destruct (crash_safe _ _ _ _ _ Hs Hcr) as [Hd Hc].
  by exists (js_file s.1), bs.
Qed.

Lemma compact_reopens (kept : list T) s res fs1 fs :
  store_ok s → compact_jsonl (js_path s.1) kept s.2 = (res, fs1) → crash fs1 fs →
  reopens (js_path s.1) fs (js_records s.1) ∨ reopens (js_path s.1) fs kept.
Proof.
  intros (Hp & bs & Hbs & Hs) Hc Hcr.
  destruct (compact_crash _ _ _ _ _ _ _ _ _ Hp Hbs Hs Hc Hcr) as (k & cs & Hd & Hk & [[Hcs _]|Hcs]);
    [left|right]; by exists k, cs.
Qed.

Lemma retain_reopens kp s res s' fs :
  store_ok s → jsonl_retain kp s = (res, s') → crash s'.2 fs →
  reopens (js_path s.1) fs (js_records s.1) ∨ reopens (js_path s.1) fs (kp (js_records s.1)).
Proof.
  intros Hok Hr Hcr. unfold jsonl_retain, gets, set_file, set_records, modify, mbind, M_bind in Hr.
  destruct (len _ - len _ >? 0)%Z.
  - rewrite on_fs_run in Hr.
    destruct (compact_jsonl (js_path s.1) (kp (js_records s.1)) s.2) as [[j|e] fs1] eqn:Hc;
      unfold mret, M_ret in Hr; injection Hr as <- <-; simpl in Hcr; by eapply compact_reopens.
  - unfold mret, M_ret in Hr. injection Hr as <- <-. left. by apply store_ok_reopens.
Qed.

Lemma replace_all_reopens kept s res s' fs :
  store_ok s → jsonl_replace_all kept s = (res, s') → crash s'.2 fs →
  reopens (js_path s.1) fs (js_records s.1) ∨ reopens (js_path s.1) fs kept.
Proof.
  intros Hok Hr Hcr. unfold jsonl_replace_all, gets, set_file, set_records, modify, mbind, M_bind in Hr.
  rewrite on_fs_run in Hr. destruct (compact_jsonl (js_path s.1) kept s.2) as [[j|e] fs1] eqn:Hc;
    injection Hr as <- <-; simpl in Hcr; by eapply compact_reopens.
Qed.
End reopen.

Section interrupted.
Context `{JsonCodec EventEnvelope} `{JsonCodec EventId} `{HashSetIter}.
Implicit Types s : FileEventStore * FS.

Lemma fes_reopen path rs ds fs :
  no_faults fs → reopens path fs rs → reopens (delivered_path path) fs ds →
  ∃ st, fes_open path fs = (Ok st, fs) ∧ fes_view (st, fs) = mkEventLog rs (list_to_set ds).
Proof.
  intros Hnf Hr Hd. destruct (reopens_open _ _ _ Hnf Hr) as [k Hk].
  destruct (reopens_open _ _ _ Hnf Hd) as [l Hl]. unfold fes_open, mbind, M_bind.
  rewrite Hk. simpl. rewrite Hl. eexists. by split.
Qed.

(** Sweeping one journal leaves the other one's file as it was. *)
Lemma retain_keeps_delivered kp s r t fs :
  fes_ok s → jsonl_retain kp (fes_inner s.1, s.2) = (r, t) → crash t.2 fs →
  reopens (js_path (fes_delivered s.1)) fs (js_records (fes_delivered s.1)).
Proof.
  intros Hok Ha Hcr. destruct (fes_delivered_ok _ Hok) as (_ & cs & Hcs & Hc).
  pose proof (fes_paths _ Hok) as (_ & _ & Hdn & Hcn & _).
  rewrite <-(fes_delivered_path _ Hok) in Hdn, Hcn.
  pose proof (retain_frame _ _ _ kp (fes_inner s.1, s.2) (not_eq_sym Hdn) Hcn Hc) as Hf.
  rewrite Ha in Hf. destruct (crash_safe _ _ _ _ _ Hf Hcr) as [? ?]. by eexists _, cs.
Qed.

Lemma replace_keeps_events kept s r t fs :
  fes_ok s → jsonl_replace_all kept (fes_delivered s.1, s.2) = (r, t) → crash t.2 fs →
  reopens (js_path (fes_inner s.1)) fs (js_records (fes_inner s.1)).
Proof.
  intros Hok Ha Hcr. destruct (fes_inner_ok _ Hok) as (_ & cs & Hcs & Hc).
  pose proof (fes_paths _ Hok) as (_ & _ & Hdn & _ & Hcn).
  rewrite <-(fes_delivered_path _ Hok) in Hdn, Hcn.
  pose proof (replace_all_frame _ _ _ kept (fes_delivered s.1, s.2) Hdn Hcn Hc) as Hf.
  rewrite Ha in Hf. destruct (crash_safe _ _ _ _ _ Hf Hcr) as [? ?]. by eexists _, cs.
Qed.

Lemma fes_ok_reopens s fs :
  fes_ok s → crash s.2 fs →
  reopens (js_path (fes_inner s.1)) fs (js_records (fes_inner s.1)) ∧
  reopens (js_path (fes_delivered s.1)) fs (js_records (fes_delivered s.1)).
Proof.
  intros Hok Hcr. split.
  - apply (store_ok_reopens (fes_inner s.1, s.2)); [apply Hok|done].
  - apply (store_ok_reopens (fes_delivered s.1, s.2)); [apply Hok|done].
Qed.

(** The files a sweep leaves behind, wherever it failed. *)
Lemma fes_retention_reopens policy now s res s' fs :
  fes_ok s → fes_enforce_retention policy now s = (res, s') → crash s'.2 fs →
  let path := js_path (fes_inner s.1) in
  let kept := retain_events (js_records (fes_inner s.1)) (fes_delivered_set s.1) policy now in
  ∃ rs ds, reopens path fs rs ∧ reopens (js_path (fes_delivered s.1)) fs ds ∧
    (rs = js_records (fes_inner s.1) ∨ rs = kept) ∧
    (list_to_set ds = fes_delivered_set s.1 ∨ rs = kept ∧ list_to_set ds = fes_delivered_set s.1 ∩ ids kept).
Proof.
  intros Hok Hr Hcr path kept. subst path. pose proof (fes_set _ Hok) as HX.
  unfold fes_enforce_retention, gets in Hr.
  destruct (is_unbounded policy).
  { unfold mret, M_ret in Hr. injection Hr as <- <-. destruct (fes_ok_reopens _ _ Hok Hcr). eauto 10. }
  unfold mbind at 1 2 3, M_bind at 1 2 3 in Hr. fold kept in Hr.
  destruct (on_inner _ s) as [[n|e] s1] eqn:Hin.
  - apply fes_retain_ok in Hin as Hok1; [|done].
    destruct (on_inner_ok _ _ _ _ _ (retain_memory _) Hin) as [[Hn Hrs] HX1].
    rewrite on_inner_run in Hin. injection Hin as _ Hs1.
    assert (fes_delivered s1.1 = fes_delivered s.1) as Hds by by subst s1.
    assert (js_path (fes_inner s1.1) = js_path (fes_inner s.1)) as Hpi by (subst s1; apply retain_path).
    unfold mbind, M_bind in Hr. fold kept in Hrs. rewrite <-Hds, <-Hpi. destruct (n >? 0)%Z.
    + rewrite on_delivered_run in Hr. destruct (jsonl_replace_all _ _) as [r t] eqn:Ha.
      assert (crash t.2 fs) as Hcr'.
      { destruct r as [[]|e]; unfold set_delivered_set, modify, mret, M_ret in Hr; by injection Hr as <- <-. }
      pose proof (replace_keeps_events _ _ _ _ _ Hok1 Ha Hcr') as Hre. rewrite Hrs in Hre.
      destruct (replace_all_reopens _ _ _ _ _ (fes_delivered_ok _ Hok1) Ha Hcr') as [Hd|Hd];
        eexists _, _; (split; [exact Hre|split; [exact Hd|split; [by right|]]]).
      * left. by rewrite HX, Hds.
      * right. by rewrite kept_delivered_set.
    + unfold mret, M_ret in Hr. injection Hr as <- <-.
      destruct (fes_ok_reopens _ _ Hok1 Hcr). eexists _, _. rewrite Hrs, Hds in *. rewrite <-HX. eauto 10.
  - injection Hr as <- <-. rewrite on_inner_run in Hin.
    destruct (jsonl_retain _ _) as [r t] eqn:Ha. injection Hin as -> <-. simpl in Hcr.
    pose proof (retain_keeps_delivered _ _ _ _ _ Hok Ha Hcr) as Hd.
    destruct (retain_reopens _ _ _ _ _ (fes_inner_ok _ Hok) Ha Hcr) as [Hre|Hre]; eexists _, _;
      (split; [exact Hre|split; [exact Hd|]]); (split; [by (left + right)|left; by rewrite HX]).
Qed.

(** C24: a retention sweep cut short by a failing system call and a power loss,
    anywhere: the store reopens with the events it had or exactly those the
    policy keeps, and every one of them is delivered exactly if it was. *)
Theorem interrupted_retention policy now s res s' fs :
  fes_ok s → fes_enforce_retention policy now s = (res, s') → crash s'.2 fs → no_faults fs →
  ∃ st, fes_open (js_path (fes_inner s.1)) fs = (Ok st, fs) ∧
    (fes_all (st, fs) = fes_all s ∨
     fes_all (st, fs) = retain_events (fes_all s) (fes_delivered_set s.1) policy now) ∧
    ∀ e, e ∈ fes_all (st, fs) → (ev_id e ∈ fes_delivered_set st ↔ ev_id e ∈ fes_delivered_set s.1).
Proof.
  intros Hok Hr Hcr Hnf.
  destruct (fes_retention_reopens _ _ _ _ _ _ Hok Hr Hcr) as (rs & ds & Hrs & Hds & Hevs & Hdel).
  rewrite (fes_delivered_path _ Hok) in Hds.
  destruct (fes_reopen _ _ _ _ Hnf Hrs Hds) as (st & Ho & Hv). exists st. split; [done|].
  unfold fes_view in Hv. injection Hv as Hall HX. unfold fes_all, jsonl_all. simpl. rewrite Hall.
  split; [exact Hevs|]. intros e He. simpl in HX. rewrite HX.
  destruct Hdel as [->|[-> ->]]; [done|]. rewrite elem_of_intersection. split; [by intros []|].
  intros Hin. split; [done|]. unfold ids. rewrite elem_of_list_to_set, list_elem_of_fmap. eauto.
Qed.

(** C3: an event store whose path has a directory part, created on a volume without
    its files. After any sequence of operations that all reported success (appends,
    marks, sweeps, prunes) and of restarts after power losses, the next power loss
    loses none of its events and none of its delivery marks: when no call fails, it
    reopens exactly as it was. An operation that failed may void this, and a bare
    file name does not have it ([JsonlFaults]). *)
Theorem event_store_survives path fs0 st0 fs1 s fs :
  paths_ok path → fs_wf fs0 → fs_dir fs0 !! path = None → fs_dir fs0 !! delivered_path path = None →
  fes_open path fs0 = (Ok st0, fs1) → rtc fes_lifecycle (st0, fs1) s → crash s.2 fs → no_faults fs →
  fes_open (js_path (fes_inner s.1)) fs = (Ok s.1, fs).
Proof.
  intros Hp Hwf Hn Hdn Ho Hl Hcr Hnf.
  destruct (fes_open_new _ _ _ _ Hp Hwf Hn Hdn Ho) as [_ Hok].
  by apply fes_restart; [eapply fes_lifecycle_ok|..].
Qed.
End interrupted.
