(* ===== verification/Sharing.v ===== *)
(** * Several processes on one store

    The command line opens the store of a running server when it is told to, and a
    server can be started twice: the advisory lock of [open_locked_append]
    ([crates/triggerlane-storage/src/lib.rs], 716-732) is what keeps them apart.
    Here [JsonlStore::open], [append], [drain] and [retain] are cut at the calls by
    which processes see each other: reading the file, opening it, locking it, and,
    in [compact_jsonl], renaming over it, opening and locking what is there then.

    A file is the list of records it holds ([JsonlSpec] shows that reading gives
    back what was written); calls that fail, power loss and the order in which
    bytes reach the disk are the subject of [Durability]. The sibling file of a
    compaction is written in one step. *)

From stdpp Require Import base gmap list relations.
From Stdlib Require Import ZArith Lia.
From S2P Require Import Prelude.

Section sharing.
Context {T : Type} `{!EqDecision T}.
Abbreviation inode := nat.
Abbreviation pid := nat.

(** The inode the store's path names, the inode of its [.compact] sibling, what
    files hold, and which process has locked which inode. *)
Record Disk := mkDisk {
  dk_path : option inode;
  dk_sibling : option inode;
  dk_content : gmap inode (list T);
  dk_locks : gmap inode pid;
  dk_next : inode;
}.

Definition file_content (d : Disk) (i : inode) : list T := default [] (dk_content d !! i).

(** What a process that opened the path now would read. *)
Definition path_content (d : Disk) : list T :=
  match dk_path d with Some i => file_content d i | None => [] end.

(** Where a process stands in [JsonlStore]: the call it makes next. [Ready] is an
    open store, its memory and its handle; the states after it are in
    [compact_jsonl]. *)
Inductive Proc :=
| Closed
| Reading
| Opening (records : list T)
| Locking (records : list T) (file : inode)
| Ready (records : list T) (file : inode)
| Renaming (records : list T) (file : inode) (kept : list T)
| Reopening (records : list T) (file : inode) (kept : list T)
| Relocking (records : list T) (file : inode) (kept : list T) (renamed : inode).

(** The handle on which a process holds the lock. *)
Definition handle_of (p : Proc) : option inode :=
  match p with
  | Ready _ f | Renaming _ f _ | Reopening _ f _ | Relocking _ f _ _ => Some f
  | _ => None
  end.

Definition memory_of (p : Proc) : list T :=
  match p with
  | Ready r _ | Renaming r _ _ | Reopening r _ _ | Relocking r _ _ _ => r
  | _ => []
  end.

Definition set_content (i : inode) (l : list T) (d : Disk) : Disk :=
  mkDisk (dk_path d) (dk_sibling d) (<[i := l]> (dk_content d)) (dk_locks d) (dk_next d).
Definition set_locks (l : gmap inode pid) (d : Disk) : Disk :=
  mkDisk (dk_path d) (dk_sibling d) (dk_content d) l (dk_next d).

(** *** [JsonlStore::open] *)

(** [read_jsonl]: before the lock is taken. *)
Definition read_call (d : Disk) : Disk * Proc := (d, Opening (path_content d)).

(** [OpenOptions::new().create(true).append(true).open(path)]. *)
Definition open_path (d : Disk) : Disk * inode :=
  match dk_path d with
  | Some i => (d, i)
  | None =>
    (mkDisk (Some (dk_next d)) (dk_sibling d) (<[dk_next d := []]> (dk_content d)) (dk_locks d) (S (dk_next d)), dk_next d)
  end.

Definition open_call (records : list T) (d : Disk) : Disk * Proc :=
  let '(d', file) := open_path d in (d', Locking records file).

(** [file.try_lock_exclusive()]: fails fast. *)
Definition try_lock (p : pid) (file : inode) (d : Disk) : option Disk :=
  match dk_locks d !! file with
  | None => Some (set_locks (<[file := p]> (dk_locks d)) d)
  | Some _ => None
  end.

Definition lock_call (p : pid) (records : list T) (file : inode) (d : Disk) : Disk * Proc :=
  match try_lock p file d with
  | Some d' => (d', Ready records file)
  | None => (d, Closed)
  end.

(** *** [append], [drain] and [retain] on an open store *)

Definition append_call (record : T) (records : list T) (file : inode) (d : Disk) : Disk * Proc :=
  (set_content file (file_content d file ++ [record]) d, Ready (records ++ [record]) file).

Definition drain_call (file : inode) (d : Disk) : Disk * Proc := (set_content file [] d, Ready [] file).

(** [compact_jsonl] up to the rename: the sibling is truncated or created, written
    and synced. *)
Definition compact_call (kept records : list T) (file : inode) (d : Disk) : Disk * Proc :=
  match dk_sibling d with
  | Some i => (set_content i kept d, Renaming records file kept)
  | None =>
    (mkDisk (dk_path d) (Some (dk_next d)) (<[dk_next d := kept]> (dk_content d)) (dk_locks d) (S (dk_next d)),
     Renaming records file kept)
  end.

(** [std::fs::rename(&tmp, path)]. *)
Definition rename_call (records : list T) (file : inode) (kept : list T) (d : Disk) : Disk * Proc :=
  match dk_sibling d with
  | Some i => (mkDisk (Some i) None (dk_content d) (dk_locks d) (dk_next d), Reopening records file kept)
  | None => (d, Ready records file)
  end.

(** [open_locked_append(path)]. When the lock is taken the old handle is dropped, and
    its lock with it; when it is not, the store keeps its old handle and memory. *)
Definition reopen_call (records : list T) (file : inode) (kept : list T) (d : Disk) : Disk * Proc :=
  let '(d', renamed) := open_path d in (d', Relocking records file kept renamed).

Definition relock_call (p : pid) (records : list T) (file : inode) (kept : list T) (renamed : inode) (d : Disk)
    : Disk * Proc :=
  match try_lock p renamed d with
  | Some d' => (set_locks (delete file (dk_locks d')) d', Ready kept renamed)
  | None => (d, Ready records file)
  end.

(** The process ends, or the store is dropped: its handle is closed. *)
Definition close_call (p : Proc) (d : Disk) : Disk * Proc :=
  match handle_of p with
  | Some file => (set_locks (delete file (dk_locks d)) d, Closed)
  | None => (d, Closed)
  end.

(** The next call of a process that is not waiting for a command. *)
Definition next_call (p : pid) (proc : Proc) (d : Disk) : Disk * Proc :=
  match proc with
  | Reading => read_call d
  | Opening records => open_call records d
  | Locking records file => lock_call p records file d
  | Renaming records file kept => rename_call records file kept d
  | Reopening records file kept => reopen_call records file kept d
  | Relocking records file kept renamed => relock_call p records file kept renamed d
  | Closed => (d, Closed)
  | Ready records file => (d, Ready records file)
  end.

(** The disk, the processes, and history: the records whose append was acknowledged
    and that no compaction or drain has been asked to drop since. *)
Record Host := mkHost {
  ho_disk : Disk;
  ho_procs : list Proc;
  ho_owed : list T;
}.

(** [append_only]: whether the processes only append. *)
Inductive host_step (append_only : bool) : Host → Host → Prop :=
| host_spawn d ps owed : host_step append_only (mkHost d ps owed) (mkHost d (ps ++ [Reading]) owed)
| host_call d ps owed p proc d' proc' :
    ps !! p = Some proc → next_call p proc d = (d', proc') →
    host_step append_only (mkHost d ps owed) (mkHost d' (<[p := proc']> ps) owed)
| host_append d ps owed p records file record d' proc' :
    ps !! p = Some (Ready records file) → append_call record records file d = (d', proc') →
    host_step append_only (mkHost d ps owed) (mkHost d' (<[p := proc']> ps) (owed ++ [record]))
| host_drain d ps owed p records file d' proc' :
    append_only = false → ps !! p = Some (Ready records file) → drain_call file d = (d', proc') →
    host_step append_only (mkHost d ps owed)
      (mkHost d' (<[p := proc']> ps) (filter (λ r, r ∉ records) owed))
| host_compact d ps owed p records file kept d' proc' :
    append_only = false → ps !! p = Some (Ready records file) → kept `sublist_of` records →
    (length kept < length records)%nat → compact_call kept records file d = (d', proc') →
    host_step append_only (mkHost d ps owed)
      (mkHost d' (<[p := proc']> ps) (filter (λ r, r ∉ records ∨ r ∈ kept) owed))
| host_close d ps owed p proc d' proc' :
    ps !! p = Some proc → close_call proc d = (d', proc') →
    host_step append_only (mkHost d ps owed) (mkHost d' (<[p := proc']> ps) owed).

(** No file yet, no process. *)
Definition host0 : Host := mkHost (mkDisk None None ∅ ∅ 0) [] [].

(** ** One writer per file *)

(** The locks are held by the processes whose handles they are on. *)
Definition locks_ok (h : Host) : Prop :=
  ∀ f p, dk_locks (ho_disk h) !! f = Some p ↔ ∃ proc, ho_procs h !! p = Some proc ∧ handle_of proc = Some f.

Lemma locks_ok_update d d' ps owed owed' p proc proc' :
  locks_ok (mkHost d ps owed) → ps !! p = Some proc →
  (∀ f q, q ≠ p → dk_locks d' !! f = Some q ↔ dk_locks d !! f = Some q) →
  (∀ f, dk_locks d' !! f = Some p ↔ handle_of proc' = Some f) →
  locks_ok (mkHost d' (<[p := proc']> ps) owed').
Proof.
  intros Hok Hp Hother Hmine f q. simpl. destruct (decide (q = p)) as [->|Hne].
  - rewrite Hmine. rewrite list_lookup_insert_eq by (by eapply lookup_lt_Some). naive_solver.
  - rewrite Hother by done. rewrite list_lookup_insert_ne by done. apply (Hok f q).
Qed.

(** A call that takes and releases no lock. *)
Lemma locks_ok_same d d' ps owed owed' p proc proc' :
  locks_ok (mkHost d ps owed) → ps !! p = Some proc → dk_locks d' = dk_locks d →
  handle_of proc' = handle_of proc → locks_ok (mkHost d' (<[p := proc']> ps) owed').
Proof.
  intros Hok Hp Hl Hh. eapply locks_ok_update; [done|done|by rewrite Hl|]. intros f. rewrite Hl, Hh.
  rewrite (Hok f p). simpl. naive_solver.
Qed.

Lemma open_path_locks d d' i : open_path d = (d', i) → dk_locks d' = dk_locks d.
Proof. unfold open_path. destruct (dk_path d); by intros [= <- <-]. Qed.

(** The process's own handle is locked by it, and no other handle is. *)
Lemma locks_own d ps owed p proc f :
  locks_ok (mkHost d ps owed) → ps !! p = Some proc → dk_locks d !! f = Some p ↔ handle_of proc = Some f.
Proof. intros Hok Hp. rewrite (Hok f p). simpl. naive_solver. Qed.

Lemma try_lock_Some p file d d' :
  try_lock p file d = Some d' → dk_locks d !! file = None ∧ d' = set_locks (<[file := p]> (dk_locks d)) d.
Proof. unfold try_lock. destruct (dk_locks d !! file) eqn:Hl; [done|]. by intros [= <-]. Qed.

Lemma locks_ok_close d ps owed owed' p proc d' proc' :
  locks_ok (mkHost d ps owed) → ps !! p = Some proc → close_call proc d = (d', proc') →
  locks_ok (mkHost d' (<[p := proc']> ps) owed').
Proof.
  intros Hok Hp. unfold close_call. destruct (handle_of proc) as [file|] eqn:Hh; intros [= <- <-].
  2: { by eapply locks_ok_same; [exact Hok|exact Hp|done|]. }
  pose proof (proj2 (locks_own _ _ _ _ _ file Hok Hp) Hh) as Hf.
  eapply locks_ok_update; [exact Hok|exact Hp| |]; simpl.
  - intros f q Hq. rewrite lookup_delete_Some. split; [tauto|]. intros Hl. split; [|done]. intros ->. congruence.
  - intros f. rewrite lookup_delete_Some, (locks_own _ _ _ _ _ f Hok Hp), Hh. naive_solver.
Qed.

Lemma locks_ok_next d ps owed p proc d' proc' :
  locks_ok (mkHost d ps owed) → ps !! p = Some proc → next_call p proc d = (d', proc') →
  locks_ok (mkHost d' (<[p := proc']> ps) owed).
Proof.
  intros Hok Hp Hc. destruct proc as [| |r|r f|r f|r f k|r f k|r f k n]; simpl in Hc.
  - simplify_eq. by eapply locks_ok_same.
  - unfold read_call in Hc. simplify_eq. by eapply locks_ok_same.
  - unfold open_call in Hc. destruct (open_path d) as [d1 i] eqn:Ho. simplify_eq. apply open_path_locks in Ho.
    by eapply locks_ok_same.
  - unfold lock_call in Hc. destruct (try_lock p f d) as [d1|] eqn:Hl; simplify_eq; [|by eapply locks_ok_same].
    apply try_lock_Some in Hl as [Hfree ->]. eapply locks_ok_update; [exact Hok|exact Hp| |]; simpl.
    + intros g q Hq. rewrite lookup_insert_Some. naive_solver.
    + intros g. rewrite lookup_insert_Some, (locks_own _ _ _ _ _ g Hok Hp). simpl. naive_solver.
  - simplify_eq. by eapply locks_ok_same.
  - unfold rename_call in Hc. destruct (dk_sibling d); simplify_eq; by eapply locks_ok_same.
  - unfold reopen_call in Hc. destruct (open_path d) as [d1 i] eqn:Ho. simplify_eq. apply open_path_locks in Ho.
    by eapply locks_ok_same.
  - unfold relock_call in Hc. destruct (try_lock p n d) as [d1|] eqn:Hl; simplify_eq; [|by eapply locks_ok_same].
    apply try_lock_Some in Hl as [Hfree ->].
    pose proof (proj2 (locks_own _ _ _ _ _ f Hok Hp) eq_refl) as Hf.
    eapply locks_ok_update; [exact Hok|exact Hp| |]; simpl.
    + intros g q Hq. rewrite lookup_delete_Some, lookup_insert_Some. split; [naive_solver|]. intros Hg.
      split; [congruence|]. right. split; [congruence|done].
    + intros g. rewrite lookup_delete_Some, lookup_insert_Some, (locks_own _ _ _ _ _ g Hok Hp). simpl. naive_solver.
Qed.

Lemma host_step_locks ao h h' : locks_ok h → host_step ao h h' → locks_ok h'.
Proof.
  intros Hok Hs. revert Hok.
  destruct Hs as [d ps owed|d ps owed p proc d' proc' Hp Hc|d ps owed p r f x d' proc' Hp Hc|d ps owed p r f d' proc' _ Hp Hc
    |d ps owed p r f k d' proc' _ Hp _ _ Hc|d ps owed p proc d' proc' Hp Hc]; intros Hok.
  - intros f p. rewrite (Hok f p). simpl. setoid_rewrite lookup_app_Some. split.
    + intros (proc & Hl & Hh). exists proc. auto.
    + intros (proc & [Hl|[_ Hl]] & Hh); [by exists proc|]. by apply list_lookup_singleton_Some in Hl as [_ <-].
  - by eapply locks_ok_next.
  - unfold append_call in Hc. simplify_eq. by eapply locks_ok_same.
  - unfold drain_call in Hc. simplify_eq. by eapply locks_ok_same.
  - unfold compact_call in Hc. destruct (dk_sibling d); simplify_eq; by eapply locks_ok_same.
  - by eapply locks_ok_close.
Qed.

Lemma reachable_locks ao h : rtc (host_step ao) host0 h → locks_ok h.
Proof.
  apply (rtc_ind_r locks_ok); [|by intros; eapply host_step_locks].
  intros f p. simpl. split; [done|]. by intros (? & ? & _).
Qed.
(** C36: the lock keeps two processes from writing one file: whatever processes open,
    append, drain, compact, fail to lock and end, in any order, no two of them have
    an open store on the same file, and the one that has holds its lock. *)
Theorem one_writer_per_file append_only h p q proc proc' f :
  rtc (host_step append_only) host0 h → ho_procs h !! p = Some proc → ho_procs h !! q = Some proc' →
  handle_of proc = Some f → handle_of proc' = Some f → p = q ∧ dk_locks (ho_disk h) !! f = Some p.
Proof.
  intros Hr Hp Hq Hf Hf'. pose proof (reachable_locks _ _ Hr) as Hok.
  assert (dk_locks (ho_disk h) !! f = Some p) as Hlp by (apply Hok; by exists proc).
  assert (dk_locks (ho_disk h) !! f = Some q) as Hlq by (apply Hok; by exists proc').
  split; congruence.
Qed.

(** ** Processes that only append *)

(** The file a process works on, open or about to be. *)
Definition appends_to (d : Disk) (proc : Proc) : Prop :=
  match proc with
  | Closed | Reading => True
  | Opening records => records `sublist_of` path_content d
  | Locking records file | Ready records file => dk_path d = Some file ∧ records `sublist_of` path_content d
  | Renaming _ _ _ | Reopening _ _ _ | Relocking _ _ _ _ => False
  end.

Record appending (h : Host) : Prop := mk_appending {
  ap_procs proc : proc ∈ ho_procs h → appends_to (ho_disk h) proc;
  ap_owed : ho_owed h = path_content (ho_disk h);
  ap_next i : dk_path (ho_disk h) = Some i → (i < dk_next (ho_disk h))%nat;
}.

(** The store of the path grows. *)
Lemma appends_to_mono d d' proc :
  (∀ i, dk_path d = Some i → dk_path d' = Some i) → path_content d `sublist_of` path_content d' →
  appends_to d proc → appends_to d' proc.
Proof.
  intros Hp Hc. destruct proc; simpl; try done; [by intros; etrans|..]; intros [Hf Hr];
    (split; [by apply Hp|by etrans]).
Qed.

Lemma appending_update d d' ps owed owed' p proc' :
  appending (mkHost d ps owed) → (∀ i, dk_path d = Some i → dk_path d' = Some i) →
  path_content d `sublist_of` path_content d' → owed' = path_content d' →
  (∀ i, dk_path d' = Some i → (i < dk_next d')%nat) → appends_to d' proc' →
  appending (mkHost d' (<[p := proc']> ps) owed').
Proof.
  intros [Hps _ _] Hp Hc Ho Hn Hproc. constructor; simpl; [|done..].
  intros proc [j Hj]%list_elem_of_lookup. apply list_lookup_insert_Some in Hj as [(_ & <- & _)|[_ Hj]]; [done|].
  eapply appends_to_mono; [done..|]. apply Hps. by eapply list_elem_of_lookup_2.
Qed.

Lemma open_path_content d d' i :
  (∀ i, dk_path d = Some i → (i < dk_next d)%nat) → open_path d = (d', i) →
  path_content d' = path_content d ∧ dk_path d' = Some i ∧ (i < dk_next d')%nat ∧
  ∀ j, dk_path d = Some j → dk_path d' = Some j.
Proof.
  intros Hn. unfold open_path. destruct (dk_path d) as [j|] eqn:Hp; intros [= <- <-].
  - rewrite Hp. auto.
  - unfold path_content, file_content. simpl. rewrite Hp, lookup_insert_eq. simpl. split_and!; [done|done|lia|done].
Qed.

Lemma host_step_appending h h' : appending h → host_step true h h' → appending h'.
Proof.
  intros Hap Hs. revert Hap.
  destruct Hs as [d ps owed|d ps owed p proc d' proc' Hp Hc|d ps owed p r f x d' proc' Hp Hc|d ps owed p r f d' proc' ? Hp Hc
    |d ps owed p r f k d' proc' ? Hp _ _ Hc|d ps owed p proc d' proc' Hp Hc]; intros Hap; try done.
  - destruct Hap as [Hps Ho Hn]. constructor; simpl; [|done..].
    intros proc [?| ->%list_elem_of_singleton]%elem_of_app; [auto|done].
  - pose proof (ap_procs _ Hap proc) as Hproc. simpl in Hproc.
    specialize (Hproc ltac:(by eapply list_elem_of_lookup_2)). pose proof (ap_owed _ Hap) as Ho. simpl in Ho.
    pose proof (ap_next _ Hap) as Hn. simpl in Hn.
    destruct proc as [| |r|r f|r f|r f k|r f k|r f k n]; simpl in *; try done.
    + simplify_eq. by eapply appending_update.
    + unfold read_call in Hc. simplify_eq. eapply appending_update; try done. simpl. done.
    + unfold open_call in Hc. destruct (open_path d) as [d1 i] eqn:Hopen. simplify_eq.
      destruct (open_path_content _ _ _ Hn Hopen) as (Hpc & Hi & Hlt & Hj).
      eapply appending_update; [exact Hap|done|by rewrite Hpc|by rewrite Hpc| |].
      * intros j. rewrite Hi. by intros [= <-].
      * simpl. by rewrite Hpc.
    + unfold lock_call in Hc. destruct (try_lock p f d) as [d1|] eqn:Hl; simplify_eq; [|by eapply appending_update].
      apply try_lock_Some in Hl as [_ ->]. by eapply appending_update.
    + simplify_eq. by eapply appending_update.
  - pose proof (ap_procs _ Hap (Ready r f)) as Hproc. simpl in Hproc.
    specialize (Hproc ltac:(by eapply list_elem_of_lookup_2)). destruct Hproc as [Hf Hr].
    pose proof (ap_owed _ Hap) as Ho. simpl in Ho. pose proof (ap_next _ Hap) as Hn. simpl in Hn.
    unfold append_call in Hc. simplify_eq.
    assert (path_content (set_content f (file_content d f ++ [x]) d) = path_content d ++ [x]) as Hpc.
    { unfold path_content, file_content. simpl. by rewrite Hf, lookup_insert_eq. }
    eapply appending_update; [exact Hap|done| |by rewrite Hpc|done|].
    + rewrite Hpc. by apply sublist_inserts_r.
    + simpl. split; [done|]. rewrite Hpc. by apply sublist_app.
  - pose proof (ap_owed _ Hap) as Ho. simpl in Ho. pose proof (ap_next _ Hap) as Hn. simpl in Hn.
    unfold close_call in Hc. destruct (handle_of proc); simplify_eq; by eapply appending_update.
Qed.

Lemma reachable_appending h : rtc (host_step true) host0 h → appending h.
Proof.
  apply (rtc_ind_r appending); [|by intros; eapply host_step_appending].
  constructor; simpl; [by intros ? ?%not_elem_of_nil|done|done].
Qed.

(** C15: processes that only append share a store safely, however they interleave:
    at most one of them has it open, it has it open under the store's name, its
    memory is part of what the file holds, and the file holds exactly the records
    whose append was acknowledged, in order. *)
Theorem append_only_sharing h :
  rtc (host_step true) host0 h →
  path_content (ho_disk h) = ho_owed h ∧
  ∀ p proc f, ho_procs h !! p = Some proc → handle_of proc = Some f →
    dk_path (ho_disk h) = Some f ∧ memory_of proc `sublist_of` ho_owed h ∧
    ∀ q proc', ho_procs h !! q = Some proc' → is_Some (handle_of proc') → q = p.
Proof.
  intros Hr. destruct (reachable_appending _ Hr) as [Hps Ho _]. split; [done|]. intros p proc f Hp Hf.
  assert (∀ p proc f, ho_procs h !! p = Some proc → handle_of proc = Some f →
    dk_path (ho_disk h) = Some f ∧ memory_of proc `sublist_of` ho_owed h) as Hopen.
  { clear p proc f Hp Hf. intros p proc f Hp Hf. rewrite Ho. pose proof (Hps proc ltac:(by eapply list_elem_of_lookup_2)) as Hproc.
    destruct proc; simplify_eq/=; done. }
  destruct (Hopen _ _ _ Hp Hf) as [Hpath Hmem]. split; [done|]. split; [done|]. intros q proc' Hq [g Hg].
  destruct (Hopen _ _ _ Hq Hg) as [Hpath' _]. assert (g = f) as -> by congruence.
  pose proof (reachable_locks _ _ Hr) as Hok.
  assert (dk_locks (ho_disk h) !! f = Some p) as Hlp by (apply Hok; by exists proc).
  assert (dk_locks (ho_disk h) !! f = Some q) as Hlq by (apply Hok; by exists proc').
  congruence.
Qed.

(** ** The races of opening and compacting *)

(** A record is owed and a process that opens the store now does not find it. *)
Definition lost (r : T) (h : Host) : Prop := r ∈ ho_owed h ∧ r ∉ path_content (ho_disk h).

(** Both processes have the store open. *)
Definition both_open (h : Host) : Prop :=
  ∃ r1 f1 r2 f2, ho_procs h = [Ready r1 f1; Ready r2 f2].

Ltac call p := eapply rtc_l; [eapply (host_call _ _ _ _ p); reflexivity|].
Ltac spawn := eapply rtc_l; [apply host_spawn|].
Ltac append_by p r := eapply rtc_l; [eapply (host_append _ _ _ _ p _ _ r); reflexivity|].
Ltac compact_by p kept :=
  eapply rtc_l; [eapply (host_compact _ _ _ _ p _ _ kept); [reflexivity|reflexivity|apply sublist_nil_l|vm_compute; lia|reflexivity]|].
Ltac close_by p := eapply rtc_l; [eapply (host_close _ _ _ _ p); reflexivity|].

(** C37: the lock is taken too late. (1) The records are read before the lock is
    taken: a process that reads, waits until the writer has appended and ended, and
    then locks, works on memory without that record, and its first compaction erases
    it. (2) The file is opened before it is locked: when the writer compacts in
    between, the process locks the file that was renamed away, both have the store
    open, and what it appends is acknowledged and lost. (3) After the rename of a
    compaction the new file is not locked yet: another process that opens it then
    takes the lock, and the writer goes on in the file that was renamed away. *)
Theorem lock_races r1 r2 :
  r1 ≠ r2 →
  (∃ h, rtc (host_step false) host0 h ∧ lost r1 h ∧ ho_procs h = [Closed; Ready [] 1]) ∧
  (∃ h, rtc (host_step false) host0 h ∧ both_open h ∧ lost r2 h) ∧
  (∃ h, rtc (host_step false) host0 h ∧ both_open h ∧ lost r2 h).
Proof.
  intros Hne. split; [|split].
  - eexists. split; [|split].
    + spawn. call 0. call 0. call 0. spawn. call 1. append_by 0 r1. close_by 0. call 1. call 1.
      append_by 1 r2. compact_by 1 (@nil T). call 1. call 1. call 1. apply rtc_refl.
    + split; [|by vm_compute; intros ?%not_elem_of_nil]. simpl. apply list_elem_of_filter. set_solver.
    + reflexivity.
  - eexists. split; [|split].
    + spawn. call 0. call 0. call 0. append_by 0 r1. spawn. call 1. call 1. compact_by 0 (@nil T). call 0. call 0. call 0.
      call 1. append_by 1 r2. apply rtc_refl.
    + do 4 eexists. reflexivity.
    + split; [|by vm_compute; intros ?%not_elem_of_nil]. simpl. set_solver.
  - eexists. split; [|split].
    + spawn. call 0. call 0. call 0. append_by 0 r1. compact_by 0 (@nil T). call 0. spawn. call 1. call 1. call 1.
      call 0. call 0. append_by 0 r2. apply rtc_refl.
    + do 4 eexists. reflexivity.
    + split; [|by vm_compute; intros ?%not_elem_of_nil]. simpl. set_solver.
Qed.
End sharing.
Arguments Disk : clear implicits.
Arguments Proc : clear implicits.
Arguments Host : clear implicits.
