(* ===== verification/SharingRuns.v ===== *)
(** * Sample processes on one store

    Three processes that only append, and the theorems of [Sharing] applied to what
    they reach. *)

From stdpp Require Import base gmap list relations.
From Stdlib Require Import ZArith Lia.
From S2P Require Import Prelude Sharing.

(** Records are numbers. *)
Abbreviation H := (Host nat).

Inductive Turn :=
| TurnSpawn
| TurnCall (p : nat)
| TurnAppend (p : nat) (record : nat)
| TurnClose (p : nat).

Definition turn (t : Turn) (h : H) : option H :=
  let '(mkHost d ps owed) := h in
  match t with
  | TurnSpawn => Some (mkHost d (ps ++ [Reading]) owed)
  | TurnCall p =>
    proc ← ps !! p;
    let '(d', proc') := next_call p proc d in Some (mkHost d' (<[p := proc']> ps) owed)
  | TurnAppend p record =>
    match ps !! p with
    | Some (Ready records file) =>
      let '(d', proc') := append_call record records file d in Some (mkHost d' (<[p := proc']> ps) (owed ++ [record]))
    | _ => None
    end
  | TurnClose p =>
    proc ← ps !! p;
    let '(d', proc') := close_call proc d in Some (mkHost d' (<[p := proc']> ps) owed)
  end.

Lemma turn_step t h h' : turn t h = Some h' → host_step true h h'.
Proof.
  destruct h as [d ps owed]. destruct t as [|p|p record|p]; simpl; intros Ht.
  - simplify_eq. constructor.
  - destruct (ps !! p) as [proc|] eqn:Hp; [|done]. simpl in Ht. destruct (next_call p proc d) eqn:Hc. simplify_eq.
    by eapply host_call.
  - destruct (ps !! p) as [[| |r|r f|r f|r f k|r f k|r f k n]|] eqn:Hp; try done.
    destruct (append_call record r f d) eqn:Hc. simplify_eq. by eapply host_append.
  - destruct (ps !! p) as [proc|] eqn:Hp; [|done]. simpl in Ht. destruct (close_call proc d) eqn:Hc. simplify_eq.
    by eapply host_close.
Qed.

Fixpoint turns (l : list Turn) (h : H) : option H :=
  match l with
  | [] => Some h
  | t :: l => h ← turn t h; turns l h
  end.

Lemma turns_run l h h' : turns l h = Some h' → rtc (host_step true) h h'.
Proof.
  revert h. induction l as [|t l IH]; intros h Ht; simpl in Ht; [by simplify_eq|].
  destruct (turn t h) as [h1|] eqn:Hs; [|done]. eapply rtc_l; [by eapply turn_step|by apply IH].
Qed.

(** The second process is refused while the first has the store; the third reads too
    early and works on what it read. *)
Definition schedule : list Turn :=
  [TurnSpawn; TurnCall 0; TurnCall 0; TurnCall 0; TurnAppend 0 7; TurnSpawn; TurnCall 1; TurnCall 1; TurnCall 1;
   TurnSpawn; TurnCall 2; TurnAppend 0 8; TurnClose 0; TurnCall 2; TurnCall 2; TurnAppend 2 9].

Definition shared : H := default host0 (turns schedule host0).

Lemma shared_run : rtc (host_step true) host0 shared.
Proof. by apply (turns_run schedule). Qed.

Example shared_state :
  ho_procs shared = [Closed; Closed; Ready [7; 9]%nat 0] ∧ path_content (ho_disk shared) = [7; 8; 9]%nat.
Proof. by vm_compute. Qed.

Lemma one_writer_per_file_witness : 2%nat = 2%nat ∧ dk_locks (ho_disk shared) !! 0%nat = Some 2%nat.
Proof.
  apply (one_writer_per_file true shared 2 2 (Ready [7; 9]%nat 0) (Ready [7; 9]%nat 0) 0); try by vm_compute.
  exact shared_run.
Defined.

Lemma append_only_sharing_witness :
  path_content (ho_disk shared) = ho_owed shared ∧
  ∀ p proc f, ho_procs shared !! p = Some proc → handle_of proc = Some f →
    dk_path (ho_disk shared) = Some f ∧ memory_of proc `sublist_of` ho_owed shared ∧
    ∀ q proc', ho_procs shared !! q = Some proc' → is_Some (handle_of proc') → q = p.
Proof. apply (append_only_sharing shared). exact shared_run. Defined.

Lemma lock_races_witness :
  (∃ h : H, rtc (host_step false) host0 h ∧ lost 7%nat h ∧ ho_procs h = [Closed; Ready [] 1]) ∧
  (∃ h : H, rtc (host_step false) host0 h ∧ both_open h ∧ lost 8%nat h) ∧
  (∃ h : H, rtc (host_step false) host0 h ∧ both_open h ∧ lost 8%nat h).
Proof. apply (lock_races 7%nat 8%nat). done. Defined.
