(* ===== verification/Samples.v ===== *)
(** * Sample environment

    Concrete instances of the parameters of the model, at which the theorems
    are run on concrete inputs: a JSON codec for any countable type (a string
    literal of binary digits), a text form of ids, and the store at a path of an
    empty file system. *)

From stdpp Require Import base gmap strings list countable.
From Stdlib Require Import ZArith Lia.
From S2P Require Import Prelude RustStd Event Retention Store FileSystem Jsonl JsonlSpec FileStore.

(** ** Binary digits *)

Definition quote : byte := Byte.x22.

Fixpoint digits (p : positive) : bytes :=
  match p with
  | xH => [quote]
  | xO p => Byte.x30 :: digits p
  | xI p => Byte.x31 :: digits p
  end.

Fixpoint read_digits (b : bytes) : option positive :=
  match b with
  | [] => None
  | x :: b =>
    if decide (x = quote) then (if decide (b = []) then Some xH else None)
    else if decide (x = Byte.x30) then xO <$> read_digits b
    else if decide (x = Byte.x31) then xI <$> read_digits b
    else None
  end.

Lemma read_digits_digits p : read_digits (digits p) = Some p.
Proof. induction p as [p IH|p IH|]; simpl; by rewrite ?IH. Qed.

Lemma read_digits_prefix p b : b `prefix_of` digits p → b ≠ digits p → read_digits b = None.
Proof.
  revert b. induction p as [p IH|p IH|]; intros b Hb Hne; (destruct b as [|x b]; [done|]); simpl in *.
  1,2: pose proof (prefix_cons_inv_1 _ _ _ _ Hb) as ->; apply prefix_cons_inv_2 in Hb;
       simpl; rewrite IH; [done|done|congruence].
  pose proof (prefix_cons_inv_1 _ _ _ _ Hb) as ->. apply prefix_cons_inv_2, prefix_nil_inv in Hb as ->. done.
Qed.

Lemma digits_ascii p : Forall (λ x, (33 <= u8 x < 127)%Z) (digits p).
Proof. induction p; simpl; constructor; try done; vm_compute; by split. Qed.

(** ** A JSON codec *)

#[export] Instance sample_Serialize `{Countable T} : Serialize T := λ r, Ok (quote :: digits (encode r)).
#[export] Instance sample_Deserialize `{Countable T} : Deserialize T := λ b,
  match b with
  | x :: b =>
    if decide (x = quote) then
      match read_digits b ≫= decode with Some r => Ok r | None => Err "malformed string" end
    else Err "expected a string"
  | [] => Err "end of file"
  end.

#[export] Instance sample_JsonCodec `{Countable T} : JsonCodec T.
Proof.
  assert (∀ p, Forall (λ x, (33 <= u8 x < 127)%Z) (quote :: digits p)) as Ha.
  { intros p. constructor; [by vm_compute|apply digits_ascii]. }
  constructor; unfold to_vec, sample_Serialize.
  - intros r b [= <-]. unfold from_str, sample_Deserialize. rewrite decide_True by done.
    rewrite read_digits_digits. simpl. by rewrite decode_encode.
  - intros r b [= <-]. eapply Forall_impl; [|apply Ha]. simpl. lia.
  - intros r b [= <-]. unfold is_utf8. rewrite utf8_decode_ascii; [done|].
    eapply Forall_impl; [|apply Ha]. simpl. lia.
  - intros r b [= <-]. eexists _, _. split; [done|]. by vm_compute.
  - intros r b p [= <-] Hp Hne. destruct p as [|x p]; [by eexists|].
    pose proof (prefix_cons_inv_1 _ _ _ _ Hp) as ->. apply prefix_cons_inv_2 in Hp.
    unfold from_str, sample_Deserialize. rewrite decide_True by done.
    rewrite (read_digits_prefix _ _ Hp) by congruence. by eexists.
Qed.

(** ** Ids *)

#[export] Instance sample_UuidText : UuidText := {
  uuid_to_string u := of_bytes (digits (encode u));
  uuid_parse_str s :=
    match read_digits (as_bytes s) ≫= decode with Some u => Ok u | None => Err "invalid id" end;
}.

#[export] Instance sample_UuidTextLaws : UuidTextLaws.
Proof.
  intros u. unfold uuid_parse_str, uuid_to_string, sample_UuidText. unfold as_bytes, of_bytes.
  rewrite String.list_byte_of_string_of_list_byte, read_digits_digits. simpl. by rewrite decode_encode.
Qed.

#[export] Instance sample_HashSetIter : HashSetIter := {
  iter := elements;
  iter_perm X := reflexivity (elements X);
}.

(** ** Sample events *)

Definition sample_event (n : N) (key : option string) (at_ : DateTime) : EventEnvelope :=
  {| ev_id := mkEventId n; ev_source := Http; ev_type := mkEventType EVENT_GITHUB_ISSUE_CREATED;
     ev_payload := []; ev_timestamp := at_; ev_metadata := mkEventMetadata None None None key None |}.

Definition sample_path : string := "/var/triggerlane/events.jsonl".

(** The store that [open] creates on an empty file system. *)
Definition sample_store (T : Type) `{Serialize T} `{Deserialize T} : JsonlStore T * FS :=
  match jsonl_open sample_path fs_empty with
  | (Ok st, fs) => (st, fs)
  | (Err _, fs) => (mkJsonlStore sample_path [] 0, fs)
  end.
