(* ===== verification/JsonlFaults.v ===== *)
(** * What a failure leaves behind

    Runs of the JSONL store in which a system call fails or the power is lost
    and the store then does something other than its comments and the
    specification of the event store say: an append after a torn tail, a
    compaction that fails after its rename, a store whose path has no directory,
    a drain whose sync fails, a tail torn inside a character. *)

From stdpp Require Import base gmap strings list.
From Stdlib Require Import ZArith Lia.
From S2P Require Import Prelude RustStd Event Retention Store FileSystem Jsonl JsonlSpec Durability FileDurability Samples.

Section faults.
Context {T : Type} `{JsonCodec T}.
Implicit Types (s : JsonlStore T * FS) (r : T).

(** A complete line that is not a record. *)
Lemma parse_jsonl_bad_line path (rs : list T) bs l e :
  encodes rs bs → is_utf8 l = true → is_blank l = false → newline ∉ l → carriage_return ∉ l →
  from_str (T := T) l = Err e →
  ∃ msg, parse_jsonl (T := T) path (file_of (bs ++ [l])) = Err (mkIoError InvalidData msg).
Proof.
  intros Hrs Hu Hb Hn Hcr He. unfold parse_jsonl.
  assert (is_utf8 (file_of (bs ++ [l])) = true) as ->.
  { rewrite file_of_app. apply is_utf8_app; [by eapply encodes_utf8|].
    unfold file_of. simpl. rewrite app_nil_r. by apply is_utf8_app. }
  simpl. assert (lines (file_of (bs ++ [l])) = bs ++ [l]) as ->.
  { rewrite <-(app_nil_r (file_of _)). unfold file_of. rewrite lines_concat; [by rewrite app_nil_r|].
    apply Forall_app. split; [by eapply encodes_one_line|by repeat constructor]. }
  rewrite imap_pair_nonblank.
  2: { apply Forall_app. split; [by eapply encodes_nonblank|by repeat constructor]. }
  rewrite imap_app. simpl. rewrite (parse_lines_ok _ _ _ _ _ _ _ _ (imap_pair_parses _ _ Hrs)).
  simpl. rewrite He. assert (ends_with_newline (file_of (bs ++ [l])) = true) as ->.
  { unfold ends_with_newline. apply bool_decide_eq_true. rewrite file_of_app.
    unfold file_of at 2, terminated. simpl. by rewrite app_nil_r, app_assoc, last_snoc. }
  rewrite andb_false_r. eauto.
Qed.

(** An append on a file system without failures. *)
Lemma append_no_faults r b s :
  no_faults s.2 → to_vec r = Ok b →
  jsonl_append r s =
  (Ok tt, (mkJsonlStore (js_path s.1) (js_records s.1 ++ [r]) (js_file s.1),
           synced (js_file s.1) (extend (js_file s.1) (terminated b) s.2))).
Proof.
  intros Hnf Hb. unfold jsonl_append, lift, gets, mbind, M_bind. rewrite Hb. simpl.
  rewrite on_fs_run. unfold fs_write_all. rewrite syscall_ok by done. simpl.
  rewrite on_fs_run. unfold fs_sync. rewrite syscall_ok by done. done.
Qed.

(** Opening recovers the complete records of a file with a torn tail but
    leaves the tail in the file. The next append reports success, and after it
    the store no longer opens: the fragment and the new record share a line. *)
Theorem append_after_torn_tail path k (rs : list T) bs r b p r2 b2 e fs :
  no_faults fs → fs_dir fs !! path = Some k → content fs k = file_of bs ++ p →
  encodes rs bs → to_vec r = Ok b → p `prefix_of` b → p ≠ [] → p ≠ b → is_utf8 p = true →
  to_vec r2 = Ok b2 → from_str (T := T) (p ++ b2) = Err e →
  ∃ st s' msg,
    jsonl_open path fs = (Ok st, fs) ∧ js_records st = rs ∧
    jsonl_append r2 (st, fs) = (Ok tt, s') ∧
    jsonl_open (T := T) path s'.2 = (Err (mkIoError InvalidData msg), s'.2).
Proof.
  intros Hnf Hd Hc Hrs Hb Hp Hp0 Hpb Hu Hb2 He.
  assert (parse_jsonl path (content fs k) = Ok rs) as Hparse.
  { rewrite Hc, (parse_jsonl_torn _ _ _ r b p Hrs Hb); [|by apply prefix_app_r|done].
    rewrite decide_False; [done|]. intros Hbp. apply Hpb. by apply (anti_symm prefix). }
  pose proof (open_existing _ _ _ _ Hnf Hd Hparse) as Ho.
  set (st := mkJsonlStore path rs k) in *.
  pose proof (append_no_faults r2 b2 (st, fs) Hnf Hb2) as Ha.
  destruct (to_vec_head _ _ Hb) as (h & t & -> & Hh).
  assert (∃ q, p = h :: q) as [q ->].
  { destruct p as [|x q]; [done|]. apply prefix_cons_inv_1 in Hp as ->. eauto. }
  pose proof (to_vec_printable _ _ Hb) as Hpr1. pose proof (to_vec_printable _ _ Hb2) as Hpr2.
  assert (Forall (λ x, (32 <= u8 x)%Z) ((h :: q) ++ b2)) as Hpr.
  { apply Forall_app. split; [|done]. destruct Hp as [z Hz]. rewrite Hz in Hpr1.
    by apply Forall_app in Hpr1 as [? _]. }
  assert (is_utf8 ((h :: q) ++ b2) = true) as Hu2 by (apply is_utf8_app; [done|by eapply to_vec_utf8]).
  destruct (parse_jsonl_bad_line path rs bs ((h :: q) ++ b2) e Hrs Hu2) as [msg Hbad];
    [by apply is_blank_visible|by apply printable_no_newline..|done|].
  eexists st, _, msg. split; [exact Ho|]. split; [done|]. split; [exact Ha|]. simpl.
  set (fs2 := synced _ _). assert (no_faults fs2) as Hnf2 by done.
  assert (content fs2 k = file_of (bs ++ [(h :: q) ++ b2])) as Hc2.
  { unfold fs2. change (content (extend k (terminated b2) fs) k = file_of (bs ++ [(h :: q) ++ b2])).
    rewrite content_extend, decide_True by done. rewrite Hc, file_of_app. unfold file_of at 3. simpl.
    rewrite app_nil_r, <-app_assoc. unfold terminated. simpl. by rewrite <-app_assoc. }
  apply (open_bad path k); [done|done|]. by rewrite Hc2.
Qed.

(** A tail torn in the middle of a character: the file is not valid UTF-8,
    and the store does not open. *)
Theorem torn_character_fails_open path k (rs : list T) bs r b p fs :
  no_faults fs → fs_dir fs !! path = Some k → content fs k = file_of bs ++ p →
  encodes rs bs → to_vec r = Ok b → p `prefix_of` b → is_utf8 p = false →
  ∃ msg, jsonl_open (T := T) path fs = (Err (mkIoError InvalidData msg), fs).
Proof.
  intros Hnf Hd Hc Hrs Hb Hp Hu. eexists. apply (open_bad path k); [done..|].
  unfold parse_jsonl. assert (is_utf8 (content fs k) = false) as ->; [|done].
  rewrite Hc. by eapply torn_not_utf8.
Qed.

(** C28: a compaction that fails after its rename reports an error and leaves the
    store writing to the file that lost its name: a later append reports
    success, and reopening does not find its record. *)
Theorem compaction_error_loses_appends s kept e s1 r s2 :
  store_ok s → jsonl_replace_all kept s = (Err e, s1) →
  fs_dir s1.2 !! js_path s1.1 ≠ Some (js_file s1.1) →
  jsonl_append r s1 = (Ok tt, s2) → no_faults s2.2 →
  js_records s2.1 = js_records s.1 ++ [r] ∧
  ∃ st, jsonl_open (js_path s.1) s2.2 = (Ok st, s2.2) ∧ js_records st = kept.
Proof.
  intros (Hp & bs & Hbs & Hs) Hr Hne Ha Hnf.
  unfold jsonl_replace_all, gets, set_file, set_records, modify, mbind, M_bind in Hr.
  rewrite on_fs_run in Hr.
  destruct (compact_jsonl (js_path s.1) kept s.2) as [[j|x] fs1] eqn:Hc; [done|].
  injection Hr as <- <-. simpl in Hne.
  destruct (compact_cases _ _ _ _ _ _ _ Hp Hs Hc) as [[_ [_ [Hd _ _ _]]]|(j & cs & Hcs & Hsw & _)];
    [done|].
  destruct Hsw as [Hwf Hd _ _ _ Hcj _].
  destruct (append_ok_inv _ _ _ Ha) as (b & fs2 & fs3 & _ & Hw & Hsy & ->). simpl in *.
  split; [done|]. exists (mkJsonlStore (js_path s.1) kept j). split; [|done].
  apply fs_write_all_ok in Hw as [rest ->]. apply fs_sync_ok in Hsy as [rest' ->].
  apply (open_existing _ j); [done|done|].
  change (parse_jsonl (js_path s.1) (content (extend (js_file s.1) (terminated b) fs1) j) = Ok kept).
  rewrite content_extend, decide_False by (by intros <-). rewrite Hcj. by apply parse_jsonl_complete.
Qed.

(** Opening a missing file whose path has no directory part. *)
Lemma open_missing_bare path fs :
  parent path = None → no_faults fs → fs_dir fs !! path = None →
  jsonl_open (T := T) path fs = (Ok (mkJsonlStore path [] (fs_next fs)), (open_or_create path fs).2).
Proof.
  intros Hpar Hnf Hd. unfold jsonl_open, read_jsonl, catch, gets, mbind, M_bind, fs_read.
  rewrite syscall_ok by done. rewrite Hd. simpl.
  unfold open_locked_append, mbind, M_bind, fs_open_append, mapM_err, fs_try_lock_exclusive.
  rewrite syscall_ok by done. unfold open_or_create. rewrite Hd. rewrite syscall_ok by done.
  unfold fs_exists. rewrite bool_decide_false by (rewrite Hd; by intros [? ?]). simpl.
  unfold sync_parent_dir. by rewrite Hpar.
Qed.

(** A store whose path has no directory part: nothing makes the name of the
    new file durable, and a power loss after an acknowledged append can leave no
    file at all. *)
Theorem bare_path_not_durable path fs st fs1 r s :
  parent path = None → fs_dir fs !! path = None → fs_durable_dir fs !! path = None →
  jsonl_open path fs = (Ok st, fs1) → jsonl_append (T := T) r (st, fs1) = (Ok tt, s) →
  ∃ fs' st', crash s.2 fs' ∧ no_faults fs' ∧
    (jsonl_open path fs').1 = Ok st' ∧ js_records st' = [] ∧ js_records s.1 = [r].
Proof.
  intros Hpar Hd Hdd Ho Ha. unfold jsonl_open, gets in Ho.
  apply bind_ok_inv in Ho as (rs & f1 & Hr & Ho).
  destruct (read_missing _ _ _ _ Hd Hr) as (-> & rest & ->).
  apply bind_ok_inv in Ho as (nc & ? & [= <- <-] & Ho).
  apply bind_ok_inv in Ho as (j & f2 & Hl & Ho).
  destruct (open_locked_append_new _ (set_faults rest fs) _ _ Hd Hl) as (-> & rest' & ->).
  unfold sync_parent_dir in Ho. rewrite Hpar in Ho.
  apply bind_ok_inv in Ho as ([] & f3 & Hn & Ho). unfold mret, M_ret in Ho, Hn. injection Ho as <- <-.
  assert (fs_durable_dir f3 !! path = None) as Hdd'.
  { unfold open_or_create in Hn. simpl in Hn. rewrite Hd in Hn. by destruct (negb _); injection Hn as <-. }
  destruct (append_ok_inv _ _ _ Ha) as (b & fs2 & fs3 & _ & Hw & Hsy & ->). simpl in *.
  apply fs_write_all_ok in Hw as [r1 ->]. apply fs_sync_ok in Hsy as [r2 ->].
  eexists _, _. split; [apply crash_power_loss|]. split; [done|].
  erewrite (open_missing_bare path) by done. done.
Qed.

(** A drain whose sync fails reports an error and keeps the records in
    memory, but the file is already empty: a restart finds no record. *)
Theorem failed_drain_loses_records s f :
  store_ok s → fs_faults s.2 = [None; Some f] →
  ∃ s1 st, jsonl_drain s = (Err (fault_error f), s1) ∧ js_records s1.1 = js_records s.1 ∧
    jsonl_open (T := T) (js_path s.1) s1.2 = (Ok st, s1.2) ∧ js_records st = [].
Proof.
  intros (Hp & bs & Hbs & [Hwf [Hd Hdd Hc Hdu]]) Hf. destruct s as [[path rs i] fs]. simpl in *.
  exists (mkJsonlStore path rs i, set_faults [] (truncated i (set_faults [Some f] fs))), (mkJsonlStore path [] i).
  split.
  { unfold jsonl_drain, gets, mbind, M_bind. rewrite on_fs_run.
    unfold fs_truncate, syscall. simpl. rewrite Hf. simpl. done. }
  split; [done|]. split; [|done]. apply open_existing; [done|done|]. simpl.
  unfold content. simpl. rewrite lookup_insert_eq. done.
Qed.
End faults.
