(* ===== verification/FileCalm.v ===== *)
(** * The durable event store when no system call fails

    Its operations then fail only for a record that has no JSON text, and leave the
    store as it was. *)

From stdpp Require Import base gmap strings list.
From Stdlib Require Import ZArith Lia.
From S2P Require Import Prelude RustStd Event Retention Store FileSystem Jsonl JsonlSpec Durability FileStore FileDurability JsonlFaults.

(** ** Computations that succeed *)

(** [m] returns, no call fails, and what it returns and leaves satisfies [Q]. *)
Definition succeeds {A} (m : IO A) (fs : FS) (Q : A → FS → Prop) : Prop :=
  ∃ a fs', m fs = (Ok a, fs') ∧ no_faults fs' ∧ Q a fs'.

Lemma succeeds_ret {A} (a : A) fs (Q : A → FS → Prop) : no_faults fs → Q a fs → succeeds (mret a) fs Q.
Proof. intros Hnf HQ. by exists a, fs. Qed.

Lemma succeeds_bind {A B} (m : IO A) (k : A → IO B) fs Q R :
  succeeds m fs Q → (∀ a fs', no_faults fs' → Q a fs' → succeeds (k a) fs' R) → succeeds (m ≫= k) fs R.
Proof.
  intros (a & fs' & Hm & Hnf & HQ) Hk. destruct (Hk _ _ Hnf HQ) as (b & fs'' & Hb & HR).
  exists b, fs''. split; [|done]. unfold mbind, M_bind. by rewrite Hm.
Qed.

Lemma succeeds_call {A} (run : FS → result io_error A * FS) torn fs a fs' (Q : A → FS → Prop) :
  no_faults fs → run fs = (Ok a, fs') → no_faults fs' → Q a fs' → succeeds (syscall run torn) fs Q.
Proof. intros Hnf Hr Hnf' HQ. exists a, fs'. by rewrite syscall_ok, Hr. Qed.

Lemma succeeds_weaken {A} (m : IO A) fs (Q R : A → FS → Prop) :
  succeeds m fs Q → (∀ a fs', Q a fs' → R a fs') → succeeds m fs R.
Proof. intros (a & fs' & Hm & Hnf & HQ) HR. exists a, fs'. auto. Qed.

Lemma open_or_create_calm path fs :
  no_faults fs → no_faults (open_or_create path fs).2 ∧ is_Some (fs_dir (open_or_create path fs).2 !! path).
Proof.
  intros Hnf. unfold open_or_create. destruct (fs_dir fs !! path) as [k|] eqn:Hd; simpl; [by rewrite Hd|].
  by rewrite lookup_insert_eq.
Qed.

Lemma open_locked_append_calm path fs : no_faults fs → succeeds (open_locked_append path) fs (λ _ _, True).
Proof.
  intros Hnf. destruct (open_or_create_calm path fs Hnf) as [Hnf' _].
  apply (succeeds_bind _ _ _ (λ _ _, True)).
  { destruct (open_or_create path fs) as [k fs'] eqn:Ho. eapply succeeds_call; [done|by rewrite Ho|done|done]. }
  intros k fs1 Hnf1 _. apply (succeeds_bind _ _ _ (λ _ _, True)); [|by intros; apply succeeds_ret].
  exists tt, fs1. unfold mapM_err, fs_try_lock_exclusive. by rewrite syscall_ok.
Qed.

Lemma sync_parent_dir_calm path fs : no_faults fs → succeeds (sync_parent_dir path) fs (λ _ _, True).
Proof.
  intros Hnf. unfold sync_parent_dir. destruct (parent path); [|by apply succeeds_ret].
  eapply succeeds_call; [done|reflexivity|done|done].
Qed.

Section records.
Context {T : Type} `{Serialize T} `{Deserialize T}.

(** A new store opens. *)
Lemma open_new_calm path fs :
  no_faults fs → fs_dir fs !! path = None → succeeds (jsonl_open (T := T) path) fs (λ _ _, True).
Proof.
  intros Hnf Hd. apply (succeeds_bind _ _ _ (λ _ fs', fs' = fs)).
  { exists [], fs. split; [|done]. unfold read_jsonl, catch, fs_read, mbind, M_bind. rewrite syscall_ok by done. by rewrite Hd. }
  intros rs fs1 Hnf1 ->. apply (succeeds_bind _ _ _ (λ _ fs', fs' = fs)); [by eexists _, fs|].
  intros nc fs2 Hnf2 ->. eapply succeeds_bind; [by apply open_locked_append_calm|].
  intros k fs3 Hnf3 _. apply (succeeds_bind _ _ _ (λ _ _, True)); [|by intros; apply succeeds_ret].
  destruct nc; [by apply sync_parent_dir_calm|by apply succeeds_ret].
Qed.

(** A compaction of records that have a text succeeds. *)
Lemma write_items_calm j (kept : list T) bs fs :
  no_faults fs → encodes kept bs → succeeds (for_each kept (write_item j)) fs (λ _ fs', fs_dir fs' = fs_dir fs).
Proof.
  intros Hnf He. revert fs Hnf. induction He as [|r b kept bs Hb _ IH]; intros fs Hnf; [by apply succeeds_ret|].
  cbn [for_each]. apply (succeeds_bind _ _ _ (λ _ fs', fs_dir fs' = fs_dir fs)).
  - apply (succeeds_bind _ _ _ (λ b fs', fs' = fs)).
    { exists b, fs. unfold lift. by rewrite Hb. }
    intros b' fs1 Hnf1 ->. apply (succeeds_bind _ _ _ (λ _ fs', fs_dir fs' = fs_dir fs)).
    { eapply succeeds_call; [done|reflexivity|done|done]. }
    intros _ fs2 Hnf2 Hd2. eapply succeeds_call; [done|reflexivity|done|done].
  - intros _ fs1 Hnf1 Hd1. eapply succeeds_weaken; [by apply IH|]. simpl. intros _ fs2 ->. done.
Qed.

Lemma compact_calm path (kept : list T) bs fs :
  no_faults fs → encodes kept bs → succeeds (compact_jsonl path kept) fs (λ _ _, True).
Proof.
  intros Hnf He. unfold compact_jsonl. set (tmp := with_extension path "compact").
  apply (succeeds_bind _ _ _ (λ _ fs', is_Some (fs_dir fs' !! tmp))).
  { destruct (open_or_create_calm tmp fs Hnf) as [Hnf' Htmp].
    destruct (open_or_create tmp fs) as [k fs'] eqn:Ho. eapply succeeds_call; [done|by rewrite Ho|done|done]. }
  intros j fs1 Hnf1 Htmp. apply (succeeds_bind _ _ _ (λ _ fs', is_Some (fs_dir fs' !! tmp))).
  { eapply succeeds_weaken; [by eapply write_items_calm|]. simpl. by intros _ fs' ->. }
  intros _ fs2 Hnf2 Htmp2. apply (succeeds_bind _ _ _ (λ _ fs', is_Some (fs_dir fs' !! tmp))).
  { eapply succeeds_call; [done|reflexivity|done|done]. }
  intros _ fs3 Hnf3 [k Hk]. apply (succeeds_bind _ _ _ (λ _ _, True)).
  { eapply succeeds_call; [done|by rewrite Hk|done|done]. }
  intros _ fs4 Hnf4 _. eapply succeeds_bind; [by apply sync_parent_dir_calm|].
  intros _ fs5 Hnf5 _. by apply open_locked_append_calm.
Qed.

Lemma retain_calm kp bs (s : JsonlStore T * FS) :
  no_faults s.2 → encodes (kp (js_records s.1)) bs → ∃ n s', jsonl_retain kp s = (Ok n, s') ∧ no_faults s'.2.
Proof.
  intros Hnf He. unfold jsonl_retain, gets, set_file, set_records, modify, mbind, M_bind.
  destruct (_ >? 0)%Z; [|by eexists _, s]. rewrite on_fs_run.
  destruct (compact_calm (js_path s.1) _ _ _ Hnf He) as (j & fs' & -> & Hnf' & _). by eexists _, _.
Qed.

(** An append succeeds, or its record has no text. *)
Lemma append_calm r (s : JsonlStore T * FS) :
  no_faults s.2 →
  match jsonl_append r s with (Ok _, s') => no_faults s'.2 | (Err _, s') => s' = s end.
Proof.
  intros Hnf. destruct (to_vec r) as [b|e] eqn:Hb.
  - by rewrite (append_no_faults _ _ _ Hnf Hb).
  - unfold jsonl_append, lift, mbind, M_bind. by rewrite Hb.
Qed.
End records.

(** ** The event store *)

Section event_store.
Context `{JsonCodec EventEnvelope} `{JsonCodec EventId} `{HashSetIter}.
Implicit Types st : FileEventStore * FS.

(** A store in order at its path. *)
Definition fes_at (path : string) st : Prop := fes_ok st ∧ js_path (fes_inner st.1) = path.
Definition fes_calm (path : string) st : Prop := fes_at path st ∧ no_faults st.2.

Lemma fes_open_path path fs store fs' : fes_open path fs = (Ok store, fs') → js_path (fes_inner store) = path.
Proof.
  unfold fes_open. intros (inner & fs1 & Hi & Ho)%bind_ok_inv. apply bind_ok_inv in Ho as (d & fs2 & _ & Ho).
  injection Ho as <- _. simpl. unfold jsonl_open in Hi.
  apply bind_ok_inv in Hi as (rs & fs3 & _ & Hi). apply bind_ok_inv in Hi as (nc & fs4 & _ & Hi).
  apply bind_ok_inv in Hi as (f & fs5 & _ & Hi). apply bind_ok_inv in Hi as (u & fs6 & _ & Hi). by injection Hi as <- _.
Qed.

Lemma fes_append_at path e st st' : fes_at path st → fes_append e st = (Ok tt, st') → fes_at path st'.
Proof.
  intros [Hok <-] Ha. split; [by eapply fes_append_ok|]. unfold fes_append in Ha. rewrite on_inner_run in Ha.
  destruct (jsonl_append e (fes_inner st.1, st.2)) as [[[]|x] t] eqn:Ht; [|done]. injection Ha as <-. simpl.
  by destruct (append_ok_inv _ _ _ Ht) as (? & ? & ? & _ & _ & _ & ->).
Qed.

Lemma fes_mark_at path id st st' : fes_at path st → fes_mark_delivered id st = (Ok tt, st') → fes_at path st'.
Proof.
  intros [Hok <-] Hm. split; [by eapply fes_mark_delivered_ok|].
  unfold fes_mark_delivered, gets, mbind, M_bind in Hm. case_bool_decide; [unfold mret, M_ret in Hm; by simplify_eq|].
  rewrite on_delivered_run in Hm. destruct (jsonl_append id _) as [[[]|x] t]; [|done].
  unfold set_delivered_set, modify in Hm. by injection Hm as <-.
Qed.

Lemma fes_prune_at path policy n st st' : fes_at path st → fes_prune policy st = (Ok n, st') → fes_at path st'.
Proof.
  intros [Hok <-] Hp. split; [by eapply fes_prune_ok|]. unfold fes_prune, jsonl_prune in Hp. rewrite on_inner_run in Hp.
  injection Hp as _ <-. simpl. apply retain_path.
Qed.

(** A new store opens. *)
Lemma fes_open_calm path fs :
  paths_ok path → fs_wf fs → no_faults fs → fs_dir fs !! path = None → fs_dir fs !! delivered_path path = None →
  ∃ store fs', fes_open path fs = (Ok store, fs') ∧ no_faults fs'.
Proof.
  intros (Hp & _ & Hne & _) Hwf Hnf Hd Hdd.
  destruct (open_new_calm (T := EventEnvelope) path fs Hnf Hd) as (inner & fs1 & Hi & Hnf1 & _).
  destruct (open_new _ _ _ _ Hp Hwf Hd Hi) as (_ & Hpath & _).
  destruct (open_new_calm (T := EventId) (delivered_path path) fs1 Hnf1) as (delivered & fs2 & Ho & Hnf2 & _).
  { by apply (open_new_others path fs inner). }
  unfold fes_open, mbind, M_bind. rewrite Hi, Hpath, Ho. by eexists _, _.
Qed.

(** Its operations: success keeps the store in order and calm, failure keeps it. *)
Lemma fes_append_calm path e st :
  fes_calm path st → match fes_append e st with (Ok _, st') => fes_calm path st' | (Err _, st') => st' = st end.
Proof.
  intros [Hat Hnf]. pose proof (append_calm e (fes_inner st.1, st.2) Hnf) as Hc.
  destruct (fes_append e st) as [[[]|x] st'] eqn:Ha.
  - split; [by eapply fes_append_at|]. unfold fes_append in Ha. rewrite on_inner_run in Ha.
    destruct (jsonl_append e _) as [[[]|x] t]; [|done]. by injection Ha as <-.
  - unfold fes_append in Ha. rewrite on_inner_run in Ha. destruct (jsonl_append e _) as [[[]|y] t]; [done|].
    injection Ha as _ <-. rewrite Hc. by destruct st as [[] ?].
Qed.

Lemma fes_mark_calm path id st :
  fes_calm path st → match fes_mark_delivered id st with (Ok _, st') => fes_calm path st' | (Err _, st') => st' = st end.
Proof.
  intros [Hat Hnf]. pose proof (append_calm id (fes_delivered st.1, st.2) Hnf) as Hc.
  destruct (fes_mark_delivered id st) as [[[]|x] st'] eqn:Hm.
  - split; [by eapply fes_mark_at|]. unfold fes_mark_delivered, gets, mbind, M_bind in Hm.
    case_bool_decide; [unfold mret, M_ret in Hm; by simplify_eq|]. rewrite on_delivered_run in Hm.
    destruct (jsonl_append id _) as [[[]|x] t]; [|done]. unfold set_delivered_set, modify in Hm. by injection Hm as <-.
  - unfold fes_mark_delivered, gets, mbind, M_bind in Hm.
    case_bool_decide; [unfold mret, M_ret in Hm; by simplify_eq|]. rewrite on_delivered_run in Hm.
    destruct (jsonl_append id _) as [[[]|y] t]; [done|]. injection Hm as _ <-. rewrite Hc. by destruct st as [[] ?].
Qed.

Lemma fes_prune_calm path policy st :
  fes_calm path st → ∃ n st', fes_prune policy st = (Ok n, st') ∧ fes_calm path st'.
Proof.
  intros [Hat Hnf]. destruct (fes_inner_ok _ (proj1 Hat)) as (_ & bs & Hbs & _). simpl in Hbs.
  assert (∃ cs, encodes (keep policy (js_records (fes_inner st.1)) ev_timestamp) cs) as [cs Hcs].
  { apply Forall_exists_Forall2_l. eapply Forall_sublist; [apply keep_sublist|].
    eapply Forall2_Forall_l; [exact Hbs|]. apply Forall_true. eauto. }
  destruct (retain_calm (λ records, keep policy records ev_timestamp) cs (fes_inner st.1, st.2) Hnf Hcs) as (n & t & Hr & Hnf').
  assert (∃ st', fes_prune policy st = (Ok n, st') ∧ no_faults st'.2) as (st' & Hp & Hn).
  { unfold fes_prune, jsonl_prune. rewrite on_inner_run, Hr. by eexists. }
  exists n, st'. split; [done|]. split; [by eapply fes_prune_at|done].
Qed.
End event_store.
