(* ===== verification/StorageRuns.v ===== *)
(** * Sample runs of the durable stores

    The theorems on the JSONL stores applied to concrete stores, created by
    [open] on an empty file system with the codec of [Samples]. *)

From stdpp Require Import base gmap strings list relations.
From Stdlib Require Import ZArith Lia.
From S2P Require Import Prelude RustStd Event Retention Store FileSystem Jsonl JsonlSpec Durability.
From S2P Require Import FileStore FileDurability Samples JsonlFaults.

(** A step, as an equation. *)
Lemma run_ok {S E A} (m : M S E A) s r : (m s).1 = r → m s = (r, (m s).2).
Proof. intros H. rewrite <-H. by destruct (m s). Qed.

Lemma fs_empty_wf : fs_wf fs_empty.
Proof. by constructor. Qed.

Definition event1 : EventEnvelope := sample_event 1 (Some "k1") 100.
Definition event2 : EventEnvelope := sample_event 2 (Some "k2") 200.

Definition store0 : JsonlStore EventEnvelope * FS := sample_store EventEnvelope.
Definition store1 : JsonlStore EventEnvelope * FS := (jsonl_append event1 store0).2.

Lemma store0_ok : store_ok store0.
Proof.
  destruct (jsonl_open (T := EventEnvelope) sample_path fs_empty) as [[st|e] fs] eqn:Ho.
  - destruct (open_new (T := EventEnvelope) sample_path fs_empty st fs) as (_ & _ & Hok);
      [by apply (bool_decide_unpack _); vm_compute|apply fs_empty_wf|done|done|].
    unfold store0, sample_store. by rewrite Ho.
  - by vm_compute in Ho.
Qed.

Lemma store1_run : jsonl_append event1 store0 = (Ok tt, store1).
Proof. apply run_ok. by vm_compute. Qed.

Lemma store1_ok : store_ok store1.
Proof. exact (proj1 (append_store_ok _ _ _ store0_ok store1_run)). Qed.

Lemma acknowledged_records_survive_witness :
  jsonl_open (js_path store1.1) (power_loss store1.2) = (Ok store1.1, power_loss store1.2) ∧
  store_ok (store1.1, power_loss store1.2).
Proof.
  apply (acknowledged_records_survive store0 store1).
  - exact store0_ok.
  - apply rtc_once. exact (life_append _ _ _ store1_run).
  - apply crash_power_loss.
  - reflexivity.
Defined.

(** An append whose write fails after three bytes. *)
Definition store1_full : JsonlStore EventEnvelope * FS :=
  (store1.1, set_faults [Some (mkFault (mkIoError (OsError 28) "No space left on device") 3)] store1.2).

Lemma store1_full_ok : store_ok store1_full.
Proof.
  destruct store1_ok as (Hp & bs & Hbs & Hs). split; [done|]. exists bs. split; [done|].
  by apply safe_ignores_faults.
Qed.

Lemma interrupted_append_recovers_witness :
  append_left event2 (jsonl_append event2 store1_full).1 store1_full (power_loss (jsonl_append event2 store1_full).2.2).
Proof.
  apply (interrupted_append_recovers store1_full event2 _ (jsonl_append event2 store1_full).2).
  - exact store1_full_ok.
  - by destruct (jsonl_append event2 store1_full).
  - apply crash_power_loss.
  - reflexivity.
Defined.

Lemma compaction_is_atomic_witness :
  ∃ st, jsonl_open (js_path store1.1) (power_loss (jsonl_replace_all [event2] store1).2.2)
        = (Ok st, power_loss (jsonl_replace_all [event2] store1).2.2) ∧
    (js_records st = js_records store1.1 ∧ (∃ e, (jsonl_replace_all [event2] store1).1 = Err e) ∨
     js_records st = [event2]).
Proof.
  apply (compaction_is_atomic store1 [event2] _ (jsonl_replace_all [event2] store1).2).
  - exact store1_ok.
  - by destruct (jsonl_replace_all [event2] store1).
  - apply crash_power_loss.
  - reflexivity.
Defined.

(** ** The event store *)

Definition fes_sample : FileEventStore * FS :=
  match fes_open sample_path fs_empty with
  | (Ok st, fs) => (st, fs)
  | (Err _, fs) => (mkFileEventStore store0.1 (mkJsonlStore sample_path [] 0) ∅, fs)
  end.

Lemma fes_sample_run : fes_open sample_path fs_empty = (Ok fes_sample.1, fes_sample.2).
Proof.
  unfold fes_sample. destruct (fes_open sample_path fs_empty) as [[st|e] fs] eqn:Ho; [done|].
  by vm_compute in Ho.
Qed.

Lemma sample_paths_ok : paths_ok sample_path.
Proof. by apply (bool_decide_unpack _); vm_compute. Qed.

Definition fes1 : FileEventStore * FS := (fes_append event1 fes_sample).2.
Definition fes2 : FileEventStore * FS := (fes_mark_delivered (mkEventId 1) fes1).2.
Definition fes3 : FileEventStore * FS := (fes_append event2 fes2).2.

Lemma fes1_run : fes_append event1 fes_sample = (Ok tt, fes1).
Proof. unfold fes1. apply (run_ok (fes_append event1) fes_sample (Ok tt)). by vm_compute. Qed.
Lemma fes2_run : fes_mark_delivered (mkEventId 1) fes1 = (Ok tt, fes2).
Proof. unfold fes2. apply (run_ok (fes_mark_delivered (mkEventId 1)) fes1 (Ok tt)). by vm_compute. Qed.
Lemma fes3_run : fes_append event2 fes2 = (Ok tt, fes3).
Proof. unfold fes3. apply (run_ok (fes_append event2) fes2 (Ok tt)). by vm_compute. Qed.

Lemma fes3_life : rtc fes_lifecycle (fes_sample.1, fes_sample.2) fes3.
Proof.
  rewrite <-(surjective_pairing fes_sample).
  eapply rtc_l; [exact (fes_life_append _ _ _ fes1_run)|].
  eapply rtc_l; [exact (fes_life_mark _ _ _ fes2_run)|].
  apply rtc_once. exact (fes_life_append _ _ _ fes3_run).
Qed.

Lemma event_store_survives_witness :
  fes_open (js_path (fes_inner fes3.1)) (power_loss fes3.2) = (Ok fes3.1, power_loss fes3.2).
Proof.
  apply (event_store_survives sample_path fs_empty fes_sample.1 fes_sample.2 fes3).
  - exact sample_paths_ok.
  - exact fs_empty_wf.
  - reflexivity.
  - reflexivity.
  - exact fes_sample_run.
  - exact fes3_life.
  - apply crash_power_loss.
  - reflexivity.
Defined.

Lemma fes3_ok : fes_ok fes3.
Proof.
  eapply fes_lifecycle_ok; [exact fes3_life|].
  exact (proj2 (fes_open_new sample_path fs_empty _ _ sample_paths_ok fs_empty_wf eq_refl eq_refl fes_sample_run)).
Qed.

(** The delivered event is past its grace period, the other one is not delivered. *)
Definition grace_policy : AutoRetention := mkAutoRetention (Some 50%Z) None None None.

Lemma interrupted_retention_witness :
  ∃ st, fes_open (js_path (fes_inner fes3.1)) (power_loss (fes_enforce_retention grace_policy 300 fes3).2.2)
        = (Ok st, power_loss (fes_enforce_retention grace_policy 300 fes3).2.2) ∧
    (fes_all (st, power_loss (fes_enforce_retention grace_policy 300 fes3).2.2) = fes_all fes3 ∨
     fes_all (st, power_loss (fes_enforce_retention grace_policy 300 fes3).2.2)
     = retain_events (fes_all fes3) (fes_delivered_set fes3.1) grace_policy 300) ∧
    ∀ e, e ∈ fes_all (st, power_loss (fes_enforce_retention grace_policy 300 fes3).2.2) →
      (ev_id e ∈ fes_delivered_set st ↔ ev_id e ∈ fes_delivered_set fes3.1).
Proof.
  apply (interrupted_retention grace_policy 300 fes3 (fes_enforce_retention grace_policy 300 fes3).1
           (fes_enforce_retention grace_policy 300 fes3).2).
  - exact fes3_ok.
  - by destruct (fes_enforce_retention grace_policy 300 fes3).
  - apply crash_power_loss.
  - reflexivity.
Defined.

(** The sweep above removes the delivered event and keeps the other one. *)
Example grace_policy_sweep :
  fes_all (fes_enforce_retention grace_policy 300 fes3).2 = [event2] ∧
  (fes_enforce_retention grace_policy 300 fes3).1 = Ok 1%Z.
Proof. split; vm_compute; reflexivity. Qed.

(** ** Retention *)

Lemma retention_is_exact_witness :
  let kept := retain_events [event1; event2] {[mkEventId 1]} grace_policy 300 in
  kept `sublist_of` [event1; event2] ∧ within_bounds grace_policy kept ∧
  (∀ e, e ∈ kept → ¬ past_max_age grace_policy 300 (ev_timestamp e) ∧ ¬ past_grace {[mkEventId 1]} grace_policy 300 e) ∧
  (∀ e, e ∈ [event1; event2] → e ∉ kept →
     past_max_age grace_policy 300 (ev_timestamp e) ∨ past_grace {[mkEventId 1]} grace_policy 300 e ∨
     ∃ older newer,
       filter (λ e, event_survives {[mkEventId 1]} grace_policy 300 e = true) [event1; event2] = older ++ e :: newer ∧
       ¬ within_bounds grace_policy (e :: newer)) ∧
  retain_events kept {[mkEventId 1]} grace_policy 300 = kept.
Proof. apply (retention_is_exact [event1; event2] {[mkEventId 1]} grace_policy 300). by split. Defined.

Definition count_policy : AutoRetention := mkAutoRetention None None (Some 1%Z) None.

Lemma retain_dead_triggers_bounded_witness :
  ∃ n, retain_dead_triggers [mkDeadTriggerRecord event1 "t" "e"; mkDeadTriggerRecord event2 "t" "e"] count_policy 300 =
         drop n (filter (λ r, record_survives count_policy 300 r = true)
                   [mkDeadTriggerRecord event1 "t" "e"; mkDeadTriggerRecord event2 "t" "e"]) ∧
    within_bounds count_policy
      (retain_dead_triggers [mkDeadTriggerRecord event1 "t" "e"; mkDeadTriggerRecord event2 "t" "e"] count_policy 300) ∧
    retain_dead_triggers [mkDeadTriggerRecord event1 "t" "e"; mkDeadTriggerRecord event2 "t" "e"]
      (mkAutoRetention None (max_age count_policy) (max_count count_policy) (max_bytes count_policy)) 300 =
    retain_dead_triggers [mkDeadTriggerRecord event1 "t" "e"; mkDeadTriggerRecord event2 "t" "e"] count_policy 300.
Proof. apply retain_dead_triggers_bounded. by split. Defined.

(** ** Faults *)

(** A file with a torn record and nothing else. *)
Definition line1 : bytes := quote :: digits (encode event1).
Definition line2 : bytes := quote :: digits (encode event2).
Definition torn_fs (b : bytes) : FS :=
  mkFS {[ sample_path := 0 ]} {[ 0 := b ]} {[ sample_path := 0 ]} {[ 0 := b ]} 1 [].

Definition glue_error : string :=
  match from_str (T := EventEnvelope) (take 3 line1 ++ line2) with Err e => e | Ok _ => "" end.

Lemma append_after_torn_tail_witness :
  ∃ st s' msg,
    jsonl_open sample_path (torn_fs (take 3 line1)) = (Ok st, torn_fs (take 3 line1)) ∧ js_records st = [] ∧
    jsonl_append event2 (st, torn_fs (take 3 line1)) = (Ok tt, s') ∧
    jsonl_open (T := EventEnvelope) sample_path s'.2 = (Err (mkIoError InvalidData msg), s'.2).
Proof.
  apply (append_after_torn_tail sample_path 0 [] [] event1 line1 (take 3 line1) event2 line2 glue_error).
  - reflexivity.
  - reflexivity.
  - reflexivity.
  - constructor.
  - reflexivity.
  - apply prefix_take.
  - vm_compute. discriminate.
  - vm_compute. discriminate.
  - vm_compute. reflexivity.
  - reflexivity.
  - vm_compute. reflexivity.
Defined.

Definition failing_sync : Fault := mkFault (mkIoError (OsError 5) "Input/output error") 0.

(** The directory sync of the compaction of one record fails. *)
Definition store1_no_dirsync : JsonlStore EventEnvelope * FS :=
  (store1.1, set_faults [None; None; None; None; None; Some failing_sync] store1.2).

Lemma store1_no_dirsync_ok : store_ok store1_no_dirsync.
Proof.
  destruct store1_ok as (Hp & bs & Hbs & Hs). split; [done|]. exists bs. split; [done|].
  by apply safe_ignores_faults.
Qed.

Definition store1_switched : JsonlStore EventEnvelope * FS := (jsonl_replace_all [event1] store1_no_dirsync).2.

Lemma compaction_error_loses_appends_witness :
  js_records (jsonl_append event2 store1_switched).2.1 = js_records store1_no_dirsync.1 ++ [event2] ∧
  ∃ st, jsonl_open (js_path store1_no_dirsync.1) (jsonl_append event2 store1_switched).2.2
        = (Ok st, (jsonl_append event2 store1_switched).2.2) ∧ js_records st = [event1].
Proof.
  apply (compaction_error_loses_appends store1_no_dirsync [event1] (fault_error failing_sync) store1_switched).
  - exact store1_no_dirsync_ok.
  - unfold store1_switched. apply (run_ok (jsonl_replace_all [event1]) store1_no_dirsync). vm_compute. reflexivity.
  - vm_compute. discriminate.
  - apply run_ok. vm_compute. reflexivity.
  - vm_compute. reflexivity.
Defined.

Definition bare_store : JsonlStore EventEnvelope * FS :=
  match jsonl_open "events.jsonl" fs_empty with
  | (Ok st, fs) => (st, fs)
  | (Err _, fs) => (store0.1, fs)
  end.

Lemma bare_path_not_durable_witness :
  ∃ fs' st', crash (jsonl_append event1 bare_store).2.2 fs' ∧ no_faults fs' ∧
    (jsonl_open (T := EventEnvelope) "events.jsonl" fs').1 = Ok st' ∧ js_records st' = [] ∧
    js_records (jsonl_append event1 bare_store).2.1 = [event1].
Proof.
  apply (bare_path_not_durable (T := EventEnvelope) "events.jsonl" fs_empty bare_store.1 bare_store.2 event1).
  - reflexivity.
  - reflexivity.
  - reflexivity.
  - vm_compute. reflexivity.
  - apply run_ok. vm_compute. reflexivity.
Defined.

Definition store1_no_sync : JsonlStore EventEnvelope * FS :=
  (store1.1, set_faults [None; Some failing_sync] store1.2).

Lemma store1_no_sync_ok : store_ok store1_no_sync.
Proof.
  destruct store1_ok as (Hp & bs & Hbs & Hs). split; [done|]. exists bs. split; [done|].
  by apply safe_ignores_faults.
Qed.

Lemma failed_drain_loses_records_witness :
  ∃ s1 st, jsonl_drain store1_no_sync = (Err (fault_error failing_sync), s1) ∧
    js_records s1.1 = js_records store1_no_sync.1 ∧
    jsonl_open (T := EventEnvelope) (js_path store1_no_sync.1) s1.2 = (Ok st, s1.2) ∧ js_records st = [].
Proof.
  apply (failed_drain_loses_records store1_no_sync failing_sync).
  - exact store1_no_sync_ok.
  - reflexivity.
Defined.

(** A record whose encoding holds a character of two bytes. *)
Inductive accent := Accent.

Definition accent_line : bytes := [quote; Byte.xc3; Byte.xa9; quote].

#[export] Instance accent_Serialize : Serialize accent := λ _, Ok accent_line.
#[export] Instance accent_Deserialize : Deserialize accent := λ b,
  if decide (b = accent_line) then Ok Accent else Err "expected a string".

#[export] Instance accent_JsonCodec : JsonCodec accent.
Proof.
  constructor; unfold to_vec, accent_Serialize, from_str, accent_Deserialize.
  - intros [] b [= <-]. by rewrite decide_True.
  - intros [] b [= <-]. by repeat constructor.
  - by intros [] b [= <-].
  - intros [] b [= <-]. eexists _, _. split; [done|]. by vm_compute.
  - intros [] b p [= <-] _ Hne. rewrite decide_False by done. eauto.
Qed.

Lemma torn_character_fails_open_witness :
  ∃ msg, jsonl_open (T := accent) sample_path (torn_fs (take 2 accent_line))
         = (Err (mkIoError InvalidData msg), torn_fs (take 2 accent_line)).
Proof.
  apply (torn_character_fails_open sample_path 0 [] [] Accent accent_line (take 2 accent_line)).
  - reflexivity.
  - reflexivity.
  - reflexivity.
  - constructor.
  - reflexivity.
  - apply prefix_take.
  - vm_compute. reflexivity.
Defined.

(** ** Follow-ups *)

Definition follow1 : EventEnvelope :=
  follow_up event1 (mkEventId 7) 300 Manual (mkEventType "job.done") [].

Lemma follow_up_chain_witness :
  chain_id follow1 = chain_id event1 ∧
  tenant_id (ev_metadata follow1) = tenant_id (ev_metadata event1) ∧
  trace_id (ev_metadata follow1) = trace_id (ev_metadata event1) ∧
  (follow1 = event1 ∨ ∃ c, rtc causes event1 c ∧
     causation_id (ev_metadata follow1) = Some (EventId_to_string (ev_id c)) ∧
     correlation_id (ev_metadata follow1) = Some (chain_id event1) ∧
     idempotency_key (ev_metadata follow1) = None).
Proof. apply (follow_up_chain event1 follow1). apply rtc_once. apply causes_follow_up. Defined.
