(* ===== verification/Backends.v ===== *)
(** * One log behind every backend

    A client of [EventStore] or [DeadTriggerQueue] cannot tell the durable backend
    from the in-memory one: as long as the operations succeed they answer the same,
    sequence by sequence, and what is read in between is the same, except for
    [size_bytes], which is about the backend and not about the log. Proved for any
    backend that meets the contract. *)

From stdpp Require Import base gmap strings list.
From Stdlib Require Import ZArith Lia.
From S2P Require Import Prelude RustStd Event Retention Store FileSystem Jsonl JsonlSpec Durability FileStore FileDurability Samples StorageRuns.
Local Open Scope Z_scope.

(** ** Sequences of operations *)

(** The operations of [trait EventStore] that change the store. *)
Inductive StoreOp :=
| OpAppend (event : EventEnvelope)
| OpMarkDelivered (id : EventId)
| OpEnforceRetention (policy : AutoRetention) (now : DateTime)
| OpPrune (policy : ManualRetention).

(** What they answer: the number of records removed, 0 for the others. *)
Definition store_op {S} `{EventStore S} (op : StoreOp) : M S io_error Z :=
  match op with
  | OpAppend event => es_append event;; mret 0
  | OpMarkDelivered id => es_mark_delivered id;; mret 0
  | OpEnforceRetention policy now => es_enforce_retention policy now
  | OpPrune policy => es_prune policy
  end.

(** Everything that can be read of a store, except its [size_bytes]: the size of the
    files behind it, 0 for one that has none. *)
Record Reading := mkReading {
  read_all : list EventEnvelope;
  read_undelivered : list EventEnvelope;
  read_len : Z;
  read_get : EventId → option EventEnvelope;
  read_find : string → option EventEnvelope;
}.

Definition reading {S} `{EventStore S} (s : S) : Reading :=
  mkReading (es_all s) (es_undelivered s) (es_len s) (λ id, es_get id s) (λ key, es_find_by_idempotency_key key s).

(** Two readings that agree wherever they are read. *)
#[export] Instance Reading_equiv : Equiv Reading := λ r r',
  read_all r = read_all r' ∧ read_undelivered r = read_undelivered r' ∧ read_len r = read_len r' ∧
  (∀ id, read_get r id = read_get r' id) ∧ (∀ key, read_find r key = read_find r' key).

#[export] Instance Reading_equivalence : Equivalence (≡@{Reading}).
Proof.
  split.
  - by intros r.
  - by intros r r' (? & ? & ? & ? & ?).
  - intros r r' r'' (Ha & Hu & Hl & Hg & Hf) (Ha' & Hu' & Hl' & Hg' & Hf').
    split_and!; [congruence..| |]; intros; etrans; eauto.
Qed.

(** A client's run: the answers and the readings, until an operation fails. *)
Fixpoint client {S} `{EventStore S} (ops : list StoreOp) : M S io_error (list (Z * Reading)) :=
  match ops with
  | [] => mret []
  | op :: ops =>
    n ← store_op op;
    r ← gets reading;
    rest ← client ops;
    mret ((n, r) :: rest)
  end.

Section backends.
Context `{Serialize EventEnvelope} {S : Type} `{EventStore S} `{!EventStoreSpec S}.

(** The abstract log as an in-memory store. *)
Definition reference_of (s : S) : InMemoryEventStore := mkInMemoryEventStore (log_events (view s)) (log_delivered (view s)).

Lemma reading_memory s m : view m = view s → reading s ≡ reading (m : InMemoryEventStore).
Proof.
  intros Hv. unfold reading, equiv, Reading_equiv. simpl read_all. simpl read_undelivered. simpl read_len. simpl read_get.
  simpl read_find. pose proof (all_view s) as Ha. pose proof (undelivered_view s) as Hu. pose proof (len_view s) as Hl.
  rewrite Ha, Hu, Hl, <-Hv. split; [done|]. split; [done|]. split; [done|]. split.
  - intros id. by rewrite get_view, <-Hv.
  - intros key. by rewrite find_view, <-Hv.
Qed.

(** One operation that succeeds is the in-memory store's. *)
Lemma store_op_memory op s n s' (m : InMemoryEventStore) :
  view m = view s → store_op op s = (Ok n, s') → ∃ m', store_op op m = (Ok n, m') ∧ view m' = view s'.
Proof.
  intros Hv Hop. destruct op as [event|id|policy now|policy]; simpl in Hop.
  - invert_bind Hop. destruct a. apply append_ok in Hm. injection Hop as <- <-. eexists. split; [done|].
    rewrite Hm, <-Hv. done.
  - invert_bind Hop. destruct a. apply mark_delivered_ok in Hm. injection Hop as <- <-. eexists. split; [done|].
    rewrite Hm, <-Hv. done.
  - apply enforce_retention_ok in Hop. destruct (es_enforce_retention policy now m) as [[n'|x] m'] eqn:He.
    + pose proof He as He'. apply (enforce_retention_ok policy now m) in He'. rewrite Hv, <-Hop in He'. injection He' as -> Hv'.
      exists m'. split; [exact He|done].
    + exfalso. simpl in He. unfold mem_enforce_retention in He. repeat case_match; done.
  - apply prune_ok in Hop. destruct (es_prune policy m) as [[n'|x] m'] eqn:He; [|done].
    pose proof He as He'. apply (prune_ok policy m) in He'. rewrite Hv, <-Hop in He'. injection He' as -> Hv'.
    exists m'. split; [exact He|done].
Qed.

(** The answers and the readings of two runs, pairwise. *)
Definition same_answers : list (Z * Reading) → list (Z * Reading) → Prop :=
  Forall2 (λ a b, a.1 = b.1 ∧ a.2 ≡ b.2).

Lemma client_memory ops s answers s' (m : InMemoryEventStore) :
  view m = view s → client ops s = (Ok answers, s') →
  ∃ answers' m', client ops m = (Ok answers', m') ∧ same_answers answers answers' ∧ view m' = view s'.
Proof.
  revert s m answers. induction ops as [|op ops IH]; intros s m answers Hv Hc; simpl in Hc.
  { injection Hc as <- <-. exists [], m. split; [done|]. split; [constructor|done]. }
  invert_bind Hc. destruct (store_op_memory _ _ _ _ _ Hv Hm) as (m1 & Hm1 & Hv1).
  unfold gets, mbind at 1, M_bind at 1 in Hc. invert_bind Hc. injection Hc as <- <-.
  destruct (IH _ _ _ Hv1 Hm0) as (answers' & m' & Hcl & Hsame & Hv').
  exists ((a, reading m1) :: answers'), m'. split; [|split; [|done]].
  - simpl. rewrite (bind_ok _ _ _ _ _ Hm1). unfold gets, mbind, M_bind. by rewrite Hcl.
  - constructor; [|done]. split; [done|]. by apply reading_memory.
Qed.

(** C16: the in-memory store is the reference of every backend: a client that runs any
    sequence of appends, marks, sweeps and prunes against a backend, reading after
    each of them everything but the size in bytes, gets, as long as the operations
    succeed, exactly the answers and the readings the in-memory store gives from the
    same log. The size in bytes does differ: it is 0 in memory. *)
Theorem in_memory_is_the_reference ops s answers s' :
  client ops s = (Ok answers, s') →
  ∃ answers' m', client ops (reference_of s) = (Ok answers', m') ∧ same_answers answers answers' ∧
    m' = reference_of s' ∧ es_size_bytes m' = 0.
Proof.
  intros Hc. destruct (client_memory ops s answers s' (reference_of s)) as (answers' & m' & Hcl & Hsame & Hv); [|done|].
  - unfold reference_of. simpl. by destruct (view s).
  - exists answers', m'. split; [done|]. split; [done|]. split; [|done]. unfold reference_of. rewrite <-Hv. by destruct m'.
Qed.
End backends.

(** ** A sample client *)

Definition sample_ops : list StoreOp :=
  [OpAppend event1; OpMarkDelivered (ev_id event1); OpAppend event2; OpEnforceRetention grace_policy 300;
   OpPrune (KeepMostRecent 1)].

Definition client_run : result io_error (list (Z * Reading)) * (FileEventStore * FS) := client sample_ops fes_sample.
Definition client_answers : list (Z * Reading) := match client_run.1 with Ok answers => answers | Err _ => [] end.

Lemma client_run_ok : client sample_ops fes_sample = (Ok client_answers, client_run.2).
Proof. unfold client_answers, client_run. apply (run_ok (client sample_ops) fes_sample). vm_compute. reflexivity. Qed.

Lemma in_memory_is_the_reference_witness :
  ∃ answers' m', client sample_ops (reference_of fes_sample) = (Ok answers', m') ∧
    same_answers client_answers answers' ∧ m' = reference_of client_run.2 ∧ es_size_bytes m' = 0.
Proof. apply (in_memory_is_the_reference sample_ops fes_sample client_answers client_run.2). exact client_run_ok. Defined.

(** One event was removed, and what is left has a size on disk. *)
Example removed : fst <$> client_answers = [0; 0; 0; 1; 0] ∧ es_size_bytes client_run.2 > 0.
Proof. split; vm_compute; reflexivity. Qed.
