(* ===== verification/Testing.v ===== *)
(** * Running the repository's tests on the model

    The crates' own tests, in the modules [tests] of their source files, are
    programs over the code; [StorageTests], [RuntimeTests] and their siblings
    write them out over the definitions of this library, which then have to give
    what the tests assert. Here is what those programs are written in: assertions,
    [expect], and the ids and instants that the constructors draw. *)

From stdpp Require Import base strings list.
From Stdlib Require Import ZArith.
From S2P Require Import Prelude RustStd Event.

(** A test runs over a state, which it reads and changes through the code under
    test, and over the number of ids it has drawn; it fails with a message. *)
Abbreviation Test S := (M (N * S) string).

Section testing.
Context {S : Type}.

Definition assert (what : string) (b : bool) : Test S unit := if b then mret tt else throw what.

(** [assert_eq!]. *)
Definition assert_eq `{EqDecision A} (what : string) (x y : A) : Test S unit := assert what (bool_decide (x = y)).

Definition under_test {E A} (m : M S E A) : Test S (result E A) := zoom snd (λ s t, (t.1, s)) (catch m).

Definition expect {E A} (what : string) (m : M S E A) : Test S A :=
  outcome ← under_test m;
  match outcome with Ok a => mret a | Err _ => throw what end.

Definition expect_err {E A} (what : string) (m : M S E A) : Test S E :=
  outcome ← under_test m;
  match outcome with Ok _ => throw what | Err e => mret e end.

Definition look {A} (f : S → A) : Test S A := gets (λ t, f t.2).

(** [Option::expect]. *)
Definition some {A} (what : string) (o : option A) : Test S A := lift (ok_or what o).

(** [EventEnvelope::new]: ids in the order in which they are drawn, and a clock
    that moves with them. *)
Definition new_event (source : Source) (event_type : string) (payload : bytes) : Test S EventEnvelope := λ '(n, s),
  (Ok (EventEnvelope_new (mkEventId n) (Z.of_N n) source (mkEventType event_type) payload), (N.succ n, s)).

(** The outcome of a test from a state. *)
Definition run_test (m : Test S unit) (s : S) : result string unit := (m (0%N, s)).1.
End testing.

(** A suite passes. *)
Definition passes (suite : list (result string unit)) : Prop := Forall (λ outcome, outcome = Ok tt) suite.

(** [br#"{"key":value}"#]. *)
Definition quoted (s : string) : string := String (Ascii.ascii_of_nat 34) s +:+ String (Ascii.ascii_of_nat 34) EmptyString.
Definition json_field (key value : string) : string := quoted key +:+ ":" +:+ value.
Definition json_object (fields : list string) : bytes :=
  as_bytes ("{" +:+ String.concat "," fields +:+ "}").
Definition issue_payload : bytes := json_object [json_field "issue" "1"].

Definition with_key (key : string) (event : EventEnvelope) : EventEnvelope :=
  with_metadata event (mkEventMetadata None None None (Some key) None).
