(* ===== verification/JsonText.v ===== *)
(** * JSON texts

    The documents the program reads and writes, as RFC 8259 and [serde_json]'s
    documentation define them: a reader of the whole grammar, the compact writer
    of [to_string], and values. Numbers keep their text. The reader's fuel is the
    length of the text; [serde_json]'s limit of 128 levels of nesting is not
    modelled; what the program writes nests three deep. But for those of
    [JsonTextSpec] and [SerdeSpec], the theorems of the development depend on this
    file only through the parameters it is an instance of ([Json], [Serialize],
    [Deserialize]). *)

From stdpp Require Import base strings list.
From Stdlib Require Import ZArith Ascii.
From S2P Require Import Prelude RustStd Event Trigger.

(* The values nest in lists on purpose. *)
Set Warnings "-register-all".

Inductive json :=
| JNull
| JBool (b : bool)
| JNumber (text : string)
| JString (s : string)
| JArray (items : list json)
| JObject (fields : list (string * json)).

Definition ch (c : ascii) : byte := byte_of_ascii c.
Definition dquote : byte := Byte.x22.
Definition backslash : byte := Byte.x5c.

(** ** Reading *)

Definition is_space (b : byte) : bool := bool_decide (b ∈ [Byte.x20; Byte.x09; Byte.x0a; Byte.x0d]).
Definition is_digit (b : byte) : bool := between 48 57 (u8 b).
Definition is_number_byte (b : byte) : bool := is_digit b || bool_decide (b ∈ [ch "+"; ch "-"; ch "."; ch "e"; ch "E"]).

Fixpoint skip_spaces (s : bytes) : bytes :=
  match s with
  | b :: s' => if is_space b then skip_spaces s' else s
  | [] => []
  end.

(** The longest prefix of such bytes, and the rest. *)
Fixpoint run_of (p : byte → bool) (s : bytes) : bytes * bytes :=
  match s with
  | b :: s' => if p b then let '(run, rest) := run_of p s' in (b :: run, rest) else ([], s)
  | [] => ([], [])
  end.

Fixpoint strip (prefix s : bytes) : option bytes :=
  match prefix, s with
  | [], s => Some s
  | b :: prefix, c :: s => if bool_decide (b = c) then strip prefix s else None
  | _, [] => None
  end.

(** [token c s]: the text after [c], which must come next. *)
Definition token (c : byte) (s : bytes) : option bytes := strip [c] (skip_spaces s).

(** *** Numbers: an optional sign, digits without a leading zero, an optional
    fraction and an optional exponent *)

Definition some_digits (s : bytes) : option bytes :=
  match run_of is_digit s with ([], _) => None | (_, rest) => Some rest end.

Definition optional (c : byte) (s : bytes) : bytes := default s (strip [c] s).

Definition number_exponent (s : bytes) : option bytes :=
  match s with
  | b :: rest =>
    if bool_decide (b ∈ [ch "e"; ch "E"]) then
      some_digits (match strip [ch "+"] rest with Some rest => rest | None => optional (ch "-") rest end)
    else Some s
  | [] => Some []
  end.

Definition number_fraction (s : bytes) : option bytes :=
  match strip [ch "."] s with Some s => some_digits s | None => Some s end.

Definition number_integer (s : bytes) : option bytes :=
  match strip [ch "0"] s with Some s => Some s | None => some_digits s end.

Definition is_number (s : bytes) : bool :=
  match (rest ← number_integer (optional (ch "-") s); rest ← number_fraction rest; number_exponent rest) with
  | Some [] => true
  | _ => false
  end.

Definition read_number (s : bytes) : option (json * bytes) :=
  let '(text, rest) := run_of is_number_byte s in
  if is_number text then Some (JNumber (of_bytes text), rest) else None.

(** *** Strings *)

Definition read_hex4 (s : bytes) : option (Z * bytes) :=
  match s with
  | a :: b :: c :: d :: s =>
    a ← hex_value a; b ← hex_value b; c ← hex_value c; d ← hex_value d;
    Some (((a * 16 + b) * 16 + c) * 16 + d, s)%Z
  | _ => None
  end.

(** What follows a backslash. A code above the basic plane is written as two
    surrogates; a surrogate alone is an error. *)
Definition read_unicode (s : bytes) : option (bytes * bytes) :=
  '(high, s) ← read_hex4 s;
  if between 55296 56319 high then
    s ← strip [backslash; ch "u"] s;
    '(low, s) ← read_hex4 s;
    if between 56320 57343 low
    then Some (utf8_encode_char (65536 + (high - 55296) * 1024 + (low - 56320))%Z, s) else None
  else if between 56320 57343 high then None
  else Some (utf8_encode_char high, s).

Definition read_escape (s : bytes) : option (bytes * bytes) :=
  match s with
  | [] => None
  | b :: s =>
    if bool_decide (b ∈ [dquote; backslash; ch "/"]) then Some ([b], s)
    else if bool_decide (b = ch "b") then Some ([Byte.x08], s)
    else if bool_decide (b = ch "f") then Some ([Byte.x0c], s)
    else if bool_decide (b = ch "n") then Some ([Byte.x0a], s)
    else if bool_decide (b = ch "r") then Some ([Byte.x0d], s)
    else if bool_decide (b = ch "t") then Some ([Byte.x09], s)
    else if bool_decide (b = ch "u") then read_unicode s
    else None
  end.

(** The rest of a string, after its opening quote. *)
Fixpoint read_chars (fuel : nat) (s : bytes) : option (bytes * bytes) :=
  match fuel, s with
  | S fuel, b :: s =>
    if bool_decide (b = dquote) then Some ([], s)
    else if bool_decide (b = backslash) then
      '(c, s) ← read_escape s; '(t, s) ← read_chars fuel s; Some (c ++ t, s)
    else if (u8 b <? 32)%Z then None
    else '(t, s) ← read_chars fuel s; Some (b :: t, s)
  | _, _ => None
  end.

(** *** Values *)

(** Items separated by commas, up to the closing character; at least one. *)
Fixpoint read_items {A} (item : bytes → option (A * bytes)) (close : byte) (fuel : nat) (s : bytes)
    : option (list A * bytes) :=
  match fuel with
  | O => None
  | S fuel =>
    '(x, s) ← item s;
    match token (ch ",") s with
    | Some s => '(xs, s) ← read_items item close fuel s; Some (x :: xs, s)
    | None => s ← token close s; Some ([x], s)
    end
  end.

Definition read_list {A} (item : bytes → option (A * bytes)) (close : byte) (fuel : nat) (s : bytes)
    : option (list A * bytes) :=
  match token close s with
  | Some s => Some ([], s)
  | None => read_items item close fuel s
  end.

Definition read_literal (s : bytes) : option (json * bytes) :=
  match strip (as_bytes "true") s, strip (as_bytes "false") s, strip (as_bytes "null") s with
  | Some s, _, _ => Some (JBool true, s)
  | _, Some s, _ => Some (JBool false, s)
  | _, _, Some s => Some (JNull, s)
  | _, _, _ => None
  end.

(** A field of an object, given the reader of values. *)
Definition read_field (fuel : nat) (value : bytes → option (json * bytes)) (s : bytes)
    : option ((string * json) * bytes) :=
  s ← token dquote s; '(key, s) ← read_chars fuel s; s ← token (ch ":") s;
  '(v, s) ← value s; Some ((of_bytes key, v), s).

Fixpoint read_value (fuel : nat) (s : bytes) : option (json * bytes) :=
  match fuel with
  | O => None
  | S fuel =>
    match skip_spaces s with
    | [] => None
    | b :: rest =>
      if bool_decide (b = dquote) then '(t, s) ← read_chars fuel rest; Some (JString (of_bytes t), s)
      else if bool_decide (b = ch "[") then
        '(items, s) ← read_list (read_value fuel) (ch "]") fuel rest; Some (JArray items, s)
      else if bool_decide (b = ch "{") then
        '(fields, s) ← read_list (read_field fuel (read_value fuel)) (ch "}") fuel rest; Some (JObject fields, s)
      else if is_number_byte b then read_number (b :: rest)
      else read_literal (b :: rest)
    end
  end.

(** [from_slice] and [from_str]: the whole text is one value. *)
Definition read_json (b : bytes) : result string json :=
  if negb (is_utf8 b) then Err "invalid unicode code point" else
  match read_value (S (length b)) b with
  | Some (v, rest) => if bool_decide (skip_spaces rest = []) then Ok v else Err "trailing characters"
  | None => Err "expected value"
  end.

(** ** Writing *)

(** [format_escaped_str]: control characters, quotes and backslashes. *)
Definition write_char (b : byte) : bytes :=
  if bool_decide (b ∈ [dquote; backslash]) then [backslash; b]
  else if (u8 b <? 32)%Z then
    if bool_decide (b = Byte.x08) then [backslash; ch "b"]
    else if bool_decide (b = Byte.x09) then [backslash; ch "t"]
    else if bool_decide (b = Byte.x0a) then [backslash; ch "n"]
    else if bool_decide (b = Byte.x0c) then [backslash; ch "f"]
    else if bool_decide (b = Byte.x0d) then [backslash; ch "r"]
    else [backslash; ch "u"; ch "0"; ch "0"; hex_digit (u8 b / 16); hex_digit (u8 b mod 16)]
  else [b].

Definition write_string (s : string) : bytes := dquote :: (as_bytes s ≫= write_char) ++ [dquote].

(** The items with commas in between. *)
Fixpoint comma_separated (items : list bytes) : bytes :=
  match items with
  | [] => []
  | [item] => item
  | item :: items => item ++ ch "," :: comma_separated items
  end.

Fixpoint write_json (v : json) : bytes :=
  match v with
  | JNull => as_bytes "null"
  | JBool b => as_bytes (if b then "true" else "false")
  | JNumber text => as_bytes text
  | JString s => write_string s
  | JArray items => ch "[" :: comma_separated (map write_json items) ++ [ch "]"]
  | JObject fields =>
    ch "{" :: comma_separated (map (λ f, write_string f.1 ++ ch ":" :: write_json f.2) fields) ++ [ch "}"]
  end.

(** ** Looking inside *)

Definition field (key : string) (fields : list (string * json)) : option json :=
  snd <$> List.find (λ f, bool_decide (f.1 = key)) fields.

(** The reference tokens of a JSON pointer (RFC 6901), without the escapes. *)
Fixpoint split_tokens (s current : string) : list string :=
  match s with
  | EmptyString => [current]
  | String "/" s => current :: split_tokens s EmptyString
  | String c s => split_tokens s (current +:+ String c EmptyString)
  end.

Fixpoint follow (v : json) (tokens : list string) : option json :=
  match tokens with
  | [] => Some v
  | t :: tokens =>
    match v with
    | JObject fields => v ← field t fields; follow v tokens
    | JArray items => n ← parse_u64 t; v ← items !! Z.to_nat n; follow v tokens
    | _ => None
    end
  end.

Definition json_pointer (v : json) (p : string) : option json :=
  match p with
  | EmptyString => Some v
  | String "/" p => follow v (split_tokens p EmptyString)
  | _ => None
  end.

(** Equality of values: the fields of an object are in no order. *)
Fixpoint json_eqb (a b : json) : bool :=
  match a, b with
  | JNull, JNull => true
  | JBool a, JBool b => Bool.eqb a b
  | JNumber a, JNumber b | JString a, JString b => bool_decide (a = b)
  | JArray a, JArray b =>
    (fix items a b := match a, b with
                      | [], [] => true
                      | x :: a, y :: b => json_eqb x y && items a b
                      | _, _ => false
                      end) a b
  | JObject a, JObject b =>
    (length a =? length b)%nat &&
    (fix fields a := match a with
                     | [] => true
                     | (k, x) :: a => match field k b with Some y => json_eqb x y | None => false end && fields a
                     end) a
  | _, _ => false
  end.

Definition text_Json : Json := {|
  Value := json;
  from_slice := read_json;
  pointer := json_pointer;
  value_eqb := json_eqb;
|}.
