(* ===== verification/JsonTextSpec.v ===== *)
(** * What the JSON texts guarantee

    Reading what was written gives the value back; the written text of anything
    but a number is delimited: none of its proper prefixes is a document; and it
    is one line of printable characters. *)

From stdpp Require Import base strings list.
From Stdlib Require Import ZArith Ascii Lia.
From S2P Require Import Prelude RustStd Event Trigger JsonText.

Implicit Types (s t r : bytes) (b c : byte) (v : json) (fuel : nat).

(** ** Runs and tokens *)

Lemma run_of_app p s run rest :
  run_of p s = (run, rest) → s = run ++ rest ∧ Forall (λ b, p b = true) run ∧ (∀ b r, rest = b :: r → p b = false).
Proof.
  revert run rest. induction s as [|b s IH]; intros run rest; simpl; [by intros [= <- <-]|].
  destruct (p b) eqn:Hb; [|by intros [= <- <-]; split; [done|split; [done|intros ?? [= <- _]]]].
  destruct (run_of p s) as [run' rest'] eqn:Hr. intros [= <- <-].
  destruct (IH _ _ eq_refl) as (-> & Hf & Hn). split; [done|]. split; [by constructor|done].
Qed.

(** A run that ends inside the text, or at its end with something else after it. *)
Lemma run_of_more p s run rest t :
  run_of p s = (run, rest) → rest ≠ [] ∨ (∀ b r, t = b :: r → p b = false) →
  run_of p (s ++ t) = (run, rest ++ t).
Proof.
  revert run rest. induction s as [|b s IH]; intros run rest; simpl.
  - intros [= <- <-] [?|Ht]; [done|]. destruct t as [|b t]; [done|]. simpl. by rewrite (Ht b t).
  - destruct (p b) eqn:Hb; [|by intros [= <- <-]].
    destruct (run_of p s) as [run' rest'] eqn:Hr. intros [= <- <-] Hc. by rewrite (IH _ _ eq_refl Hc).
Qed.

Lemma run_of_all p s t :
  Forall (λ b, p b = true) s → (∀ b r, t = b :: r → p b = false) → run_of p (s ++ t) = (s, t).
Proof.
  intros Hs Ht. induction Hs as [|b s Hb _ IH]; simpl; [|by rewrite Hb, IH].
  destruct t as [|b t]; [done|]. simpl. by rewrite (Ht b t).
Qed.

Lemma strip_Some prefix s r : strip prefix s = Some r ↔ s = prefix ++ r.
Proof.
  revert s. induction prefix as [|b prefix IH]; intros s; simpl; [naive_solver|].
  destruct s as [|c s]; [naive_solver|]. case_bool_decide; [subst; rewrite IH; naive_solver|naive_solver].
Qed.

Lemma strip_more prefix s r t : strip prefix s = Some r → strip prefix (s ++ t) = Some (r ++ t).
Proof. rewrite !strip_Some. intros ->. by rewrite app_assoc. Qed.

Lemma skip_spaces_more s t : skip_spaces s ≠ [] → skip_spaces (s ++ t) = skip_spaces s ++ t.
Proof. induction s as [|b s IH]; simpl; [done|]. by destruct (is_space b). Qed.

Lemma skip_spaces_head b s : is_space b = false → skip_spaces (b :: s) = b :: s.
Proof. simpl. by intros ->. Qed.

Lemma skip_spaces_not_space s b r : skip_spaces s = b :: r → is_space b = false.
Proof. induction s as [|c s IH]; simpl; [done|]. destruct (is_space c) eqn:Hc; [done|]. by intros [= <- _]. Qed.

Lemma token_more c s r t : token c s = Some r → token c (s ++ t) = Some (r ++ t).
Proof.
  unfold token. intros Hs. rewrite skip_spaces_more; [by apply strip_more|]. intros Hn. by rewrite Hn in Hs.
Qed.

Lemma token_None_more c s t : token c s = None → skip_spaces s ≠ [] → token c (s ++ t) = None.
Proof.
  unfold token. intros Hc Hn. rewrite skip_spaces_more by done.
  destruct (skip_spaces s) as [|b s']; [done|]. simpl in *. by destruct (bool_decide (c = b)).
Qed.

Lemma token_nonempty c s r : token c s = Some r → skip_spaces s ≠ [] ∧ s ≠ [].
Proof. unfold token. intros Hc. split; intros Hn; by rewrite Hn in Hc. Qed.

Lemma token_head c s : is_space c = false → token c (c :: s) = Some s.
Proof. intros Hc. unfold token. rewrite skip_spaces_head by done. simpl. by case_bool_decide. Qed.

Lemma token_not_head c b s : is_space b = false → b ≠ c → token c (b :: s) = None.
Proof. intros Hb Hne. unfold token. rewrite skip_spaces_head by done. simpl. by case_bool_decide. Qed.

(** ** More text and more fuel *)

#[local] Arguments ch : simpl never.
#[local] Arguments strip : simpl never.
#[local] Arguments token : simpl never.

Lemma read_hex4_more s n r t : read_hex4 s = Some (n, r) → read_hex4 (s ++ t) = Some (n, r ++ t).
Proof.
  destruct s as [|a [|b [|c [|d s]]]]; try done. simpl.
  destruct (hex_value a), (hex_value b), (hex_value c), (hex_value d); try done. simpl. by intros [= <- <-].
Qed.

#[local] Arguments read_hex4 : simpl never.

Lemma read_unicode_more s x r t : read_unicode s = Some (x, r) → read_unicode (s ++ t) = Some (x, r ++ t).
Proof.
  unfold read_unicode. destruct (read_hex4 s) as [[n s1]|] eqn:H1; [|done]. simpl.
  rewrite (read_hex4_more _ _ _ _ H1). simpl. destruct (between 55296 56319 n).
  - destruct (strip [backslash; ch "u"] s1) as [s2|] eqn:H2; [|done]. rewrite (strip_more _ _ _ _ H2). simpl.
    destruct (read_hex4 s2) as [[m s3]|] eqn:H3; [|done]. rewrite (read_hex4_more _ _ _ _ H3). simpl.
    destruct (between 56320 57343 m); [|done]. by intros [= <- <-].
  - destruct (between 56320 57343 n); [done|]. by intros [= <- <-].
Qed.

Lemma read_escape_more s x r t : read_escape s = Some (x, r) → read_escape (s ++ t) = Some (x, r ++ t).
Proof.
  destruct s as [|b s]; [done|]. simpl.
  repeat case_bool_decide; first [by intros [= <- <-]|by apply read_unicode_more|done].
Qed.

Lemma read_chars_more fuel fuel' s x r t :
  (fuel ≤ fuel')%nat → read_chars fuel s = Some (x, r) → read_chars fuel' (s ++ t) = Some (x, r ++ t).
Proof.
  revert fuel' s x r. induction fuel as [|fuel IH]; intros [|fuel'] s x r Hle; try done; try lia.
  destruct s as [|b s]; [done|]. simpl. case_bool_decide; [by intros [= <- <-]|].
  case_bool_decide.
  - destruct (read_escape s) as [[c s1]|] eqn:He; [|done]. rewrite (read_escape_more _ _ _ _ He). simpl.
    destruct (read_chars fuel s1) as [[y s2]|] eqn:Hc; [|done]. rewrite (IH fuel' _ _ _ ltac:(lia) Hc). simpl.
    by intros [= <- <-].
  - destruct (u8 b <? 32)%Z; [done|].
    destruct (read_chars fuel s) as [[y s2]|] eqn:Hc; [|done]. rewrite (IH fuel' _ _ _ ltac:(lia) Hc). simpl.
    by intros [= <- <-].
Qed.

Definition is_JNumber v : bool := match v with JNumber _ => true | _ => false end.

Lemma read_number_more s v r t :
  read_number s = Some (v, r) → r ≠ [] → read_number (s ++ t) = Some (v, r ++ t).
Proof.
  unfold read_number. destruct (run_of is_number_byte s) as [run rest] eqn:Hr.
  destruct (is_number run) eqn:Hn; [|done]. intros [= <- <-] Hne.
  rewrite (run_of_more _ _ _ _ t Hr) by (by left). by rewrite Hn.
Qed.

Lemma read_number_is s v r : read_number s = Some (v, r) → is_JNumber v = true.
Proof. unfold read_number. destruct (run_of _ s) as [run rest]. destruct (is_number run); [|done]. by intros [= <- _]. Qed.

Lemma read_literal_spec s v r :
  read_literal s = Some (v, r) ↔
  (v = JBool true ∧ s = as_bytes "true" ++ r) ∨ (v = JBool false ∧ s = as_bytes "false" ++ r) ∨
  (v = JNull ∧ s = as_bytes "null" ++ r).
Proof.
  unfold read_literal. split.
  - destruct (strip (as_bytes "true") s) eqn:H1; [intros [= <- <-]; left; split; [done|by apply strip_Some]|].
    destruct (strip (as_bytes "false") s) eqn:H2; [intros [= <- <-]; right; left; split; [done|by apply strip_Some]|].
    destruct (strip (as_bytes "null") s) eqn:H3; [|done]. intros [= <- <-]. right; right. split; [done|by apply strip_Some].
  - by intros [[-> ->]|[[-> ->]|[-> ->]]].
Qed.

Lemma read_literal_more s v r t : read_literal s = Some (v, r) → read_literal (s ++ t) = Some (v, r ++ t).
Proof. rewrite !read_literal_spec. intros [[-> ->]|[[-> ->]|[-> ->]]]; rewrite <-app_assoc; eauto 6. Qed.

(** The readers of sequences, for items that are read in the same way when
    more text follows what they leave. *)
Section items_more.
Context {A : Type} (item item' : bytes → option (A * bytes)) (close : byte) (t : bytes).
Hypothesis item_more : ∀ s x r, item s = Some (x, r) → r ≠ [] → item' (s ++ t) = Some (x, r ++ t).
Hypothesis item_nonempty : ∀ s x r, item s = Some (x, r) → skip_spaces s ≠ [].

Lemma read_items_more fuel fuel' s xs r :
  (fuel ≤ fuel')%nat → read_items item close fuel s = Some (xs, r) →
  read_items item' close fuel' (s ++ t) = Some (xs, r ++ t).
Proof.
  revert fuel' s xs r. induction fuel as [|fuel IH]; intros [|fuel'] s xs r Hle; try done; try lia. simpl.
  destruct (item s) as [[x s1]|] eqn:Hi; [|done]. simpl.
  destruct (token (ch ",") s1) as [s2|] eqn:Hc.
  - rewrite (item_more _ _ _ Hi) by apply (token_nonempty _ _ _ Hc). simpl. rewrite (token_more _ _ _ _ Hc).
    destruct (read_items item close fuel s2) as [[ys s3]|] eqn:Hr; [|done].
    rewrite (IH fuel' _ _ _ ltac:(lia) Hr). simpl. by intros [= <- <-].
  - destruct (token close s1) as [s2|] eqn:Hd; [|done]. intros [= <- <-].
    destruct (token_nonempty _ _ _ Hd). rewrite (item_more _ _ _ Hi) by done. simpl.
    by rewrite (token_None_more _ _ _ Hc), (token_more _ _ _ _ Hd) by done.
Qed.

Lemma read_list_more fuel fuel' s xs r :
  (fuel ≤ fuel')%nat → read_list item close fuel s = Some (xs, r) →
  read_list item' close fuel' (s ++ t) = Some (xs, r ++ t).
Proof.
  unfold read_list. intros Hle. destruct (token close s) as [s1|] eqn:Hc.
  - intros [= <- <-]. by rewrite (token_more _ _ _ _ Hc).
  - intros Hr. rewrite (token_None_more _ _ _ Hc); [by eapply read_items_more|].
    destruct fuel; [done|]. simpl in Hr. destruct (item s) as [[x s1]|] eqn:Hi; [|done]. by eapply item_nonempty.
Qed.
End items_more.

(** A value that is not a number, or that has something after it, is read in the
    same way when more text follows. *)
Lemma read_value_more fuel fuel' s v r t :
  (fuel ≤ fuel')%nat → read_value fuel s = Some (v, r) → r ≠ [] ∨ is_JNumber v = false →
  read_value fuel' (s ++ t) = Some (v, r ++ t).
Proof.
  revert fuel' s v r. induction fuel as [|fuel IH]; intros [|fuel'] s v r Hle; try done; try lia. simpl.
  destruct (skip_spaces s) as [|b rest] eqn:Hs; [done|].
  rewrite skip_spaces_more by (by rewrite Hs). rewrite Hs. simpl. intros Hv Hc.
  assert (∀ s v r, read_value fuel s = Some (v, r) → r ≠ [] → read_value fuel' (s ++ t) = Some (v, r ++ t)) as Hval
    by (intros; apply IH; [lia|done|by left]).
  assert (∀ s v r, read_value fuel s = Some (v, r) → skip_spaces s ≠ []) as Hne.
  { intros s' v' r'. destruct fuel; [done|]. simpl. by destruct (skip_spaces s'). }
  case_bool_decide.
  { destruct (read_chars fuel rest) as [[x s1]|] eqn:Hx; [|done].
    rewrite (read_chars_more fuel fuel' _ _ _ t ltac:(lia) Hx). simpl in *. by injection Hv as <- <-. }
  case_bool_decide.
  { destruct (read_list (read_value fuel) _ _ rest) as [[xs s1]|] eqn:Hx; [|done].
    rewrite (read_list_more _ _ _ _ Hval Hne fuel fuel' _ _ _ ltac:(lia) Hx). simpl in *. by injection Hv as <- <-. }
  case_bool_decide.
  { destruct (read_list (read_field fuel (read_value fuel)) _ _ rest) as [[xs s1]|] eqn:Hx; [|done].
    erewrite read_list_more; [|..|exact Hx]; [simpl in *; by injection Hv as <- <-| | |lia].
    - intros s' [key x] r'. unfold read_field. destruct (token dquote s') as [s2|] eqn:H2; [|done].
      rewrite (token_more _ _ _ _ H2). simpl. destruct (read_chars fuel s2) as [[k s3]|] eqn:H3; [|done].
      rewrite (read_chars_more fuel fuel' _ _ _ t ltac:(lia) H3). simpl.
      destruct (token (ch ":") s3) as [s4|] eqn:H4; [|done]. rewrite (token_more _ _ _ _ H4). simpl.
      destruct (read_value fuel s4) as [[y s5]|] eqn:H5; [|done]. simpl. intros [= <- <- <-] Hr.
      by rewrite (Hval _ _ _ H5).
    - intros s' x r'. unfold read_field. destruct (token dquote s') as [s2|] eqn:H2; [|done]. intros _.
      by apply (token_nonempty _ _ _ H2). }
  destruct (is_number_byte b).
  - destruct Hc as [Hc|Hc]; [by apply (read_number_more (b :: rest))|]. by apply read_number_is in Hv; rewrite Hv in Hc.
  - by apply (read_literal_more (b :: rest)).
Qed.

(** ** No proper prefix of a delimited text is a document *)

Lemma read_value_number fuel s v r b rest :
  read_value fuel s = Some (v, r) → skip_spaces s = b :: rest → is_JNumber v = is_number_byte b.
Proof.
  destruct fuel as [|fuel]; [done|]. simpl. intros Hv Hs. rewrite Hs in Hv. repeat case_bool_decide; subst; simpl in *.
  - destruct (read_chars fuel rest) as [[x s1]|]; [|done]. by injection Hv as <- _.
  - destruct (read_list _ _ _ rest) as [[x s1]|]; [|done]. by injection Hv as <- _.
  - destruct (read_list _ _ _ rest) as [[x s1]|]; [|done]. by injection Hv as <- _.
  - destruct (is_number_byte b); [by eapply read_number_is|].
    by apply read_literal_spec in Hv as [[-> _]|[[-> _]|[-> _]]].
Qed.

Lemma read_json_prefix s v p :
  read_value (S (length s)) s = Some (v, []) → is_JNumber v = false → p `prefix_of` s → p ≠ s →
  ∃ e, read_json p = Err e.
Proof.
  intros Hs Hv [t ->] Hne. unfold read_json. destruct (negb (is_utf8 p)); [by eexists|].
  destruct (read_value (S (length p)) p) as [[v' r]|] eqn:Hp; [|by eexists]. case_bool_decide as Hr; [|by eexists].
  exfalso. assert (is_JNumber v' = false) as Hv'.
  { destruct (skip_spaces p) as [|b rest] eqn:Hsp; [simpl in Hp; by rewrite Hsp in Hp|].
    rewrite (read_value_number _ _ _ _ _ _ Hp Hsp).
    rewrite <-(read_value_number _ _ _ _ b (rest ++ t) Hs); [done|]. rewrite skip_spaces_more; by rewrite Hsp. }
  eapply (read_value_more _ (S (length (p ++ t)))) in Hp; [|rewrite length_app; lia|by right].
  rewrite Hs in Hp. injection Hp as _ Hp. symmetry in Hp. apply app_eq_nil in Hp as [_ ->]. by rewrite app_nil_r in Hne.
Qed.

(** ** Reading what was written *)

(** Every number is a JSON number. *)
Fixpoint json_ok (v : json) : bool :=
  match v with
  | JNumber text => is_number (as_bytes text)
  | JArray items => forallb json_ok items
  | JObject fields => forallb (λ f, json_ok f.2) fields
  | _ => true
  end.

(** Induction through the items and the fields. *)
Lemma json_nested_ind (P : json → Prop) :
  P JNull → (∀ flag, P (JBool flag)) → (∀ text, P (JNumber text)) → (∀ str, P (JString str)) →
  (∀ items, Forall P items → P (JArray items)) →
  (∀ fields : list (string * json), Forall (λ f, P f.2) fields → P (JObject fields)) → ∀ v, P v.
Proof.
  intros Hnull Hbool Hnum Hstr Harr Hobj. fix IH 1. intros [|flag|text|str|items|fields]; [done|apply Hbool|apply Hnum|apply Hstr|..].
  - apply Harr. induction items as [|v items IHi]; [constructor|]. constructor; [apply IH|apply IHi].
  - apply Hobj. induction fields as [|[k v] fields IHf]; [constructor|]. constructor; [apply IH|apply IHf].
Qed.

(** *** Numbers *)

Lemma some_digits_app s r :
  some_digits s = Some r → ∃ d, s = d ++ r ∧ Forall (λ b, is_number_byte b = true) d ∧ d ≠ [].
Proof.
  unfold some_digits. destruct (run_of is_digit s) as [run rest] eqn:Hr. apply run_of_app in Hr as (-> & Hd & _).
  destruct run as [|b run]; [done|]. intros [= <-]. eexists. split; [done|]. split; [|done].
  eapply Forall_impl; [exact Hd|]. intros c Hc. unfold is_number_byte. simpl in Hc. by rewrite Hc.
Qed.

Lemma optional_app c s : is_number_byte c = true → ∃ d, s = d ++ optional c s ∧ Forall (λ b, is_number_byte b = true) d.
Proof.
  intros Hc. unfold optional. destruct (strip [c] s) as [r|] eqn:Hs; simpl; [|by exists []].
  apply strip_Some in Hs as ->. exists [c]. split; [done|by repeat constructor].
Qed.

Lemma is_number_bytes s : is_number s = true → Forall (λ b, is_number_byte b = true) s ∧ s ≠ [].
Proof.
  unfold is_number. destruct (optional_app (ch "-") s eq_refl) as (d0 & Hs & H0). rewrite Hs at 2 3.
  generalize (optional (ch "-") s). clear s Hs. intros s. unfold number_integer, number_fraction, number_exponent.
  assert (∀ s s1, match strip [ch "0"] s with Some s => Some s | None => some_digits s end = Some s1 →
    ∃ d, s = d ++ s1 ∧ Forall (λ b, is_number_byte b = true) d ∧ d ≠ []) as Hi.
  { clear. intros s s1. destruct (strip [ch "0"] s) eqn:Hs; [|by apply some_digits_app].
    intros [= <-]. apply strip_Some in Hs as ->. exists [ch "0"]. split; [done|]. split; [by repeat constructor|done]. }
  destruct (match strip [ch "0"] s with Some s => Some s | None => some_digits s end) as [s1|] eqn:H1; [|done].
  destruct (Hi _ _ H1) as (d1 & -> & Hd1 & Hne). simpl.
  assert (∃ d, ∀ s2, match strip [ch "."] s1 with Some s => some_digits s | None => Some s1 end = Some s2 →
    s1 = d ++ s2 ∧ Forall (λ b, is_number_byte b = true) d) as [d2 Hf].
  { clear. destruct (strip [ch "."] s1) as [s'|] eqn:Hs; [|exists []; by intros s2 [= <-]].
    apply strip_Some in Hs as ->. destruct (some_digits s') as [s2|] eqn:Hd; [|by exists []].
    apply some_digits_app in Hd as (d & -> & Hd & _). exists (ch "." :: d). intros s3 [= <-]. split; [done|by constructor]. }
  destruct (match strip [ch "."] s1 with Some s => some_digits s | None => Some s1 end) as [s2|] eqn:H2; [|done].
  destruct (Hf _ eq_refl) as [-> Hd2]. simpl.
  assert (∀ d3, Forall (λ b, is_number_byte b = true) d3 →
    Forall (λ b, is_number_byte b = true) (d0 ++ d1 ++ d2 ++ d3) ∧ d0 ++ d1 ++ d2 ++ d3 ≠ []) as Hall.
  { intros d3 Hd3. split; [by repeat apply Forall_app_2|]. destruct d1; [done|]. by destruct d0. }
  destruct s2 as [|b s2]; [intros _; apply Hall; constructor|]. case_bool_decide as Hb; [|done].
  set (s3 := match strip [ch "+"] s2 with Some s => s | None => optional (ch "-") s2 end).
  assert (∃ d, s2 = d ++ s3 ∧ Forall (λ b, is_number_byte b = true) d) as (d & Hs2 & Hd).
  { subst s3. destruct (strip [ch "+"] s2) as [r|] eqn:Hs; [|by apply optional_app].
    apply strip_Some in Hs as ->. exists [ch "+"]. split; [done|by repeat constructor]. }
  destruct (some_digits s3) as [[|]|] eqn:H3; try done. apply some_digits_app in H3 as (d3 & Hs3 & Hd3 & _).
  intros _. apply Hall. rewrite Hs2, Hs3, app_nil_r. constructor; [|by apply Forall_app_2].
  apply elem_of_cons in Hb as [->|Hb]; [done|]. by apply list_elem_of_singleton in Hb as ->.
Qed.

(** *** Strings *)

Lemma read_write_char fuel b s :
  read_chars (S fuel) (write_char b ++ s) = ('(t, r) ← read_chars fuel s; Some (b :: t, r)).
Proof. destruct b; reflexivity. Qed.

Lemma read_write_chars fuel s rest :
  (length s < fuel)%nat → read_chars fuel ((s ≫= write_char) ++ dquote :: rest) = Some (s, rest).
Proof.
  revert fuel. induction s as [|b s IH]; intros [|fuel] Hf; simpl in Hf; try lia; [done|].
  change ((b :: s) ≫= write_char) with (write_char b ++ (s ≫= write_char)).
  by rewrite <-app_assoc, read_write_char, IH by lia.
Qed.

Lemma write_char_printable b : Forall (λ x, (32 <= u8 x)%Z) (write_char b) ∧ write_char b ≠ [].
Proof. destruct b; vm_compute; split; try done; repeat constructor; discriminate. Qed.

Lemma write_chars_length s : (length s ≤ length (s ≫= write_char))%nat.
Proof.
  induction s as [|b s IH]; [done|]. change ((b :: s) ≫= write_char) with (write_char b ++ (s ≫= write_char)).
  rewrite length_app. destruct (write_char_printable b) as [_ Hne]. destruct (write_char b); [done|]. simpl. lia.
Qed.

(** *** Sequences *)

Lemma comma_separated_cons item items :
  items ≠ [] → comma_separated (item :: items) = item ++ ch "," :: comma_separated items.
Proof. by destruct items. Qed.

Lemma comma_separated_length items :
  Forall (λ x, x ≠ []) items →
  (length items ≤ length (comma_separated items))%nat ∧
  ∀ x, x ∈ items → (length x ≤ length (comma_separated items))%nat.
Proof.
  induction 1 as [|x items Hx _ [IH1 IH2]]; [split; [done|by intros x Hin%not_elem_of_nil]|].
  assert (0 < length x)%nat by (destruct x; [done|simpl; lia]). destruct items as [|y items].
  - simpl. split; [lia|]. by intros z ->%list_elem_of_singleton.
  - rewrite comma_separated_cons, length_app by done. cbn [length] in *. split; [lia|].
    intros z [->|Hz]%elem_of_cons; [lia|]. specialize (IH2 z Hz). lia.
Qed.

Section items_write.
Context {A : Type} (item : bytes → option (A * bytes)) (write : A → bytes) (close : byte).
Hypothesis close_space : is_space close = false.
Hypothesis close_comma : ch "," ≠ close.

(** An item is read back, whatever comes after the separator. *)
Definition item_reads (x : A) : Prop :=
  ∀ c r, c = ch "," ∨ c = close → item (write x ++ c :: r) = Some (x, c :: r).

(** Its text does not start like the end of the sequence. *)
Definition item_starts (x : A) : Prop := ∃ b r, write x = b :: r ∧ is_space b = false ∧ b ≠ close.

Lemma read_items_write fuel xs rest :
  xs ≠ [] → (length xs ≤ fuel)%nat → Forall item_reads xs →
  read_items item close fuel (comma_separated (map write xs) ++ close :: rest) = Some (xs, rest).
Proof.
  intros Hne Hf Hr. revert fuel Hf. induction Hr as [|x xs Hx _ IH]; intros fuel Hf; [done|].
  destruct fuel as [|fuel]; [simpl in Hf; lia|]. cbn [read_items map]. destruct xs as [|y xs].
  - simpl. rewrite Hx by auto. simpl. rewrite token_not_head by done. by rewrite token_head.
  - rewrite comma_separated_cons, <-app_assoc by done. rewrite <-app_comm_cons, Hx by auto.
    cbn [mbind option_bind]. rewrite token_head by done. change (write y :: map write xs) with (map write (y :: xs)).
    rewrite IH by (done || simpl in *; lia). done.
Qed.

Lemma read_list_write fuel xs rest :
  (length xs ≤ fuel)%nat → Forall item_reads xs → Forall item_starts xs →
  read_list item close fuel (comma_separated (map write xs) ++ close :: rest) = Some (xs, rest).
Proof.
  intros Hf Hr Hs. unfold read_list. destruct xs as [|x xs]; [cbn [map comma_separated app]; by rewrite token_head|].
  assert (∃ b r, comma_separated (map write (x :: xs)) = b :: r ∧ is_space b = false ∧ b ≠ close) as (b & r & Hb & Hsp & Hbc).
  { apply Forall_cons in Hs as [(b & r & Hb & Hsp & Hbc) _]. destruct xs as [|y xs]; simpl; rewrite Hb; eauto. }
  rewrite Hb. rewrite <-app_comm_cons, token_not_head by done. rewrite app_comm_cons, <-Hb. by apply read_items_write.
Qed.
End items_write.

(** *** Values *)

Lemma forallb_elem {A} (f : A → bool) l x : forallb f l = true → x ∈ l → f x = true.
Proof. rewrite List.forallb_forall. intros Hf Hx. by apply Hf, list_elem_of_In. Qed.

(** The first byte of a written value. *)
Lemma write_json_head v :
  json_ok v = true → ∃ b r, write_json v = b :: r ∧ (33 <= u8 b < 127)%Z ∧ is_space b = false ∧ b ≠ ch "]" ∧
    is_number_byte b = is_JNumber v.
Proof.
  intros Hok. destruct v as [|flag|text|str|items|fields]; simpl in *;
    try (eexists _, _; split; [done|]; vm_compute; split_and!; congruence).
  - destruct flag; eexists _, _; (split; [done|]; vm_compute; split_and!; congruence).
  - apply is_number_bytes in Hok as [Hb Hne]. destruct (as_bytes text) as [|b r]; [done|]. exists b, r.
    split; [done|]. apply Forall_cons in Hb as [Hb _]. clear -Hb. rewrite Hb. destruct b; try done; vm_compute; split_and!; congruence.
Qed.

Lemma separator_not_number c : c = ch "," ∨ c = ch "]" ∨ c = ch "}" → is_number_byte c = false.
Proof. by intros [->|[->| ->]]. Qed.

Lemma read_field_write fuel value k v rest :
  (length (as_bytes k) < fuel)%nat → value (write_json v ++ rest) = Some (v, rest) →
  read_field fuel value (write_string k ++ ch ":" :: write_json v ++ rest) = Some ((k, v), rest).
Proof.
  intros Hf Hv. unfold read_field, write_string. cbn [app]. rewrite token_head by done. cbn [mbind option_bind].
  rewrite <-!app_assoc. cbn [app]. rewrite read_write_chars by done. cbn [mbind option_bind].
  rewrite token_head by done. cbn [mbind option_bind]. rewrite Hv. cbn. by rewrite of_as_bytes.
Qed.

Lemma read_array_write fuel items rest :
  forallb json_ok items = true → (length (write_json (JArray items)) ≤ fuel)%nat →
  (∀ v r, v ∈ items → (length (write_json v) < fuel)%nat → (∀ b r', r = b :: r' → is_number_byte b = false) →
     read_value fuel (write_json v ++ r) = Some (v, r)) →
  read_value (S fuel) (write_json (JArray items) ++ rest) = Some (JArray items, rest).
Proof.
  cbn [write_json length]. rewrite length_app. cbn [length]. intros Hok Hf Hv.
  assert (∀ x, x ∈ items → json_ok x = true) as Hoks by (intros x; by apply forallb_elem).
  destruct (comma_separated_length (map write_json items)) as [Hl1 Hl2].
  { apply Forall_forall. intros x (y & -> & Hy)%list_elem_of_fmap. by destruct (write_json_head y (Hoks y Hy)) as (b & r & -> & _). }
  rewrite length_map in Hl1. cbn [read_value app]. rewrite skip_spaces_head by done. rewrite bool_decide_false, bool_decide_true by done.
  rewrite <-app_assoc. cbn [app]. rewrite read_list_write; [done|done|done|lia|..]; apply Forall_forall; intros x Hx.
  - intros c r Hc. apply Hv; [done| |intros b r' [= -> _]; apply separator_not_number; naive_solver].
    assert (write_json x ∈ map write_json items) as Hin by (apply list_elem_of_fmap; eauto). specialize (Hl2 _ Hin). lia.
  - destruct (write_json_head x (Hoks x Hx)) as (b & r & Hb & _ & Hsp & Hne' & _). by exists b, r.
Qed.

Lemma read_object_write fuel fields rest :
  (length (write_json (JObject fields)) ≤ fuel)%nat →
  (∀ k v r, (k, v) ∈ fields → (length (write_json v) < fuel)%nat → (∀ b r', r = b :: r' → is_number_byte b = false) →
     read_value fuel (write_json v ++ r) = Some (v, r)) →
  read_value (S fuel) (write_json (JObject fields) ++ rest) = Some (JObject fields, rest).
Proof.
  cbn [write_json length]. rewrite length_app. cbn [length].
  set (write := λ f : string * json, write_string f.1 ++ ch ":" :: write_json f.2). intros Hf Hv.
  destruct (comma_separated_length (map write fields)) as [Hl1 Hl2].
  { apply Forall_forall. by intros x (y & -> & Hy)%list_elem_of_fmap. }
  rewrite length_map in Hl1. cbn [read_value app]. rewrite skip_spaces_head by done.
  do 2 (rewrite bool_decide_false by done). rewrite bool_decide_true by done.
  rewrite <-app_assoc. cbn [app]. rewrite read_list_write; [done|done|done|lia|..]; apply Forall_forall; intros [k x] Hx;
    [|by eexists _, _].
  intros c r Hc. assert (write (k, x) ∈ map write fields) as Hin by (apply list_elem_of_fmap; eauto).
  specialize (Hl2 _ Hin). assert (length (write (k, x)) = S (length (as_bytes k ≫= write_char) + 1 + S (length (write_json x)))) as Hlen.
  { unfold write, write_string. cbn [fst snd app length]. rewrite !length_app. done. }
  pose proof (write_chars_length (as_bytes k)). unfold write. cbn [fst snd]. rewrite <-app_assoc. cbn [app].
  apply read_field_write; [lia|]. apply (Hv k); [done|lia|].
  intros b r' [= -> _]. apply separator_not_number. naive_solver.
Qed.

Lemma read_write fuel v rest :
  json_ok v = true → (length (write_json v) ≤ fuel)%nat → (∀ b r, rest = b :: r → is_number_byte b = false) →
  read_value (S fuel) (write_json v ++ rest) = Some (v, rest).
Proof.
  revert fuel rest. induction v as [|flag|text|str|items IH|fields IH] using json_nested_ind; intros fuel rest Hok Hf Hr.
  - done.
  - by destruct flag.
  - simpl in Hok. destruct (write_json_head (JNumber text) Hok) as (b & r & Hb & _ & Hsp & _ & Hnum). simpl in Hb, Hnum.
    cbn [write_json read_value]. rewrite Hb, <-app_comm_cons, skip_spaces_head by done.
    do 3 (rewrite bool_decide_false by (by intros ->)). rewrite Hnum, app_comm_cons, <-Hb.
    unfold read_number. rewrite run_of_all by (done || by apply is_number_bytes). by rewrite Hok, of_as_bytes.
  - cbn [write_json] in *. unfold write_string in *. cbn [length] in Hf. rewrite length_app in Hf. cbn [length] in Hf.
    cbn [read_value app]. rewrite skip_spaces_head, bool_decide_true, <-app_assoc by done. cbn [app].
    rewrite read_write_chars by (pose proof (write_chars_length (as_bytes str)); lia). cbn. by rewrite of_as_bytes.
  - rewrite Forall_forall in IH. apply read_array_write; [done..|]. intros v r Hv Hlen Hr'.
    destruct fuel as [|fuel]; [lia|]. apply IH; [done|by eapply forallb_elem|lia|done].
  - rewrite Forall_forall in IH. apply read_object_write; [done|]. intros k v r Hv Hlen Hr'.
    destruct fuel as [|fuel]; [lia|]. apply (IH (k, v)); [done| |cbn; lia|done].
    exact (forallb_elem (λ f, json_ok f.2) _ _ Hok Hv).
Qed.

(** ** The written text *)

Lemma comma_separated_Forall (P : byte → Prop) items :
  P (ch ",") → Forall (Forall P) items → Forall P (comma_separated items).
Proof.
  intros Hc. induction 1 as [|x items Hx Hi IH]; [constructor|]. destruct items as [|y items]; [done|].
  rewrite comma_separated_cons by done. apply Forall_app_2; [done|]. by constructor.
Qed.

Lemma write_string_printable str : Forall (λ x, (32 <= u8 x)%Z) (write_string str).
Proof.
  constructor; [by vm_compute|]. apply Forall_app_2; [|repeat constructor; by vm_compute].
  induction (as_bytes str) as [|b s IH]; [constructor|].
  change ((b :: s) ≫= write_char) with (write_char b ++ (s ≫= write_char)).
  apply Forall_app_2; [apply write_char_printable|done].
Qed.

Lemma number_printable b : is_number_byte b = true → (32 <= u8 b)%Z.
Proof. destruct b; try done; vm_compute; congruence. Qed.

Lemma write_json_printable v : json_ok v = true → Forall (λ x, (32 <= u8 x)%Z) (write_json v).
Proof.
  assert (∀ x y s, (32 <= u8 x)%Z → (32 <= u8 y)%Z → Forall (λ x, (32 <= u8 x)%Z) s → Forall (λ x, (32 <= u8 x)%Z) (x :: s ++ [y])) as Hwrap.
  { intros x y s Hx Hy Hs. constructor; [done|]. apply Forall_app_2; [done|]. by repeat constructor. }
  induction v as [|flag|text|str|items IH|fields IH] using json_nested_ind; intros Hok.
  - repeat constructor; by vm_compute.
  - destruct flag; repeat constructor; by vm_compute.
  - apply is_number_bytes in Hok as [Hok _]. eapply Forall_impl; [exact Hok|]. intros b. apply number_printable.
  - apply write_string_printable.
  - rewrite Forall_forall in IH. apply Hwrap; [by vm_compute..|]. apply comma_separated_Forall; [by vm_compute|].
    apply Forall_forall. intros x (v & -> & Hv)%list_elem_of_fmap. apply IH; [done|by eapply forallb_elem].
  - rewrite Forall_forall in IH. apply Hwrap; [by vm_compute..|]. apply comma_separated_Forall; [by vm_compute|].
    apply Forall_forall. intros x (f & -> & Hv)%list_elem_of_fmap. apply Forall_app_2; [apply write_string_printable|].
    constructor; [by vm_compute|]. apply IH; [done|exact (forallb_elem (λ f, json_ok f.2) _ _ Hok Hv)].
Qed.

(** Escaping keeps a text well-formed. *)
Lemma write_char_high b : (128 <= u8 b)%Z → write_char b = [b].
Proof. destruct b; vm_compute; congruence. Qed.

Lemma write_char_ascii b : (u8 b < 128)%Z → is_utf8 (write_char b) = true.
Proof. destruct b; vm_compute; congruence. Qed.

Lemma cont_high b : cont b = true → (128 <= u8 b)%Z.
Proof. unfold cont. rewrite between_true. lia. Qed.

Lemma second3_high b0 b1 : second3 b0 b1 = true → (128 <= u8 b1)%Z.
Proof. unfold second3, cont. repeat case_match; rewrite between_true; lia. Qed.

Lemma second4_high b0 b1 : second4 b0 b1 = true → (128 <= u8 b1)%Z.
Proof. unfold second4, cont. repeat case_match; rewrite between_true; lia. Qed.

Lemma is_utf8_Some s : is_utf8 s = true ↔ is_Some (utf8_decode s).
Proof. unfold is_utf8. destruct (utf8_decode s); split; naive_solver. Qed.

Lemma write_chars_cons b s : (b :: s) ≫= write_char = write_char b ++ (s ≫= write_char).
Proof. done. Qed.

Lemma write_chars_utf8 s : is_utf8 s = true → is_utf8 (s ≫= write_char) = true.
Proof.
  induction s as [s IH] using (well_founded_induction (Wf_nat.well_founded_ltof _ length)). unfold Wf_nat.ltof in IH.
  assert (∀ r n, (length r < length s)%nat → is_Some (cons n <$> utf8_decode r) →
    is_Some (cons n <$> utf8_decode (r ≫= write_char))) as Hrec.
  { intros r n Hl Hr. apply fmap_is_Some, is_utf8_Some, IH; [done|]. by apply fmap_is_Some, is_utf8_Some in Hr. }
  rewrite !is_utf8_Some. destruct s as [|b0 r0]; [done|].
  rewrite write_chars_cons. cbn [utf8_decode]. destruct (Z.ltb_spec (u8 b0) 128) as [Hb0|Hb0].
  { intros Hr. apply is_utf8_Some, is_utf8_app; [by apply write_char_ascii|]. apply IH; [simpl; lia|].
    by apply fmap_is_Some, is_utf8_Some in Hr. }
  rewrite write_char_high by done. destruct r0 as [|b1 r1]; [by intros []|]. rewrite write_chars_cons.
  cbn [app utf8_decode]. rewrite (proj2 (Z.ltb_ge _ _)) by done. destruct (between 194 223 (u8 b0)).
  { destruct (cont b1) eqn:H1; [|by intros []]. rewrite write_char_high by by apply cont_high. cbn [app].
    rewrite H1. apply Hrec. simpl. lia. }
  destruct r1 as [|b2 r2]; [by intros []|]. rewrite write_chars_cons. destruct (between 224 239 (u8 b0)).
  { destruct (second3 b0 b1) eqn:H1, (cont b2) eqn:H2; try by intros [].
    rewrite (write_char_high b1) by by eapply second3_high. rewrite (write_char_high b2) by by apply cont_high.
    cbn [app]. rewrite H1, H2. apply Hrec. simpl. lia. }
  destruct r2 as [|b3 r3]; [by intros []|]. rewrite write_chars_cons.
  destruct (between 240 244 (u8 b0)), (second4 b0 b1) eqn:H1, (cont b2) eqn:H2, (cont b3) eqn:H3; try by intros [].
  rewrite (write_char_high b1) by by eapply second4_high. rewrite (write_char_high b2), (write_char_high b3) by by apply cont_high.
  cbn [app]. rewrite H1, H2, H3. apply Hrec. simpl. lia.
Qed.

(** Every string and key is well-formed UTF-8: a Rust [String] always is. *)
Fixpoint json_utf8 (v : json) : bool :=
  match v with
  | JString s => is_utf8 (as_bytes s)
  | JArray items => forallb json_utf8 items
  | JObject fields => forallb (λ f, is_utf8 (as_bytes f.1) && json_utf8 f.2) fields
  | _ => true
  end.

Lemma ascii_utf8 s : Forall (λ b, (u8 b < 128)%Z) s → is_utf8 s = true.
Proof. intros Hs. apply is_utf8_Some. rewrite utf8_decode_ascii by done. by eexists. Qed.

Lemma number_ascii b : is_number_byte b = true → (u8 b < 128)%Z.
Proof. destruct b; try done; vm_compute; congruence. Qed.

Lemma comma_separated_utf8 items :
  Forall (λ x, is_utf8 x = true) items → is_utf8 (comma_separated items) = true.
Proof.
  induction 1 as [|x items Hx Hi IH]; [done|]. destruct items as [|y items]; [done|].
  rewrite comma_separated_cons by done. apply is_utf8_app; [done|]. by apply (is_utf8_app [ch ","]).
Qed.

Lemma wrapped_utf8 x y s : (u8 x < 128)%Z → (u8 y < 128)%Z → is_utf8 s = true → is_utf8 (x :: s ++ [y]) = true.
Proof.
  intros Hx Hy Hs. change (x :: s ++ [y]) with ([x] ++ (s ++ [y])).
  apply is_utf8_app; [apply ascii_utf8; by constructor|]. apply is_utf8_app; [done|apply ascii_utf8; by constructor].
Qed.

Lemma write_string_utf8 str : is_utf8 (as_bytes str) = true → is_utf8 (write_string str) = true.
Proof. intros Hs. apply wrapped_utf8; [by vm_compute..|]. by apply write_chars_utf8. Qed.

Lemma write_json_utf8 v : json_ok v = true → json_utf8 v = true → is_utf8 (write_json v) = true.
Proof.
  induction v as [|flag|text|str|items IH|fields IH] using json_nested_ind; intros Hok Hu; simpl in Hu.
  - done.
  - by destruct flag.
  - apply is_number_bytes in Hok as [Hok _]. apply ascii_utf8. eapply Forall_impl; [exact Hok|]. apply number_ascii.
  - by apply write_string_utf8.
  - rewrite Forall_forall in IH. apply wrapped_utf8; [by vm_compute..|]. apply comma_separated_utf8, Forall_forall.
    intros x (v & -> & Hv)%list_elem_of_fmap. apply IH; [done|by eapply forallb_elem..].
  - rewrite Forall_forall in IH. apply wrapped_utf8; [by vm_compute..|]. apply comma_separated_utf8, Forall_forall.
    intros x (f & -> & Hf)%list_elem_of_fmap. pose proof (forallb_elem _ _ _ Hu Hf) as [Hk Hfv]%andb_true_iff. apply is_utf8_app; [by apply write_string_utf8|]. apply (is_utf8_app [ch ":"]); [done|].
    apply IH; [done|exact (forallb_elem (λ f, json_ok f.2) _ _ Hok Hf)|done].
Qed.

(** ** The document *)

Lemma read_write_all v : json_ok v = true → read_value (S (length (write_json v))) (write_json v) = Some (v, []).
Proof.
  intros Hok. pose proof (read_write (length (write_json v)) v [] Hok) as Hr. rewrite app_nil_r in Hr.
  apply Hr; [lia|]. by intros b r.
Qed.

Lemma read_json_write v : json_ok v = true → is_utf8 (write_json v) = true → read_json (write_json v) = Ok v.
Proof. intros Hok Hu. unfold read_json. rewrite Hu, read_write_all by done. by case_bool_decide. Qed.

Lemma write_json_prefix v p :
  json_ok v = true → is_JNumber v = false → p `prefix_of` write_json v → p ≠ write_json v → ∃ e, read_json p = Err e.
Proof. intros Hok. by apply read_json_prefix, read_write_all. Qed.
