(* ===== verification/StorageTests.v ===== *)
(** * The tests of [crates/triggerlane-storage/src/lib.rs], lines 821-1460, run on the model

    The files are those of an empty file system whose calls all succeed, and the
    JSON codec is the one of [Samples]: nothing the tests assert depends on the
    text of a record. The test that needs two threads is in [SweepingTests]. *)

From stdpp Require Import base gmap strings list.
From Stdlib Require Import ZArith Lia.
From S2P Require Import Prelude RustStd Event Retention Store FileSystem Jsonl FileStore Samples Testing.
Local Open Scope Z_scope.

(** ** Fixtures *)

(** Midnight, [days] days after the epoch, and [hours] later. *)
Definition utc (days hours : Z) : DateTime := (days * 24 + hours) * 3600 * nanos_per_sec.
Definition jan_2020 : DateTime := utc 18262 0.
Definition june (day hours : Z) : DateTime := utc (20604 + day) hours.
Definition now : DateTime := june 20 0.
Definition days (n : Z) : TimeDelta := n * 24 * 3600 * nanos_per_sec.

Definition test_store_path (name : string) : string := "/tmp/triggerlane-storage-" +:+ name +:+ ".jsonl".

Definition event_at {S} (timestamp : DateTime) : Test S EventEnvelope :=
  event ← new_event GitHub EVENT_GITHUB_ISSUE_CREATED (as_bytes "{}");
  mret (mkEventEnvelope (ev_id event) (ev_source event) (ev_type event) (ev_payload event) timestamp (ev_metadata event)).

Definition dead_record_at {S} (trigger : string) (timestamp : DateTime) : Test S DeadTriggerRecord :=
  event ← event_at timestamp; mret (mkDeadTriggerRecord event trigger "submission failed").

Definition dead_record {S} (trigger : string) : Test S DeadTriggerRecord :=
  event ← new_event GitHub EVENT_GITHUB_ISSUE_CREATED issue_payload;
  mret (mkDeadTriggerRecord event trigger "submission failed").

(** [remove_file(path)], which fails when there is no such file. *)
Definition remove_file (path : string) : IO unit :=
  syscall (λ fs, match fs_dir fs !! path with
                 | Some _ => (Ok tt, set_dir (delete path (fs_dir fs)) fs)
                 | None => (Err (mkIoError NotFound "No such file or directory"), fs)
                 end) no_tear.

Definition remove_test_store (path : string) : Test FS unit := expect "test store should be removed" (remove_file path).
Definition remove_test_store_with_sidecar (path : string) : Test FS unit :=
  under_test (remove_file (delivered_path path));; remove_test_store path.

(** A block with an open store, which is dropped at its end. *)
Definition with_open {O A} (open : IO O) (body : Test (O * FS) A) : Test FS A := λ '(n, fs),
  match open fs with
  | (Ok store, fs) => let '(outcome, (n, (_, fs))) := body (n, (store, fs)) in (outcome, (n, fs))
  | (Err _, fs) => (Err "store should open", (n, fs))
  end.

Definition with_store {A} (path : string) (body : Test (FileEventStore * FS) A) : Test FS A :=
  with_open (fes_open path) body.
Definition with_queue {A} (path : string) (body : Test (FileDeadTriggerQueue * FS) A) : Test FS A :=
  with_open (fdq_open path) body.

(** What the tests do with any store and any queue. *)
Section calls.
Context {S : Type} `{EventStore S} {Q : Type} `{DeadTriggerQueue Q}.
Definition append (event : EventEnvelope) : Test S unit := expect "append" (es_append event).
Definition mark_delivered (id : EventId) : Test S unit := expect "mark delivered" (es_mark_delivered id).
Definition prunes (policy : ManualRetention) (removed : Z) : Test S unit :=
  n ← expect "prune" (es_prune policy); assert_eq "removed" n removed.
Definition enforces (policy : AutoRetention) (removed : Z) : Test S unit :=
  n ← expect "enforce retention" (es_enforce_retention policy now); assert_eq "removed" n removed.
Definition holds (events : list EventEnvelope) : Test S unit := all ← look es_all; assert_eq "all" all events.
Definition holds_ids (ids : list EventId) : Test S unit := all ← look es_all; assert_eq "ids" (ev_id <$> all) ids.
Definition undelivered_ids (ids : list EventId) : Test S unit :=
  l ← look es_undelivered; assert_eq "undelivered" (ev_id <$> l) ids.
Definition record (r : DeadTriggerRecord) : Test Q unit := expect "record" (dq_record r).
Definition queued (rs : list DeadTriggerRecord) : Test Q unit := all ← look dq_all; assert_eq "all" all rs.
Definition queued_names (names : list string) : Test Q unit :=
  all ← look dq_all; assert_eq "names" (dt_trigger_name <$> all) names.
End calls.

Definition grace_policy : AutoRetention := mkAutoRetention (Some (days 7)) None None None.
Definition age_policy : AutoRetention := mkAutoRetention None (Some (days 7)) None None.
Definition count_policy : AutoRetention := mkAutoRetention None None (Some 2) None.

(** ** The in-memory backends *)

Definition in_memory_store_preserves_event_for_replay : Test InMemoryEventStore unit :=
  event ← new_event Cron EVENT_CRON_DAILY (as_bytes "{}");
  append event;;
  got ← look (es_get (ev_id event));
  assert_eq "get" got (Some event);;
  all ← look es_all;
  assert_eq "all" (len all) 1.

Definition in_memory_drain_returns_all_and_empties : Test InMemoryDeadTriggerQueue unit :=
  a ← dead_record "a"; record a;;
  b ← dead_record "b"; record b;;
  drained ← expect "drain" dq_drain;
  assert_eq "drained" (len drained) 2;;
  queued [].

Definition in_memory_event_store_prunes_by_age_and_count : Test InMemoryEventStore unit :=
  old ← event_at jan_2020; mid ← event_at (june 1 0); new ← event_at (june 20 0);
  append old;; append mid;; append new;;
  prunes (OlderThan (june 1 0)) 1;;
  holds [mid; new];;
  prunes (KeepMostRecent 1) 1;;
  holds [new].

Definition auto_retention_removes_delivered_aged_events_keeps_undelivered : Test InMemoryEventStore unit :=
  old_delivered ← event_at (june 1 0); old_undelivered ← event_at (june 1 0); recent ← event_at (june 19 18);
  append old_delivered;; append old_undelivered;; append recent;;
  mark_delivered (ev_id old_delivered);;
  enforces grace_policy 1;;
  holds_ids [ev_id old_undelivered; ev_id recent].

Definition auto_retention_hard_max_age_removes_undelivered : Test InMemoryEventStore unit :=
  old ← event_at (june 1 0); recent ← event_at (june 19 18);
  append old;; append recent;;
  enforces age_policy 1;;
  holds [recent].

Definition auto_retention_unbounded_removes_nothing : Test InMemoryEventStore unit :=
  old ← event_at jan_2020;
  append old;; mark_delivered (ev_id old);;
  enforces unbounded 0;;
  holds [old].

Definition auto_retention_max_count_keeps_most_recent : Test InMemoryEventStore unit :=
  a ← event_at (june 1 0); b ← event_at (june 2 0); c ← event_at (june 3 0);
  append a;; append b;; append c;;
  enforces count_policy 1;;
  holds [b; c].

Definition in_memory_store_reports_len_and_zero_size : Test InMemoryEventStore unit :=
  event ← event_at (june 20 0);
  append event;;
  n ← look es_len; assert_eq "len" n 1;;
  size ← look es_size_bytes; assert_eq "size" size 0.

Definition in_memory_dead_trigger_queue_retention_bounds_by_count : Test InMemoryDeadTriggerQueue unit :=
  a ← dead_record "a"; record a;;
  b ← dead_record "b"; record b;;
  c ← dead_record "c"; record c;;
  removed ← expect "enforce retention" (dq_enforce_retention count_policy now);
  assert_eq "removed" removed 1;;
  queued_names ["b"; "c"].

Definition dead_trigger_queue_retention_ignores_delivered_grace : Test InMemoryDeadTriggerQueue unit :=
  old ← dead_record_at "old" jan_2020; record old;;
  removed ← expect "enforce retention" (dq_enforce_retention (mkAutoRetention (Some (days 1)) None None None) now);
  assert_eq "removed" removed 0;;
  queued_names ["old"].

(** ** The durable backends *)

Definition file_store_reopens_persisted_event_for_replay : Test FS unit :=
  let path := test_store_path "reopen" in
  event ← new_event GitHub EVENT_GITHUB_ISSUE_CREATED issue_payload;
  let event := with_metadata event
    (mkEventMetadata (Some "trace-1") (Some "delivery-1") (Some "tenant-1") (Some "idem-1") None) in
  with_store path (append event);;
  with_store path (got ← look (es_get (ev_id event)); assert_eq "get" got (Some event));;
  remove_test_store path.

Definition file_store_lists_reopened_events_in_append_order : Test FS unit :=
  let path := test_store_path "ordered" in
  first ← new_event Manual EVENT_CRON_DAILY (as_bytes "first");
  second ← new_event Cron EVENT_CRON_DAILY (as_bytes "second");
  with_store path (append first;; append second);;
  with_store path (holds [first; second]);;
  remove_test_store path.

Definition file_dead_trigger_queue_rereads_after_reopen : Test FS unit :=
  let path := test_store_path "dtq" in
  event ← new_event GitHub EVENT_GITHUB_ISSUE_CREATED issue_payload;
  let r := mkDeadTriggerRecord event "github-issue" "submission failed" in
  with_queue path (record r;; queued [r]);;
  with_queue path (queued [r]);;
  remove_test_store path.

Definition file_drain_truncates_durable_backing_and_allows_reappend : Test FS unit :=
  let path := test_store_path "dtq-drain" in
  after ← dead_record "c";
  with_queue path (
    a ← dead_record "a"; record a;;
    b ← dead_record "b"; record b;;
    drained ← expect "drain" dq_drain;
    assert_eq "drained" (len drained) 2;;
    queued []);;
  with_queue path (queued [];; record after);;
  with_queue path (queued [after]);;
  remove_test_store path.

(** [OpenOptions::new().create(true).append(true).open(path)], then [write_all]. *)
Definition write_raw (path : string) (b : bytes) : Test FS unit :=
  expect "raw write" (file ← fs_open_append path; fs_write_all file b).

Definition torn_trailing_line_is_recovered_on_open : Test FS unit :=
  let path := test_store_path "torn" in
  good ← event_at (june 20 0);
  with_store path (append good);;
  write_raw path (as_bytes ("{" +:+ quoted "id" +:+ ":" +:+ String (Ascii.ascii_of_nat 34) "trunc"));;
  with_store path (holds [good]);;
  remove_test_store path.

Definition open_fails_with (path : string) (kind : ErrorKind) : Test FS unit :=
  error ← expect_err "open must fail" (fes_open path);
  assert_eq "kind" (io_kind error) kind.

Definition line (s : string) : bytes := as_bytes s ++ [newline].

Definition corrupt_non_final_line_fails_open : Test FS unit :=
  let path := test_store_path "corrupt-mid" in
  write_raw path (line "not json" ++ line ("{" +:+ json_field "also" (quoted "bad") +:+ "}"));;
  open_fails_with path InvalidData;;
  remove_test_store path.

Definition corrupt_newline_terminated_final_line_fails_open : Test FS unit :=
  let path := test_store_path "corrupt-final" in
  write_raw path (line ("{" +:+ json_field "broken" " "));;
  open_fails_with path InvalidData;;
  remove_test_store path.

(** While [first] lives, the lock of another handle is refused: the third call of
    the second [open]. *)
Definition second_open_of_same_file_fails_fast : Test FS unit :=
  let path := test_store_path "locked" in
  with_store path (mret tt);;
  expect "schedule" (E := io_error) (modify (set_faults [None; None; Some (mkFault (mkIoError WouldBlock "locked") 0)]));;
  open_fails_with path WouldBlock;;
  with_store path (mret tt);;
  remove_test_store path.

Definition file_event_store_prune_compacts_durable_backing : Test FS unit :=
  let path := test_store_path "evt-prune" in
  keep ← event_at (june 20 0);
  with_store path (
    old ← event_at jan_2020; append old;;
    append keep;;
    prunes (KeepMostRecent 1) 1;;
    later ← event_at (june 21 0); append later);;
  with_store path (
    all ← look es_all;
    assert_eq "len" (len all) 2;;
    assert_eq "first" (ev_id <$> head all) (Some (ev_id keep)));;
  remove_test_store path.

Definition file_dead_trigger_queue_prune_compacts_durable_backing : Test FS unit :=
  let path := test_store_path "dtq-prune" in
  with_queue path (
    old ← dead_record_at "old" jan_2020; record old;;
    new ← dead_record_at "new" (june 20 0); record new;;
    removed ← expect "prune" (dq_prune (OlderThan (june 1 0)));
    assert_eq "removed" removed 1);;
  with_queue path (queued_names ["new"]);;
  remove_test_store path.

Definition file_delivery_state_survives_reopen : Test FS unit :=
  let path := test_store_path "delivery" in
  delivered ← event_at (june 19 0); pending ← event_at (june 19 0);
  with_store path (
    append delivered;; append pending;;
    mark_delivered (ev_id delivered);; mark_delivered (ev_id delivered));;
  with_store path (undelivered_ids [ev_id pending]);;
  remove_test_store_with_sidecar path.

Definition file_auto_retention_compacts_event_log_and_journal : Test FS unit :=
  let path := test_store_path "file-retention" in
  old_delivered ← event_at (june 1 0); recent ← event_at (june 19 18);
  with_store path (
    append old_delivered;; append recent;;
    mark_delivered (ev_id old_delivered);;
    enforces grace_policy 1);;
  with_store path (holds_ids [ev_id recent];; undelivered_ids [ev_id recent]);;
  remove_test_store_with_sidecar path.

Definition file_store_reports_len_and_nonzero_size : Test FS unit :=
  let path := test_store_path "metrics" in
  with_store path (
    n ← look es_len; assert_eq "empty" n 0;;
    size ← look es_size_bytes; assert_eq "no bytes" size 0;;
    a ← event_at (june 20 0); append a;;
    b ← event_at (june 20 1); append b;;
    n ← look es_len; assert_eq "len" n 2;;
    size ← look es_size_bytes; assert "a written store has nonzero size" (size >? 0));;
  remove_test_store_with_sidecar path.

Definition file_dead_trigger_queue_retention_compacts_by_age : Test FS unit :=
  let path := test_store_path "dtq-retention" in
  with_queue path (
    old ← dead_record_at "old" jan_2020; record old;;
    new ← dead_record_at "new" (june 20 0); record new;;
    removed ← expect "enforce retention" (dq_enforce_retention age_policy now);
    assert_eq "removed" removed 1);;
  with_queue path (queued_names ["new"]);;
  remove_test_store path.

(** ** The suites *)

(** [catch_unwind] around a holder that panics. *)
Definition panic_while_held {T} (mutex : Mutex T) : Mutex T := mkMutex (mx_value mutex) true.

Definition lock_helper_recovers_from_poisoning : Test unit unit :=
  let mutex := panic_while_held (mkMutex [1; 2; 3] false) in
  assert "poisoned" (mx_poisoned mutex);;
  assert_eq "value" (lock mutex) [1; 2; 3].

Definition memory_tests : list (result string unit) := [
  run_test in_memory_store_preserves_event_for_replay InMemoryEventStore_new;
  run_test in_memory_drain_returns_all_and_empties InMemoryDeadTriggerQueue_new;
  run_test in_memory_event_store_prunes_by_age_and_count InMemoryEventStore_new;
  run_test auto_retention_removes_delivered_aged_events_keeps_undelivered InMemoryEventStore_new;
  run_test auto_retention_hard_max_age_removes_undelivered InMemoryEventStore_new;
  run_test auto_retention_unbounded_removes_nothing InMemoryEventStore_new;
  run_test auto_retention_max_count_keeps_most_recent InMemoryEventStore_new;
  run_test in_memory_store_reports_len_and_zero_size InMemoryEventStore_new;
  run_test in_memory_dead_trigger_queue_retention_bounds_by_count InMemoryDeadTriggerQueue_new;
  run_test dead_trigger_queue_retention_ignores_delivered_grace InMemoryDeadTriggerQueue_new;
  run_test lock_helper_recovers_from_poisoning tt
].

Definition file_tests : list (Test FS unit) := [
  file_store_reopens_persisted_event_for_replay;
  file_store_lists_reopened_events_in_append_order;
  file_dead_trigger_queue_rereads_after_reopen;
  file_drain_truncates_durable_backing_and_allows_reappend;
  torn_trailing_line_is_recovered_on_open;
  corrupt_non_final_line_fails_open;
  corrupt_newline_terminated_final_line_fails_open;
  second_open_of_same_file_fails_fast;
  file_event_store_prune_compacts_durable_backing;
  file_dead_trigger_queue_prune_compacts_durable_backing;
  file_delivery_state_survives_reopen;
  file_auto_retention_compacts_event_log_and_journal;
  file_store_reports_len_and_nonzero_size;
  file_dead_trigger_queue_retention_compacts_by_age
].

Definition file_outcomes : list (result string unit) := (λ t, run_test t fs_empty) <$> file_tests.

Example memory_tests_pass : passes memory_tests.
Proof. repeat constructor. Qed.

Example file_tests_pass : passes file_outcomes.
Proof. assert (file_outcomes = replicate 14 (Ok tt)) as -> by (vm_compute; reflexivity). repeat constructor. Qed.
