(* ===== verification/Runtime.v ===== *)
(** * The runtime: [crates/triggerlane-runtime/src/lib.rs], lines 23-677

    The trigger registry and the handling of one event: match, bind, submit to
    the broker with retries, or record a dead trigger. The runtime's shared
    state (broker, dead-trigger queue, trace sink, observed lanes) and the
    effects it emits (metrics, sleeps) are the state [World]; the registry and
    the options never change and are the record [TriggerRuntime].

    Worklane is not part of the repository: its lanes, jobs, errors and broker
    are the parameters [Worklane] and [Broker]. *)

From stdpp Require Import base gmap strings list.
From Stdlib Require Import ZArith Lia.
From S2P Require Import Prelude RustStd Event Trigger Retention Store.
Local Open Scope Z_scope.

(** ** Worklane *)

(** What the code uses of the types of [worklane_core]. *)
Class Worklane := {
  Lane : Type;
  lane_try_from : string → result string Lane;
  JobId : Type;
  JobId_to_string : JobId → string;
  NewJob : Type;
  NewJob_new : Lane → string → bytes → Z → NewJob;
  with_unique_key : string → NewJob → NewJob;
  Error : Type;
  Error_Broker : string → Error;
  Error_to_string : Error → string;
}.

(** [dyn Broker], the methods the runtime calls. *)
Class Broker `{Worklane} (B : Type) := {
  enqueue : NewJob → M B Error JobId;
  pending_count : Lane → M B Error Z;
}.

(** ** Effects that no code reads back *)

Inductive Effect :=
| Counter (name : string) (labels : list (string * string))   (** incremented by 1 *)
| Gauge (name : string) (labels : list (string * string)) (value : Z)
| Histogram (name : string)                                   (** of the time elapsed *)
| Sleep (d : Z).

(** ** The registry *)

Record RegisteredTrigger := mkRegisteredTrigger {
  rt_name : string;
  rt_priority : Z;
  rt_enabled : bool;
  rt_trigger : DynTrigger;
  rt_binding : DynBinding;
}.

Definition RegisteredTrigger_new {T B} `{Trigger T} `{Binding B}
    (name : string) (priority : Z) (trigger : T) (binding : B) : RegisteredTrigger :=
  mkRegisteredTrigger name priority true (box_trigger trigger) (box_binding binding).

Definition disabled (self : RegisteredTrigger) : RegisteredTrigger :=
  mkRegisteredTrigger (rt_name self) (rt_priority self) false (rt_trigger self) (rt_binding self).

Record TriggerRegistry := mkTriggerRegistry { registrations : list RegisteredTrigger }.

Definition TriggerRegistry_new : TriggerRegistry := mkTriggerRegistry [].

(** [Reverse(registration.priority)]. *)
Definition reverse_priority (registration : RegisteredTrigger) : Z := - rt_priority registration.

Definition register (self : TriggerRegistry) (registration : RegisteredTrigger) : TriggerRegistry :=
  mkTriggerRegistry (sort_by_key reverse_priority (registrations self ++ [registration])).

Definition matching (self : TriggerRegistry) (event : EventEnvelope) : list RegisteredTrigger :=
  filter (λ registration, rt_enabled registration && rt_trigger registration event = true)
    (registrations self).

(** ** Options and backoff *)

(** [MAX_SUBMISSION_BACKOFF]. *)
Definition MAX_SUBMISSION_BACKOFF : Z := duration_from_secs 30.

Record RuntimeOptions := mkRuntimeOptions {
  max_submission_attempts : Z;
  submission_backoff : Z;
}.

Definition RuntimeOptions_default : RuntimeOptions := mkRuntimeOptions 1 (duration_from_millis 100).

Definition submission_backoff_delay (retry_index base : Z) : Z :=
  if (base =? 0) || (retry_index =? 0) then 0 else
  let factor := default u32_max (checked_shl_u32 1 (retry_index - 1)) in
  Z.min (saturating_mul base factor) MAX_SUBMISSION_BACKOFF.

(** ** Reports and errors *)

Record HandleReport := mkHandleReport {
  submitted : list string;
  failed : list DeadTriggerRecord;
}.

Record DeadTriggerRetryReport := mkDeadTriggerRetryReport {
  drained : Z;
  events_retried : Z;
  recovered : Z;
  still_failed : Z;
  retry_submitted : list string;
}.

Record ReplayFilter := mkReplayFilter {
  filter_event_type : option string;
  filter_source : option Source;
}.

(** [ReplayFilter::matches]. *)
Definition ReplayFilter_matches (self : ReplayFilter) (event : EventEnvelope) : bool :=
  match filter_event_type self with
  | Some wanted => bool_decide (as_str (ev_type event) = wanted)
  | None => true
  end &&
  match filter_source self with
  | Some wanted => bool_decide (ev_source event = wanted)
  | None => true
  end.

Record ReplayEventReport := mkReplayEventReport {
  rer_event_id : string;
  rer_report : HandleReport;
}.

Record ReplayRangeReport := mkReplayRangeReport { rrr_events : list ReplayEventReport }.

Inductive RuntimeError :=
| RuntimeError_Binding (error : BindingError)
| Storage (error : io_error).

Definition RuntimeError_to_string (e : RuntimeError) : string :=
  match e with
  | RuntimeError_Binding error => BindingError_to_string error
  | Storage error => "durable storage error: " +:+ io_message error
  end.

Inductive ReplayError :=
| EventNotFound (id : string)
| Runtime (error : RuntimeError).

Definition ReplayError_to_string (e : ReplayError) : string :=
  match e with
  | EventNotFound id => "event " +:+ id +:+ " was not found for replay"
  | Runtime error => RuntimeError_to_string error
  end.

(** ** Traces *)

Record TriggerTrace := mkTriggerTrace {
  tt_event_id : string;
  tt_event_type : EventType;
  tt_source : Source;
  tt_matched_triggers : list string;
  tt_submitted : list string;
  tt_failure_count : Z;
}.

Definition from_event_report `{UuidText} (event : EventEnvelope) (matched_triggers : list string)
    (report : HandleReport) : TriggerTrace :=
  {| tt_event_id := EventId_to_string (ev_id event);
     tt_event_type := ev_type event;
     tt_source := ev_source event;
     tt_matched_triggers := matched_triggers;
     tt_submitted := submitted report;
     tt_failure_count := len (failed report) |}.

(** [trait TraceSink]. *)
Class TraceSink (K : Type) := record_trace : TriggerTrace → K → K.

Record InMemoryTraceSink := mkInMemoryTraceSink { traces : list TriggerTrace }.
#[export] Instance InMemoryTraceSink_TraceSink : TraceSink InMemoryTraceSink := λ trace self,
  mkInMemoryTraceSink (traces self ++ [trace]).

Inductive NoopTraceSink := mkNoopTraceSink.
#[export] Instance NoopTraceSink_TraceSink : TraceSink NoopTraceSink := λ _ self, self.

(** [LoggingTraceSink]: what it has written, with the level of each record. *)
Inductive Level := Warn | Info.
Record LogRecord := mkLogRecord {
  log_level : Level;
  log_event_id : string;
  log_event_type : string;
  log_source : Source;
  log_matched : Z;
  log_submitted : Z;
  log_failure_count : Z;
}.
Record LoggingTraceSink := mkLoggingTraceSink { logged : list LogRecord }.
#[export] Instance LoggingTraceSink_TraceSink : TraceSink LoggingTraceSink := λ trace self,
  mkLoggingTraceSink (logged self ++
    [mkLogRecord (if tt_failure_count trace >? 0 then Warn else Info)
       (tt_event_id trace) (as_str (tt_event_type trace)) (tt_source trace)
       (len (tt_matched_triggers trace)) (len (tt_submitted trace)) (tt_failure_count trace)]).

(** [Debug for Source]. *)
Definition Source_debug (s : Source) : string :=
  match s with
  | Http => "Http" | GitHub => "GitHub" | Discord => "Discord"
  | Slack => "Slack" | Cron => "Cron" | Manual => "Manual"
  end.

(** ** [TriggerRuntime] *)

Record TriggerRuntime := mkTriggerRuntime {
  registry : TriggerRegistry;
  options : RuntimeOptions;
}.

(** What the runtime shares with the rest of the process, and the effects so
    far, the latest last. *)
Record World (B Q K : Type) := mkWorld {
  w_broker : B;
  w_dead_triggers : Q;
  w_trace_sink : K;
  w_observed_lanes : gset string;
  w_effects : list Effect;
}.
Arguments mkWorld {B Q K} _ _ _ _ _.
Arguments w_broker {B Q K} _.
Arguments w_dead_triggers {B Q K} _.
Arguments w_trace_sink {B Q K} _.
Arguments w_observed_lanes {B Q K} _.
Arguments w_effects {B Q K} _.

(** [with_options_and_trace_sink], the constructor the others call: an in-memory
    dead-trigger queue. *)
Definition with_options_and_trace_sink {B K} (registry : TriggerRegistry) (broker : B)
    (options : RuntimeOptions) (trace_sink : K) : TriggerRuntime * World B InMemoryDeadTriggerQueue K :=
  (mkTriggerRuntime registry options, mkWorld broker InMemoryDeadTriggerQueue_new trace_sink ∅ []).

Definition with_options {B} (registry : TriggerRegistry) (broker : B) (options : RuntimeOptions) :=
  with_options_and_trace_sink registry broker options mkNoopTraceSink.

Definition with_trace_sink {B K} (registry : TriggerRegistry) (broker : B) (trace_sink : K) :=
  with_options_and_trace_sink registry broker RuntimeOptions_default trace_sink.

Definition TriggerRuntime_new {B} (registry : TriggerRegistry) (broker : B) :=
  with_options registry broker RuntimeOptions_default.

Section runtime.
Context `{UuidText} `{Worklane} {B Q K : Type} `{!Broker B} `{!DeadTriggerQueue Q} `{!TraceSink K}.
Local Abbreviation W := (World B Q K).

(** *** Access to the world *)

Definition emit {E} (e : Effect) : M W E unit := modify (λ w,
  mkWorld (w_broker w) (w_dead_triggers w) (w_trace_sink w) (w_observed_lanes w) (w_effects w ++ [e])).

Definition on_broker {E A} (m : M B E A) : M W E A :=
  zoom w_broker (λ b w, mkWorld b (w_dead_triggers w) (w_trace_sink w) (w_observed_lanes w) (w_effects w)) m.

Definition on_dead_triggers {E A} (m : M Q E A) : M W E A :=
  zoom w_dead_triggers (λ q w, mkWorld (w_broker w) q (w_trace_sink w) (w_observed_lanes w) (w_effects w)) m.

Definition observe_lane {E} (lane : string) : M W E unit := modify (λ w,
  mkWorld (w_broker w) (w_dead_triggers w) (w_trace_sink w) ({[lane]} ∪ w_observed_lanes w) (w_effects w)).

Definition record_to_sink {E} (trace : TriggerTrace) : M W E unit := modify (λ w,
  mkWorld (w_broker w) (w_dead_triggers w) (record_trace trace (w_trace_sink w)) (w_observed_lanes w) (w_effects w)).

(** [record_dead_trigger_depth]. *)
Definition record_dead_trigger_depth {E} : M W E unit :=
  depth ← gets (λ w, dq_len (w_dead_triggers w));
  emit (Gauge "triggerlane_dead_triggers" [] depth).

(** [with_dead_trigger_queue]: the new queue's depth is published at once. *)
Definition with_dead_trigger_queue {Q'} (dead_triggers : Q) (w : World B Q' K) : W :=
  mkWorld (w_broker w) dead_triggers (w_trace_sink w) (w_observed_lanes w)
    (w_effects w ++ [Gauge "triggerlane_dead_triggers" [] (dq_len dead_triggers)]).

(** *** Submission *)

(** The loop over the attempts of [enqueue_with_retries], with [remaining] of
    them left: the job's id, or the error of the last attempt if there was one. *)
Fixpoint submission_loop (backoff : Z) (new_job : NewJob) (remaining : nat) (attempt : Z)
    (last_error : option Error) : M W Error (JobId + option Error) :=
  match remaining with
  | O => mret (inr last_error)
  | S remaining =>
    (if attempt >? 0 then
       let delay := submission_backoff_delay attempt backoff in
       if negb (delay =? 0) then emit (Sleep delay) else mret tt
     else mret tt);;
    outcome ← catch (on_broker (enqueue new_job));
    match outcome with
    | Ok job_id => mret (inl job_id)
    | Err error => submission_loop backoff new_job remaining (attempt + 1) (Some error)
    end
  end.

(** [enqueue_with_retries]. The panic of the final [expect] is never reached
    ([submission_loop_attempted]); it is written as an error here. *)
Definition enqueue_with_retries (self : TriggerRuntime) (job : WorklaneJob) (unique_key : string)
    : M W Error JobId :=
  lane ← lift (map_err (λ error,
      Error_Broker ("invalid worklane lane " +:+ debug_str (job_lane job) +:+ ": " +:+ error))
    (lane_try_from (job_lane job)));
  observe_lane (job_lane job);;
  let attempts := Z.max (max_submission_attempts (options self)) 1 in
  let new_job := with_unique_key unique_key
    (NewJob_new lane (job_kind job) (job_payload job) (job_max_attempts job)) in
  outcome ← submission_loop (submission_backoff (options self)) new_job (Z.to_nat attempts) 0 None;
  match outcome with
  | inl job_id => mret job_id
  | inr last_error =>
    throw (default (Error_Broker "at least one submission attempt should run") last_error)
  end.

(** *** Handling *)

Definition record_dead_trigger (event : EventEnvelope) (trigger_name error : string)
    : M W io_error DeadTriggerRecord :=
  let record := mkDeadTriggerRecord event trigger_name error in
  on_dead_triggers (dq_record record);;
  mret record.

(** The identity an event is submitted under. *)
Definition event_identity (event : EventEnvelope) : string :=
  match idempotency_key (ev_metadata event) with
  | Some key => key
  | None => EventId_to_string (ev_id event)
  end.

(** [format!("{event_identity}:{}", registration.name())]. *)
Definition submission_key (event : EventEnvelope) (name : string) : string :=
  event_identity event +:+ ":" +:+ name.

(** A failure of one trigger: counted, then recorded. *)
Definition fail_trigger (event : EventEnvelope) (name error : string) : M W RuntimeError DeadTriggerRecord :=
  emit (Counter "triggerlane_trigger_failures_total" [("trigger", name)]);;
  mapM_err Storage (record_dead_trigger event name error).

(** The loop of [handle] over the matching registrations, with its three
    accumulators. *)
Fixpoint handle_loop (self : TriggerRuntime) (event : EventEnvelope) (regs : list RegisteredTrigger)
    (submitted : list string) (failed : list DeadTriggerRecord) (matched_triggers : list string)
    : M W RuntimeError (list string * list DeadTriggerRecord * list string) :=
  match regs with
  | [] => mret (submitted, failed, matched_triggers)
  | registration :: regs =>
    let name := rt_name registration in
    let matched_triggers := matched_triggers ++ [name] in
    emit (Counter "triggerlane_trigger_matches_total" [("trigger", name)]);;
    let unique_key := submission_key event name in
    match rt_binding registration event with
    | Ok job =>
      outcome ← catch (enqueue_with_retries self job unique_key);
      match outcome with
      | Ok job_id =>
        emit (Counter "triggerlane_jobs_submitted_total" [("trigger", name)]);;
        handle_loop self event regs (submitted ++ [JobId_to_string job_id]) failed matched_triggers
      | Err error =>
        record ← fail_trigger event name (Error_to_string error);
        handle_loop self event regs submitted (failed ++ [record]) matched_triggers
      end
    | Err error =>
      record ← fail_trigger event name (BindingError_to_string error);
      handle_loop self event regs submitted (failed ++ [record]) matched_triggers
    end
  end.

Definition handle (self : TriggerRuntime) (event : EventEnvelope) : M W RuntimeError HandleReport :=
  '(submitted, failed, matched_triggers) ← handle_loop self event (matching (registry self) event) [] [] [];
  let report := mkHandleReport submitted failed in
  emit (Counter "triggerlane_events_handled_total"
    [("source", Source_debug (ev_source event)); ("event_type", as_str (ev_type event))]);;
  emit (Histogram "triggerlane_handle_duration_seconds");;
  record_dead_trigger_depth;;
  record_to_sink (from_event_report event matched_triggers report);;
  mret report.

(** *** Retention and metrics *)

Definition enforce_dead_trigger_retention (policy : AutoRetention) (now : DateTime) : M W io_error Z :=
  removed ← on_dead_triggers (dq_enforce_retention policy now);
  (if removed >? 0 then record_dead_trigger_depth else mret tt);;
  mret removed.

Definition record_store_metrics {E} {S} `{EventStore S} (store : S) : M W E unit :=
  emit (Gauge "triggerlane_event_store_records" [] (es_len store));;
  emit (Gauge "triggerlane_event_store_bytes" [] (es_size_bytes store));;
  depth ← gets (λ w, dq_len (w_dead_triggers w));
  emit (Gauge "triggerlane_dead_triggers" [] depth);;
  bytes ← gets (λ w, dq_size_bytes (w_dead_triggers w));
  emit (Gauge "triggerlane_dead_trigger_bytes" [] bytes).

(** [record_broker_metrics]: over the observed lanes, in some order. *)
Definition record_broker_metrics : M W Error unit :=
  lanes ← gets (λ w, elements (w_observed_lanes w));
  for_each lanes (λ lane,
    match lane_try_from lane with
    | Err _ => mret tt
    | Ok parsed =>
      outcome ← catch (on_broker (pending_count parsed));
      match outcome with
      | Ok pending => emit (Gauge "triggerlane_broker_pending" [("lane", lane)] pending)
      | Err _ => mret tt
      end
    end).

(** *** Replay *)

Definition replay_by_id {S} `{EventStore S} (self : TriggerRuntime) (store : S) (event_id : EventId)
    : M W ReplayError HandleReport :=
  event ← lift (ok_or (EventNotFound (EventId_to_string event_id)) (es_get event_id store));
  mapM_err Runtime (handle self event).

(** The events a range selects: the two filters of [preview_range] and
    [replay_range]. *)
Definition in_range (start end_ : DateTime) (event : EventEnvelope) : bool :=
  (start <=? ev_timestamp event) && (ev_timestamp event <? end_).

Definition preview_range {S} `{EventStore S} (store : S) (start end_ : DateTime) (flt : ReplayFilter)
    : list EventEnvelope :=
  filter (λ e, ReplayFilter_matches flt e = true) (filter (λ e, in_range start end_ e = true) (es_all store)).

(** The loop of [replay_range]. *)
Fixpoint replay_events (self : TriggerRuntime) (selected : list EventEnvelope) (events : list ReplayEventReport)
    : M W ReplayError ReplayRangeReport :=
  match selected with
  | [] => mret (mkReplayRangeReport events)
  | event :: selected =>
    let event_id := EventId_to_string (ev_id event) in
    report ← mapM_err Runtime (handle self event);
    replay_events self selected (events ++ [mkReplayEventReport event_id report])
  end.

Definition replay_range {S} `{EventStore S} (self : TriggerRuntime) (store : S) (start end_ : DateTime)
    (flt : ReplayFilter) : M W ReplayError ReplayRangeReport :=
  replay_events self
    (filter (λ e, ReplayFilter_matches flt e = true) (filter (λ e, in_range start end_ e = true) (es_all store))) [].

(** *** Retrying dead triggers *)

Definition dead_triggers (w : W) : list DeadTriggerRecord := dq_all (w_dead_triggers w).

(** The grouping loop: the distinct ids in order, their event and the triggers
    that failed for it. *)
Fixpoint group_by_event (drained : list DeadTriggerRecord) (order : list string)
    (events : gmap string EventEnvelope) (failed_triggers : gmap string (gset string))
    : list string * gmap string EventEnvelope * gmap string (gset string) :=
  match drained with
  | [] => (order, events, failed_triggers)
  | record :: drained =>
    let id := EventId_to_string (ev_id (dt_event record)) in
    let order := match events !! id with None => order ++ [id] | Some _ => order end in
    group_by_event drained order (<[id := dt_event record]> events)
      (<[id := {[dt_trigger_name record]} ∪ default ∅ (failed_triggers !! id)]> failed_triggers)
  end.

(** The two counters of the inner loop over [previously_failed]. *)
Definition count_recovered (previously_failed now_failed : gset string) : Z * Z :=
  fold_left (λ '(recovered, still_failed) trigger,
    if bool_decide (trigger ∈ now_failed) then (recovered, still_failed + 1)
    else (recovered + 1, still_failed)) (elements previously_failed) (0, 0).

(** The loop of [retry_dead_triggers]. The [expect] on [events.remove] holds:
    every id of [order] is a key of [events] ([group_by_event_spec]); a missing
    one is skipped here. *)
Fixpoint retry_loop (self : TriggerRuntime) (order : list string) (events : gmap string EventEnvelope)
    (failed_triggers : gmap string (gset string)) (report : DeadTriggerRetryReport)
    : M W RuntimeError DeadTriggerRetryReport :=
  match order with
  | [] => mret report
  | id :: order =>
    match events !! id with
    | None => retry_loop self order events failed_triggers report
    | Some event =>
      let previously_failed := default ∅ (failed_triggers !! id) in
      result ← handle self event;
      let now_failed : gset string := list_to_set (dt_trigger_name <$> failed result) in
      let '(r, s) := count_recovered previously_failed now_failed in
      retry_loop self order (delete id events) (delete id failed_triggers)
        {| drained := drained report;
           events_retried := events_retried report + 1;
           recovered := recovered report + r;
           still_failed := still_failed report + s;
           retry_submitted := retry_submitted report ++ submitted result |}
    end
  end.

Definition retry_dead_triggers (self : TriggerRuntime) : M W RuntimeError DeadTriggerRetryReport :=
  drained ← mapM_err Storage (on_dead_triggers dq_drain);
  let drained_count := len drained in
  let '(order, events, failed_triggers) := group_by_event drained [] ∅ ∅ in
  report ← retry_loop self order events failed_triggers (mkDeadTriggerRetryReport drained_count 0 0 0 []);
  record_dead_trigger_depth;;
  mret report.
End runtime.
