(* ===== verification/Submission.v ===== *)
(** * Registration order, backoff and submission

    What the registry, the backoff schedule, the submission keys and the
    submission loop of [Runtime] guarantee. *)

From stdpp Require Import base gmap strings list sorting.
From Stdlib Require Import ZArith Lia Ascii.
From S2P Require Import Prelude RustStd Event Trigger Retention Store Runtime.
Local Open Scope Z_scope.

(** ** The registry *)

(** The registry built by registering [regs] one after the other. *)
Definition registry_of (regs : list RegisteredTrigger) : TriggerRegistry :=
  fold_left register regs TriggerRegistry_new.

Lemma registrations_registry_of regs :
  registrations (registry_of regs) = sort_by_key reverse_priority regs.
Proof.
  unfold registry_of. induction regs as [|r regs IH] using rev_ind; [done|].
  rewrite fold_left_app. cbn [fold_left]. unfold register at 1. cbn [registrations].
  rewrite IH, !sort_by_key_snoc. f_equal. apply sort_by_key_id, sort_by_key_sorted.
Qed.

(** What a registry selects, and in which order. *)
Lemma matching_spec regs event :
  let candidates := filter (λ r, rt_enabled r && rt_trigger r event = true) regs in
  let matched := matching (registry_of regs) event in
  matched ≡ₚ candidates ∧
  StronglySorted (λ r r', rt_priority r >= rt_priority r') matched ∧
  ∀ p, filter (λ r, rt_priority r = p) matched = filter (λ r, rt_priority r = p) candidates.
Proof.
  intros candidates matched. subst candidates matched. unfold matching.
  rewrite registrations_registry_of. split_and!.
  - by rewrite sort_by_key_perm.
  - assert (StronglySorted (by_key reverse_priority) (sort_by_key reverse_priority regs)) as Hs
      by apply sort_by_key_sorted.
    apply (strongly_sorted_filter _ (λ r, rt_enabled r && rt_trigger r event = true)) in Hs.
    eapply strongly_sorted_impl; [|exact Hs]. intros x y. unfold by_key, reverse_priority. lia.
  - intros p. rewrite filter_comm, (filter_comm _ _ regs). f_equal.
    pose proof (sort_by_key_stable reverse_priority regs (- p)) as Hst.
    rewrite !(list_filter_iff (λ r, rt_priority r = p) (λ r, reverse_priority r = - p));
      [exact Hst|intros r; unfold reverse_priority; lia..].
Qed.

(** An event is handled by exactly the enabled registrations that match it,
    by descending priority, and those of one priority in the order in which they
    were registered. *)
Theorem matching_order regs event :
  let candidates := filter (λ r, rt_enabled r && rt_trigger r event = true) regs in
  let matched := matching (registry_of regs) event in
  matched ≡ₚ candidates ∧
  StronglySorted (λ r r', rt_priority r >= rt_priority r') matched ∧
  ∀ p, filter (λ r, rt_priority r = p) matched = filter (λ r, rt_priority r = p) candidates.
Proof. apply matching_spec. Qed.

(** ** Backoff *)

Lemma backoff_factor i :
  1 <= i → default u32_max (checked_shl_u32 1 (i - 1)) = if i <=? 32 then 2 ^ (i - 1) else u32_max.
Proof.
  intros Hi. unfold checked_shl_u32. destruct (Z.ltb_spec (i - 1) 32), (Z.leb_spec i 32); try lia; [|done].
  simpl. rewrite Z.shiftl_1_l, Z.mod_small; [done|]. split; [lia|]. apply Z.pow_lt_mono_r; lia.
Qed.

Lemma backoff_capped x : Z.min (Z.min x duration_max) MAX_SUBMISSION_BACKOFF = Z.min x MAX_SUBMISSION_BACKOFF.
Proof. assert (MAX_SUBMISSION_BACKOFF <= duration_max) by by vm_compute. lia. Qed.

Lemma backoff_delay_eq i base :
  0 <= base → 1 <= i →
  submission_backoff_delay i base =
  Z.min (base * (if i <=? 32 then 2 ^ (i - 1) else u32_max)) MAX_SUBMISSION_BACKOFF.
Proof.
  intros Hb Hi. unfold submission_backoff_delay.
  destruct (Z.eqb_spec base 0) as [->|Hb0]; [by rewrite Z.mul_0_l|].
  destruct (Z.eqb_spec i 0) as [?|_]; [lia|]. cbn [orb].
  rewrite backoff_factor by done. unfold saturating_mul. apply backoff_capped.
Qed.

Lemma pow_2_le i j : 0 <= i → i <= j → 2 ^ i <= 2 ^ j.
Proof. intros ??. apply Z.pow_le_mono_r; lia. Qed.

(** The doubling factor never decreases. *)
Lemma backoff_factor_mono i j :
  1 <= i → i <= j →
  1 <= (if i <=? 32 then 2 ^ (i - 1) else u32_max) <= (if j <=? 32 then 2 ^ (j - 1) else u32_max).
Proof.
  intros Hi Hij. assert (u32_max = 2 ^ 32 - 1) as -> by done.
  pose proof (pow_2_le 0 (i - 1)). destruct (Z.leb_spec i 32), (Z.leb_spec j 32); try lia.
  - pose proof (pow_2_le (i - 1) (j - 1)). lia.
  - pose proof (pow_2_le (i - 1) 31). lia.
Qed.

(** C26: the delay before retry [i] is [base] doubled [i - 1] times and capped at
    30 seconds, for every base of at least 7 ns; for every base it is between
    zero and the cap and never decreases from one retry to the next. Below 7 ns
    the factor stops at [u32::MAX] before the cap is reached. *)
Theorem backoff_schedule base i :
  0 <= base → 1 <= i →
  (7 <= base → submission_backoff_delay i base = Z.min (base * 2 ^ (i - 1)) MAX_SUBMISSION_BACKOFF) ∧
  (base < 7 → 32 < i → submission_backoff_delay i base = base * u32_max ∧ base * u32_max < MAX_SUBMISSION_BACKOFF) ∧
  0 <= submission_backoff_delay i base <= MAX_SUBMISSION_BACKOFF ∧
  (∀ j, i <= j → submission_backoff_delay i base <= submission_backoff_delay j base).
Proof.
  intros Hb Hi. pose proof (backoff_factor_mono i i) as Hf.
  assert (MAX_SUBMISSION_BACKOFF = 30000000000) as HM by done.
  assert (u32_max = 4294967295) as Hu by done. split_and!.
  - intros Hb7. rewrite backoff_delay_eq by lia. destruct (Z.leb_spec i 32) as [|Hlt]; [done|].
    pose proof (pow_2_le 32 (i - 1)). assert (2 ^ 32 = 4294967296) by done. nia.
  - intros Hb7 H32. rewrite backoff_delay_eq by lia. destruct (Z.leb_spec i 32); lia.
  - rewrite backoff_delay_eq by lia. nia.
  - rewrite backoff_delay_eq by lia. nia.
  - intros j Hij. rewrite !backoff_delay_eq by lia. pose proof (backoff_factor_mono i j Hi Hij). nia.
Qed.

Lemma backoff_schedule_witness :
  submission_backoff_delay 10 (duration_from_millis 100) = Z.min (duration_from_millis 100 * 2 ^ 9) MAX_SUBMISSION_BACKOFF ∧
  submission_backoff_delay 10 (duration_from_millis 100) = MAX_SUBMISSION_BACKOFF.
Proof.
  split; [|reflexivity].
  apply (backoff_schedule (duration_from_millis 100) 10); vm_compute; discriminate.
Defined.

(** ** Submission keys *)

Lemma string_app_assoc (s t u : string) : s +:+ (t +:+ u) = (s +:+ t) +:+ u.
Proof.
  induction s as [|a s IH]; [done|].
  change (String a (s +:+ (t +:+ u)) = String a ((s +:+ t) +:+ u)). by rewrite IH.
Qed.

(** [c] does not occur in the string. *)
Fixpoint free_of (c : Ascii.ascii) (s : string) : Prop :=
  match s with EmptyString => True | String a s => a ≠ c ∧ free_of c s end.

(** Splitting at the last [c] is unambiguous. *)
Lemma last_separator_inj c (s t : string) u v :
  free_of c u → free_of c v → s +:+ String c u = t +:+ String c v → s = t ∧ u = v.
Proof.
  intros Hu Hv.
  assert (∀ (s u v : string), free_of c v → s +:+ String c u ≠ v) as Hno.
  { intros s' u'. induction s' as [|a s' IH]; intros [|b v'] Hv'; simpl; try done.
    - intros [= -> _]. by destruct Hv'.
    - intros [= -> Heq]. destruct Hv'. by eapply IH. }
  revert t. induction s as [|a s IH]; intros [|b t]; simpl.
  - by intros [= ->].
  - intros [= -> Heq]. exfalso. by eapply Hno.
  - intros [= -> Heq]. exfalso. by eapply Hno.
  - intros [= -> Heq]. destruct (IH _ Heq) as [-> ->]. done.
Qed.

Section keys.
Context `{UuidText}.

(** Two submissions share a key only if they are of the same trigger and of
    events with the same identity, when no trigger name contains a colon; with
    one key two different triggers' submissions collide, and a deduplicating
    broker drops the second. *)
Theorem submission_key_unique e1 e2 n1 n2 :
  (free_of ":"%char n1 → free_of ":"%char n2 → submission_key e1 n1 = submission_key e2 n2 →
   event_identity e1 = event_identity e2 ∧ n1 = n2) ∧
  (event_identity e2 = event_identity e1 +:+ ":" +:+ n1 →
   submission_key e1 (n1 +:+ ":" +:+ n2) = submission_key e2 n2).
Proof.
  unfold submission_key. split.
  - intros H1 H2. simpl. apply last_separator_inj; [exact H1|exact H2].
  - intros ->. simpl. rewrite <-string_app_assoc. simpl. done.
Qed.
End keys.

(** ** The submission loop *)

(** A broker that also keeps the list of the jobs it was asked to enqueue. *)
Record Recording `{Worklane} (B : Type) := mkRecording {
  rec_broker : B;
  rec_calls : list NewJob;
}.
Arguments mkRecording {_ B} _ _.
Arguments rec_broker {_ B} _.
Arguments rec_calls {_ B} _.

#[export] Instance Recording_Broker `{Worklane} {B} `{!Broker B} : Broker (Recording B) := {
  enqueue j := λ s, let '(r, b) := enqueue j (rec_broker s) in (r, mkRecording b (rec_calls s ++ [j]));
  pending_count l := λ s, let '(r, b) := pending_count l (rec_broker s) in (r, mkRecording b (rec_calls s));
}.

(** The sleeps of the attempts from [attempt] on; there is none before attempt 0. *)
Definition sleeps (backoff attempt : Z) (n : nat) : list Effect :=
  Sleep <$> filter (λ d, d ≠ 0) ((λ i, submission_backoff_delay i backoff) <$> seqZ attempt (Z.of_nat n)).

Section submission.
Context `{UuidText} `{Worklane} {B Q K : Type} `{!Broker B} `{!DeadTriggerQueue Q} `{!TraceSink K}.
Implicit Types w : World B Q K.

(** The loop always returns, and with attempts left it ends with an id or with
    an error: the [expect] after it cannot panic. *)
Lemma submission_loop_attempted backoff nj remaining attempt last w :
  ∃ out, (submission_loop backoff nj remaining attempt last w).1 = Ok out ∧
    ((0 < remaining)%nat → ∀ e, out = inr e → is_Some e).
Proof.
  revert attempt last w. induction remaining as [|n IH]; intros attempt last w; simpl; [eexists; split; [done|lia]|].
  unfold mbind, M_bind at 1. set (m := if attempt >? 0 then _ else _).
  assert (∃ w1, m w = (Ok tt, w1)) as [w1 ->].
  { unfold m. destruct (attempt >? 0); [|by eexists]. destruct (negb _); by eexists. }
  unfold catch, on_broker, zoom. unfold M_bind.
  destruct (enqueue nj (w_broker w1)) as [[id|e] b]; [by eexists|].
  destruct (IH (attempt + 1) (Some e) (mkWorld b (w_dead_triggers w1) (w_trace_sink w1)
    (w_observed_lanes w1) (w_effects w1))) as (out & Hout & Hsome).
  exists out. split; [exact Hout|]. intros _ e' ->. destruct n as [|n]; [|apply Hsome; [lia|done]].
  simpl in Hout. unfold mret, M_ret in Hout. simpl in Hout. injection Hout as <-. by eexists.
Qed.

(** What submission touches: the broker, the observed lanes and the effects. *)
Definition same_queue_and_sink w w' : Prop :=
  w_dead_triggers w' = w_dead_triggers w ∧ w_trace_sink w' = w_trace_sink w.

#[export] Instance same_queue_and_sink_preorder : PreOrder same_queue_and_sink.
Proof. split; [by split|]. intros w1 w2 w3 [H1 H2] [H3 H4]. split; congruence. Qed.

Lemma submission_loop_frame backoff nj remaining attempt last w :
  same_queue_and_sink w (submission_loop backoff nj remaining attempt last w).2.
Proof.
  revert attempt last w. induction remaining as [|n IH]; intros attempt last w; simpl; [done|].
  unfold mbind, M_bind at 1. set (m := if attempt >? 0 then _ else _).
  assert (∃ w1, m w = (Ok tt, w1) ∧ same_queue_and_sink w w1) as (w1 & -> & Hw1).
  { unfold m. destruct (attempt >? 0); [|by eexists]. destruct (negb _); by eexists. }
  unfold catch, on_broker, zoom. unfold M_bind.
  destruct (enqueue nj (w_broker w1)) as [[id|e] b]; (etrans; [exact Hw1|]); [done|].
  etrans; [|apply IH]. done.
Qed.

Lemma enqueue_with_retries_frame self job key w :
  same_queue_and_sink w (enqueue_with_retries self job key w).2.
Proof.
  unfold enqueue_with_retries, lift, observe_lane, modify, mbind, M_bind.
  destruct (map_err _ _) as [lane|e]; [|done]. simpl.
  match goal with |- context [submission_loop ?b ?nj ?n ?a ?l ?w1] =>
    pose proof (submission_loop_frame b nj n a l w1) as Hf;
    destruct (submission_loop b nj n a l w1) as [[[id|e]|e] w2] end; exact Hf.
Qed.
End submission.

Section attempts.
Context `{UuidText} `{Worklane} {B Q K : Type} `{!Broker B} `{!DeadTriggerQueue Q} `{!TraceSink K}.
Implicit Types w : World (Recording B) Q K.

Lemma sleeps_cons backoff attempt n :
  0 <= attempt →
  sleeps backoff attempt (S n) =
  (if negb (submission_backoff_delay attempt backoff =? 0) then [Sleep (submission_backoff_delay attempt backoff)] else [])
  ++ sleeps backoff (attempt + 1) n.
Proof.
  intros Ha. unfold sleeps. rewrite Nat2Z.inj_succ, seqZ_cons by lia. rewrite fmap_cons, filter_cons.
  rewrite Z.pred_succ, <-Z.add_1_r.
  destruct (Z.eqb_spec (submission_backoff_delay attempt backoff) 0) as [->|Hne];
    [by rewrite decide_False by (by intros [])|by rewrite decide_True].
Qed.

Lemma submission_loop_calls backoff nj remaining attempt last w r w' :
  0 <= attempt → submission_loop backoff nj remaining attempt last w = (r, w') →
  ∃ n, (n ≤ remaining)%nat ∧ ((0 < remaining)%nat → (0 < n)%nat) ∧
    rec_calls (w_broker w') = rec_calls (w_broker w) ++ replicate n nj ∧
    w_effects w' = w_effects w ++ sleeps backoff attempt n ∧
    (∀ e, r = Ok (inr e) → n = remaining).
Proof.
  revert attempt last w. induction remaining as [|m IH]; intros attempt last w Ha Hr; simpl in Hr.
  { unfold mret, M_ret in Hr. injection Hr as <- <-. exists 0%nat.
    split_and!; [lia|lia|by rewrite app_nil_r|by rewrite app_nil_r|done]. }
  unfold mbind, M_bind at 1 in Hr. set (pre := if attempt >? 0 then _ else _) in Hr.
  set (d := submission_backoff_delay attempt backoff) in *.
  set (sl := if negb (d =? 0) then [Sleep d] else []).
  assert (pre w = (Ok tt, mkWorld (w_broker w) (w_dead_triggers w) (w_trace_sink w) (w_observed_lanes w)
                            (w_effects w ++ sl))) as Hpre.
  { unfold pre, sl. destruct (Z.gtb_spec attempt 0) as [Hgt|Hle].
    - destruct (negb (d =? 0)); [done|]. unfold mret, M_ret. rewrite app_nil_r. by destruct w.
    - assert (d = 0) as ->. { unfold d, submission_backoff_delay. assert (attempt = 0) as -> by lia.
        by rewrite orb_true_r. } simpl. rewrite app_nil_r. by destruct w. }
  rewrite Hpre in Hr. unfold catch, on_broker, zoom, M_bind in Hr. simpl in Hr.
  destruct (enqueue nj (rec_broker (w_broker w))) as [[id|e] b] eqn:He; simpl in Hr.
  - unfold mret, M_ret in Hr. injection Hr as <- <-. exists 1%nat.
    split_and!; [lia|lia|done| |done]. simpl. rewrite sleeps_cons by done. fold d. unfold sl.
    by rewrite app_nil_r.
  - apply IH in Hr as (n & Hn & _ & Hc & Hs & He'); [|lia]. exists (S n). split_and!; [lia|lia| | |].
    + rewrite Hc. simpl. by rewrite <-app_assoc.
    + rewrite Hs, sleeps_cons by done. fold d. simpl. by rewrite <-app_assoc.
    + intros e' Hr. by rewrite (He' e' Hr).
Qed.

(** C19: a job is submitted between one and [max_submission_attempts] times
    (one, when that is zero), always the same job under the same unique key,
    with exactly the backoff delays in between; a submission fails only after
    every attempt failed, and a lane Worklane rejects is never submitted. *)
Theorem submission_attempts self job key w r w' :
  enqueue_with_retries self job key w = (r, w') →
  match lane_try_from (job_lane job) with
  | Err e =>
    w' = w ∧ r = Err (Error_Broker ("invalid worklane lane " +:+ debug_str (job_lane job) +:+ ": " +:+ e))
  | Ok lane =>
    let new_job := with_unique_key key (NewJob_new lane (job_kind job) (job_payload job) (job_max_attempts job)) in
    ∃ n : nat, 1 <= Z.of_nat n <= Z.max (max_submission_attempts (options self)) 1 ∧
      rec_calls (w_broker w') = rec_calls (w_broker w) ++ replicate n new_job ∧
      w_effects w' = w_effects w ++ sleeps (submission_backoff (options self)) 0 n ∧
      (∀ e, r = Err e → Z.of_nat n = Z.max (max_submission_attempts (options self)) 1)
  end.
Proof.
  intros Hr. unfold enqueue_with_retries, lift, observe_lane, modify, mbind, M_bind in Hr.
  destruct (lane_try_from (job_lane job)) as [lane|e]; simpl in Hr; [|by injection Hr as <- <-].
  match type of Hr with context [submission_loop ?b ?nj ?n ?a ?l ?w1] =>
    destruct (submission_loop b nj n a l w1) as [r1 w2] eqn:Hl;
    apply submission_loop_calls in Hl as Hc; [|done];
    pose proof (submission_loop_attempted b nj n a l w1) as (out & Hout & _); rewrite Hl in Hout end.
  simpl in Hout. subst r1. destruct Hc as (n & Hn & Hpos & Hcalls & Heff & Hall). simpl in Hcalls, Heff.
  exists n. assert (0 < Z.to_nat (Z.max (max_submission_attempts (options self)) 1))%nat by lia.
  destruct out as [id|e]; unfold mret, M_ret, throw in Hr; injection Hr as <- <-;
    (split_and!; [lia|lia|done|done|]); [done|]. intros e' _. specialize (Hall e eq_refl). lia.
Qed.
End attempts.
