(* ===== verification/Handling.v ===== *)
(** * Handling an event

    What [handle] guarantees of every event: each matching trigger is submitted
    or recorded as a dead trigger, in order, nothing else is recorded, and the
    report, the metrics and the trace say what happened. *)

From stdpp Require Import base gmap strings list.
From Stdlib Require Import ZArith Lia.
From S2P Require Import Prelude RustStd Event Trigger Retention Store Runtime Submission.
Local Open Scope Z_scope.

(** What became of one matching trigger: the id of its job, or the text of its
    failure. *)
Abbreviation outcome := (string + string)%type.

Definition outcome_submitted (o : RegisteredTrigger * outcome) : option string :=
  match o.2 with inl id => Some id | inr _ => None end.

Definition outcome_failed (event : EventEnvelope) (o : RegisteredTrigger * outcome) : option DeadTriggerRecord :=
  match o.2 with inl _ => None | inr error => Some (mkDeadTriggerRecord event (rt_name o.1) error) end.

(** A trigger whose binding rejects the event fails with the binding's reason. *)
Definition rejected_fails (event : EventEnvelope) (o : RegisteredTrigger * outcome) : Prop :=
  ∀ e, rt_binding o.1 event = Err e → o.2 = inr (BindingError_to_string e).

(** The counters one trigger increments. *)
Definition outcome_counters (o : RegisteredTrigger * outcome) : list Effect :=
  [Counter "triggerlane_trigger_matches_total" [("trigger", rt_name o.1)];
   match o.2 with
   | inl _ => Counter "triggerlane_jobs_submitted_total" [("trigger", rt_name o.1)]
   | inr _ => Counter "triggerlane_trigger_failures_total" [("trigger", rt_name o.1)]
   end].

Definition is_counter (e : Effect) : Prop := match e with Counter _ _ => True | _ => False end.
#[export] Instance is_counter_dec e : Decision (is_counter e).
Proof. destruct e; simpl; apply _. Defined.

(** The counters among the effects. *)
Definition counters (l : list Effect) : list Effect := filter is_counter l.

(** The report of a list of outcomes. *)
Definition report_of (event : EventEnvelope) (outcomes : list (RegisteredTrigger * outcome)) : HandleReport :=
  mkHandleReport (omap outcome_submitted outcomes) (omap (outcome_failed event) outcomes).

Lemma counters_app l l' : counters (l ++ l') = counters l ++ counters l'.
Proof. apply filter_app. Qed.

Section handling.
Context `{UuidText} `{Worklane} {B Q K : Type} `{!Broker B} `{!DeadTriggerQueue Q} `{!TraceSink K}.
Context `{Serialize DeadTriggerRecord} `{!DeadTriggerQueueSpec Q}.
Implicit Types w : World B Q K.

(** Submission increments no counter. *)
Lemma submission_loop_counters backoff nj remaining attempt last w :
  counters (w_effects (submission_loop backoff nj remaining attempt last w).2) = counters (w_effects w).
Proof.
  revert attempt last w. induction remaining as [|n IH]; intros attempt last w; simpl; [done|].
  unfold mbind, M_bind at 1. set (m := if attempt >? 0 then _ else _).
  assert (∃ w1, m w = (Ok tt, w1) ∧ counters (w_effects w1) = counters (w_effects w)) as (w1 & -> & Hw1).
  { unfold m. destruct (attempt >? 0); [|by eexists]. destruct (negb _); [|by eexists].
    eexists. split; [done|]. simpl. rewrite counters_app. by rewrite app_nil_r. }
  unfold catch, on_broker, zoom. unfold M_bind.
  destruct (enqueue nj (w_broker w1)) as [[id|e] b]; [exact Hw1|]. rewrite IH. exact Hw1.
Qed.

Lemma enqueue_with_retries_counters self job key w :
  counters (w_effects (enqueue_with_retries self job key w).2) = counters (w_effects w).
Proof.
  unfold enqueue_with_retries, lift, observe_lane, modify, mbind, M_bind.
  destruct (map_err _ _) as [lane|e]; [|done]. simpl.
  match goal with |- context [submission_loop ?b ?nj ?n ?a ?l ?w1] =>
    pose proof (submission_loop_counters b nj n a l w1) as Hf;
    destruct (submission_loop b nj n a l w1) as [[[id|e]|e] w2] end; exact Hf.
Qed.

(** The state after some triggers were handled with the given outcomes. *)
Record progress (event : EventEnvelope) (outcomes : list (RegisteredTrigger * outcome)) w w' : Prop := mk_progress {
  progress_records : records (w_dead_triggers w') = records (w_dead_triggers w) ++ omap (outcome_failed event) outcomes;
  progress_sink : w_trace_sink w' = w_trace_sink w;
  progress_counters : counters (w_effects w') = counters (w_effects w) ++ (outcomes ≫= outcome_counters);
  progress_rejected : Forall (rejected_fails event) outcomes;
}.

Lemma progress_app event os1 os2 w w1 w2 :
  progress event os1 w w1 → progress event os2 w1 w2 → progress event (os1 ++ os2) w w2.
Proof.
  intros [Hr1 Hs1 Hc1 Hj1] [Hr2 Hs2 Hc2 Hj2]. constructor; [|congruence| |by apply Forall_app].
  - by rewrite Hr2, Hr1, omap_app, app_assoc.
  - by rewrite Hc2, Hc1, bind_app, app_assoc.
Qed.

(** One failure: counted and recorded, or an error that records nothing. *)
Lemma fail_trigger_run event reg error w :
  match fail_trigger event (rt_name reg) error w with
  | (Ok r, w') =>
    r = mkDeadTriggerRecord event (rt_name reg) error ∧
    records (w_dead_triggers w') = records (w_dead_triggers w) ++ [r] ∧ w_trace_sink w' = w_trace_sink w ∧
    w_effects w' = w_effects w ++ [Counter "triggerlane_trigger_failures_total" [("trigger", rt_name reg)]]
  | (Err x, w') =>
    (∃ io, x = Storage io) ∧ records (w_dead_triggers w') = records (w_dead_triggers w) ∧
    w_trace_sink w' = w_trace_sink w
  end.
Proof.
  unfold fail_trigger, mapM_err, record_dead_trigger, on_dead_triggers, zoom, emit, modify, mbind, M_bind. simpl.
  destruct (dq_record _ (w_dead_triggers w)) as [[[]|x] q] eqn:Hq; simpl.
  - split; [done|]. split; [by apply dq_record_ok in Hq|done].
  - split; [by eexists|]. split; [by apply dq_record_err in Hq|done].
Qed.

(** The body of the loop: what becomes of one registration. *)
Definition handle_one (self : TriggerRuntime) (event : EventEnvelope) (reg : RegisteredTrigger)
    : M (World B Q K) RuntimeError outcome :=
  emit (Counter "triggerlane_trigger_matches_total" [("trigger", rt_name reg)]);;
  match rt_binding reg event with
  | Ok job =>
    o ← catch (enqueue_with_retries self job (submission_key event (rt_name reg)));
    match o with
    | Ok id =>
      emit (Counter "triggerlane_jobs_submitted_total" [("trigger", rt_name reg)]);;
      mret (inl (JobId_to_string id))
    | Err error =>
      r ← fail_trigger event (rt_name reg) (Error_to_string error);
      mret (inr (dt_error r))
    end
  | Err error =>
    r ← fail_trigger event (rt_name reg) (BindingError_to_string error);
    mret (inr (dt_error r))
  end.

Lemma handle_one_run self event reg w :
  match handle_one self event reg w with
  | (Ok o, w') => progress event [(reg, o)] w w'
  | (Err x, w') =>
    (∃ io, x = Storage io) ∧ records (w_dead_triggers w') = records (w_dead_triggers w) ∧
    w_trace_sink w' = w_trace_sink w
  end.
Proof.
  unfold handle_one, mbind, M_bind, emit at 1, modify at 1.
  set (c := Counter "triggerlane_trigger_matches_total" _).
  set (w1 := mkWorld _ _ _ _ _). assert (counters (w_effects w1) = counters (w_effects w) ++ [c]) as Hc1
    by apply counters_app.
  assert (∀ error w2, same_queue_and_sink w1 w2 → counters (w_effects w2) = counters (w_effects w1) →
    match fail_trigger event (rt_name reg) error w2 with
    | (Ok r, w') =>
      dt_error r = error ∧ (rejected_fails event (reg, inr error) → progress event [(reg, inr error)] w w')
    | (Err x, w') =>
      (∃ io, x = Storage io) ∧ records (w_dead_triggers w') = records (w_dead_triggers w) ∧
      w_trace_sink w' = w_trace_sink w
    end) as Hfail.
  { intros error w2 [Hq Hs] Hc. pose proof (fail_trigger_run event reg error w2) as Hf.
    rewrite Hq, Hs in Hf. destruct (fail_trigger _ _ _ w2) as [[r|x] w3]; [|done].
    destruct Hf as (-> & Hr & Hs3 & He). split; [done|]. intros Hrej.
    constructor; [done|done| |by repeat constructor]. by rewrite He, counters_app, Hc, Hc1, <-app_assoc. }
  destruct (rt_binding reg event) as [job|error] eqn:Hb.
  - assert (∀ o, rejected_fails event (reg, o)) as Hrej by (intros o e He; simpl in He; congruence).
    unfold catch. pose proof (enqueue_with_retries_frame self job (submission_key event (rt_name reg)) w1) as Hf.
    pose proof (enqueue_with_retries_counters self job (submission_key event (rt_name reg)) w1) as Hc.
    destruct (enqueue_with_retries _ _ _ w1) as [[id|error] w2].
    + destruct Hf as [Hq Hs]. rewrite Hc1 in Hc. simpl in Hq, Hs, Hc. constructor; simpl; [by rewrite app_nil_r, Hq|exact Hs| |by repeat constructor].
      by rewrite counters_app, Hc, <-app_assoc.
    + specialize (Hfail (Error_to_string error) w2 Hf Hc).
      destruct (fail_trigger _ _ _ w2) as [[r|x] w3]; [|done]. destruct Hfail as [-> Hp]. by apply Hp.
  - specialize (Hfail (BindingError_to_string error) w1 (reflexivity _) eq_refl).
    destruct (fail_trigger _ _ _ w1) as [[r|x] w3]; [|done]. destruct Hfail as [-> Hp]. apply Hp.
    intros e He. simpl in *. congruence.
Qed.

(** The loop is its body, once for each registration. *)
Lemma handle_loop_cons self event reg regs sub fail names w :
  handle_loop self event (reg :: regs) sub fail names w =
  (handle_one self event reg ≫= λ o,
    handle_loop self event regs (sub ++ omap outcome_submitted [(reg, o)])
      (fail ++ omap (outcome_failed event) [(reg, o)]) (names ++ [rt_name reg])) w.
Proof.
  simpl. unfold handle_one, mbind, M_bind, emit, modify.
  set (w1 := mkWorld _ _ _ _ _).
  destruct (rt_binding reg event) as [job|error].
  - unfold catch. destruct (enqueue_with_retries _ _ _ w1) as [[id|error] w2]; simpl; [by rewrite !app_nil_r|].
    pose proof (fail_trigger_run event reg (Error_to_string error) w2) as Hf.
    destruct (fail_trigger _ _ _ w2) as [[r|x] w3]; [|done]. destruct Hf as [-> _].
    unfold mret, M_ret. simpl. by rewrite app_nil_r.
  - pose proof (fail_trigger_run event reg (BindingError_to_string error) w1) as Hf.
    destruct (fail_trigger _ _ _ w1) as [[r|x] w3]; [|done]. destruct Hf as [-> _].
    unfold mret, M_ret. simpl. by rewrite app_nil_r.
Qed.

(** The loop over the matching registrations. *)
Lemma handle_loop_run self event regs sub fail names w :
  match handle_loop self event regs sub fail names w with
  | (Ok (sub', fail', names'), w') =>
    ∃ outcomes, outcomes.*1 = regs ∧ progress event outcomes w w' ∧
      sub' = sub ++ omap outcome_submitted outcomes ∧
      fail' = fail ++ omap (outcome_failed event) outcomes ∧ names' = names ++ (rt_name <$> regs)
  | (Err x, w') =>
    (∃ io, x = Storage io) ∧ w_trace_sink w' = w_trace_sink w ∧
    ∃ outcomes, outcomes.*1 `prefix_of` regs ∧ (length outcomes < length regs)%nat ∧
      records (w_dead_triggers w') = records (w_dead_triggers w) ++ omap (outcome_failed event) outcomes
  end.
Proof.
  revert sub fail names w. induction regs as [|reg regs IH]; intros sub fail names w.
  { exists []. rewrite !app_nil_r. split_and!; try done. constructor; simpl; by rewrite ?app_nil_r. }
  rewrite handle_loop_cons. unfold mbind, M_bind. pose proof (handle_one_run self event reg w) as Ho.
  destruct (handle_one self event reg w) as [[o|x] w1]; last first.
  { destruct Ho as (Hx & Hr & Hs). split; [done|]. split; [done|]. exists [].
    split; [apply prefix_nil|]. split; [simpl; lia|]. by rewrite app_nil_r. }
  specialize (IH (sub ++ omap outcome_submitted [(reg, o)]) (fail ++ omap (outcome_failed event) [(reg, o)])
    (names ++ [rt_name reg]) w1).
  destruct (handle_loop _ _ _ _ _ _ w1) as [[[[sub' fail'] names']|x] w'].
  - destruct IH as (os & <- & Hp' & -> & -> & ->). exists ([(reg, o)] ++ os).
    rewrite !omap_app, <-!app_assoc. split_and!; try done. by eapply progress_app.
  - destruct IH as (Hx & Hs & os & Hpre & Hlen & Hrec). split; [done|].
    split; [by rewrite Hs, (progress_sink _ _ _ _ Ho)|]. exists ([(reg, o)] ++ os).
    split; [by apply prefix_cons|]. split; [simpl; lia|].
    by rewrite Hrec, (progress_records _ _ _ _ Ho), omap_app, <-app_assoc.
Qed.

Lemma omap_lengths event outcomes :
  len (omap outcome_submitted outcomes) + len (omap (outcome_failed event) outcomes) = len outcomes.
Proof.
  unfold len. induction outcomes as [|[reg o] os IH]; [done|].
  rewrite !(omap_app _ [_] os : omap _ (_ :: os) = _), !length_app. destruct o; cbn [omap list_omap outcome_submitted outcome_failed snd fst length]; lia.
Qed.

(** The end of [handle], after its loop. *)
Lemma handle_run self event w :
  match handle self event w with
  | (Ok report, w') =>
    ∃ outcomes, outcomes.*1 = matching (registry self) event ∧ report = report_of event outcomes ∧
      Forall (rejected_fails event) outcomes ∧
      records (w_dead_triggers w') = records (w_dead_triggers w) ++ failed report ∧
      w_trace_sink w' = record_trace
        (from_event_report event (rt_name <$> matching (registry self) event) report) (w_trace_sink w) ∧
      counters (w_effects w') = counters (w_effects w) ++ (outcomes ≫= outcome_counters) ++
        [Counter "triggerlane_events_handled_total"
           [("source", Source_debug (ev_source event)); ("event_type", as_str (ev_type event))]] ∧
      last (w_effects w') = Some (Gauge "triggerlane_dead_triggers" [] (len (records (w_dead_triggers w'))))
  | (Err x, w') =>
    (∃ io, x = Storage io) ∧ w_trace_sink w' = w_trace_sink w ∧
    ∃ outcomes, outcomes.*1 `prefix_of` matching (registry self) event ∧
      (length outcomes < length (matching (registry self) event))%nat ∧
      records (w_dead_triggers w') = records (w_dead_triggers w) ++ omap (outcome_failed event) outcomes
  end.
Proof.
  unfold handle, mbind, M_bind.
  pose proof (handle_loop_run self event (matching (registry self) event) [] [] [] w) as Hl.
  destruct (handle_loop _ _ _ _ _ _ w) as [[[[sub fail] names]|x] w1]; [|exact Hl].
  destruct Hl as (os & Hos & [Hr Hs Hc Hj] & -> & -> & ->). simpl.
  exists os. split_and!; try done; simpl.
  - by rewrite Hs.
  - rewrite !counters_app, Hc. simpl. by rewrite !app_nil_r, <-app_assoc.
  - by rewrite last_snoc, dq_len_view.
Qed.

(** C2: every registration that matches an event is accounted for, in order:
    its job was submitted, or its failure is a record that names it and the
    event, in the report and at the end of the dead-trigger queue; a rejected
    binding is such a failure. The counters increment accordingly, the queue's
    depth is published and the trace names every matching trigger. *)
Theorem handle_accounts_for_every_trigger self event w report w' :
  handle self event w = (Ok report, w') →
  ∃ outcomes, outcomes.*1 = matching (registry self) event ∧ report = report_of event outcomes ∧
    len (submitted report) + len (failed report) = len (matching (registry self) event) ∧
    Forall (rejected_fails event) outcomes ∧
    records (w_dead_triggers w') = records (w_dead_triggers w) ++ failed report ∧
    w_trace_sink w' = record_trace
      (from_event_report event (rt_name <$> matching (registry self) event) report) (w_trace_sink w) ∧
    counters (w_effects w') = counters (w_effects w) ++ (outcomes ≫= outcome_counters) ++
      [Counter "triggerlane_events_handled_total"
         [("source", Source_debug (ev_source event)); ("event_type", as_str (ev_type event))]] ∧
    last (w_effects w') = Some (Gauge "triggerlane_dead_triggers" [] (len (records (w_dead_triggers w')))).
Proof.
  intros Hh. pose proof (handle_run self event w) as Hr. rewrite Hh in Hr.
  destruct Hr as (os & Hos & -> & Hr). exists os. split; [done|]. split; [done|]. split; [|exact Hr].
  simpl. rewrite omap_lengths, <-Hos. unfold len. by rewrite length_fmap.
Qed.

(** Handling fails only when a dead trigger cannot be recorded. Nothing
    already in the queue is lost, the failures recorded before are of this event,
    no trace is written, and at least one matching trigger was left out. *)
Theorem handle_error_is_storage self event w x w' :
  handle self event w = (Err x, w') →
  (∃ io, x = Storage io) ∧ w_trace_sink w' = w_trace_sink w ∧
  ∃ outcomes, outcomes.*1 `prefix_of` matching (registry self) event ∧
    (length outcomes < length (matching (registry self) event))%nat ∧
    records (w_dead_triggers w') = records (w_dead_triggers w) ++ omap (outcome_failed event) outcomes.
Proof. intros Hh. pose proof (handle_run self event w) as Hr. by rewrite Hh in Hr. Qed.

(** What [dq_record] keeps of the queue, handling keeps. *)
Section queue_invariant.
Context (good : Q → Prop).
Hypothesis record_good : ∀ r q q', dq_record r q = (Ok tt, q') → good q → good q'.

Lemma fail_trigger_good event name error w r w' :
  fail_trigger event name error w = (Ok r, w') → good (w_dead_triggers w) → good (w_dead_triggers w').
Proof.
  unfold fail_trigger, mapM_err, record_dead_trigger, on_dead_triggers, zoom, emit, modify, mbind, M_bind. simpl.
  destruct (dq_record _ (w_dead_triggers w)) as [[[]|x] q] eqn:Hq; [|done]. intros [= _ <-]. by eapply record_good.
Qed.

Lemma handle_one_good self event reg w o w' :
  handle_one self event reg w = (Ok o, w') → good (w_dead_triggers w) → good (w_dead_triggers w').
Proof.
  unfold handle_one, mbind, M_bind, emit, modify. set (w1 := mkWorld _ _ _ _ _).
  assert (∀ error w2, w_dead_triggers w2 = w_dead_triggers w → ∀ o w',
    match fail_trigger event (rt_name reg) error w2 with
    | (Ok a, s') => (Ok (inr (dt_error a) : outcome), s')
    | (Err e, s') => (Err e, s')
    end = (Ok o, w') → good (w_dead_triggers w) → good (w_dead_triggers w')) as Hfail.
  { intros error w2 Hw2 o2 w3. destruct (fail_trigger _ _ _ w2) as [[r|x] w4] eqn:Hf; [|done].
    intros [= _ <-] Hg. eapply fail_trigger_good; [exact Hf|]. by rewrite Hw2. }
  destruct (rt_binding reg event) as [job|error]; [|by apply Hfail].
  unfold catch. pose proof (enqueue_with_retries_frame self job (submission_key event (rt_name reg)) w1) as [Hq _].
  destruct (enqueue_with_retries _ _ _ w1) as [[id|error] w2]; [|by apply Hfail].
  intros [= _ <-]. simpl in *. by rewrite Hq.
Qed.

Lemma handle_loop_good self event regs sub fail names w acc w' :
  handle_loop self event regs sub fail names w = (Ok acc, w') → good (w_dead_triggers w) → good (w_dead_triggers w').
Proof.
  revert sub fail names w. induction regs as [|reg regs IH]; intros sub fail names w.
  { simpl. unfold mret, M_ret. by intros [= _ <-]. }
  rewrite handle_loop_cons. unfold mbind, M_bind. destruct (handle_one self event reg w) as [[o|x] w1] eqn:Ho; [|done].
  intros Hr Hg. eapply IH; [exact Hr|]. by eapply handle_one_good.
Qed.

Lemma handle_good self event w report w' :
  handle self event w = (Ok report, w') → good (w_dead_triggers w) → good (w_dead_triggers w').
Proof.
  unfold handle, mbind, M_bind. destruct (handle_loop _ _ _ _ _ _ w) as [[[[sub fail] names]|x] w1] eqn:Hl; [|done].
  intros Hr Hg. apply handle_loop_good in Hl; [|done]. simpl in Hr. by injection Hr as _ <-.
Qed.
End queue_invariant.
End handling.
