(* ===== verification/Replay.v ===== *)
(** * Replay and retry

    With a broker that deduplicates by unique key ([DedupBroker], what Worklane
    documents), handling an event again submits nothing but what had failed. A range
    replay handles exactly the events its preview shows. A retry pass over the
    dead-trigger queue, what it counts, and what it loses when it fails. *)

From stdpp Require Import base gmap strings list.
From Stdlib Require Import ZArith Lia.
From S2P Require Import Prelude RustStd Event Trigger Retention Store Runtime Submission Handling.
Local Open Scope Z_scope.

(** ** A deduplicating broker *)

(** The job a broker accepted under a unique key. A submission under a key that
    has a job answers with that job; one that fails may still have been accepted
    (its answer was lost), but replaces no job. *)
Class DedupBroker `{Worklane} (B : Type) `{!Broker B} := {
  accepted : B → string → option JobId;
  unique_key : NewJob → option string;
  unique_key_with k j : unique_key (with_unique_key k j) = Some k;
  enqueue_other j b k r b' k' :
    unique_key j = Some k → enqueue j b = (r, b') → k' ≠ k → accepted b' k' = accepted b k';
  enqueue_kept j b k r b' id :
    unique_key j = Some k → enqueue j b = (r, b') → accepted b k = Some id → accepted b' k = Some id;
  enqueue_answer j b k id b' :
    unique_key j = Some k → enqueue j b = (Ok id, b') → accepted b' k = Some id;
}.

Section dedup.
Context `{UuidText} `{Worklane} {B Q K : Type} `{!Broker B} `{!DedupBroker B} `{!DeadTriggerQueue Q} `{!TraceSink K}.
Context `{Serialize DeadTriggerRecord} `{!DeadTriggerQueueSpec Q}.
Implicit Types w : World B Q K.

(** From [w] to [w'], only jobs under the keys [P] were accepted, and none was
    replaced. *)
Definition grows (P : string → Prop) w w' : Prop :=
  (∀ k id, accepted (w_broker w) k = Some id → accepted (w_broker w') k = Some id) ∧
  (∀ k, ¬ P k → accepted (w_broker w') k = accepted (w_broker w) k).

#[export] Instance grows_preorder P : PreOrder (grows P).
Proof.
  split; [by split|]. intros w1 w2 w3 [H12 H12'] [H23 H23'].
  split; [by auto|]. intros k Hk. by rewrite H23', H12'.
Qed.

Lemma grows_impl (P P' : string → Prop) w w' : (∀ k, P k → P' k) → grows P w w' → grows P' w w'.
Proof. intros HP [Hg Ho]. split; [done|]. intros k Hk. apply Ho. auto. Qed.

(** Steps that leave the broker alone. *)
Lemma grows_same P w w' : w_broker w' = w_broker w → grows P w w'.
Proof. intros He. unfold grows. by rewrite He. Qed.

Lemma submission_loop_accepted backoff nj key remaining attempt last w r w' :
  unique_key nj = Some key → submission_loop backoff nj remaining attempt last w = (r, w') →
  grows (eq key) w w' ∧ (∀ id, r = Ok (inl id) → accepted (w_broker w') key = Some id).
Proof.
  intros Hk. revert attempt last w. induction remaining as [|n IH]; intros attempt last w Hr; simpl in Hr.
  { unfold mret, M_ret in Hr. injection Hr as <- <-. by split. }
  unfold mbind, M_bind at 1 in Hr. set (m := if attempt >? 0 then _ else _) in Hr.
  assert (∃ w1, m w = (Ok tt, w1) ∧ w_broker w1 = w_broker w) as (w1 & Hm & Hw1).
  { unfold m. destruct (attempt >? 0); [|by eexists]. destruct (negb _); by eexists. }
  rewrite Hm in Hr. unfold catch, on_broker, zoom, M_bind in Hr. rewrite Hw1 in Hr.
  destruct (enqueue nj (w_broker w)) as [o b] eqn:He.
  assert (∀ w2, w_broker w2 = b → grows (eq key) w w2) as Hg.
  { intros w2 Hw2. split; rewrite Hw2.
    - intros k id Hid. destruct (decide (k = key)) as [->|Hne].
      + by eapply enqueue_kept.
      + by rewrite (enqueue_other _ _ _ _ _ _ Hk He Hne).
    - intros k Hne. by apply (enqueue_other _ _ _ _ _ _ Hk He), not_eq_sym. }
  destruct o as [id|e].
  - unfold mret, M_ret in Hr. injection Hr as <- <-. split; [by apply Hg|].
    intros id' [= <-]. simpl. by eapply enqueue_answer.
  - apply IH in Hr as [Hg' Hid]. split; [|done]. etrans; [|exact Hg']. by apply Hg.
Qed.

Lemma enqueue_with_retries_accepted self job key w r w' :
  enqueue_with_retries self job key w = (r, w') →
  grows (eq key) w w' ∧ (∀ id, r = Ok id → accepted (w_broker w') key = Some id).
Proof.
  intros Hr. unfold enqueue_with_retries, lift, observe_lane, modify, mbind, M_bind in Hr.
  destruct (lane_try_from (job_lane job)) as [lane|e]; simpl in Hr; [|by injection Hr as <- <-].
  match type of Hr with context [submission_loop ?b ?nj ?n ?a ?l ?w1] =>
    destruct (submission_loop b nj n a l w1) as [r1 w2] eqn:Hl;
    destruct (submission_loop_accepted b nj key n a l w1 r1 w2) as [Hg Hid];
      [apply unique_key_with|done|] end.
  assert (grows (eq key) w w2) as Hg2 by (etrans; [|exact Hg]; by apply grows_same).
  destruct r1 as [[id|e]|e]; unfold mret, M_ret, throw in Hr; injection Hr as <- <-; (split; [done|]); [|done..].
  intros id' [= <-]. by apply Hid.
Qed.

Lemma fail_trigger_broker event name error w :
  w_broker (fail_trigger event name error w).2 = w_broker w.
Proof.
  unfold fail_trigger, mapM_err, record_dead_trigger, on_dead_triggers, zoom, emit, modify, mbind, M_bind. simpl.
  by destruct (dq_record _ (w_dead_triggers w)) as [[[]|x] q].
Qed.

(** A submitted outcome is the job accepted under the trigger's key. *)
Definition outcome_accepted event w (o : RegisteredTrigger * outcome) : Prop :=
  ∀ s, o.2 = inl s → ∃ id, s = JobId_to_string id ∧
    accepted (w_broker w) (submission_key event (rt_name o.1)) = Some id.

Lemma outcome_accepted_grows P event w w' o : grows P w w' → outcome_accepted event w o → outcome_accepted event w' o.
Proof. intros [Hg _] Ho s Hs. destruct (Ho s Hs) as (id & -> & Hid). eauto. Qed.

Lemma handle_one_accepted self event reg w r w' :
  handle_one self event reg w = (r, w') →
  grows (eq (submission_key event (rt_name reg))) w w' ∧
  (∀ o, r = Ok o → outcome_accepted event w' (reg, o)).
Proof.
  intros Hr. unfold handle_one, mbind, M_bind, emit, modify in Hr.
  set (w1 := mkWorld _ _ _ _ _) in Hr.
  assert (∀ error w2 r w', grows (eq (submission_key event (rt_name reg))) w w2 →
    match fail_trigger event (rt_name reg) error w2 with
    | (Ok a, s') => (Ok (inr (dt_error a) : outcome), s')
    | (Err e, s') => (Err e, s')
    end = (r, w') →
    grows (eq (submission_key event (rt_name reg))) w w' ∧
    (∀ o, r = Ok o → outcome_accepted event w' (reg, o))) as Hfail.
  { clear. intros error w2 r w' Hg Hr. pose proof (fail_trigger_broker event (rt_name reg) error w2) as Hb.
    destruct (fail_trigger _ _ _ w2) as [[a|x] w3]; injection Hr as <- <-;
      (split; [etrans; [exact Hg|by apply grows_same]|]); [|done]. by intros o [= <-] s. }
  destruct (rt_binding reg event) as [job|error].
  - unfold catch in Hr. destruct (enqueue_with_retries _ _ _ w1) as [o w2] eqn:He.
    apply enqueue_with_retries_accepted in He as [Hg Hid].
    assert (grows (eq (submission_key event (rt_name reg))) w w2) as Hg2
      by (etrans; [|exact Hg]; by apply grows_same).
    destruct o as [id|error]; [|by eapply Hfail]. unfold mret, M_ret in Hr. injection Hr as <- <-.
    split; [etrans; [exact Hg2|by apply grows_same]|]. intros o [= <-] s [= <-].
    exists id. split; [done|]. simpl. by apply Hid.
  - eapply Hfail; [|exact Hr]. by apply grows_same.
Qed.

Lemma handle_loop_accepted self event regs sub fail names w r w' :
  handle_loop self event regs sub fail names w = (r, w') →
  grows (λ k, ∃ reg, reg ∈ regs ∧ k = submission_key event (rt_name reg)) w w' ∧
  ∀ sub' fail' names', r = Ok (sub', fail', names') →
  ∃ outcomes, outcomes.*1 = regs ∧ sub' = sub ++ omap outcome_submitted outcomes ∧
    fail' = fail ++ omap (outcome_failed event) outcomes ∧ Forall (outcome_accepted event w') outcomes.
Proof.
  revert sub fail names w. induction regs as [|reg regs IH]; intros sub fail names w Hr.
  { simpl in Hr. unfold mret, M_ret in Hr. injection Hr as <- <-. split; [done|].
    intros sub' fail' names' [= <- <- <-]. exists []. by rewrite !app_nil_r. }
  rewrite handle_loop_cons in Hr. unfold mbind, M_bind in Hr.
  destruct (handle_one self event reg w) as [ro w1] eqn:Ho. apply handle_one_accepted in Ho as [Hg Ho].
  assert (grows (λ k, ∃ reg', reg' ∈ reg :: regs ∧ k = submission_key event (rt_name reg')) w w1) as Hg1.
  { eapply grows_impl; [|exact Hg]. intros k <-. exists reg. split; [left|done]. }
  destruct ro as [o|x]; [|by injection Hr as <- <-]. apply IH in Hr as [Hg2 Hos]. split.
  { etrans; [exact Hg1|]. eapply grows_impl; [|exact Hg2]. intros k (reg' & Hin & ->). exists reg'.
    split; [by right|done]. }
  intros sub' fail' names' Heq. destruct (Hos _ _ _ Heq) as (os & <- & -> & -> & Hacc).
  exists ([(reg, o)] ++ os). rewrite !omap_app, <-!app_assoc. split_and!; try done.
  constructor; [|done]. by eapply outcome_accepted_grows; [|apply Ho].
Qed.

(** The broker after [handle], and the jobs of its report. *)
Lemma handle_accepted self event w r w' :
  handle self event w = (r, w') →
  grows (λ k, ∃ reg, reg ∈ matching (registry self) event ∧ k = submission_key event (rt_name reg)) w w' ∧
  ∀ report, r = Ok report →
  ∃ outcomes, outcomes.*1 = matching (registry self) event ∧ report = report_of event outcomes ∧
    Forall (outcome_accepted event w') outcomes.
Proof.
  intros Hr. unfold handle, mbind, M_bind in Hr.
  destruct (handle_loop _ _ _ _ _ _ w) as [o w1] eqn:Hl. apply handle_loop_accepted in Hl as [Hg Ho].
  destruct o as [[[sub fail] names]|x]; [|by injection Hr as <- <-].
  destruct (Ho _ _ _ eq_refl) as (os & Hos & -> & -> & Hacc). simpl in Hr. injection Hr as <- <-.
  split; [etrans; [exact Hg|by apply grows_same]|]. intros report [= <-]. exists os. split_and!; done.
Qed.

(** Without failures every outcome is a submission. *)
Lemma no_failures_submitted event outcomes :
  omap (outcome_failed event) outcomes = [] → Forall (λ o, ∃ s, o.2 = inl s) outcomes.
Proof.
  induction outcomes as [|[reg [s|error]] os IH]; [constructor| |done].
  intros Hf. constructor; [by eexists|]. by apply IH.
Qed.

Lemma submitted_accepted event w w' os os' :
  os.*1 = os'.*1 → grows (λ _, True) w w' →
  Forall (λ o, ∃ s, o.2 = inl s) os → Forall (λ o, ∃ s, o.2 = inl s) os' →
  Forall (outcome_accepted event w) os → Forall (outcome_accepted event w') os' →
  omap outcome_submitted os = omap outcome_submitted os'.
Proof.
  intros Heq [Hg _]. revert os' Heq. induction os as [|[reg o] os IH]; intros [|[reg' o'] os'] Heq; try done.
  simpl in Heq. injection Heq as -> Heq.
  intros [[s Hs] Hf]%Forall_cons [[s' Hs'] Hf']%Forall_cons [Ha Has]%Forall_cons [Ha' Has']%Forall_cons.
  simpl in Hs, Hs'. subst o o'. destruct (Ha s eq_refl) as (id & -> & Hid).
  destruct (Ha' s' eq_refl) as (id' & -> & Hid'). simpl in Hid, Hid'.
  rewrite (Hg _ _ Hid) in Hid'. injection Hid' as <-. cbn. f_equal. by apply IH.
Qed.

(** A job accepted while handling, under a key that had none when an earlier handling
    of the event was over, is of a trigger that had failed then. *)
Lemma added_had_failed self event os1 w2 w3 r w4 k id :
  os1.*1 = matching (registry self) event → Forall (outcome_accepted event w2) os1 → grows (λ _, True) w2 w3 →
  handle self event w3 = (r, w4) → accepted (w_broker w4) k = Some id →
  accepted (w_broker w3) k = Some id ∨
  accepted (w_broker w3) k = None ∧ ∃ reg error, (reg, inr error) ∈ os1 ∧ k = submission_key event (rt_name reg).
Proof.
  intros Hm1 Ha1 Hg Hh Hk4. apply handle_accepted in Hh as [Hg2 _].
  destruct (accepted (w_broker w3) k) as [id'|] eqn:Hk; [left; apply Hg2 in Hk; congruence|].
  right. split; [done|]. rewrite Forall_forall in Ha1.
  destruct (decide (Exists (λ o, k = submission_key event (rt_name o.1)) os1)) as [Hex|Hno].
  - apply Exists_exists in Hex as ([reg [s|error]] & Hin & ->); [|by eauto]. exfalso.
    destruct (Ha1 _ Hin s eq_refl) as (id1 & _ & Hid). apply Hg in Hid. simpl in *. congruence.
  - exfalso. assert (accepted (w_broker w4) k = None) as Hn; [|congruence]. rewrite <-Hk.
    apply Hg2. intros (reg & Hin & ->). apply Hno. rewrite <-Hm1 in Hin.
    apply list_elem_of_fmap in Hin as ([reg' o] & -> & Hin). apply Exists_exists. by exists (reg', o).
Qed.

(** A trigger submitted both times has the same job both times. *)
Lemma same_jobs event w w' os os' :
  os.*1 = os'.*1 → grows (λ _, True) w w' → Forall (outcome_accepted event w) os → Forall (outcome_accepted event w') os' →
  Forall2 (λ o o', ∀ s s', o.2 = inl s → o'.2 = inl s' → s = s') os os'.
Proof.
  intros Heq [Hg _]. revert os' Heq. induction os as [|[reg o] os IH]; intros [|[reg' o'] os'] Heq; try done.
  simpl in Heq. injection Heq as -> Heq. intros [Ha Has]%Forall_cons [Ha' Has']%Forall_cons. constructor; [|by apply IH].
  simpl. intros s s' -> ->. destruct (Ha s eq_refl) as (id & -> & Hid). destruct (Ha' s' eq_refl) as (id' & -> & Hid').
  simpl in Hid, Hid'. rewrite (Hg _ _ Hid) in Hid'. congruence.
Qed.

End dedup.

(** ** Range replay *)

Section replay.
Context `{UuidText} `{Worklane} {B Q K : Type} `{!Broker B} `{!DeadTriggerQueue Q} `{!TraceSink K}.
Implicit Types w : World B Q K.

(** The events were handled one after the other, with these reports. *)
Inductive handled (self : TriggerRuntime) : list (EventEnvelope * HandleReport) → World B Q K → World B Q K → Prop :=
| handled_nil w : handled self [] w w
| handled_cons event report rest w w1 w2 :
    handle self event w = (Ok report, w1) → handled self rest w1 w2 → handled self ((event, report) :: rest) w w2.

Lemma handled_app self l l' w w1 w2 : handled self l w w1 → handled self l' w1 w2 → handled self (l ++ l') w w2.
Proof. induction 1; [done|]. intros. simpl. econstructor; eauto. Qed.

(** What [dq_record] keeps of the queue, they keep. *)
Lemma handled_good `{Serialize DeadTriggerRecord} `{!DeadTriggerQueueSpec Q} (good : Q → Prop) self l w w' :
  (∀ r q q', dq_record r q = (Ok tt, q') → good q → good q') →
  handled self l w w' → good (w_dead_triggers w) → good (w_dead_triggers w').
Proof. intros Hr. induction 1 as [|event report rest w w1 w2 Hh _ IH]; [done|]. intros Hg. by eapply IH, handle_good. Qed.

Definition event_report (er : EventEnvelope * HandleReport) : ReplayEventReport :=
  mkReplayEventReport (EventId_to_string (ev_id er.1)) er.2.

Lemma replay_events_run self selected acc w :
  match replay_events self selected acc w with
  | (Ok rep, w') => ∃ l, l.*1 = selected ∧ handled self l w w' ∧ rrr_events rep = acc ++ (event_report <$> l)
  | (Err x, w') =>
    ∃ l event rest w1 y, selected = l.*1 ++ event :: rest ∧ handled self l w w1 ∧
      handle self event w1 = (Err y, w') ∧ x = Runtime y
  end.
Proof.
  revert acc w. induction selected as [|event sel IH]; intros acc w; simpl.
  { exists []. split; [done|]. split; [constructor|]. by rewrite app_nil_r. }
  unfold mbind, M_bind, mapM_err. destruct (handle self event w) as [[rep|y] w1] eqn:Hh; simpl.
  - specialize (IH (acc ++ [mkReplayEventReport (EventId_to_string (ev_id event)) rep]) w1).
    destruct (replay_events self sel _ w1) as [[rep'|x] w'].
    + destruct IH as (l & <- & Hl & Hr). exists ((event, rep) :: l).
      split; [done|]. split; [by econstructor|]. by rewrite Hr, <-app_assoc.
    + destruct IH as (l & e & rest & w2 & y & -> & Hl & He & ->).
      exists ((event, rep) :: l), e, rest, w2, y. split; [done|]. split; [by econstructor|done].
  - exists [], event, sel, w, y. split; [done|]. split; [constructor|done].
Qed.

(** A range replay handles exactly the events its preview shows, in append
    order and each once; those are the stored events inside [start, end) that
    the filter accepts. When handling one of them fails the replay stops there,
    with the earlier ones handled. *)
Theorem replay_range_is_preview {S} `{!EventStore S} self (store : S) start end_ flt w :
  (preview_range store start end_ flt `sublist_of` es_all store ∧
   ∀ e, e ∈ preview_range store start end_ flt ↔
     e ∈ es_all store ∧ start <= ev_timestamp e < end_ ∧ ReplayFilter_matches flt e = true) ∧
  match replay_range self store start end_ flt w with
  | (Ok rep, w') =>
    ∃ l, l.*1 = preview_range store start end_ flt ∧ handled self l w w' ∧ rrr_events rep = event_report <$> l
  | (Err x, w') =>
    ∃ l event rest w1 y, preview_range store start end_ flt = l.*1 ++ event :: rest ∧ handled self l w w1 ∧
      handle self event w1 = (Err y, w') ∧ x = Runtime y
  end.
Proof.
  split; [|exact (replay_events_run self _ [] w)]. split.
  - etrans; apply sublist_filter.
  - intros e. unfold preview_range. rewrite !list_elem_of_filter. unfold in_range.
    rewrite andb_true_iff, Z.leb_le, Z.ltb_lt. tauto.
Qed.
End replay.

(** ** Retrying dead triggers *)

Section retry.
Context `{UuidText} `{Worklane} {B Q K : Type} `{!Broker B} `{!DeadTriggerQueue Q} `{!TraceSink K}.
Context `{Serialize DeadTriggerRecord} `{!DeadTriggerQueueSpec Q}.
Implicit Types w : World B Q K.

Definition record_id (r : DeadTriggerRecord) : string := EventId_to_string (ev_id (dt_event r)).
Definition record_pair (r : DeadTriggerRecord) : string * string := (record_id r, dt_trigger_name r).

(** What the grouping loop maintains: [rs] are the records seen. *)
Record grouped (rs : list DeadTriggerRecord) (order : list string) (events : gmap string EventEnvelope)
    (failed : gmap string (gset string)) : Prop := mk_grouped {
  grouped_nodup : NoDup order;
  grouped_order id : id ∈ order ↔ id ∈ record_id <$> rs;
  grouped_events id : id ∈ order → ∃ r, r ∈ rs ∧ record_id r = id ∧ events !! id = Some (dt_event r);
  grouped_none id : id ∉ order → events !! id = None;
  grouped_failed id t : t ∈ default ∅ (failed !! id) ↔ (id, t) ∈ record_pair <$> rs;
}.

Lemma group_by_event_spec rs seen order events fl order' events' fl' :
  grouped seen order events fl → group_by_event rs order events fl = (order', events', fl') →
  grouped (seen ++ rs) order' events' fl'.
Proof.
  revert seen order events fl. induction rs as [|r rs IH]; intros seen order events fl Hg Hr; simpl in Hr.
  { injection Hr as <- <- <-. by rewrite app_nil_r. }
  change (r :: rs) with ([r] ++ rs). rewrite app_assoc. eapply IH; [|exact Hr].
  fold (record_id r). destruct Hg as [Hnd Ho He Hn Hf].
  assert (events !! record_id r = None ↔ record_id r ∉ order) as Hnew.
  { split; [|apply Hn]. intros Hnone Hin. destruct (He _ Hin) as (? & _ & _ & Hs). congruence. }
  assert (∀ id, id ∈ (match events !! record_id r with None => order ++ [record_id r] | Some _ => order end) ↔
            id ∈ order ∨ id = record_id r) as Hin.
  { intros id. destruct (events !! record_id r) eqn:Hev.
    - split; [by left|]. intros [?| ->]; [done|]. destruct (decide (record_id r ∈ order)) as [|Hno]; [done|].
      apply Hnew in Hno. congruence.
    - by rewrite elem_of_app, list_elem_of_singleton. }
  constructor.
  - destruct (events !! record_id r) eqn:Hev; [done|]. apply NoDup_app. split; [done|].
    split; [|apply NoDup_singleton]. intros x Hx ->%list_elem_of_singleton. by apply (proj1 Hnew eq_refl).
  - intros id. rewrite Hin, Ho, fmap_app, elem_of_app. simpl. by rewrite list_elem_of_singleton.
  - intros id [Hid| ->]%Hin.
    + destruct (decide (id = record_id r)) as [->|Hne].
      * exists r. rewrite lookup_insert_eq. split; [|done]. apply elem_of_app. right. left.
      * destruct (He id Hid) as (r' & Hr' & <- & Hs). exists r'. rewrite lookup_insert_ne by done.
        split; [|done]. apply elem_of_app. by left.
    + exists r. rewrite lookup_insert_eq. split; [|done]. apply elem_of_app. right. left.
  - intros id Hid. rewrite Hin in Hid. apply Decidable.not_or in Hid as [Hno Hne].
    rewrite lookup_insert_ne by done. by apply Hn.
  - intros id t. rewrite fmap_app, elem_of_app. simpl. rewrite list_elem_of_singleton.
    destruct (decide (id = record_id r)) as [->|Hne].
    + rewrite lookup_insert_eq. simpl. rewrite elem_of_union, elem_of_singleton, Hf.
      split; [intros [->|Hx]; [by right|by left]|intros [Hx|Heq]; [by right|left; unfold record_pair in Heq; congruence]].
    + rewrite lookup_insert_ne, Hf by done.
      split; [by left|]. intros [Hx|Heq]; [done|unfold record_pair in Heq; congruence].
Qed.

(** *** Counting *)

Definition sum_Z (l : list Z) : Z := foldr Z.add 0 l.

Lemma sum_Z_app l l' : sum_Z (l ++ l') = sum_Z l + sum_Z l'.
Proof. induction l as [|x l IH]; simpl; lia. Qed.

Definition size_Z (X : gset string) : Z := Z.of_nat (size X).

Lemma count_recovered_spec (P N : gset string) : count_recovered P N = (size_Z (P ∖ N), size_Z (P ∩ N)).
Proof.
  unfold count_recovered, size_Z.
  assert (∀ l r s, fold_left (λ '(recovered, still_failed) trigger,
    if bool_decide (trigger ∈ N) then (recovered, still_failed + 1) else (recovered + 1, still_failed)) l (r, s) =
    (r + len (filter (λ t, t ∉ N) l), s + len (filter (λ t, t ∈ N) l))) as Hfold.
  { intros l. induction l as [|t l IH]; intros r s; simpl; [unfold len; simpl; f_equal; lia|].
    rewrite !filter_cons. case_bool_decide as Ht.
    - rewrite decide_False by (by intros []). rewrite decide_True, IH by done. unfold len. simpl. f_equal; lia.
    - rewrite decide_True, decide_False, IH by done. unfold len. simpl. f_equal; lia. }
  rewrite Hfold, !Z.add_0_l. unfold len, size, set_size. simpl. f_equal; f_equal; apply Permutation_length.
  - apply NoDup_Permutation; [apply NoDup_filter, NoDup_elements|apply NoDup_elements|].
    intros t. rewrite list_elem_of_filter, !elem_of_elements, elem_of_difference. tauto.
  - apply NoDup_Permutation; [apply NoDup_filter, NoDup_elements|apply NoDup_elements|].
    intros t. rewrite list_elem_of_filter, !elem_of_elements, elem_of_intersection. tauto.
Qed.

Lemma size_Z_split (P N : gset string) : size_Z (P ∖ N) + size_Z (P ∩ N) = size_Z P.
Proof.
  unfold size_Z. rewrite <-Nat2Z.inj_add. f_equal.
  rewrite <-size_union by (intros t; rewrite elem_of_difference, elem_of_intersection; tauto).
  f_equal. apply set_eq. intros t.
  rewrite elem_of_union, elem_of_difference, elem_of_intersection. destruct (decide (t ∈ N)); tauto.
Qed.

(** The triggers that had failed for an event, and those that failed again. *)
Definition previous (fl : gmap string (gset string)) (er : EventEnvelope * HandleReport) : gset string :=
  default ∅ (fl !! EventId_to_string (ev_id er.1)).
Definition renewed (er : EventEnvelope * HandleReport) : gset string :=
  list_to_set (dt_trigger_name <$> failed er.2).

(** The report after the events of [l] were retried. *)
Definition retried (fl : gmap string (gset string)) (l : list (EventEnvelope * HandleReport))
    (report : DeadTriggerRetryReport) : DeadTriggerRetryReport :=
  {| drained := drained report;
     events_retried := events_retried report + len l;
     recovered := recovered report + sum_Z ((λ er, size_Z (previous fl er ∖ renewed er)) <$> l);
     still_failed := still_failed report + sum_Z ((λ er, size_Z (previous fl er ∩ renewed er)) <$> l);
     retry_submitted := retry_submitted report ++ concat ((λ er, submitted er.2) <$> l) |}.

Lemma retried_ext fl fl' l report :
  (∀ er, er ∈ l → previous fl er = previous fl' er) → retried fl l report = retried fl' l report.
Proof.
  intros Heq. unfold retried. f_equal; f_equal; f_equal; apply list_fmap_ext; intros i er Her;
    by rewrite (Heq er) by (by eapply list_elem_of_lookup_2).
Qed.

(** The loop over the distinct events. *)
Lemma retry_loop_run self order events fl report w :
  NoDup order →
  (∀ id, id ∈ order → ∃ e, events !! id = Some e ∧ EventId_to_string (ev_id e) = id) →
  match retry_loop self order events fl report w with
  | (Ok rep, w') =>
    ∃ l, handled self l w w' ∧ (λ er, EventId_to_string (ev_id er.1)) <$> l = order ∧
      (∀ er, er ∈ l → events !! EventId_to_string (ev_id er.1) = Some er.1) ∧ rep = retried fl l report
  | (Err x, w') =>
    ∃ l event rest w1, handled self l w w1 ∧ handle self event w1 = (Err x, w') ∧
      order = ((λ er, EventId_to_string (ev_id er.1)) <$> l) ++ EventId_to_string (ev_id event) :: rest ∧
      events !! EventId_to_string (ev_id event) = Some event
  end.
Proof.
  revert events fl report w. induction order as [|id order IH]; intros events fl report w Hnd Hev; simpl.
  { exists []. split; [constructor|]. split; [done|]. split; [by intros er Her%not_elem_of_nil|].
    unfold retried, len. simpl. rewrite !Z.add_0_r, app_nil_r. by destruct report. }
  apply NoDup_cons in Hnd as [Hid Hnd]. destruct (Hev id) as (e & He & Hide); [left|]. rewrite He.
  unfold mbind, M_bind. destruct (handle self e w) as [[rep|x] w1] eqn:Hh; last first.
  { exists [], e, order, w. split; [constructor|]. simpl. rewrite Hide. done. }
  rewrite count_recovered_spec.
  assert (∀ id', id' ∈ order → id' ≠ id) as Hne by (intros id' Hin ->; done).
  match goal with |- context [retry_loop self order ?ev ?f ?r w1] => specialize (IH ev f r w1 Hnd) end.
  match type of IH with ?P → _ => assert P as Hpre end.
  { intros id' Hin. rewrite lookup_delete_ne by (by apply not_eq_sym, Hne). apply Hev. by right. }
  specialize (IH Hpre). destruct (retry_loop self order _ _ _ w1) as [[rep'|x] w'].
  - destruct IH as (l & Hl & Hids & Hlev & ->). exists ((e, rep) :: l).
    split; [by econstructor|]. split; [cbn; by rewrite Hide, Hids|].
    assert (∀ er, er ∈ l → EventId_to_string (ev_id er.1) ≠ id) as Hln.
    { intros er Her. apply Hne. rewrite <-Hids. apply list_elem_of_fmap. eauto. }
    split.
    + intros er [->|Her]%elem_of_cons; [cbn; by rewrite Hide|].
      specialize (Hlev er Her). by rewrite lookup_delete_ne in Hlev by (by apply not_eq_sym, Hln).
    + rewrite (retried_ext _ fl).
      2: { intros er Her. unfold previous. by rewrite lookup_delete_ne by (by apply not_eq_sym, Hln). }
      assert (previous fl (e, rep) = default ∅ (fl !! id)) as Hprev by (unfold previous; cbn; by rewrite Hide).
      assert (renewed (e, rep) = list_to_set (dt_trigger_name <$> failed rep)) as Hren by done.
      unfold retried, len, sum_Z. cbn. rewrite Hprev, Hren, <-app_assoc. f_equal; lia.
  - destruct IH as (l & e' & rest & w2 & Hl & He' & Hids & Hev'). exists ((e, rep) :: l), e', rest, w2.
    split; [by econstructor|]. split; [done|]. split; [cbn; by rewrite Hide, Hids|].
    rewrite lookup_delete_ne in Hev'; [done|]. apply not_eq_sym, Hne. rewrite Hids. apply elem_of_app. right. left.
Qed.

(** The number of distinct elements of a list. *)
Definition distinct {A} `{EqDecision A} (l : list A) : Z := len (remove_dups l).

Lemma distinct_le {A} `{EqDecision A} (l : list A) : distinct l <= len l ∧ (distinct l = len l ↔ NoDup l).
Proof.
  unfold distinct, len. induction l as [|x l [Hle IH]]; simpl; [split; [done|]; split; [constructor|done]|].
  case_decide as Hx.
  - split; [lia|]. split; [lia|]. intros [Hno _]%NoDup_cons. done.
  - simpl. split; [lia|]. rewrite NoDup_cons, <-IH. split; [intros; split; [done|lia]|intros [_ ?]; lia].
Qed.

Lemma length_bind_sum {A C} (f : A → list C) l : len (l ≫= f) = sum_Z ((λ x, len (f x)) <$> l).
Proof.
  induction l as [|x l IH]; [done|]. change ((x :: l) ≫= f) with (f x ++ (l ≫= f)).
  change (sum_Z _) with (len (f x) + sum_Z ((λ x, len (f x)) <$> l)).
  rewrite <-IH. unfold len. rewrite length_app. lia.
Qed.

(** The groups partition the distinct (event, trigger) pairs. *)
Lemma grouped_pairs rs order events fl :
  grouped rs order events fl →
  sum_Z ((λ id, size_Z (default ∅ (fl !! id))) <$> order) = distinct (record_pair <$> rs) ∧
  len order = distinct (record_id <$> rs).
Proof.
  intros [Hnd Ho _ _ Hf]. unfold distinct. split.
  - transitivity (len (order ≫= λ id, (id,.) <$> elements (default ∅ (fl !! id)))).
    + rewrite length_bind_sum. f_equal. apply list_fmap_ext. intros i id _.
      unfold size_Z, size, set_size, len. simpl. by rewrite length_fmap.
    + unfold len. f_equal. apply Permutation_length, NoDup_Permutation.
      * apply NoDup_bind; [|intros id _; apply NoDup_fmap; [by intros ?? [= ->]|apply NoDup_elements]|done].
        intros id id' p _ _ (t & -> & _)%list_elem_of_fmap (t' & Heq & _)%list_elem_of_fmap. congruence.
      * apply NoDup_remove_dups.
      * intros [id t]. rewrite elem_of_remove_dups, <-Hf, list_elem_of_bind. split.
        -- intros (id' & (t' & Heq & Ht)%list_elem_of_fmap & _). injection Heq as -> ->.
           by apply elem_of_elements in Ht.
        -- intros Ht. exists id. split; [apply list_elem_of_fmap; exists t; split; [done|by apply elem_of_elements]|].
           apply Hf in Ht. apply Ho. apply list_elem_of_fmap in Ht as (r & Heq & Hr).
           apply list_elem_of_fmap. exists r. split; [|done]. unfold record_pair in Heq. congruence.
  - unfold len. f_equal. apply Permutation_length, NoDup_Permutation; [done|apply NoDup_remove_dups|].
    intros id. by rewrite elem_of_remove_dups, Ho.
Qed.

(** *** The pass *)

Lemma handle_records self event w report w' :
  handle self event w = (Ok report, w') →
  records (w_dead_triggers w') = records (w_dead_triggers w) ++ failed report ∧
  Forall (λ r, dt_event r = event) (failed report).
Proof.
  intros Hh. pose proof (handle_run self event w) as Hr. rewrite Hh in Hr.
  destruct Hr as (os & _ & -> & _ & Hrec & _). split; [exact Hrec|]. simpl. clear.
  induction os as [|[reg [s|error]] os IH]; [constructor|done|]. by constructor.
Qed.

Lemma handled_records self l w w' :
  handled self l w w' →
  records (w_dead_triggers w') = records (w_dead_triggers w) ++ concat ((λ er, failed er.2) <$> l) ∧
  Forall (λ r, ∃ er, er ∈ l ∧ dt_event r = er.1) (concat ((λ er, failed er.2) <$> l)).
Proof.
  induction 1 as [w|event report rest w w1 w2 Hh _ [Hr Hf]]; simpl; [by rewrite app_nil_r|].
  apply handle_records in Hh as [Hr1 Hf1]. rewrite Hr, Hr1, app_assoc. split; [done|].
  apply Forall_app. split.
  - eapply Forall_impl; [exact Hf1|]. intros r Hev. exists (event, report). split; [left|done].
  - eapply Forall_impl; [exact Hf|]. intros r (er & Her & Hev). exists er. split; [by right|done].
Qed.

Lemma grouped_nil : grouped [] [] ∅ ∅.
Proof.
  constructor; [constructor|done|by intros id Hid%not_elem_of_nil|done|].
  intros id t. rewrite lookup_empty. simpl. set_solver.
Qed.

(** A pass is a drain, then the loop over the groups. *)
Lemma retry_run self w :
  match on_dead_triggers (E := io_error) dq_drain w with
  | (Err x, w') => retry_dead_triggers self w = (Err (Storage x), w') ∧ records (w_dead_triggers w') = records (w_dead_triggers w)
  | (Ok rs, w0) =>
    rs = records (w_dead_triggers w) ∧ records (w_dead_triggers w0) = [] ∧ w_broker w0 = w_broker w ∧
    ∃ order events fl, grouped rs order events fl ∧
      retry_dead_triggers self w =
      match retry_loop self order events fl (mkDeadTriggerRetryReport (len rs) 0 0 0 []) w0 with
      | (Ok rep, w1) => (Ok rep, (record_dead_trigger_depth (E := RuntimeError) w1).2)
      | (Err x, w1) => (Err x, w1)
      end
  end.
Proof.
  unfold retry_dead_triggers, mapM_err, mbind, M_bind.
  destruct (on_dead_triggers dq_drain w) as [[rs|x] w0] eqn:Hd; unfold on_dead_triggers, zoom in Hd;
    destruct (dq_drain (w_dead_triggers w)) as [r q] eqn:Hq; injection Hd as -> <-; simpl.
  - apply dq_drain_ok in Hq as [-> Hq]. do 3 (split; [done|]).
    destruct (group_by_event _ [] ∅ ∅) as [[order events] fl] eqn:Hg. exists order, events, fl.
    split; [exact (group_by_event_spec _ [] _ _ _ _ _ _ grouped_nil Hg)|].
    by destruct (retry_loop _ _ _ _ _ _) as [[rep|x] w1].
  - split; [done|]. by apply dq_drain_err in Hq.
Qed.

Lemma grouped_lookup rs order events fl id :
  grouped rs order events fl → id ∈ order → ∃ e, events !! id = Some e ∧ EventId_to_string (ev_id e) = id.
Proof. intros Hg Hid. destruct (grouped_events _ _ _ _ Hg id Hid) as (r & _ & <- & Hs). by eexists. Qed.

(** What a pass that completes does; only handling touches the broker. *)
Lemma retry_pass_run self w rep w' :
  retry_dead_triggers self w = (Ok rep, w') →
  let rs := records (w_dead_triggers w) in
  ∃ l w0 w1, (w_broker w0 = w_broker w ∧ w_broker w' = w_broker w1 ∧ w_dead_triggers w' = w_dead_triggers w1) ∧
    records (w_dead_triggers w0) = [] ∧ handled self l w0 w1 ∧
    NoDup ((λ er, EventId_to_string (ev_id er.1)) <$> l) ∧
    (∀ er, er ∈ l → ∃ r, r ∈ rs ∧ dt_event r = er.1) ∧
    (∀ r, r ∈ rs → ∃ er, er ∈ l ∧ EventId_to_string (ev_id er.1) = record_id r) ∧
    records (w_dead_triggers w') = concat ((λ er, failed er.2) <$> l) ∧
    retry_submitted rep = concat ((λ er, submitted er.2) <$> l) ∧
    drained rep = len rs ∧ events_retried rep = distinct (record_id <$> rs) ∧
    recovered rep + still_failed rep = distinct (record_pair <$> rs) ∧
    (recovered rep + still_failed rep = drained rep ↔ NoDup (record_pair <$> rs)).
Proof.
  intros Hr rs. pose proof (retry_run self w) as Hrun.
  destruct (on_dead_triggers dq_drain w) as [[rs'|x] w0]; [|by destruct Hrun as [Hrun _]; rewrite Hrun in Hr].
  destruct Hrun as (-> & Hempty & Hbroker & order & events & fl & Hg & Hrun). fold rs in Hg, Hrun. rewrite Hr in Hrun.
  pose proof (retry_loop_run self order events fl (mkDeadTriggerRetryReport (len rs) 0 0 0 []) w0
    (grouped_nodup _ _ _ _ Hg) (λ id, grouped_lookup _ _ _ _ id Hg)) as Hl.
  destruct (retry_loop self order events fl _ w0) as [[rep'|x] w1]; [|done]. injection Hrun as -> ->.
  destruct Hl as (l & Hl & Hids & Hev & ->). exists l, w0, w1.
  destruct (grouped_pairs _ _ _ _ Hg) as [Hpairs Hlen]. destruct (handled_records _ _ _ _ Hl) as [Hrec _].
  assert (sum_Z ((λ er, size_Z (previous fl er ∖ renewed er)) <$> l) +
          sum_Z ((λ er, size_Z (previous fl er ∩ renewed er)) <$> l) = distinct (record_pair <$> rs)) as Hsum.
  { rewrite <-Hpairs, <-Hids. clear. induction l as [|er l IH]; [done|]. cbn [fmap list_fmap sum_Z foldr] in *.
    pose proof (size_Z_split (previous fl er) (renewed er)). unfold previous in *. unfold sum_Z in *. lia. }
  do 3 (split; [done|]). split; [rewrite Hids; apply Hg|]. split_and!; simpl.
  - intros er Her. assert (EventId_to_string (ev_id er.1) ∈ order) as Hin.
    { rewrite <-Hids. apply list_elem_of_fmap. eauto. }
    destruct (grouped_events _ _ _ _ Hg _ Hin) as (r & Hr' & _ & Hs). exists r. split; [done|].
    rewrite (Hev er Her) in Hs. congruence.
  - intros r Hin. assert (record_id r ∈ order) as Ho.
    { apply (grouped_order _ _ _ _ Hg). apply list_elem_of_fmap. eauto. }
    rewrite <-Hids in Ho. apply list_elem_of_fmap in Ho as (er & Heq & Her). eauto.
  - by rewrite Hrec, Hempty.
  - done.
  - done.
  - rewrite <-Hlen, <-Hids. unfold len. by rewrite length_fmap.
  - exact Hsum.
  - rewrite Z.add_0_l, Z.add_0_l, Hsum. destruct (distinct_le (record_pair <$> rs)) as [_ Heq].
    rewrite <-Heq. unfold len. by rewrite length_fmap.
Qed.

(** C25: a retry pass takes every record out of the queue, handles each distinct
    failed event once, and leaves exactly the renewed failures in the queue. Its
    counters: the drained records, the distinct events, and [recovered] and
    [still_failed], which add up to the number of distinct (event, trigger)
    pairs: they partition the drained records only if no pair was recorded
    twice. *)
Theorem retry_pass self w rep w' :
  retry_dead_triggers self w = (Ok rep, w') →
  let rs := records (w_dead_triggers w) in
  ∃ l w0 w1, records (w_dead_triggers w0) = [] ∧ handled self l w0 w1 ∧
    NoDup ((λ er, EventId_to_string (ev_id er.1)) <$> l) ∧
    (∀ er, er ∈ l → ∃ r, r ∈ rs ∧ dt_event r = er.1) ∧
    (∀ r, r ∈ rs → ∃ er, er ∈ l ∧ EventId_to_string (ev_id er.1) = record_id r) ∧
    records (w_dead_triggers w') = concat ((λ er, failed er.2) <$> l) ∧
    retry_submitted rep = concat ((λ er, submitted er.2) <$> l) ∧
    drained rep = len rs ∧ events_retried rep = distinct (record_id <$> rs) ∧
    recovered rep + still_failed rep = distinct (record_pair <$> rs) ∧
    (recovered rep + still_failed rep = drained rep ↔ NoDup (record_pair <$> rs)).
Proof.
  intros Hr. destruct (retry_pass_run self w rep w' Hr) as (l & w0 & w1 & _ & Hpass). by exists l, w0, w1.
Qed.

(** What the operations on the queue keep, a pass keeps. *)
Lemma retry_loop_good (good : Q → Prop) self order events fl rep0 w rep w' :
  (∀ r q q', dq_record r q = (Ok tt, q') → good q → good q') →
  retry_loop self order events fl rep0 w = (Ok rep, w') → good (w_dead_triggers w) → good (w_dead_triggers w').
Proof.
  intros Hrec. revert events fl rep0 w. induction order as [|id order IH]; intros events fl rep0 w Hr; simpl in Hr.
  { unfold mret, M_ret in Hr. by injection Hr as _ <-. }
  destruct (events !! id) as [event|]; [|by eapply IH]. unfold mbind, M_bind in Hr.
  destruct (handle self event w) as [[result|x] w1] eqn:Hh; [|done]. destruct (count_recovered _ _) as [r s].
  intros Hg. eapply IH; [exact Hr|]. by eapply handle_good.
Qed.

Lemma retry_good (good : Q → Prop) self w rep w' :
  (∀ r q q', dq_record r q = (Ok tt, q') → good q → good q') →
  (∀ l q q', dq_drain q = (Ok l, q') → good q → good q') →
  retry_dead_triggers self w = (Ok rep, w') → good (w_dead_triggers w) → good (w_dead_triggers w').
Proof.
  intros Hrec Hdrain Hr Hg. unfold retry_dead_triggers, mapM_err, on_dead_triggers, zoom, mbind, M_bind in Hr.
  destruct (dq_drain (w_dead_triggers w)) as [[rs|x] q] eqn:Hd; [|done]. apply Hdrain in Hd; [|done].
  simpl in Hr. destruct (group_by_event rs [] ∅ ∅) as [[order events] fl]. match type of Hr with context [retry_loop self order events fl ?rep0 ?w0] =>
    destruct (retry_loop self order events fl rep0 w0) as [[rep1|x] w1] eqn:Hl end; [|done].
  apply (retry_loop_good good) in Hl; [|done..]. injection Hr as _ <-. exact Hl.
Qed.

(** A pass that fails after the drain loses records: what is left in the
    queue was recorded during the pass, for events it got to; the drained
    records of the events it had not handled are gone. *)
Theorem retry_error_loses_records self w x w' :
  retry_dead_triggers self w = (Err x, w') →
  records (w_dead_triggers w') = records (w_dead_triggers w) ∨
  ∃ done_ current rest, NoDup (done_ ++ current :: rest) ∧
    (∀ r, r ∈ records (w_dead_triggers w) → record_id r ∈ done_ ++ current :: rest) ∧
    ∀ r, r ∈ records (w_dead_triggers w') → record_id r ∈ done_ ++ [current].
Proof.
  intros Hr. pose proof (retry_run self w) as Hrun.
  destruct (on_dead_triggers dq_drain w) as [[rs'|y] w0].
  2: { left. destruct Hrun as [Hrun Hq]. rewrite Hrun in Hr. by injection Hr as _ <-. }
  right. destruct Hrun as (-> & Hempty & _ & order & events & fl & Hg & Hrun). rewrite Hr in Hrun.
  set (rs := records (w_dead_triggers w)) in *.
  pose proof (retry_loop_run self order events fl (mkDeadTriggerRetryReport (len rs) 0 0 0 []) w0
    (grouped_nodup _ _ _ _ Hg) (λ id, grouped_lookup _ _ _ _ id Hg)) as Hl.
  destruct (retry_loop self order events fl _ w0) as [[rep'|y] w1]; [done|]. injection Hrun as <- <-.
  destruct Hl as (l & event & rest & w2 & Hl & Hh & Hids & _).
  eexists _, _, _. rewrite <-Hids. split; [apply Hg|]. split.
  { intros r Hin. apply (grouped_order _ _ _ _ Hg). apply list_elem_of_fmap. eauto. }
  destruct (handled_records _ _ _ _ Hl) as [Hrec Hf]. rewrite Hempty in Hrec.
  pose proof (handle_run self event w2) as Hrun. rewrite Hh in Hrun.
  destruct Hrun as (_ & _ & os & _ & _ & Hrec'). rewrite Hrec', Hrec. simpl.
  intros r [Hin|Hin]%elem_of_app; apply elem_of_app.
  - left. rewrite Forall_forall in Hf. destruct (Hf r Hin) as (er & Her & Hev).
    apply list_elem_of_fmap. exists er. split; [|done]. unfold record_id. by rewrite Hev.
  - right. apply list_elem_of_singleton. unfold record_id.
    apply list_elem_of_omap in Hin as ([reg [s|e]] & _ & Ho); [done|]. by injection Ho as <-.
Qed.
End retry.
