(* ===== verification/RuntimeRuns.v ===== *)
(** * Sample runs of the runtime

    A sample Worklane (an in-memory broker that deduplicates by unique key and
    can be switched off), a sample registry, and the theorems on the runtime
    applied to them. *)

From stdpp Require Import base gmap strings list pretty.
From Stdlib Require Import ZArith Lia.
From S2P Require Import Prelude RustStd Event Trigger Retention Store FileSystem Jsonl FileStore Samples StorageRuns.
From S2P Require Import Runtime Submission Handling Replay.
Local Open Scope Z_scope.

(** ** A sample Worklane *)

Record SampleJob := mkSampleJob {
  sj_lane : string;
  sj_kind : string;
  sj_payload : bytes;
  sj_max_attempts : Z;
  sj_key : option string;
}.

#[export] Instance sample_Worklane : Worklane := {
  Lane := string;
  lane_try_from s := if decide (s = "") then Err "a lane needs a name" else Ok s;
  JobId := N;
  JobId_to_string := pretty;
  NewJob := SampleJob;
  NewJob_new lane kind payload attempts := mkSampleJob lane kind payload attempts None;
  with_unique_key key j := mkSampleJob (sj_lane j) (sj_kind j) (sj_payload j) (sj_max_attempts j) (Some key);
  Error := string;
  Error_Broker s := s;
  Error_to_string e := "broker error: " +:+ e;
}.

(** The jobs accepted under a key, how many there are, and whether it is up. *)
Record SampleBroker := mkSampleBroker {
  sb_jobs : gmap string N;
  sb_next : N;
  sb_up : bool;
}.

Definition sample_enqueue (j : SampleJob) : M SampleBroker string N := λ b,
  if sb_up b then
    match sj_key j with
    | Some key =>
      match sb_jobs b !! key with
      | Some id => (Ok id, b)
      | None => (Ok (sb_next b), mkSampleBroker (<[key := sb_next b]> (sb_jobs b)) (sb_next b + 1) true)
      end
    | None => (Ok (sb_next b), mkSampleBroker (sb_jobs b) (sb_next b + 1) true)
    end
  else (Err "connection refused", b).

#[export] Instance sample_Broker : Broker SampleBroker := {
  enqueue := sample_enqueue;
  pending_count _ := λ b, (Ok (Z.of_N (sb_next b)), b);
}.

#[export] Instance sample_DedupBroker : DedupBroker SampleBroker.
Proof.
  refine {| accepted b k := sb_jobs b !! k; unique_key j := sj_key j |}.
  - done.
  - intros j b k r b' k' Hk He Hne. simpl in He. unfold sample_enqueue in He. simpl in Hk. rewrite Hk in He.
    destruct (sb_up b); [|by injection He as _ <-].
    destruct (sb_jobs b !! k); injection He as _ <-; [done|]. simpl. by rewrite lookup_insert_ne.
  - intros j b k r b' id Hk He Hid. simpl in He. unfold sample_enqueue in He. simpl in Hk. rewrite Hk in He.
    destruct (sb_up b); [|by injection He as _ <-]. 
    destruct (sb_jobs b !! k) eqn:Hj; [|done]. injection He as _ <-. exact (eq_trans Hj Hid).
  - intros j b k id b' Hk He. simpl in He. unfold sample_enqueue in He. simpl in Hk. rewrite Hk in He.
    destruct (sb_up b); [|done].
    destruct (sb_jobs b !! k) eqn:Hid; injection He as <- <-; [done|]. simpl. by rewrite lookup_insert_eq.
Defined.

(** ** A sample runtime *)

Definition issue_trigger : RegisteredTrigger :=
  RegisteredTrigger_new "issues" 0 (mkEventTypeTrigger (mkEventType EVENT_GITHUB_ISSUE_CREATED))
    (WorklaneJobBinding_new "triage" "triage-issue" 3).

Definition rejecting_trigger : RegisteredTrigger :=
  RegisteredTrigger_new "strict" 10 (mkEventTypeTrigger (mkEventType EVENT_GITHUB_ISSUE_CREATED))
    (with_payload_transform (WorklaneJobBinding_new "triage" "triage-issue" 3) (λ _, Err (Rejected "no label"))).

Definition sample_runtime : TriggerRuntime :=
  mkTriggerRuntime (registry_of [issue_trigger; rejecting_trigger]) (mkRuntimeOptions 3 (duration_from_millis 100)).

Definition quiet_runtime : TriggerRuntime :=
  mkTriggerRuntime (registry_of [issue_trigger]) (mkRuntimeOptions 3 (duration_from_millis 100)).

Abbreviation SampleWorld := (World SampleBroker InMemoryDeadTriggerQueue InMemoryTraceSink).

Definition broker_up : SampleBroker := mkSampleBroker ∅ 0 true.
Definition broker_down : SampleBroker := mkSampleBroker ∅ 0 false.

Definition sample_world (b : SampleBroker) : SampleWorld :=
  mkWorld b InMemoryDeadTriggerQueue_new (mkInMemoryTraceSink []) ∅ [].

(** The higher priority runs first and is rejected; the other one is submitted. *)
Definition sample_report : HandleReport :=
  mkHandleReport ["0"] [mkDeadTriggerRecord event1 "strict" "binding rejected event: no label"].

Definition sample_handled : SampleWorld := (handle sample_runtime event1 (sample_world broker_up)).2.

Lemma sample_handled_run : handle sample_runtime event1 (sample_world broker_up) = (Ok sample_report, sample_handled).
Proof. unfold sample_handled. apply (run_ok (handle sample_runtime event1) (sample_world broker_up)). vm_compute. reflexivity. Qed.

Lemma handle_accounts_for_every_trigger_witness :
  ∃ outcomes, outcomes.*1 = matching (registry sample_runtime) event1 ∧ sample_report = report_of event1 outcomes ∧
    len (submitted sample_report) + len (failed sample_report) = len (matching (registry sample_runtime) event1) ∧
    Forall (rejected_fails event1) outcomes ∧
    records (w_dead_triggers sample_handled) = records (w_dead_triggers (sample_world broker_up)) ++ failed sample_report ∧
    w_trace_sink sample_handled = record_trace
      (from_event_report event1 (rt_name <$> matching (registry sample_runtime) event1) sample_report)
      (w_trace_sink (sample_world broker_up)) ∧
    counters (w_effects sample_handled) = counters (w_effects (sample_world broker_up)) ++ (outcomes ≫= outcome_counters) ++
      [Counter "triggerlane_events_handled_total"
         [("source", Source_debug (ev_source event1)); ("event_type", as_str (ev_type event1))]] ∧
    last (w_effects sample_handled) =
      Some (Gauge "triggerlane_dead_triggers" [] (len (records (w_dead_triggers sample_handled)))).
Proof. apply (handle_accounts_for_every_trigger sample_runtime). exact sample_handled_run. Defined.

(** A dead-trigger queue on a full disk. *)
Definition full_queue : FileDeadTriggerQueue * FS :=
  match fdq_open sample_path fs_empty with
  | (Ok q, fs) => (q, set_faults [Some (mkFault (mkIoError (OsError 28) "No space left on device") 3)] fs)
  | (Err _, fs) => (mkFileDeadTriggerQueue (mkJsonlStore sample_path [] 0), fs)
  end.

Definition full_world : World SampleBroker (FileDeadTriggerQueue * FS) InMemoryTraceSink :=
  mkWorld broker_up full_queue (mkInMemoryTraceSink []) ∅ [].

Lemma handle_error_is_storage_witness :
  (∃ io, Storage (mkIoError (OsError 28) "No space left on device") = Storage io) ∧
  w_trace_sink (handle sample_runtime event1 full_world).2 = w_trace_sink full_world ∧
  ∃ outcomes, outcomes.*1 `prefix_of` matching (registry sample_runtime) event1 ∧
    (length outcomes < length (matching (registry sample_runtime) event1))%nat ∧
    records (w_dead_triggers (handle sample_runtime event1 full_world).2) =
    records (w_dead_triggers full_world) ++ omap (outcome_failed event1) outcomes.
Proof.
  apply (handle_error_is_storage sample_runtime).
  apply (run_ok (handle sample_runtime event1) full_world). vm_compute. reflexivity.
Defined.

(** *** Submission *)

Definition recording_world : World (Recording SampleBroker) InMemoryDeadTriggerQueue InMemoryTraceSink :=
  mkWorld (mkRecording broker_down []) InMemoryDeadTriggerQueue_new (mkInMemoryTraceSink []) ∅ [].

Definition sample_job : WorklaneJob := WorklaneJob_new "triage" "triage-issue" [] 3.

Lemma submission_attempts_witness :
  ∃ n : nat, 1 <= Z.of_nat n <= 3 ∧
    rec_calls (w_broker (enqueue_with_retries sample_runtime sample_job "k1:issues" recording_world).2) =
      replicate n (mkSampleJob "triage" "triage-issue" [] 3 (Some "k1:issues")) ∧
    w_effects (enqueue_with_retries sample_runtime sample_job "k1:issues" recording_world).2 =
      sleeps (duration_from_millis 100) 0 n ∧
    (∀ e, Err "connection refused" = Err (A := N) e → Z.of_nat n = 3).
Proof.
  apply (submission_attempts sample_runtime sample_job "k1:issues" recording_world).
  apply (run_ok (enqueue_with_retries sample_runtime sample_job "k1:issues") recording_world).
  vm_compute. reflexivity.
Defined.

(** *** Replay *)

Definition quiet_world1 : SampleWorld := (handle quiet_runtime event1 (sample_world broker_up)).2.
Definition quiet_world2 : SampleWorld := (handle quiet_runtime event2 quiet_world1).2.
Definition quiet_world3 : SampleWorld := (handle quiet_runtime event1 quiet_world2).2.

Lemma quiet_run1 : handle quiet_runtime event1 (sample_world broker_up) = (Ok (mkHandleReport ["0"] []), quiet_world1).
Proof. unfold quiet_world1. apply (run_ok (handle quiet_runtime event1) (sample_world broker_up)). vm_compute. reflexivity. Qed.
Lemma quiet_run2 : handle quiet_runtime event2 quiet_world1 = (Ok (mkHandleReport ["1"] []), quiet_world2).
Proof. unfold quiet_world2. apply (run_ok (handle quiet_runtime event2) quiet_world1). vm_compute. reflexivity. Qed.
Lemma quiet_run3 : handle quiet_runtime event1 quiet_world2 = (Ok (mkHandleReport ["0"] []), quiet_world3).
Proof. unfold quiet_world3. apply (run_ok (handle quiet_runtime event1) quiet_world2). vm_compute. reflexivity. Qed.


(** *** Retry *)

(** Two records of one event and one trigger, as two failed replays leave them. *)
Definition dead1 : DeadTriggerRecord := mkDeadTriggerRecord event1 "issues" "broker error: connection refused".
Definition dead2 : DeadTriggerRecord := mkDeadTriggerRecord event2 "issues" "broker error: connection refused".
Definition retry_world : SampleWorld :=
  mkWorld broker_up (mkInMemoryDeadTriggerQueue [dead1; dead1; dead2]) (mkInMemoryTraceSink []) ∅ [].

(** The counters of the pass: three records drained, two recovered. *)
Definition sample_retry_report : DeadTriggerRetryReport := mkDeadTriggerRetryReport 3 2 2 0 ["0"; "1"].

Lemma retry_pass_witness :
  let rs := records (w_dead_triggers retry_world) in
  ∃ l (w0 w1 : SampleWorld), records (w_dead_triggers w0) = [] ∧ handled quiet_runtime l w0 w1 ∧
    NoDup ((λ er, EventId_to_string (ev_id er.1)) <$> l) ∧
    (∀ er, er ∈ l → ∃ r, r ∈ rs ∧ dt_event r = er.1) ∧
    (∀ r, r ∈ rs → ∃ er, er ∈ l ∧ EventId_to_string (ev_id er.1) = record_id r) ∧
    records (w_dead_triggers (retry_dead_triggers quiet_runtime retry_world).2) = concat ((λ er, failed er.2) <$> l) ∧
    retry_submitted sample_retry_report = concat ((λ er, submitted er.2) <$> l) ∧
    drained sample_retry_report = len rs ∧ events_retried sample_retry_report = distinct (record_id <$> rs) ∧
    recovered sample_retry_report + still_failed sample_retry_report = distinct (record_pair <$> rs) ∧
    (recovered sample_retry_report + still_failed sample_retry_report = drained sample_retry_report ↔
     NoDup (record_pair <$> rs)).
Proof.
  apply (retry_pass quiet_runtime retry_world sample_retry_report
           (retry_dead_triggers quiet_runtime retry_world).2).
  apply (run_ok (retry_dead_triggers quiet_runtime) retry_world). vm_compute. reflexivity.
Defined.

(** Two failed events in a durable queue; the broker is down and the disk fills
    up after the drain. *)
Definition failing_queue : FileDeadTriggerQueue * FS :=
  match (fdq_record dead1;; fdq_record dead2)
          (match fdq_open sample_path fs_empty with
           | (Ok q, fs) => (q, fs)
           | (Err _, fs) => (mkFileDeadTriggerQueue (mkJsonlStore sample_path [] 0), fs)
           end) with
  | (_, (q, fs)) => (q, set_faults [None; None; Some (mkFault (mkIoError (OsError 28) "No space left on device") 3)] fs)
  end.

Definition failing_world : World SampleBroker (FileDeadTriggerQueue * FS) InMemoryTraceSink :=
  mkWorld broker_down failing_queue (mkInMemoryTraceSink []) ∅ [].

Lemma retry_error_loses_records_witness :
  records (w_dead_triggers (retry_dead_triggers quiet_runtime failing_world).2) =
    records (w_dead_triggers failing_world) ∨
  ∃ done_ current rest, NoDup (done_ ++ current :: rest) ∧
    (∀ r, r ∈ records (w_dead_triggers failing_world) → record_id r ∈ done_ ++ current :: rest) ∧
    ∀ r, r ∈ records (w_dead_triggers (retry_dead_triggers quiet_runtime failing_world).2) →
      record_id r ∈ done_ ++ [current].
Proof.
  apply (retry_error_loses_records quiet_runtime failing_world
           (Storage (mkIoError (OsError 28) "No space left on device"))).
  apply (run_ok (retry_dead_triggers quiet_runtime) failing_world). vm_compute. reflexivity.
Defined.

(** In that run both drained records are lost. *)
Example retry_error_loses_both :
  records (w_dead_triggers failing_world) = [dead1; dead2] ∧
  records (w_dead_triggers (retry_dead_triggers quiet_runtime failing_world).2) = [].
Proof. split; vm_compute; reflexivity. Qed.
