(* ===== verification/Ingest.v ===== *)
(** * Ingestion: [crates/triggerlane-runtime/src/lib.rs], lines 679-799

    [EventIngest]: persist an event, then handle it; or accept it now and
    dispatch it later; and the recovery of what a crash interrupted. The store
    is any [EventStore]; the theorems are proved against [EventStoreSpec]. *)

From stdpp Require Import base gmap strings list.
From Stdlib Require Import ZArith Lia.
From S2P Require Import Prelude RustStd Event Trigger Retention Store Runtime Submission Handling.
Local Open Scope Z_scope.

Record IngestReport := mkIngestReport {
  ir_event_id : string;
  ir_handle : HandleReport;
  ir_deduplicated : bool;
}.

Record AcceptReport := mkAcceptReport {
  ar_event_id : string;
  ar_deduplicated : bool;
}.

(** [Option::as_deref] of the key, then [find_by_idempotency_key]. *)
Definition existing_event {S} `{EventStore S} (event : EventEnvelope) (store : S) : option EventEnvelope :=
  key ← idempotency_key (ev_metadata event);
  es_find_by_idempotency_key key store.

Section ingest.
Context `{UuidText} `{Worklane} {S B Q K : Type}.
Context `{!EventStore S} `{!Broker B} `{!DeadTriggerQueue Q} `{!TraceSink K}.

(** The state of [EventIngest]: its store, and the world its runtime runs in. *)
Local Abbreviation I := (S * World B Q K)%type.

Definition on_store {E A} (m : M S E A) : M I E A := zoom fst (λ s i, (s, i.2)) m.
Definition on_world {E A} (m : M (World B Q K) E A) : M I E A := zoom snd (λ w i, (i.1, w)) m.

Definition ingest (runtime : TriggerRuntime) (event : EventEnvelope) : M I RuntimeError IngestReport :=
  existing ← gets (λ i, existing_event event i.1);
  match existing with
  | Some existing =>
    mret (mkIngestReport (EventId_to_string (ev_id existing)) (mkHandleReport [] []) true)
  | None =>
    let event_id := EventId_to_string (ev_id event) in
    let id := ev_id event in
    mapM_err Storage (on_store (es_append event));;
    report ← on_world (handle runtime event);
    mapM_err Storage (on_store (es_mark_delivered id));;
    mret (mkIngestReport event_id report false)
  end.

Definition accept (event : EventEnvelope) : M I RuntimeError AcceptReport :=
  existing ← gets (λ i, existing_event event i.1);
  match existing with
  | Some existing => mret (mkAcceptReport (EventId_to_string (ev_id existing)) true)
  | None =>
    let event_id := EventId_to_string (ev_id event) in
    mapM_err Storage (on_store (es_append event));;
    mret (mkAcceptReport event_id false)
  end.

Definition dispatch (runtime : TriggerRuntime) (event : EventEnvelope) : M I RuntimeError HandleReport :=
  let id := ev_id event in
  report ← on_world (handle runtime event);
  mapM_err Storage (on_store (es_mark_delivered id));;
  mret report.

(** The loop of [recover_undelivered]. *)
Fixpoint recover_loop (runtime : TriggerRuntime) (pending : list EventEnvelope) (recovered : Z)
    : M I RuntimeError Z :=
  match pending with
  | [] => mret recovered
  | event :: pending =>
    let id := ev_id event in
    on_world (handle runtime event);;
    mapM_err Storage (on_store (es_mark_delivered id));;
    recover_loop runtime pending (recovered + 1)
  end.

Definition recover_undelivered (runtime : TriggerRuntime) : M I RuntimeError Z :=
  pending ← gets (λ i, es_undelivered i.1);
  recover_loop runtime pending 0.
End ingest.
