(* ===== verification/RuntimeTests.v ===== *)
(** * The tests of [crates/triggerlane-runtime/src/lib.rs], lines 801-2054, run on the model

    Worklane's in-memory broker is not part of the repository; [MemoryBroker]
    stands for it with what the tests rely on: it keeps the jobs it accepts, gives
    a job whose unique key it has already the id of that one, and its lanes have a
    name that is not blank. *)

From stdpp Require Import base gmap strings list.
From Stdlib Require Import ZArith Lia.
From S2P Require Import Prelude RustStd Event Trigger Retention Store Samples Runtime Ingest Testing.
Local Open Scope Z_scope.

(** ** Worklane *)

Record MemoryJob := mkMemoryJob {
  mj_lane : string;
  mj_kind : string;
  mj_payload : bytes;
  mj_max_attempts : Z;
  mj_key : option string;
}.

Local Instance memory_Worklane : Worklane := {
  Lane := string;
  lane_try_from s := if decide (trim s = EmptyString) then Err "a lane needs a name" else Ok s;
  JobId := nat;
  JobId_to_string := pretty.pretty;
  NewJob := MemoryJob;
  NewJob_new lane kind payload attempts := mkMemoryJob lane kind payload attempts None;
  with_unique_key key j := mkMemoryJob (mj_lane j) (mj_kind j) (mj_payload j) (mj_max_attempts j) (Some key);
  Error := string;
  Error_Broker s := s;
  Error_to_string e := "broker error: " +:+ e;
}.

(** The jobs in the order they came; a job's id is its place. *)
Abbreviation MemoryBroker := (list MemoryJob).

Fixpoint position {A} (p : A → bool) (l : list A) : option nat :=
  match l with
  | [] => None
  | x :: l => if p x then Some O else S <$> position p l
  end.

Local Instance memory_Broker : Broker MemoryBroker := {
  enqueue job := λ jobs,
    match position (λ j, bool_decide (mj_key j = mj_key job) && bool_decide (is_Some (mj_key job))) jobs with
    | Some id => (Ok id, jobs)
    | None => (Ok (length jobs), jobs ++ [job])
    end;
  pending_count lane := λ jobs, (Ok (len (filter (λ j, mj_lane j = lane) jobs)), jobs);
}.

(** [broker.reserve(lane)]: the first job of the lane. *)
Definition reserve (lane : string) (jobs : MemoryBroker) : option MemoryJob :=
  List.find (λ j, bool_decide (mj_lane j = lane)) jobs.

(** *** [FlakyBroker], lines 1943-2053 *)

Record FlakyBroker := mkFlakyBroker { failures_remaining : Z; enqueue_calls : Z }.

Definition FlakyBroker_new (failures_remaining : Z) : FlakyBroker := mkFlakyBroker failures_remaining 0.

(** [JobId::new()] is random: here the number of the call. *)
Definition flaky_enqueue (_job : NewJob) : M FlakyBroker Error JobId := λ b,
  let calls := enqueue_calls b + 1 in
  if failures_remaining b >? 0 then
    (Err (Error_Broker "temporary failure"), mkFlakyBroker (failures_remaining b - 1) calls)
  else (Ok (Z.to_nat calls), mkFlakyBroker (failures_remaining b) calls).

Local Instance FlakyBroker_Broker : Broker FlakyBroker := {
  enqueue := flaky_enqueue;
  pending_count _ := mret 0;
}.

(** ** The fixtures *)

Definition FailingQueue : Type := unit.
Local Instance FailingQueue_DeadTriggerQueue : DeadTriggerQueue FailingQueue := {
  dq_record _ := throw (io_other "dead-trigger write failed");
  dq_all _ := [];
  dq_drain := mret [];
  dq_prune _ := mret 0;
  dq_len _ := 0;
  dq_size_bytes _ := 0;
  dq_enforce_retention _ _ := mret 0;
}.

Definition FailingStore : Type := unit.
Definition failing_all (_ : FailingStore) : list EventEnvelope := [].
Local Instance FailingStore_EventStore : EventStore FailingStore := {
  es_append _ := throw (io_other "event store write failed");
  es_get _ _ := None;
  es_all := failing_all;
  es_mark_delivered := default_mark_delivered;
  es_undelivered := default_undelivered failing_all;
  es_enforce_retention := default_enforce_retention;
  es_len := default_len failing_all;
  es_size_bytes := default_size_bytes;
  es_find_by_idempotency_key := default_find_by_idempotency_key failing_all;
  es_prune _ := mret 0;
}.

Inductive FailingBinding := mkFailingBinding.
Local Instance FailingBinding_Binding : Binding FailingBinding := λ _ _, Err (Rejected "bad event").

Definition on_type (event_type : string) : EventTypeTrigger := mkEventTypeTrigger (mkEventType event_type).

Definition registry_of (regs : list RegisteredTrigger) : TriggerRegistry := foldl register TriggerRegistry_new regs.

(** The trigger most tests register, under a name and for a lane. *)
Definition issue_registration (name lane : string) : RegisteredTrigger :=
  RegisteredTrigger_new name 10 (on_type EVENT_GITHUB_ISSUE_CREATED) (WorklaneJobBinding_new lane "CreateProjectionJob" 3).
Definition failing_registration : RegisteredTrigger :=
  RegisteredTrigger_new "failing" 10 (on_type EVENT_GITHUB_ISSUE_CREATED) mkFailingBinding.

Definition github_issue_registry : TriggerRegistry := registry_of [issue_registration "github-issue" "projection"].
Definition bad_lane_registry : TriggerRegistry := registry_of [issue_registration "bad-lane" "  "].
Definition failing_registry : TriggerRegistry := registry_of [failing_registration].
Definition message_registry : TriggerRegistry :=
  registry_of [RegisteredTrigger_new "message-created" 10 (on_type "message.created")
                 (WorklaneJobBinding_new "messaging" "messaging.process_message" 3)].
Definition projection_registry : TriggerRegistry :=
  registry_of [RegisteredTrigger_new "projection-created" 10 (on_type "projection.created")
                 (WorklaneJobBinding_new "projection" "projection.build_scope" 3)].

Abbreviation MemoryWorld := (World MemoryBroker InMemoryDeadTriggerQueue NoopTraceSink).
Abbreviation TracedWorld := (World MemoryBroker InMemoryDeadTriggerQueue InMemoryTraceSink).
Abbreviation Ingesting := (InMemoryEventStore * MemoryWorld)%type.

(** An empty in-memory broker behind a registry. *)
Definition memory_world : MemoryWorld := (TriggerRuntime_new TriggerRegistry_new ([] : MemoryBroker)).2.
Definition memory_runtime (registry : TriggerRegistry) : TriggerRuntime := (TriggerRuntime_new registry ([] : MemoryBroker)).1.
Definition traced_world : TracedWorld :=
  (with_trace_sink TriggerRegistry_new ([] : MemoryBroker) (mkInMemoryTraceSink [])).2.

Definition github_issue_ingest : TriggerRuntime * Ingesting :=
  (memory_runtime github_issue_registry, (InMemoryEventStore_new, memory_world)).

Definition github_issue_event {S} : Test S EventEnvelope := new_event GitHub EVENT_GITHUB_ISSUE_CREATED issue_payload.
Definition empty_issue_event {S} : Test S EventEnvelope := new_event GitHub EVENT_GITHUB_ISSUE_CREATED (as_bytes "{}").

Definition at_time (timestamp : DateTime) (event : EventEnvelope) : EventEnvelope :=
  mkEventEnvelope (ev_id event) (ev_source event) (ev_type event) (ev_payload event) timestamp (ev_metadata event).
Definition event_at {S} (timestamp : DateTime) (payload : string) : Test S EventEnvelope :=
  event ← new_event GitHub EVENT_GITHUB_ISSUE_CREATED (as_bytes payload);
  mret (at_time timestamp event).

Definition job_count {S} (get : S → MemoryBroker) (what : string) (n : Z) : Test S unit :=
  jobs ← look get; assert_eq what (len jobs) n.

(** ** Handling *)

Definition matching_trigger_submits_worklane_job : Test MemoryWorld unit :=
  event ← github_issue_event;
  report ← expect "event should handle" (handle (memory_runtime github_issue_registry) event);
  assert_eq "submitted" (len (submitted report)) 1;;
  job_count w_broker "jobs" 1;;
  jobs ← look w_broker;
  reserved ← some "job should exist" (reserve "projection" jobs);
  assert_eq "kind" (mj_kind reserved) "CreateProjectionJob";;
  assert_eq "payload" (mj_payload reserved) issue_payload.

Definition dead_triggers_are_recorded_into_the_injected_queue : Test MemoryWorld unit :=
  event ← empty_issue_event;
  report ← expect "event should handle" (handle (memory_runtime bad_lane_registry) event);
  assert_eq "submitted" (len (submitted report)) 0;;
  assert_eq "failed" (len (failed report)) 1;;
  queue ← look w_dead_triggers;
  assert_eq "queue" (len (dq_all queue)) 1;;
  dead ← look dead_triggers;
  assert_eq "dead triggers" (len dead) 1.

Definition dead_trigger_record_failure_surfaces_as_error : Test (World MemoryBroker FailingQueue NoopTraceSink) unit :=
  event ← empty_issue_event;
  error ← expect_err "dead-trigger write failure should surface" (handle (memory_runtime bad_lane_registry) event);
  assert "a storage error" (match error with Storage _ => true | _ => false end).

Definition event_store_append_failure_surfaces_through_ingest : Test (FailingStore * MemoryWorld) unit :=
  event ← new_event Manual "event.manual.test" (as_bytes "{}");
  error ← expect_err "append failure should surface" (ingest (memory_runtime TriggerRegistry_new) event);
  assert "a storage error" (match error with Storage _ => true | _ => false end).

Definition retry_recovers_when_failure_is_resolved : Test MemoryWorld unit :=
  event ← github_issue_event;
  expect "record" (on_dead_triggers (dq_record (mkDeadTriggerRecord event "github-issue" "broker was down")));;
  report ← expect "retry should run" (retry_dead_triggers (memory_runtime github_issue_registry));
  assert_eq "drained" (drained report) 1;;
  assert_eq "recovered" (recovered report) 1;;
  assert_eq "still failed" (still_failed report) 0;;
  assert_eq "submitted" (len (retry_submitted report)) 1;;
  dead ← look dead_triggers;
  assert_eq "queue" dead [];;
  job_count w_broker "jobs" 1.

Definition retry_re_records_persistent_failure : Test MemoryWorld unit :=
  event ← empty_issue_event;
  expect "handle should record a dead trigger" (handle (memory_runtime bad_lane_registry) event);;
  dead ← look dead_triggers;
  assert_eq "queue" (len dead) 1;;
  report ← expect "retry should run" (retry_dead_triggers (memory_runtime bad_lane_registry));
  assert_eq "drained" (drained report) 1;;
  assert_eq "recovered" (recovered report) 0;;
  assert_eq "still failed" (still_failed report) 1;;
  dead ← look dead_triggers;
  assert_eq "queue after" (len dead) 1.

Definition double_registry : TriggerRegistry :=
  registry_of [RegisteredTrigger_new "ok" 20 (on_type EVENT_GITHUB_ISSUE_CREATED)
                 (WorklaneJobBinding_new "projection" "CreateProjectionJob" 3);
               issue_registration "bad-lane" "  "].

Definition retry_does_not_double_submit_a_succeeded_trigger : Test MemoryWorld unit :=
  event ← github_issue_event;
  expect "handle should run" (handle (memory_runtime double_registry) event);;
  job_count w_broker "jobs" 1;;
  dead ← look dead_triggers;
  assert_eq "queue" (len dead) 1;;
  report ← expect "retry should run" (retry_dead_triggers (memory_runtime double_registry));
  assert_eq "drained" (drained report) 1;;
  assert_eq "still failed" (still_failed report) 1;;
  assert_eq "recovered" (recovered report) 0;;
  job_count w_broker "jobs after" 1.

Definition duplicate_submission_dedups_via_unique_key : Test MemoryWorld unit :=
  event ← github_issue_event;
  let event := with_key "issue-1" event in
  expect "first handle should succeed" (handle (memory_runtime github_issue_registry) event);;
  expect "second handle should succeed" (handle (memory_runtime github_issue_registry) event);;
  job_count w_broker "jobs" 1.

Definition message_created_submits_process_message_job : Test MemoryWorld unit :=
  let payload := json_object [json_field "message_id" (quoted "msg-1")] in
  event ← new_event Http "message.created" payload;
  report ← expect "event should handle" (handle (memory_runtime message_registry) event);
  assert_eq "submitted" (len (submitted report)) 1;;
  jobs ← look w_broker;
  reserved ← some "job should exist" (reserve "messaging" jobs);
  assert_eq "kind" (mj_kind reserved) "messaging.process_message";;
  assert_eq "payload" (mj_payload reserved) payload.

Definition disabled_trigger_does_not_submit : Test MemoryWorld unit :=
  event ← empty_issue_event;
  report ← expect "event should handle"
    (handle (memory_runtime (registry_of [disabled (issue_registration "disabled" "projection")])) event);
  assert_eq "submitted" (submitted report) [];;
  job_count w_broker "jobs" 0.

Definition binding_failure_records_dead_trigger : Test MemoryWorld unit :=
  event ← empty_issue_event;
  report ← expect "event should handle" (handle (memory_runtime failing_registry) event);
  assert_eq "failed" (len (failed report)) 1;;
  dead ← look dead_triggers;
  assert_eq "dead triggers" (dt_trigger_name <$> dead) ["failing"].

Definition two_attempts : RuntimeOptions := mkRuntimeOptions 2 0.
Abbreviation FlakyWorld := (World FlakyBroker InMemoryDeadTriggerQueue NoopTraceSink).
Definition flaky_world (failures : Z) : FlakyWorld :=
  (with_options TriggerRegistry_new (FlakyBroker_new failures) two_attempts).2.

Definition retryable_submission_failure_can_succeed : Test FlakyWorld unit :=
  event ← empty_issue_event;
  let runtime := mkTriggerRuntime (registry_of [issue_registration "flaky" "projection"]) two_attempts in
  report ← expect "event should handle" (handle runtime event);
  assert_eq "submitted" (len (submitted report)) 1;;
  assert_eq "failed" (len (failed report)) 0;;
  broker ← look w_broker;
  assert_eq "calls" (enqueue_calls broker) 2.

Definition exhausted_submission_retry_records_dead_trigger : Test FlakyWorld unit :=
  event ← empty_issue_event;
  let runtime := mkTriggerRuntime (registry_of [issue_registration "always-failing" "projection"]) two_attempts in
  report ← expect "event should handle" (handle runtime event);
  assert_eq "submitted" (submitted report) [];;
  assert_eq "failed" (len (failed report)) 1;;
  dead ← look dead_triggers;
  assert_eq "dead triggers" (len dead) 1;;
  broker ← look w_broker;
  assert_eq "calls" (enqueue_calls broker) 2.

Definition registry_orders_by_priority : Test unit unit :=
  let registration name priority kind :=
    RegisteredTrigger_new name priority (on_type EVENT_GITHUB_ISSUE_CREATED) (WorklaneJobBinding_new "lane" kind 1) in
  event ← empty_issue_event;
  assert_eq "names"
    (rt_name <$> matching (registry_of [registration "low" 1 "LowJob"; registration "high" 9 "HighJob"]) event)
    ["high"; "low"].

Definition submission_backoff_doubles_and_caps : Test unit unit :=
  let base := duration_from_millis 100 in
  assert_eq "before the first" (submission_backoff_delay 0 base) 0;;
  assert_eq "first" (submission_backoff_delay 1 base) (duration_from_millis 100);;
  assert_eq "second" (submission_backoff_delay 2 base) (duration_from_millis 200);;
  assert_eq "third" (submission_backoff_delay 3 base) (duration_from_millis 400);;
  assert_eq "zero base" (submission_backoff_delay 5 0) 0;;
  assert_eq "cap" (submission_backoff_delay 1000 base) MAX_SUBMISSION_BACKOFF.

(** ** Traces *)

Definition successful_handling_records_trigger_trace : Test TracedWorld unit :=
  event ← github_issue_event;
  report ← expect "event should handle" (handle (memory_runtime github_issue_registry) event);
  assert_eq "submitted" (len (submitted report)) 1;;
  sink ← look w_trace_sink;
  assert_eq "traces" (len (traces sink)) 1;;
  trace ← some "trace" (head (traces sink));
  assert_eq "event id" (tt_event_id trace) (EventId_to_string (ev_id event));;
  assert_eq "event type" (as_str (tt_event_type trace)) EVENT_GITHUB_ISSUE_CREATED;;
  assert_eq "source" (tt_source trace) GitHub;;
  assert_eq "matched" (tt_matched_triggers trace) ["github-issue"];;
  assert_eq "trace submitted" (tt_submitted trace) (submitted report);;
  assert_eq "failures" (tt_failure_count trace) 0.

Definition no_match_handling_records_empty_trace : Test TracedWorld unit :=
  event ← new_event Manual "event.manual.unmatched" (as_bytes "{}");
  report ← expect "event should handle" (handle (memory_runtime TriggerRegistry_new) event);
  assert_eq "submitted" (submitted report) [];;
  sink ← look w_trace_sink;
  assert_eq "traces" (len (traces sink)) 1;;
  trace ← some "trace" (head (traces sink));
  assert_eq "matched" (tt_matched_triggers trace) [];;
  assert_eq "trace submitted" (tt_submitted trace) [];;
  assert_eq "failures" (tt_failure_count trace) 0.

Definition failed_trigger_records_failure_count_in_trace : Test TracedWorld unit :=
  event ← empty_issue_event;
  report ← expect "event should handle" (handle (memory_runtime failing_registry) event);
  assert_eq "failed" (len (failed report)) 1;;
  sink ← look w_trace_sink;
  assert_eq "traces" (len (traces sink)) 1;;
  trace ← some "trace" (head (traces sink));
  assert_eq "matched" (tt_matched_triggers trace) ["failing"];;
  assert_eq "failures" (tt_failure_count trace) 1.

Definition clean_trace : TriggerTrace :=
  mkTriggerTrace "evt-1" (mkEventType EVENT_GITHUB_ISSUE_CREATED) GitHub ["t"] ["job-1"] 0.
Definition failed_trace : TriggerTrace :=
  mkTriggerTrace "evt-2" (mkEventType EVENT_GITHUB_ISSUE_CREATED) GitHub ["t"] [] 1.

Definition logging_trace_sink_records_without_a_subscriber : Test LoggingTraceSink unit :=
  expect "record" (E := RuntimeError) (modify (record_trace clean_trace));;
  expect "record" (E := RuntimeError) (modify (record_trace failed_trace)).

Definition follow_up_event_preserves_metadata_and_trace : Test (InMemoryEventStore * TracedWorld) unit :=
  let payload := json_object [json_field "message_id" (quoted "msg-1"); json_field "projection_id" (quoted "proj-1")] in
  event ← new_event Http "projection.created" payload;
  let event := with_metadata event
    (mkEventMetadata (Some "trace-1") (Some "msg-1") (Some "tenant-1") (Some "projection.created:proj-1") None) in
  report ← expect "event should ingest" (ingest (memory_runtime projection_registry) event);
  assert_eq "submitted" (len (submitted (ir_handle report))) 1;;
  store ← look fst;
  stored ← some "event should be stored" (es_get (ev_id event) store);
  assert_eq "correlation" (correlation_id (ev_metadata stored)) (Some "msg-1");;
  assert_eq "key" (idempotency_key (ev_metadata stored)) (Some "projection.created:proj-1");;
  world ← look snd;
  let traces := traces (w_trace_sink world) in
  assert_eq "traces" (len traces) 1;;
  trace ← some "trace" (head traces);
  assert_eq "event type" (as_str (tt_event_type trace)) "projection.created";;
  assert_eq "matched" (tt_matched_triggers trace) ["projection-created"];;
  reserved ← some "job should exist" (reserve "projection" (w_broker world));
  assert_eq "kind" (mj_kind reserved) "projection.build_scope";;
  assert_eq "payload" (mj_payload reserved) payload.

(** ** Ingestion *)

Definition runtime_ : TriggerRuntime := memory_runtime github_issue_registry.
Definition memory_jobs (i : Ingesting) : MemoryBroker := w_broker i.2.

Definition duplicate_idempotency_key_is_deduplicated_on_ingest : Test Ingesting unit :=
  event ← github_issue_event;
  first ← expect "first ingest" (ingest runtime_ (with_key "dup-1" event));
  event ← github_issue_event;
  second ← expect "second ingest" (ingest runtime_ (with_key "dup-1" event));
  assert "first" (negb (ir_deduplicated first));;
  assert "second" (ir_deduplicated second);;
  store ← look fst;
  assert_eq "duplicate event must not be stored" (len (es_all store)) 1;;
  job_count memory_jobs "duplicate event must not submit again" 1.

Definition record_store_metrics_is_noop_without_recorder : Test Ingesting unit :=
  event ← github_issue_event;
  expect "append" (on_store (es_append event));;
  store ← look fst;
  expect "metrics" (on_world (record_store_metrics (E := RuntimeError) store)).

Definition record_broker_metrics_tracks_submitted_lane_and_is_noop_without_recorder : Test Ingesting unit :=
  expect "metrics" (on_world record_broker_metrics);;
  event ← github_issue_event;
  expect "ingest" (ingest runtime_ event);;
  expect "metrics" (on_world record_broker_metrics).

Definition accept_stores_without_handling_then_dispatch_handles : Test Ingesting unit :=
  event ← github_issue_event;
  let id := ev_id event in
  report ← expect "accept" (accept event);
  assert "fresh" (negb (ar_deduplicated report));;
  store ← look fst;
  assert "stored" (bool_decide (is_Some (es_get id store)));;
  job_count memory_jobs "accept must not submit" 0;;
  assert_eq "undelivered" (len (es_undelivered store)) 1;;
  expect "dispatch" (dispatch runtime_ event);;
  job_count memory_jobs "jobs" 1;;
  store ← look fst;
  assert_eq "delivered" (es_undelivered store) [].

Definition accept_deduplicates_on_idempotency_key : Test Ingesting unit :=
  event ← github_issue_event;
  first ← expect "first" (accept (with_key "dup" event));
  assert "fresh" (negb (ar_deduplicated first));;
  event ← github_issue_event;
  second ← expect "second" (accept (with_key "dup" event));
  assert "duplicate" (ar_deduplicated second);;
  store ← look fst;
  assert_eq "duplicate must not be stored again" (len (es_all store)) 1.

Definition ingest_marks_event_delivered_once_work_is_taken : Test Ingesting unit :=
  event ← github_issue_event;
  report ← expect "ingest" (ingest runtime_ event);
  assert_eq "submitted" (len (submitted (ir_handle report))) 1;;
  job_count memory_jobs "jobs" 1;;
  store ← look fst;
  assert_eq "a fully-handled event must be marked delivered" (es_undelivered store) [].

Definition recover_undelivered_replays_only_in_flight_events : Test Ingesting unit :=
  delivered ← github_issue_event;
  expect "append" (on_store (es_append delivered));;
  expect "mark" (on_store (es_mark_delivered (ev_id delivered)));;
  in_flight ← github_issue_event;
  expect "append" (on_store (es_append in_flight));;
  recovered ← expect "recover" (recover_undelivered runtime_);
  assert_eq "only the in-flight event is replayed" recovered 1;;
  job_count memory_jobs "the delivered event is not re-submitted" 1;;
  store ← look fst;
  assert_eq "undelivered" (es_undelivered store) [].

Definition dedup_is_bounded_by_retention : Test Ingesting unit :=
  event ← github_issue_event;
  first ← expect "first ingest" (ingest runtime_ (with_key "key-1" event));
  assert "fresh" (negb (ir_deduplicated first));;
  expect "prune" (on_store (es_prune (KeepMostRecent 0)));;
  event ← github_issue_event;
  second ← expect "second ingest" (ingest runtime_ (with_key "key-1" event));
  assert "dedup must not see events pruned from the retained window" (negb (ir_deduplicated second));;
  store ← look fst;
  assert_eq "stored" (len (es_all store)) 1.

Definition ingest_persists_event_and_handles_it : Test Ingesting unit :=
  event ← github_issue_event;
  let event_id := ev_id event in
  report ← expect "event should ingest" (ingest runtime_ event);
  assert_eq "id" (ir_event_id report) (EventId_to_string event_id);;
  assert_eq "submitted" (len (submitted (ir_handle report))) 1;;
  job_count memory_jobs "jobs" 1;;
  store ← look fst;
  assert "stored" (bool_decide (is_Some (es_get event_id store))).

Definition ingest_persists_event_even_when_handling_fails : Test Ingesting unit :=
  event ← empty_issue_event;
  let event_id := ev_id event in
  report ← expect "event should ingest" (ingest (memory_runtime failing_registry) event);
  assert_eq "failed" (len (failed (ir_handle report))) 1;;
  store ← look fst;
  assert "stored" (bool_decide (is_Some (es_get event_id store))).

(** ** Replay *)

Definition replay_by_id_handles_stored_event : Test Ingesting unit :=
  event ← github_issue_event;
  let event_id := ev_id event in
  expect "append" (on_store (es_append event));;
  store ← look fst;
  report ← expect "stored event should replay" (on_world (replay_by_id runtime_ store event_id));
  assert_eq "submitted" (len (submitted report)) 1;;
  job_count memory_jobs "jobs" 1.

Definition replay_by_id_returns_not_found_without_submitting : Test Ingesting unit :=
  missing ← new_event Manual "event.manual.missing" (as_bytes "{}");
  store ← look fst;
  error ← expect_err "missing event should not replay"
    (on_world (replay_by_id (memory_runtime TriggerRegistry_new) store (ev_id missing)));
  assert "not found" (match error with EventNotFound _ => true | _ => false end);;
  job_count memory_jobs "jobs" 0.

(** [Utc::now()] and [ChronoDuration::minutes]. *)
Definition base : DateTime := 1000000000 * nanos_per_sec.
Definition minutes (n : Z) : TimeDelta := n * 60 * nanos_per_sec.
Definition no_filter : ReplayFilter := mkReplayFilter None None.

Definition append_all (events : list EventEnvelope) : Test Ingesting unit :=
  for_each events (λ event, expect "append" (on_store (es_append event))).

Definition replayed_ids (report : ReplayRangeReport) : list string := rer_event_id <$> rrr_events report.

Definition replay_range_handles_events_inside_time_window : Test Ingesting unit :=
  before ← event_at (base - minutes 5) "before";
  first ← event_at (base + minutes 1) "first";
  second ← event_at (base + minutes 2) "second";
  after ← event_at (base + minutes 5) "after";
  append_all [before; first; second; after];;
  store ← look fst;
  report ← expect "range should replay" (on_world (replay_range runtime_ store base (base + minutes 3) no_filter));
  assert_eq "ids" (replayed_ids report) [EventId_to_string (ev_id first); EventId_to_string (ev_id second)];;
  job_count memory_jobs "jobs" 2.

Definition replay_range_preserves_append_order : Test Ingesting unit :=
  later_appended_first ← event_at (base + minutes 2) "first";
  earlier_appended_second ← event_at (base + minutes 1) "second";
  append_all [later_appended_first; earlier_appended_second];;
  store ← look fst;
  report ← expect "range should replay" (on_world (replay_range runtime_ store base (base + minutes 3) no_filter));
  assert_eq "ids" (replayed_ids report)
    [EventId_to_string (ev_id later_appended_first); EventId_to_string (ev_id earlier_appended_second)];;
  assert_eq "events" (len (rrr_events report)) 2.

Definition replay_range_filters_by_event_type_and_preview_does_not_submit : Test Ingesting unit :=
  matching ← event_at (base + minutes 1) "match";
  other ← new_event GitHub "event.other.kind" (as_bytes "other");
  append_all [matching; at_time (base + minutes 2) other];;
  let filter := mkReplayFilter (Some EVENT_GITHUB_ISSUE_CREATED) None in
  let window_end := base + minutes 5 in
  store ← look fst;
  let preview := preview_range store base window_end filter in
  assert_eq "preview" (ev_id <$> preview) [ev_id matching];;
  job_count memory_jobs "dry-run must not submit" 0;;
  report ← expect "filtered replay should run" (on_world (replay_range runtime_ store base window_end filter));
  assert_eq "events" (len (rrr_events report)) 1;;
  job_count memory_jobs "jobs" 1.

(** ** The suite *)

Definition ingesting : Ingesting := github_issue_ingest.2.

Definition handling_tests : list (result string unit) := [
  run_test matching_trigger_submits_worklane_job memory_world;
  run_test dead_triggers_are_recorded_into_the_injected_queue memory_world;
  run_test dead_trigger_record_failure_surfaces_as_error (with_dead_trigger_queue tt memory_world);
  run_test event_store_append_failure_surfaces_through_ingest (tt, memory_world);
  run_test retry_recovers_when_failure_is_resolved memory_world;
  run_test retry_re_records_persistent_failure memory_world;
  run_test retry_does_not_double_submit_a_succeeded_trigger memory_world;
  run_test duplicate_submission_dedups_via_unique_key memory_world;
  run_test message_created_submits_process_message_job memory_world;
  run_test disabled_trigger_does_not_submit memory_world;
  run_test binding_failure_records_dead_trigger memory_world;
  run_test retryable_submission_failure_can_succeed (flaky_world 1);
  run_test exhausted_submission_retry_records_dead_trigger (flaky_world 3);
  run_test registry_orders_by_priority tt;
  run_test submission_backoff_doubles_and_caps tt;
  run_test logging_trace_sink_records_without_a_subscriber (mkLoggingTraceSink []);
  run_test successful_handling_records_trigger_trace traced_world;
  run_test no_match_handling_records_empty_trace traced_world;
  run_test failed_trigger_records_failure_count_in_trace traced_world;
  run_test follow_up_event_preserves_metadata_and_trace (InMemoryEventStore_new, traced_world)
].

Definition ingest_tests : list (result string unit) := [
  run_test duplicate_idempotency_key_is_deduplicated_on_ingest ingesting;
  run_test record_store_metrics_is_noop_without_recorder ingesting;
  run_test record_broker_metrics_tracks_submitted_lane_and_is_noop_without_recorder ingesting;
  run_test accept_stores_without_handling_then_dispatch_handles ingesting;
  run_test accept_deduplicates_on_idempotency_key ingesting;
  run_test ingest_marks_event_delivered_once_work_is_taken ingesting;
  run_test recover_undelivered_replays_only_in_flight_events ingesting;
  run_test dedup_is_bounded_by_retention ingesting;
  run_test ingest_persists_event_and_handles_it ingesting;
  run_test ingest_persists_event_even_when_handling_fails ingesting;
  run_test replay_by_id_handles_stored_event ingesting;
  run_test replay_by_id_returns_not_found_without_submitting ingesting;
  run_test replay_range_handles_events_inside_time_window ingesting;
  run_test replay_range_preserves_append_order ingesting;
  run_test replay_range_filters_by_event_type_and_preview_does_not_submit ingesting
].

Example handling_tests_pass : passes handling_tests.
Proof. repeat constructor. Qed.

Example ingest_tests_pass : passes ingest_tests.
Proof. repeat constructor. Qed.
