(* ===== verification/Delivery.v ===== *)
(** * What ingestion guarantees

    Proved against the contract [EventStoreSpec], so for every backend that
    refines it: an event is stored before it is handled and marked delivered
    only after; keys stay unique in the log; recovery handles exactly the
    undelivered events; accepting and dispatching is ingesting in two steps. *)

From stdpp Require Import base gmap strings list relations.
From Stdlib Require Import ZArith Lia.
From S2P Require Import Prelude RustStd Event Trigger Retention Store Runtime Submission Handling Replay Ingest.
Local Open Scope Z_scope.

Section delivery.
Context `{UuidText} `{Worklane} {S B Q K : Type}.
Context `{!EventStore S} `{!Broker B} `{!DeadTriggerQueue Q} `{!TraceSink K}.
Context `{Serialize EventEnvelope} `{!EventStoreSpec S}.
Implicit Types (i : S * World B Q K) (event : EventEnvelope).

(** Ingestion in two steps. *)
Lemma accept_dispatch runtime event i :
  ingest runtime event i =
  match accept event i with
  | (Err e, i1) => (Err e, i1)
  | (Ok accepted, i1) =>
    if ar_deduplicated accepted
    then (Ok (mkIngestReport (ar_event_id accepted) (mkHandleReport [] []) true), i1)
    else match dispatch runtime event i1 with
         | (Ok report, i2) => (Ok (mkIngestReport (ar_event_id accepted) report false), i2)
         | (Err e, i2) => (Err e, i2)
         end
  end.
Proof.
  unfold ingest, accept, dispatch, gets, mbind, M_bind.
  destruct (existing_event event i.1) as [existing|]; [done|].
  destruct (mapM_err Storage (on_store (es_append event)) i) as [[[]|e] i1]; [|done]. cbn.
  destruct (on_world (handle runtime event) i1) as [[report|e] i2]; [|done].
  by destruct (mapM_err Storage (on_store (es_mark_delivered (ev_id event))) i2) as [[[]|e] i3].
Qed.

(** Accepting an event and dispatching it is ingesting it: the same result,
    the same store and the same world, whatever fails. *)
Theorem accept_dispatch_is_ingest runtime event i :
  ingest runtime event i =
  match accept event i with
  | (Err e, i1) => (Err e, i1)
  | (Ok accepted, i1) =>
    if ar_deduplicated accepted
    then (Ok (mkIngestReport (ar_event_id accepted) (mkHandleReport [] []) true), i1)
    else match dispatch runtime event i1 with
         | (Ok report, i2) => (Ok (mkIngestReport (ar_event_id accepted) report false), i2)
         | (Err e, i2) => (Err e, i2)
         end
  end.
Proof. apply accept_dispatch. Qed.

(** *** The store's steps, through its contract *)

Lemma store_append_run event i :
  match mapM_err (E := io_error) Storage (on_store (K := K) (Q := Q) (B := B) (es_append event)) i with
  | (Ok _, i') => i'.2 = i.2 ∧ view i'.1 = log_append event (view i.1)
  | (Err x, i') => i'.2 = i.2 ∧ view i'.1 = view i.1 ∧ ∃ io, x = Storage io
  end.
Proof.
  unfold mapM_err, on_store, zoom. destruct (es_append event i.1) as [[[]|x] s] eqn:Ha; simpl.
  - split; [done|]. by apply append_ok.
  - split; [done|]. split; [by eapply append_err|by eexists].
Qed.

Lemma store_mark_run id i :
  match mapM_err (E := io_error) Storage (on_store (K := K) (Q := Q) (B := B) (es_mark_delivered id)) i with
  | (Ok _, i') => i'.2 = i.2 ∧ view i'.1 = log_mark_delivered id (view i.1)
  | (Err x, i') => i'.2 = i.2 ∧ view i'.1 = view i.1 ∧ ∃ io, x = Storage io
  end.
Proof.
  unfold mapM_err, on_store, zoom. destruct (es_mark_delivered id i.1) as [[[]|x] s] eqn:Ha; simpl.
  - split; [done|]. by apply mark_delivered_ok.
  - split; [done|]. split; [by eapply mark_delivered_err|by eexists].
Qed.

(** The event of the log that has the key of [event]. *)
Definition same_key event (e : EventEnvelope) : Prop :=
  is_Some (idempotency_key (ev_metadata event)) ∧
  idempotency_key (ev_metadata e) = idempotency_key (ev_metadata event).

Lemma existing_event_Some event s e :
  existing_event event s = Some e → e ∈ log_events (view s) ∧ same_key event e.
Proof.
  unfold existing_event. destruct (idempotency_key (ev_metadata event)) as [key|] eqn:Hk; [|done]. simpl.
  rewrite find_view. intros [Hin Hp]%find_Some_elem. split; [done|].
  unfold has_idempotency_key in Hp. apply bool_decide_eq_true in Hp. split; [by eexists|congruence].
Qed.

Lemma existing_event_None event s :
  existing_event event s = None → ∀ e, e ∈ log_events (view s) → ¬ same_key event e.
Proof.
  unfold existing_event. intros Hn e Hin [[key Hk] Hke]. rewrite Hk in Hn. simpl in Hn.
  rewrite find_view in Hn. apply (List.find_none _ _ ) with (x := e) in Hn; [|by apply list_elem_of_In].
  unfold has_idempotency_key in Hn. apply bool_decide_eq_false in Hn. congruence.
Qed.

(** What one ingestion does, on every branch. *)
Lemma ingest_run runtime event i :
  match ingest runtime event i with
  | (Ok rep, i') =>
    if ir_deduplicated rep then
      i' = i ∧ ir_handle rep = mkHandleReport [] [] ∧
      ∃ e, e ∈ log_events (view i.1) ∧ same_key event e ∧ ir_event_id rep = EventId_to_string (ev_id e)
    else
      (∀ e, e ∈ log_events (view i.1) → ¬ same_key event e) ∧
      ir_event_id rep = EventId_to_string (ev_id event) ∧
      handle runtime event i.2 = (Ok (ir_handle rep), i'.2) ∧
      view i'.1 = log_mark_delivered (ev_id event) (log_append event (view i.1))
  | (Err x, i') =>
    (∃ io, x = Storage io ∧ i'.2 = i.2 ∧ view i'.1 = view i.1) ∨
    view i'.1 = log_append event (view i.1) ∧
      (handle runtime event i.2 = (Err x, i'.2) ∨
       ∃ io report, x = Storage io ∧ handle runtime event i.2 = (Ok report, i'.2))
  end.
Proof.
  unfold ingest, gets, mbind, M_bind.
  destruct (existing_event event i.1) as [existing|] eqn:Hex.
  { simpl. apply existing_event_Some in Hex as [Hin Hk]. split; [done|]. split; [done|]. eauto. }
  pose proof (store_append_run event i) as Ha.
  destruct (mapM_err Storage (on_store (es_append event)) i) as [[[]|x] i1]; last first.
  { destruct Ha as (Hw & Hv & io & ->). left. eauto. }
  destruct Ha as [Hw Hv]. unfold on_world at 1, zoom at 1.
  rewrite Hw. destruct (handle runtime event i.2) as [[report|x] w1] eqn:Hh; [|by right; split; [|left]].
  pose proof (store_mark_run (ev_id event) (i1.1, w1)) as Hm.
  destruct (mapM_err Storage (on_store (es_mark_delivered (ev_id event))) (i1.1, w1)) as [[[]|x] i2]; simpl in Hm.
  - destruct Hm as [Hw2 Hv2]. simpl. split; [by apply existing_event_None|].
    rewrite Hw2, Hv2, Hv. done.
  - destruct Hm as (Hw2 & Hv2 & io & ->). right. rewrite Hv2, Hv, Hw2. split; [done|]. right. eauto.
Qed.

(** C7: what one ingestion does, on every branch. A known key: the answer names
    the stored event, and neither the store nor the runtime is touched.
    Otherwise the event is appended before anything is handled, and it is marked
    delivered exactly when handling it succeeded; on an error it is in the log
    and undelivered if it got there, so recovery will handle it. *)
Theorem ingest_outcomes runtime event i :
  match ingest runtime event i with
  | (Ok rep, i') =>
    if ir_deduplicated rep then
      i' = i ∧ ir_handle rep = mkHandleReport [] [] ∧
      ∃ e, e ∈ log_events (view i.1) ∧ same_key event e ∧ ir_event_id rep = EventId_to_string (ev_id e)
    else
      (∀ e, e ∈ log_events (view i.1) → ¬ same_key event e) ∧
      ir_event_id rep = EventId_to_string (ev_id event) ∧
      handle runtime event i.2 = (Ok (ir_handle rep), i'.2) ∧
      view i'.1 = log_mark_delivered (ev_id event) (log_append event (view i.1))
  | (Err x, i') =>
    (∃ io, x = Storage io ∧ i'.2 = i.2 ∧ view i'.1 = view i.1) ∨
    view i'.1 = log_append event (view i.1) ∧
      (handle runtime event i.2 = (Err x, i'.2) ∨
       ∃ io report, x = Storage io ∧ handle runtime event i.2 = (Ok report, i'.2))
  end.
Proof. apply ingest_run. Qed.

(** What accepting does, on every branch. *)
Lemma accept_run event i :
  match accept event i with
  | (Ok rep, i') =>
    if ar_deduplicated rep then i' = i ∧ ∃ e, e ∈ log_events (view i.1) ∧ same_key event e
    else (∀ e, e ∈ log_events (view i.1) → ¬ same_key event e) ∧ i'.2 = i.2 ∧
         view i'.1 = log_append event (view i.1)
  | (Err x, i') => (∃ io, x = Storage io) ∧ i'.2 = i.2 ∧ view i'.1 = view i.1
  end.
Proof.
  unfold accept, gets, mbind, M_bind.
  destruct (existing_event event i.1) as [existing|] eqn:Hex.
  { simpl. split; [done|]. apply existing_event_Some in Hex. eauto. }
  pose proof (store_append_run event i) as Ha.
  destruct (mapM_err Storage (on_store (es_append event)) i) as [[[]|x] i1]; simpl.
  - split; [by apply existing_event_None|done].
  - destruct Ha as (Hw & Hv & Hx). done.
Qed.

(** An acknowledged acceptance leaves the files of a durable store in order. *)
Lemma accept_store_in_order `{!DurableEventStore S} event r i i' :
  accept event i = (Ok r, i') → es_in_order i.1 → es_in_order i'.1.
Proof.
  unfold accept, gets, mbind, M_bind, mapM_err, on_store, zoom.
  destruct (existing_event event i.1); [by intros [= _ <-]|].
  destruct (es_append event i.1) as [[[]|x] s] eqn:Ha; [|done]. intros [= _ <-] Hs. by eapply append_in_order.
Qed.

(** An event whose key is in the log is not stored again. *)
Lemma same_key_existing event i e :
  e ∈ log_events (view i.1) → same_key event e → ∃ e', existing_event event i.1 = Some e'.
Proof.
  intros Hin Hk. destruct (existing_event event i.1) as [e'|] eqn:Hex; [eauto|].
  by destruct (existing_event_None _ _ Hex e Hin).
Qed.

(** *** Unique keys *)

(** No two events of the log have the same idempotency key. *)
Definition unique_keys (l : EventLog) : Prop :=
  NoDup (omap (λ e, idempotency_key (ev_metadata e)) (log_events l)).

Lemma unique_keys_sublist l l' :
  log_events l' `sublist_of` log_events l → unique_keys l → unique_keys l'.
Proof.
  unfold unique_keys. intros Hs Hl. eapply sublist_NoDup; [exact Hl|]. clear -Hs.
  induction Hs as [|x l1 l2 Hl IH|x l1 l2 Hl IH]; [done| |]; simpl;
    destruct (idempotency_key (ev_metadata x)); [by apply sublist_skip|done|by apply sublist_cons|done].
Qed.

Lemma unique_keys_append event l :
  (∀ e, e ∈ log_events l → ¬ same_key event e) → unique_keys l → unique_keys (log_append event l).
Proof.
  unfold unique_keys. simpl. intros Hn Hl. rewrite omap_app. apply NoDup_app. split; [done|].
  split; [|simpl; destruct (idempotency_key (ev_metadata event)); [apply NoDup_singleton|constructor]].
  intros key (e & Hin & Hk)%list_elem_of_omap. simpl.
  destruct (idempotency_key (ev_metadata event)) as [key'|] eqn:Hk'; [|by intros ?%not_elem_of_nil].
  intros ->%list_elem_of_singleton. apply (Hn e Hin). split; [by eexists|congruence].
Qed.

(** The operations on the store that this process runs. *)
Inductive store_step runtime i : S * World B Q K → Prop :=
| step_ingest event r i' : ingest runtime event i = (r, i') → store_step runtime i i'
| step_accept event r i' : accept event i = (r, i') → store_step runtime i i'
| step_dispatch event r i' : dispatch runtime event i = (r, i') → store_step runtime i i'
| step_recover r i' : recover_undelivered runtime i = (r, i') → store_step runtime i i'
| step_retention policy now r s' :
    policy_wf policy → es_enforce_retention policy now i.1 = (r, s') → store_step runtime i (s', i.2)
| step_prune policy r s' : es_prune policy i.1 = (r, s') → store_step runtime i (s', i.2).

(** Marking changes no event. *)
Lemma dispatch_events runtime event i :
  log_events (view (dispatch runtime event i).2.1) = log_events (view i.1).
Proof.
  unfold dispatch, mbind, M_bind, on_world at 1, zoom at 1.
  destruct (handle runtime event i.2) as [[report|x] w1]; [|done].
  pose proof (store_mark_run (ev_id event) (i.1, w1)) as Hm.
  destruct (mapM_err Storage (on_store (es_mark_delivered (ev_id event))) (i.1, w1)) as [[[]|x] i2]; simpl in *.
  - destruct Hm as [_ ->]. done.
  - destruct Hm as (_ & -> & _). done.
Qed.

Lemma recover_loop_cons runtime event pending n i :
  recover_loop runtime (event :: pending) n i =
  match dispatch runtime event i with
  | (Ok _, i1) => recover_loop runtime pending (n + 1) i1
  | (Err x, i1) => (Err x, i1)
  end.
Proof.
  simpl. unfold dispatch, mbind, M_bind. destruct (on_world _ i) as [[report|x] i1]; [|done].
  by destruct (mapM_err _ _ i1) as [[[]|x] i2].
Qed.

Lemma recover_loop_events runtime pending n i :
  log_events (view (recover_loop runtime pending n i).2.1) = log_events (view i.1).
Proof.
  revert n i. induction pending as [|event pending IH]; intros n i; [done|].
  rewrite recover_loop_cons. pose proof (dispatch_events runtime event i) as Hd.
  destruct (dispatch runtime event i) as [[report|x] i1]; [|done]. by rewrite IH.
Qed.

(** Retention and pruning only remove events. *)
Lemma log_retention_sublist policy now l :
  policy_wf policy → log_events (log_enforce_retention policy now l).2 `sublist_of` log_events l.
Proof.
  intros Hwf. unfold log_enforce_retention. destruct (_ >? 0); [|done]. simpl.
  etrans; [by apply apply_size_bounds_sublist|apply sublist_filter].
Qed.

Lemma ingest_unique_keys runtime event i :
  unique_keys (view i.1) → unique_keys (view (ingest runtime event i).2.1).
Proof.
  rewrite accept_dispatch. unfold accept, gets, mbind, M_bind. intros Hu.
  destruct (existing_event event i.1) as [existing|] eqn:Hex; [done|].
  pose proof (store_append_run event i) as Ha.
  destruct (mapM_err Storage (on_store (es_append event)) i) as [[[]|x] i1]; simpl.
  - destruct Ha as [_ Hv]. pose proof (dispatch_events runtime event i1) as Hd.
    destruct (dispatch runtime event i1) as [[report|x] i2]; unfold unique_keys in *; simpl in *;
      rewrite Hd, Hv; by apply unique_keys_append, Hu; apply existing_event_None.
  - by destruct Ha as (_ & -> & _).
Qed.
Lemma store_step_unique_keys runtime i i' :
  unique_keys (view i.1) → store_step runtime i i' → unique_keys (view i'.1).
Proof.
  intros Hu [event r i1 Hr|event r i1 Hr|event r i1 Hr|r i1 Hr|policy now r s Hwf Hr|policy r s Hr].
  - pose proof (ingest_unique_keys runtime event i Hu) as Hi. by rewrite Hr in Hi.
  - unfold accept, gets, mbind, M_bind in Hr.
    destruct (existing_event event i.1) as [existing|] eqn:Hex.
    { unfold mret, M_ret in Hr. by injection Hr as _ <-. }
    pose proof (store_append_run event i) as Ha.
    destruct (mapM_err Storage (on_store (es_append event)) i) as [[[]|x] i2];
      unfold mret, M_ret in Hr; injection Hr as _ <-.
    + destruct Ha as [_ ->]. apply unique_keys_append; [by apply existing_event_None|done].
    + by destruct Ha as (_ & -> & _).
  - pose proof (dispatch_events runtime event i) as Hd. rewrite Hr in Hd. simpl in Hd. unfold unique_keys. by rewrite Hd.
  - unfold recover_undelivered, gets, mbind, M_bind in Hr.
    pose proof (recover_loop_events runtime (es_undelivered i.1) 0 i) as Hd. rewrite Hr in Hd.
    simpl in Hd. unfold unique_keys. by rewrite Hd.
  - eapply unique_keys_sublist; [|exact Hu]. simpl. pose proof (log_retention_sublist policy now (view i.1) Hwf) as Hs.
    destruct r as [n|x].
    + apply enforce_retention_ok in Hr. destruct (is_unbounded policy); [by injection Hr as _ ->|].
      apply (f_equal snd) in Hr. simpl in Hr. by rewrite Hr.
    + apply enforce_retention_err in Hr as [->| ->]; [done|exact Hs].
  - eapply unique_keys_sublist; [|exact Hu]. simpl. destruct r as [n|x].
    + apply prune_ok in Hr. injection Hr as _ ->. simpl. destruct policy; simpl; [apply sublist_filter|apply sublist_drop].
    + by apply prune_err in Hr as ->.
Qed.

(** However ingestions, dispatches, recoveries, retention sweeps and prunes
    follow one another, and whichever of them fail, no two events of the log have
    the same idempotency key. *)
Theorem keys_stay_unique runtime i i' :
  unique_keys (view i.1) → rtc (store_step runtime) i i' → unique_keys (view i'.1).
Proof. intros Hu. induction 1 as [|i i1 i2 Hs _ IH]; eauto using store_step_unique_keys. Qed.

(** *** Recovery *)

Lemma dispatch_run runtime event i :
  match dispatch runtime event i with
  | (Ok report, i') =>
    handle runtime event i.2 = (Ok report, i'.2) ∧ view i'.1 = log_mark_delivered (ev_id event) (view i.1)
  | (Err x, i') =>
    view i'.1 = view i.1 ∧
    (handle runtime event i.2 = (Err x, i'.2) ∨
     ∃ io report, x = Storage io ∧ handle runtime event i.2 = (Ok report, i'.2))
  end.
Proof.
  unfold dispatch, mbind, M_bind, on_world at 1, zoom at 1.
  destruct (handle runtime event i.2) as [[report|x] w1] eqn:Hh; [|by split; [|left]].
  pose proof (store_mark_run (ev_id event) (i.1, w1)) as Hm.
  destruct (mapM_err Storage (on_store (es_mark_delivered (ev_id event))) (i.1, w1)) as [[[]|x] i2]; simpl in *.
  - destruct Hm as [-> ->]. done.
  - destruct Hm as (-> & -> & io & ->). split; [done|]. right. eauto.
Qed.

Definition log_mark_all (events : list EventEnvelope) (l : EventLog) : EventLog :=
  mkEventLog (log_events l) (ids events ∪ log_delivered l).

Lemma log_mark_all_cons e events l :
  log_mark_all events (log_mark_delivered (ev_id e) l) = log_mark_all (e :: events) l.
Proof.
  unfold log_mark_all, log_mark_delivered, ids. simpl. f_equal. apply set_eq. intros x.
  rewrite !elem_of_union. tauto.
Qed.

Lemma recover_loop_run runtime pending n i :
  match recover_loop runtime pending n i with
  | (Ok m, i') =>
    m = n + len pending ∧ view i'.1 = log_mark_all pending (view i.1) ∧
    ∃ l, l.*1 = pending ∧ handled runtime l i.2 i'.2
  | (Err x, i') =>
    ∃ l event rest w1, pending = l.*1 ++ event :: rest ∧ view i'.1 = log_mark_all l.*1 (view i.1) ∧
      handled runtime l i.2 w1 ∧
      (handle runtime event w1 = (Err x, i'.2) ∨
       ∃ io report, x = Storage io ∧ handle runtime event w1 = (Ok report, i'.2))
  end.
Proof.
  assert (∀ l : EventLog, log_mark_all [] l = l) as Hnil.
  { intros [evs del]. unfold log_mark_all, ids. simpl. f_equal. apply set_eq. intros x.
    rewrite elem_of_union, elem_of_empty. tauto. }
  revert n i. induction pending as [|event pending IH]; intros n i.
  { simpl. unfold len. simpl. rewrite Hnil. split; [lia|]. split; [done|]. exists []. by split; [|constructor]. }
  rewrite recover_loop_cons. pose proof (dispatch_run runtime event i) as Hd.
  destruct (dispatch runtime event i) as [[report|x] i1].
  - destruct Hd as [Hh Hv]. specialize (IH (n + 1) i1).
    destruct (recover_loop runtime pending (n + 1) i1) as [[m|x] i2].
    + destruct IH as (-> & Hv2 & l & <- & Hl). split; [unfold len; simpl; lia|].
      split; [by rewrite Hv2, Hv, log_mark_all_cons|]. exists ((event, report) :: l). split; [done|].
      by econstructor.
    + destruct IH as (l & e & rest & w1 & -> & Hv2 & Hl & He). exists ((event, report) :: l), e, rest, w1.
      split; [done|]. split; [by rewrite Hv2, Hv, log_mark_all_cons|]. split; [by econstructor|done].
  - destruct Hd as [Hv Hh]. exists [], event, pending, i.2. split; [done|]. rewrite Hnil.
    split; [done|]. split; [constructor|done].
Qed.

(** What a recovery does, on every branch. *)
Lemma recovery_run runtime i :
  match recover_undelivered runtime i with
  | (Ok n, i') =>
    n = len (log_undelivered (view i.1)) ∧ log_events (view i'.1) = log_events (view i.1) ∧
    log_undelivered (view i'.1) = [] ∧
    ∃ l, l.*1 = log_undelivered (view i.1) ∧ handled runtime l i.2 i'.2
  | (Err x, i') =>
    ∃ l event rest w1, log_undelivered (view i.1) = l.*1 ++ event :: rest ∧
      log_events (view i'.1) = log_events (view i.1) ∧
      log_delivered (view i'.1) = ids l.*1 ∪ log_delivered (view i.1) ∧
      handled runtime l i.2 w1 ∧
      (handle runtime event w1 = (Err x, i'.2) ∨
       ∃ io report, x = Storage io ∧ handle runtime event w1 = (Ok report, i'.2))
  end.
Proof.
  unfold recover_undelivered, gets, mbind, M_bind. rewrite undelivered_view.
  pose proof (recover_loop_run runtime (log_undelivered (view i.1)) 0 i) as Hr.
  destruct (recover_loop runtime _ 0 i) as [[n|x] i'].
  - destruct Hr as (-> & Hv & Hl). rewrite Hv. split; [done|]. split; [done|]. split; [|done].
    unfold log_undelivered at 1. simpl. apply list_eq_nil_filter. intros e He Hno. apply Hno.
    apply elem_of_union. destruct (decide (ev_id e ∈ log_delivered (view i.1))) as [|Hnd]; [by right|].
    left. unfold ids. apply elem_of_list_to_set, list_elem_of_fmap. exists e. split; [done|].
    unfold log_undelivered. by apply list_elem_of_filter.
  - destruct Hr as (l & event & rest & w1 & Hp & Hv & Hl & Hh). exists l, event, rest, w1. rewrite Hv. done.
Qed.

(** C20: recovery handles exactly the undelivered events, in append order and each
    once, and leaves none undelivered; the log keeps its events. If one of them
    fails, those before it are delivered and it and the later ones are as they
    were: a later recovery continues there. *)
Theorem recovery_is_complete runtime i :
  match recover_undelivered runtime i with
  | (Ok n, i') =>
    n = len (log_undelivered (view i.1)) ∧ log_events (view i'.1) = log_events (view i.1) ∧
    log_undelivered (view i'.1) = [] ∧
    ∃ l, l.*1 = log_undelivered (view i.1) ∧ handled runtime l i.2 i'.2
  | (Err x, i') =>
    ∃ l event rest w1, log_undelivered (view i.1) = l.*1 ++ event :: rest ∧
      log_events (view i'.1) = log_events (view i.1) ∧
      log_delivered (view i'.1) = ids l.*1 ∪ log_delivered (view i.1) ∧
      handled runtime l i.2 w1 ∧
      (handle runtime event w1 = (Err x, i'.2) ∨
       ∃ io report, x = Storage io ∧ handle runtime event w1 = (Ok report, i'.2))
  end.
Proof. apply recovery_run. Qed.
End delivery.
