(* ===== verification/Recovery.v ===== *)
(** * Crash recovery, end to end

    The durable event store under ingestion: an event that was acknowledged is
    handled by the recovery that follows a power loss. With it, sample runs of
    ingestion. *)

From stdpp Require Import base gmap strings list relations.
From Stdlib Require Import ZArith Lia.
From S2P Require Import Prelude RustStd Event Trigger Retention Store FileSystem Jsonl JsonlSpec Durability.
From S2P Require Import FileStore FileDurability Samples StorageRuns.
From S2P Require Import Runtime Submission Handling Replay RuntimeRuns Ingest Delivery.
Local Open Scope Z_scope.

Section recovery.
Context `{UuidText} `{Worklane} {B Q K : Type} `{!Broker B} `{!DeadTriggerQueue Q} `{!TraceSink K}.
Context `{JsonCodec EventEnvelope} `{JsonCodec EventId} `{HashSetIter}.
Implicit Types (s : FileEventStore * FS) (w : World B Q K).

(** Accepting an event on a store in order keeps it in order. *)
Lemma accept_fes_ok event s w r s' w' :
  fes_ok s → accept event (s, w) = (Ok r, (s', w')) → ar_deduplicated r = false →
  fes_ok s' ∧ fes_all s' = fes_all s ++ [event] ∧ fes_delivered_set s'.1 = fes_delivered_set s.1.
Proof.
  intros Hok Ha Hr. unfold accept, gets, mbind, M_bind in Ha. change ((s, w).1) with s in Ha.
  destruct (existing_event event s) as [e|]; [unfold mret, M_ret in Ha; by simplify_eq|].
  unfold mapM_err, on_store, zoom in Ha. simpl in Ha.
  destruct (fes_append event s) as [[[]|x] s1] eqn:Hap; unfold mret, M_ret in Ha; [|done].
  simpl in Ha. injection Ha as <- <- <-. split; [by eapply fes_append_ok|].
  destruct (on_inner_ok _ _ _ _ _ (append_memory event) Hap). done.
Qed.

(** C6: an accepted event is handled after a power loss. On a durable store whose
    files are in order (a path with a directory part, and no earlier operation that
    failed and left them otherwise: [fes_ok]), once [accept] has acknowledged a new
    event, any power loss leaves a store that reopens, when no call fails, with the
    event undelivered, and a recovery that completes has handled it. *)
Theorem accepted_event_is_recovered runtime event s w r s' w' fs :
  fes_ok s → ev_id event ∉ fes_delivered_set s.1 →
  accept event (s, w) = (Ok r, (s', w')) → ar_deduplicated r = false →
  crash s'.2 fs → no_faults fs →
  ∃ st, fes_open (js_path (fes_inner s'.1)) fs = (Ok st, fs) ∧ event ∈ fes_undelivered (st, fs) ∧
    ∀ w1 n i', recover_undelivered runtime ((st, fs), w1) = (Ok n, i') →
      ∃ l report, (event, report) ∈ l ∧ handled runtime l w1 i'.2.
Proof.
  intros Hok Hid Ha Hr Hcr Hnf. destruct (accept_fes_ok _ _ _ _ _ _ Hok Ha Hr) as (Hok' & Hall & HX).
  destruct (fes_restart _ _ Hok' Hcr Hnf) as [Ho _]. exists s'.1. split; [exact Ho|].
  assert (event ∈ fes_undelivered (s'.1, fs)) as Hin.
  { unfold fes_undelivered. apply list_elem_of_filter. simpl. split; [by rewrite HX|].
    change (event ∈ fes_all s'). rewrite Hall. apply elem_of_app. right. left. }
  split; [done|]. intros w1 n i' Hrec. unfold recover_undelivered, gets, mbind, M_bind in Hrec.
  pose proof (recover_loop_run runtime (es_undelivered (s'.1, fs)) 0 ((s'.1, fs), w1)) as Hrun.
  change (recover_loop runtime (es_undelivered (s'.1, fs)) 0 ((s'.1, fs), w1) = (Ok n, i')) in Hrec.
  rewrite Hrec in Hrun. destruct Hrun as (_ & _ & l & Hl & Hh).
  change (event ∈ es_undelivered (s'.1, fs)) in Hin. rewrite <-Hl in Hin.
  apply list_elem_of_fmap in Hin as ([e report] & -> & Hin). eauto.
Qed.
End recovery.

(** ** Sample runs *)

Abbreviation SampleIngest := (InMemoryEventStore * SampleWorld)%type.

Definition ingest0 : SampleIngest := (InMemoryEventStore_new, sample_world broker_up).
Definition ingest1 : SampleIngest := (ingest quiet_runtime event1 ingest0).2.
Definition ingest2 : SampleIngest := (accept event2 ingest1).2.

Lemma keys_stay_unique_witness : unique_keys (view ingest2.1).
Proof.
  apply (keys_stay_unique quiet_runtime ingest0).
  - constructor.
  - eapply rtc_l; [eapply (step_ingest quiet_runtime ingest0 event1), surjective_pairing|].
    apply rtc_once. eapply (step_accept quiet_runtime ingest1 event2), surjective_pairing.
Defined.

(** The second ingestion of a key is recognised; recovery finds what was only accepted. *)
Example ingest_deduplicates :
  (ingest quiet_runtime event1 ingest2).1
  = Ok (mkIngestReport (EventId_to_string (ev_id event1)) (mkHandleReport [] []) true) ∧
  (recover_undelivered quiet_runtime ingest2).1 = Ok 1.
Proof. split; vm_compute; reflexivity. Qed.

Definition event3 : EventEnvelope := sample_event 3 (Some "k3") 300.

Definition accepted3 : (FileEventStore * FS) * SampleWorld := (accept event3 (fes3, sample_world broker_up)).2.

Lemma accepted_event_is_recovered_witness :
  ∃ st, fes_open (js_path (fes_inner accepted3.1.1)) (power_loss accepted3.1.2) = (Ok st, power_loss accepted3.1.2) ∧
    event3 ∈ fes_undelivered (st, power_loss accepted3.1.2) ∧
    ∀ (w1 : SampleWorld) n i', recover_undelivered quiet_runtime ((st, power_loss accepted3.1.2), w1) = (Ok n, i') →
      ∃ l report, (event3, report) ∈ l ∧ handled quiet_runtime l w1 i'.2.
Proof.
  apply (accepted_event_is_recovered quiet_runtime event3 fes3 (sample_world broker_up)
           (mkAcceptReport (EventId_to_string (ev_id event3)) false) accepted3.1 accepted3.2).
  - exact fes3_ok.
  - apply (bool_decide_unpack (ev_id event3 ∉ fes_delivered_set fes3.1)). vm_compute. exact I.
  - unfold accepted3. rewrite <-surjective_pairing.
    apply (run_ok (accept event3) (fes3, sample_world broker_up)). vm_compute. reflexivity.
  - reflexivity.
  - apply crash_power_loss.
  - reflexivity.
Defined.
