(* ===== verification/Settlement.v ===== *)
(** * No trigger is forgotten

    The components together: whatever sequence of ingestions, dispatches,
    recoveries, replays, retries, sweeps and restarts (on files in order) the process
    goes through, and whichever of them fail, each trigger that matches a stored event ends as
    a job the broker accepted or as a dead-trigger record, or the event is still
    waiting in the log, where the next recovery finds it. *)

From stdpp Require Import base gmap strings list relations.
From Stdlib Require Import ZArith Lia.
From S2P Require Import Prelude RustStd Event Trigger Retention Store FileSystem Jsonl JsonlSpec Durability.
From S2P Require Import FileStore FileDurability Samples StorageRuns.
From S2P Require Import Runtime Submission Handling Replay RuntimeRuns Ingest Delivery Recovery.
Local Open Scope Z_scope.

(** A sweep without hard bounds keeps every undelivered event. *)
Lemma grace_only_sweep_keeps `{Serialize EventEnvelope} policy now l e :
  grace_only policy → e ∈ log_events l →
  e ∈ log_events (log_enforce_retention policy now l).2 ∨ ev_id e ∈ log_delivered l.
Proof.
  intros Hp He. unfold log_enforce_retention. destruct (_ >? 0); [|by left]. by apply grace_only_keeps.
Qed.

Section settlement.
Context `{UuidText} `{!UuidTextLaws} `{Worklane} {S B Q K : Type}.
Context `{!EventStore S} `{!Broker B} `{!DedupBroker B} `{!DeadTriggerQueue Q} `{!TraceSink K}.
Context `{Serialize EventEnvelope} `{!EventStoreSpec S} `{Serialize DeadTriggerRecord} `{!DeadTriggerQueueSpec Q}.
Context `{!DurableEventStore S} `{!DurableDeadTriggerQueue Q}.

(** The process's configuration, and the event each id was given to: ids are
    drawn at random and not reused. *)
Context (runtime : TriggerRuntime) (origin : EventId → EventEnvelope).
Implicit Types (w : World B Q K) (i : S * World B Q K) (event e : EventEnvelope).

Definition genuine event : Prop := origin (ev_id event) = event.

(** Every matching trigger has its job, or a record of its failure. *)
Definition settled event w : Prop :=
  ∀ reg, reg ∈ matching (registry runtime) event →
    is_Some (accepted (w_broker w) (submission_key event (rt_name reg))) ∨
    ∃ r, r ∈ records (w_dead_triggers w) ∧ dt_event r = event ∧ dt_trigger_name r = rt_name reg.

(** From [w] to [w'], jobs and records were only added, the records for genuine
    events. *)
Definition carries w w' : Prop :=
  (∀ k id, accepted (w_broker w) k = Some id → accepted (w_broker w') k = Some id) ∧
  ∃ rs, records (w_dead_triggers w') = records (w_dead_triggers w) ++ rs ∧ Forall (λ r, genuine (dt_event r)) rs.

#[local] Instance carries_preorder : PreOrder carries.
Proof.
  split.
  - intros w. split; [done|]. exists []. by rewrite app_nil_r.
  - intros w1 w2 w3 [Ha1 (r1 & Hr1 & Hg1)] [Ha2 (r2 & Hr2 & Hg2)]. split; [auto|].
    exists (r1 ++ r2). rewrite Hr2, Hr1, app_assoc. split; [done|]. by apply Forall_app.
Qed.

Lemma settled_carries event w w' : carries w w' → settled event w → settled event w'.
Proof.
  intros [Ha (rs & Hr & _)] Hs reg Hreg. destruct (Hs reg Hreg) as [[id Hid]|(r & Hin & Hrest)].
  - left. eauto.
  - right. exists r. rewrite Hr. split; [apply elem_of_app; by left|done].
Qed.

(** *** Handling settles *)

Lemma outcomes_settle event outcomes w :
  outcomes.*1 = matching (registry runtime) event → Forall (outcome_accepted event w) outcomes →
  (∀ r, r ∈ omap (outcome_failed event) outcomes → r ∈ records (w_dead_triggers w)) → settled event w.
Proof.
  intros Hos Hacc Hrec reg Hreg. rewrite <-Hos in Hreg.
  apply list_elem_of_fmap in Hreg as ([reg' [s|error]] & -> & Hin); simpl.
  - left. rewrite Forall_forall in Hacc. destruct (Hacc _ Hin s eq_refl) as (id & _ & Hid). by eexists.
  - right. exists (mkDeadTriggerRecord event (rt_name reg') error). split; [|done]. apply Hrec.
    apply list_elem_of_omap. by eexists.
Qed.

Lemma omap_failed_genuine event outcomes :
  genuine event → Forall (λ r, genuine (dt_event r)) (omap (outcome_failed event) outcomes).
Proof.
  intros Hg. apply Forall_forall. intros r ([reg [s|error]] & _ & Hr)%list_elem_of_omap; [done|].
  by injection Hr as <-.
Qed.

Lemma handle_settles event w r w' :
  genuine event → handle runtime event w = (r, w') →
  carries w w' ∧ ∀ report, r = Ok report → settled event w'.
Proof.
  intros Hg Hh. pose proof (handle_run runtime event w) as Hrun.
  pose proof (handle_accepted runtime event w r w' Hh) as [[Hacc _] Hout]. rewrite Hh in Hrun.
  destruct r as [report|x].
  - destruct (Hout _ eq_refl) as (os & Hos & -> & Hos').
    destruct Hrun as (_ & _ & _ & _ & Hrec & _). simpl in Hrec. split.
    + split; [done|]. eexists. split; [exact Hrec|]. by apply omap_failed_genuine.
    + intros _ _. eapply outcomes_settle; [done..|]. intros r Hr. rewrite Hrec. apply elem_of_app. by right.
  - destruct Hrun as (_ & _ & os & _ & _ & Hrec). split; [|done]. split; [done|].
    eexists. split; [exact Hrec|]. by apply omap_failed_genuine.
Qed.

Lemma handled_settles l w w' :
  Forall genuine l.*1 → handled runtime l w w' → carries w w' ∧ Forall (λ e, settled e w') l.*1.
Proof.
  intros Hg Hl. induction Hl as [w|event report rest w w1 w2 Hh _ IH]; [by split|].
  apply Forall_cons in Hg as [Hge Hg]. destruct (handle_settles _ _ _ _ Hge Hh) as [Hc Hs].
  destruct (IH Hg) as [Hc2 Hs2]. split; [by etrans|]. constructor; [|done].
  eapply settled_carries; [exact Hc2|]. by eapply Hs.
Qed.

(** *** Retrying settles again *)

(** A pass that completes forgets nothing: the records it drained are of
    events it handles again. *)
Lemma retry_settles w rep w' :
  Forall (λ r, genuine (dt_event r)) (records (w_dead_triggers w)) →
  retry_dead_triggers runtime w = (Ok rep, w') →
  Forall (λ r, genuine (dt_event r)) (records (w_dead_triggers w')) ∧ ∀ e, settled e w → settled e w'.
Proof.
  intros Hgen Hr. rewrite Forall_forall in Hgen.
  destruct (retry_pass_run _ _ _ _ Hr) as (l & w0 & w1 & (Hb0 & Hb' & Hq') & Hempty & Hl & _ & Hfrom & Hall & _).
  assert (∀ er, er ∈ l → genuine er.1) as Hgl.
  { intros er Her. destruct (Hfrom er Her) as (r & Hin & <-). by apply Hgen. }
  assert (Forall genuine l.*1) as Hgl'.
  { apply Forall_forall. intros e (er & -> & Her)%list_elem_of_fmap. by apply Hgl. }
  destruct (handled_settles l w0 w1 Hgl' Hl) as [[Ha (rs & Hrs & Hgrs)] Hset]. rewrite Forall_forall in Hset.
  split; [by rewrite Hq', Hrs, Hempty|]. intros e Hs reg Hreg.
  destruct (Hs reg Hreg) as [[id Hid]|(r & Hin & <- & Hname)].
  - left. exists id. rewrite Hb'. apply Ha. by rewrite Hb0.
  - destruct (Hall r Hin) as (er & Her & Hide). unfold record_id in Hide. apply (inj EventId_to_string) in Hide.
    assert (er.1 = dt_event r) as He by (rewrite <-(Hgl er Her), <-(Hgen r Hin); unfold genuine; by rewrite Hide).
    assert (settled er.1 w1) as Hse by (apply Hset, list_elem_of_fmap; eauto).
    rewrite He in Hse. specialize (Hse reg Hreg). by rewrite Hb', Hq'.
Qed.

(** *** The process *)

(** The files of both stores are in order. *)
Definition in_order i : Prop := es_in_order i.1 ∧ dq_in_order (w_dead_triggers i.2).

(** One step of the process, whatever its result, except that a retry pass
    completes (one that fails after its drain does forget records). A restart opens
    the files again, which have to be in order; [successes_keep_order]: every
    operation that succeeds leaves them so. *)
Inductive process_step i : S * World B Q K → Prop :=
| process_ingest event r i' : genuine event → ingest runtime event i = (r, i') → process_step i i'
| process_accept event r i' : genuine event → accept event i = (r, i') → process_step i i'
| process_dispatch event r i' : genuine event → dispatch runtime event i = (r, i') → process_step i i'
| process_recover r i' : recover_undelivered runtime i = (r, i') → process_step i i'
| process_replay id r w' : replay_by_id runtime i.1 id i.2 = (r, w') → process_step i (i.1, w')
| process_replay_range start end_ flt r w' :
    replay_range runtime i.1 start end_ flt i.2 = (r, w') → process_step i (i.1, w')
| process_retry rep w' : retry_dead_triggers runtime i.2 = (Ok rep, w') → process_step i (i.1, w')
| process_sweep policy now r s' :
    grace_only policy → es_enforce_retention policy now i.1 = (r, s') → process_step i (s', i.2)
| process_restart i' :
    in_order i → es_reopens i.1 i'.1 → dq_reopens (w_dead_triggers i.2) (w_dead_triggers i'.2) →
    (∀ k id, accepted (w_broker i.2) k = Some id → accepted (w_broker i'.2) k = Some id) →
    process_step i i'.

(** What is true of every state: the log and the queue hold genuine events, and
    an event marked delivered is settled. *)
Record accounted i : Prop := mk_accounted {
  accounted_log : Forall genuine (log_events (view i.1));
  accounted_records : Forall (λ r, genuine (dt_event r)) (records (w_dead_triggers i.2));
  accounted_marks id : id ∈ log_delivered (view i.1) → settled (origin id) i.2;
}.

(** What a run keeps: nothing settled is forgotten, and an event of the log stays
    there or is settled. *)
Record keeps i i' : Prop := mk_keeps {
  keeps_accounted : accounted i';
  keeps_settled e : settled e i.2 → settled e i'.2;
  keeps_events e : e ∈ log_events (view i.1) → e ∈ log_events (view i'.1) ∨ settled e i'.2;
}.

Lemma keeps_refl i : accounted i → keeps i i.
Proof. intros Ha. constructor; [done..|by left]. Qed.

Lemma keeps_trans i1 i2 i3 : keeps i1 i2 → keeps i2 i3 → keeps i1 i3.
Proof.
  intros [_ Hs1 He1] [Ha Hs2 He2]. constructor; [done|auto|]. intros e [Hin|Hset]%He1; [by apply He2|].
  right. by apply Hs2.
Qed.

(** The steps that only add jobs, records and events, and mark settled ones. *)
Lemma additive_keeps i i' :
  accounted i → carries i.2 i'.2 → log_events (view i.1) ⊆ log_events (view i'.1) →
  Forall genuine (log_events (view i'.1)) →
  (∀ id, id ∈ log_delivered (view i'.1) → id ∈ log_delivered (view i.1) ∨ settled (origin id) i'.2) → keeps i i'.
Proof.
  intros [_ Hr Hm] Hc Hsub Hg Hmark. constructor.
  - constructor; [done| |].
    + destruct Hc as [_ (rs & -> & Hrs)]. by apply Forall_app.
    + intros id [Hid|Hid]%Hmark; [|done]. eapply settled_carries; [exact Hc|by apply Hm].
  - intros e. by apply settled_carries.
  - intros e He. left. by apply Hsub.
Qed.

(** Some events were handled and may have been marked; after them at most one
    was handled and not marked. *)
Lemma handled_keeps l w1 i i' :
  accounted i → Forall genuine l.*1 → handled runtime l i.2 w1 → carries w1 i'.2 →
  log_events (view i'.1) = log_events (view i.1) →
  log_delivered (view i'.1) ⊆ ids l.*1 ∪ log_delivered (view i.1) → keeps i i'.
Proof.
  intros Ha Hg Hl Hc1 He Hd. destruct (handled_settles _ _ _ Hg Hl) as [Hc Hs].
  apply additive_keeps; [done|by etrans|by rewrite He|rewrite He; apply Ha|].
  intros id [Hid|Hid]%Hd%elem_of_union; [|by left]. right.
  apply elem_of_list_to_set, list_elem_of_fmap in Hid as (e & -> & Hin).
  rewrite Forall_forall in Hg, Hs. rewrite (Hg e Hin). eapply settled_carries; [exact Hc1|by apply Hs].
Qed.

Lemma same_world_keeps i i' :
  accounted i → i'.2 = i.2 → view i'.1 = view i.1 → keeps i i'.
Proof.
  intros Ha Hw Hv. apply additive_keeps; [done|by rewrite Hw|by rewrite Hv|rewrite Hv; apply Ha|rewrite Hv; by left].
Qed.

Lemma append_keeps event i i' :
  accounted i → genuine event → i'.2 = i.2 → view i'.1 = log_append event (view i.1) → keeps i i'.
Proof.
  intros Ha Hg Hw Hv. apply additive_keeps; [done|by rewrite Hw| | |rewrite Hv; by left]; rewrite Hv; simpl.
  - intros e He. apply elem_of_app. by left.
  - apply Forall_app. split; [apply Ha|by constructor].
Qed.

Lemma accept_keeps event r i i' : accounted i → genuine event → accept event i = (r, i') → keeps i i'.
Proof.
  intros Ha Hg Hr. pose proof (accept_run event i) as Hrun. rewrite Hr in Hrun. destruct r as [rep|x].
  - destruct (ar_deduplicated rep); [destruct Hrun as [-> _]; by apply keeps_refl|].
    destruct Hrun as (_ & Hw & Hv). by eapply append_keeps.
  - destruct Hrun as (_ & Hw & Hv). by apply same_world_keeps.
Qed.

Lemma dispatch_keeps event r i i' : accounted i → genuine event → dispatch runtime event i = (r, i') → keeps i i'.
Proof.
  intros Ha Hg Hr. pose proof (dispatch_run runtime event i) as Hrun. rewrite Hr in Hrun. destruct r as [rep|x].
  - destruct Hrun as [Hh Hv]. apply (handled_keeps [(event, rep)] i'.2); rewrite ?Hv; [done|by constructor| |done..|].
    + econstructor; [exact Hh|constructor].
    + unfold ids. set_solver.
  - destruct Hrun as [Hv Hh]. apply (handled_keeps [] i.2); rewrite ?Hv; [done|constructor|constructor| |done|set_solver].
    destruct Hh as [Hh|(io & rep & _ & Hh)]; by apply (handle_settles _ _ _ _ Hg Hh).
Qed.

Lemma ingest_keeps event r i i' : accounted i → genuine event → ingest runtime event i = (r, i') → keeps i i'.
Proof.
  rewrite accept_dispatch. intros Ha Hg Hr. destruct (accept event i) as [[rep|x] i1] eqn:Hacc.
  - apply accept_keeps in Hacc as Hk; [|done..]. destruct (ar_deduplicated rep); [by injection Hr as _ <-|].
    destruct (dispatch runtime event i1) as [[rep'|x] i2] eqn:Hd; injection Hr as _ <-;
      (eapply keeps_trans; [exact Hk|]); by eapply dispatch_keeps; [apply Hk|..].
  - injection Hr as _ <-. by eapply accept_keeps.
Qed.

Lemma recover_keeps r i i' : accounted i → recover_undelivered runtime i = (r, i') → keeps i i'.
Proof.
  intros Ha Hr. unfold recover_undelivered, gets, mbind, M_bind in Hr. rewrite undelivered_view in Hr.
  pose proof (recover_loop_run runtime (log_undelivered (view i.1)) 0 i) as Hrun. rewrite Hr in Hrun.
  assert (Forall genuine (log_undelivered (view i.1))) as Hg
    by (eapply Forall_sublist; [apply sublist_filter|apply Ha]).
  destruct r as [n|x].
  - destruct Hrun as (_ & Hv & l & Hl & Hh). apply (handled_keeps l i'.2); rewrite ?Hv, ?Hl; done.
  - destruct Hrun as (l & event & rest & w1 & Hp & Hv & Hh & He). rewrite Hp in Hg.
    apply Forall_app in Hg as [Hg [Hge _]%Forall_cons]. apply (handled_keeps l w1); rewrite ?Hv; [done..| |done|done].
    destruct He as [He|(io & rep & _ & He)]; by apply (handle_settles _ _ _ _ Hge He).
Qed.

Lemma replay_keeps s id r w w' :
  accounted (s, w) → replay_by_id runtime s id w = (r, w') → keeps (s, w) (s, w').
Proof.
  intros Ha Hr. unfold replay_by_id, lift, mbind, M_bind in Hr. rewrite get_view in Hr. unfold log_get in Hr.
  destruct (List.find _ _) as [event|] eqn:Hf; simpl in Hr; [|injection Hr as _ <-; by apply keeps_refl].
  apply find_Some_elem in Hf as [Hin _]. pose proof (accounted_log _ Ha) as Hg. rewrite Forall_forall in Hg.
  unfold mapM_err in Hr. destruct (handle runtime event w) as [r1 w1] eqn:Hh.
  assert (w' = w1) as -> by (destruct r1; by injection Hr).
  apply (handled_keeps [] w); [done|constructor|constructor| |done|set_solver].
  by apply (handle_settles _ _ _ _ (Hg _ Hin) Hh).
Qed.

Lemma replay_range_keeps s start end_ flt r w w' :
  accounted (s, w) → replay_range runtime s start end_ flt w = (r, w') → keeps (s, w) (s, w').
Proof.
  intros Ha Hr. unfold replay_range in Hr. set (selected := filter _ _) in Hr.
  assert (Forall genuine selected) as Hg.
  { unfold selected. rewrite all_view. eapply Forall_sublist; [etrans; apply sublist_filter|apply Ha]. }
  pose proof (replay_events_run runtime selected [] w) as Hrun. rewrite Hr in Hrun. destruct r as [rep|x].
  - destruct Hrun as (l & Hl & Hh & _). apply (handled_keeps l w'); rewrite ?Hl; [done..|set_solver].
  - destruct Hrun as (l & event & rest & w1 & y & Hl & Hh & He & _). rewrite Hl in Hg.
    apply Forall_app in Hg as [Hg [Hge _]%Forall_cons].
    apply (handled_keeps l w1); [done..| |done|set_solver]. by apply (handle_settles _ _ _ _ Hge He).
Qed.

Lemma sweep_keeps policy now r s s' w :
  accounted (s, w) → grace_only policy → es_enforce_retention policy now s = (r, s') → keeps (s, w) (s', w).
Proof.
  intros Ha Hp Hr. destruct Ha as [Hg Hrec Hm]. simpl in *. set (l := view s) in *.
  assert (policy_wf policy) as Hwf by (destruct Hp as (_ & Hc & Hb); unfold policy_wf; by rewrite Hc, Hb).
  assert ((view s' = l ∨ log_events (view s') = log_events (log_enforce_retention policy now l).2) ∧
    log_delivered (view s') ⊆ log_delivered l) as [Hev Hd].
  { destruct r as [n|x].
    - apply enforce_retention_ok in Hr. destruct (is_unbounded policy);
        apply (f_equal snd) in Hr as Hv; simpl in Hv; rewrite Hv; [by split; [left|]|].
      split; [by right|]. unfold log_enforce_retention. destruct (_ >? 0); set_solver.
    - apply enforce_retention_err in Hr as [Hv|Hv]; rewrite Hv; [by split; [left|]|]. split; [by right|done]. }
  constructor; simpl; [|done|].
  - constructor; simpl; [|done|auto]. destruct Hev as [->|Hev]; [done|]. rewrite Hev.
    eapply Forall_sublist; [|exact Hg]. by apply log_retention_sublist.
  - intros e He. destruct Hev as [->|Hev]; [by left|]. rewrite Hev.
    destruct (grace_only_sweep_keeps policy now l e Hp He) as [|Hmark]; [by left|]. right.
    rewrite Forall_forall in Hg. rewrite <-(Hg e He). by apply Hm.
Qed.

Lemma process_step_keeps i i' : accounted i → process_step i i' → keeps i i'.
Proof.
  destruct i as [s w]. intros Ha Hs. destruct Hs as [event r i' Hg Hr|event r i' Hg Hr|event r i' Hg Hr|r i' Hr|
    id r w' Hr|start end_ flt r w' Hr|rep w' Hr|policy now r s' Hp Hr|i' [Hos Hoq] Hrs Hrq Hacc].
  - by eapply ingest_keeps.
  - by eapply accept_keeps.
  - by eapply dispatch_keeps.
  - by eapply recover_keeps.
  - by eapply replay_keeps.
  - by eapply replay_range_keeps.
  - destruct (retry_settles _ _ _ (accounted_records _ Ha) Hr) as [Hg Hset].
    constructor; simpl; [|done|by left]. constructor; simpl; [apply Ha|done|].
    intros id Hid. apply Hset. by apply (accounted_marks _ Ha).
  - by eapply sweep_keeps.
  - destruct (reopens_view _ _ Hos Hrs) as [Hv _]. destruct (dq_reopens_view _ _ Hoq Hrq) as [Hrec _].
    apply additive_keeps; [done| |by rewrite Hv|rewrite Hv; apply Ha|rewrite Hv; by left].
    split; [done|]. exists []. by rewrite Hrec, app_nil_r.
Qed.

Lemma process_keeps i i' : accounted i → rtc process_step i i' → keeps i i'.
Proof.
  intros Ha Hs. induction Hs as [i|i i1 i2 Hs _ IH]; [by apply keeps_refl|].
  apply process_step_keeps in Hs; [|done]. eapply keeps_trans; [exact Hs|]. apply IH, Hs.
Qed.

(** *** What succeeds keeps the files in order *)

Lemma accept_in_order event r i i' : accept event i = (Ok r, i') → in_order i → in_order i'.
Proof.
  intros Ha [Hs Hq]. split; [by eapply accept_store_in_order|].
  pose proof (accept_run event i) as Hrun. rewrite Ha in Hrun.
  destruct (ar_deduplicated r); [by destruct Hrun as [-> _]|]. by destruct Hrun as (_ & -> & _).
Qed.

Lemma dispatch_in_order event r i i' : dispatch runtime event i = (Ok r, i') → in_order i → in_order i'.
Proof.
  unfold dispatch, mbind, M_bind, mapM_err, on_store, on_world, zoom.
  destruct (handle runtime event i.2) as [[report|x] w] eqn:Hh; [|done]. simpl.
  destruct (es_mark_delivered (ev_id event) i.1) as [[[]|x] s] eqn:Hm; [|done]. intros [= _ <-] [Hs Hq].
  split; [by eapply mark_delivered_in_order|]. eapply handle_good; [|exact Hh|done]. apply dq_record_in_order.
Qed.

Lemma ingest_in_order event r i i' : ingest runtime event i = (Ok r, i') → in_order i → in_order i'.
Proof.
  rewrite accept_dispatch. destruct (accept event i) as [[rep|x] i1] eqn:Ha; [|done].
  intros Hr Hi. apply accept_in_order in Ha; [|done]. destruct (ar_deduplicated rep); [by injection Hr as _ <-|].
  destruct (dispatch runtime event i1) as [[rep'|x] i2] eqn:Hd; [|done]. injection Hr as _ <-.
  by eapply dispatch_in_order.
Qed.

Lemma recover_in_order n i i' : recover_undelivered runtime i = (Ok n, i') → in_order i → in_order i'.
Proof.
  unfold recover_undelivered, gets, mbind, M_bind. generalize (es_undelivered i.1) as pending. intros pending.
  generalize 0 as m. revert i. induction pending as [|event pending IH]; intros i m; [by intros [= _ <-]|].
  rewrite recover_loop_cons. destruct (dispatch runtime event i) as [[rep|x] i1] eqn:Hd; [|done].
  intros Hr Hi. by eapply IH, dispatch_in_order.
Qed.

Lemma retry_in_order rep i w' :
  retry_dead_triggers runtime i.2 = (Ok rep, w') → in_order i → in_order (i.1, w').
Proof.
  intros Hr [Hs Hq]. split; [done|]. eapply retry_good; [..|exact Hr|exact Hq].
  - apply dq_record_in_order.
  - intros l q q' Hd. by eapply dq_drain_in_order.
Qed.

Lemma sweep_in_order policy now n i s' :
  es_enforce_retention policy now i.1 = (Ok n, s') → in_order i → in_order (s', i.2).
Proof. intros Hr [Hs Hq]. split; [by eapply enforce_retention_in_order|done]. Qed.

(** Every operation of [process_step] that reports success keeps the files of both
    stores in order. *)
Lemma successes_keep_order i :
  in_order i →
  (∀ event r i', ingest runtime event i = (Ok r, i') → in_order i') ∧
  (∀ event r i', accept event i = (Ok r, i') → in_order i') ∧
  (∀ event r i', dispatch runtime event i = (Ok r, i') → in_order i') ∧
  (∀ n i', recover_undelivered runtime i = (Ok n, i') → in_order i') ∧
  (∀ id r w', replay_by_id runtime i.1 id i.2 = (Ok r, w') → in_order (i.1, w')) ∧
  (∀ start end_ flt r w', replay_range runtime i.1 start end_ flt i.2 = (Ok r, w') → in_order (i.1, w')) ∧
  (∀ rep w', retry_dead_triggers runtime i.2 = (Ok rep, w') → in_order (i.1, w')) ∧
  (∀ policy now n s', es_enforce_retention policy now i.1 = (Ok n, s') → in_order (s', i.2)) ∧
  (∀ i', es_reopens i.1 i'.1 → dq_reopens (w_dead_triggers i.2) (w_dead_triggers i'.2) → in_order i').
Proof.
  intros Hi. split_and!; eauto using ingest_in_order, accept_in_order, dispatch_in_order, recover_in_order, retry_in_order, sweep_in_order.
  - intros id r w' Hr. destruct Hi as [Hs Hq]. split; [done|]. unfold replay_by_id, lift, mbind, M_bind, mapM_err in Hr.
    destruct (es_get id i.1) as [event|]; [|done]. simpl in Hr.
    destruct (handle runtime event i.2) as [[rep|x] w] eqn:Hh; [|done]. injection Hr as _ <-.
    eapply handle_good; [|exact Hh|done]. apply dq_record_in_order.
  - intros start end_ flt r w' Hr. destruct Hi as [Hs Hq]. split; [done|]. unfold replay_range in Hr.
    match type of Hr with replay_events _ ?sel _ _ = _ => pose proof (replay_events_run runtime sel [] i.2) as Hrun end. rewrite Hr in Hrun. destruct Hrun as (l & _ & Hl & _).
    eapply handled_good; [|exact Hl|done]. apply dq_record_in_order.
  - intros i' Hs Hq. destruct Hi as [His Hiq].
    split; [by destruct (reopens_view _ _ His Hs)|by destruct (dq_reopens_view _ _ Hiq Hq)].
Qed.

(** A process that starts with nothing stored. *)
Definition starts_empty i : Prop :=
  view i.1 = mkEventLog [] ∅ ∧ records (w_dead_triggers i.2) = [].

Lemma starts_empty_accounted i : starts_empty i → accounted i.
Proof. intros [Hv Hr]. constructor; rewrite ?Hv, ?Hr; [constructor..|]. set_solver. Qed.

(** Every event that is in the log is settled by the next recovery. *)
Lemma recover_settles e i n i' :
  accounted i → e ∈ log_events (view i.1) ∨ settled e i.2 →
  recover_undelivered runtime i = (Ok n, i') → settled e i'.2.
Proof.
  intros Ha He Hr. apply recover_keeps in Hr as Hk; [|done].
  destruct He as [He|Hs]; [|by apply (keeps_settled _ _ Hk)].
  destruct (keeps_events _ _ Hk e He) as [Hin|]; [|done].
  pose proof (recovery_run runtime i) as Hrun. rewrite Hr in Hrun. destruct Hrun as (_ & _ & Hnone & _).
  pose proof (keeps_accounted _ _ Hk) as Ha'. pose proof (accounted_log _ Ha') as Hg. rewrite Forall_forall in Hg.
  destruct (decide (ev_id e ∈ log_delivered (view i'.1))) as [Hm|Hm].
  - rewrite <-(Hg e Hin). by apply (accounted_marks _ Ha').
  - exfalso. apply (not_elem_of_nil e). rewrite <-Hnone. by apply list_elem_of_filter.
Qed.

(** C1: no trigger is forgotten. From an empty store, through any sequence of
    ingestions, acceptances, dispatches, recoveries, replays, completed retry
    passes and sweeps without hard bounds, whichever of them fail, and of restarts
    that open again files that are in order (operations that succeed keep them so;
    one that fails may not, and what a restart finds then is not covered):
    once an event is in the log, it stays there undelivered until each of its
    matching triggers has an accepted job or a dead-trigger record that names
    it and the event; from then on that remains so; and a recovery that
    completes brings it about. *)
Theorem no_trigger_is_forgotten i0 i i' e :
  starts_empty i0 → rtc process_step i0 i → e ∈ log_events (view i.1) → rtc process_step i i' →
  (e ∈ log_undelivered (view i'.1) ∨ settled e i'.2) ∧
  (settled e i.2 → settled e i'.2) ∧
  ∀ n i'', recover_undelivered runtime i' = (Ok n, i'') → settled e i''.2.
Proof.
  intros Hempty Hi He Hi'. pose proof (process_keeps _ _ (starts_empty_accounted _ Hempty) Hi) as Hk.
  pose proof (process_keeps _ _ (keeps_accounted _ _ Hk) Hi') as Hk'.
  pose proof (keeps_accounted _ _ Hk') as Ha. pose proof (keeps_events _ _ Hk' e He) as He'.
  split; [|split; [apply (keeps_settled _ _ Hk')|intros n i'' Hr; by eapply recover_settles]].
  destruct He' as [Hin|]; [|by right]. pose proof (accounted_log _ Ha) as Hg. rewrite Forall_forall in Hg.
  destruct (decide (ev_id e ∈ log_delivered (view i'.1))) as [Hm|Hm].
  - right. rewrite <-(Hg e Hin). by apply (accounted_marks _ Ha).
  - left. by apply list_elem_of_filter.
Qed.
End settlement.

(** *** A power loss is a restart *)

Section power_loss.
Context `{UuidText} `{Worklane} {B K : Type} `{!Broker B} `{!DedupBroker B} `{!TraceSink K}.
Context `{JsonCodec EventEnvelope} `{JsonCodec EventId} `{JsonCodec DeadTriggerRecord} `{HashSetIter}.

(** The durable backends, opened again after a power loss that their file systems
    went through, are the restart of [process_step], and in order; the broker is
    another service, and may have accepted jobs since. *)
Lemma power_loss_restarts runtime origin s q b b' (k k' : K) lanes lanes' effects effects' fs fsq :
  fes_ok s → queue_ok q → crash s.2 fs → no_faults fs → crash q.2 fsq → no_faults fsq →
  (∀ key id, accepted b key = Some id → accepted b' key = Some id) →
  ∃ st qt, fes_open (js_path (fes_inner s.1)) fs = (Ok st, fs) ∧
    fdq_open (js_path (fdq_inner q.1)) fsq = (Ok qt, fsq) ∧ fes_ok (st, fs) ∧ queue_ok (qt, fsq) ∧
    process_step (B := B) (Q := FileDeadTriggerQueue * FS) runtime origin
      (s, mkWorld b q k lanes effects) ((st, fs), mkWorld b' (qt, fsq) k' lanes' effects').
Proof.
  intros Hs Hq Hcs Hfs Hcq Hfq Hb. destruct (fes_restart _ _ Hs Hcs Hfs) as [Ho Hok].
  destruct (fdq_restart _ _ Hq Hcq Hfq) as [Hoq Hokq]. exists s.1, q.1. split_and!; [done..|].
  apply process_restart; [by split|by exists fs|by exists fsq|done].
Qed.
End power_loss.

(** ** A sample run *)

(** A dead-trigger queue on an empty file system. *)
Definition queue_sample : FileDeadTriggerQueue * FS :=
  match fdq_open sample_path fs_empty with
  | (Ok q, fs) => (q, fs)
  | (Err _, fs) => (mkFileDeadTriggerQueue (mkJsonlStore sample_path [] 0), fs)
  end.

Lemma queue_sample_ok : queue_ok queue_sample.
Proof.
  destruct (jsonl_open (T := DeadTriggerRecord) sample_path fs_empty) as [[st|e] fs] eqn:Ho.
  - destruct (open_new (T := DeadTriggerRecord) sample_path fs_empty st fs) as (_ & _ & Hok);
      [by apply (bool_decide_unpack _); vm_compute|apply fs_empty_wf|done|done|].
    unfold queue_sample, fdq_open, mbind, M_bind. by rewrite Ho.
  - by vm_compute in Ho.
Qed.

Abbreviation DurableProcess :=
  ((FileEventStore * FS) * World SampleBroker (FileDeadTriggerQueue * FS) InMemoryTraceSink)%type.

Definition sample_origin (id : EventId) : EventEnvelope := if decide (id = ev_id event1) then event1 else event2.

(** [event1] is accepted, the power fails, the process recovers, and the trigger
    that rejected the event is retried. *)
Definition process0 : DurableProcess :=
  (fes_sample, mkWorld broker_up queue_sample (mkInMemoryTraceSink []) ∅ []).
Definition process1 : DurableProcess := (accept event1 process0).2.
Definition process2 : DurableProcess :=
  ((process1.1.1, power_loss process1.1.2),
   mkWorld broker_up (queue_sample.1, power_loss queue_sample.2) (mkInMemoryTraceSink []) ∅ []).
Definition process3 : DurableProcess := (recover_undelivered sample_runtime process2).2.
Definition process4 : DurableProcess := (process3.1, (retry_dead_triggers sample_runtime process3.2).2).

Lemma process1_ok : fes_ok process1.1.
Proof.
  refine (proj1 (accept_in_order event1 (mkAcceptReport (EventId_to_string (ev_id event1)) false) process0 process1 _ _)).
  - apply (run_ok (accept event1) process0). vm_compute. reflexivity.
  - split; [|exact queue_sample_ok]. change (fes_ok fes_sample). rewrite (surjective_pairing fes_sample).
    exact (proj2 (fes_open_new sample_path fs_empty _ _ sample_paths_ok fs_empty_wf eq_refl eq_refl fes_sample_run)).
Qed.

Lemma process2_step : process_step sample_runtime sample_origin process1 process2.
Proof.
  assert (process1.2 = process0.2) as Hw by (vm_compute; reflexivity).
  apply process_restart.
  - split; [exact process1_ok|]. rewrite Hw. exact queue_sample_ok.
  - exists (power_loss process1.1.2). split; [apply crash_power_loss|]. split; [done|].
    exact (proj1 (fes_restart _ _ process1_ok (crash_power_loss _) eq_refl)).
  - rewrite Hw. exists (power_loss queue_sample.2). split; [apply crash_power_loss|]. split; [done|].
    exact (proj1 (fdq_restart _ _ queue_sample_ok (crash_power_loss _) eq_refl)).
  - rewrite Hw. done.
Qed.

Lemma process4_step : process_step sample_runtime sample_origin process3 process4.
Proof.
  apply (process_retry _ _ _ (mkDeadTriggerRetryReport 1 1 0 1 ["0"])).
  apply (run_ok (retry_dead_triggers sample_runtime) process3.2). vm_compute. reflexivity.
Qed.

Lemma no_trigger_is_forgotten_witness :
  (event1 ∈ log_undelivered (view process4.1) ∨ settled sample_runtime event1 process4.2) ∧
  (settled sample_runtime event1 process1.2 → settled sample_runtime event1 process4.2) ∧
  ∀ n i'', recover_undelivered sample_runtime process4 = (Ok n, i'') → settled sample_runtime event1 i''.2.
Proof.
  apply (no_trigger_is_forgotten sample_runtime sample_origin process0).
  - split; vm_compute; reflexivity.
  - apply rtc_once. eapply (process_accept _ _ _ event1); [reflexivity|apply surjective_pairing].
  - apply (bool_decide_unpack (event1 ∈ log_events (view process1.1))). vm_compute. exact I.
  - eapply rtc_l; [exact process2_step|]. eapply rtc_l; [|apply rtc_once; exact process4_step].
    eapply process_recover. apply surjective_pairing.
Defined.

(** At its end one trigger has its job and the other one record, renewed by the
    retry. *)
Example sample_run_settles :
  accepted (w_broker process4.2) (submission_key event1 "issues") = Some 0%N ∧
  records (w_dead_triggers process4.2) = [mkDeadTriggerRecord event1 "strict" "binding rejected event: no label"] ∧
  log_undelivered (view process4.1) = [].
Proof. split_and!; vm_compute; reflexivity. Qed.
