(* ===== verification/RetryCrash.v ===== *)
(** * A retry pass cut short

    [retry_dead_triggers] takes every record out of the durable queue before it
    handles the first event again. What a crash at any moment of the pass leaves
    in the queue: the failures recorded again so far, perhaps the one being written,
    and nothing of the events the pass had not come to. *)

From stdpp Require Import base gmap strings list.
From Stdlib Require Import ZArith Lia.
From S2P Require Import Prelude RustStd Event Trigger Retention Store FileSystem Jsonl JsonlSpec Durability.
From S2P Require Import FileStore FileDurability Samples StorageRuns Runtime Submission Handling Replay RuntimeRuns.
Local Open Scope Z_scope.

(** ** The moments of a pass *)

Section moments.
Context `{UuidText} `{Worklane} {B Q K : Type} `{!Broker B} `{!DeadTriggerQueue Q} `{!TraceSink K}.
Context `{Serialize DeadTriggerRecord} `{!DeadTriggerQueueSpec Q}.
Implicit Types w : World B Q K.

(** A moment of the pass that started in [w], after its drain, at which no record is
    being written: the first [j] events are handled, and of the event after them, if
    the pass is at one, some of the triggers. The first index are the ids of all of
    these, the second the failures recorded again. *)
Inductive retry_moment (self : TriggerRuntime) w : list string → list DeadTriggerRecord → World B Q K → Prop :=
| between_events rs w0 order events fl j rep w1 l :
    on_dead_triggers (E := io_error) dq_drain w = (Ok rs, w0) → group_by_event rs [] ∅ ∅ = (order, events, fl) →
    retry_loop self (take j order) events fl (mkDeadTriggerRetryReport (len rs) 0 0 0 []) w0 = (Ok rep, w1) →
    handled self l w0 w1 → (λ er, EventId_to_string (ev_id er.1)) <$> l = take j order →
    retry_moment self w (take j order) (concat ((λ er, failed er.2) <$> l)) w1
| in_an_event rs w0 order events fl j rep w1 l id event k sub fail names w' :
    on_dead_triggers (E := io_error) dq_drain w = (Ok rs, w0) → group_by_event rs [] ∅ ∅ = (order, events, fl) →
    retry_loop self (take j order) events fl (mkDeadTriggerRetryReport (len rs) 0 0 0 []) w0 = (Ok rep, w1) →
    handled self l w0 w1 → (λ er, EventId_to_string (ev_id er.1)) <$> l = take j order →
    order !! j = Some id → events !! id = Some event →
    handle_loop self event (take k (matching (registry self) event)) [] [] [] w1 = (Ok (sub, fail, names), w') →
    retry_moment self w (take (S j) order) (concat ((λ er, failed er.2) <$> l) ++ fail) w'.

(** What [handle_one] records of a trigger, if it fails, and where it then stands. *)
Definition failing (self : TriggerRuntime) (event : EventEnvelope) (reg : RegisteredTrigger) w
    : option (string * World B Q K) :=
  let w1 := (emit (E := RuntimeError) (Counter "triggerlane_trigger_matches_total" [("trigger", rt_name reg)]) w).2 in
  match rt_binding reg event with
  | Ok job =>
    match enqueue_with_retries self job (submission_key event (rt_name reg)) w1 with
    | (Ok _, _) => None
    | (Err error, w2) => Some (Error_to_string error, w2)
    end
  | Err error => Some (BindingError_to_string error, w1)
  end.

(** What the queue is at a moment of the pass: as the finished records left it, or
    with one more whose [dq_record] is under way or over, whatever became of it. *)
Inductive queue_moment (self : TriggerRuntime) w :
    list string → list DeadTriggerRecord → option (DeadTriggerRecord * result io_error unit) → Q → Prop :=
| at_rest reached renewed w' :
    retry_moment self w reached renewed w' → queue_moment self w reached renewed None (w_dead_triggers w')
| recording rs w0 order events fl j rep w1 l id event k sub fail names w' reg error w2 res q :
    on_dead_triggers (E := io_error) dq_drain w = (Ok rs, w0) → group_by_event rs [] ∅ ∅ = (order, events, fl) →
    retry_loop self (take j order) events fl (mkDeadTriggerRetryReport (len rs) 0 0 0 []) w0 = (Ok rep, w1) →
    handled self l w0 w1 → (λ er, EventId_to_string (ev_id er.1)) <$> l = take j order →
    order !! j = Some id → events !! id = Some event →
    handle_loop self event (take k (matching (registry self) event)) [] [] [] w1 = (Ok (sub, fail, names), w') →
    matching (registry self) event !! k = Some reg → failing self event reg w' = Some (error, w2) →
    dq_record (mkDeadTriggerRecord event (rt_name reg) error) (w_dead_triggers w2) = (res, q) →
    queue_moment self w (take (S j) order) (concat ((λ er, failed er.2) <$> l) ++ fail)
      (Some (mkDeadTriggerRecord event (rt_name reg) error, res)) q.

(** A trigger that fails is counted and recorded, from where [failing] says. *)
Lemma failing_handle_one self event reg w error w2 :
  failing self event reg w = Some (error, w2) →
  handle_one self event reg w = (r ← fail_trigger event (rt_name reg) error; mret (inr (dt_error r))) w2 ∧
  w_dead_triggers w2 = w_dead_triggers w.
Proof.
  unfold failing, handle_one, mbind, M_bind, emit, modify. simpl. set (w1 := mkWorld _ _ _ _ _).
  destruct (rt_binding reg event) as [job|e]; [|by intros [= <- <-]]. unfold catch.
  pose proof (enqueue_with_retries_frame self job (submission_key event (rt_name reg)) w1) as [Hq _].
  destruct (enqueue_with_retries _ _ _ w1) as [[id|e] w3]; [done|]. intros [= <- <-]. done.
Qed.

(** The records of a moment, and whose they are. *)
Lemma retry_moment_records self w reached renewed w' :
  retry_moment self w reached renewed w' →
  records (w_dead_triggers w') = renewed ∧ (∀ r, r ∈ renewed → record_id r ∈ reached) ∧
  reached `prefix_of` (group_by_event (records (w_dead_triggers w)) [] ∅ ∅).1.1.
Proof.
  assert (∀ rs w0, on_dead_triggers (E := io_error) dq_drain w = (Ok rs, w0) →
    rs = records (w_dead_triggers w) ∧ records (w_dead_triggers w0) = []) as Hdrain.
  { intros rs w0 Hd. pose proof (retry_run self w) as Hr. rewrite Hd in Hr. by destruct Hr as (-> & -> & _). }
  assert (∀ l w0 w1, records (w_dead_triggers w0) = [] → handled self l w0 w1 →
    records (w_dead_triggers w1) = concat ((λ er, failed er.2) <$> l) ∧
    ∀ r, r ∈ concat ((λ er, failed er.2) <$> l) → record_id r ∈ (λ er, EventId_to_string (ev_id er.1)) <$> l) as Hhandled.
  { intros l w0 w1 He Hl. destruct (handled_records _ _ _ _ Hl) as [Hr Hf]. rewrite He in Hr. split; [done|].
    rewrite Forall_forall in Hf. intros r Hin. destruct (Hf r Hin) as (er & Her & Hev).
    apply list_elem_of_fmap. exists er. split; [|done]. unfold record_id. by rewrite Hev. }
  intros [rs w0 order events fl j rep w1 l Hd Hg Hrl Hl Hids|
          rs w0 order events fl j rep w1 l id event k sub fail names w2 Hd Hg Hrl Hl Hids Hj Hev Hh];
    destruct (Hdrain _ _ Hd) as [-> He]; destruct (Hhandled _ _ _ He Hl) as [Hr Hin]; rewrite Hg; simpl.
  - split; [done|]. split; [intros r Hr'; rewrite <-Hids; by apply Hin|]. exists (drop j order). by rewrite take_drop.
  - pose proof (handle_loop_run self event (take k (matching (registry self) event)) [] [] [] w1) as Hrun.
    rewrite Hh in Hrun. destruct Hrun as (os & _ & [Hp _ _ _] & _ & -> & _). simpl. rewrite (take_S_r _ _ _ Hj).
    split; [by rewrite Hp, Hr|]. split.
    + intros r [Hr'|Hr']%elem_of_app; apply elem_of_app; [left; rewrite <-Hids; by apply Hin|right].
      apply list_elem_of_omap in Hr' as ([reg [s|error]] & _ & Ho); [done|]. injection Ho as <-.
      apply list_elem_of_singleton. unfold record_id. simpl.
      pose proof (group_by_event_spec _ [] _ _ _ _ _ _ grouped_nil Hg) as Hgr.
      destruct (grouped_lookup _ _ _ _ id Hgr) as (e & He' & <-); [by eapply list_elem_of_lookup_2|]. congruence.
    + exists (drop (S j) order). by rewrite <-(take_S_r _ _ _ Hj), take_drop.
Qed.

(** A record that is being written is of an event the pass has reached, and comes
    after a moment at which none was. *)
Lemma queue_moment_pending self w reached renewed r res q :
  queue_moment self w reached renewed (Some (r, res)) q →
  record_id r ∈ reached ∧ ∃ w', retry_moment self w reached renewed w' ∧ dq_record r (w_dead_triggers w') = (res, q).
Proof.
  inversion 1 as [|rs w0 order events fl j rep w1 l id event k sub fail names w' reg error w2 res' q' Hd Hg Hrl Hl Hids Hj Hev
    Hh Hreg Hfail Hrec]; subst. split.
  - rewrite (take_S_r _ _ _ Hj). apply elem_of_app. right. apply list_elem_of_singleton.
    pose proof (group_by_event_spec _ [] _ _ _ _ _ _ grouped_nil Hg) as Hgr.
    destruct (grouped_lookup _ _ _ _ id Hgr) as (e & He' & <-); [by eapply list_elem_of_lookup_2|].
    unfold record_id. simpl. congruence.
  - exists w'. split; [by eapply in_an_event|]. destruct (failing_handle_one _ _ _ _ _ _ Hfail) as [_ Hq]. by rewrite <-Hq.
Qed.

Section queue_invariant.
Context (good : Q → Prop).
Hypothesis record_good : ∀ r q q', dq_record r q = (Ok tt, q') → good q → good q'.

Lemma retry_moment_good self w reached renewed w' :
  (∀ l q q', dq_drain q = (Ok l, q') → good q → good q') →
  retry_moment self w reached renewed w' → good (w_dead_triggers w) → good (w_dead_triggers w').
Proof.
  intros Hdrain.
  assert (∀ rs w0, on_dead_triggers (E := io_error) dq_drain w = (Ok rs, w0) → good (w_dead_triggers w) → good (w_dead_triggers w0)) as Hd0.
  { unfold on_dead_triggers, zoom. intros rs w0. destruct (dq_drain (w_dead_triggers w)) as [[l|x] q] eqn:Hq; [|done].
    intros [= _ <-]. simpl. by eapply Hdrain. }
  intros [] Hg.
  - eapply handled_good; [done..|]. by eapply Hd0.
  - eapply handle_loop_good; [done..|]. eapply handled_good; [done..|]. by eapply Hd0.
Qed.
End queue_invariant.
End moments.

(** ** The durable queue *)

Section durable.
Context `{UuidText} `{Worklane} {B K : Type} `{!Broker B} `{!TraceSink K} `{JsonCodec DeadTriggerRecord}.
Implicit Types w : World B (FileDeadTriggerQueue * FS) K.

Lemma drain_path (s : JsonlStore DeadTriggerRecord * FS) l s' : jsonl_drain s = (Ok l, s') → js_path s'.1 = js_path s.1.
Proof.
  unfold jsonl_drain. intros Hd. unfold gets in Hd. apply bind_ok_inv in Hd as (f & ? & [= <- <-] & Hd).
  apply bind_ok_inv in Hd as ([] & ? & Hw & Hd). apply on_fs_ok_inv in Hw as (fs1 & Hw & ->).
  apply bind_ok_inv in Hd as ([] & ? & Hsy & Hd). apply on_fs_ok_inv in Hsy as (fs2 & Hsy & ->).
  unfold set_records, modify, mbind, M_bind, mret, M_ret in Hd. by simplify_eq/=.
Qed.

(** The queue at [path], in order. *)
Definition queue_at (path : string) (q : FileDeadTriggerQueue * FS) : Prop :=
  queue_ok q ∧ js_path (fdq_inner q.1) = path.

Lemma record_queue_at path r q q' : dq_record r q = (Ok tt, q') → queue_at path q → queue_at path q'.
Proof.
  intros Hq [Hok Hp]. simpl in Hq. unfold fdq_record, on_queue, zoom in Hq.
  destruct (jsonl_append r (fdq_inner q.1, q.2)) as [[[]|x] [t fs]] eqn:Ht; simplify_eq/=.
  destruct (append_store_ok _ _ _ Hok Ht) as [Hok' _]. split; [done|].
  by destruct (append_ok_inv _ _ _ Ht) as (b & fs1 & fs2 & _ & _ & _ & [= -> _]).
Qed.

Lemma drain_queue_at path l q q' : dq_drain q = (Ok l, q') → queue_at path q → queue_at path q'.
Proof.
  intros Hq [Hok Hp]. simpl in Hq. unfold fdq_drain, on_queue, zoom in Hq.
  destruct (jsonl_drain (fdq_inner q.1, q.2)) as [[l'|x] [t fs]] eqn:Ht; simplify_eq/=.
  destruct (drain_store_ok _ _ _ Hok Ht) as [Hok' _]. split; [done|]. by apply (drain_path _ _ _ Ht).
Qed.

(** A moment of the pass on a queue in order. *)
Lemma moment_queue_at self w reached renewed w' :
  queue_ok (w_dead_triggers w) → retry_moment self w reached renewed w' →
  queue_at (js_path (fdq_inner (w_dead_triggers w).1)) (w_dead_triggers w').
Proof.
  intros Hok Hm. eapply (retry_moment_good (queue_at _) (record_queue_at _) self); [|exact Hm|by split].
  apply drain_queue_at.
Qed.

(** The queue after a crash at a moment: what was recorded again, perhaps with the
    record that was being written, or a file torn inside a character of that one. *)
Lemma moment_reopens self w reached renewed pending q fs :
  queue_ok (w_dead_triggers w) → queue_moment self w reached renewed pending q → crash q.2 fs → no_faults fs →
  let path := js_path (fdq_inner (w_dead_triggers w).1) in
  (∃ st, fdq_open path fs = (Ok st, fs) ∧
    (fdq_records (st, fs) = renewed ∧ (∀ r, pending ≠ Some (r, Ok tt)) ∨
     ∃ r res, pending = Some (r, res) ∧ fdq_records (st, fs) = renewed ++ [r])) ∨
  ∃ r e msg, pending = Some (r, Err e) ∧ ¬ ascii_encoded r ∧ fdq_open path fs = (Err (mkIoError InvalidData msg), fs).
Proof.
  intros Hok Hm Hcr Hnf path. destruct pending as [[r res]|].
  - destruct (queue_moment_pending _ _ _ _ _ _ _ Hm) as (_ & w' & Hm' & Hrec).
    destruct (retry_moment_records _ _ _ _ _ Hm') as (Hrs & _).
    destruct (moment_queue_at _ _ _ _ _ Hok Hm') as [Hok' Hp]. fold path in Hp.
    simpl in Hrec. unfold fdq_record, on_queue, zoom in Hrec.
    destruct (jsonl_append r (fdq_inner (w_dead_triggers w').1, (w_dead_triggers w').2)) as [res' [t fst]] eqn:Ha.
    injection Hrec as -> <-. simpl in Hcr. change (js_records (fdq_inner (w_dead_triggers w').1) = renewed) in Hrs.
    destruct (append_cut_short _ _ _ _ _ Hok' Ha Hcr Hnf) as [(st & Ho & Hor & Hack)|(Hne & Hasc & b & p & msg & _ & _ & _ & Ho)];
      simpl in Ho; rewrite Hp in Ho.
    + left. exists (mkFileDeadTriggerQueue st). split; [unfold fdq_open, mbind, M_bind; by rewrite Ho|].
      unfold fdq_records. simpl in *. rewrite Hrs in Hor, Hack. destruct res as [[]|e].
      * right. exists r, (Ok tt). split; [done|by apply Hack].
      * destruct Hor as [Hor|Hor]; [left; by split|right; by exists r, (Err e)].
    + right. destruct res as [[]|e]; [done|]. exists r, e, msg. split_and!; [done..|].
      unfold fdq_open, mbind, M_bind. by rewrite Ho.
  - inversion Hm as [? ? w' Hm'|]; subst. left. destruct (moment_queue_at _ _ _ _ _ Hok Hm') as [Hok' Hp]. fold path in Hp.
    destruct (fdq_restart _ _ Hok' Hcr Hnf) as [Ho _]. rewrite Hp in Ho. exists (w_dead_triggers w').1. split; [done|].
    left. split; [|done]. exact (proj1 (retry_moment_records _ _ _ _ _ Hm')).
Qed.

(** C23: a crash during a retry pass, at any moment after its drain, also while a
    record is being written: the durable queue reopens with the failures that were
    recorded again, and perhaps the one being written (surely, if [dq_record] had
    reported success); or, when that one was not acknowledged and its text is not
    ASCII, its line can be torn inside a character, and the queue does not open. What
    it holds is all of the events the pass had reached. Of the events it had not
    reached it holds nothing any more: their drained records are lost, and no later
    pass retries them. *)
Theorem interrupted_retry self w reached renewed pending q fs :
  queue_ok (w_dead_triggers w) → queue_moment self w reached renewed pending q → crash q.2 fs → no_faults fs →
  let path := js_path (fdq_inner (w_dead_triggers w).1) in
  (∃ st, fdq_open path fs = (Ok st, fs) ∧
    (fdq_records (st, fs) = renewed ∧ (∀ r, pending ≠ Some (r, Ok tt)) ∨
     ∃ r res, pending = Some (r, res) ∧ fdq_records (st, fs) = renewed ++ [r]) ∧
    (∀ r, r ∈ fdq_records (st, fs) → record_id r ∈ reached) ∧
    (∀ r, r ∈ records (w_dead_triggers w) → record_id r ∉ reached →
       ∀ r', r' ∈ fdq_records (st, fs) → record_id r' ≠ record_id r)) ∨
  ∃ r e msg, pending = Some (r, Err e) ∧ ¬ ascii_encoded r ∧ fdq_open path fs = (Err (mkIoError InvalidData msg), fs).
Proof.
  intros Hok Hm Hcr Hnf path. destruct (moment_reopens _ _ _ _ _ _ _ Hok Hm Hcr Hnf) as [(st & Ho & Hrs)|Hbad]; [left|by right].
  exists st. split; [done|]. split; [exact Hrs|].
  assert (∀ r, r ∈ fdq_records (st, fs) → record_id r ∈ reached) as Hin.
  { destruct pending as [[r res]|].
    - destruct (queue_moment_pending _ _ _ _ _ _ _ Hm) as (Hr & w' & Hm' & _).
      destruct (retry_moment_records _ _ _ _ _ Hm') as (_ & Hin & _).
      destruct Hrs as [[-> _]|(r1 & res1 & [= <- <-] & ->)]; [done|].
      intros r' [Hr'|Hr']%elem_of_app; [by apply Hin|]. by apply list_elem_of_singleton in Hr' as ->.
    - inversion Hm as [? ? w' Hm'|]; subst. destruct (retry_moment_records _ _ _ _ _ Hm') as (_ & Hin & _).
      by destruct Hrs as [[-> _]|(? & ? & ? & _)]. }
  split; [done|]. intros r Hr Hno r' Hr' Heq. apply Hno. rewrite <-Heq. by apply Hin.
Qed.
End durable.

(** ** A sample crash *)

(** Two failed events in the durable queue, and a broker that is still down. *)
Definition queue0 : FileDeadTriggerQueue * FS :=
  match fdq_open sample_path fs_empty with
  | (Ok q, fs) => (q, fs)
  | (Err _, fs) => (mkFileDeadTriggerQueue (mkJsonlStore sample_path [] 0), fs)
  end.
Definition queue1 : FileDeadTriggerQueue * FS := (fdq_record dead1 queue0).2.
Definition queue2 : FileDeadTriggerQueue * FS := (fdq_record dead2 queue1).2.

Lemma queue2_ok : queue_ok queue2.
Proof.
  assert (queue_ok queue0) as H0.
  { destruct (jsonl_open (T := DeadTriggerRecord) sample_path fs_empty) as [[st|e] fs] eqn:Ho.
    - destruct (open_new (T := DeadTriggerRecord) sample_path fs_empty st fs) as (_ & _ & Hok);
        [by apply (bool_decide_unpack _); vm_compute|apply fs_empty_wf|done|done|].
      unfold queue0, fdq_open, mbind, M_bind. by rewrite Ho.
    - by vm_compute in Ho. }
  assert (∀ r q, fdq_record r q = (Ok tt, (fdq_record r q).2) → queue_ok q → queue_ok (fdq_record r q).2) as Hrec.
  { intros r q Hq Hok. by apply (record_queue_at (js_path (fdq_inner q.1)) r q _ Hq). }
  apply Hrec; [apply (run_ok (fdq_record dead2) queue1 (Ok tt)); by vm_compute|].
  apply Hrec; [apply (run_ok (fdq_record dead1) queue0 (Ok tt)); by vm_compute|done].
Qed.

Abbreviation RetryWorld := (World SampleBroker (FileDeadTriggerQueue * FS) InMemoryTraceSink).

(** The drain takes two calls; of the record written then three bytes reach the
    file. *)
Definition queue2_full : FileDeadTriggerQueue * FS :=
  (queue2.1, set_faults [None; None; Some (mkFault (mkIoError (OsError 28) "No space left on device") 3)] queue2.2).

Lemma queue2_full_ok : queue_ok queue2_full.
Proof.
  destruct queue2_ok as (Hp & bs & Hbs & Hs). split; [done|]. exists bs. split; [done|]. by apply safe_ignores_faults.
Qed.

Definition retry0 : RetryWorld := mkWorld broker_down queue2_full (mkInMemoryTraceSink []) ∅ [].
(** The queue is drained, then the first event is handled and fails again. *)
Definition retry1 : RetryWorld := (on_dead_triggers (E := io_error) dq_drain retry0).2.
Definition retry1_failing : option (string * RetryWorld) := failing quiet_runtime event1 issue_trigger retry1.
Definition retry2 : RetryWorld := default retry1 (snd <$> retry1_failing).
Definition retry3 : FileDeadTriggerQueue * FS := (dq_record dead1 (w_dead_triggers retry2)).2.

Definition retry_groups := group_by_event [dead1; dead2] [] ∅ ∅.
Definition full_disk : io_error := mkIoError (OsError 28) "No space left on device".

Lemma retry3_moment : queue_moment quiet_runtime retry0 [record_id dead1] [] (Some (dead1, Err full_disk)) retry3.
Proof.
  refine (recording quiet_runtime retry0 [dead1; dead2] retry1 retry_groups.1.1 retry_groups.1.2 retry_groups.2 0
    (mkDeadTriggerRetryReport 2 0 0 0 []) retry1 [] (record_id dead1) event1 0 [] [] [] retry1 issue_trigger
    (dt_error dead1) retry2 (Err full_disk) retry3 _ _ _ _ _ _ _ _ _ _ _).
  - unfold retry1. apply (run_ok (on_dead_triggers dq_drain) retry0). vm_compute. reflexivity.
  - by rewrite <-!surjective_pairing.
  - reflexivity.
  - constructor.
  - reflexivity.
  - vm_compute. reflexivity.
  - vm_compute. reflexivity.
  - reflexivity.
  - vm_compute. reflexivity.
  - unfold retry2, retry1_failing. destruct (failing quiet_runtime event1 issue_trigger retry1) as [[x w]|] eqn:Hf.
    + assert (fst <$> failing quiet_runtime event1 issue_trigger retry1 = Some (dt_error dead1)) as Hx by (vm_compute; reflexivity).
      rewrite Hf in Hx. by injection Hx as ->.
    + assert (is_Some (failing quiet_runtime event1 issue_trigger retry1)) as [? Hx]
        by (apply (bool_decide_unpack _); vm_compute; exact I). by rewrite Hf in Hx.
  - unfold retry3. apply (run_ok (dq_record dead1) (w_dead_triggers retry2)). vm_compute. reflexivity.
Qed.

Definition retry3_pending : option (DeadTriggerRecord * result io_error unit) := Some (dead1, Err full_disk).

Lemma interrupted_retry_witness :
  let path := js_path (fdq_inner queue2.1) in let fs := power_loss retry3.2 in
  (∃ st, fdq_open path fs = (Ok st, fs) ∧
    (fdq_records (st, fs) = [] ∧ (∀ r, retry3_pending ≠ Some (r, Ok tt)) ∨
     ∃ r res, retry3_pending = Some (r, res) ∧ fdq_records (st, fs) = [] ++ [r]) ∧
    (∀ r, r ∈ fdq_records (st, fs) → record_id r ∈ [record_id dead1]) ∧
    (∀ r, r ∈ records queue2_full → record_id r ∉ [record_id dead1] →
       ∀ r', r' ∈ fdq_records (st, fs) → record_id r' ≠ record_id r)) ∨
  ∃ r e msg, retry3_pending = Some (r, Err e) ∧ ¬ ascii_encoded r ∧
    fdq_open path fs = (Err (mkIoError InvalidData msg), fs).
Proof.
  apply (interrupted_retry quiet_runtime retry0 [record_id dead1] [] retry3_pending retry3).
  - exact queue2_full_ok.
  - exact retry3_moment.
  - apply crash_power_loss.
  - reflexivity.
Defined.

(** Both records were in the queue; now neither is. *)
Example retry_crash_forgets : records queue2 = [dead1; dead2] ∧ records retry3 = [].
Proof. split; vm_compute; reflexivity. Qed.
