(* ===== verification/Http.v ===== *)
(** * The HTTP surface: [crates/triggerlane-http/src/lib.rs]

    Probes, webhook verification, the write endpoint with its two handlers, the
    guarded read and replay endpoints, and the mapping of errors to statuses.
    The crates [http], [hex], [hmac] and [tokio::sync::mpsc] are parameters
    ([HeaderMaps], [Hex], [Hmac], [Mpsc]); so is the generated deserializer of
    [Source] ([SourceJson]). Which endpoint a path reaches, and the extraction
    of path, query and body, are axum's: a request is modelled after them. Log
    lines are not modelled. *)

From stdpp Require Import base gmap strings list.
From Stdlib Require Import ZArith Lia.
From S2P Require Import Prelude RustStd Event Trigger Retention Store Runtime Ingest.
Local Open Scope Z_scope.

(** ** What the crate relies on *)

(** [http::HeaderMap]: [get] gives the first value under a name, [to_str] its
    text when it is visible ASCII. *)
Class HeaderMaps := {
  HeaderMap : Type;
  HeaderValue : Type;
  header_get : string → HeaderMap → option HeaderValue;
  header_to_str : HeaderValue → option string;
}.

(** [hex::decode], with [hex::encode] to state what it inverts. *)
Class Hex := {
  hex_decode : string → option bytes;
  hex_encode : bytes → string;
  hex_decode_encode b : hex_decode (hex_encode b) = Some b;
  hex_encode_bare b : strip_prefix "sha256=" (hex_encode b) = None;
}.

(** [Hmac<Sha256>]: a key may be refused; [verify_slice] accepts exactly the
    tag that [finalize] would give. *)
Class Hmac := {
  Mac : Type;
  new_from_slice : bytes → option Mac;
  mac_update : bytes → Mac → Mac;
  mac_finalize : Mac → bytes;
  verify_slice : bytes → Mac → bool;
  verify_slice_spec tag m : verify_slice tag m = true ↔ tag = mac_finalize m;
}.

(** [mpsc::Sender::send], which waits for room: it fails only when the receiver
    is gone. *)
Class Mpsc (C : Type) := {
  sent : C → list EventEnvelope;
  send : EventEnvelope → M C unit unit;
  send_ok e c c' : send e c = (Ok tt, c') → sent c' = sent c ++ [e];
  send_err e c x c' : send e c = (Err x, c') → sent c' = sent c;
}.

(** [serde_json::from_value::<Source>] on a string: the derived deserializer
    reads a variant's name. *)
Class SourceJson := {
  source_from_value : string → result string Source;
  source_from_value_ok raw s : source_from_value raw = Ok s ↔ raw = Source_debug s;
}.

(** ** Constants *)

Definition EVENTS_PATH : string := "/events".
Definition DEAD_TRIGGERS_PATH : string := "/dead-triggers".
Definition HEALTHZ_PATH : string := "/healthz".
Definition READYZ_PATH : string := "/readyz".
Definition METRICS_PATH : string := "/metrics".
Definition GITHUB_SIGNATURE_HEADER : string := "x-hub-signature-256".
Definition AUTHORIZATION : string := "authorization".
Definition MAX_EVENT_BODY_BYTES : Z := 2 * 1024 * 1024.
Definition DEFAULT_EVENT_LIST_LIMIT : Z := 1000.

(** ** Responses *)

Inductive StatusCode :=
| STATUS_OK | ACCEPTED | BAD_REQUEST | UNAUTHORIZED | NOT_FOUND | PAYLOAD_TOO_LARGE
| REQUEST_TIMEOUT | INTERNAL_SERVER_ERROR | SERVICE_UNAVAILABLE.

#[export] Instance StatusCode_eq_dec : EqDecision StatusCode.
Proof. solve_decision. Defined.

Record EventResponse := mkEventResponse {
  resp_event_id : string;
  resp_submitted : list string;
  resp_failure_count : Z;
  resp_accepted : bool;
}.

Record ReplayRangeResponse := mkReplayRangeResponse {
  matched : Z;
  resp_dry_run : bool;
}.

(** The bodies, before they are rendered as JSON or text. *)
Inductive Body :=
| EmptyBody
| TextBody (content_type text : string)
| EventBody (event : EventEnvelope)
| EventsBody (events : list EventEnvelope)
| DeadTriggersBody (records : list DeadTriggerRecord)
| EventResponseBody (response : EventResponse)
| ReplayRangeBody (response : ReplayRangeResponse)
| ErrorBody (error : string).

Record Response := mkResponse {
  status : StatusCode;
  body : Body;
}.

(** ** Errors *)

Inductive HandlerError := HandlerError_new (message : string).

Definition HandlerError_to_string (e : HandlerError) : string :=
  match e with HandlerError_new message => "event handler failed: " +:+ message end.

Inductive HttpRouteError :=
| Unauthorized
| BadRequest (message : string)
| RouteNotFound (message : string)
| Handler (error : HandlerError).

Definition HttpRouteError_to_string (e : HttpRouteError) : string :=
  match e with
  | Unauthorized => "unauthorized: webhook signature verification failed"
  | BadRequest message => "invalid event json: " +:+ message
  | RouteNotFound message => "not found: " +:+ message
  | Handler error => HandlerError_to_string error
  end.

Definition HttpRouteError_status (e : HttpRouteError) : StatusCode :=
  match e with
  | Unauthorized => UNAUTHORIZED
  | BadRequest _ => BAD_REQUEST
  | RouteNotFound _ => NOT_FOUND
  | Handler _ => INTERNAL_SERVER_ERROR
  end.

Definition into_response (self : HttpRouteError) : Response :=
  mkResponse (HttpRouteError_status self) (ErrorBody (HttpRouteError_to_string self)).

(** The response of a route that returns a [Result]. *)
Definition respond {St A} (render : A → Response) (m : M St HttpRouteError A) : St → Response * St :=
  λ s, match m s with
       | (Ok a, s') => (render a, s')
       | (Err e, s') => (into_response e, s')
       end.

(** ** Probes and metrics *)

Record Readiness := mkReadiness { is_ready : bool }.
Definition Readiness_ready : Readiness := mkReadiness true.
Definition set_ready (ready : bool) (self : Readiness) : Readiness := mkReadiness ready.

Definition healthz_route : StatusCode := STATUS_OK.
Definition readyz_route (readiness : Readiness) : StatusCode :=
  if is_ready readiness then STATUS_OK else SERVICE_UNAVAILABLE.

Definition metrics_route (render : unit → string) : Response :=
  mkResponse STATUS_OK (TextBody "text/plain; version=0.0.4" (render tt)).

(** ** Routing tables *)

Inductive Method := GET | POST.
#[export] Instance Method_eq_dec : EqDecision Method.
Proof. solve_decision. Defined.

Inductive Endpoint :=
| Healthz | Readyz | Metrics | PostEvents
| ListEvents | ReplayRangeOf | GetEvent | ReplayById | ListDeadTriggers.

Definition health_router : list (Method * string * Endpoint) :=
  [(GET, HEALTHZ_PATH, Healthz); (GET, READYZ_PATH, Readyz)].
Definition metrics_router : list (Method * string * Endpoint) := [(GET, METRICS_PATH, Metrics)].
Definition events_routes : list (Method * string * Endpoint) := [(POST, EVENTS_PATH, PostEvents)].
Definition read_routes : list (Method * string * Endpoint) :=
  [(GET, EVENTS_PATH, ListEvents); (POST, EVENTS_PATH +:+ "/replay", ReplayRangeOf);
   (GET, EVENTS_PATH +:+ "/{id}", GetEvent); (POST, EVENTS_PATH +:+ "/{id}/replay", ReplayById);
   (GET, DEAD_TRIGGERS_PATH, ListDeadTriggers)].

(** ** Webhook verification *)

Section verifier.
Context `{HeaderMaps} `{Hex} `{Hmac}.

Record WebhookVerifier := mkWebhookVerifier {
  wv_secret : bytes;
  wv_header : string;
}.

Definition WebhookVerifier_github (secret : bytes) : WebhookVerifier :=
  mkWebhookVerifier secret GITHUB_SIGNATURE_HEADER.

Definition verify (self : WebhookVerifier) (headers : HeaderMap) (body : bytes) : bool :=
  match header_get (wv_header self) headers ≫= header_to_str with
  | None => false
  | Some value =>
    let hex_signature := default value (strip_prefix "sha256=" value) in
    match hex_decode hex_signature with
    | None => false
    | Some expected =>
      match new_from_slice (wv_secret self) with
      | None => false
      | Some mac => verify_slice expected (mac_update body mac)
      end
    end
  end.
End verifier.

(** ** Bearer-token authentication *)

(** Constant-time byte equality. *)
Definition constant_time_eq (a b : bytes) : bool :=
  if negb (Nat.eqb (length a) (length b)) then false
  else foldl (λ acc '(x, y), Z.lor acc (Z.lxor (u8 x) (u8 y))) 0 (zip a b) =? 0.

Record ReadAuth := mkReadAuth { ra_token : bytes }.

Definition authorized `{HeaderMaps} (self : ReadAuth) (headers : HeaderMap) : bool :=
  match (header_get AUTHORIZATION headers ≫= header_to_str) ≫= strip_prefix "Bearer " with
  | None => false
  | Some presented => constant_time_eq (as_bytes presented) (ra_token self)
  end.

Definition require_read_auth `{HeaderMaps} {St} (auth : ReadAuth) (headers : HeaderMap)
    (next : St → Response * St) : St → Response * St :=
  if authorized auth headers then next else λ s, (into_response Unauthorized, s).

(** ** Incoming events *)

Record IncomingEvent := mkIncomingEvent {
  in_event_type : string;
  in_payload : bytes;
  in_metadata : EventMetadata;
}.

Definition post_events (fresh : EventId) (now : DateTime) (input : IncomingEvent) : EventEnvelope :=
  with_metadata (EventEnvelope_new fresh now Http (mkEventType (in_event_type input)) (in_payload input))
    (in_metadata input).

(** ** Handlers *)

Record EventHandlingReport := mkEventHandlingReport {
  ehr_submitted : list string;
  ehr_failure_count : Z;
  ehr_accepted : bool;
}.

Definition EventHandlingReport_new (submitted : list string) (failure_count : Z) : EventHandlingReport :=
  mkEventHandlingReport submitted failure_count false.
Definition EventHandlingReport_accepted : EventHandlingReport := mkEventHandlingReport [] 0 true.

(** [trait EventHandler], a handler [H] over the state [St]. *)
Class EventHandler (H St : Type) :=
  handle_event : H → EventEnvelope → M St HandlerError EventHandlingReport.

Definition to_handler_error (error : RuntimeError) : HandlerError :=
  HandlerError_new (RuntimeError_to_string error).

Record IngestEventHandler := mkIngestEventHandler { ih_runtime : TriggerRuntime }.
Record AcceptEventHandler := mkAcceptEventHandler { ah_runtime : TriggerRuntime }.

Section handlers.
Context `{UuidText} `{Worklane} {S B Q K C : Type}.
Context `{!EventStore S} `{!Broker B} `{!DeadTriggerQueue Q} `{!TraceSink K} `{!Mpsc C}.
Local Abbreviation I := (S * World B Q K)%type.

#[export] Instance IngestEventHandler_EventHandler : EventHandler IngestEventHandler I := λ self event,
  report ← mapM_err to_handler_error (ingest (ih_runtime self) event);
  mret (EventHandlingReport_new (submitted (ir_handle report)) (len (failed (ir_handle report)))).

(** The accepting handler also has the channel to the dispatcher. *)
Definition on_ingest {E A} (m : M I E A) : M (C * I) E A := zoom snd (λ i c, (c.1, i)) m.
Definition on_channel {E A} (m : M C E A) : M (C * I) E A := zoom fst (λ c' c, (c', c.2)) m.

#[export] Instance AcceptEventHandler_EventHandler : EventHandler AcceptEventHandler (C * I) := λ self event,
  report ← mapM_err to_handler_error (on_ingest (accept event));
  if ar_deduplicated report then mret EventHandlingReport_accepted
  else
    sending ← catch (on_channel (send event));
    match sending with
    | Err _ => throw (HandlerError_new "dispatch channel closed")
    | Ok _ => mret EventHandlingReport_accepted
    end.
End handlers.

(** ** The write endpoint *)

Section write.
Context `{UuidText} `{HeaderMaps} `{Hex} `{Hmac} `{Deserialize IncomingEvent} {Hd St : Type} `{!EventHandler Hd St}.

Record AppState := mkAppState {
  app_handler : Hd;
  app_verifier : option WebhookVerifier;
}.

Definition post_events_route (fresh : EventId) (now : DateTime) (state : AppState) (headers : HeaderMap)
    (body : bytes) : M St HttpRouteError (StatusCode * EventResponse) :=
  if match app_verifier state with Some verifier => negb (verify verifier headers body) | None => false end
  then throw Unauthorized
  else
    input ← lift (map_err BadRequest (from_str body));
    let event := post_events fresh now input in
    let event_id := EventId_to_string (ev_id event) in
    report ← mapM_err Handler (handle_event (app_handler state) event);
    let status := if ehr_accepted report then ACCEPTED else STATUS_OK in
    mret (status, mkEventResponse event_id (ehr_submitted report) (ehr_failure_count report) (ehr_accepted report)).

(** The router with its body limit: axum refuses a larger body before the route
    runs. *)
Definition build_router (state : AppState) (fresh : EventId) (now : DateTime) (headers : HeaderMap)
    (body : bytes) : St → Response * St :=
  if len body >? MAX_EVENT_BODY_BYTES
  then λ s, (mkResponse PAYLOAD_TOO_LARGE (TextBody "text/plain; charset=utf-8" "length limit exceeded"), s)
  else respond (λ '(status, response), mkResponse status (EventResponseBody response))
         (post_events_route fresh now state headers body).

Definition router (handler : Hd) := build_router (mkAppState handler None).
Definition router_with_verifier (handler : Hd) (verifier : WebhookVerifier) :=
  build_router (mkAppState handler (Some verifier)).
End write.
Arguments AppState : clear implicits.

(** ** The read and replay endpoints *)

Record ReplayRangeQuery := mkReplayRangeQuery {
  q_start : DateTime;
  q_end : DateTime;
  q_event_type : option string;
  q_source : option string;
  q_dry_run : bool;
}.

Record ListEventsQuery := mkListEventsQuery {
  q_limit : option Z;
  q_offset : option Z;
}.

Definition parse_source `{SourceJson} (raw : string) : result HttpRouteError Source :=
  map_err (λ _, BadRequest ("unknown source " +:+ debug_str raw)) (source_from_value raw).

Definition replay_filter `{SourceJson} (event_type : option string) (source : option string)
    : result HttpRouteError ReplayFilter :=
  source ← match source with
           | Some raw => Some <$> parse_source raw
           | None => mret None
           end;
  mret (mkReplayFilter event_type source).

Definition parse_event_id `{UuidText} (raw : string) : result HttpRouteError EventId :=
  map_err (λ error, BadRequest ("invalid event id: " +:+ error)) (EventId_from_str raw).

Definition replay_to_http (error : ReplayError) : HttpRouteError :=
  match error with
  | EventNotFound message => RouteNotFound message
  | other => Handler (HandlerError_new (ReplayError_to_string other))
  end.

Section read.
Context `{UuidText} `{Worklane} `{HeaderMaps} `{SourceJson} {S B Q K : Type}.
Context `{!EventStore S} `{!Broker B} `{!DeadTriggerQueue Q} `{!TraceSink K}.
Local Abbreviation I := (S * World B Q K)%type.

Definition list_events_route {E} (page : ListEventsQuery) : M I E (list EventEnvelope) :=
  let offset := default 0 (q_offset page) in
  let limit := default DEFAULT_EVENT_LIST_LIMIT (q_limit page) in
  gets (λ i, take (Z.to_nat limit) (drop (Z.to_nat offset) (es_all i.1))).

Definition get_event_route (raw : string) : M I HttpRouteError EventEnvelope :=
  id ← lift (parse_event_id raw);
  store ← gets fst;
  lift (ok_or (RouteNotFound ("event " +:+ EventId_to_string id +:+ " not found")) (es_get id store)).

Definition replay_by_id_route (runtime : TriggerRuntime) (raw : string) : M I HttpRouteError EventResponse :=
  id ← lift (parse_event_id raw);
  store ← gets fst;
  report ← mapM_err replay_to_http (on_world (replay_by_id runtime store id));
  mret (mkEventResponse (EventId_to_string id) (submitted report) (len (failed report)) false).

Definition replay_range_route (runtime : TriggerRuntime) (range : ReplayRangeQuery)
    : M I HttpRouteError ReplayRangeResponse :=
  flt ← lift (replay_filter (q_event_type range) (q_source range));
  store ← gets fst;
  if q_dry_run range then
    let matched := preview_range store (q_start range) (q_end range) flt in
    mret (mkReplayRangeResponse (len matched) true)
  else
    report ← mapM_err replay_to_http (on_world (replay_range runtime store (q_start range) (q_end range) flt));
    mret (mkReplayRangeResponse (len (rrr_events report)) false).

Definition list_dead_triggers_route {E} : M I E (list DeadTriggerRecord) := gets (λ i, dead_triggers i.2).

(** A request to the read router, after axum's extraction. *)
Inductive ReadRequest :=
| list_events (page : ListEventsQuery)
| get_event (id : string)
| replay_by_id_of (id : string)
| replay_range_of (range : ReplayRangeQuery)
| list_dead_triggers.

Definition read_endpoint (runtime : TriggerRuntime) (request : ReadRequest) : I → Response * I :=
  match request with
  | list_events page => respond (λ l, mkResponse STATUS_OK (EventsBody l)) (list_events_route page)
  | get_event id => respond (λ e, mkResponse STATUS_OK (EventBody e)) (get_event_route id)
  | replay_by_id_of id => respond (λ r, mkResponse STATUS_OK (EventResponseBody r)) (replay_by_id_route runtime id)
  | replay_range_of range => respond (λ r, mkResponse STATUS_OK (ReplayRangeBody r)) (replay_range_route runtime range)
  | list_dead_triggers => respond (λ l, mkResponse STATUS_OK (DeadTriggersBody l)) list_dead_triggers_route
  end.

Definition read_router (runtime : TriggerRuntime) (auth : option ReadAuth) (headers : HeaderMap)
    (request : ReadRequest) : I → Response * I :=
  match auth with
  | Some auth => require_read_auth auth headers (read_endpoint runtime request)
  | None => read_endpoint runtime request
  end.
End read.

(** ** Normalizing other sources *)

Inductive SourceError := UnsupportedGitHubEvent (name : string).

Definition SourceError_to_string (e : SourceError) : string :=
  match e with UnsupportedGitHubEvent name => "unsupported github event: " +:+ name end.

Definition is_opening (action : option string) : bool :=
  match action with
  | Some a => bool_decide (a = "opened") || bool_decide (a = "created")
  | None => false
  end.

Definition github_webhook (fresh : EventId) (now : DateTime) (event_name : string) (action : option string)
    (payload : bytes) : result SourceError EventEnvelope :=
  event_type ←
    (if bool_decide (event_name = "issues") && is_opening action then mret EVENT_GITHUB_ISSUE_CREATED
     else if bool_decide (event_name = "pull_request") && is_opening action then mret EVENT_GITHUB_PR_CREATED
     else Err (UnsupportedGitHubEvent event_name));
  mret (EventEnvelope_new fresh now GitHub (mkEventType event_type) payload).

Definition discord_message_created (fresh : EventId) (now : DateTime) (payload : bytes) : EventEnvelope :=
  EventEnvelope_new fresh now Discord (mkEventType EVENT_DISCORD_MESSAGE_CREATED) payload.

Definition slack_event (fresh : EventId) (now : DateTime) (payload : bytes) (event_type : string) : EventEnvelope :=
  EventEnvelope_new fresh now Slack (mkEventType event_type) payload.
