(* ===== verification/HttpSpec.v ===== *)
(** * What the HTTP surface guarantees

    Signatures and bearer tokens are checked exactly; nothing reaches the
    pipeline unless they are; what a response of the write endpoint says about
    the log, in the synchronous and the asynchronous mode; paging; what the
    replay endpoints do and preview. *)

From stdpp Require Import base gmap strings list.
From Stdlib Require Import ZArith Lia.
From S2P Require Import Prelude RustStd Event Trigger Retention Store Runtime Submission Handling Replay.
From S2P Require Import Ingest Delivery Http.
Local Open Scope Z_scope.

(** ** Comparing in constant time *)

Lemma lor_eq_0 a b : Z.lor a b = 0 ↔ a = 0 ∧ b = 0.
Proof. apply Z.lor_eq_0_iff. Qed.

Lemma fold_xor_eq_0 l acc :
  foldl (λ acc '(x, y), Z.lor acc (Z.lxor (u8 x) (u8 y))) acc l = 0 ↔
  acc = 0 ∧ Forall (λ xy : byte * byte, xy.1 = xy.2) l.
Proof.
  revert acc. induction l as [|[x y] l IH]; intros acc; simpl.
  { split; [intros ->; by split|by intros [-> _]]. }
  rewrite IH, lor_eq_0, Z.lxor_eq_0_iff, Forall_cons. simpl.
  split; [intros [[-> Hu] Hl]|intros [-> [-> Hl]]; done].
  split; [done|]. split; [by apply u8_inj|done].
Qed.

Lemma constant_time_eq_spec a b : constant_time_eq a b = true ↔ a = b.
Proof.
  unfold constant_time_eq. destruct (Nat.eqb_spec (length a) (length b)) as [Hl|Hl]; simpl.
  - rewrite Z.eqb_eq, fold_xor_eq_0. split; [intros [_ Hf]|intros ->].
    + revert b Hl Hf. induction a as [|x a IH]; intros [|y b] Hl Hf; try done.
      simpl in Hf. apply Forall_cons in Hf as [Hx Hf]. simpl in Hx. subst. f_equal. apply IH; [simpl in Hl; lia|done].
    + split; [done|]. clear. induction b as [|y b IH]; simpl; by constructor.
  - split; [done|]. by intros ->.
Qed.

(** ** Signatures *)

Section verifier.
Context `{HeaderMaps} `{Hex} `{Hmac}.

(** The text of the first header under a name. *)
Definition header_text (name : string) (headers : HeaderMap) : option string :=
  header_get name headers ≫= header_to_str.

(** The tag of a body under a secret. *)
Definition tag_of (secret body : bytes) : option bytes :=
  mac_finalize ∘ mac_update body <$> new_from_slice secret.

Lemma verify_spec wv headers body :
  verify wv headers body = true ↔
  ∃ text tag, header_text (wv_header wv) headers = Some text ∧ tag_of (wv_secret wv) body = Some tag ∧
    hex_decode (default text (strip_prefix "sha256=" text)) = Some tag.
Proof.
  unfold verify, header_text, tag_of.
  destruct (header_get (wv_header wv) headers ≫= header_to_str) as [text|];
    [|split; [done|by intros (? & ? & ? & _)]].
  cbv zeta. destruct (hex_decode (default text _)) as [sig|] eqn:Hs.
  - destruct (new_from_slice (wv_secret wv)) as [mac|]; simpl; [|split; [done|by intros (? & ? & _ & ? & _)]].
    rewrite verify_slice_spec. split; [intros ->; eauto 8|].
    intros (t & tag & [= <-] & [= <-] & Hd). simpl in Hd, Hs. rewrite Hs in Hd. by injection Hd.
  - split; [done|]. intros (t & tag & [= <-] & _ & Hd). simpl in Hd, Hs. by rewrite Hs in Hd.
Qed.

Lemma verify_signed wv headers body tag text :
  tag_of (wv_secret wv) body = Some tag → header_text (wv_header wv) headers = Some text →
  text = hex_encode tag ∨ text = "sha256=" +:+ hex_encode tag → verify wv headers body = true.
Proof.
  intros Ht Hh Htext. apply verify_spec. exists text, tag. split; [done|]. split; [done|].
  destruct Htext as [-> | ->].
  - rewrite hex_encode_bare. apply hex_decode_encode.
  - simpl. apply hex_decode_encode.
Qed.
End verifier.

(** ** Bearer tokens *)

Lemma strip_prefix_Some p s t : strip_prefix p s = Some t ↔ s = p +:+ t.
Proof.
  revert s. induction p as [|a p IH]; intros s; simpl.
  { split; [by intros [= ->]|by intros ->]. }
  destruct s as [|b s]; [done|]. destruct (decide (a = b)) as [->|Hne].
  - rewrite IH. split; [by intros ->|by intros [= ->]].
  - split; [done|]. intros [= ? _]. by subst.
Qed.

Lemma authorized_spec `{HeaderMaps} auth headers :
  authorized auth headers = true ↔
  header_text AUTHORIZATION headers = Some ("Bearer " +:+ of_bytes (ra_token auth)).
Proof.
  unfold authorized. fold (header_text AUTHORIZATION headers).
  destruct (header_text AUTHORIZATION headers) as [text|]; [|done].
  change (Some text ≫= strip_prefix "Bearer ") with (strip_prefix "Bearer " text).
  destruct (strip_prefix "Bearer " text) as [presented|] eqn:Hp.
  - apply strip_prefix_Some in Hp as ->. rewrite constant_time_eq_spec. split.
    + intros <-. by rewrite of_as_bytes.
    + intros Heq. injection Heq as Heq. change (presented = of_bytes (ra_token auth)) in Heq.
      by rewrite Heq, as_of_bytes.
  - split; [done|]. intros [= ->].
    by rewrite (proj2 (strip_prefix_Some "Bearer " _ (of_bytes (ra_token auth)))) in Hp.
Qed.

(** ** The write endpoint *)

Section write.
Context `{UuidText} `{Worklane} `{HeaderMaps} `{Hex} `{Hmac} `{Deserialize IncomingEvent}.
Context {S B Q K C : Type} `{!EventStore S} `{!Broker B} `{!DeadTriggerQueue Q} `{!TraceSink K} `{!Mpsc C}.
Context `{Serialize EventEnvelope} `{!EventStoreSpec S}.
Local Abbreviation I := (S * World B Q K)%type.
Implicit Types (i : I) (headers : HeaderMap) (body : bytes).

(** A request the write endpoint lets through: small enough, signed when a
    verifier is configured, and a JSON event. *)
Definition admitted (verifier : option WebhookVerifier) headers body (input : IncomingEvent) : Prop :=
  len body <= MAX_EVENT_BODY_BYTES ∧ from_str body = Ok input ∧
  match verifier with Some wv => verify wv headers body = true | None => True end.

(** What the router answers, by the handler's report. *)
Lemma build_router_run {Hd St} `{!EventHandler Hd St} (state : AppState Hd) fresh now headers body (s : St) :
  (∃ input, admitted (app_verifier state) headers body input ∧
    build_router state fresh now headers body s =
    match handle_event (app_handler state) (post_events fresh now input) s with
    | (Ok report, s') =>
      (mkResponse (if ehr_accepted report then ACCEPTED else STATUS_OK)
         (EventResponseBody (mkEventResponse (EventId_to_string fresh) (ehr_submitted report)
            (ehr_failure_count report) (ehr_accepted report))), s')
    | (Err e, s') => (into_response (Handler e), s')
    end) ∨
  ((∀ input, ¬ admitted (app_verifier state) headers body input) ∧
   ∃ resp, build_router state fresh now headers body s = (resp, s) ∧
     (status resp = PAYLOAD_TOO_LARGE ∨ status resp = UNAUTHORIZED ∨ status resp = BAD_REQUEST)).
Proof.
  unfold build_router, admitted. rewrite Z.gtb_ltb. destruct (Z.ltb_spec MAX_EVENT_BODY_BYTES (len body)) as [Hl|Hl].
  { right. split; [intros input (? & _); lia|]. eexists. split; [done|]. by left. }
  unfold respond, post_events_route.
  destruct (app_verifier state) as [wv|]; [destruct (verify wv headers body) eqn:Hv|]; cbn [negb].
  2: { right. split; [intros input (_ & _ & ?); congruence|]. eexists. split; [done|]. by right; left. }
  all: destruct (from_str body) as [input|e] eqn:Hb; unfold lift, map_err, mbind, M_bind;
    [left; exists input; split; [done|]|right; split; [intros input' (_ & ? & _); congruence|];
       eexists; split; [done|]; by right; right].
  all: unfold mapM_err; destruct (handle_event (app_handler state) _ s) as [[report|x] s']; done.
Qed.

(** C17: what a response of the synchronous write endpoint says. On 200 the
    request was signed (if a verifier is configured) and well-formed, and its
    event is either a known key, with nothing touched, or appended, handled with
    the reported outcome, and marked delivered. On 500 the event is not in the
    log, or in it and undelivered, so that recovery handles it. On 413, 401 and
    400, and only when the request is not admitted, nothing was touched. *)
Theorem sync_post_event runtime verifier fresh now headers body i :
  let '(resp, i') :=
    build_router (mkAppState (mkIngestEventHandler runtime) verifier) fresh now headers body i in
  match status resp with
  | STATUS_OK => ∃ input, admitted verifier headers body input ∧
      let event := post_events fresh now input in
      (i' = i ∧ (∃ e, e ∈ log_events (view i.1) ∧ same_key event e) ∧
       Http.body resp = EventResponseBody (mkEventResponse (EventId_to_string fresh) [] 0 false)) ∨
      (∃ report, handle runtime event i.2 = (Ok report, i'.2) ∧
       view i'.1 = log_mark_delivered fresh (log_append event (view i.1)) ∧
       Http.body resp = EventResponseBody
         (mkEventResponse (EventId_to_string fresh) (submitted report) (len (failed report)) false))
  | INTERNAL_SERVER_ERROR => ∃ input, admitted verifier headers body input ∧
      ((i'.2 = i.2 ∧ view i'.1 = view i.1) ∨
       view i'.1 = log_append (post_events fresh now input) (view i.1))
  | PAYLOAD_TOO_LARGE | UNAUTHORIZED | BAD_REQUEST => (∀ input, ¬ admitted verifier headers body input) ∧ i' = i
  | _ => False
  end.
Proof.
  destruct (build_router_run (mkAppState (mkIngestEventHandler runtime) verifier) fresh now headers body i)
    as [(input & Had & ->)|(Had & resp & -> & [Hs|[Hs|Hs]])]; [|by rewrite Hs..].
  simpl in Had. unfold handle_event, IngestEventHandler_EventHandler, mbind, M_bind, mapM_err at 1. simpl ih_runtime.
  pose proof (ingest_run runtime (post_events fresh now input) i) as Hi.
  destruct (ingest runtime _ i) as [[rep|x] i']; simpl in Hi |- *.
  - exists input. split; [done|]. destruct (ir_deduplicated rep).
    + destruct Hi as (-> & -> & e & Hin & Hk & _). left. eauto.
    + destruct Hi as (_ & _ & Hh & Hv). right. eauto.
  - exists input. split; [done|]. destruct Hi as [(_ & _ & Hw & Hv)|[Hv _]]; eauto.
Qed.

(** The accepting handler, on every branch. *)
Lemma accept_handler_run runtime event (ci : C * I) :
  match handle_event (mkAcceptEventHandler runtime) event ci with
  | (Ok report, ci') => report = EventHandlingReport_accepted ∧
      ((ci' = ci ∧ ∃ e, e ∈ log_events (view ci.2.1) ∧ same_key event e) ∨
       (ci'.2.2 = ci.2.2 ∧ view ci'.2.1 = log_append event (view ci.2.1) ∧ sent ci'.1 = sent ci.1 ++ [event]))
  | (Err _, ci') => ci'.2.2 = ci.2.2 ∧ sent ci'.1 = sent ci.1 ∧
      (view ci'.2.1 = view ci.2.1 ∨ view ci'.2.1 = log_append event (view ci.2.1))
  end.
Proof.
  destruct ci as [c i]. unfold handle_event, AcceptEventHandler_EventHandler, mbind, M_bind, mapM_err at 1.
  unfold on_ingest, zoom at 1. simpl fst. simpl snd. pose proof (accept_run event i) as Ha.
  destruct (accept event i) as [[rep|x] i']; simpl map_err; cbv iota.
  - destruct (ar_deduplicated rep).
    { destruct Ha as [-> He]. simpl. eauto. }
    destruct Ha as (_ & Hw & Hv). unfold catch, on_channel, zoom. simpl.
    destruct (send event c) as [[[]|[]] c'] eqn:Hc; simpl.
    + split; [done|]. right. split; [done|]. split; [done|]. by eapply send_ok.
    + split; [done|]. split; [by eapply send_err|]. by right.
  - destruct Ha as (_ & Hw & Hv). simpl. eauto.
Qed.

(** What is accepted is on disk. *)
Lemma accept_handler_in_order `{!DurableEventStore S} runtime event (ci : C * I) report ci' :
  handle_event (mkAcceptEventHandler runtime) event ci = (Ok report, ci') →
  es_in_order ci.2.1 → es_in_order ci'.2.1.
Proof.
  destruct ci as [c i]. unfold handle_event, AcceptEventHandler_EventHandler, mbind, M_bind, mapM_err at 1.
  unfold on_ingest, zoom at 1. simpl fst. simpl snd.
  destruct (accept event i) as [[rep|x] i'] eqn:Ha; simpl map_err; cbv iota; [|done]. intros Hr Hs.
  apply accept_store_in_order in Ha; [|done].
  destruct (ar_deduplicated rep); [by injection Hr as _ <-|]. unfold catch, on_channel, zoom in Hr. simpl in Hr.
  destruct (send event c) as [[[]|[]] c']; simpl in Hr; [|done]. by injection Hr as _ <-.
Qed.

(** C18: what a response of the asynchronous write endpoint says, on a durable
    store. On 202 the event is a known key, with nothing touched, or appended,
    undelivered and handed to the dispatcher exactly once; and if the files were in
    order before the request they are after it, and whatever reopens them (a new
    process, after a power loss) has the log with that event. On 500 it was not
    handed over; it is in the log or not. In every other case nothing was touched; no
    trigger ever runs. *)
Theorem async_post_event `{!DurableEventStore S} runtime verifier fresh now headers body (ci : C * I) :
  let '(resp, ci') :=
    build_router (mkAppState (mkAcceptEventHandler runtime) verifier) fresh now headers body ci in
  ci'.2.2 = ci.2.2 ∧
  match status resp with
  | ACCEPTED => ∃ input, admitted verifier headers body input ∧
      let event := post_events fresh now input in
      ((ci' = ci ∧ ∃ e, e ∈ log_events (view ci.2.1) ∧ same_key event e) ∨
       (view ci'.2.1 = log_append event (view ci.2.1) ∧ sent ci'.1 = sent ci.1 ++ [event])) ∧
      (es_in_order ci.2.1 →
       es_in_order ci'.2.1 ∧ ∀ s', es_reopens ci'.2.1 s' → view s' = view ci'.2.1)
  | INTERNAL_SERVER_ERROR => ∃ input, admitted verifier headers body input ∧ sent ci'.1 = sent ci.1 ∧
      (view ci'.2.1 = view ci.2.1 ∨ view ci'.2.1 = log_append (post_events fresh now input) (view ci.2.1))
  | PAYLOAD_TOO_LARGE | UNAUTHORIZED | BAD_REQUEST => (∀ input, ¬ admitted verifier headers body input) ∧ ci' = ci
  | _ => False
  end.
Proof.
  destruct (build_router_run (mkAppState (mkAcceptEventHandler runtime) verifier) fresh now headers body ci)
    as [(input & Had & ->)|(Had & resp & -> & [Hs|[Hs|Hs]])]; [|by rewrite Hs..].
  simpl in Had. pose proof (accept_handler_run runtime (post_events fresh now input) ci) as Hr.
  pose proof (accept_handler_in_order runtime (post_events fresh now input) ci) as Hd.
  simpl app_handler. destruct (handle_event (mkAcceptEventHandler runtime) _ ci) as [[report|x] ci'].
  - assert (es_in_order ci.2.1 → es_in_order ci'.2.1 ∧ ∀ s', es_reopens ci'.2.1 s' → view s' = view ci'.2.1) as Hdur.
    { intros Ho. apply (Hd _ _ eq_refl) in Ho. split; [done|]. intros s' Hre. by apply reopens_view. }
    destruct Hr as (-> & [[-> He]|(Hw & Hv & Hc)]); simpl; eauto 10.
  - destruct Hr as (Hw & Hc & Hv). simpl. eauto 10.
Qed.

(** An admitted request whose key is known. *)
Lemma admitted_handled {Hd St} `{!EventHandler Hd St} (state : AppState Hd) fresh now headers body input (s s' : St) report :
  admitted (app_verifier state) headers body input →
  handle_event (app_handler state) (post_events fresh now input) s = (Ok report, s') →
  build_router state fresh now headers body s =
    (mkResponse (if ehr_accepted report then ACCEPTED else STATUS_OK)
       (EventResponseBody (mkEventResponse (EventId_to_string fresh) (ehr_submitted report)
          (ehr_failure_count report) (ehr_accepted report))), s').
Proof.
  intros Had Hh. destruct (build_router_run state fresh now headers body s) as [(input' & Had' & ->)|(Hn & _)].
  - assert (input' = input) as -> by (destruct Had as (_ & ? & _), Had' as (_ & ? & _); congruence).
    by rewrite Hh.
  - by destruct (Hn input).
Qed.

(** Reading back the last event of a log by the text of its id. *)
Lemma get_last_event `{!UuidTextLaws} event log marks i :
  view i.1 = mkEventLog (log ++ [event]) marks → ev_id event ∉ ids log →
  get_event_route (EventId_to_string (ev_id event)) i = (Ok event, i).
Proof.
  intros Hv Hid. unfold get_event_route, lift, gets, mbind, M_bind, parse_event_id. simpl.
  rewrite EventId_from_to_string. simpl. rewrite get_view, Hv. unfold log_get. simpl.
  revert Hid. clear Hv. unfold ids. rewrite not_elem_of_list_to_set.
  induction log as [|e log IH]; simpl; intros Hid; [by rewrite bool_decide_true|].
  apply not_elem_of_cons in Hid as [Hne Hid]. rewrite bool_decide_false by done. by apply IH.
Qed.

(** C40: what was posted can be read back: when an admitted event that is no duplicate
    is answered 200 or 202, asking for the id in the answer gives exactly the event
    that was posted, in the synchronous and in the asynchronous mode. *)
Theorem post_then_get `{!UuidTextLaws} runtime verifier fresh now headers body input (ci : C * I) :
  admitted verifier headers body input → fresh ∉ ids (log_events (view ci.2.1)) →
  (∀ e, e ∈ log_events (view ci.2.1) → ¬ same_key (post_events fresh now input) e) →
  (let '(resp, i') := build_router (mkAppState (mkIngestEventHandler runtime) verifier) fresh now headers body ci.2 in
   status resp = STATUS_OK → ∃ r, Http.body resp = EventResponseBody r ∧
     get_event_route (resp_event_id r) i' = (Ok (post_events fresh now input), i')) ∧
  (let '(resp, ci') := build_router (mkAppState (mkAcceptEventHandler runtime) verifier) fresh now headers body ci in
   status resp = ACCEPTED → ∃ r, Http.body resp = EventResponseBody r ∧
     get_event_route (resp_event_id r) ci'.2 = (Ok (post_events fresh now input), ci'.2)).
Proof.
  intros Had Hid Hkey. split.
  - destruct (build_router_run (mkAppState (mkIngestEventHandler runtime) verifier) fresh now headers body ci.2)
      as [(input' & Had' & ->)|(Hn & _)]; [|by destruct (Hn input)].
    assert (input' = input) as -> by (destruct Had as (_ & ? & _), Had' as (_ & ? & _); congruence).
    unfold handle_event, IngestEventHandler_EventHandler, mbind, M_bind, mapM_err at 1. simpl ih_runtime.
    pose proof (ingest_run runtime (post_events fresh now input) ci.2) as Hi.
    destruct (ingest runtime _ ci.2) as [[rep|x] i']; simpl in Hi |- *; [|done]. intros _. eexists. split; [done|]. simpl.
    destruct (ir_deduplicated rep).
    { destruct Hi as (_ & _ & e & Hin & Hk & _). by destruct (Hkey e Hin). }
    destruct Hi as (_ & _ & _ & Hv).
    exact (get_last_event (post_events fresh now input) (log_events (view ci.2.1)) _ i' Hv Hid).
  - destruct (build_router_run (mkAppState (mkAcceptEventHandler runtime) verifier) fresh now headers body ci)
      as [(input' & Had' & ->)|(Hn & _)]; [|by destruct (Hn input)].
    assert (input' = input) as -> by (destruct Had as (_ & ? & _), Had' as (_ & ? & _); congruence).
    pose proof (accept_handler_run runtime (post_events fresh now input) ci) as Hr. simpl app_handler.
    destruct (handle_event (mkAcceptEventHandler runtime) _ ci) as [[report|x] ci']; [|done].
    intros _. eexists. split; [done|]. simpl.
    destruct Hr as (_ & [[_ (e & Hin & Hk)]|(_ & Hv & _)]); [by destruct (Hkey e Hin)|].
    exact (get_last_event (post_events fresh now input) (log_events (view ci.2.1)) _ ci'.2 Hv Hid).
Qed.

(** The answer to a duplicate names an event that does not exist: it is
    answered 200 with the id of the envelope that was not stored, and the read
    endpoint answers 404 for that id. *)
Theorem duplicate_answer_unknown_id `{!UuidTextLaws} runtime verifier fresh now headers body input e i :
  admitted verifier headers body input →
  e ∈ log_events (view i.1) → same_key (post_events fresh now input) e →
  fresh ∉ ids (log_events (view i.1)) →
  ∃ r, build_router (mkAppState (mkIngestEventHandler runtime) verifier) fresh now headers body i
         = (mkResponse STATUS_OK (EventResponseBody r), i) ∧
    resp_event_id r = EventId_to_string fresh ∧
    (get_event_route (resp_event_id r) i).1
      = Err (RouteNotFound ("event " +:+ EventId_to_string fresh +:+ " not found")).
Proof.
  intros Had Hin Hk Hf. eexists. split.
  { apply (admitted_handled (mkAppState (mkIngestEventHandler runtime) verifier) _ _ _ _ input i i
             (EventHandlingReport_new [] 0) Had).
    unfold handle_event, IngestEventHandler_EventHandler, mbind, M_bind, mapM_err, ingest, gets, mbind, M_bind. simpl.
    destruct (same_key_existing _ i e Hin Hk) as [e' ->]. done. }
  split; [done|]. unfold get_event_route, lift, gets, mbind, M_bind, parse_event_id. simpl.
  rewrite EventId_from_to_string. simpl. rewrite get_view. unfold log_get.
  destruct (List.find _ (log_events (view i.1))) as [e'|] eqn:Hfind; [|done].
  apply find_Some_elem in Hfind as [Hin' He]. apply bool_decide_eq_true in He.
  destruct Hf. unfold ids. apply elem_of_list_to_set, list_elem_of_fmap. by exists e'.
Qed.

(** An event stored by a request that was answered 500 because the dispatcher
    was gone is stranded until the next start: a client that sends it again with
    the same key is answered 202, but it is not handed to any dispatcher, and
    nothing marks it delivered. *)
Theorem stranded_event runtime verifier fresh now headers body resp (ci ci' : C * I) input key :
  build_router (mkAppState (mkAcceptEventHandler runtime) verifier) fresh now headers body ci = (resp, ci') →
  admitted verifier headers body input → status resp = INTERNAL_SERVER_ERROR →
  view ci'.2.1 = log_append (post_events fresh now input) (view ci.2.1) →
  idempotency_key (in_metadata input) = Some key → fresh ∉ log_delivered (view ci.2.1) →
  sent ci'.1 = sent ci.1 ∧ post_events fresh now input ∈ log_undelivered (view ci'.2.1) ∧
  ∀ fresh' now' headers' body' input', admitted verifier headers' body' input' →
    idempotency_key (in_metadata input') = Some key →
    ∃ r, build_router (mkAppState (mkAcceptEventHandler runtime) verifier) fresh' now' headers' body' ci'
         = (mkResponse ACCEPTED r, ci').
Proof.
  intros Hb Had Hs Hv Hk Hf. split; [|split].
  - destruct (build_router_run (mkAppState (mkAcceptEventHandler runtime) verifier) fresh now headers body ci)
      as [(input' & _ & Hr)|(_ & resp' & Hr & Hne)]; rewrite Hb in Hr.
    + pose proof (accept_handler_run runtime (post_events fresh now input') ci) as Ha. simpl app_handler in Hr.
      destruct (handle_event (mkAcceptEventHandler runtime) _ ci) as [[report|x] ci1]; injection Hr as -> ->.
      * destruct Ha as [-> _]. done.
      * tauto.
    + injection Hr as -> ->. done.
  - rewrite Hv. unfold log_undelivered. apply list_elem_of_filter. split; [exact Hf|].
    simpl. apply elem_of_app. right. left.
  - intros fresh' now' headers' body' input' Had' Hk'. eexists.
    apply (admitted_handled (mkAppState (mkAcceptEventHandler runtime) verifier) _ _ _ _ input' ci' ci'
             EventHandlingReport_accepted Had').
    destruct ci' as [c' i']. simpl in Hv.
    destruct (same_key_existing (post_events fresh' now' input') i' (post_events fresh now input)) as [e' He'].
    { rewrite Hv. simpl. apply elem_of_app. right. left. }
    { unfold same_key. simpl. rewrite Hk, Hk'. by split. }
    unfold handle_event, AcceptEventHandler_EventHandler, mbind, M_bind, mapM_err, on_ingest, zoom, accept, gets,
      mbind, M_bind. simpl. by rewrite He'.
Qed.
End write.

(** C29: a webhook body is accepted exactly when the configured header's text is,
    with or without the [sha256=] prefix, the hexadecimal form of the body's HMAC
    under the secret; a signer that sends either form is accepted. *)
Theorem webhook_signature `{HeaderMaps} `{Hex} `{Hmac} wv headers body :
  (verify wv headers body = true ↔
   ∃ text tag, header_text (wv_header wv) headers = Some text ∧ tag_of (wv_secret wv) body = Some tag ∧
     hex_decode (default text (strip_prefix "sha256=" text)) = Some tag) ∧
  ∀ tag, tag_of (wv_secret wv) body = Some tag →
    header_text (wv_header wv) headers = Some (hex_encode tag) ∨
    header_text (wv_header wv) headers = Some ("sha256=" +:+ hex_encode tag) → verify wv headers body = true.
Proof.
  split; [apply verify_spec|]. intros tag Ht [Hh|Hh]; by eapply verify_signed; eauto.
Qed.

(** ** The read and replay endpoints *)

Section read.
Context `{UuidText} `{Worklane} `{HeaderMaps} `{SourceJson} {S B Q K : Type}.
Context `{!EventStore S} `{!Broker B} `{!DeadTriggerQueue Q} `{!TraceSink K}.
Context `{Serialize EventEnvelope} `{!EventStoreSpec S}.
Local Abbreviation I := (S * World B Q K)%type.
Implicit Types (i : I) (headers : HeaderMap).

(** With a token configured, a read or replay request runs exactly when its
    Authorization header is [Bearer] and that token, byte for byte; otherwise it
    is answered 401 and touches nothing. The comparison in constant time is
    equality. *)
Theorem read_endpoints_guarded runtime auth headers request i :
  (header_text AUTHORIZATION headers = Some ("Bearer " +:+ of_bytes (ra_token auth)) →
   read_router runtime (Some auth) headers request i = read_endpoint runtime request i) ∧
  (header_text AUTHORIZATION headers ≠ Some ("Bearer " +:+ of_bytes (ra_token auth)) →
   read_router runtime (Some auth) headers request i = (into_response Unauthorized, i)) ∧
  ∀ a b, constant_time_eq a b = bool_decide (a = b).
Proof.
  unfold read_router, require_read_auth. rewrite <-authorized_spec. split; [by intros ->|].
  split; [by destruct (authorized auth headers)|]. intros a b. apply eq_true_iff_eq.
  by rewrite constant_time_eq_spec, bool_decide_eq_true.
Qed.

(** The [k]-th page of [limit] events. *)
Definition page i (limit k : nat) : list EventEnvelope :=
  default [] (ok (list_events_route (E := HttpRouteError)
    (mkListEventsQuery (Some (Z.of_nat limit)) (Some (Z.of_nat (k * limit)))) i).1).

(** The pages of [GET /events] tile the log: in order they are its events,
    none twice and none missing; without a limit a page has at most the default
    number of events. *)
Theorem pages_tile_the_log i limit n :
  concat (page i limit <$> seq 0 n) = take (n * limit) (log_events (view i.1)) ∧
  ∀ offset l i', list_events_route (E := HttpRouteError) (mkListEventsQuery None offset) i = (Ok l, i') →
    i' = i ∧ len l <= DEFAULT_EVENT_LIST_LIMIT ∧ l `prefix_of` drop (Z.to_nat (default 0 offset)) (log_events (view i.1)).
Proof.
  split.
  - induction n as [|n IH]; [done|]. rewrite seq_S, fmap_app, concat_app, IH. simpl. rewrite app_nil_r.
    unfold page, list_events_route, gets. simpl. rewrite !Nat2Z.id, all_view, <-(take_drop (n * limit)) at 1.
    rewrite Nat.add_comm, <-take_take_drop. by rewrite take_drop.
  - intros offset l i' Hl. unfold list_events_route, gets in Hl. injection Hl as <- <-. split; [done|].
    rewrite all_view. split; [|apply prefix_take].
    unfold len. rewrite length_take. simpl default. unfold DEFAULT_EVENT_LIST_LIMIT. lia.
Qed.

Definition with_dry_run (dry_run : bool) (range : ReplayRangeQuery) : ReplayRangeQuery :=
  mkReplayRangeQuery (q_start range) (q_end range) (q_event_type range) (q_source range) dry_run.

(** A dry run of a range replay touches nothing and counts the events the
    replay would handle: the replay handles that many, in order, leaves the store
    as it is, and fails only while handling (500). Both refuse the same queries,
    as a bad request, and touch nothing then. *)
Theorem dry_run_counts_replay runtime range i :
  match replay_range_route runtime (with_dry_run true range) i with
  | (Err e, i1) => i1 = i ∧ HttpRouteError_status e = BAD_REQUEST ∧
      replay_range_route runtime (with_dry_run false range) i = (Err e, i)
  | (Ok r, i1) => i1 = i ∧ resp_dry_run r = true ∧
      match replay_range_route runtime (with_dry_run false range) i with
      | (Ok r', i2) => matched r' = matched r ∧ resp_dry_run r' = false ∧ i2.1 = i.1 ∧
          ∃ l, len l = matched r ∧ handled runtime l i.2 i2.2
      | (Err e, i2) => HttpRouteError_status e = INTERNAL_SERVER_ERROR ∧ i2.1 = i.1
      end
  end.
Proof.
  unfold replay_range_route, with_dry_run, gets, lift, mbind, M_bind. simpl.
  destruct (replay_filter (q_event_type range) (q_source range)) as [flt|e] eqn:Hf; last first.
  { split; [done|]. split; [|done]. unfold replay_filter, mbind, result_bind in Hf.
    destruct (q_source range) as [raw|]; [|done]. unfold parse_source in Hf.
    destruct (source_from_value raw); [done|]. simpl in Hf. by injection Hf as <-. }
  split; [done|]. split; [done|]. unfold mapM_err, on_world, zoom, replay_range. simpl.
  set (sel := filter _ _). pose proof (replay_events_run runtime sel [] i.2) as Hr.
  destruct (replay_events runtime sel [] i.2) as [[rep|x] w]; simpl.
  - destruct Hr as (l & Hl & Hh & ->). simpl. unfold len, preview_range. fold sel. rewrite <-Hl, !length_fmap.
    split; [done|]. split; [done|]. split; [done|]. by exists l.
  - destruct Hr as (? & ? & ? & ? & y & _ & _ & _ & ->). done.
Qed.

(** A replay by id answers 400 exactly for what is not an id and 404 exactly
    for an id that is not in the log, touching nothing; otherwise it handles that
    event, and reports it with 200 or the failure with 500, the store untouched. *)
Theorem replay_by_id_answers runtime raw i :
  match replay_by_id_route runtime raw i with
  | (Ok r, i') => i'.1 = i.1 ∧ ∃ id e report, EventId_from_str raw = Ok id ∧
      log_get id (view i.1) = Some e ∧ handle runtime e i.2 = (Ok report, i'.2) ∧
      r = mkEventResponse (EventId_to_string id) (submitted report) (len (failed report)) false
  | (Err err, i') => i'.1 = i.1 ∧
      match HttpRouteError_status err with
      | BAD_REQUEST => i' = i ∧ ∀ id, EventId_from_str raw ≠ Ok id
      | NOT_FOUND => i' = i ∧ ∃ id, EventId_from_str raw = Ok id ∧ log_get id (view i.1) = None
      | INTERNAL_SERVER_ERROR => ∃ id e x, EventId_from_str raw = Ok id ∧
          log_get id (view i.1) = Some e ∧ handle runtime e i.2 = (Err x, i'.2)
      | _ => False
      end
  end.
Proof.
  destruct i as [s w]. unfold replay_by_id_route, parse_event_id, gets, lift, mbind, M_bind.
  destruct (EventId_from_str raw) as [id|e]; simpl; [|by split].
  unfold mapM_err, on_world, zoom, replay_by_id, lift, mbind, M_bind. simpl. rewrite get_view.
  destruct (log_get id (view s)) as [e|] eqn:Hg; simpl; [|eauto].
  unfold mapM_err. destruct (handle runtime e w) as [[report|x] w'] eqn:Hh; simpl; eauto 10.
Qed.
End read.
