(* ===== verification/HttpRuns.v ===== *)
(** * Sample requests

    Sample headers, codes and channels, and the theorems on the write endpoint
    applied to them. *)

From stdpp Require Import base gmap strings list.
From Stdlib Require Import ZArith Lia.
From S2P Require Import Prelude RustStd Event Trigger Retention Store Samples StorageRuns.
From S2P Require Import Runtime Submission Handling Replay RuntimeRuns Ingest Delivery Recovery Http HttpSpec.
Local Open Scope Z_scope.

#[export] Instance sample_HeaderMaps : HeaderMaps := {
  HeaderMap := list (string * string);
  HeaderValue := string;
  header_get name headers := snd <$> List.find (λ h, bool_decide (h.1 = name)) headers;
  header_to_str := Some;
}.

(** ** Hexadecimal *)

Definition hex_pair (b : byte) : bytes := [hex_digit (u8 b / 16); hex_digit (u8 b mod 16)].

Fixpoint read_hex (b : bytes) : option bytes :=
  match b with
  | [] => Some []
  | x :: y :: b => hi ← hex_value x; lo ← hex_value y; rest ← read_hex b; Some (as_u8 (hi * 16 + lo) :: rest)
  | [_] => None
  end.

Lemma read_hex_pair b :
  hex_value (hex_digit (u8 b / 16)) = Some (u8 b / 16) ∧
  hex_value (hex_digit (u8 b mod 16)) = Some (u8 b mod 16) ∧ as_u8 (u8 b / 16 * 16 + u8 b mod 16) = b ∧
  hex_digit (u8 b / 16) ≠ Byte.x73.
Proof. by destruct b. Qed.

Lemma read_hex_pairs b : read_hex (b ≫= hex_pair) = Some b.
Proof.
  induction b as [|x b IH]; [done|]. simpl. destruct (read_hex_pair x) as (-> & -> & Hx & _). simpl.
  change (list_bind byte byte hex_pair b) with (b ≫= hex_pair). rewrite IH. simpl. by rewrite Hx.
Qed.

#[export] Instance sample_Hex : Hex.
Proof.
  refine {| hex_encode b := of_bytes (b ≫= hex_pair); hex_decode s := read_hex (as_bytes s) |}.
  - intros b. rewrite as_of_bytes. apply read_hex_pairs.
  - intros [|x b]; [done|].
    destruct (strip_prefix _ _) as [t|] eqn:Hs; [|done]. exfalso.
    apply strip_prefix_Some in Hs. apply (f_equal as_bytes) in Hs. rewrite as_of_bytes in Hs.
    apply (f_equal head) in Hs. simpl in Hs. injection Hs as Hs. by destruct (read_hex_pair x) as (_ & _ & _ & []).
Defined.

(** A stand-in for the hash: the key, then the data. *)
#[export] Instance sample_Hmac : Hmac := {
  Mac := bytes;
  new_from_slice key := Some key;
  mac_update data m := m ++ data;
  mac_finalize m := m;
  verify_slice tag m := bool_decide (tag = m);
  verify_slice_spec tag m := bool_decide_eq_true (tag = m);
}.

(** ** Names of sources *)

Definition sources : list Source := [Http; GitHub; Discord; Slack; Cron; Manual].

#[export] Instance sample_SourceJson : SourceJson.
Proof.
  refine {| source_from_value raw :=
    match List.find (λ s, bool_decide (raw = Source_debug s)) sources with Some s => Ok s | None => Err "unknown" end |}.
  intros raw s. split.
  - destruct (List.find _ sources) as [s'|] eqn:Hf; [|done]. intros [= ->].
    apply find_Some_elem in Hf as [_ Hs]. by apply bool_decide_eq_true in Hs.
  - intros ->. by destruct s.
Defined.

(** ** A channel *)

Record SampleChannel := mkSampleChannel { sc_sent : list EventEnvelope; sc_open : bool }.

#[export] Instance sample_Mpsc : Mpsc SampleChannel.
Proof.
  refine {| sent := sc_sent;
            send e := λ c, if sc_open c then (Ok tt, mkSampleChannel (sc_sent c ++ [e]) true) else (Err tt, c) |}.
  - intros e [l []] c' H; [by injection H as <-|done].
  - intros e [l []] x c' H; [done|by injection H as _ <-].
Defined.

(** ** Requests *)

Definition incoming (key : option string) : IncomingEvent :=
  mkIncomingEvent EVENT_GITHUB_ISSUE_CREATED [] (mkEventMetadata None None None key None).

#[export] Instance IncomingEvent_eq_dec : EqDecision IncomingEvent.
Proof. solve_decision. Defined.
#[export] Instance IncomingEvent_countable : Countable IncomingEvent.
Proof.
  refine (inj_countable' (λ e, (in_event_type e, in_payload e, in_metadata e))
            (λ '(t, p, m), mkIncomingEvent t p m) _).
  by intros [].
Defined.

Definition body_of (input : IncomingEvent) : bytes :=
  match to_vec input with Ok b => b | Err _ => [] end.

Definition verifier : WebhookVerifier := WebhookVerifier_github (as_bytes "secret").
Definition signed (body : bytes) : HeaderMap :=
  [(GITHUB_SIGNATURE_HEADER, "sha256=" +:+ hex_encode (as_bytes "secret" ++ body))].

Lemma signed_admitted key :
  bool_decide (len (body_of (incoming key)) <= MAX_EVENT_BODY_BYTES) = true →
  bool_decide (from_str (body_of (incoming key)) = Ok (incoming key)) = true →
  verify verifier (signed (body_of (incoming key))) (body_of (incoming key)) = true →
  admitted (Some verifier) (signed (body_of (incoming key))) (body_of (incoming key)) (incoming key).
Proof. intros Hl Hf Hv. split; [by eapply bool_decide_eq_true|]. split; [by eapply bool_decide_eq_true|done]. Qed.

Lemma duplicate_answer_unknown_id_witness :
  ∃ r, build_router (St := SampleIngest) (mkAppState (mkIngestEventHandler quiet_runtime) (Some verifier)) (mkEventId 9) 500
         (signed (body_of (incoming (Some "k1")))) (body_of (incoming (Some "k1"))) ingest1
         = (mkResponse STATUS_OK (EventResponseBody r), ingest1) ∧
    resp_event_id r = EventId_to_string (mkEventId 9) ∧
    (get_event_route (K := InMemoryTraceSink) (resp_event_id r) ingest1).1
      = Err (RouteNotFound ("event " +:+ EventId_to_string (mkEventId 9) +:+ " not found")).
Proof.
  apply (duplicate_answer_unknown_id quiet_runtime (Some verifier) (mkEventId 9) 500
           (signed (body_of (incoming (Some "k1")))) (body_of (incoming (Some "k1"))) (incoming (Some "k1")) event1 ingest1).
  - apply signed_admitted; vm_compute; reflexivity.
  - change (event1 ∈ [event1]). left.
  - split; [by exists "k1"|done].
  - apply (bool_decide_unpack _). vm_compute. exact I.
Defined.

(** The dispatcher is gone: the event is stored and the request answered 500. *)
Definition closed0 : SampleChannel * SampleIngest := (mkSampleChannel [] false, ingest0).
Definition post_stranded : Response * (SampleChannel * SampleIngest) :=
  build_router (St := SampleChannel * SampleIngest) (mkAppState (mkAcceptEventHandler quiet_runtime) (Some verifier)) (mkEventId 5) 400
    (signed (body_of (incoming (Some "k5")))) (body_of (incoming (Some "k5"))) closed0.

Lemma stranded_event_witness :
  sent post_stranded.2.1 = sent closed0.1 ∧
  post_events (mkEventId 5) 400 (incoming (Some "k5")) ∈ log_undelivered (view post_stranded.2.2.1) ∧
  ∀ fresh' now' headers' body' input', admitted (Some verifier) headers' body' input' →
    idempotency_key (in_metadata input') = Some "k5" →
    ∃ r, build_router (St := SampleChannel * SampleIngest) (mkAppState (mkAcceptEventHandler quiet_runtime) (Some verifier)) fresh' now' headers' body'
           post_stranded.2 = (mkResponse ACCEPTED r, post_stranded.2).
Proof.
  apply (stranded_event quiet_runtime (Some verifier) (mkEventId 5) 400 (signed (body_of (incoming (Some "k5"))))
           (body_of (incoming (Some "k5"))) post_stranded.1 closed0 post_stranded.2 (incoming (Some "k5")) "k5").
  - unfold post_stranded. apply surjective_pairing.
  - apply signed_admitted; vm_compute; reflexivity.
  - vm_compute. reflexivity.
  - vm_compute. reflexivity.
  - reflexivity.
  - apply (bool_decide_unpack _). vm_compute. exact I.
Defined.

(** A new event, posted and read back. *)
Lemma post_then_get_witness :
  (let '(resp, i') := build_router (St := SampleIngest) (mkAppState (mkIngestEventHandler quiet_runtime) (Some verifier))
     (mkEventId 9) 500 (signed (body_of (incoming (Some "k9")))) (body_of (incoming (Some "k9"))) ingest1 in
   status resp = STATUS_OK → ∃ r, Http.body resp = EventResponseBody r ∧
     get_event_route (resp_event_id r) i' = (Ok (post_events (mkEventId 9) 500 (incoming (Some "k9"))), i')) ∧
  (let '(resp, ci') := build_router (St := SampleChannel * SampleIngest)
     (mkAppState (mkAcceptEventHandler quiet_runtime) (Some verifier)) (mkEventId 9) 500
     (signed (body_of (incoming (Some "k9")))) (body_of (incoming (Some "k9"))) (mkSampleChannel [] true, ingest1) in
   status resp = ACCEPTED → ∃ r, Http.body resp = EventResponseBody r ∧
     get_event_route (resp_event_id r) ci'.2 = (Ok (post_events (mkEventId 9) 500 (incoming (Some "k9"))), ci'.2)).
Proof.
  apply (post_then_get quiet_runtime (Some verifier) (mkEventId 9) 500 (signed (body_of (incoming (Some "k9"))))
           (body_of (incoming (Some "k9"))) (incoming (Some "k9")) (mkSampleChannel [] true, ingest1)).
  - apply signed_admitted; vm_compute; reflexivity.
  - apply (bool_decide_unpack _). vm_compute. exact I.
  - change (∀ e, e ∈ [event1] → ¬ same_key (post_events (mkEventId 9) 500 (incoming (Some "k9"))) e).
    intros e ->%list_elem_of_singleton [_ Hk]. by vm_compute in Hk.
Defined.
