(* ===== verification/Config.v ===== *)
(** * Declarative triggers: [crates/triggerlane-cli/src/config.rs]

    The configuration document, the condition builder, the registry built from
    a document, and what that registry does with an event: exactly what the
    document says. Reading the file and parsing JSON are parameters. *)

From stdpp Require Import base strings list sorting.
From Stdlib Require Import ZArith Lia.
From S2P Require Import Prelude RustStd Event Trigger Retention Runtime Submission.
Local Open Scope Z_scope.

(* The conditions nest in lists on purpose. *)
Set Warnings "-register-all".

Section config.
Context `{Json}.

(** [enum MatchSpec]. *)
Inductive MatchSpec :=
| MatchEventType (event_type : string)
| MatchPayloadFieldEquals (ptr : string) (value : Value)
| MatchAllOf (conditions : list MatchSpec)
| MatchAnyOf (conditions : list MatchSpec).

Record BindSpec := mkBindSpec {
  bs_lane : string;
  bs_kind : string;
  bs_max_attempts : Z;
}.

Record TriggerEntry := mkTriggerEntry {
  te_name : string;
  te_priority : Z;
  te_enabled : bool;
  te_condition : MatchSpec;
  te_bind : BindSpec;
}.

Record TriggerFile := mkTriggerFile { tf_triggers : list TriggerEntry }.

Inductive ConfigError :=
| ConfigRead (error : io_error)
| ConfigParse (error : string).

Definition ConfigError_to_string (e : ConfigError) : string :=
  match e with
  | ConfigRead error => "reading trigger config: " +:+ io_message error
  | ConfigParse error => "parsing trigger config: " +:+ error
  end.

(** [struct BoxedTrigger]: the object's [matches] again. *)
Record BoxedTrigger := mkBoxedTrigger { boxed : DynTrigger }.
#[export] Instance BoxedTrigger_Trigger : Trigger BoxedTrigger := λ self event, boxed self event.

Fixpoint build_condition (spec : MatchSpec) : DynTrigger :=
  match spec with
  | MatchEventType event_type => box_trigger (mkEventTypeTrigger (mkEventType event_type))
  | MatchPayloadFieldEquals ptr value => box_trigger (mkPayloadFieldEquals ptr value)
  | MatchAllOf conditions => box_trigger (mkAllOf (map build_condition conditions))
  | MatchAnyOf conditions => box_trigger (mkAnyOf (map build_condition conditions))
  end.

(** The body of the loop of [parse_registry]: what one entry registers. *)
Definition registered_of (entry : TriggerEntry) : RegisteredTrigger :=
  let trigger := mkBoxedTrigger (build_condition (te_condition entry)) in
  let binding := WorklaneJobBinding_new (bs_lane (te_bind entry)) (bs_kind (te_bind entry))
                   (bs_max_attempts (te_bind entry)) in
  let registered := RegisteredTrigger_new (te_name entry) (te_priority entry) trigger binding in
  if negb (te_enabled entry) then disabled registered else registered.

Definition parse_registry `{Deserialize TriggerFile} (data : string) : result ConfigError TriggerRegistry :=
  file ← map_err ConfigParse (from_str (as_bytes data));
  mret (fold_left (λ registry entry, register registry (registered_of entry)) (tf_triggers file) TriggerRegistry_new).

(** [read_to_string] reads the file system. *)
Definition load_registry `{Deserialize TriggerFile} (read_to_string : string → result io_error string) (path : string)
    : result ConfigError TriggerRegistry :=
  data ← map_err ConfigRead (read_to_string path);
  parse_registry data.

(** ** What a condition means *)

Inductive satisfies (event : EventEnvelope) : MatchSpec → Prop :=
| satisfies_event_type : satisfies event (MatchEventType (as_str (ev_type event)))
| satisfies_payload ptr value json found :
    from_slice (ev_payload event) = Ok json → pointer json ptr = Some found → value_eqb found value = true →
    satisfies event (MatchPayloadFieldEquals ptr value)
| satisfies_all_of conditions : Forall (satisfies event) conditions → satisfies event (MatchAllOf conditions)
| satisfies_any_of conditions : Exists (satisfies event) conditions → satisfies event (MatchAnyOf conditions).

(** Induction through the lists of conditions. *)
Lemma MatchSpec_nested_ind (P : MatchSpec → Prop) :
  (∀ t, P (MatchEventType t)) → (∀ p v, P (MatchPayloadFieldEquals p v)) →
  (∀ cs, Forall P cs → P (MatchAllOf cs)) → (∀ cs, Forall P cs → P (MatchAnyOf cs)) → ∀ spec, P spec.
Proof.
  intros Ht Hp Hall Hany.
  fix IH 1. intros [t|p v|cs|cs]; [apply Ht|apply Hp|apply Hall|apply Hany];
    (induction cs as [|c cs IHcs]; constructor; [apply IH|exact IHcs]).
Qed.

Lemma build_condition_spec spec event : build_condition spec event = true ↔ satisfies event spec.
Proof.
  induction spec as [t|p v|cs IH|cs IH] using MatchSpec_nested_ind; simpl; unfold box_trigger, matches.
  - unfold EventTypeTrigger_Trigger. simpl. rewrite bool_decide_eq_true. split.
    + intros He. pose proof (satisfies_event_type event) as Hs. by rewrite He in Hs.
    + inversion 1; subst. by destruct (ev_type event).
  - unfold PayloadFieldEquals_Trigger. simpl. split.
    + destruct (from_slice (ev_payload event)) as [json|] eqn:Hj; simpl; [|done].
      destruct (pointer json p) as [found|] eqn:Hp; [|done]. intros Hv. by econstructor.
    + inversion 1 as [|? ? json found Hj Hp Hv| |]; subst. rewrite Hj. simpl. by rewrite Hp.
  - unfold AllOf_Trigger. simpl. rewrite forallb_forall. split.
    + intros Hf. constructor. apply Forall_forall. intros c Hc. rewrite Forall_forall in IH.
      apply IH; [done|]. apply Hf, in_map. by apply list_elem_of_In.
    + inversion 1 as [| |? Hf|]; subst. intros t Ht. apply in_map_iff in Ht as (c & <- & Hc%list_elem_of_In).
      rewrite Forall_forall in IH, Hf. apply IH; [done|]. by apply Hf.
  - unfold AnyOf_Trigger. simpl. rewrite existsb_exists. split.
    + intros (t & (c & <- & Hc%list_elem_of_In)%in_map_iff & Ht). constructor. apply Exists_exists.
      exists c. split; [done|]. rewrite Forall_forall in IH. by apply IH.
    + inversion 1 as [| | |? He]; subst. apply Exists_exists in He as (c & Hc & Hs).
      exists (build_condition c). split; [apply in_map; by apply list_elem_of_In|].
      rewrite Forall_forall in IH. by apply IH.
Qed.

#[export] Instance satisfies_dec event spec : Decision (satisfies event spec).
Proof.
  refine (cast_if (decide (build_condition spec event = true))); by rewrite <-build_condition_spec.
Defined.

Lemma registered_matches entry event :
  rt_enabled (registered_of entry) && rt_trigger (registered_of entry) event = true ↔
  te_enabled entry = true ∧ satisfies event (te_condition entry).
Proof.
  rewrite andb_true_iff, <-build_condition_spec. unfold registered_of. by destruct (te_enabled entry).
Qed.

Lemma registered_fields entry :
  rt_name (registered_of entry) = te_name entry ∧ rt_priority (registered_of entry) = te_priority entry ∧
  ∀ event, rt_binding (registered_of entry) event =
    Ok (mkWorklaneJob (bs_lane (te_bind entry)) (bs_kind (te_bind entry)) (ev_payload event)
          (bs_max_attempts (te_bind entry))).
Proof. unfold registered_of. by destruct (te_enabled entry). Qed.

(** C30: a registry loaded from a document handles an event as the document says:
    the entries that are enabled and whose condition, read as a formula over the
    event, holds; by descending priority, those of one priority in the order of
    the document; each submits its lane, kind and attempts with the event's
    payload. *)
Theorem config_means_what_it_says `{Deserialize TriggerFile} data registry event :
  parse_registry data = Ok registry →
  ∃ file, from_str (as_bytes data) = Ok file ∧
    let chosen := filter (λ t, te_enabled t = true ∧ satisfies event (te_condition t)) (tf_triggers file) in
    matching registry event ≡ₚ registered_of <$> chosen ∧
    StronglySorted (λ r r', rt_priority r >= rt_priority r') (matching registry event) ∧
    (∀ p, filter (λ r, rt_priority r = p) (matching registry event) =
      registered_of <$> filter (λ t, te_priority t = p) chosen) ∧
    ∀ t, rt_name (registered_of t) = te_name t ∧
      rt_binding (registered_of t) event = Ok (mkWorklaneJob (bs_lane (te_bind t)) (bs_kind (te_bind t))
        (ev_payload event) (bs_max_attempts (te_bind t))).
Proof.
  unfold parse_registry. destruct (from_str (as_bytes data)) as [file|e] eqn:Hp; [|done].
  intros [= <-]. exists file. split; [done|]. cbv zeta.
  assert (fold_left (λ reg entry, register reg (registered_of entry)) (tf_triggers file) TriggerRegistry_new =
    registry_of (registered_of <$> tf_triggers file)) as Hreg.
  { unfold registry_of. generalize TriggerRegistry_new. induction (tf_triggers file); simpl; auto. }
  simpl. rewrite Hreg.
  pose proof (matching_spec (registered_of <$> tf_triggers file) event) as Hm. cbv zeta in Hm.
  rewrite (filter_fmap registered_of _ (λ t, te_enabled t = true ∧ satisfies event (te_condition t))) in Hm
    by (intros t; apply registered_matches).
  destruct Hm as (Hperm & Hsort & Hstable). split; [exact Hperm|]. split; [exact Hsort|].
  split; [|intros t; destruct (registered_fields t) as (Hn & _ & Hb); by rewrite Hn, Hb].
  intros p. rewrite Hstable. apply filter_fmap. intros t. by destruct (registered_fields t) as (_ & -> & _).
Qed.
End config.
