(* ===== verification/Cli.v ===== *)
(** * The command line: [crates/triggerlane-cli/src/main.rs]

    Settings read from the environment, broker selection, the pipeline the
    commands run on, the commands, the startup of the server, its dispatcher and
    its maintenance task. The environment is a function, printed lines are part
    of the state, and a panic is [None]. [chrono]'s bounded arithmetic is the
    parameter [Chrono]. Sockets, signals, the metrics recorder and the
    connections to the brokers are not modelled: what they return is an
    argument. *)

From stdpp Require Import base gmap strings list pretty.
From Stdlib Require Import ZArith Lia.
From S2P Require Import Prelude RustStd Event Trigger Retention Store FileSystem Jsonl FileStore Runtime Ingest Http Config.
Local Open Scope Z_scope.

(** What the code uses of [chrono]: [TimeDelta::try_seconds] is [None] outside
    [i64::MAX] milliseconds; [DateTime - TimeDelta] panics ([None]) outside the
    range of a date. *)
Class Chrono := {
  try_seconds : Z → option TimeDelta;
  try_seconds_spec n :
    try_seconds n = if between (- i64_max) i64_max (n * 1000) then Some (n * nanos_per_sec) else None;
  datetime_min : DateTime;
  datetime_sub : DateTime → TimeDelta → option DateTime;
  datetime_sub_spec t d : 0 <= d → datetime_sub t d = if datetime_min <=? t - d then Some (t - d) else None;
  parse_datetime : string → result string DateTime;
}.

(** What the [worklane-dlq] commands call of a broker: the dead letters of a lane,
    the envelope as the JSON it is printed as. *)
Class BrokerDeadLetters `{Worklane} (B : Type) := {
  Envelope : Type;
  read_dead_letters : Lane → Z → M B Error (list (Envelope * string));
  count_dead_letters : Lane → M B Error Z;
  purge_dead_letters : Lane → M B Error Z;
}.

(** ** Constants *)

Definition DEFAULT_STORE_PATH : string := "triggerlane-events.jsonl".
Definition DEFAULT_DTQ_PATH : string := "triggerlane-dead-triggers.jsonl".
Definition DEFAULT_BROKER_DB : string := "triggerlane-jobs.sqlite3".
Definition BROKER_SCHEMA_ENV : string := "TRIGGERLANE_WORKLANE_SCHEMA".
Definition BROKER_NAMESPACE_ENV : string := "TRIGGERLANE_WORKLANE_NAMESPACE".
Definition TRIGGERS_ENV : string := "TRIGGERLANE_TRIGGERS".
Definition REQUEST_TIMEOUT_ENV : string := "TRIGGERLANE_REQUEST_TIMEOUT_SECS".
Definition DEFAULT_REQUEST_TIMEOUT_SECS : Z := 30.
Definition RETENTION_GRACE_ENV : string := "TRIGGERLANE_RETENTION_DELIVERED_GRACE".
Definition RETENTION_MAX_AGE_ENV : string := "TRIGGERLANE_RETENTION_MAX_AGE".
Definition RETENTION_MAX_COUNT_ENV : string := "TRIGGERLANE_RETENTION_MAX_COUNT".
Definition RETENTION_MAX_BYTES_ENV : string := "TRIGGERLANE_RETENTION_MAX_BYTES".
Definition RETENTION_INTERVAL_ENV : string := "TRIGGERLANE_RETENTION_INTERVAL".
Definition DEFAULT_RETENTION_GRACE : string := "24h".
Definition DEFAULT_RETENTION_INTERVAL : string := "5m".
Definition DEFAULT_RETENTION_MAX_COUNT : string := "1000000".
Definition SUBMISSION_ATTEMPTS_ENV : string := "TRIGGERLANE_SUBMISSION_ATTEMPTS".
Definition SUBMISSION_BACKOFF_MS_ENV : string := "TRIGGERLANE_SUBMISSION_BACKOFF_MS".
Definition DEFAULT_SUBMISSION_ATTEMPTS : string := "3".
Definition DEFAULT_SUBMISSION_BACKOFF_MS : string := "100".
Definition ASYNC_DISPATCH_ENV : string := "TRIGGERLANE_ASYNC_DISPATCH".
Definition ASYNC_DISPATCH_CAPACITY_ENV : string := "TRIGGERLANE_ASYNC_DISPATCH_CAPACITY".
Definition DEFAULT_ASYNC_DISPATCH_CAPACITY : Z := 1024.

(** ** Errors *)

Inductive CliError :=
| CliBindAddr (error : string)
| CliEvents (message : string)
| CliBroker (message : string)
| CliRequestTimeout (raw : string)
| CliRetention (message : string)
| CliSubmission (message : string)
| CliMetrics (message : string)
| CliConfig (error : ConfigError)
| CliIo (error : io_error)
| CliJson (error : string)
| CliRuntime (error : RuntimeError).

Definition CliError_to_string (e : CliError) : string :=
  match e with
  | CliBindAddr error => "invalid bind address: " +:+ error
  | CliEvents message => "events: " +:+ message
  | CliBroker message => "worklane broker error: " +:+ message
  | CliRequestTimeout raw =>
    "invalid " +:+ REQUEST_TIMEOUT_ENV +:+ ": " +:+ debug_str raw
    +:+ " (expected a non-negative integer number of seconds)"
  | CliRetention message => "prune: " +:+ message
  | CliSubmission message => "submission: " +:+ message
  | CliMetrics message => "metrics recorder: " +:+ message
  | CliConfig error => ConfigError_to_string error
  | CliIo error => io_message error
  | CliJson error => error
  | CliRuntime error => RuntimeError_to_string error
  end.

(** ** Settings *)

(** [env::var(key).ok()]. *)
Abbreviation Env := (string → option string).

Definition nonempty_env (env : Env) (key : string) : option string :=
  value ← env key;
  if bool_decide (value = "") then None else Some value.

Inductive BrokerBackend := Sqlite | Postgres | Redis.
#[export] Instance BrokerBackend_eq_dec : EqDecision BrokerBackend.
Proof. solve_decision. Defined.

Definition parse_backend (name : string) : result CliError BrokerBackend :=
  if bool_decide (name = "sqlite") then Ok Sqlite
  else if bool_decide (name = "postgres") then Ok Postgres
  else if bool_decide (name = "redis") then Ok Redis
  else Err (CliBroker ("unknown broker " +:+ debug_str name +:+ " (expected sqlite, postgres, or redis)")).

Definition resolve_broker_url (url_flag triggerlane_url fallback : option string) (fallback_var backend : string)
    : result CliError (string * string) :=
  match url_flag with
  | Some url => Ok (url, "--url")
  | None =>
    match triggerlane_url with
    | Some url => Ok (url, "$TRIGGERLANE_WORKLANE_URL")
    | None =>
      match fallback with
      | Some url => Ok (url, "$" +:+ fallback_var)
      | None =>
        Err (CliBroker ("--url, $TRIGGERLANE_WORKLANE_URL, or $" +:+ fallback_var
               +:+ " is required for --broker " +:+ backend))
      end
    end
  end.

(** [connect_broker], up to the connection: the target each backend opens and
    the isolation (schema or namespace) it is given. *)
Inductive BrokerTarget :=
| OpenSqlite (path : string)
| ConnectPostgres (url source : string) (schema : option string)
| ConnectRedis (url source : string) (namespace : option string).

Definition connect_broker (env : Env) (backend : BrokerBackend) (url_flag : option string)
    : result CliError BrokerTarget :=
  match backend with
  | Sqlite => Ok (OpenSqlite (default DEFAULT_BROKER_DB (env "TRIGGERLANE_WORKLANE_DB")))
  | Postgres =>
    '(url, source) ← resolve_broker_url url_flag (env "TRIGGERLANE_WORKLANE_URL") (env "DATABASE_URL")
                       "DATABASE_URL" "postgres";
    mret (ConnectPostgres url source (nonempty_env env BROKER_SCHEMA_ENV))
  | Redis =>
    '(url, source) ← resolve_broker_url url_flag (env "TRIGGERLANE_WORKLANE_URL") (env "REDIS_URL")
                       "REDIS_URL" "redis";
    mret (ConnectRedis url source (nonempty_env env BROKER_NAMESPACE_ENV))
  end.

Definition broker_from_cli (env : Env) (backend : string) (url : option string) : result CliError BrokerTarget :=
  backend ← parse_backend backend; connect_broker env backend url.

Definition parse_runtime_options (attempts backoff_ms : option string) : result CliError RuntimeOptions :=
  let attempts := default DEFAULT_SUBMISSION_ATTEMPTS attempts in
  attempts ← ok_or (CliSubmission ("invalid submission attempts " +:+ debug_str attempts))
               (parse_u32 (trim attempts));
  let attempts := Z.max attempts 1 in
  let backoff_ms := default DEFAULT_SUBMISSION_BACKOFF_MS backoff_ms in
  backoff_ms ← ok_or (CliSubmission ("invalid submission backoff " +:+ debug_str backoff_ms))
                 (parse_u64 (trim backoff_ms));
  mret (mkRuntimeOptions attempts (duration_from_millis backoff_ms)).

Definition runtime_options_from_env (env : Env) : result CliError RuntimeOptions :=
  parse_runtime_options (env SUBMISSION_ATTEMPTS_ENV) (env SUBMISSION_BACKOFF_MS_ENV).

Definition parse_request_timeout (raw : option string) : result CliError (option Z) :=
  secs ← match raw with
         | Some raw => ok_or (CliRequestTimeout raw) (parse_u64 raw)
         | None => mret DEFAULT_REQUEST_TIMEOUT_SECS
         end;
  mret (if secs >? 0 then Some (duration_from_secs secs) else None).

Definition request_timeout (env : Env) : result CliError (option Z) :=
  parse_request_timeout (env REQUEST_TIMEOUT_ENV).

Definition env_flag_enabled (env : Env) (key : string) : bool :=
  match env key with
  | Some value =>
    let value := to_ascii_lowercase (trim value) in
    bool_decide (value ∈ ["1"; "true"; "yes"; "on"])
  | None => false
  end.

(** [usize] has 64 bits. *)
Definition async_dispatch_capacity (env : Env) : result CliError Z :=
  match nonempty_env env ASYNC_DISPATCH_CAPACITY_ENV with
  | None => Ok DEFAULT_ASYNC_DISPATCH_CAPACITY
  | Some raw =>
    capacity ← ok_or (CliSubmission ("invalid async dispatch capacity " +:+ debug_str raw)) (parse_u64 (trim raw));
    if capacity =? 0 then Err (CliSubmission "async dispatch capacity must be greater than 0")
    else Ok capacity
  end.

(** ** Durations and retention settings *)

(** The seconds of a unit's letter. *)
Definition unit_seconds (amount unit : Z) : option Z :=
  if unit =? 115 then Some amount
  else if unit =? 109 then checked_mul_i64 amount 60
  else if unit =? 104 then checked_mul_i64 amount 3600
  else if unit =? 100 then checked_mul_i64 amount 86400
  else None.

Definition parse_duration `{Chrono} (raw : string) : option TimeDelta :=
  unit ← last (chars raw);
  let amount := of_bytes (take (length (as_bytes raw) - len_utf8 unit) (as_bytes raw)) in
  amount ← parse_i64 amount;
  if amount <? 0 then None
  else
    seconds ← unit_seconds amount unit;
    try_seconds seconds.

(** The patterns [None], [Some("")], [Some("0")] and [Some("off")]. *)
Definition no_bound (raw : option string) : bool :=
  match raw with
  | None => true
  | Some value => bool_decide (value ∈ [""; "0"; "off"])
  end.

Definition parse_bound_duration `{Chrono} (raw : option string) : result CliError (option TimeDelta) :=
  let raw := trim <$> raw in
  if no_bound raw then Ok None
  else
    let value := default "" raw in
    Some <$> ok_or (CliRetention ("invalid retention duration " +:+ debug_str value)) (parse_duration value).

Definition parse_bound_number (raw : option string) (label : string) : result CliError (option Z) :=
  let raw := trim <$> raw in
  if no_bound raw then Ok None
  else
    let value := default "" raw in
    Some <$> ok_or (CliRetention ("invalid retention " +:+ label +:+ " " +:+ debug_str value)) (parse_u64 value).

Definition parse_auto_retention `{Chrono} (grace max_age max_count max_bytes : option string)
    : result CliError AutoRetention :=
  delivered_grace ← parse_bound_duration grace;
  max_age ← parse_bound_duration max_age;
  max_count ← parse_bound_number max_count "max-count";
  max_bytes ← parse_bound_number max_bytes "max-bytes";
  mret (mkAutoRetention delivered_grace max_age max_count max_bytes).

Definition auto_retention_from_env `{Chrono} (env : Env) : result CliError AutoRetention :=
  let grace := Some (default DEFAULT_RETENTION_GRACE (env RETENTION_GRACE_ENV)) in
  let max_count := Some (default DEFAULT_RETENTION_MAX_COUNT (env RETENTION_MAX_COUNT_ENV)) in
  parse_auto_retention grace (env RETENTION_MAX_AGE_ENV) max_count (env RETENTION_MAX_BYTES_ENV).

(** [TimeDelta::to_std] fails on a negative span. *)
Definition to_std (d : TimeDelta) : option Z := if d <? 0 then None else Some d.

Definition retention_interval_from_env `{Chrono} (env : Env) : result CliError Z :=
  let raw := default DEFAULT_RETENTION_INTERVAL (env RETENTION_INTERVAL_ENV) in
  ok_or (CliRetention ("invalid retention interval " +:+ debug_str raw))
    (duration ← parse_duration raw; to_std duration).

Inductive PrunePolicy :=
| PruneOlderThan (duration : string)
| PruneKeep (count : Z).

(** [None] is the panic of [Utc::now() - duration]. *)
Definition resolve_prune_policy `{Chrono} (now : DateTime) (policy : PrunePolicy)
    : option (result CliError ManualRetention) :=
  match policy with
  | PruneOlderThan duration =>
    match parse_duration duration with
    | None => Some (Err (CliRetention ("invalid duration " +:+ debug_str duration)))
    | Some duration => cutoff ← datetime_sub now duration; Some (Ok (OlderThan cutoff))
    end
  | PruneKeep count => Some (Ok (KeepMostRecent count))
  end.

(** ** Arguments of the commands *)

Definition parse_event_id `{UuidText} (raw : string) : result CliError EventId :=
  map_err (λ error, CliEvents ("invalid event id " +:+ debug_str raw +:+ ": " +:+ error)) (EventId_from_str raw).

Definition parse_timestamp `{Chrono} (raw : string) : result CliError DateTime :=
  map_err (λ error, CliEvents ("invalid timestamp " +:+ debug_str raw +:+ ": " +:+ error)) (parse_datetime raw).

Definition parse_source `{SourceJson} (raw : string) : result CliError Source :=
  map_err (λ _, CliEvents ("unknown source " +:+ debug_str raw)) (source_from_value raw).

Definition inject (fresh : EventId) (now : DateTime) (event_type : string) (payload : bytes) : EventEnvelope :=
  EventEnvelope_new fresh now Manual (mkEventType event_type) payload.

Record FileEvent := mkFileEvent {
  fe_event_type : string;
  fe_payload : bytes;
  fe_metadata : EventMetadata;
}.

(** One input of [load_events_file]; [fresh] and [now] are drawn per event. *)
Definition file_event (fresh : EventId) (now : DateTime) (input : FileEvent) : EventEnvelope :=
  with_metadata (EventEnvelope_new fresh now Manual (mkEventType (fe_event_type input)) (fe_payload input))
    (fe_metadata input).

Definition load_events_file `{Deserialize (list FileEvent)} (read_to_string : string → result io_error string)
    (fresh : nat → EventId) (now : nat → DateTime) (path : string) : result CliError (list EventEnvelope) :=
  data ← map_err CliIo (read_to_string path);
  inputs ← map_err CliJson (from_str (as_bytes data));
  mret (imap (λ i input, file_event (fresh i) (now i) input) inputs).

(** ** The pipeline *)

Definition default_registry : TriggerRegistry :=
  register TriggerRegistry_new
    (RegisteredTrigger_new "github-issue-projection" 10
       (mkEventTypeTrigger (mkEventType EVENT_GITHUB_ISSUE_CREATED))
       (WorklaneJobBinding_new "projection" "CreateProjectionJob" 3)).

Definition cli_load_registry `{Json} `{Deserialize TriggerFile} (read_to_string : string → result io_error string)
    (env : Env) : result CliError TriggerRegistry :=
  match env TRIGGERS_ENV with
  | Some path => map_err CliConfig (load_registry read_to_string path)
  | None => Ok default_registry
  end.

(** The two stores [build_ingest] opens. *)
Section open_stores.
Context `{Serialize EventEnvelope} `{Deserialize EventEnvelope} `{Serialize EventId} `{Deserialize EventId}.
Context `{Serialize DeadTriggerRecord} `{Deserialize DeadTriggerRecord}.

Definition open_event_store (env : Env) : M FS CliError FileEventStore :=
  let path := default DEFAULT_STORE_PATH (env "TRIGGERLANE_STORE") in
  mapM_err CliIo (fes_open path).

Definition open_dead_trigger_queue (env : Env) : M FS CliError FileDeadTriggerQueue :=
  let path := default DEFAULT_DTQ_PATH (env "TRIGGERLANE_DTQ") in
  mapM_err CliIo (fdq_open path).
End open_stores.

Section pipeline.
Context `{UuidText} `{Worklane} {S B Q : Type}.
Context `{!EventStore S} `{!Broker B} `{!DeadTriggerQueue Q}.
Local Abbreviation I := (S * World B Q LoggingTraceSink)%type.

(** [build_ingest]: what opening the stores returns, then the registry, then the
    options. *)
Definition build_ingest (open_event_store : result io_error S) (open_dead_trigger_queue : result io_error Q)
    (registry : result CliError TriggerRegistry) (options : result CliError RuntimeOptions) (broker : B)
    : result CliError (TriggerRuntime * I) :=
  store ← map_err CliIo open_event_store;
  dead_triggers ← map_err CliIo open_dead_trigger_queue;
  registry ← registry;
  options ← options;
  let '(runtime, w) := with_options_and_trace_sink registry broker options (mkLoggingTraceSink []) in
  mret (runtime, (store, with_dead_trigger_queue dead_triggers w)).

(** ** Commands *)

Inductive EventsCommand :=
| EventsList
| EventsGet (id : string)
| EventsReplay (id : string)
| EventsReplayRange (start end_ : string) (event_type source : option string) (dry_run : bool).

Inductive DeadTriggersCommand := DeadTriggersList | DeadTriggersRetry.

Inductive WorklaneDlqCommand :=
| DlqList (lane : string) (limit : Z)
| DlqCount (lane : string)
| DlqPurge (lane : string).

(** The commands that end; [Serve] is [serve_startup] and the server. *)
Inductive Command :=
| Inject (event_type : string) (payload : bytes)
| LoadFile (path : string)
| RetryDeadTriggers
| Prune (policy : PrunePolicy)
| Events (command : EventsCommand)
| DeadTriggers (command : DeadTriggersCommand)
| WorklaneDlq (command : WorklaneDlqCommand).

(** How a command fails. *)
Inductive Exit := Failed (error : CliError) | Panicked.

(** What the process gets from outside: the connection to the broker, the pipeline ([build_ingest], which
    opens both stores), each store opened on its own, the event file, the random
    ids and the clock. *)
Record Outside := mkOutside {
  o_broker : result CliError unit;
  o_built : result CliError TriggerRuntime;
  o_store : result io_error unit;
  o_queue : result io_error unit;
  o_events_file : string → result CliError (list EventEnvelope);
  o_fresh : EventId;
  o_now : DateTime;
}.

(** The printed lines and the pipeline's state. *)
Local Abbreviation C := (list string * I)%type.

Definition println (line : string) : M C Exit unit := modify (λ c, (c.1 ++ [line], c.2)).
Definition on_pipeline {E A} (f : E → CliError) (m : M I E A) : M C Exit A :=
  mapM_err (λ e, Failed (f e)) (zoom snd (λ i c, (c.1, i)) m).
Definition fallible {A} (r : result CliError A) : M C Exit A := lift (map_err Failed r).

Definition run_inject (o : Outside) (event_type : string) (payload : bytes) : M C Exit unit :=
  runtime ← fallible (o_built o);
  let event := inject (o_fresh o) (o_now o) event_type payload in
  report ← on_pipeline CliRuntime (ingest runtime event);
  println ("ingested " +:+ ir_event_id report +:+ " submitted " +:+ pretty (len (submitted (ir_handle report)))).

Fixpoint load_loop (runtime : TriggerRuntime) (events : list EventEnvelope) (submitted_ : Z) : M C Exit Z :=
  match events with
  | [] => mret submitted_
  | event :: events =>
    report ← on_pipeline CliRuntime (ingest runtime event);
    load_loop runtime events (submitted_ + len (submitted (ir_handle report)))
  end.

Definition run_load_file (o : Outside) (path : string) : M C Exit unit :=
  runtime ← fallible (o_built o);
  events ← fallible (o_events_file o path);
  let count := len events in
  submitted ← load_loop runtime events 0;
  println ("loaded " +:+ pretty count +:+ " submitted " +:+ pretty submitted).

Definition run_retry (o : Outside) : M C Exit unit :=
  runtime ← fallible (o_built o);
  report ← on_pipeline CliRuntime (on_world (retry_dead_triggers runtime));
  println ("retried " +:+ pretty (events_retried report) +:+ " drained " +:+ pretty (drained report)
    +:+ " recovered " +:+ pretty (recovered report) +:+ " still-failed " +:+ pretty (still_failed report)
    +:+ " submitted " +:+ pretty (len (retry_submitted report))).

Definition run_prune `{Chrono} (o : Outside) (policy : PrunePolicy) : M C Exit unit :=
  match resolve_prune_policy (o_now o) policy with
  | None => throw Panicked
  | Some policy =>
    policy ← fallible policy;
    fallible (map_err CliIo (o_store o));;
    events ← on_pipeline CliIo (on_store (es_prune policy));
    fallible (map_err CliIo (o_queue o));;
    dead_triggers ← on_pipeline CliIo (on_world (on_dead_triggers (dq_prune policy)));
    println ("pruned events " +:+ pretty events +:+ " dead-triggers " +:+ pretty dead_triggers)
  end.

(** One record as a line of JSON. *)
Definition println_json {T} `{Serialize T} (record : T) : M C Exit unit :=
  text ← fallible (map_err CliJson (to_vec record));
  println (of_bytes text).

Definition run_events `{Chrono} `{SourceJson} `{Serialize EventEnvelope} (o : Outside) (command : EventsCommand)
    : M C Exit unit :=
  match command with
  | EventsList =>
    fallible (map_err CliIo (o_store o));;
    events ← gets (λ c, es_all c.2.1);
    for_each events println_json
  | EventsGet id =>
    id ← fallible (parse_event_id id);
    fallible (map_err CliIo (o_store o));;
    found ← gets (λ c, es_get id c.2.1);
    match found with
    | Some event => println_json event
    | None => throw (Failed (CliEvents ("event " +:+ EventId_to_string id +:+ " not found")))
    end
  | EventsReplay id =>
    id ← fallible (parse_event_id id);
    runtime ← fallible (o_built o);
    store ← gets (λ c, c.2.1);
    report ← on_pipeline (λ e, CliEvents (ReplayError_to_string e)) (on_world (replay_by_id runtime store id));
    println ("replayed " +:+ EventId_to_string id +:+ " submitted " +:+ pretty (len (submitted report)))
  | EventsReplayRange start end_ event_type source dry_run =>
    start ← fallible (parse_timestamp start);
    end_ ← fallible (parse_timestamp end_);
    source ← fallible (match source with Some raw => Some <$> parse_source raw | None => mret None end);
    let flt := mkReplayFilter event_type source in
    runtime ← fallible (o_built o);
    store ← gets (λ c, c.2.1);
    if dry_run : bool then
      println ("would replay " +:+ pretty (len (preview_range store start end_ flt)) +:+ " (dry-run)")
    else
      report ← on_pipeline (λ e, CliEvents (ReplayError_to_string e))
                 (on_world (replay_range runtime store start end_ flt));
      println ("replayed " +:+ pretty (len (rrr_events report)))
  end.

Definition run_dead_triggers `{Serialize DeadTriggerRecord} (o : Outside) (command : DeadTriggersCommand)
    : M C Exit unit :=
  match command with
  | DeadTriggersList =>
    fallible (map_err CliIo (o_queue o));;
    records ← gets (λ c, dead_triggers c.2.2);
    for_each records println_json
  | DeadTriggersRetry => run_retry o
  end.

(** One line of [worklane-dlq list]: the envelope and the retained error. *)
Record DeadLetterLine `{!BrokerDeadLetters B} := mkDeadLetterLine {
  dll_envelope : Envelope;
  dll_error : string;
}.

Definition parse_lane (lane : string) : result CliError Lane :=
  map_err (λ error, CliBroker ("invalid lane " +:+ debug_str lane +:+ ": " +:+ error)) (lane_try_from lane).

Definition dead_letter_error (error : Error) : CliError := CliBroker (Error_to_string error).

Definition run_worklane_dlq `{!BrokerDeadLetters B} `{Serialize DeadLetterLine} (o : Outside)
    (command : WorklaneDlqCommand) : M C Exit unit :=
  fallible (o_broker o);;
  match command with
  | DlqList lane limit =>
    lane ← fallible (parse_lane lane);
    records ← on_pipeline dead_letter_error (on_world (on_broker (read_dead_letters lane limit)));
    for_each records (λ record, println_json (mkDeadLetterLine _ record.1 record.2))
  | DlqCount lane =>
    lane ← fallible (parse_lane lane);
    count ← on_pipeline dead_letter_error (on_world (on_broker (count_dead_letters lane)));
    println (pretty count)
  | DlqPurge lane =>
    lane ← fallible (parse_lane lane);
    purged ← on_pipeline dead_letter_error (on_world (on_broker (purge_dead_letters lane)));
    println ("purged " +:+ pretty purged)
  end.

(** [run], for the commands that end. *)
Definition run `{Chrono} `{SourceJson} `{Serialize EventEnvelope} `{Serialize DeadTriggerRecord}
    `{!BrokerDeadLetters B} `{Serialize DeadLetterLine} (o : Outside) (command : Command) : M C Exit unit :=
  match command with
  | Inject event_type payload => run_inject o event_type payload
  | LoadFile path => run_load_file o path
  | RetryDeadTriggers => run_retry o
  | Prune policy => run_prune o policy
  | Events command => run_events o command
  | DeadTriggers command => run_dead_triggers o command
  | WorklaneDlq command => run_worklane_dlq o command
  end.

(** [main]: what the process prints to its standard error, and its exit status; the
    message of a panic is not modelled. *)
Definition main (outcome : result Exit unit) : list string * Z :=
  match outcome with
  | Ok _ => ([], 0)
  | Err (Failed error) => ([CliError_to_string error], 1)
  | Err Panicked => ([], 101)
  end.
End pipeline.

(** *** Logging and signals *)

Definition LOG_FORMAT_ENV : string := "TRIGGERLANE_LOG_FORMAT".

Inductive LogFormat := JsonFormat | HumanFormat.

(** [init_logging]: the format it selects, by [eq_ignore_ascii_case]. *)
Definition init_logging (env : Env) : LogFormat :=
  match env LOG_FORMAT_ENV with
  | Some value => if bool_decide (to_ascii_lowercase value = "json") then JsonFormat else HumanFormat
  | None => HumanFormat
  end.

(** A future without a value: when it resolves, [None] when it never does. *)
Definition wait_for_first (a b : option Z) : option Z :=
  match a, b with
  | Some a, Some b => Some (Z.min a b)
  | Some a, None => Some a
  | None, b => b
  end.

(** [shutdown_signal] on Unix: when each signal arrives, and whether the handler of
    SIGTERM could be installed. *)
Definition shutdown_signal (ctrl_c : option Z) (installed : bool) (term : option Z) : option Z :=
  let interrupt := ctrl_c in
  let terminate := if installed then term else None in
  wait_for_first interrupt terminate.

(** ** The server *)

Record ServeConfig := mkServeConfig {
  sc_verifier : option WebhookVerifier;
  sc_read_auth : option ReadAuth;
  sc_request_timeout : option Z;
  sc_dispatch : option Z;
  sc_policy : AutoRetention;
  sc_interval : Z;
}.

Section serve.
Context `{UuidText} `{Worklane} `{Chrono} {S B Q K : Type}.
Context `{!EventStore S} `{!Broker B} `{!DeadTriggerQueue Q} `{!TraceSink K}.
Local Abbreviation I := (S * World B Q K)%type.

(** [serve] up to the listener: the settings it refuses, the recovery it runs
    before it takes traffic. *)
Definition serve_startup (env : Env) (runtime : TriggerRuntime) : M I CliError ServeConfig :=
  request_timeout ← lift (request_timeout env);
  _ ← mapM_err CliRuntime (recover_undelivered runtime);
  policy ← lift (auto_retention_from_env env);
  interval ← lift (retention_interval_from_env env);
  let verifier := WebhookVerifier_github ∘ as_bytes <$> nonempty_env env "TRIGGERLANE_WEBHOOK_SECRET" in
  let read_auth := mkReadAuth ∘ as_bytes <$> nonempty_env env "TRIGGERLANE_READ_TOKEN" in
  dispatch_tx ← (if env_flag_enabled env ASYNC_DISPATCH_ENV
                 then lift (Some <$> async_dispatch_capacity env) else mret None);
  mret (mkServeConfig verifier read_auth request_timeout dispatch_tx policy interval).

(** The events router [serve_ingest] mounts. *)
Definition serve_events `{HeaderMaps} `{Hex} `{Hmac} `{Deserialize IncomingEvent} {C} `{!Mpsc C}
    (config : ServeConfig) (runtime : TriggerRuntime) (fresh : EventId) (now : DateTime) (headers : HeaderMap)
    (body : bytes) : C * I → Response * (C * I) :=
  match sc_dispatch config with
  | Some _ =>
    let handler := mkAcceptEventHandler runtime in
    match sc_verifier config with
    | Some verifier => router_with_verifier (St := C * I) handler verifier fresh now headers body
    | None => router (St := C * I) handler fresh now headers body
    end
  | None =>
    let handler := mkIngestEventHandler runtime in
    λ '(c, i),
      let '(response, i') :=
        match sc_verifier config with
        | Some verifier => router_with_verifier (St := I) handler verifier fresh now headers body i
        | None => router (St := I) handler fresh now headers body i
        end in
      (response, (c, i'))
  end.

(** A request to the application, after axum's routing by the tables of [Http]. *)
Inductive AppRequest `{HeaderMaps} :=
| ToEvents (headers : HeaderMap) (body : bytes)
| ToRead (headers : HeaderMap) (request : ReadRequest)
| ToHealthz
| ToReadyz
| ToMetrics.

(** The application [serve_ingest] serves: the events router, the read router, the
    probes and the metrics. *)
Definition serve_ingest `{HeaderMaps} `{Hex} `{Hmac} `{SourceJson} `{Deserialize IncomingEvent} {C} `{!Mpsc C}
    (config : ServeConfig) (runtime : TriggerRuntime) (readiness : Readiness) (metrics : unit → string)
    (fresh : EventId) (now : DateTime) (request : AppRequest) : C * I → Response * (C * I) :=
  match request with
  | ToEvents headers body => serve_events config runtime fresh now headers body
  | ToRead headers request =>
    λ '(c, i), let '(response, i') := read_router runtime (sc_read_auth config) headers request i in (response, (c, i'))
  | ToHealthz => λ ci, (mkResponse healthz_route EmptyBody, ci)
  | ToReadyz => λ ci, (mkResponse (readyz_route readiness) EmptyBody, ci)
  | ToMetrics => λ ci, (metrics_route metrics, ci)
  end.

(** The loop of [spawn_dispatcher], over what it receives. *)
Fixpoint spawn_dispatcher (runtime : TriggerRuntime) (received : list EventEnvelope) (i : I) : I :=
  match received with
  | [] => i
  | event :: received => spawn_dispatcher runtime received (dispatch runtime event i).2
  end.

(** One tick of [spawn_maintenance], and what it logs. *)
Definition maintenance_tick (runtime : TriggerRuntime) (policy : AutoRetention) (now : DateTime) : M I io_error Z :=
  catch (on_world record_broker_metrics) ≫= λ _ : result Error unit,
  store ← gets fst;
  on_world (record_store_metrics store);;
  if is_unbounded policy then mret 0
  else
    events ← on_store (es_enforce_retention policy now);
    dead ← on_world (enforce_dead_trigger_retention policy now);
    mret (events + dead).

(** [tokio::time::interval] panics on a zero period, which ends the task before
    its first tick; otherwise every tick runs, whatever the last one returned. *)
Definition spawn_maintenance (runtime : TriggerRuntime) (policy : AutoRetention) (interval : Z)
    (ticks : list DateTime) (i : I) : I :=
  if interval =? 0 then i
  else foldl (λ i now, (maintenance_tick runtime policy now i).2) i ticks.
End serve.
