(* ===== verification/Serde.v ===== *)
(** * The documents: what [#[derive(Serialize, Deserialize)]] makes of the types

    The JSON forms of the records the program stores and of the documents it
    reads and answers, from the types' fields and their [#[serde]] attributes:
    [crates/triggerlane-core/src/event.rs] lines 13-106,
    [crates/triggerlane-storage/src/lib.rs] lines 560-565, [IncomingEvent] and
    [EventResponse] of the HTTP crate, [FileEvent] of the command line, and the
    configuration. A derived reader of a struct takes an object, with its fields
    in any order and unknown ones ignored unless they are denied, or an array of
    the fields in order; a field that occurs twice is an error. The messages of
    the errors are not [serde]'s. *)

From stdpp Require Import base strings list pretty.
From Stdlib Require Import ZArith Lia.
From S2P Require Import Prelude RustStd Event Trigger Retention Store Runtime Ingest Http JsonText Config Cli.

#[local] Existing Instance text_Json.

Class ToJson (T : Type) := to_json : T → json.
Class FromJson (T : Type) := from_json : json → result string T.

(** [serde_json::to_vec] and [from_slice] of such a type. A Rust [String] is
    well-formed UTF-8; a value of the model that is not one has no text. *)
Definition json_to_vec {T} `{ToJson T} : Serialize T := λ r,
  let b := write_json (to_json r) in if is_utf8 b then Ok b else Err "not a Rust string".
Definition json_from_str {T} `{FromJson T} : Deserialize T := λ b, v ← read_json b; from_json v.

(** ** Primitive types *)

Definition as_string (v : json) : result string string :=
  match v with JString s => Ok s | _ => Err "invalid type: expected a string" end.
Definition as_bool (v : json) : result string bool :=
  match v with JBool b => Ok b | _ => Err "invalid type: expected a boolean" end.
Definition as_unsigned (max : Z) (v : json) : result string Z :=
  match v with
  | JNumber t => match parse_u64 t with
                 | Some n => if (n <=? max)%Z then Ok n else Err "invalid value"
                 | None => Err "invalid type: expected an unsigned integer"
                 end
  | _ => Err "invalid type: expected an unsigned integer"
  end.
Definition as_u32 : json → result string Z := as_unsigned u32_max.
Definition as_u8 (v : json) : result string byte := n ← as_unsigned 255 v; Ok (RustStd.as_u8 n).
(** [-0] is a float. *)
Definition as_i32 (v : json) : result string Z :=
  match v with
  | JNumber "-0" => Err "invalid type: expected i32"
  | JNumber t => match parse_i64 t with
                 | Some n => if ((-2147483648 <=? n) && (n <=? 2147483647))%Z then Ok n else Err "invalid value"
                 | None => Err "invalid type: expected i32"
                 end
  | _ => Err "invalid type: expected i32"
  end.

Definition traverse {A B} (f : A → result string B) : list A → result string (list B) :=
  fix go l := match l with
              | [] => Ok []
              | x :: l => y ← f x; ys ← go l; Ok (y :: ys)
              end.
Definition as_list {A} (item : json → result string A) (v : json) : result string (list A) :=
  match v with JArray items => traverse item items | _ => Err "invalid type: expected a sequence" end.

Definition of_unsigned (n : N) : json := JNumber (pretty n).
Definition of_bool (b : bool) : json := JBool b.
Definition of_u8 (b : byte) : json := of_unsigned (Byte.to_N b).

(** [Vec<u8>] is an array of numbers; [Bytes] is written as one, and read from one
    or from a string. *)
Definition of_byte_vec (b : bytes) : json := JArray (of_u8 <$> b).
Definition as_byte_vec : json → result string bytes := as_list as_u8.
Definition as_byte_buf (v : json) : result string bytes :=
  match v with JString s => Ok (as_bytes s) | v => as_byte_vec v end.

(** [Option<String>]. *)
Definition of_option (o : option string) : json := match o with Some s => JString s | None => JNull end.
Definition as_option (v : json) : result string (option string) :=
  match v with JNull => Ok None | v => Some <$> as_string v end.

(** ** Structs *)

(** The fields a derived reader sees: [known] are the struct's, in order, and an
    array must hold at least the [required] first ones. *)
Definition as_struct (known : list string) (required : nat) (v : json) : result string (list (string * json)) :=
  match v with
  | JObject fields =>
    if forallb (λ k, bool_decide (length (filter (λ f, f.1 = k) fields) ≤ 1)%nat) known
    then Ok fields else Err "duplicate field"
  | JArray items =>
    if bool_decide (required ≤ length items ≤ length known)%nat then Ok (zip known items) else Err "invalid length"
  | _ => Err "invalid type: expected a struct"
  end.

Definition required {A} (key : string) (read : json → result string A) (fields : list (string * json)) : result string A :=
  match field key fields with Some v => read v | None => Err ("missing field " +:+ key) end.

(** [#[serde(default)]]; an [Option] has the default [None] without it. *)
Definition with_default {A} (d : A) (key : string) (read : json → result string A) (fields : list (string * json))
    : result string A :=
  match field key fields with Some v => read v | None => Ok d end.

(** [#[serde(deny_unknown_fields)]]. *)
Definition deny_unknown_fields (keys : list string) (fields : list (string * json)) : result string unit :=
  if forallb (λ f, bool_decide (f.1 ∈ keys)) fields then Ok tt else Err "unknown field".

(** ** The event model *)

(** The text of a [DateTime<Utc>] and its reader, [chrono]'s. *)
Class DateTimeText := {
  datetime_to_string : DateTime → string;
  datetime_from_string : string → result string DateTime;
}.

Definition variant_name (s : Source) : string :=
  match s with
  | Http => "Http" | GitHub => "GitHub" | Discord => "Discord" | Slack => "Slack" | Cron => "Cron" | Manual => "Manual"
  end.

Definition variant_of (name : string) : result string Source :=
  match List.find (λ s, bool_decide (name = variant_name s)) [Http; GitHub; Discord; Slack; Cron; Manual] with
  | Some s => Ok s
  | None => Err "unknown variant"
  end.

#[export] Instance Source_ToJson : ToJson Source := λ s, JString (variant_name s).
(** A unit variant is its name, or an object with the name and [null]. *)
#[export] Instance Source_FromJson : FromJson Source := λ v,
  match v with
  | JString name => variant_of name
  | JObject [(name, JNull)] => variant_of name
  | _ => Err "invalid type: expected a variant"
  end.

#[export] Instance EventType_ToJson : ToJson EventType := λ t, JString (as_str t).
#[export] Instance EventType_FromJson : FromJson EventType := λ v, mkEventType <$> as_string v.

Definition METADATA_FIELDS : list string := ["trace_id"; "correlation_id"; "tenant_id"; "idempotency_key"; "causation_id"].

Definition metadata_fields (m : EventMetadata) : list (string * json) :=
  [("trace_id", of_option (trace_id m)); ("correlation_id", of_option (correlation_id m));
   ("tenant_id", of_option (tenant_id m)); ("idempotency_key", of_option (idempotency_key m))]
  ++ match causation_id m with Some c => [("causation_id", JString c)] | None => [] end.

#[export] Instance EventMetadata_ToJson : ToJson EventMetadata := λ m, JObject (metadata_fields m).

#[export] Instance EventMetadata_FromJson : FromJson EventMetadata := λ v,
  fields ← as_struct METADATA_FIELDS 4 v;
  trace ← with_default None "trace_id" as_option fields;
  correlation ← with_default None "correlation_id" as_option fields;
  tenant ← with_default None "tenant_id" as_option fields;
  key ← with_default None "idempotency_key" as_option fields;
  causation ← with_default None "causation_id" as_option fields;
  Ok (mkEventMetadata trace correlation tenant key causation).

Section records.
Context `{UuidText} `{DateTimeText}.

#[export] Instance EventId_ToJson : ToJson EventId := λ id, JString (EventId_to_string id).
#[export] Instance EventId_FromJson : FromJson EventId := λ v, s ← as_string v; EventId_from_str s.

Definition of_datetime (t : DateTime) : json := JString (datetime_to_string t).
Definition as_datetime (v : json) : result string DateTime := s ← as_string v; datetime_from_string s.

Definition ENVELOPE_FIELDS : list string := ["id"; "source"; "event_type"; "payload"; "timestamp"; "metadata"].

Definition envelope_fields (e : EventEnvelope) (metadata : json) : list (string * json) :=
  [("id", to_json (ev_id e)); ("source", to_json (ev_source e)); ("event_type", to_json (ev_type e));
   ("payload", of_byte_vec (ev_payload e)); ("timestamp", of_datetime (ev_timestamp e)); ("metadata", metadata)].

#[export] Instance EventEnvelope_ToJson : ToJson EventEnvelope := λ e,
  JObject (envelope_fields e (to_json (ev_metadata e))).

#[export] Instance EventEnvelope_FromJson : FromJson EventEnvelope := λ v,
  fields ← as_struct ENVELOPE_FIELDS 6 v;
  id ← required "id" from_json fields;
  source ← required "source" from_json fields;
  event_type ← required "event_type" from_json fields;
  payload ← required "payload" as_byte_buf fields;
  timestamp ← required "timestamp" as_datetime fields;
  metadata ← required "metadata" from_json fields;
  Ok (mkEventEnvelope id source event_type payload timestamp metadata).

Definition RECORD_FIELDS : list string := ["event"; "trigger_name"; "error"].

Definition record_fields (r : DeadTriggerRecord) (event : json) : list (string * json) :=
  [("event", event); ("trigger_name", JString (dt_trigger_name r)); ("error", JString (dt_error r))].

#[export] Instance DeadTriggerRecord_ToJson : ToJson DeadTriggerRecord := λ r,
  JObject (record_fields r (to_json (dt_event r))).

#[export] Instance DeadTriggerRecord_FromJson : FromJson DeadTriggerRecord := λ v,
  fields ← as_struct RECORD_FIELDS 3 v;
  event ← required "event" from_json fields;
  trigger_name ← required "trigger_name" as_string fields;
  error ← required "error" as_string fields;
  Ok (mkDeadTriggerRecord event trigger_name error).
End records.

(** ** The inputs of events *)

Definition INCOMING_FIELDS : list string := ["event_type"; "payload"; "metadata"].

Definition incoming_fields (e : IncomingEvent) (metadata : json) : list (string * json) :=
  [("event_type", JString (in_event_type e)); ("payload", of_byte_vec (in_payload e)); ("metadata", metadata)].

#[export] Instance IncomingEvent_ToJson : ToJson IncomingEvent := λ e,
  JObject (incoming_fields e (to_json (in_metadata e))).

#[export] Instance IncomingEvent_FromJson : FromJson IncomingEvent := λ v,
  fields ← as_struct INCOMING_FIELDS 1 v;
  event_type ← required "event_type" as_string fields;
  payload ← with_default [] "payload" as_byte_vec fields;
  metadata ← with_default EventMetadata_default "metadata" from_json fields;
  Ok (mkIncomingEvent event_type payload metadata).

#[export] Instance FileEvent_FromJson : FromJson FileEvent := λ v,
  fields ← as_struct INCOMING_FIELDS 1 v;
  event_type ← required "event_type" as_string fields;
  payload ← with_default [] "payload" as_byte_vec fields;
  metadata ← with_default EventMetadata_default "metadata" from_json fields;
  Ok (mkFileEvent event_type payload metadata).

#[export] Instance list_FromJson {T} `{FromJson T} : FromJson (list T) := as_list from_json.

(** ** The answers *)

#[export] Instance EventResponse_ToJson : ToJson EventResponse := λ r,
  JObject [("event_id", JString (resp_event_id r)); ("submitted", JArray (JString <$> resp_submitted r));
           ("failure_count", of_unsigned (Z.to_N (resp_failure_count r))); ("accepted", of_bool (resp_accepted r))].

#[export] Instance ReplayRangeResponse_ToJson : ToJson ReplayRangeResponse := λ r,
  JObject [("matched", of_unsigned (Z.to_N (matched r))); ("dry_run", of_bool (resp_dry_run r))].

(** The body of an error. *)
Definition error_body (message : string) : json := JObject [("error", JString message)].

(** ** The configuration document

    The tag [type] selects the variant of a condition, whose other fields are
    free; that a condition may also be an array is not modelled. *)

Fixpoint read_match_spec (v : json) : result string MatchSpec :=
  fields ← match v with JObject _ => as_struct ["type"] 1 v | _ => Err "invalid type: expected a map" end;
  tag ← required "type" as_string fields;
  if bool_decide (tag = "event_type") then
    fields ← as_struct ["event_type"] 1 v; MatchEventType <$> required "event_type" as_string fields
  else if bool_decide (tag = "payload_field_equals") then
    fields ← as_struct ["pointer"; "value"] 2 v;
    ptr ← required "pointer" as_string fields; value ← required "value" Ok fields;
    Ok (MatchPayloadFieldEquals ptr value)
  else
    _ ← as_struct ["conditions"] 1 v;
    let conditions := match v with
                      | JObject fields =>
                        (fix find (fields : list (string * json)) : result string (list MatchSpec) :=
                           match fields with
                           | [] => Err "missing field conditions"
                           | (key, v) :: fields =>
                             if bool_decide (key = "conditions") then
                               match v with
                               | JArray items => traverse read_match_spec items
                               | _ => Err "invalid type: expected a sequence"
                               end
                             else find fields
                           end) fields
                      | _ => Err "invalid type: expected a map"
                      end in
    if bool_decide (tag = "all_of") then MatchAllOf <$> conditions
    else if bool_decide (tag = "any_of") then MatchAnyOf <$> conditions
    else Err "unknown variant".

Definition BIND_FIELDS : list string := ["lane"; "kind"; "max_attempts"].

Definition read_bind_spec (v : json) : result string BindSpec :=
  fields ← as_struct BIND_FIELDS 3 v;
  deny_unknown_fields BIND_FIELDS fields;;
  lane ← required "lane" as_string fields; kind ← required "kind" as_string fields;
  max_attempts ← required "max_attempts" as_u32 fields;
  Ok (mkBindSpec lane kind max_attempts).

Definition default_enabled : bool := true.

Definition ENTRY_FIELDS : list string := ["name"; "priority"; "enabled"; "match"; "bind"].

Definition read_trigger_entry (v : json) : result string TriggerEntry :=
  fields ← as_struct ENTRY_FIELDS 5 v;
  deny_unknown_fields ENTRY_FIELDS fields;;
  name ← required "name" as_string fields;
  priority ← with_default 0%Z "priority" as_i32 fields;
  enabled ← with_default default_enabled "enabled" as_bool fields;
  condition ← required "match" read_match_spec fields;
  bind ← required "bind" read_bind_spec fields;
  Ok (mkTriggerEntry name priority enabled condition bind).

#[export] Instance TriggerFile_FromJson : FromJson TriggerFile := λ v,
  fields ← as_struct ["triggers"] 1 v;
  deny_unknown_fields ["triggers"] fields;;
  mkTriggerFile <$> required "triggers" (as_list read_trigger_entry) fields.
