(* ===== verification/SerdeSpec.v ===== *)
(** * The documents read back

    What was written is read back, for every stored type; and what a derived
    reader tolerates: fields in any order, fields it does not know, and fields
    that were added to the type since the record was written. With the texts of
    [JsonTextSpec] the derived codecs have every property that the storage
    theorems assume of a codec ([JsonCodec]). *)

From stdpp Require Import base strings list pretty.
From Stdlib Require Import ZArith Lia.
From S2P Require Import Prelude RustStd Event Trigger Retention Store Jsonl JsonlSpec Runtime Ingest Http Config Cli.
From S2P Require Import JsonText JsonTextSpec Serde.

(** ** From values to texts *)

(** A type whose values have a delimited JSON form that reads back. *)
Class JsonRecord (T : Type) `{ToJson T} `{FromJson T} : Prop := {
  from_to_json (r : T) : from_json (to_json r) = Ok r;
  to_json_ok (r : T) : json_ok (to_json r) = true;
  to_json_delimited (r : T) : is_JNumber (to_json r) = false;
}.

Section codec.
Context {T : Type} `{JsonRecord T}.

Lemma json_to_vec_inv (r : T) b : json_to_vec r = Ok b → b = write_json (to_json r) ∧ is_utf8 b = true.
Proof. unfold json_to_vec. destruct (is_utf8 _) eqn:Hu; [|done]. by intros [= <-]. Qed.

(** The derived codec is one the storage theorems hold for. *)
Lemma json_codec : JsonCodec T (H := json_to_vec) (H0 := json_from_str).
Proof.
  constructor; unfold to_vec, from_str; intros r b.
  - intros [-> Hu]%json_to_vec_inv. unfold json_from_str.
    rewrite read_json_write by (done || apply to_json_ok). simpl. apply from_to_json.
  - intros [-> _]%json_to_vec_inv. apply write_json_printable, to_json_ok.
  - by intros [_ Hu]%json_to_vec_inv.
  - intros [-> _]%json_to_vec_inv. destruct (write_json_head (to_json r)) as (h & t & -> & Hh & _); [apply to_json_ok|]. eauto.
  - intros p [-> _]%json_to_vec_inv Hp Hne. unfold json_from_str.
    destruct (write_json_prefix (to_json r) p) as [e ->]; [apply to_json_ok|apply to_json_delimited|done..|]. by exists e.
Qed.

(** A value of Rust strings has a text. *)
Lemma json_to_vec_total (r : T) : json_utf8 (to_json r) = true → is_Some (match json_to_vec r with Ok b => Some b | Err _ => None end).
Proof. intros Hu. unfold json_to_vec. rewrite write_json_utf8; [by eexists|apply to_json_ok|done]. Qed.
End codec.

(** ** Primitive types *)

Lemma as_of_u8 b : as_u8 (of_u8 b) = Ok b.
Proof. destruct b; vm_compute; reflexivity. Qed.

Lemma of_u8_ok b : json_ok (of_u8 b) = true.
Proof. destruct b; vm_compute; reflexivity. Qed.

Lemma traverse_fmap {A B} (f : B → result string A) (g : A → B) l :
  (∀ x, f (g x) = Ok x) → traverse f (g <$> l) = Ok l.
Proof. intros Hf. induction l as [|x l IH]; [done|]. cbn. rewrite Hf. cbn. cbn in IH. by rewrite IH. Qed.

Lemma as_of_byte_vec b : as_byte_vec (of_byte_vec b) = Ok b.
Proof. apply traverse_fmap, as_of_u8. Qed.

Lemma of_byte_vec_ok b : json_ok (of_byte_vec b) = true ∧ json_utf8 (of_byte_vec b) = true.
Proof.
  split; apply List.forallb_forall; intros x (y & -> & _)%list_elem_of_In%list_elem_of_fmap; [apply of_u8_ok|done].
Qed.

Lemma as_of_option o : as_option (of_option o) = Ok o.
Proof. by destruct o. Qed.

(** ** Structs *)

(** [fields] are the fields [own] in some order, with others the struct does not
    know in between. *)
Definition extends (known : list string) (own fields : list (string * json)) : Prop :=
  ∃ extra, fields ≡ₚ own ++ extra ∧ Forall (λ f, f.1 ∉ known) extra.

Lemma extends_refl known own : extends known own own.
Proof. exists []. by rewrite app_nil_r. Qed.

Lemma field_head key fields : field key fields = snd <$> head (filter (λ f, f.1 = key) fields).
Proof.
  unfold field. induction fields as [|f fields IH]; [done|]. simpl. rewrite filter_cons.
  destruct (decide (f.1 = key)) as [Hk|Hk]; [by rewrite bool_decide_true|by rewrite bool_decide_false].
Qed.

Lemma field_occurrences key own : NoDup own.*1 → (length (filter (λ f : string * json, f.1 = key) own) ≤ 1)%nat.
Proof.
  induction own as [|f own IH]; simpl; [lia|]. intros [Hf Hn]%NoDup_cons. rewrite filter_cons.
  case_decide as Hk; [|by apply IH]. simpl. rewrite list_eq_nil_filter; [done|].
  intros f' Hf' Hk'. apply Hf. rewrite Hk, <-Hk'. apply list_elem_of_fmap. eauto.
Qed.

Lemma extends_filter known own fields key :
  NoDup own.*1 → key ∈ known → extends known own fields →
  filter (λ f : string * json, f.1 = key) fields = filter (λ f, f.1 = key) own.
Proof.
  intros Hn Hk (extra & Hp & He). apply (filter_Permutation (λ f, f.1 = key)) in Hp.
  rewrite filter_app, (list_eq_nil_filter _ extra), app_nil_r in Hp.
  2: { intros f Hf <-. rewrite Forall_forall in He. by apply (He f). }
  pose proof (field_occurrences key own Hn) as Hl. destruct (filter _ own) as [|f [|]]; simpl in Hl; [| |lia].
  - by apply Permutation_nil_r in Hp.
  - by apply Permutation_singleton_r in Hp.
Qed.

Lemma extends_field known own fields key :
  NoDup own.*1 → key ∈ known → extends known own fields → field key fields = field key own.
Proof. intros. rewrite !field_head. by erewrite extends_filter. Qed.

Lemma extends_struct known n own fields :
  NoDup own.*1 → extends known own fields → as_struct known n (JObject fields) = Ok fields.
Proof.
  intros Hn He. unfold as_struct. rewrite (proj2 (List.forallb_forall _ _)); [done|].
  intros k Hk. apply bool_decide_eq_true. erewrite extends_filter; [|done|by apply list_elem_of_In|done].
  by apply field_occurrences.
Qed.

Ltac distinct_keys := apply (bool_decide_unpack _); vm_compute; exact I.

(** *** The event model *)

Lemma metadata_fields_nodup m : NoDup (metadata_fields m).*1.
Proof. destruct m as [? ? ? ? [c|]]; distinct_keys. Qed.

Lemma metadata_reads m fields :
  extends METADATA_FIELDS (metadata_fields m) fields → from_json (JObject fields) = Ok m.
Proof.
  intros He. pose proof (metadata_fields_nodup m) as Hn. unfold from_json, EventMetadata_FromJson.
  rewrite (extends_struct _ _ _ _ Hn He). cbn [mbind result_bind]. unfold with_default.
  rewrite !(λ k Hk, extends_field _ _ fields k Hn Hk He) by distinct_keys.
  by destruct m as [[?|] [?|] [?|] [?|] [?|]].
Qed.

#[export] Instance EventMetadata_JsonRecord : JsonRecord EventMetadata.
Proof.
  constructor; [intros m; apply metadata_reads, extends_refl| |done].
  by intros [[?|] [?|] [?|] [?|] [?|]].
Qed.

#[export] Instance Source_JsonRecord : JsonRecord Source.
Proof. constructor; by intros []. Qed.

#[export] Instance EventType_JsonRecord : JsonRecord EventType.
Proof. constructor; by intros []. Qed.

(** What [chrono] documents: the text of an instant reads back. *)
Class DateTimeTextLaws `{DateTimeText} : Prop := {
  datetime_from_to t : datetime_from_string (datetime_to_string t) = Ok t;
}.

Section stored.
Context `{UuidText} `{!UuidTextLaws} `{DateTimeText} `{!DateTimeTextLaws}.

#[export] Instance EventId_JsonRecord : JsonRecord EventId.
Proof. constructor; [|done..]. intros id. apply EventId_from_to_string. Qed.

Lemma as_of_datetime t : as_datetime (of_datetime t) = Ok t.
Proof. apply datetime_from_to. Qed.

(** An event reads back from its fields in any order, with unknown ones among
    them, and its metadata too. *)
Lemma envelope_reads e metadata fields :
  extends METADATA_FIELDS (metadata_fields (ev_metadata e)) metadata →
  extends ENVELOPE_FIELDS (envelope_fields e (JObject metadata)) fields →
  from_json (JObject fields) = Ok e.
Proof.
  intros Hm He. assert (NoDup (envelope_fields e (JObject metadata)).*1) as Hn by distinct_keys.
  unfold from_json, EventEnvelope_FromJson. rewrite (extends_struct _ _ _ _ Hn He). cbn [mbind result_bind]. unfold required.
  rewrite !(λ k Hk, extends_field _ _ fields k Hn Hk He) by distinct_keys.
  change (from_json (to_json (ev_id e)) ≫= (λ id, from_json (to_json (ev_source e)) ≫= λ source,
    from_json (to_json (ev_type e)) ≫= λ event_type, as_byte_buf (of_byte_vec (ev_payload e)) ≫= λ payload,
    as_datetime (of_datetime (ev_timestamp e)) ≫= λ timestamp, from_json (JObject metadata) ≫= λ metadata,
    Ok (mkEventEnvelope id source event_type payload timestamp metadata)) = Ok e).
  rewrite !from_to_json, (metadata_reads _ _ Hm), as_of_datetime.
  change (as_byte_buf (of_byte_vec (ev_payload e))) with (as_byte_vec (of_byte_vec (ev_payload e))).
  rewrite as_of_byte_vec. by destruct e.
Qed.

Lemma envelope_fields_ok e metadata : json_ok metadata = true → json_ok (JObject (envelope_fields e metadata)) = true.
Proof.
  intros Hm. unfold envelope_fields. cbn [json_ok forallb snd]. rewrite Hm. destruct (of_byte_vec_ok (ev_payload e)) as [-> _].
  by destruct e as [? [] ? ? ? ?].
Qed.

#[export] Instance EventEnvelope_JsonRecord : JsonRecord EventEnvelope.
Proof.
  constructor; [intros e; eapply envelope_reads; apply extends_refl| |done].
  intros e. apply envelope_fields_ok, to_json_ok.
Qed.

Lemma record_reads r event fields :
  from_json event = Ok (dt_event r) → extends RECORD_FIELDS (record_fields r event) fields →
  from_json (JObject fields) = Ok r.
Proof.
  intros Hev He. assert (NoDup (record_fields r event).*1) as Hn by distinct_keys.
  unfold from_json, DeadTriggerRecord_FromJson. rewrite (extends_struct _ _ _ _ Hn He). cbn [mbind result_bind]. unfold required.
  rewrite !(λ k Hk, extends_field _ _ fields k Hn Hk He) by distinct_keys.
  change (from_json event ≫= (λ event, Ok (mkDeadTriggerRecord event (dt_trigger_name r) (dt_error r))) = Ok r).
  rewrite Hev. by destruct r.
Qed.

#[export] Instance DeadTriggerRecord_JsonRecord : JsonRecord DeadTriggerRecord.
Proof.
  constructor; [intros r; eapply record_reads; [apply from_to_json|apply extends_refl]| |done].
  intros r. pose proof (to_json_ok (dt_event r)) as He. unfold to_json, DeadTriggerRecord_ToJson, record_fields.
  cbn [json_ok forallb snd]. by rewrite He.
Qed.

Lemma incoming_reads e metadata fields :
  from_json metadata = Ok (in_metadata e) → extends INCOMING_FIELDS (incoming_fields e metadata) fields →
  from_json (JObject fields) = Ok e.
Proof.
  intros Hm He. assert (NoDup (incoming_fields e metadata).*1) as Hn by distinct_keys.
  unfold from_json, IncomingEvent_FromJson. rewrite (extends_struct _ _ _ _ Hn He). cbn [mbind result_bind].
  unfold required, with_default. rewrite !(λ k Hk, extends_field _ _ fields k Hn Hk He) by distinct_keys.
  change (as_byte_vec (of_byte_vec (in_payload e)) ≫= (λ payload, from_json metadata ≫= λ metadata,
    Ok (mkIncomingEvent (in_event_type e) payload metadata)) = Ok e).
  rewrite as_of_byte_vec. cbn [mbind result_bind]. rewrite Hm. by destruct e.
Qed.

#[export] Instance IncomingEvent_JsonRecord : JsonRecord IncomingEvent.
Proof.
  constructor; [intros e; eapply incoming_reads; [apply from_to_json|apply extends_refl]| |done].
  intros e. pose proof (to_json_ok (in_metadata e)) as Hm. destruct (of_byte_vec_ok (in_payload e)) as [Hp _].
  unfold to_json, IncomingEvent_ToJson, incoming_fields. cbn [json_ok forallb snd]. by rewrite Hp, Hm.
Qed.

(** *** The theorem *)

(** The strings of an event are Rust strings. *)
Definition rust_strings (e : EventEnvelope) : Prop := json_utf8 (to_json e) = true.

(** C22: the stored form of an event. Its JSON text reads back as the event, is one
    line, and no proper prefix of it is a document, so a torn line is never
    taken for a record. It is read back from the same fields in any order, in the
    metadata too, with fields among them that the types do not know, and without
    the causation id where there is none: a store written before the field
    existed, or after others are added, still reads. An event of well-formed
    strings has a text. *)
Theorem stored_event_reads_back e :
  (∀ b, json_to_vec e = Ok b →
     json_from_str b = Ok e ∧ (newline ∉ b) ∧ ∀ p, p `prefix_of` b → p ≠ b → ∃ x, json_from_str (T := EventEnvelope) p = Err x) ∧
  (∀ metadata fields,
     extends METADATA_FIELDS (metadata_fields (ev_metadata e)) metadata →
     extends ENVELOPE_FIELDS (envelope_fields e (JObject metadata)) fields →
     from_json (JObject fields) = Ok e) ∧
  (rust_strings e → ∃ b, json_to_vec e = Ok b).
Proof.
  pose proof (json_codec (T := EventEnvelope)) as Hc. split; [|split].
  - intros b Hb. split; [exact (@from_str_to_vec _ _ _ Hc e b Hb)|].
    split; [|intros p Hp Hne; exact (@from_str_prefix _ _ _ Hc e b p Hb Hp Hne)].
    apply printable_no_newline. exact (@to_vec_printable _ _ _ Hc e b Hb).
  - intros metadata fields. apply envelope_reads.
  - intros Hu. pose proof (json_to_vec_total e Hu) as [b Hb]. exists b. by destruct (json_to_vec e); [injection Hb as ->|].
Qed.
End stored.
