(* ===== verification/SerdeRuns.v ===== *)
(** * Sample runs of the documents

    The stored form of a sample event and the store that holds it, with the ids of
    [Samples] and a text of instants of the same kind. *)

From stdpp Require Import base countable strings list.
From Stdlib Require Import ZArith Lia.
From S2P Require Import Prelude RustStd Event Trigger Retention Store FileSystem Jsonl FileStore Samples StorageRuns.
From S2P Require Import Runtime Ingest Http Config Cli Testing JsonText Serde SerdeSpec.

#[export] Instance sample_DateTimeText : DateTimeText := {
  datetime_to_string t := of_bytes (digits (encode t));
  datetime_from_string s :=
    match read_digits (as_bytes s) ≫= decode with Some t => Ok t | None => Err "invalid instant" end;
}.

#[export] Instance sample_DateTimeTextLaws : DateTimeTextLaws.
Proof.
  constructor. intros t. unfold datetime_from_string, datetime_to_string, sample_DateTimeText.
  rewrite as_of_bytes, read_digits_digits. cbn [mbind option_bind]. by rewrite decode_encode.
Qed.

(** The metadata of [event1] with its fields in another order and one unknown, and
    the event's fields around it, with an unknown one in front. *)
Definition later_metadata : list (string * json) :=
  [("region", JString "eu")] ++ reverse (metadata_fields (ev_metadata event1)).
Definition later_fields : list (string * json) :=
  ("schema", JNumber "2") :: envelope_fields event1 (JObject later_metadata).

Definition event1_text : bytes := match json_to_vec event1 with Ok b => b | Err _ => [] end.

Lemma stored_event_reads_back_witness :
  json_from_str event1_text = Ok event1 ∧ from_json (JObject later_fields) = Ok event1 ∧ ∃ b, json_to_vec event1 = Ok b.
Proof.
  destruct (stored_event_reads_back event1) as (Htext & Hfields & Htotal). split; [|split].
  - apply Htext. vm_compute. reflexivity.
  - apply (Hfields later_metadata).
    + exists [("region", JString "eu")]. split; [|repeat constructor; apply (bool_decide_unpack _); vm_compute; exact I].
      unfold later_metadata. rewrite reverse_Permutation. apply Permutation_app_comm.
    + exists [("schema", JNumber "2")]. split; [|repeat constructor; apply (bool_decide_unpack _); vm_compute; exact I].
      apply Permutation_cons_append.
  - apply Htotal. vm_compute. reflexivity.
Defined.

(** A line as the store writes it: the fields in order, no causation id, the
    payload as numbers. *)
Definition small_event : EventEnvelope :=
  {| ev_id := mkEventId 0; ev_source := GitHub; ev_type := mkEventType "a"; ev_payload := as_bytes "{}";
     ev_timestamp := 0%Z; ev_metadata := EventMetadata_default |}.

Definition quoted_text (s : string) : string := of_bytes (write_string s).

Example small_event_line :
  json_to_vec small_event = Ok (as_bytes (String.concat ""
    ["{"; quoted_text "id"; ":"; quoted_text (EventId_to_string (mkEventId 0)); ","; quoted_text "source"; ":"; quoted_text "GitHub"; ",";
     quoted_text "event_type"; ":"; quoted_text "a"; ","; quoted_text "payload"; ":[123,125],"; quoted_text "timestamp"; ":";
     quoted_text (datetime_to_string 0%Z); ","; quoted_text "metadata"; ":{"; quoted_text "trace_id"; ":null,";
     quoted_text "correlation_id"; ":null,"; quoted_text "tenant_id"; ":null,"; quoted_text "idempotency_key"; ":null}}"])).
Proof. vm_compute. reflexivity. Qed.
