(* ===== verification/Durations.v ===== *)
(** * Parsing numbers and durations

    Exactly which texts [str::parse] for integers and [parse_duration] accept,
    and what they mean. *)

From stdpp Require Import base strings list.
From Stdlib Require Import ZArith Lia.
From S2P Require Import Prelude RustStd Event Trigger Retention Runtime Http Config Cli.
Local Open Scope Z_scope.

(** ** Decimal numbers *)

Definition is_digit (c : Z) : Prop := 48 <= c <= 57.
Definition is_digits (ds : list Z) : Prop := ds ≠ [] ∧ Forall is_digit ds.

(** The number that digits denote, after [acc]. *)
Definition digits_from (acc : Z) (ds : list Z) : Z := foldl (λ acc c, acc * 10 + (c - 48)) acc ds.
Abbreviation digits_value := (digits_from 0).

Lemma digit_Some c d : digit c = Some d ↔ is_digit c ∧ d = c - 48.
Proof.
  unfold digit, is_digit. destruct (between 48 57 c) eqn:Hb.
  - apply between_true in Hb. split; [intros [= <-]; done|]. by intros [_ ->].
  - apply between_false in Hb. by split; [|intros [? _]].
Qed.

Lemma digits_from_ge acc ds : 0 <= acc → Forall is_digit ds → acc <= digits_from acc ds.
Proof.
  intros Ha Hd. revert acc Ha. induction Hd as [|c ds Hc Hd IH]; intros acc Ha; simpl; [lia|].
  unfold is_digit in Hc. specialize (IH (acc * 10 + (c - 48)) ltac:(lia)). lia.
Qed.

(** Overflow in the middle of the digits is overflow of the number. *)
Lemma parse_digits_pos lo hi acc ds n :
  lo <= 0 → 0 <= acc <= hi →
  parse_digits lo hi false acc ds = Some n ↔ Forall is_digit ds ∧ n = digits_from acc ds ∧ n <= hi.
Proof.
  intros Hlo. revert acc. induction ds as [|c ds IH]; intros acc Ha; simpl.
  { split; [intros [= <-]; split; [constructor|lia]|]. intros (_ & -> & _). done. }
  rewrite Forall_cons. destruct (digit c) as [d|] eqn:Hd; simpl.
  - apply digit_Some in Hd as [Hc ->]. unfold is_digit in Hc.
    destruct (between lo hi _) eqn:Hb.
    + apply between_true in Hb. rewrite IH by lia. unfold is_digit. tauto.
    + apply between_false in Hb. split; [done|]. intros ([_ Hds] & -> & Hhi).
      pose proof (digits_from_ge (acc * 10 + (c - 48)) ds ltac:(lia) Hds). lia.
  - split; [done|]. intros ([Hc _] & _). by rewrite (proj2 (digit_Some _ _) (conj Hc eq_refl)) in Hd.
Qed.

Lemma parse_digits_neg lo hi acc ds n :
  0 <= hi → 0 <= acc → lo <= - acc →
  parse_digits lo hi true (- acc) ds = Some n ↔ Forall is_digit ds ∧ n = - digits_from acc ds ∧ lo <= n.
Proof.
  intros Hhi. revert acc. induction ds as [|c ds IH]; intros acc Ha Hlo; simpl.
  { split; [intros [= <-]; split; [constructor|lia]|]. by intros (_ & -> & _). }
  rewrite Forall_cons. destruct (digit c) as [d|] eqn:Hd; simpl.
  - apply digit_Some in Hd as [Hc ->]. unfold is_digit in Hc.
    replace (- acc * 10 - (c - 48)) with (- (acc * 10 + (c - 48))) by lia.
    destruct (between lo hi _) eqn:Hb.
    + apply between_true in Hb. rewrite IH by lia. unfold is_digit. tauto.
    + apply between_false in Hb. split; [done|]. intros ([_ Hds] & -> & Hn).
      pose proof (digits_from_ge (acc * 10 + (c - 48)) ds ltac:(lia) Hds). lia.
  - split; [done|]. intros ([Hc _] & _). by rewrite (proj2 (digit_Some _ _) (conj Hc eq_refl)) in Hd.
Qed.

(** What [str::parse] accepts for an integer type with the range [lo..=hi]. *)
Lemma parse_int_spec lo hi cs n :
  lo <= 0 <= hi →
  parse_int lo hi cs = Some n ↔
  ∃ sign ds, cs = sign ++ ds ∧ is_digits ds ∧
    ((sign = [] ∨ sign = [43]) ∧ n = digits_value ds ∧ n <= hi ∨
     sign = [45] ∧ lo < 0 ∧ n = - digits_value ds ∧ lo <= n).
Proof.
  intros Hr.
  assert (∀ ds m, parse_digits lo hi false 0 ds = Some m ↔ Forall is_digit ds ∧ m = digits_value ds ∧ m <= hi)
    as Hpos by (intros; apply parse_digits_pos; lia).
  assert (∀ ds m, parse_digits lo hi true 0 ds = Some m ↔ Forall is_digit ds ∧ m = - digits_value ds ∧ lo <= m)
    as Hneg by (intros; apply (parse_digits_neg lo hi 0); lia).
  split.
  - unfold parse_int. destruct cs as [|c [|c' cs]]; [done| |].
    + destruct (_ || _) eqn:Hc; [done|]. rewrite Hpos. intros (Hd & Hn & Hh).
      exists [], [c]. split; [done|]. split; [by split|]. left. auto.
    + destruct (Z.eqb_spec c 43) as [->|Hc]; [|destruct (Z.eqb_spec c 45) as [->|Hc']; simpl andb].
      * rewrite Hpos. intros (Hd & Hn & Hh). exists [43], (c' :: cs). split; [done|]. split; [by split|]. left. auto.
      * destruct (Z.ltb_spec lo 0).
        -- rewrite Hneg. intros (Hd & Hn & Hh). exists [45], (c' :: cs). split; [done|]. split; [by split|]. right. auto.
        -- rewrite Hpos. intros (Hd & Hn & Hh). exists [], (45 :: c' :: cs). split; [done|]. split; [by split|]. left. auto.
      * rewrite Hpos. intros (Hd & Hn & Hh). exists [], (c :: c' :: cs). split; [done|]. split; [by split|]. left. auto.
  - intros (sign & ds & -> & [Hne Hd] & [([-> | ->] & Hn & Hh)|(-> & Hlo & Hn & Hl)]).
    + destruct ds as [|c ds]; [done|]. pose proof Hd as Hc. apply Forall_cons in Hc as [Hc _]. unfold is_digit in Hc.
      assert (parse_int lo hi ([] ++ c :: ds) = parse_digits lo hi false 0 (c :: ds)) as ->; [|by rewrite Hpos].
      unfold parse_int. simpl app. pose proof (proj2 (Z.eqb_neq c 43) ltac:(lia)) as H43.
      pose proof (proj2 (Z.eqb_neq c 45) ltac:(lia)) as H45. destruct ds; by rewrite H43, H45.
    + destruct ds as [|c ds]; [done|].
      change (parse_int lo hi ([43] ++ c :: ds)) with (parse_digits lo hi false 0 (c :: ds)). by rewrite Hpos.
    + destruct ds as [|c ds]; [done|].
      change (parse_int lo hi ([45] ++ c :: ds)) with
        (if lo <? 0 then parse_digits lo hi true 0 (c :: ds) else parse_digits lo hi false 0 (45 :: c :: ds)).
      rewrite (proj2 (Z.ltb_lt _ _)) by done. by rewrite Hneg.
Qed.

(** ** The last character *)

(** A text ends in an ASCII character exactly when its bytes do. *)
Lemma utf8_decode_last bs cs c :
  utf8_decode bs = Some (cs ++ [c]) → c < 128 → ∃ front b, bs = front ++ [b] ∧ u8 b = c.
Proof.
  revert cs. induction bs as [bs IH] using (well_founded_induction (well_founded_ltof _ length)).
  assert (Hrec : ∀ first r x cs, (length r < length bs)%nat → bs = first ++ r →
    cons x <$> utf8_decode r = Some (cs ++ [c]) → c < 128 → 128 <= x ∨ (∃ b, first = [b] ∧ u8 b = x) →
    ∃ front b, bs = front ++ [b] ∧ u8 b = c).
  { intros first r x cs Hl -> He Hc Hx. destruct (utf8_decode r) as [k|] eqn:Hk; [|done]. simpl in He.
    injection He as He. destruct cs as [|y cs]; simpl in He; injection He as -> ->.
    - destruct Hx as [|(b & -> & Hb)]; [lia|]. exists [], b. split; [|done].
      destruct r as [|b' r]; [done|]. exfalso. clear -Hk. revert Hk. simpl.
      repeat (case_match; try done); by destruct (utf8_decode _).
    - destruct (IH r ltac:(unfold ltof; done) cs Hk Hc) as (front & b & -> & Hb).
      exists (first ++ front), b. by rewrite app_assoc. }
  destruct bs as [|b0 r0]; intros cs He Hc; [by destruct cs|]. simpl in He.
  destruct (Z.ltb_spec (u8 b0) 128).
  { eapply (Hrec [b0] r0 (u8 b0)); [simpl; lia|done|exact He|done|eauto]. }
  pose proof (u8_range b0). destruct r0 as [|b1 r1]; [done|]. pose proof (u8_range b1).
  destruct (between 194 223 (u8 b0)) eqn:Hb0.
  { destruct (cont b1) eqn:Hb1; [|done]. unfold cont in Hb1. apply between_true in Hb0, Hb1.
    eapply (Hrec [b0; b1] r1); [simpl; lia|done|exact He|done|]. left. unfold char2. lia. }
  destruct r1 as [|b2 r2]; [done|]. pose proof (u8_range b2).
  destruct (between 224 239 (u8 b0)) eqn:Hb3.
  { destruct (second3 b0 b1 && cont b2) eqn:Hb1; [|done]. apply andb_true_iff in Hb1 as [Hb1 Hb2].
    apply between_true in Hb3, Hb2. eapply (Hrec [b0; b1; b2] r2); [simpl; lia|done|exact He|done|].
    left. unfold char3, second3, cont in *.
    destruct (Z.eqb_spec (u8 b0) 224); [|destruct (Z.eqb_spec (u8 b0) 237)]; apply between_true in Hb1; lia. }
  destruct r2 as [|b3 r3]; [done|]. destruct (_ && cont b3) eqn:Hb4; [|done].
  rewrite !andb_true_iff in Hb4. destruct Hb4 as [[[Hb4 Hb1] Hb2] Hb5]. apply between_true in Hb4, Hb2, Hb5.
  eapply (Hrec [b0; b1; b2; b3] r3); [simpl; lia|done|exact He|done|].
  left. unfold char4, second4, cont in *.
  destruct (Z.eqb_spec (u8 b0) 240); [|destruct (Z.eqb_spec (u8 b0) 244)]; apply between_true in Hb1; lia.
Qed.

(** ** [parse_duration] *)

(** The seconds of one unit. *)
Definition unit_factor (letter : Z) : option Z :=
  if letter =? 115 then Some 1 else if letter =? 109 then Some 60
  else if letter =? 104 then Some 3600 else if letter =? 100 then Some 86400 else None.

Lemma unit_seconds_spec amount letter n :
  0 <= amount <= i64_max →
  unit_seconds amount letter = Some n ↔
  ∃ factor, unit_factor letter = Some factor ∧ n = amount * factor ∧ n <= i64_max.
Proof.
  intros Ha. unfold unit_seconds, unit_factor, checked_mul_i64, i64_max, i64_min in *.
  assert (∀ k, 0 < k → (if between (- 2 ^ 63) (2 ^ 63 - 1) (amount * k) then Some (amount * k) else None) = Some n ↔
    ∃ factor, Some k = Some factor ∧ n = amount * factor ∧ n <= 2 ^ 63 - 1) as Hk.
  { intros k Hk. destruct (between _ _ (amount * k)) eqn:Hb.
    - apply between_true in Hb. split; [intros [= <-]; exists k; split; [done|lia]|]. by intros (? & [= <-] & -> & _).
    - apply between_false in Hb. split; [done|]. intros (? & [= <-] & -> & ?). nia. }
  destruct (Z.eqb_spec letter 115); [|repeat (case_match; [by apply Hk|])].
  - split; [intros [= <-]; exists 1; split; [done|lia]|]. intros (? & [= <-] & -> & _). f_equal. lia.
  - split; [done|]. by intros (? & ? & _).
Qed.

Lemma unit_factor_range letter f : unit_factor letter = Some f → 0 < f ∧ 0 <= letter < 128.
Proof. unfold unit_factor. repeat case_match; intros ?; simplify_eq; split; try lia. Qed.

Lemma unit_to_duration `{Chrono} amount letter e :
  0 <= amount <= i64_max →
  (seconds ← unit_seconds amount letter; try_seconds seconds) = Some e ↔
  ∃ factor, unit_factor letter = Some factor ∧ e = amount * factor * nanos_per_sec ∧ amount * factor * 1000 <= i64_max.
Proof.
  intros Ha. pose proof (unit_seconds_spec amount letter) as Hu.
  destruct (unit_seconds amount letter) as [s|] eqn:Hs; simpl.
  - destruct (proj1 (Hu s Ha) eq_refl) as (f & Hl & -> & Hm). rewrite try_seconds_spec.
    destruct (unit_factor_range letter f Hl) as [Hf _]. destruct (between _ _ _) eqn:Hb.
    + apply between_true in Hb. split; [intros [= <-]; exists f; split; [done|lia]|].
      intros (f' & Hl' & -> & _). congruence.
    + apply between_false in Hb. split; [done|]. intros (f' & Hl' & _ & ?). unfold i64_max in *.
      assert (f' = f) as -> by congruence. nia.
  - split; [done|]. intros (f & Hl & -> & Hm). destruct (unit_factor_range letter f Hl) as [Hf _].
    assert (None = Some (amount * f)) by (apply (Hu (amount * f) Ha); exists f; split; [done|]; nia). done.
Qed.

(** The text before an ASCII letter at its end. *)
Lemma amount_text raw front b :
  as_bytes raw = front ++ [b] → u8 b < 128 →
  of_bytes (take (length (as_bytes raw) - len_utf8 (u8 b)) (as_bytes raw)) = of_bytes front.
Proof.
  intros -> Hb. unfold len_utf8. rewrite (proj2 (Z.ltb_lt _ _)) by done. f_equal.
  rewrite length_app, Nat.add_sub. apply take_app_length.
Qed.

Lemma parse_i64_spec bs n :
  parse_i64 (of_bytes bs) = Some n ↔
  ∃ sign ds, u8 <$> bs = sign ++ ds ∧ is_digits ds ∧
    ((sign = [] ∨ sign = [43]) ∧ n = digits_value ds ∧ n <= i64_max ∨
     sign = [45] ∧ n = - digits_value ds ∧ i64_min <= n).
Proof.
  unfold parse_i64. rewrite as_of_bytes, parse_int_spec by (unfold i64_min, i64_max; lia).
  assert (i64_min < 0) by done.
  split; intros (sign & ds & Hb & Hd & [Hs|Hs]); exists sign, ds; (split; [done|]); (split; [done|]); tauto.
Qed.

(** Soundness and completeness of the parser. *)
Lemma parse_duration_iff `{Chrono} raw d :
  parse_duration raw = Some d ↔
  ∃ sign ds letter factor, u8 <$> as_bytes raw = sign ++ ds ++ [letter] ∧ is_digits ds ∧
    unit_factor letter = Some factor ∧
    (sign = [] ∨ sign = [43] ∨ sign = [45] ∧ digits_value ds = 0) ∧
    d = digits_value ds * factor * nanos_per_sec ∧ digits_value ds * factor * 1000 <= i64_max.
Proof.
  split.
  - unfold parse_duration, chars. destruct (utf8_decode (as_bytes raw)) as [cs|] eqn:Hcs; [|done]. simpl.
    destruct (last cs) as [unit|] eqn:Hl; [|done]. simpl. apply last_Some in Hl as [cs' ->].
    destruct (parse_i64 _) as [amount|] eqn:Ham; [|done]. simpl. destruct (Z.ltb_spec amount 0) as [|Hpos]; [done|].
    intros Hd. assert (amount <= i64_max) as Hmax.
    { apply parse_i64_spec in Ham as (? & ds & _ & [_ Hds] & [(_ & _ & ?)|(_ & -> & _)]); [done|].
      pose proof (digits_from_ge 0 ds ltac:(lia) Hds). unfold i64_max. lia. }
    apply unit_to_duration in Hd as (f & Hf & -> & Hr); [|lia].
    destruct (unit_factor_range _ _ Hf) as [_ Hu].
    destruct (utf8_decode_last _ _ _ Hcs) as (front & b & Hb & <-); [lia|].
    rewrite (amount_text raw front b Hb) in Ham by lia.
    apply parse_i64_spec in Ham as (sign & ds & Hfr & Hds & Hs). exists sign, ds, (u8 b), f.
    rewrite Hb, fmap_app, Hfr, <-app_assoc. split; [done|]. split; [done|]. split; [done|].
    pose proof (digits_from_ge 0 ds ltac:(lia) (proj2 Hds)).
    destruct Hs as [([-> | ->] & -> & _)|(-> & -> & _)]; [auto..|].
    assert (digits_value ds = 0) as -> by lia. split; [auto|]. by rewrite Z.opp_0 in *.
  - intros (sign & ds & letter & f & Hraw & Hds & Hf & Hs & -> & Hr).
    destruct (unit_factor_range _ _ Hf) as [Hf0 Hu]. pose proof (digits_from_ge 0 ds ltac:(lia) (proj2 Hds)) as Hge.
    rewrite app_assoc in Hraw. apply fmap_app_inv in Hraw as (front & last_ & Hfront & Hlast & Hb).
    destruct last_ as [|b [|]]; try done. injection Hlast as Hlast.
    assert (Forall (λ c, u8 c < 128) (as_bytes raw)) as Hascii.
    { rewrite Hb. apply Forall_app. split; [|repeat constructor; lia].
      assert (Forall (λ c, c < 128) (u8 <$> front)) as Hfr by (rewrite <-Hfront; apply Forall_app; split;
        [destruct Hs as [->|[->|[-> _]]]; repeat constructor
        |eapply Forall_impl; [exact (proj2 Hds)|unfold is_digit; simpl; lia]]).
      by rewrite Forall_fmap in Hfr. }
    unfold parse_duration, chars. rewrite (utf8_decode_ascii _ Hascii). simpl. rewrite Hb at 1.
    rewrite fmap_app. simpl. rewrite last_snoc. simpl. rewrite (amount_text raw front b Hb) by lia.
    assert (digits_value ds <= i64_max) as Hmax by nia.
    assert (parse_i64 (of_bytes front) = Some (digits_value ds)) as ->.
    { apply parse_i64_spec. exists sign, ds. split; [done|]. split; [done|].
      destruct Hs as [->|[->|[-> Hz]]]; [auto..|]. right. rewrite Hz. done. }
    simpl. rewrite (proj2 (Z.ltb_ge _ _)) by lia. rewrite <-Hlast.
    apply unit_to_duration; [lia|]. exists f. done.
Qed.

(** [parse_duration] accepts exactly the texts that are digits, after an
    optional sign, followed by one of the four unit letters, whose value fits
    [chrono]'s range, and gives that many seconds; a negative sign only before
    zero. An amount, product or span out of range is rejected, never wrapped. *)
Theorem parse_duration_spec `{Chrono} raw d :
  parse_duration raw = Some d ↔
  ∃ sign ds letter factor, u8 <$> as_bytes raw = sign ++ ds ++ [letter] ∧ is_digits ds ∧
    unit_factor letter = Some factor ∧
    (sign = [] ∨ sign = [43] ∨ sign = [45] ∧ digits_value ds = 0) ∧
    d = digits_value ds * factor * nanos_per_sec ∧ digits_value ds * factor * 1000 <= i64_max.
Proof. apply parse_duration_iff. Qed.
