(* ===== verification/CliSpec.v ===== *)
(** * What the command line guarantees

    The settings it accepts, what the server has done before it takes traffic,
    the dispatcher of the asynchronous mode, the prune command, and two settings
    that are accepted and then fail. *)

From stdpp Require Import base gmap strings list pretty.
From Stdlib Require Import ZArith Lia.
From S2P Require Import Prelude RustStd Event Trigger Retention Store Runtime Submission Handling Replay.
From S2P Require Import Ingest Delivery Http HttpSpec Config Cli Durations.
Local Open Scope Z_scope.

(** ** Settings *)

Lemma parse_unsigned_range hi cs n : 0 <= hi → parse_int 0 hi cs = Some n → 0 <= n <= hi.
Proof.
  intros Hhi. rewrite parse_int_spec by lia. intros (sign & ds & _ & [_ Hd] & [(_ & -> & ?)|(_ & ? & _)]); [|lia].
  pose proof (digits_from_ge 0 ds ltac:(lia) Hd). lia.
Qed.

Lemma parse_duration_nonneg `{Chrono} raw d : parse_duration raw = Some d → 0 <= d.
Proof.
  intros (sign & ds & letter & f & _ & [_ Hd] & Hf & _ & -> & _)%parse_duration_iff.
  pose proof (digits_from_ge 0 ds ltac:(lia) Hd). destruct (unit_factor_range _ _ Hf). unfold nanos_per_sec. nia.
Qed.

Definition nonneg (o : option Z) : Prop := match o with Some x => 0 <= x | None => True end.

Lemma parse_bound_duration_nonneg `{Chrono} raw o : parse_bound_duration raw = Ok o → nonneg o.
Proof.
  unfold parse_bound_duration. destruct (no_bound _); [by intros [= <-]|].
  destruct (parse_duration _) as [d|] eqn:Hd; [|done]. intros [= <-]. by apply parse_duration_nonneg in Hd.
Qed.

Lemma parse_bound_number_nonneg raw label o : parse_bound_number raw label = Ok o → nonneg o.
Proof.
  unfold parse_bound_number. destruct (no_bound _); [by intros [= <-]|].
  destruct (parse_u64 _) as [n|] eqn:Hn; [|done]. intros [= <-].
  apply parse_unsigned_range in Hn; [|done]. simpl. lia.
Qed.

(** Every bound that the environment gives is at least zero. *)
Lemma auto_retention_wf `{Chrono} env policy :
  auto_retention_from_env env = Ok policy →
  policy_wf policy ∧ nonneg (delivered_grace policy) ∧ nonneg (max_age policy).
Proof.
  unfold auto_retention_from_env, parse_auto_retention, mbind, result_bind.
  destruct (parse_bound_duration _) as [grace|] eqn:Hg; [|done].
  destruct (parse_bound_duration (env _)) as [age|] eqn:Ha; [|done].
  destruct (parse_bound_number _ "max-count") as [count|] eqn:Hc; [|done].
  destruct (parse_bound_number _ "max-bytes") as [size|] eqn:Hb; [|done]. intros [= <-].
  unfold policy_wf. simpl. split; [split|split].
  - by apply parse_bound_number_nonneg in Hc.
  - by apply parse_bound_number_nonneg in Hb.
  - by apply parse_bound_duration_nonneg in Hg.
  - by apply parse_bound_duration_nonneg in Ha.
Qed.

Lemma async_dispatch_capacity_pos env n : async_dispatch_capacity env = Ok n → 1 <= n <= u64_max.
Proof.
  unfold async_dispatch_capacity. destruct (nonempty_env _ _) as [raw|]; [|by intros [= <-]].
  destruct (parse_u64 _) as [m|] eqn:Hm; [|done]. simpl. destruct (Z.eqb_spec m 0); [done|]. intros [= <-].
  apply parse_unsigned_range in Hm; [lia|done].
Qed.

Lemma runtime_options_wf env options :
  runtime_options_from_env env = Ok options →
  1 <= max_submission_attempts options <= u32_max ∧ 0 <= submission_backoff options <= duration_max.
Proof.
  unfold runtime_options_from_env, parse_runtime_options, mbind, result_bind.
  destruct (parse_u32 _) as [a|] eqn:Ha; [|done]. destruct (parse_u64 _) as [b|] eqn:Hb; [|done].
  intros [= <-]. simpl. apply parse_unsigned_range in Ha; [|done]. apply parse_unsigned_range in Hb; [|done].
  unfold duration_from_millis, duration_max, nanos_per_milli, nanos_per_sec, u32_max, u64_max in *. lia.
Qed.

Lemma nonempty_env_Some env key value : nonempty_env env key = Some value ↔ env key = Some value ∧ value ≠ "".
Proof.
  unfold nonempty_env. destruct (env key) as [v|]; simpl; [|naive_solver].
  case_bool_decide; split; [done|by intros [[= ->] ?]|by intros [= ->]|by intros [[= ->] ?]].
Qed.

Lemma nonempty_env_None env key : nonempty_env env key = None ↔ env key = None ∨ env key = Some "".
Proof.
  unfold nonempty_env. destruct (env key) as [v|]; simpl; [|naive_solver].
  case_bool_decide; split; [intros _; subst; by right|done|done|by intros [?|[= ->]]].
Qed.

(** ** The server *)

Section serve.
Context `{UuidText} `{Worklane} `{Chrono} {S B Q K : Type}.
Context `{!EventStore S} `{!Broker B} `{!DeadTriggerQueue Q} `{!TraceSink K}.
Context `{Serialize EventEnvelope} `{!EventStoreSpec S}.
Local Abbreviation I := (S * World B Q K)%type.
Implicit Types (i : I).

(** C21: what holds once the server is about to take traffic. Every event the store
    holds is delivered, the undelivered ones handled in order by the recovery;
    requests are signed and reads authenticated exactly when the secret and the
    token are set and not empty, so never under an empty key; the retention
    policy is well-formed and the dispatch channel has room for an event. When
    the startup fails, the log has lost nothing. *)
Theorem startup_is_safe env runtime i :
  match serve_startup env runtime i with
  | (Ok config, i') =>
    log_events (view i'.1) = log_events (view i.1) ∧ log_undelivered (view i'.1) = [] ∧
    (∃ l, l.*1 = log_undelivered (view i.1) ∧ handled runtime l i.2 i'.2) ∧
    (∀ wv, sc_verifier config = Some wv ↔ ∃ secret, env "TRIGGERLANE_WEBHOOK_SECRET" = Some secret ∧
       secret ≠ "" ∧ wv = WebhookVerifier_github (as_bytes secret)) ∧
    (∀ auth, sc_read_auth config = Some auth ↔ ∃ token, env "TRIGGERLANE_READ_TOKEN" = Some token ∧
       token ≠ "" ∧ auth = mkReadAuth (as_bytes token)) ∧
    policy_wf (sc_policy config) ∧ 0 <= sc_interval config ∧
    (∀ capacity, sc_dispatch config = Some capacity → 1 <= capacity)
  | (Err _, i') => log_events (view i'.1) = log_events (view i.1)
  end.
Proof.
  unfold serve_startup, lift, mbind at 1, M_bind at 1. destruct (request_timeout env) as [timeout|e]; [|done].
  unfold mbind at 1, M_bind at 1, mapM_err. pose proof (recovery_run runtime i) as Hr.
  destruct (recover_undelivered runtime i) as [[n|x] i'].
  2: { destruct Hr as (l & event & rest & w1 & _ & Hev & _). exact Hev. }
  destruct Hr as (_ & Hev & Hun & Hh). simpl map_err. cbv iota.
  unfold mbind at 1, M_bind at 1. destruct (auto_retention_from_env env) as [policy|e] eqn:Hp; [|done].
  unfold mbind at 1, M_bind at 1. destruct (retention_interval_from_env env) as [interval|e] eqn:Hi; [|done].
  assert (0 <= interval) as Hint.
  { unfold retention_interval_from_env in Hi. destruct (parse_duration _) as [d|] eqn:Hd; [|done].
    simpl in Hi. unfold to_std in Hi. destruct (Z.ltb_spec d 0); [done|]. injection Hi as <-. done. }
  apply auto_retention_wf in Hp as [Hwf _].
  assert (∀ A (f : string → A) key a, f <$> nonempty_env env key = Some a ↔
    ∃ v, env key = Some v ∧ v ≠ "" ∧ a = f v) as Hkey.
  { intros A f key a. rewrite fmap_Some. setoid_rewrite nonempty_env_Some. naive_solver. }
  destruct (env_flag_enabled env ASYNC_DISPATCH_ENV).
  - destruct (async_dispatch_capacity env) as [c|e] eqn:Hc; [|done]. simpl.
    apply async_dispatch_capacity_pos in Hc. split_and!; try done; try (intros; apply Hkey).
    intros capacity [= <-]. lia.
  - simpl. split_and!; try done; intros; apply Hkey.
Qed.

(** *** The dispatcher *)

Lemma spawn_dispatcher_view runtime received i :
  log_events (view (spawn_dispatcher runtime received i).1) = log_events (view i.1) ∧
  log_delivered (view i.1) ⊆ log_delivered (view (spawn_dispatcher runtime received i).1).
Proof.
  revert i. induction received as [|event received IH]; intros i; [done|]. simpl.
  pose proof (dispatch_run runtime event i) as Hd. destruct (dispatch runtime event i) as [[report|x] i1]; simpl.
  - destruct Hd as [_ Hv]. destruct (IH i1) as [-> Hsub]. rewrite Hv in Hsub |- *. simpl in *. split; [done|]. set_solver.
  - destruct Hd as [Hv _]. destruct (IH i1) as [-> Hsub]. by rewrite Hv in Hsub |- *.
Qed.

(** The dispatcher loses nothing and stops at nothing: it handles what it
    received in order; an event it received is delivered afterwards unless its
    own dispatch failed; what it did not receive keeps its mark; the log keeps
    its events, so the next start recovers exactly the failed ones. *)
Theorem dispatcher_delivers runtime received i :
  let i' := spawn_dispatcher runtime received i in
  log_events (view i'.1) = log_events (view i.1) ∧
  (∀ id, id ∈ log_delivered (view i'.1) → id ∈ log_delivered (view i.1) ∨ id ∈ ids received) ∧
  log_delivered (view i.1) ⊆ log_delivered (view i'.1) ∧
  ∀ before event after, received = before ++ event :: after →
    ev_id event ∈ log_delivered (view i'.1) ∨
    ∃ x i2, dispatch runtime event (spawn_dispatcher runtime before i) = (Err x, i2).
Proof.
  cbv zeta. split; [apply spawn_dispatcher_view|]. split; [|split; [apply spawn_dispatcher_view|]].
  - revert i. induction received as [|event received IH]; intros i id; simpl; [by left|].
    pose proof (dispatch_run runtime event i) as Hd. destruct (dispatch runtime event i) as [[report|x] i1]; simpl;
      change (ids (event :: received)) with ({[ev_id event]} ∪ ids received); rewrite elem_of_union;
      intros [Hid|Hid]%IH; try tauto; destruct Hd as [Hh Hv].
    + rewrite Hv in Hid. simpl in Hid. apply elem_of_union in Hid. tauto.
    + rewrite Hh in Hid. tauto.
  - intros before event after ->. revert i. induction before as [|e before IH]; intros i; simpl; [|apply IH].
    pose proof (dispatch_run runtime event i) as Hd. destruct (dispatch runtime event i) as [[report|x] i1] eqn:Hdi.
    + destruct Hd as [_ Hv]. left. apply spawn_dispatcher_view. simpl. rewrite Hv. simpl. set_solver.
    + right. by eexists _, _.
Qed.

Lemma zero_interval_accepted env : env RETENTION_INTERVAL_ENV = Some "0s" → retention_interval_from_env env = Ok 0.
Proof.
  intros He. unfold retention_interval_from_env. rewrite He. simpl default.
  assert (parse_duration "0s" = Some 0) as ->; [|done]. apply parse_duration_iff.
  exists [], [48], 115, 1. split; [done|]. split; [split; [done|by repeat constructor]|].
  split; [done|]. split; [by left|]. by split.
Qed.

(** A retention interval of [0s] is accepted, and then no sweep ever runs: the
    maintenance task panics when it creates its timer. *)
Theorem zero_interval_stops_maintenance env runtime policy i ticks :
  env RETENTION_INTERVAL_ENV = Some "0s" →
  ∃ interval, retention_interval_from_env env = Ok interval ∧ spawn_maintenance runtime policy interval ticks i = i.
Proof.
  intros He. exists 0. split; [by apply zero_interval_accepted|done].
Qed.
End serve.

(** ** Pruning *)

Section prune.
Context `{UuidText} `{Worklane} `{Chrono} {S B Q : Type}.
Context `{!EventStore S} `{!Broker B} `{!DeadTriggerQueue Q}.
Context `{Serialize EventEnvelope} `{!EventStoreSpec S} `{Serialize DeadTriggerRecord} `{!DeadTriggerQueueSpec Q}.
Local Abbreviation I := (S * World B Q LoggingTraceSink)%type.

(** [prune --older-than] with a valid duration that reaches back before the
    first representable date panics instead of reporting an error; nothing else
    does, and nothing has been pruned. *)
Theorem prune_panics_on_long_durations (o : Outside) policy (c : list string * I) :
  (resolve_prune_policy (o_now o) policy = None ↔
   ∃ raw d, policy = PruneOlderThan raw ∧ parse_duration raw = Some d ∧ o_now o - d < datetime_min) ∧
  (resolve_prune_policy (o_now o) policy = None → run_prune o policy c = (Err Panicked, c)).
Proof.
  split; [|by intros Hn; unfold run_prune; rewrite Hn]. destruct policy as [raw|count]; simpl.
  - destruct (parse_duration raw) as [d|] eqn:Hd; [|split; [done|by intros (? & ? & [= <-] & ? & _); congruence]].
    pose proof (parse_duration_nonneg _ _ Hd). rewrite datetime_sub_spec by done.
    destruct (Z.leb_spec datetime_min (o_now o - d)); simpl.
    + split; [done|]. intros (raw' & d' & [= <-] & Hd' & ?). assert (d' = d) as -> by congruence. lia.
    + split; [intros _; eauto|done].
  - split; [done|]. by intros (? & ? & ? & _).
Qed.
End prune.
