(* ===== verification/CliCommands.v ===== *)
(** * What the commands and the application guarantee

    Loading a file stops at the first event that fails and reports nothing; loading
    it again skips what is stored, handled or not. The application lets nothing
    through that is not signed or authenticated. The settings the environment gives
    are values the program can use. *)

From stdpp Require Import base gmap strings list pretty.
From Stdlib Require Import ZArith Lia.
From S2P Require Import Prelude RustStd Event Trigger Retention Store Runtime Submission Handling Replay.
From S2P Require Import Ingest Delivery Http HttpSpec Config Cli Durations CliSpec.
Local Open Scope Z_scope.

(** ** Loading a file *)

(** The log knows the event's key. *)
Definition known_in (log : list EventEnvelope) (event : EventEnvelope) : bool :=
  match idempotency_key (ev_metadata event) with
  | Some key => existsb (has_idempotency_key key) log
  | None => false
  end.

(** The events of a file that are not duplicates, of the log or of each other. *)
Fixpoint fresh_events (log events : list EventEnvelope) : list EventEnvelope :=
  match events with
  | [] => []
  | event :: events =>
    if known_in log event then fresh_events log events else event :: fresh_events (log ++ [event]) events
  end.

Lemma known_in_spec log event : known_in log event = true ↔ ∃ e, e ∈ log ∧ same_key event e.
Proof.
  unfold known_in, same_key. destruct (idempotency_key (ev_metadata event)) as [key|].
  - rewrite existsb_exists. unfold has_idempotency_key. split.
    + intros (e & Hin & Hk%bool_decide_eq_true). exists e. rewrite list_elem_of_In. split; [done|]. by split.
    + intros (e & Hin & _ & Hk). exists e. rewrite <-list_elem_of_In. split; [done|]. by apply bool_decide_eq_true.
  - split; [done|]. by intros (? & _ & [] & _).
Qed.

Lemma known_in_app log log' event : known_in log event = true → known_in (log ++ log') event = true.
Proof. rewrite !known_in_spec. intros (e & Hin & Hk). exists e. split; [|done]. apply elem_of_app. by left. Qed.

(** An event whose key is in the log already is not fresh, wherever it stands. *)
Lemma fresh_events_unknown log events e : e ∈ fresh_events log events → known_in log e = false ∧ e ∈ events.
Proof.
  revert log. induction events as [|event events IH]; intros log; simpl; [by intros ?%not_elem_of_nil|].
  destruct (known_in log event) eqn:Hk.
  - intros [? ?]%IH. split; [done|by right].
  - intros [->|[Hn ?]%IH]%elem_of_cons; [by split; [|left]|]. split; [|by right].
    destruct (known_in log e) eqn:He; [|done]. by rewrite (known_in_app _ [event] _ He) in Hn.
Qed.

Section load.
Context `{UuidText} `{Worklane} {S B Q : Type}.
Context `{!EventStore S} `{!Broker B} `{!DeadTriggerQueue Q}.
Context `{Serialize EventEnvelope} `{!EventStoreSpec S}.
Local Abbreviation I := (S * World B Q LoggingTraceSink)%type.
Implicit Types (i : I) (events : list EventEnvelope).

Definition log_of_pipeline i : list EventEnvelope := log_events (view i.1).
Definition marks_of_pipeline i : gset EventId := log_delivered (view i.1).

(** The state after the events of a file up to some point. *)
Definition loaded_events i events (stored : list EventEnvelope) i' : Prop :=
  log_of_pipeline i' = log_of_pipeline i ++ fresh_events (log_of_pipeline i) events ++ stored ∧
  marks_of_pipeline i' = ids (fresh_events (log_of_pipeline i) events) ∪ marks_of_pipeline i.

Lemma ids_nil (X : gset EventId) : ids [] ∪ X = X.
Proof. apply union_empty_l_L. Qed.

Lemma known_in_existing i event :
  known_in (log_of_pipeline i) event = bool_decide (is_Some (existing_event event i.1)).
Proof.
  destruct (existing_event event i.1) as [e|] eqn:He.
  - rewrite bool_decide_true by done. apply known_in_spec. apply existing_event_Some in He. by exists e.
  - rewrite bool_decide_false by (by intros []). destruct (known_in _ event) eqn:Hk; [|done].
    apply known_in_spec in Hk as (e & Hin & Hk). by destruct (existing_event_None _ _ He e Hin).
Qed.

Lemma ingest_known runtime event i :
  match ingest runtime event i with
  | (Ok rep, _) => ir_deduplicated rep = known_in (log_of_pipeline i) event
  | (Err _, _) => known_in (log_of_pipeline i) event = false
  end.
Proof.
  rewrite known_in_existing. unfold ingest, gets, mbind, M_bind.
  destruct (existing_event event i.1) as [existing|]; [done|]. rewrite bool_decide_false by (by intros []).
  destruct (mapM_err Storage (on_store (es_append event)) i) as [[[]|x] i1]; [|done]. cbn.
  destruct (on_world (handle runtime event) i1) as [[report|x] i2]; [|done].
  by destruct (mapM_err Storage (on_store (es_mark_delivered (ev_id event))) i2) as [[[]|x] i3].
Qed.

(** The loop, from any state. *)
Lemma load_loop_run runtime events total out i :
  match load_loop runtime events total (out, i) with
  | (Ok total', (out', i')) => out' = out ∧ total <= total' ∧ loaded_events i events [] i'
  | (Err x, (out', i')) => out' = out ∧ (∃ error, x = Failed (CliRuntime error)) ∧
      ∃ before event after stored, events = before ++ event :: after ∧ (stored = [] ∨ stored = [event]) ∧
        loaded_events i before stored i'
  end.
Proof.
  revert total i. induction events as [|event events IH]; intros total i; simpl.
  { split; [done|]. split; [lia|]. unfold loaded_events. simpl. split; [by rewrite app_nil_r|]. by rewrite ids_nil. }
  unfold mbind at 1, M_bind at 1, on_pipeline at 1, mapM_err at 1, zoom at 1. simpl.
  pose proof (ingest_run runtime event i) as Hi. pose proof (ingest_known runtime event i) as Hk.
  destruct (ingest runtime event i) as [[rep|x] i1]; simpl map_err; cbv iota.
  - rewrite Hk in Hi.
    assert (loaded_events i [event] [] i1) as [Hl Hm].
    { unfold loaded_events. simpl. destruct (known_in (log_of_pipeline i) event) eqn:Hkn.
      - destruct Hi as (-> & _). simpl. rewrite app_nil_r. split; [done|]. by rewrite ids_nil.
      - destruct Hi as (_ & _ & _ & Hv). unfold log_of_pipeline, marks_of_pipeline. rewrite Hv. simpl. split; [done|]. set_solver. }
    assert (∀ es stored i2, loaded_events i1 es stored i2 → loaded_events i (event :: es) stored i2) as Hcons.
    { intros es stored i2 [Hl2 Hm2]. unfold loaded_events in *. simpl in *.
      destruct (known_in (log_of_pipeline i) event); rewrite app_nil_r in Hl; rewrite Hl in Hl2, Hm2; rewrite Hm in Hm2.
      - rewrite ids_nil in Hm2. done.
      - rewrite Hl2, Hm2, <-app_assoc. simpl. split; [done|]. set_solver. }
    specialize (IH (total + len (submitted (ir_handle rep))) i1).
    destruct (load_loop runtime events _ (out, i1)) as [[total'|x] [out' i']].
    + destruct IH as (-> & Hle & Hld). split; [done|]. split; [unfold len in *; lia|]. by apply Hcons.
    + destruct IH as (-> & He & before & e & after & stored & -> & Hst & Hld). split; [done|]. split; [done|].
      exists (event :: before), e, after, stored. split; [done|]. split; [done|]. by apply Hcons.
  - split; [done|]. split; [by eexists|]. destruct Hi as [(_ & _ & _ & Hv)|[Hv _]].
    + exists [], event, events, []. split; [done|]. split; [by left|]. unfold loaded_events, log_of_pipeline, marks_of_pipeline.
      rewrite Hv. simpl. split; [by rewrite app_nil_r|]. by rewrite ids_nil.
    + exists [], event, events, [event]. split; [done|]. split; [by right|]. unfold loaded_events, log_of_pipeline, marks_of_pipeline.
      rewrite Hv. simpl. split; [done|]. by rewrite ids_nil.
Qed.

(** Loading a file, on every branch. When it succeeds it prints one line, and the
    log has grown by exactly the file's events whose key was neither in the log nor
    earlier in the file, in order, all of them delivered. When it fails it prints
    nothing; the events before the failing one are loaded as if the file ended there,
    the failing one is at most stored, and the rest of the file was not touched. *)
Theorem load_file_outcomes (o : Outside) path runtime events out i :
  o_built o = Ok runtime → o_events_file o path = Ok events →
  match run_load_file o path (out, i) with
  | (Ok _, (out', i')) => ∃ total, 0 <= total ∧
      out' = out ++ ["loaded " +:+ pretty (len events) +:+ " submitted " +:+ pretty total] ∧
      loaded_events i events [] i'
  | (Err x, (out', i')) => out' = out ∧ (∃ error, x = Failed (CliRuntime error)) ∧
      ∃ before event after stored, events = before ++ event :: after ∧ (stored = [] ∨ stored = [event]) ∧
        loaded_events i before stored i'
  end.
Proof.
  intros Hb He. unfold run_load_file, fallible, lift. unfold mbind at 1, M_bind at 1. rewrite Hb. simpl map_err. cbv iota.
  unfold mbind at 1, M_bind at 1. rewrite He. simpl map_err. cbv iota zeta. unfold mbind at 1, M_bind at 1.
  pose proof (load_loop_run runtime events 0 out i) as Hl.
  destruct (load_loop runtime events 0 (out, i)) as [[total|x] [out' i']]; [|exact Hl].
  destruct Hl as (-> & Hle & Hld). simpl. by exists total.
Qed.

(** Loading a file again does not repair a load that failed. A load fails at one
    event; either that event was not stored, or, when it has a key, no later load
    handles it: after the file is loaded again under new ids, with success, the event
    is still undelivered, and nothing with its key was handled. Only the recovery of
    a starting server, or a replay, handles it. *)
Theorem reload_skips_failed runtime events total out i x i1 :
  load_loop runtime events total (out, i) = (Err x, (out, i1)) →
  ∃ before event after, events = before ++ event :: after ∧
    (loaded_events i before [] i1 ∨
     loaded_events i before [event] i1 ∧
     (is_Some (idempotency_key (ev_metadata event)) → ev_id event ∉ marks_of_pipeline i → ev_id event ∉ ids before →
      ∀ again total' submitted' out' i2, ev_id event ∉ ids again →
        load_loop runtime again total' (out', i1) = (Ok submitted', (out', i2)) →
        event ∈ log_undelivered (view i2.1) ∧
        ∀ e, e ∈ fresh_events (log_of_pipeline i1) again →
          idempotency_key (ev_metadata e) ≠ idempotency_key (ev_metadata event))).
Proof.
  intros Hrun. pose proof (load_loop_run runtime events total out i) as Hl. rewrite Hrun in Hl.
  destruct Hl as (_ & _ & before & event & after & stored & -> & [-> | ->] & Hld);
    exists before, event, after; (split; [done|]); [by left|right].
  split; [done|]. intros Hkey Hm Hb again total' submitted' out' i2 Hids Hagain. destruct Hld as [Hl1 Hm1].
  pose proof (load_loop_run runtime again total' out' i1) as Hl. rewrite Hagain in Hl.
  destruct Hl as (_ & _ & Hl2 & Hm2). rewrite app_nil_r in Hl2.
  assert (event ∈ log_of_pipeline i1) as Hin by (rewrite Hl1, !elem_of_app; right; right; left).
  assert (∀ log es id, id ∉ ids es → id ∉ ids (fresh_events log es)) as Hfresh.
  { intros log es id Hn Hid. apply Hn. unfold ids in *. apply elem_of_list_to_set in Hid. apply elem_of_list_to_set.
    apply list_elem_of_fmap in Hid as (e & -> & [_ He]%fresh_events_unknown). apply list_elem_of_fmap. by exists e. }
  split.
  - unfold log_undelivered. apply list_elem_of_filter. change (log_events (view i2.1)) with (log_of_pipeline i2).
    change (log_delivered (view i2.1)) with (marks_of_pipeline i2). rewrite Hl2, Hm2, Hm1.
    split; [|apply elem_of_app; by left]. rewrite !not_elem_of_union. auto.
  - intros e [Hn _]%fresh_events_unknown Heq. assert (known_in (log_of_pipeline i1) e = true); [|congruence].
    apply known_in_spec. exists event. split; [done|]. split; [by rewrite Heq|done].
Qed.
End load.

(** ** The application *)

Section app.
Context `{UuidText} `{Worklane} `{Chrono} `{HeaderMaps} `{Hex} `{Hmac} `{SourceJson} `{Deserialize IncomingEvent}.
Context {S B Q K C : Type} `{!EventStore S} `{!Broker B} `{!DeadTriggerQueue Q} `{!TraceSink K} `{!Mpsc C}.
Local Abbreviation I := (S * World B Q K)%type.

(** A request that carries what its endpoint asks for: the webhook signature of its
    body, the bearer token; the probes and the metrics ask for nothing. *)
Definition credentials (secret token : string) (request : AppRequest) : Prop :=
  match request with
  | ToEvents headers body => verify (WebhookVerifier_github (as_bytes secret)) headers body = true
  | ToRead headers _ => header_text AUTHORIZATION headers = Some ("Bearer " +:+ token)
  | ToHealthz | ToReadyz | ToMetrics => True
  end.

Lemma serve_startup_keys env runtime (i i' : I) config :
  serve_startup env runtime i = (Ok config, i') →
  sc_verifier config = WebhookVerifier_github ∘ as_bytes <$> nonempty_env env "TRIGGERLANE_WEBHOOK_SECRET" ∧
  sc_read_auth config = mkReadAuth ∘ as_bytes <$> nonempty_env env "TRIGGERLANE_READ_TOKEN".
Proof.
  unfold serve_startup, lift. repeat (unfold mbind at 1, M_bind at 1). unfold mapM_err.
  destruct (request_timeout env); [|done]. destruct (recover_undelivered runtime i) as [[n|x] i1]; [|done]. simpl map_err. cbv iota.
  repeat (unfold mbind at 1, M_bind at 1).
  destruct (auto_retention_from_env env); [|done]. destruct (retention_interval_from_env env); [|done].
  destruct (env_flag_enabled env ASYNC_DISPATCH_ENV); [destruct (async_dispatch_capacity env); [|done]|];
    by intros [= <- _].
Qed.

(** A router with a verifier refuses an unsigned body and touches nothing. *)
Lemma build_router_unsigned {Hd St} `{!EventHandler Hd St} (handler : Hd) wv fresh now headers body (s : St) :
  verify wv headers body = false →
  (build_router (mkAppState handler (Some wv)) fresh now headers body s).2 = s ∧
  status (build_router (mkAppState handler (Some wv)) fresh now headers body s).1 ∈ [PAYLOAD_TOO_LARGE; UNAUTHORIZED].
Proof.
  intros Hv. unfold build_router. destruct (len body >? MAX_EVENT_BODY_BYTES); [split; [done|left]|].
  unfold respond, post_events_route. cbn [app_verifier]. rewrite Hv. simpl. split; [done|]. right. left.
Qed.

(** C38: the application is closed. A server started with a webhook secret and a read
    token, neither empty: whatever is sent to it, in either mode, a request without the
    credentials of its endpoint is refused and leaves the stores, the broker, the
    queue and the channel as they were; the probes and the metrics never touch them,
    and readiness alone depends on the shutdown. *)
Theorem app_is_closed env runtime (i i' : I) config secret token readiness metrics fresh now request (ci : C * I) :
  serve_startup env runtime i = (Ok config, i') →
  env "TRIGGERLANE_WEBHOOK_SECRET" = Some secret → secret ≠ "" →
  env "TRIGGERLANE_READ_TOKEN" = Some token → token ≠ "" →
  let '(response, ci') := serve_ingest config runtime readiness metrics fresh now request ci in
  (¬ credentials secret token request → ci' = ci ∧ status response ∈ [PAYLOAD_TOO_LARGE; UNAUTHORIZED]) ∧
  match request with
  | ToHealthz | ToMetrics => ci' = ci ∧ status response = STATUS_OK
  | ToReadyz => ci' = ci ∧ status response = if is_ready readiness then STATUS_OK else SERVICE_UNAVAILABLE
  | _ => True
  end.
Proof.
  intros [Hv Ha]%serve_startup_keys Hs Hse Ht Hte.
  rewrite (proj2 (nonempty_env_Some _ _ secret)) in Hv by done. rewrite (proj2 (nonempty_env_Some _ _ token)) in Ha by done.
  destruct ci as [c j]. destruct request as [headers body|headers request| | |]; simpl.
  - unfold serve_events. rewrite Hv. simpl. destruct (verify (WebhookVerifier_github (as_bytes secret)) headers body) eqn:Hver.
    { by destruct (match sc_dispatch config with Some _ => _ | None => _ end) as [response ci']. }
    destruct (sc_dispatch config).
    + unfold router_with_verifier.
      destruct (build_router_unsigned (St := C * I) (mkAcceptEventHandler runtime) _ fresh now headers body (c, j) Hver) as [Hst Hcode].
      destruct (build_router _ fresh now headers body (c, j)) as [response ci']. by split.
    + unfold router_with_verifier.
      destruct (build_router_unsigned (St := I) (mkIngestEventHandler runtime) _ fresh now headers body j Hver) as [Hst Hcode].
      destruct (build_router _ fresh now headers body j) as [response j']. simpl in *. subst j'. by split.
  - unfold read_router. rewrite Ha. simpl. unfold require_read_auth.
    destruct (authorized (mkReadAuth (as_bytes token)) headers) eqn:Hau.
    + apply authorized_spec in Hau. simpl in Hau. rewrite of_as_bytes in Hau.
      destruct (read_endpoint runtime request j) as [response j']. split; [by intros []|done].
    + split; [|done]. intros _. split; [done|]. right. left.
  - split; [tauto|done].
  - split; [tauto|done].
  - split; [tauto|done].
Qed.
End app.

(** ** Settings *)

Lemma parse_duration_range `{Chrono} raw d : parse_duration raw = Some d → 0 <= d <= i64_max * 1000000.
Proof.
  intros Hd. split; [by eapply parse_duration_nonneg|]. apply parse_duration_iff in Hd.
  destruct Hd as (sign & ds & letter & f & _ & _ & _ & _ & -> & Hr). unfold nanos_per_sec. lia.
Qed.

(** A bound, if there is one, is in a range. *)
Definition within (lo hi : Z) (o : option Z) : Prop := match o with Some x => lo <= x <= hi | None => True end.

Lemma parse_bound_duration_within `{Chrono} raw o : parse_bound_duration raw = Ok o → within 0 (i64_max * 1000000) o.
Proof.
  unfold parse_bound_duration. destruct (no_bound _); [by intros [= <-]|].
  destruct (parse_duration _) as [d|] eqn:Hd; [|done]. intros [= <-]. by apply parse_duration_range in Hd.
Qed.

Lemma parse_bound_number_within raw label o : parse_bound_number raw label = Ok o → within 0 u64_max o.
Proof.
  unfold parse_bound_number. destruct (no_bound _); [by intros [= <-]|].
  destruct (parse_u64 _) as [n|] eqn:Hn; [|done]. intros [= <-]. by apply parse_unsigned_range in Hn.
Qed.

Lemma auto_retention_within `{Chrono} env policy :
  auto_retention_from_env env = Ok policy →
  within 0 (i64_max * 1000000) (delivered_grace policy) ∧ within 0 (i64_max * 1000000) (max_age policy) ∧
  within 0 u64_max (max_count policy) ∧ within 0 u64_max (max_bytes policy).
Proof.
  unfold auto_retention_from_env, parse_auto_retention, mbind, result_bind.
  destruct (parse_bound_duration _) as [grace|] eqn:Hg; [|done].
  destruct (parse_bound_duration (env _)) as [age|] eqn:Ha; [|done].
  destruct (parse_bound_number _ "max-count") as [count|] eqn:Hc; [|done].
  destruct (parse_bound_number _ "max-bytes") as [size|] eqn:Hb; [|done]. intros [= <-]. simpl.
  split_and!; by eapply parse_bound_duration_within || by eapply parse_bound_number_within.
Qed.

(** C39: whatever the environment says, a setting that is accepted is a value of its
    machine type, on a 64-bit platform, and in its range. A timeout is a positive
    [Duration], attempts are a positive [u32], the backoff a [Duration], the channel
    has room for an event. The grace and the age limit of retention are spans that
    [TimeDelta] has, none negative; its count is a [usize] and its size a [u64]. The
    sweep interval is a [Duration]; 0 is accepted, although the maintenance task cannot
    run with it, and so is a capacity that the channel cannot have. *)
Theorem settings_are_typed `{Chrono} (env : Env) :
  (∀ timeout, request_timeout env = Ok (Some timeout) → 0 < timeout <= duration_max) ∧
  (∀ options, runtime_options_from_env env = Ok options →
     1 <= max_submission_attempts options <= u32_max ∧ 0 <= submission_backoff options <= duration_max) ∧
  (∀ capacity, async_dispatch_capacity env = Ok capacity → 1 <= capacity <= u64_max) ∧
  (∀ policy, auto_retention_from_env env = Ok policy →
     policy_wf policy ∧
     within 0 (i64_max * 1000000) (delivered_grace policy) ∧ within 0 (i64_max * 1000000) (max_age policy) ∧
     within 0 u64_max (max_count policy) ∧ within 0 u64_max (max_bytes policy)) ∧
  (∀ interval, retention_interval_from_env env = Ok interval → 0 <= interval <= duration_max) ∧
  (env RETENTION_INTERVAL_ENV = Some "0s" → retention_interval_from_env env = Ok 0).
Proof.
  split; [|split; [|split; [|split; [|split; [|exact (zero_interval_accepted env)]]]]].
  - intros timeout. unfold request_timeout, parse_request_timeout, mbind, result_bind.
    destruct (env REQUEST_TIMEOUT_ENV) as [raw|]; simpl.
    + destruct (parse_u64 raw) as [secs|] eqn:Hs; [|done]. simpl. apply parse_unsigned_range in Hs; [|done].
      rewrite Z.gtb_ltb. destruct (Z.ltb_spec 0 secs); [|done]. intros [= <-].
      unfold duration_from_secs, duration_max, nanos_per_sec, u64_max in *. lia.
    + intros [= <-]. by vm_compute.
  - intros options. apply runtime_options_wf.
  - intros capacity. apply async_dispatch_capacity_pos.
  - intros policy Hp. split; [by apply auto_retention_wf in Hp as [? _]|by eapply auto_retention_within].
  - intros interval. unfold retention_interval_from_env. destruct (parse_duration _) as [d|] eqn:Hd; [|done].
    apply parse_duration_range in Hd. simpl. unfold to_std. destruct (Z.ltb_spec d 0); [done|]. intros [= <-].
    unfold duration_max, nanos_per_sec, u64_max, i64_max in *. lia.
Qed.
