(* ===== verification/CliRuns.v ===== *)
(** * Sample settings and documents

    The theorems on the configuration and the settings applied to a document, an
    environment and a clock. *)

From stdpp Require Import base gmap strings list sorting pretty.
From Stdlib Require Import ZArith Lia.
From S2P Require Import Prelude RustStd Event Trigger Retention Store Samples StorageRuns.
From S2P Require Import Runtime Submission Handling Replay RuntimeRuns Ingest Delivery Recovery Http HttpSpec.
From S2P Require Import Config Cli Durations CliSpec CliCommands HttpRuns FileSystem Jsonl FileStore.
Local Open Scope Z_scope.

(** [chrono]'s first date, 1 January -262143. *)
#[export] Instance sample_Chrono : Chrono.
Proof.
  refine {| try_seconds n := if between (- i64_max) i64_max (n * 1000) then Some (n * nanos_per_sec) else None;
            datetime_min := - 8334601228800 * nanos_per_sec;
            datetime_sub t d := if - 8334601228800 * nanos_per_sec <=? t - d then Some (t - d) else None;
            parse_datetime _ := Err "not a timestamp" |}; done.
Defined.

(** JSON values as texts; a pointer finds nothing. *)
#[export] Instance sample_Json : Json := {
  Value := string;
  from_slice b := Ok (of_bytes b);
  pointer v p := if bool_decide (p = "") then Some v else None;
  value_eqb a b := bool_decide (a = b);
}.

Definition entry (name : string) (priority : Z) (enabled : bool) (condition : MatchSpec) : TriggerEntry :=
  mkTriggerEntry name priority enabled condition (mkBindSpec "triage" name 3).

Definition sample_document : TriggerFile := mkTriggerFile
  [entry "any" 0 true (MatchAllOf []);
   entry "issues" 5 true (MatchAnyOf [MatchEventType EVENT_GITHUB_PR_CREATED; MatchEventType EVENT_GITHUB_ISSUE_CREATED]);
   entry "off" 9 false (MatchAllOf []);
   entry "never" 7 true (MatchAnyOf []);
   entry "empty" 5 true (MatchPayloadFieldEquals "" "")].

#[export] Instance sample_TriggerFile : Deserialize TriggerFile := λ _, Ok sample_document.

Definition loaded : TriggerRegistry :=
  match parse_registry "document" with Ok registry => registry | Err _ => TriggerRegistry_new end.

Lemma loaded_run : parse_registry "document" = Ok loaded.
Proof. reflexivity. Qed.

Lemma config_means_what_it_says_witness :
  ∃ file, from_str (as_bytes "document") = Ok file ∧
    let chosen := filter (λ t, te_enabled t = true ∧ satisfies event1 (te_condition t)) (tf_triggers file) in
    matching loaded event1 ≡ₚ registered_of <$> chosen ∧
    StronglySorted (λ r r', rt_priority r >= rt_priority r') (matching loaded event1) ∧
    (∀ p, filter (λ r, rt_priority r = p) (matching loaded event1) =
      registered_of <$> filter (λ t, te_priority t = p) chosen) ∧
    ∀ t, rt_name (registered_of t) = te_name t ∧
      rt_binding (registered_of t) event1 = Ok (mkWorklaneJob (bs_lane (te_bind t)) (bs_kind (te_bind t))
        (ev_payload event1) (bs_max_attempts (te_bind t))).
Proof. apply (config_means_what_it_says "document" loaded event1). exact loaded_run. Defined.

Example loaded_order : rt_name <$> matching loaded event1 = ["issues"; "empty"; "any"].
Proof. vm_compute. reflexivity. Qed.

Definition zero_interval : Env := λ key, if bool_decide (key = RETENTION_INTERVAL_ENV) then Some "0s" else None.

Lemma zero_interval_stops_maintenance_witness :
  ∃ interval, retention_interval_from_env zero_interval = Ok interval ∧
    spawn_maintenance quiet_runtime unbounded interval [100; 200] ingest1 = ingest1.
Proof. apply (zero_interval_stops_maintenance zero_interval quiet_runtime unbounded ingest1 [100; 200]). reflexivity. Defined.

(** A hundred million days before 2026. *)
Example long_prune_panics :
  resolve_prune_policy (1767225600 * nanos_per_sec) (PruneOlderThan "100000000d") = None.
Proof. vm_compute. reflexivity. Qed.

(** [0] and [off] disable a bound; [00] is a bound of zero records. *)
Example bounds :
  parse_bound_number (Some " off ") "max-count" = Ok None ∧ parse_bound_number (Some "0") "max-count" = Ok None ∧
  parse_bound_number (Some "00") "max-count" = Ok (Some 0) ∧
  auto_retention_from_env (λ _, None) =
    Ok (mkAutoRetention (Some (86400 * nanos_per_sec)) None (Some 1000000) None).
Proof. repeat split; vm_compute; reflexivity. Qed.

(** ** Loading a file twice *)

(** A disk that is full for one write, and a broker that is down: the first event's
    dead trigger cannot be stored. *)
Definition full_logged : World SampleBroker (FileDeadTriggerQueue * FS) LoggingTraceSink :=
  mkWorld broker_down full_queue (mkLoggingTraceSink []) ∅ [].

Abbreviation Pipeline := (InMemoryEventStore * World SampleBroker (FileDeadTriggerQueue * FS) LoggingTraceSink)%type.

Definition load0 : Pipeline := (InMemoryEventStore_new, full_logged).
Definition file_events : list EventEnvelope := [event1; event2].
Definition file_events_again : list EventEnvelope := [sample_event 11 (Some "k1") 300; sample_event 12 (Some "k2") 300].

Definition load1 : Pipeline := (load_loop quiet_runtime file_events 0 ([], load0)).2.2.
Definition load2 : Pipeline := (load_loop quiet_runtime file_events_again 0 ([], load1)).2.2.

Definition no_space : Exit :=
  Failed (CliRuntime (Storage (mkIoError (OsError 28) "No space left on device"))).

Lemma load1_run : load_loop quiet_runtime file_events 0 ([], load0) = (Err no_space, ([], load1)).
Proof. vm_compute. reflexivity. Qed.

Lemma load2_run : load_loop quiet_runtime file_events_again 0 ([], load1) = (Ok 0, ([], load2)).
Proof. vm_compute. reflexivity. Qed.

Lemma reload_skips_failed_witness :
  ∃ before event after, file_events = before ++ event :: after ∧
    (loaded_events load0 before [] load1 ∨
     loaded_events load0 before [event] load1 ∧
     (is_Some (idempotency_key (ev_metadata event)) → ev_id event ∉ marks_of_pipeline load0 → ev_id event ∉ ids before →
      ∀ again total' submitted' out' i2, ev_id event ∉ ids again →
        load_loop quiet_runtime again total' (out', load1) = (Ok submitted', (out', i2)) →
        event ∈ log_undelivered (view i2.1) ∧
        ∀ e, e ∈ fresh_events (log_of_pipeline load1) again →
          idempotency_key (ev_metadata e) ≠ idempotency_key (ev_metadata event))).
Proof. apply (reload_skips_failed quiet_runtime file_events 0 [] load0 no_space load1). exact load1_run. Defined.

(** After the second load, which succeeds, [event1] is still owed. *)
Example still_undelivered : ev_id <$> log_undelivered (view load2.1) = [ev_id event1].
Proof. vm_compute. reflexivity. Qed.

Definition loading : Outside := mkOutside (Ok tt) (Ok quiet_runtime) (Ok tt) (Ok tt) (λ _, Ok file_events) (mkEventId 9) 400.

Lemma load_file_outcomes_witness :
  match run_load_file loading "events.json" ([], load0) with
  | (Ok _, (out', i')) => ∃ total, 0 <= total ∧
      out' = [] ++ ["loaded " +:+ pretty (len file_events) +:+ " submitted " +:+ pretty total] ∧
      loaded_events load0 file_events [] i'
  | (Err x, (out', i')) => out' = [] ∧ (∃ error, x = Failed (CliRuntime error)) ∧
      ∃ before event after stored, file_events = before ++ event :: after ∧ (stored = [] ∨ stored = [event]) ∧
        loaded_events load0 before stored i'
  end.
Proof. apply (load_file_outcomes loading "events.json" quiet_runtime file_events [] load0); reflexivity. Defined.

(** ** The application *)

Definition closed_env : Env := λ key,
  if bool_decide (key = "TRIGGERLANE_WEBHOOK_SECRET") then Some "s3cret"
  else if bool_decide (key = "TRIGGERLANE_READ_TOKEN") then Some "t0ken" else None.

Definition started : result CliError ServeConfig * SampleIngest := serve_startup closed_env quiet_runtime ingest2.
Definition closed_config : ServeConfig :=
  match started.1 with Ok config => config | Err _ => mkServeConfig None None None None unbounded 0 end.

Lemma started_run : serve_startup closed_env quiet_runtime ingest2 = (Ok closed_config, started.2).
Proof. vm_compute. reflexivity. Qed.

(** A list request with the wrong token. *)
Definition wrong_token : AppRequest := ToRead [(AUTHORIZATION, "Bearer token")] (list_events (mkListEventsQuery None None)).

Lemma app_is_closed_witness :
  let '(response, ci') := serve_ingest closed_config quiet_runtime Readiness_ready (λ _, "metrics") (mkEventId 9) 400
    wrong_token (mkSampleChannel [] true, ingest2) in
  (¬ credentials "s3cret" "t0ken" wrong_token →
     ci' = (mkSampleChannel [] true, ingest2) ∧ status response ∈ [PAYLOAD_TOO_LARGE; UNAUTHORIZED]) ∧
  match wrong_token with
  | ToHealthz | ToMetrics => ci' = (mkSampleChannel [] true, ingest2) ∧ status response = STATUS_OK
  | ToReadyz => ci' = (mkSampleChannel [] true, ingest2) ∧
      status response = if is_ready Readiness_ready then STATUS_OK else SERVICE_UNAVAILABLE
  | _ => True
  end.
Proof.
  apply (app_is_closed closed_env quiet_runtime ingest2 started.2 closed_config "s3cret" "t0ken" Readiness_ready
           (λ _, "metrics") (mkEventId 9) 400 wrong_token (mkSampleChannel [] true, ingest2)).
  - exact started_run.
  - reflexivity.
  - done.
  - reflexivity.
  - done.
Defined.

Example wrong_token_refused :
  status (serve_ingest closed_config quiet_runtime Readiness_ready (λ _, "metrics") (mkEventId 9) 400
    wrong_token (mkSampleChannel [] true, ingest2)).1 = UNAUTHORIZED.
Proof. vm_compute. reflexivity. Qed.
