(* ===== verification/Process.v ===== *)
(** * A process of the command line: [crates/triggerlane-cli/src/main.rs], [main] and [run]

    [Cli] is what [clap] makes of the arguments. A process connects to the broker,
    opens the stores its command needs, when the command gets there, runs the
    command and ends with a status; the next one finds what it left in the files.
    The two stores are on file systems of their own: their files are not shared. *)

From stdpp Require Import base gmap strings list pretty.
From Stdlib Require Import ZArith Lia.
From S2P Require Import Prelude RustStd Event Trigger Retention Store FileSystem Jsonl FileStore Runtime Ingest Http Config Cli.
Local Open Scope Z_scope.

(** [struct Cli]. *)
Record Cli := mkCli {
  cli_broker : string;
  cli_url : option string;
  cli_command : Command;
}.

(** What a process gets from outside: its environment, the files it reads, the
    connection to a broker, and the ids and instants it draws. *)
Record Setting := mkSetting {
  se_env : Env;
  se_read_to_string : string → result io_error string;
  se_connect : BrokerTarget → result CliError unit;
  se_fresh : nat → EventId;
  se_now : nat → DateTime;
}.

(** The files of the event store and of the dead-trigger queue. *)
Record Volumes := mkVolumes { vo_events : FS; vo_queue : FS }.

Section process.
Context `{UuidText} `{Worklane} {B : Type} `{!Broker B} `{!BrokerDeadLetters B}.
Context `{Serialize EventEnvelope} `{Deserialize EventEnvelope} `{Serialize EventId} `{Deserialize EventId}.
Context `{Serialize DeadTriggerRecord} `{Deserialize DeadTriggerRecord} `{HashSetIter}.
Context `{Chrono} `{SourceJson} `{Json} `{Deserialize TriggerFile} `{Deserialize (list FileEvent)}.
Context `{Serialize DeadLetterLine}.
Implicit Types (s : Setting) (b : B) (v : Volumes).

Local Abbreviation Files := (FileEventStore * FS)%type.
Local Abbreviation Queue := (FileDeadTriggerQueue * FS)%type.
Local Abbreviation W := (World B Queue LoggingTraceSink).
Local Abbreviation I := (Files * W)%type.

(** The outcome and the printed lines, the files and the broker. *)
Local Abbreviation Ended := ((result Exit unit * list string) * (Volumes * B))%type.

(** *** Opening *)

(** [build_ingest]: the stores in their order, then the rest; what is open when it
    fails stays created. *)
Definition build s b v : result CliError (TriggerRuntime * I) * Volumes :=
  match open_event_store (se_env s) (vo_events v) with
  | (Err error, events) => (Err error, mkVolumes events (vo_queue v))
  | (Ok store, events) =>
    match open_dead_trigger_queue (se_env s) (vo_queue v) with
    | (Err error, queue) => (Err error, mkVolumes events queue)
    | (Ok dead_triggers, queue) =>
      (build_ingest (Ok (store, events)) (Ok (dead_triggers, queue)) (cli_load_registry (se_read_to_string s) (se_env s))
         (runtime_options_from_env (se_env s)) b, mkVolumes events queue)
    end
  end.

(** The part of the pipeline that a command does not open, and does not use. *)
Definition no_store (events : FS) : Files :=
  (mkFileEventStore (mkJsonlStore EmptyString [] 0) (mkJsonlStore EmptyString [] 0) ∅, events).
Definition no_queue (queue : FS) : Queue := (mkFileDeadTriggerQueue (mkJsonlStore EmptyString [] 0), queue).
Definition bare_world b (queue : Queue) : W := mkWorld b queue (mkLoggingTraceSink []) ∅ [].

Definition outside s (built : result CliError TriggerRuntime) (queue : result io_error unit) : Outside :=
  mkOutside (mret tt) built (mret tt) queue
    (load_events_file (se_read_to_string s) (se_fresh s) (se_now s)) (se_fresh s 0) (se_now s 0).

(** *** The command *)

(** What a command reads of its arguments before anything else. *)
Definition arguments s (command : Command) : result Exit unit :=
  match command with
  | Prune policy =>
    match resolve_prune_policy (se_now s 0) policy with
    | None => Err Panicked
    | Some policy => map_err Failed (policy ≫= λ _, mret tt)
    end
  | Events (EventsGet id) | Events (EventsReplay id) => map_err Failed (parse_event_id id ≫= λ _, mret tt)
  | Events (EventsReplayRange start end_ _ source _) =>
    map_err Failed (_ ← parse_timestamp start; _ ← parse_timestamp end_;
                    match source with Some raw => _ ← parse_source raw; mret tt | None => mret tt end)
  | _ => mret tt
  end.

(** What a command opens. *)
Inductive Need := NeedsPipeline | NeedsStore | NeedsQueue | NeedsEach (policy : PrunePolicy) | NeedsBroker.

Definition need (command : Command) : Need :=
  match command with
  | Inject _ _ | LoadFile _ | RetryDeadTriggers | Events (EventsReplay _) | Events (EventsReplayRange _ _ _ _ _)
  | DeadTriggers DeadTriggersRetry => NeedsPipeline
  | Events EventsList | Events (EventsGet _) => NeedsStore
  | DeadTriggers DeadTriggersList => NeedsQueue
  | Prune policy => NeedsEach policy
  | WorklaneDlq _ => NeedsBroker
  end.

(** [run] from an open pipeline. *)
Definition run_from (o : Outside) (command : Command) (i : I) : Ended :=
  let '(outcome, (lines, (store, w))) := run o command ([], i) in
  ((outcome, lines), (mkVolumes store.2 (w_dead_triggers w).2, w_broker w)).

Definition ended_early (error : Exit) v b : Ended := ((Err error, []), (v, b)).

(** The connection of [broker_from_cli]. *)
Definition connected s (cli : Cli) : result CliError unit :=
  broker_from_cli (se_env s) (cli_broker cli) (cli_url cli) ≫= se_connect s.

Definition unbuilt : result CliError TriggerRuntime := Err (CliBroker EmptyString).

(** [prune]: the queue is opened once the store is pruned. *)
Definition prune_each s (policy : PrunePolicy) v b : Ended :=
  match open_event_store (se_env s) (vo_events v), resolve_prune_policy (se_now s 0) policy with
  | (Ok store, events), Some (Ok retention) =>
    match fes_prune retention (store, events) with
    | (Err error, pruned) => ended_early (Failed (CliIo error)) (mkVolumes pruned.2 (vo_queue v)) b
    | (Ok _, pruned) =>
      match open_dead_trigger_queue (se_env s) (vo_queue v) with
      | (Err error, queue) => ended_early (Failed error) (mkVolumes pruned.2 queue) b
      | (Ok dead_triggers, queue) =>
        run_from (outside s unbuilt (mret tt)) (Prune policy) ((store, events), bare_world b (dead_triggers, queue))
      end
    end
  | (Err error, events), _ => ended_early (Failed error) (mkVolumes events (vo_queue v)) b
  | (_, events), _ => ended_early Panicked (mkVolumes events (vo_queue v)) b
  end.

Definition process s (cli : Cli) v b : Ended :=
  let command := cli_command cli in
  match arguments s command with
  | Err error => ended_early error v b
  | Ok _ =>
    match need command with
    | NeedsPipeline =>
      match connected s cli with
      | Err error => ended_early (Failed error) v b
      | Ok _ =>
        match build s b v with
        | (Err error, v) => ended_early (Failed error) v b
        | (Ok (runtime, i), _) => run_from (outside s (Ok runtime) (mret tt)) command i
        end
      end
    | NeedsStore =>
      match open_event_store (se_env s) (vo_events v) with
      | (Err error, events) => ended_early (Failed error) (mkVolumes events (vo_queue v)) b
      | (Ok store, events) =>
        run_from (outside s unbuilt (mret tt)) command ((store, events), bare_world b (no_queue (vo_queue v)))
      end
    | NeedsQueue =>
      match open_dead_trigger_queue (se_env s) (vo_queue v) with
      | (Err error, queue) => ended_early (Failed error) (mkVolumes (vo_events v) queue) b
      | (Ok dead_triggers, queue) =>
        run_from (outside s unbuilt (mret tt)) command (no_store (vo_events v), bare_world b (dead_triggers, queue))
      end
    | NeedsEach policy => prune_each s policy v b
    | NeedsBroker =>
      match connected s cli with
      | Err error => ended_early (Failed error) v b
      | Ok _ =>
        run_from (outside s unbuilt (mret tt)) command (no_store (vo_events v), bare_world b (no_queue (vo_queue v)))
      end
    end
  end.
End process.
