(* ===== verification/ProcessSpec.v ===== *)
(** * What a process promises by its exit status

    The command line refines an abstract log: a process that ends well, whatever
    its command, leaves in the files the log [log_command] says, through any loss of
    power, and prints what [log_prints] says; the next process starts from there. All
    this while no call on the event store's volume fails; calls on the dead-trigger
    queue's may. *)

From stdpp Require Import base gmap strings list pretty.
From Stdlib Require Import ZArith Lia.
From S2P Require Import Prelude RustStd Event Trigger Retention Store FileSystem Jsonl JsonlSpec Durability FileStore FileDurability FileCalm.
From S2P Require Import Runtime Submission Handling Ingest Delivery Http Config Cli CliCommands Process.
Local Open Scope Z_scope.

(** ** The abstract commands *)

(** What a command that ends well makes of the log. *)
Definition log_ingest (log : EventLog) (event : EventEnvelope) : EventLog :=
  if known_in (log_events log) event then log else log_mark_delivered (ev_id event) (log_append event log).

Section abstract.
Context `{UuidText} `{Chrono} `{Serialize EventEnvelope} `{Deserialize (list FileEvent)}.
Implicit Types (s : Setting) (log : EventLog).

Definition file_events s (path : string) : result CliError (list EventEnvelope) :=
  load_events_file (se_read_to_string s) (se_fresh s) (se_now s) path.

Definition log_command s (command : Command) log : EventLog :=
  match command with
  | Inject event_type payload => log_ingest log (inject (se_fresh s 0) (se_now s 0) event_type payload)
  | LoadFile path => match file_events s path with Ok events => foldl log_ingest log events | Err _ => log end
  | Prune policy =>
    match resolve_prune_policy (se_now s 0) policy with Some (Ok retention) => (log_prune retention log).2 | _ => log end
  | _ => log
  end.

(** What a command that fails makes of it. The event whose dead trigger could not be
    recorded is stored and not marked; those before it are what they would be. *)
Definition log_stops (log : EventLog) (event : EventEnvelope) (log' : EventLog) : Prop :=
  log' = log ∨ known_in (log_events log) event = false ∧ log' = log_append event log.

Definition log_fails s (command : Command) log (log' : EventLog) : Prop :=
  match command with
  | Inject event_type payload => log_stops log (inject (se_fresh s 0) (se_now s 0) event_type payload) log'
  | LoadFile path => log' = log ∨ ∃ before event after, file_events s path = Ok (before ++ event :: after) ∧
      log_stops (foldl log_ingest log before) event log'
  | Prune policy => log' = log ∨ log' = log_command s command log
  | _ => log' = log
  end.

(** A line that is an event's JSON. *)
Definition event_line (event : EventEnvelope) (line : string) : Prop := ∃ text, to_vec event = Ok text ∧ line = of_bytes text.

(** What it prints, of the commands that read or add events. *)
Definition log_prints s (command : Command) log (lines : list string) : Prop :=
  match command with
  | Inject _ _ => ∃ n : Z, lines = ["ingested " +:+ EventId_to_string (se_fresh s 0) +:+ " submitted " +:+ pretty n]
  | LoadFile path => ∃ events (n : Z), file_events s path = Ok events ∧
      lines = ["loaded " +:+ pretty (len events) +:+ " submitted " +:+ pretty n]
  | Prune policy => ∃ retention (n : Z), resolve_prune_policy (se_now s 0) policy = Some (Ok retention) ∧
      lines = ["pruned events " +:+ pretty (log_prune retention log).1 +:+ " dead-triggers " +:+ pretty n]
  | Events EventsList => Forall2 event_line (log_events log) lines
  | Events (EventsGet id) => ∃ eid event line, EventId_from_str id = Ok eid ∧ log_get eid log = Some event ∧
      event_line event line ∧ lines = [line]
  | _ => True
  end.
End abstract.

Section durable.
Context `{!UuidText} `{!Worklane} {B : Type} `{!Broker B} `{!BrokerDeadLetters B}.
Context `{JsonCodec EventEnvelope} `{JsonCodec EventId}.
Context `{Serialize DeadTriggerRecord} `{Deserialize DeadTriggerRecord} `{HashSetIter}.
Context `{Chrono} `{SourceJson} `{Json} `{Deserialize TriggerFile} `{Deserialize (list FileEvent)}.
Context `{Serialize DeadLetterLine}.
Implicit Types (s : Setting) (b : B) (v : Volumes) (log : EventLog) (st : FileEventStore * FS).

Definition store_path (env : Env) : string := default DEFAULT_STORE_PATH (env "TRIGGERLANE_STORE").

(** *** The pipeline on it *)

Local Abbreviation Queue := (FileDeadTriggerQueue * FS)%type.
Local Abbreviation I := ((FileEventStore * FS) * World B Queue LoggingTraceSink)%type.
Implicit Types i : I.

Lemma on_store_ok {A} (m : M (FileEventStore * FS) io_error A) i a i' :
  mapM_err Storage (on_store m) i = (Ok a, i') → ∃ st, m i.1 = (Ok a, st) ∧ i' = (st, i.2).
Proof.
  unfold mapM_err, on_store, zoom. destruct (m i.1) as [[x|x] st]; [|done]. intros [= <- <-]. by exists st.
Qed.

Lemma on_world_store {E A} (m : M (World B Queue LoggingTraceSink) E A) i r i' : on_world m i = (r, i') → i'.1 = i.1.
Proof. unfold on_world, zoom. destruct (m i.2) as [x w]. by intros [= <- <-]. Qed.

Lemma ingest_log runtime event i rep i' :
  ingest runtime event i = (Ok rep, i') →
  view i'.1 = log_ingest (view i.1) event ∧
  (idempotency_key (ev_metadata event) = None → ir_event_id rep = EventId_to_string (ev_id event)).
Proof.
  intros Hi. pose proof (ingest_run runtime event i) as Hrun. pose proof (ingest_known runtime event i) as Hk.
  rewrite Hi in Hrun, Hk. unfold log_ingest. change (log_events (view i.1)) with (log_of_pipeline i).
  rewrite <-Hk. destruct (ir_deduplicated rep).
  - destruct Hrun as (-> & _ & e & _ & [[key Hn] _] & _). split; [done|]. intros Hnone. congruence.
  - destruct Hrun as (_ & Hid & _ & Hv). by split.
Qed.

Lemma ingest_stops runtime event i x i' :
  ingest runtime event i = (Err x, i') → log_stops (view i.1) event (view i'.1).
Proof.
  intros Hi. pose proof (ingest_run runtime event i) as Hrun. pose proof (ingest_known runtime event i) as Hk.
  rewrite Hi in Hrun, Hk. destruct Hrun as [(_ & _ & _ & Hv)|[Hv _]]; [by left|right]. by split.
Qed.

Local Abbreviation C := (list string * I)%type.

Lemma on_pipeline_ok {E A} (f : E → CliError) (m : M I E A) out i a c' :
  on_pipeline f m (out, i) = (Ok a, c') → ∃ i', m i = (Ok a, i') ∧ c' = (out, i').
Proof.
  unfold on_pipeline, mapM_err, zoom. simpl. destruct (m i) as [[x|x] i']; [|done]. intros [= <- <-]. by exists i'.
Qed.

Lemma on_pipeline_err {E A} (f : E → CliError) (m : M I E A) out i x c' :
  on_pipeline f m (out, i) = (Err x, c') → ∃ e i', m i = (Err e, i') ∧ c' = (out, i').
Proof.
  unfold on_pipeline, mapM_err, zoom. simpl. destruct (m i) as [[y|y] i']; [done|]. intros [= _ <-]. by exists y, i'.
Qed.

Lemma load_loop_log runtime events total out i total' c' :
  load_loop runtime events total (out, i) = (Ok total', c') →
  c'.1 = out ∧ view c'.2.1 = foldl log_ingest (view i.1) events.
Proof.
  revert total i. induction events as [|event events IH]; intros total i; simpl.
  { by intros [= _ <-]. }
  intros (rep & c1 & (i1 & Hi & ->)%on_pipeline_ok & Hl)%bind_ok_inv.
  destruct (ingest_log _ _ _ _ _ Hi) as (Hv & _). destruct (IH _ i1 Hl) as (Ho & Hv').
  split; [done|]. etrans; [exact Hv'|]. by rewrite Hv.
Qed.

Lemma load_loop_stops runtime events total out i x c' :
  load_loop runtime events total (out, i) = (Err x, c') →
  ∃ before event after, events = before ++ event :: after ∧
    log_stops (foldl log_ingest (view i.1) before) event (view c'.2.1).
Proof.
  revert total i. induction events as [|event events IH]; intros total i; simpl; [done|].
  unfold mbind at 1, M_bind at 1. destruct (on_pipeline _ _ _) as [[rep|y] c1] eqn:Hp.
  - apply on_pipeline_ok in Hp as (i1 & Hi & ->). destruct (ingest_log _ _ _ _ _ Hi) as [Hv _].
    intros (before & e & after & -> & Hs)%IH. exists (event :: before), e, after. split; [done|]. rewrite Hv in Hs. exact Hs.
  - apply on_pipeline_err in Hp as (e & i1 & Hi & ->). intros [= _ <-]. exists [], event, events. split; [done|].
    by apply ingest_stops in Hi.
Qed.

(** *** The commands, from an open pipeline *)

Lemma println_ok line out i (c' : C) :
  println line (out, i) = (Ok tt, c') → c' = (out ++ [line], i).
Proof. by intros [= <-]. Qed.

Lemma fallible_ok {A} (r : result CliError A) (c : C) a c' : fallible r c = (Ok a, c') → r = Ok a ∧ c' = c.
Proof. unfold fallible, lift. intros [= Hr <-]. destruct r; [by injection Hr as ->|done]. Qed.

Lemma println_events events out i (c' : C) :
  for_each events println_json (out, i) = (Ok tt, c') →
  ∃ lines, Forall2 event_line events lines ∧ c' = (out ++ lines, i).
Proof.
  revert out. induction events as [|event events IH]; intros out; simpl.
  { intros [= <-]. exists []. rewrite app_nil_r. by split. }
  intros ([] & c1 & Hp & Hf)%bind_ok_inv. unfold println_json in Hp.
  apply bind_ok_inv in Hp as (text & c2 & [Ht ->]%fallible_ok & Hp). apply println_ok in Hp as ->.
  apply IH in Hf as (lines & Hl & ->). exists (of_bytes text :: lines). rewrite <-(assoc_L (++)). split; [|done].
  constructor; [|done]. exists text. split; [|done]. by destruct (to_vec event); simpl in Ht; [injection Ht as ->|].
Qed.

(** *** What the commands do to the log *)

Lemma on_pipeline_world {E A} (f : E → CliError) (m : M (World B Queue LoggingTraceSink) E A) out i a c' :
  on_pipeline f (on_world m) (out, i) = (Ok a, c') → c'.1 = out ∧ c'.2.1 = i.1.
Proof. intros (i' & Hi%on_world_store & ->)%on_pipeline_ok. done. Qed.

Lemma run_inject_log o event_type payload i lines i' :
  run_inject o event_type payload ([], i) = (Ok tt, (lines, i')) →
  view i'.1 = log_ingest (view i.1) (inject (o_fresh o) (o_now o) event_type payload) ∧
  ∃ n : Z, lines = ["ingested " +:+ EventId_to_string (o_fresh o) +:+ " submitted " +:+ pretty n].
Proof.
  intros (runtime & c1 & [_ ->]%fallible_ok & Hr)%bind_ok_inv.
  apply bind_ok_inv in Hr as (rep & c2 & (i2 & Hi & ->)%on_pipeline_ok & Hr). apply println_ok in Hr as [= -> ->].
  destruct (ingest_log _ _ _ _ _ Hi) as (Hv & Hid). split; [done|]. eexists. by rewrite Hid.
Qed.

Lemma run_load_file_log o file i lines i' :
  run_load_file o file ([], i) = (Ok tt, (lines, i')) →
  ∃ events n, o_events_file o file = Ok events ∧ view i'.1 = foldl log_ingest (view i.1) events ∧
    lines = ["loaded " +:+ pretty (len events) +:+ " submitted " +:+ pretty (n : Z)].
Proof.
  intros (runtime & c1 & [_ ->]%fallible_ok & Hr)%bind_ok_inv.
  apply bind_ok_inv in Hr as (events & c2 & [He ->]%fallible_ok & Hr).
  apply bind_ok_inv in Hr as (n & [out i2] & Hl & Hr). apply println_ok in Hr as [= -> ->].
  destruct (load_loop_log _ _ _ _ _ _ _ Hl) as (Ho & Hv). simpl in Ho. subst out. by exists events, n.
Qed.

Lemma run_prune_log o policy i lines i' :
  run_prune o policy ([], i) = (Ok tt, (lines, i')) →
  ∃ retention n, resolve_prune_policy (o_now o) policy = Some (Ok retention) ∧
    view i'.1 = (log_prune retention (view i.1)).2 ∧
    lines = ["pruned events " +:+ pretty (log_prune retention (view i.1)).1 +:+ " dead-triggers " +:+ pretty (n : Z)].
Proof.
  unfold run_prune. destruct (resolve_prune_policy (o_now o) policy) as [r|]; [|done].
  intros (retention & c1 & [-> ->]%fallible_ok & Hr)%bind_ok_inv.
  apply bind_ok_inv in Hr as (? & c2 & [_ ->]%fallible_ok & Hr).
  apply bind_ok_inv in Hr as (n & c3 & (i3 & Hp & ->)%on_pipeline_ok & Hr).
  apply bind_ok_inv in Hr as (? & c4 & [_ ->]%fallible_ok & Hr).
  apply bind_ok_inv in Hr as (m & [out i5] & [Ho Hs]%on_pipeline_world & Hr). apply println_ok in Hr as [= -> ->].
  simpl in Ho, Hs. subst out. unfold on_store, zoom in Hp. destruct (es_prune retention i.1) as [res st] eqn:Hes.
  injection Hp as -> <-. simpl in Hs. exists retention, m. rewrite <-(prune_ok _ _ _ _ Hes). by rewrite Hs.
Qed.

Lemma run_events_lines o command i lines i' :
  run_events o command ([], i) = (Ok tt, (lines, i')) →
  match command with
  | EventsList => Forall2 event_line (log_events (view i.1)) lines
  | EventsGet id => ∃ eid event line, EventId_from_str id = Ok eid ∧ log_get eid (view i.1) = Some event ∧
      event_line event line ∧ lines = [line]
  | _ => True
  end.
Proof.
  destruct command as [|id|id|start end_ event_type source dry_run]; simpl; [..|done|done].
  - intros (? & c1 & [_ ->]%fallible_ok & Hr)%bind_ok_inv.
    apply bind_ok_inv in Hr as (events & c2 & [= <- <-] & Hr). by apply println_events in Hr as (ls & Hl & [= -> ->]).
  - intros (eid & c1 & [Hid ->]%fallible_ok & Hr)%bind_ok_inv.
    apply bind_ok_inv in Hr as (? & c2 & [_ ->]%fallible_ok & Hr).
    apply bind_ok_inv in Hr as (found & c3 & [= <- <-] & Hr). cbn [fst snd] in Hr.
    destruct (fes_get eid i.1) as [event|] eqn:Hg; [|done]. unfold println_json in Hr.
    apply bind_ok_inv in Hr as (text & c4 & [Ht ->]%fallible_ok & Hr). apply println_ok in Hr as [= -> ->].
    exists eid, event, (of_bytes text). unfold parse_event_id in Hid.
    destruct (EventId_from_str id) as [eid'|]; [|done]. injection Hid as ->. split; [done|].
    split; [exact (eq_trans (eq_sym (get_view eid i.1)) Hg)|]. split; [|done]. exists text. split; [|done].
    by destruct (to_vec event); [injection Ht as ->|].
Qed.

(** A command that fails. *)
Lemma fallible_err {A} (r : result CliError A) (c : C) x c' : fallible r c = (Err x, c') → c' = c.
Proof. by intros [= _ <-]. Qed.

Lemma run_inject_stops o event_type payload i x c' :
  run_inject o event_type payload ([], i) = (Err x, c') →
  log_stops (view i.1) (inject (o_fresh o) (o_now o) event_type payload) (view c'.2.1).
Proof.
  unfold run_inject. unfold mbind at 1, M_bind at 1. destruct (fallible _ _) as [[runtime|y] c1] eqn:Hf.
  2: { apply fallible_err in Hf as ->. intros [= _ <-]. by left. }
  apply fallible_ok in Hf as [_ ->]. unfold mbind, M_bind. destruct (on_pipeline _ _ _) as [[rep|y] c2] eqn:Hp; [done|].
  apply on_pipeline_err in Hp as (e & i1 & Hi & ->). intros [= _ <-]. by apply ingest_stops in Hi.
Qed.

Lemma run_load_file_stops o file i x c' :
  run_load_file o file ([], i) = (Err x, c') →
  view c'.2.1 = view i.1 ∨ ∃ before event after, o_events_file o file = Ok (before ++ event :: after) ∧
    log_stops (foldl log_ingest (view i.1) before) event (view c'.2.1).
Proof.
  unfold run_load_file. unfold mbind at 1 2, M_bind at 1 2. destruct (fallible (o_built o) _) as [[runtime|y] c1] eqn:Hf.
  2: { apply fallible_err in Hf as ->. intros [= _ <-]. by left. }
  apply fallible_ok in Hf as [_ ->]. destruct (fallible _ _) as [[events|y] c1] eqn:Hf.
  2: { apply fallible_err in Hf as ->. intros [= _ <-]. by left. }
  apply fallible_ok in Hf as [He ->]. unfold mbind, M_bind. destruct (load_loop _ _ _ _) as [[n|y] c2] eqn:Hl; [done|].
  intros [= _ <-]. right. apply load_loop_stops in Hl as (before & event & after & -> & Hs). eauto.
Qed.

Lemma run_prune_stops o policy i x c' :
  run_prune o policy ([], i) = (Err x, c') →
  view c'.2.1 = view i.1 ∨
  ∃ retention, resolve_prune_policy (o_now o) policy = Some (Ok retention) ∧ view c'.2.1 = (log_prune retention (view i.1)).2.
Proof.
  unfold run_prune. destruct (resolve_prune_policy (o_now o) policy) as [[retention|y]|]; [|by intros [= _ <-]; left..].
  unfold fallible, lift. cbn [map_err]. unfold mbind at 1 2, M_bind at 1 2. destruct (o_store o); cbn [map_err]; [|by intros [= _ <-]; left].
  unfold mbind at 1, M_bind at 1. destruct (on_pipeline _ _ _) as [[n|y] c1] eqn:Hp.
  2: { apply on_pipeline_err in Hp as (e & i1 & Hp & ->). intros [= _ <-]. left. unfold on_store, zoom in Hp.
       destruct (es_prune retention i.1) as [res st] eqn:Hes. injection Hp as -> <-. by eapply prune_err. }
  apply on_pipeline_ok in Hp as (i1 & Hp & ->). unfold on_store, zoom in Hp.
  destruct (es_prune retention i.1) as [res st] eqn:Hes. injection Hp as -> <-. apply prune_ok in Hes.
  intros Hr. right. exists retention. split; [done|]. rewrite <-Hes. cbn [snd]. revert Hr.
  unfold mbind at 1, M_bind at 1. destruct (o_queue o); cbn [map_err]; [|by intros [= _ <-]].
  unfold mbind, M_bind. destruct (on_pipeline _ _ _) as [[m|y] c2] eqn:Hp; [done|]. intros [= _ <-].
  by apply on_pipeline_err in Hp as (e & i1 & Hi%on_world_store & ->); simpl; rewrite Hi.
Qed.

(** *** What the commands keep of the store *)

(** A predicate on the store alone. *)
Definition of_store (P : FileEventStore * FS → Prop) (c : C) : Prop := P c.2.1.

Lemma keeps_fallible P {A} (r : result CliError A) : preserves (of_store P) (fallible r).
Proof. by intros c. Qed.
Lemma keeps_println P line : preserves (of_store P) (println line).
Proof. by intros c. Qed.
Lemma keeps_gets P {A} (f : C → A) : preserves (of_store P) (gets (E := Exit) f).
Proof. by intros c. Qed.
Lemma keeps_throw P {A} x : preserves (of_store P) (throw (E := Exit) (A := A) x).
Proof. by intros c. Qed.
Lemma keeps_println_json P {T} `{Serialize T} (record : T) : preserves (of_store P) (println_json record).
Proof. apply preserves_bind; [apply keeps_fallible|]. intros text. apply keeps_println. Qed.

Lemma keeps_pipeline P {E A} (f : E → CliError) (m : M I E A) :
  preserves (λ i, P i.1) m → preserves (of_store P) (on_pipeline f m).
Proof.
  intros Hm [out i] Hc. specialize (Hm i Hc). unfold on_pipeline, mapM_err, zoom, of_store in *. simpl in *.
  by destruct (m i).
Qed.

Lemma keeps_on_world P {E A} (m : M (World B Queue LoggingTraceSink) E A) : preserves (λ i : I, P i.1) (on_world m).
Proof.
  intros i Hi. destruct (on_world m i) as [r i'] eqn:Hw. apply on_world_store in Hw. simpl. by rewrite Hw.
Qed.

Create HintDb keeps.
#[local] Hint Resolve keeps_fallible keeps_println keeps_gets keeps_throw keeps_println_json keeps_pipeline keeps_on_world : keeps.

Local Ltac keeps :=
  repeat first
    [ progress eauto with keeps
    | apply preserves_bind; [|intros ?]
    | apply preserves_for_each; intros ? _
    | match goal with |- preserves _ (match ?x with _ => _ end) => destruct x end ].

Lemma ingest_calm path runtime event : preserves (λ i : I, fes_calm path i.1) (ingest runtime event).
Proof.
  unfold ingest. apply preserves_bind; [by intros i|]. intros [e|]; [by intros i|].
  assert (∀ m : M (FileEventStore * FS) io_error unit,
    (∀ st, fes_calm path st → match m st with (Ok _, st') => fes_calm path st' | (Err _, st') => st' = st end) →
    preserves (λ i : I, fes_calm path i.1) (mapM_err Storage (on_store m))) as Hon.
  { intros m Hm i Hi. specialize (Hm _ Hi). unfold mapM_err, on_store, zoom. destruct (m i.1) as [[a|x] st]; [done|].
    simpl. by subst st. }
  apply preserves_bind; [apply Hon; intros st; apply fes_append_calm|]. intros _.
  apply preserves_bind; [apply (keeps_on_world (fes_calm path))|]. intros report.
  apply preserves_bind; [apply Hon; intros st; apply fes_mark_calm|]. by intros _ i.
Qed.

Lemma load_loop_calm path runtime events total : preserves (of_store (fes_calm path)) (load_loop runtime events total).
Proof.
  revert total. induction events as [|event events IH]; intros total; [by intros c|]. cbn [load_loop].
  apply preserves_bind; [apply keeps_pipeline, ingest_calm|]. intros rep. apply IH.
Qed.

(** What only reads the log, or runs the runtime on it, leaves the store alone. *)
Definition leaves_store (command : Command) : bool :=
  match command with Inject _ _ | LoadFile _ | Prune _ => false | _ => true end.

Lemma run_frame P o command : leaves_store command = true → preserves (of_store P) (run o command).
Proof.
  destruct command as [event_type payload|file| |policy|command|command|command]; intros Hl; try done; cbn [run].
  - unfold run_retry. keeps.
  - destruct command; cbn [run_events]; keeps.
  - destruct command; cbn [run_dead_triggers]; [|unfold run_retry]; keeps.
  - unfold run_worklane_dlq. keeps.
Qed.

Lemma run_calm path o command : preserves (of_store (fes_calm path)) (run o command).
Proof.
  destruct (leaves_store command) eqn:Hl; [by apply run_frame|].
  destruct command as [event_type payload|file| |policy|command|command|command]; try done; cbn [run].
  - unfold run_inject. pose proof ingest_calm. keeps.
  - unfold run_load_file. pose proof load_loop_calm. keeps.
  - unfold run_prune. destruct (resolve_prune_policy _ _); [|by intros c].
    assert (∀ retention, preserves (λ i : I, fes_calm path i.1) (on_store (es_prune retention))) as Hprune.
    { intros retention i Hi. unfold on_store, zoom. cbn [es_prune FileEventStore_EventStore].
      by destruct (fes_prune_calm _ retention _ Hi) as (n & st' & -> & Hc). }
    keeps.
Qed.

(** Both outcomes of the commands that open the event store. *)
Lemma run_log path s built queue command i outcome lines i' :
  fes_calm path i.1 → run (outside s built queue) command ([], i) = (outcome, (lines, i')) →
  fes_at path i'.1 ∧
  match outcome with
  | Ok _ => view i'.1 = log_command s command (view i.1) ∧ log_prints s command (view i.1) lines
  | Err _ => log_fails s command (view i.1) (view i'.1)
  end.
Proof.
  intros Hat Hr. split.
  { pose proof (run_calm path (outside s built queue) command ([], i) Hat) as Hc. rewrite Hr in Hc. apply Hc. }
  assert (leaves_store command = true → i'.1 = i.1) as Hframe.
  { intros Hl. pose proof (run_frame (λ st, st = i.1) (outside s built queue) command Hl ([], i) eq_refl) as Hf.
    by rewrite Hr in Hf. }
  destruct command as [event_type payload|file| |policy|command|command|command], outcome as [[]|x]; cbn [run] in Hr; try (rewrite Hframe by done).
  - exact (run_inject_log _ _ _ _ _ _ Hr).
  - exact (run_inject_stops _ _ _ _ _ _ Hr).
  - destruct (run_load_file_log _ _ _ _ _ Hr) as (events & n & He & Hv & Hl). simpl in He.
    simpl. unfold file_events. rewrite He. eauto.
  - exact (run_load_file_stops _ _ _ _ _ Hr).
  - done.
  - done.
  - destruct (run_prune_log _ _ _ _ _ Hr) as (retention & n & Hp & Hv & Hl). simpl in Hp. simpl. rewrite Hp. eauto 6.
  - destruct (run_prune_stops _ _ _ _ _ Hr) as [Hv|(retention & Hp & Hv)]; [by left|right].
    simpl in Hp |- *. by rewrite Hp.
  - split; [by destruct command|]. pose proof (run_events_lines _ _ _ _ _ Hr) as Hl. by destruct command.
  - by destruct command.
  - split; [by destruct command|]. by destruct command.
  - by destruct command.
  - split; [by destruct command|]. by destruct command.
  - by destruct command.
Qed.

(** *** From process to process *)

(** No store of [path] was ever opened on the volume. *)
Definition unused (path : string) (fs : FS) : Prop :=
  fs_wf fs ∧ ∀ p, p ∈ [path; delivered_path path] → fs_dir fs !! p = None ∧ fs_durable_dir fs !! p = None.

(** The volume as a process finds it: no call on it fails while the process runs. *)
Definition holds (path : string) (fs : FS) log : Prop :=
  no_faults fs ∧
  (unused path fs ∧ log = mkEventLog [] ∅ ∨
   ∃ store fs0, fes_at path (store, fs0) ∧ crash fs0 fs ∧ fes_view (store, fs0) = log).

Lemma holds_crash path fs log fs' : holds path fs log → crash fs fs' → no_faults fs' → holds path fs' log.
Proof.
  intros [Hnf [[[Hwf Hn] ->]|(store & fs0 & [Hok Hp] & Hcr & <-)]] Hcr' Hnf'; split; [done| |done|].
  - left. split; [|done]. split; [by eapply crash_wf|]. intros p Hin. destruct (Hn p Hin) as [Hd Hdd].
    destruct Hcr' as [dir data faults [-> | ->] _]; by split.
  - right. exists store, fs. split; [|done]. split; [|done]. by destruct (fes_restart _ _ Hok Hcr Hnf).
Qed.

(** Opening it succeeds. *)
Lemma holds_open path fs log :
  paths_ok path → holds path fs log →
  ∃ store fs', fes_open path fs = (Ok store, fs') ∧ fes_calm path (store, fs') ∧ view (store, fs') = log.
Proof.
  intros Hp [Hnf [[[Hwf Hn] ->]|(st & fs0 & [Hok Hpath] & Hcr & <-)]].
  - destruct (Hn path) as [Hd _]; [by left|]. destruct (Hn (delivered_path path)) as [Hdd _]; [by right; left|].
    destruct (fes_open_calm path fs Hp Hwf Hnf Hd Hdd) as (store & fs' & Ho & Hnf'). exists store, fs'.
    destruct (fes_open_new _ _ _ _ Hp Hwf Hd Hdd Ho) as [Hv Hok]. split; [done|]. split; [|done].
    split; [|done]. split; [done|]. by eapply fes_open_path.
  - destruct (fes_restart _ _ Hok Hcr Hnf) as [Ho Hok']. simpl in Hpath, Ho. rewrite Hpath in Ho. by exists st, fs.
Qed.

(** What a store in order leaves. *)
Lemma at_holds path st fs : fes_at path st → crash st.2 fs → no_faults fs → holds path fs (view st).
Proof. intros Hat Hcr Hnf. split; [done|]. right. exists st.1, st.2. by destruct st. Qed.

Lemma open_event_store_holds s v log :
  paths_ok (store_path (se_env s)) → holds (store_path (se_env s)) (vo_events v) log →
  ∃ store fs, open_event_store (se_env s) (vo_events v) = (Ok store, fs) ∧
    fes_calm (store_path (se_env s)) (store, fs) ∧ view (store, fs) = log.
Proof.
  intros Hp Hh. destruct (holds_open _ _ _ Hp Hh) as (store & fs & Ho & Hrest). exists store, fs. split; [|done].
  unfold open_event_store, mapM_err. fold (store_path (se_env s)). by rewrite Ho.
Qed.

(** What is built has the log, and so has what a failure leaves. *)
Lemma build_holds s b v log :
  paths_ok (store_path (se_env s)) → holds (store_path (se_env s)) (vo_events v) log →
  match build s b v with
  | (Ok (_, i), _) => fes_calm (store_path (se_env s)) i.1 ∧ view i.1 = log
  | (Err _, v') => ∃ store, fes_at (store_path (se_env s)) (store, vo_events v') ∧ view (store, vo_events v') = log
  end.
Proof.
  intros Hp Hh. unfold build. destruct (open_event_store_holds _ _ _ Hp Hh) as (store & fs & -> & Hcalm & Hv).
  destruct (open_dead_trigger_queue _ _) as [[queue|x] fq]; [|exists store; split; [apply Hcalm|done]].
  unfold build_ingest. cbn [mbind result_bind]. destruct (cli_load_registry _ _); cbn [mbind result_bind];
    [|exists store; split; [apply Hcalm|done]].
  destruct (runtime_options_from_env _); cbn [mbind result_bind]; [done|exists store; split; [apply Hcalm|done]].
Qed.

(** The log after a process, by its exit status. *)
Definition log_after s (command : Command) (ended_well : bool) log log' : Prop :=
  if ended_well then log' = log_command s command log else log_fails s command log log'.

Lemma log_fails_same s command log : log_fails s command log log.
Proof. destruct command; simpl; unfold log_stops; auto. Qed.

(** What the next process finds, and what this one printed. *)
Definition ends s (command : Command) log (outcome : result Exit unit) (lines : list string) v : Prop :=
  (is_ok outcome = true → log_prints s command log lines) ∧
  ∃ log', log_after s command (is_ok outcome) log log' ∧
    ∀ fs, crash (vo_events v) fs → no_faults fs → holds (store_path (se_env s)) fs log'.

Lemma ends_early s command log error v (b : B) :
  (∀ fs, crash (vo_events v) fs → no_faults fs → holds (store_path (se_env s)) fs log) →
  ∀ outcome lines v' b', ended_early error v b = ((outcome, lines), (v', b')) → ends s command log outcome lines v'.
Proof. intros Hh outcome lines v' b' [= <- <- <- _]. split; [done|]. exists log. split; [apply log_fails_same|done]. Qed.

Lemma ends_run s built queue command i :
  fes_calm (store_path (se_env s)) i.1 →
  ∀ outcome lines v' b', run_from (outside s built queue) command i = ((outcome, lines), (v', b')) →
    ends s command (view i.1) outcome lines v'.
Proof.
  intros Hat outcome lines v' b'. unfold run_from.
  destruct (run _ _ _) as [r [ls [st w]]] eqn:Hr. intros [= -> -> <- _].
  destruct (run_log _ _ _ _ _ _ _ _ _ Hat Hr) as [Hat' Hlog].
  split; [by destruct outcome; [intros _; apply Hlog|]|]. exists (view st). split; [by destruct outcome; [apply Hlog|]|].
  intros fs Hcr Hnf. by apply (at_holds _ _ _ Hat').
Qed.

(** The commands that do not open it. *)
Lemma ends_run_without s built queue command v w log :
  command = DeadTriggers DeadTriggersList ∨ (∃ dlq, command = WorklaneDlq dlq) →
  holds (store_path (se_env s)) (vo_events v) log →
  ∀ outcome lines v' b',
    run_from (outside s built queue) command (no_store (vo_events v), w) = ((outcome, lines), (v', b')) →
    ends s command log outcome lines v'.
Proof.
  intros Hc Hh outcome lines v' b'. unfold run_from. destruct (run _ _ _) as [r [ls [st w']]] eqn:Hr.
  intros [= -> -> <- _].
  assert (st = no_store (vo_events v)) as ->.
  { pose proof (run_frame (λ st, st = no_store (vo_events v)) (outside s built queue) command
      ltac:(by destruct Hc as [-> |[? ->]]) ([], (no_store (vo_events v), w)) eq_refl) as Hf. by rewrite Hr in Hf. }
  split; [by destruct Hc as [-> |[? ->]]|]. exists log. split; [by destruct Hc as [-> |[? ->]], outcome|].
  intros fs Hcr Hnf. by eapply holds_crash.
Qed.

(** One process. *)
Lemma process_log s cli v b log outcome lines v' b' :
  paths_ok (store_path (se_env s)) → holds (store_path (se_env s)) (vo_events v) log →
  process s cli v b = ((outcome, lines), (v', b')) → ends s (cli_command cli) log outcome lines v'.
Proof.
  intros Hp Hh. unfold process. set (command := cli_command cli).
  destruct (arguments s command); [|apply ends_early; intros fs; by apply holds_crash].
  destruct (need command) as [| | |policy|] eqn:Hn.
  - destruct (connected s cli); [|apply ends_early; intros fs; by apply holds_crash].
    pose proof (build_holds s b v log Hp Hh) as Hb. destruct (build s b v) as [[[runtime i]|x] v1].
    + destruct Hb as [Hat <-]. by apply ends_run.
    + destruct Hb as (store & Hat & <-). apply ends_early. intros fs Hcr Hnf. by apply (at_holds _ _ _ Hat).
  - destruct (open_event_store_holds _ _ _ Hp Hh) as (store & fs & -> & Hat & <-).
    by apply (ends_run s unbuilt (mret tt) command ((store, fs), bare_world b (no_queue (vo_queue v)))).
  - assert (command = DeadTriggers DeadTriggersList) as Hc by (destruct command as [| | | |[]|[]|]; done).
    destruct (open_dead_trigger_queue _ _) as [[queue|x] fq]; [|apply ends_early; intros fs; by apply holds_crash].
    apply ends_run_without; [by left|done].
  - assert (command = Prune policy) as Hc by (destruct command as [| | | |[]|[]|]; simpl in Hn; by simplify_eq).
    unfold prune_each. destruct (open_event_store_holds _ _ _ Hp Hh) as (store & fs & -> & Hat & <-).
    assert (∀ x, ∀ outcome lines v' b', ended_early x (mkVolumes fs (vo_queue v)) b = ((outcome, lines), (v', b')) →
      ends s command (view (store, fs)) outcome lines v') as Hearly.
    { intros x. apply ends_early. intros fs' Hcr Hnf. by apply (at_holds _ _ _ (proj1 Hat)). }
    destruct (resolve_prune_policy _ policy) as [[retention|x]|] eqn:Hpol; [|apply Hearly..].
    destruct (fes_prune_calm _ retention _ Hat) as (n & pruned & Hprune & Hat'). rewrite Hprune.
    destruct (open_dead_trigger_queue _ _) as [[queue|x] fq].
    + rewrite <-Hc. by apply (ends_run s unbuilt (mret tt) command ((store, fs), bare_world b (queue, fq))).
    + intros [= <- <- <- _]. split; [done|]. exists (view pruned). split.
      * rewrite Hc. right. simpl. rewrite Hpol. change (es_prune retention (store, fs) = (Ok n, pruned)) in Hprune.
        exact (f_equal snd (prune_ok _ _ _ _ Hprune)).
      * intros fs' Hcr Hnf. by apply (at_holds _ _ _ (proj1 Hat')).
  - assert (∃ dlq, command = WorklaneDlq dlq) as Hc by (destruct command as [| | | |[]|[]|dlq]; simpl in Hn; try done; by exists dlq).
    destruct (connected s cli); [|apply ends_early; intros fs; by apply holds_crash].
    apply ends_run_without; [by right|done].
Qed.

(** A process that ended and the loss of power after it, and what is said of it:
    its setting, its command and whether its exit status was 0. The volume of the
    queue, and the broker, are whatever they are. *)
Record Run := mkRun { rn_setting : Setting; rn_command : Command; rn_well : bool }.

Inductive power_cycle (path : string) (v : Volumes) : Run → Volumes → Prop :=
| power_cycle_intro s cli b outcome lines v' b' fs fq :
    store_path (se_env s) = path → process s cli v b = ((outcome, lines), (v', b')) →
    crash (vo_events v') fs → no_faults fs →
    power_cycle path v (mkRun s (cli_command cli) (is_ok outcome)) (mkVolumes fs fq).

Definition log_cycle log (run : Run) log' : Prop := log_after (rn_setting run) (rn_command run) (rn_well run) log log'.

(** The steps of a history, one after the other. *)
Fixpoint along {X L} (step : X → L → X → Prop) (history : list L) (x x' : X) : Prop :=
  match history with
  | [] => x' = x
  | l :: history => ∃ y, step x l y ∧ along step history y x'
  end.

Lemma cycles_hold path history v v' log :
  paths_ok path → along (power_cycle path) history v v' → holds path (vo_events v) log →
  ∃ log', along log_cycle history log log' ∧ holds path (vo_events v') log'.
Proof.
  intros Hp. revert v log. induction history as [|run history IH]; intros v log Hr Hh; simpl in Hr.
  { subst v'. by exists log. }
  destruct Hr as (v1 & Hc & Hr). destruct Hc as [s cli b outcome lines v2 b2 fs fq <- Hpr Hcr Hnf].
  destruct (process_log _ _ _ _ _ _ _ _ _ Hp Hh Hpr) as (_ & log1 & Hl & Hnext).
  destruct (IH _ log1 Hr (Hnext fs Hcr Hnf)) as (log' & Hal & Hh'). exists log'. split; [|done]. by exists log1.
Qed.

(** What is stored has a text. *)
Lemma println_stored (events : list EventEnvelope) bs out i :
  encodes events bs → ∃ lines, for_each events println_json (out, i) = (Ok tt, (out ++ lines, i)).
Proof.
  intros He. revert out. induction He as [|event text events bs Ht _ IH]; intros out.
  { exists []. by rewrite app_nil_r. }
  destruct (IH (out ++ [of_bytes text])) as [lines Hl]. exists (of_bytes text :: lines). simpl.
  unfold mbind at 1, M_bind at 1, println_json at 1. unfold mbind at 1, M_bind at 1, fallible, lift. rewrite Ht. simpl.
  rewrite Hl. by rewrite <-(assoc_L (++)).
Qed.

Lemma list_succeeds s cli v b log :
  holds (store_path (se_env s)) (vo_events v) log → log_events log ≠ [] → cli_command cli = Events EventsList →
  ∃ lines, process s cli v b = ((Ok tt, lines), (v, b)).
Proof.
  intros [Hnf [[_ ->]|(store & fs0 & [Hok Hp] & Hcr & <-)]] Hne Hc; [done|]. unfold process. rewrite Hc. simpl.
  destruct (fes_restart _ _ Hok Hcr Hnf) as [Ho Hok']. simpl in Hp. unfold open_event_store, mapM_err.
  fold (store_path (se_env s)). simpl in Ho. rewrite Hp in Ho. rewrite Ho. simpl.
  destruct (fes_inner_ok _ Hok') as (_ & bs & Hbs & _). simpl in Hbs.
  unfold run_from. simpl run. unfold fallible, lift, gets, mbind, M_bind. cbn [map_err mret result_ret fst snd o_store outside].
  destruct (println_stored _ _ [] ((store, vo_events v), bare_world b (no_queue (vo_queue v))) Hbs) as [lines Hl].
  exists lines. change (fes_all (store, vo_events v)) with (js_records (fes_inner store)). rewrite Hl. simpl. by destruct v.
Qed.

(** C11: the command line is the abstract log it keeps, on a volume that works: no call
    on the event store's files fails (one that does can leave a torn tail, after which
    the store need not open), and the store's path has a directory part (the default
    path has none). Start with files that do not
    exist and run any processes on them, one after the other, with the power lost
    after each, whatever their commands, and whether they succeed or fail (a broker that
    is down, a dead-trigger queue that cannot be written, bad input). Then there is a log
    that the same history of abstract commands makes: each process that ended with
    status 0 did what its command says, and each that failed did none of it, or what
    it does before the point where it failed ([log_fails]: an event whose dead
    trigger could not be recorded is stored and not marked, those before it in a
    file are ingested). And a process that ends with status 0 on what the history left
    has printed what that log says: [events list] each event injected or loaded and
    not pruned since, in order, as JSON; [events get] the event of that id; [prune]
    how many went. Once the log has an event, listing it does not fail. *)
Theorem command_line_refines_log path v0 v history :
  paths_ok path → unused path (vo_events v0) → no_faults (vo_events v0) → along (power_cycle path) history v0 v →
  ∃ log, along log_cycle history (mkEventLog [] ∅) log ∧
  (∀ s cli b lines v' b', store_path (se_env s) = path → process s cli v b = ((Ok tt, lines), (v', b')) →
     log_prints s (cli_command cli) log lines) ∧
  (log_events log ≠ [] → ∀ s cli b, store_path (se_env s) = path → cli_command cli = Events EventsList →
     ∃ lines, process s cli v b = ((Ok tt, lines), (v, b))).
Proof.
  intros Hp Hu Hnf Hr. destruct (cycles_hold path history v0 v (mkEventLog [] ∅) Hp Hr) as (log & Hal & Hh).
  { split; [done|]. by left. }
  exists log. split; [done|]. split.
  - intros s cli b lines v' b' <- Hpr. by destruct (process_log _ _ _ _ _ _ _ _ _ Hp Hh Hpr) as [Hl _]; apply Hl.
  - intros Hne s cli b <- Hc. by apply (list_succeeds s cli v b log).
Qed.
End durable.
