(* ===== verification/ProcessRuns.v ===== *)
(** * Sample processes

    Processes one after the other on the same files, with the documents of [Serde]
    in them and the power lost in between. *)

From stdpp Require Import base gmap strings list pretty.
From Stdlib Require Import ZArith Lia.
From S2P Require Import Prelude RustStd Event Trigger Retention Store FileSystem Jsonl JsonlSpec Durability FileStore FileDurability.
From S2P Require Import Samples StorageRuns Runtime Submission Handling Replay RuntimeRuns Ingest Delivery Http HttpRuns Config Cli CliCommands CliRuns.
From S2P Require Import JsonText Serde SerdeSpec SerdeRuns Process ProcessSpec.
Local Open Scope Z_scope.

(** The stored texts are the documents. *)
#[local] Instance event_to_vec : Serialize EventEnvelope | 0 := json_to_vec.
#[local] Instance event_from_str : Deserialize EventEnvelope | 0 := json_from_str.
#[local] Instance event_codec : JsonCodec EventEnvelope | 0 := json_codec.
#[local] Instance id_to_vec : Serialize EventId | 0 := json_to_vec.
#[local] Instance id_from_str : Deserialize EventId | 0 := json_from_str.
#[local] Instance id_codec : JsonCodec EventId | 0 := json_codec.
#[local] Instance record_to_vec : Serialize DeadTriggerRecord | 0 := json_to_vec.
#[local] Instance record_from_str : Deserialize DeadTriggerRecord | 0 := json_from_str.
#[local] Instance input_from_str : Deserialize (list FileEvent) | 0 := json_from_str.

#[local] Instance sample_BrokerDeadLetters : BrokerDeadLetters SampleBroker := {
  Envelope := string;
  Cli.read_dead_letters _ _ := λ b, (Ok [], b);
  count_dead_letters _ := λ b, (Ok 0, b);
  purge_dead_letters _ := λ b, (Ok 0, b);
}.
#[local] Instance line_to_vec : Serialize DeadLetterLine := λ line, Ok (write_string (dll_error line)).

(** The configuration, as a file on the disk has it. *)
#[local] Existing Instance text_Json | 0.
#[local] Instance triggers_from_str : Deserialize TriggerFile | 0 := json_from_str.
Definition q : string := String (Ascii.ascii_of_nat 34) EmptyString.
Definition field (key value : string) : string := q +:+ key +:+ q +:+ ": " +:+ value.
Definition text (s : string) : string := q +:+ s +:+ q.
Definition braces (fields : list string) : string := "{" +:+ String.concat ", " fields +:+ "}".
Definition triggers_json : string :=
  braces [field "triggers" ("[" +:+
    braces [field "name" (text "deploy");
            field "match" (braces [field "type" (text "event_type"); field "event_type" (text "build.done")]);
            field "bind" (braces [field "lane" (text "deploys"); field "kind" (text "Deploy"); field "max_attempts" "3"])]
    +:+ "]")].

(** The stores and the configuration are named by the environment, everything else is
    by default. *)
Definition sample_env : Env := λ key,
  if bool_decide (key = "TRIGGERLANE_STORE") then Some sample_path
  else if bool_decide (key = "TRIGGERLANE_DTQ") then Some "data/dead.jsonl"
  else if bool_decide (key = TRIGGERS_ENV) then Some "triggers.json"
  else None.

Definition sample_disk (path : string) : result io_error string :=
  if bool_decide (path = "triggers.json") then Ok triggers_json
  else Err (mkIoError NotFound "No such file or directory").

(** A process that draws ids from [n] on. *)
Definition setting (n : nat) : Setting :=
  mkSetting sample_env sample_disk (λ _, Ok tt) (λ k, mkEventId (N.of_nat (n + k))) (λ k, Z.of_nat (n + k)).

Definition cli (command : Command) : Cli := mkCli "sqlite" None command.
Definition injection : Command := Inject "build.done" (as_bytes "ok").

Definition volumes0 : Volumes := mkVolumes fs_empty fs_empty.

(** The power is lost, and the queue is on the disk [queue]. *)
Definition restarted (v : Volumes) (queue : FS) : Volumes := mkVolumes (power_loss (vo_events v)) queue.

(** A disk for the queue that is full once the queue is open. *)
Definition full_disk : FS := set_faults [None; None; None; None; Some (mkFault (mkIoError (OsError 28) "No space left on device") 0)] fs_empty.

(** An injection; one while the broker is down and the queue cannot be written; and a
    look for an event that is not there. *)
Definition ended0 := process (setting 1) (cli injection) volumes0 broker_up.
Definition volumes1 : Volumes := restarted ended0.2.1 full_disk.
Definition ended1 := process (setting 2) (cli injection) volumes1 broker_down.
Definition volumes2 : Volumes := restarted ended1.2.1 fs_empty.
Definition lookup3 : Command := Events (EventsGet (EventId_to_string (mkEventId 3))).
Definition ended2 := process (setting 4) (cli lookup3) volumes2 broker_up.
Definition volumes3 : Volumes := restarted ended2.2.1 fs_empty.

Example injected : ended0.1 = (Ok tt, ["ingested " +:+ EventId_to_string (mkEventId 1) +:+ " submitted 1"]).
Proof. vm_compute. reflexivity. Qed.
Example disk_full :
  ended1.1 = (Err (Failed (CliRuntime (Storage (mkIoError (OsError 28) "No space left on device")))), []).
Proof. vm_compute. reflexivity. Qed.
Example not_found : is_ok ended2.1.1 = false ∧ main ended2.1.1 =
  (["events: event " +:+ EventId_to_string (mkEventId 3) +:+ " not found"], 1).
Proof. split; vm_compute; reflexivity. Qed.

(** ** The next process *)

Definition history : list Run :=
  [mkRun (setting 1) injection true; mkRun (setting 2) injection false; mkRun (setting 4) lookup3 false].

Lemma sample_cycle n command v b queue well :
  let ended := process (setting n) (cli command) v b in
  is_ok ended.1.1 = well →
  power_cycle sample_path v (mkRun (setting n) command well) (restarted ended.2.1 queue).
Proof.
  intros ended <-. destruct ended as [[outcome lines] [v' b']] eqn:He.
  apply (power_cycle_intro sample_path v (setting n) (cli command) b outcome lines v' b' (power_loss (vo_events v')) queue eq_refl He).
  - apply crash_power_loss.
  - done.
Qed.

Lemma sample_cycles : along (power_cycle sample_path) history volumes0 volumes3.
Proof.
  exists volumes1. split; [apply (sample_cycle 1 injection volumes0 broker_up full_disk true)|].
  { exact (f_equal (λ x, is_ok x.1) injected). }
  exists volumes2. split; [apply (sample_cycle 2 injection volumes1 broker_down fs_empty false)|].
  { exact (f_equal (λ x, is_ok x.1) disk_full). }
  exists volumes3. split; [apply (sample_cycle 4 lookup3 volumes2 broker_up fs_empty false)|done].
  exact (proj1 not_found).
Qed.

Lemma volumes0_unused : unused sample_path (vo_events volumes0).
Proof. split; [apply fs_empty_wf|]. intros p _. split; apply lookup_empty. Qed.

Lemma command_line_refines_log_witness :
  ∃ log, along log_cycle history (mkEventLog [] ∅) log ∧
  (∀ s cli b lines v' b', store_path (se_env s) = sample_path →
     process s cli volumes3 b = ((Ok tt, lines), (v', b')) → log_prints s (cli_command cli) log lines) ∧
  (log_events log ≠ [] → ∀ s cli (b : SampleBroker), store_path (se_env s) = sample_path →
     cli_command cli = Events EventsList → ∃ lines, process s cli volumes3 b = ((Ok tt, lines), (volumes3, b))).
Proof.
  apply (command_line_refines_log sample_path volumes0 volumes3 history).
  - exact sample_paths_ok.
  - exact volumes0_unused.
  - reflexivity.
  - exact sample_cycles.
Defined.

Definition printed (c : Command) : option (list string) :=
  match (process (setting 5) (cli c) volumes3 broker_up).1 with (Ok _, lines) => Some lines | (Err _, _) => None end.

(** The events that were injected, in a text that anybody can read: the one whose
    process failed too. *)
Definition injected_line (n : N) : string :=
  of_bytes (write_json (to_json (inject (mkEventId n) (Z.of_N n) "build.done" (as_bytes "ok")))).

Example listed : printed (Events EventsList) = Some [injected_line 1; injected_line 2].
Proof. vm_compute. reflexivity. Qed.
Example got : printed (Events (EventsGet (EventId_to_string (mkEventId 2)))) = Some [injected_line 2].
Proof. vm_compute. reflexivity. Qed.
Example pruned : printed (Prune (PruneKeep 0)) = Some ["pruned events 2 dead-triggers 0"].
Proof. vm_compute. reflexivity. Qed.
