(* ===== verification/Concurrency.v ===== *)
(** * Interleavings of the pipeline's tasks

    Requests, the dispatcher and the maintenance task run at once. Each holds the
    store's locks only for one step at a time, so the operations of
    [FileEventStore] ([crates/triggerlane-storage/src/lib.rs], 486-540) and of
    [EventIngest] ([crates/triggerlane-runtime/src/lib.rs], 705-773) are cut here
    at their lock sections and at the [await] on [handle]. A system is a shared
    store and a list of tasks; a step runs one task, starts or cancels one, or
    crashes the process and restarts it.

    A lock section that changes a file is one step because [Durability] shows that
    one which succeeds is atomic: a crash leaves what was before it or what is after
    it. One that fails leaves the memory as it was; the files it either left in
    order too, or it did not: a torn append, a compaction that failed after its
    rename ([JsonlFaults]). From then on the files need not hold what the memory
    does, and a restart may find anything, or nothing that opens. [FileTasks] runs
    the same tasks on the files themselves and shows that this is what they do. What
    [handle] submits is the subject of [Handling] and [Replay]; here only that it
    succeeded counts. *)

From stdpp Require Import base gmap list relations.
From Stdlib Require Import ZArith Lia.
From S2P Require Import Prelude RustStd Event Retention Store FileStore.
Local Open Scope Z_scope.

(** The store in memory: the event log, the journal of delivered ids and the
    membership set. The other fields are history: the ids whose handling succeeded,
    the events whose append was acknowledged, and whether the files are in order: no
    call failed that left a file other than the memory has it. *)
Record Shared := mkShared {
  sh_events : list EventEnvelope;
  sh_journal : list EventId;
  sh_delivered : gset EventId;
  sh_handled : gset EventId;
  sh_appended : list EventEnvelope;
  sh_sound : bool;
}.

(** How a lock section goes: it succeeds; it fails and leaves the files in order (the
    record has no text, nothing was written, the compaction failed before its
    rename); it fails otherwise. *)
Inductive Outcome := Done | Refused | Broken.

#[export] Instance Outcome_eq_dec : EqDecision Outcome.
Proof. solve_decision. Defined.

(** Where a task stands: the lock section it enters next. *)
Inductive Task :=
| IngestCheck (event : EventEnvelope)
| IngestAppend (event : EventEnvelope)
| Handling (event : EventEnvelope)
| AcceptCheck (event : EventEnvelope)
| AcceptAppend (event : EventEnvelope)
| MarkCheck (id : EventId)
| MarkJournal (id : EventId)
| MarkSet (id : EventId)
| RetentionSnapshot (policy : AutoRetention) (now : DateTime)
| RetentionRetain (policy : AutoRetention) (now : DateTime) (delivered : gset EventId)
| RetentionJournal (kept_delivered : list EventId)
| RetentionSet (kept_delivered : list EventId)
| Finished (acknowledged : bool).

Section tasks.
Context `{Serialize EventEnvelope} `{HashSetIter}.
Implicit Types s : Shared.

Definition append_event (event : EventEnvelope) s : Shared :=
  mkShared (sh_events s ++ [event]) (sh_journal s) (sh_delivered s) (sh_handled s) (sh_appended s ++ [event]) (sh_sound s).

(** The memory after a failure, and what is known of the files. *)
Definition failed_call (o : Outcome) s : Shared :=
  mkShared (sh_events s) (sh_journal s) (sh_delivered s) (sh_handled s) (sh_appended s)
    (sh_sound s && bool_decide (o ≠ Broken)).

Definition known_key (event : EventEnvelope) s : bool :=
  match idempotency_key (ev_metadata event) with
  | Some key => match List.find (has_idempotency_key key) (sh_events s) with Some _ => true | None => false end
  | None => false
  end.

(** *** [EventIngest]: the check, the append, the outcome of [handle] *)

Definition ingest_check_step (event : EventEnvelope) s : Shared * Task :=
  (s, if known_key event s then Finished true else IngestAppend event).

Definition ingest_append_step (o : Outcome) (event : EventEnvelope) s : Shared * Task :=
  match o with Done => (append_event event s, Handling event) | _ => (failed_call o s, Finished false) end.

(** [handle] does not touch the store: that it fails says nothing of its files. *)
Definition handling_step (o : Outcome) (event : EventEnvelope) s : Shared * Task :=
  match o with
  | Done =>
    (mkShared (sh_events s) (sh_journal s) (sh_delivered s) ({[ev_id event]} ∪ sh_handled s) (sh_appended s) (sh_sound s),
     MarkCheck (ev_id event))
  | _ => (s, Finished false)
  end.

Definition accept_check_step (event : EventEnvelope) s : Shared * Task :=
  (s, if known_key event s then Finished true else AcceptAppend event).

Definition accept_append_step (o : Outcome) (event : EventEnvelope) s : Shared * Task :=
  match o with Done => (append_event event s, Finished true) | _ => (failed_call o s, Finished false) end.

(** *** [FileEventStore::mark_delivered] *)

Definition mark_check_step (id : EventId) s : Shared * Task :=
  (s, if bool_decide (id ∈ sh_delivered s) then Finished true else MarkJournal id).

Definition mark_journal_step (o : Outcome) (id : EventId) s : Shared * Task :=
  match o with
  | Done =>
    (mkShared (sh_events s) (sh_journal s ++ [id]) (sh_delivered s) (sh_handled s) (sh_appended s) (sh_sound s), MarkSet id)
  | _ => (failed_call o s, Finished false)
  end.

Definition mark_set_step (id : EventId) s : Shared * Task :=
  (mkShared (sh_events s) (sh_journal s) ({[id]} ∪ sh_delivered s) (sh_handled s) (sh_appended s) (sh_sound s), Finished true).

(** *** [FileEventStore::enforce_retention] *)

Definition retention_snapshot_step (policy : AutoRetention) (now : DateTime) s : Shared * Task :=
  (s, if is_unbounded policy then Finished true else RetentionRetain policy now (sh_delivered s)).

Definition retention_retain_step (o : Outcome) (policy : AutoRetention) (now : DateTime) (delivered : gset EventId) s
    : Shared * Task :=
  let kept := retain_events (sh_events s) delivered policy now in
  if len (sh_events s) - len kept >? 0 then
    match o with
    | Done =>
      (mkShared kept (sh_journal s) (sh_delivered s) (sh_handled s) (sh_appended s) (sh_sound s),
       RetentionJournal (filter (λ id, id ∈ ids kept) (iter delivered)))
    | _ => (failed_call o s, Finished false)
    end
  else (s, Finished true).

Definition retention_journal_step (o : Outcome) (kept_delivered : list EventId) s : Shared * Task :=
  match o with
  | Done =>
    (mkShared (sh_events s) kept_delivered (sh_delivered s) (sh_handled s) (sh_appended s) (sh_sound s),
     RetentionSet kept_delivered)
  | _ => (failed_call o s, Finished false)
  end.

Definition retention_set_step (kept_delivered : list EventId) s : Shared * Task :=
  (mkShared (sh_events s) (sh_journal s) (list_to_set kept_delivered) (sh_handled s) (sh_appended s) (sh_sound s), Finished true).

Arguments ingest_check_step event s /.
Arguments ingest_append_step o event s /.
Arguments handling_step o event s /.
Arguments accept_check_step event s /.
Arguments accept_append_step o event s /.
Arguments mark_check_step id s /.
Arguments mark_journal_step o id s /.
Arguments mark_set_step id s /.
Arguments retention_snapshot_step policy now s /.
Arguments retention_retain_step o policy now delivered s /.
Arguments retention_journal_step o kept_delivered s /.
Arguments retention_set_step kept_delivered s /.

(** The next step of a task. *)
Definition task_step (o : Outcome) s (t : Task) : Shared * Task :=
  match t with
  | IngestCheck event => ingest_check_step event s
  | IngestAppend event => ingest_append_step o event s
  | Handling event => handling_step o event s
  | AcceptCheck event => accept_check_step event s
  | AcceptAppend event => accept_append_step o event s
  | MarkCheck id => mark_check_step id s
  | MarkJournal id => mark_journal_step o id s
  | MarkSet id => mark_set_step id s
  | RetentionSnapshot policy now => retention_snapshot_step policy now s
  | RetentionRetain policy now delivered => retention_retain_step o policy now delivered s
  | RetentionJournal kept_delivered => retention_journal_step o kept_delivered s
  | RetentionSet kept_delivered => retention_set_step kept_delivered s
  | Finished acknowledged => (s, Finished acknowledged)
  end.

(** A restart on files in order: the memory is what it was, the membership set is
    rebuilt from the journal. *)
Definition restart s : Shared :=
  mkShared (sh_events s) (sh_journal s) (list_to_set (sh_journal s)) (sh_handled s) (sh_appended s) (sh_sound s).

(** What the next process finds, if the files open at all. Of files that are not in
    order it may read any log and any journal. *)
Definition reopened s s' : Prop :=
  if sh_sound s then s' = restart s
  else sh_handled s' = sh_handled s ∧ sh_appended s' = sh_appended s ∧ sh_sound s' = false.

(** A system: the store and its tasks. Requests to ingest or accept, dispatches
    and recoveries ([Handling]), and retention sweeps under the [allowed] policies
    start at any time. A request can be cancelled where it awaits [handle]. *)
Definition System : Type := Shared * list Task.

Inductive sys_step (allowed : AutoRetention → Prop) : System → System → Prop :=
| sys_run s ts i t o s' t' :
    ts !! i = Some t → task_step o s t = (s', t') → sys_step allowed (s, ts) (s', <[i := t']> ts)
| sys_ingest s ts event : sys_step allowed (s, ts) (s, ts ++ [IngestCheck event])
| sys_accept s ts event : sys_step allowed (s, ts) (s, ts ++ [AcceptCheck event])
| sys_dispatch s ts event : sys_step allowed (s, ts) (s, ts ++ [Handling event])
| sys_retention s ts policy now :
    allowed policy → sys_step allowed (s, ts) (s, ts ++ [RetentionSnapshot policy now])
| sys_cancel s ts i event :
    ts !! i = Some (Handling event) → sys_step allowed (s, ts) (s, <[i := Finished false]> ts)
| sys_crash s ts s' : reopened s s' → sys_step allowed (s, ts) (s', []).

(** An empty store, whose path has a directory part: the names of its files are
    synced. *)
Definition system0 : System := (mkShared [] [] ∅ ∅ [] true, []).

(** A task run on its own, every system call succeeding; seven steps are enough
    for any task. *)
Fixpoint run_alone (n : nat) s (t : Task) : Shared * Task :=
  match n with
  | O => (s, t)
  | S n => let '(s', t') := task_step Done s t in run_alone n s' t'
  end.

Definition log_of s : EventLog := mkEventLog (sh_events s) (sh_delivered s).

(** ** Nothing is lost, nothing is marked that was not handled *)

(** What a task may still do to the marks and the log is backed by history. *)
Definition task_ok s (t : Task) : Prop :=
  match t with
  | MarkCheck id | MarkJournal id | MarkSet id => id ∈ sh_handled s
  | RetentionSnapshot policy _ => grace_only policy
  | RetentionRetain policy _ delivered => grace_only policy ∧ delivered ⊆ sh_handled s
  | RetentionJournal ids | RetentionSet ids => ∀ id, id ∈ ids → id ∈ sh_handled s
  | _ => True
  end.

Record sys_ok (sys : System) : Prop := mk_sys_ok {
  ok_journal id : id ∈ sh_journal sys.1 → id ∈ sh_handled sys.1;
  ok_delivered : sh_delivered sys.1 ⊆ sh_handled sys.1;
  ok_kept e : e ∈ sh_appended sys.1 → e ∈ sh_events sys.1 ∨ ev_id e ∈ sh_handled sys.1;
  ok_tasks t : t ∈ sys.2 → task_ok sys.1 t;
}.

Lemma task_ok_mono s s' t : sh_handled s ⊆ sh_handled s' → task_ok s t → task_ok s' t.
Proof.
  intros Hs. destruct t; simpl; try done; eauto. intros [? Hd]. split; [done|]. by etrans.
Qed.

(** One lock section keeps the invariant. *)
Lemma task_step_ok o s ts t s' t' :
  sys_ok (s, ts) → task_ok s t → task_step o s t = (s', t') →
  sh_handled s ⊆ sh_handled s' ∧ task_ok s' t' ∧ sys_ok (s', []).
Proof.
  intros [Hj Hd Hk _] Ht. simpl in *.
  assert (sys_ok (s, [])) as Hs by (constructor; try done; by intros ? ?%not_elem_of_nil).
  assert (∀ e, sys_ok (append_event e s, [])) as Happ.
  { intros e. constructor; simpl; [done|done| |by intros ? ?%not_elem_of_nil].
    intros e' [He|He]%elem_of_app; rewrite elem_of_app; [|by left; right]. destruct (Hk _ He); auto. }
  assert (∀ o', sys_ok (failed_call o' s, [])) as Hfail.
  { intros o'. constructor; simpl; try done. by intros ? ?%not_elem_of_nil. }
  destruct t as [e|e|e|e|e|id|id|id|policy now|policy now delivered|kept|kept|r]; simpl in Ht |- *.
  - intros [= <- <-]. by destruct (known_key e s).
  - destruct o; intros [= <- <-]; auto.
  - destruct o; intros [= <- <-]; simpl; [|by auto..]. split; [set_solver|]. split; [set_solver|].
    constructor; simpl; [set_solver..| |by intros ? ?%not_elem_of_nil].
    intros e' He. destruct (Hk _ He); [by left|right; set_solver].
  - intros [= <- <-]. by destruct (known_key e s).
  - destruct o; intros [= <- <-]; auto.
  - intros [= <- <-]. by case_bool_decide.
  - destruct o; intros [= <- <-]; simpl; [|by auto..]. split; [done|]. split; [done|].
    constructor; simpl; try done; [|by intros ? ?%not_elem_of_nil]. intros i [Hi| ->%list_elem_of_singleton]%elem_of_app; auto.
  - intros [= <- <-]. simpl. split; [done|]. split; [done|].
    constructor; simpl; try done; [set_solver|by intros ? ?%not_elem_of_nil].
  - intros [= <- <-]. split; [done|]. by destruct (is_unbounded policy).
  - destruct Ht as [Hg Hsnap]. destruct (_ >? 0); [destruct o|]; intros [= <- <-]; simpl; auto.
    split; [done|]. split.
    + intros id [_ Hid]%list_elem_of_filter. rewrite iter_perm, elem_of_elements in Hid. auto.
    + constructor; simpl; try done; [|by intros ? ?%not_elem_of_nil]. intros e He.
      destruct (Hk _ He) as [Hin|Hin]; [|by right].
      destruct (grace_only_keeps _ delivered policy now e Hg Hin); auto.
  - destruct o; intros [= <- <-]; simpl; [|by auto..]. split; [done|]. split; [done|].
    constructor; simpl; try done. by intros ? ?%not_elem_of_nil.
  - intros [= <- <-]. simpl. split; [done|]. split; [done|].
    constructor; simpl; try done; [|by intros ? ?%not_elem_of_nil]. intros id Hid%elem_of_list_to_set. auto.
  - intros [= <- <-]. auto.
Qed.

(** Starting a task keeps the invariant. *)
Lemma start_ok s ts t : sys_ok (s, ts) → task_ok s t → sys_ok (s, ts ++ [t]).
Proof.
  intros [Hj Hd Hk Hts] Ht. constructor; try done. simpl in *.
  intros t' [Hin| ->%list_elem_of_singleton]%elem_of_app; auto.
Qed.

(** Files that are not in order stay so, until the process is over. *)
Lemma task_step_sound o s t s' t' : task_step o s t = (s', t') → sh_sound s' = true → sh_sound s = true.
Proof.
  intros Ht. destruct t, o; simpl in Ht; repeat case_match; simplify_eq/=; try done; by intros []%andb_true_iff.
Qed.

Lemma sys_step_sound allowed sys sys' : sys_step allowed sys sys' → sh_sound sys'.1 = true → sh_sound sys.1 = true.
Proof.
  destruct 1 as [s ts i t o s' t' Hi Ht|s ts e|s ts e|s ts e|s ts policy now Hp|s ts i e Hi|s ts s' Hre]; try done.
  - by eapply task_step_sound.
  - unfold reopened in Hre. simpl. destruct (sh_sound s); [done|]. destruct Hre as (_ & _ & ->). done.
Qed.

Lemma sys_step_ok allowed sys sys' :
  (∀ policy, allowed policy → grace_only policy) → sys_step allowed sys sys' → sh_sound sys'.1 = true →
  sys_ok sys → sys_ok sys'.
Proof.
  intros Hg Hs Hsound Hok. pose proof (sys_step_sound _ _ _ Hs Hsound) as Hsound0. revert Hok Hsound Hsound0.
  destruct Hs as [s ts i t o s' t' Hi Ht|s ts e|s ts e|s ts e|s ts policy now Hp|s ts i e Hi|s ts s' Hre]; intros Hok _ Hsound.
  - pose proof Hok as [_ _ _ Hts]. simpl in Hts.
    destruct (task_step_ok o s ts t s' t' Hok) as (Hmono & Ht' & [Hj Hd Hk _]); [|done|].
    { apply Hts. by eapply list_elem_of_lookup_2. }
    constructor; try done. simpl. intros t2 [j Hj2]%list_elem_of_lookup.
    apply list_lookup_insert_Some in Hj2 as [(_ & -> & _)|[_ Hj2]]; [done|].
    eapply task_ok_mono; [exact Hmono|]. apply Hts. by eapply list_elem_of_lookup_2.
  - by apply start_ok.
  - by apply start_ok.
  - by apply start_ok.
  - apply start_ok; simpl; auto.
  - destruct Hok as [Hj Hd Hk Hts]. constructor; try done. simpl in *. intros t2 [j Hj2]%list_elem_of_lookup.
    apply list_lookup_insert_Some in Hj2 as [(_ & <- & _)|[_ Hj2]]; [done|].
    apply Hts. by eapply list_elem_of_lookup_2.
  - unfold reopened in Hre. simpl in Hsound. rewrite Hsound in Hre. subst s'.
    destruct Hok as [Hj Hd Hk Hts]. constructor; simpl in *; try done; [|by intros ? ?%not_elem_of_nil].
    intros id Hid%elem_of_list_to_set. auto.
Qed.

Lemma reachable_ok allowed sys :
  (∀ policy, allowed policy → grace_only policy) → rtc (sys_step allowed) system0 sys → sh_sound sys.1 = true →
  sys_ok sys.
Proof.
  intros Hg. apply (rtc_ind_r (λ sys, sh_sound sys.1 = true → sys_ok sys)).
  { intros _. by constructor; simpl; try intros ? ?%not_elem_of_nil. }
  intros sys1 sys2 _ Hs IH Hsound. eapply sys_step_ok; [done..|]. by eapply IH, sys_step_sound.
Qed.

(** C4: at-least-once delivery under every interleaving. However requests,
    dispatches, recoveries and retention sweeps without hard bounds interleave,
    whichever of them fail, requests are cancelled and the process crashes, as long
    as no call on the store's files failed in a way that left them out of order (a
    torn append, a compaction that failed after its rename; [JsonlFaults] shows what
    is lost then): an event whose append was acknowledged and whose handling has
    never succeeded is in the log, in neither delivery record, and undelivered after
    a restart, so the recovery of the next start handles it. *)
Theorem at_least_once allowed s ts e :
  (∀ policy, allowed policy → grace_only policy) → rtc (sys_step allowed) system0 (s, ts) → sh_sound s = true →
  e ∈ sh_appended s → ev_id e ∉ sh_handled s →
  e ∈ sh_events s ∧ (ev_id e ∉ sh_delivered s) ∧ (ev_id e ∉ sh_journal s) ∧
  ∀ s', reopened s s' → e ∈ log_undelivered (log_of s').
Proof.
  intros Hg Hr Hsound He Hh. destruct (reachable_ok _ _ Hg Hr Hsound) as [Hj Hd Hk _]. simpl in *.
  destruct (Hk e He) as [Hin|]; [|done].
  assert (ev_id e ∉ sh_journal s) as Hnj by (intros ?; apply Hh; auto).
  split; [done|]. split; [by intros ?%Hd|]. split; [done|]. unfold reopened. rewrite Hsound. intros s' ->.
  unfold log_undelivered. apply list_elem_of_filter. simpl. split; [|done].
  by rewrite elem_of_list_to_set.
Qed.

(** *** A task on its own *)

Lemma run_alone_finished n s r : run_alone n s (Finished r) = (s, Finished r).
Proof. induction n; [done|]. done. Qed.

Lemma known_key_spec event s :
  known_key event s = true ↔
  ∃ e, e ∈ sh_events s ∧ is_Some (idempotency_key (ev_metadata event)) ∧
    idempotency_key (ev_metadata e) = idempotency_key (ev_metadata event).
Proof.
  unfold known_key. destruct (idempotency_key (ev_metadata event)) as [key|] eqn:Hk.
  - destruct (List.find _ _) as [e|] eqn:Hf.
    + apply find_Some_elem in Hf as [Hin Hp]. apply bool_decide_eq_true in Hp. split; [|done]. eauto.
    + split; [done|]. intros (e & Hin & _ & He). apply (List.find_none _ _) with (x := e) in Hf; [|by apply list_elem_of_In].
      by apply bool_decide_eq_false in Hf.
  - split; [done|]. by intros (? & _ & [] & _).
Qed.

Lemma mark_alone id s :
  ∃ s', run_alone 3 s (MarkCheck id) = (s', Finished true) ∧ log_of s' = log_mark_delivered id (log_of s) ∧
    sh_handled s' = sh_handled s.
Proof.
  simpl. case_bool_decide as Hin; simpl; eexists; (split; [done|]); [|done].
  unfold log_of, log_mark_delivered. simpl. split; [|done]. f_equal. apply set_eq. intros x.
  rewrite elem_of_union, elem_of_singleton. naive_solver.
Qed.

Lemma handling_alone e s :
  ∃ s', run_alone 4 s (Handling e) = (s', Finished true) ∧ log_of s' = log_mark_delivered (ev_id e) (log_of s) ∧
    sh_handled s' = {[ev_id e]} ∪ sh_handled s.
Proof.
  change (run_alone 4 s (Handling e)) with
    (run_alone 3 (task_step Done s (Handling e)).1 (MarkCheck (ev_id e))).
  destruct (mark_alone (ev_id e) (task_step Done s (Handling e)).1) as (s' & Hs' & Hl & Hh).
  exists s'. by rewrite Hs', Hl, Hh.
Qed.

Lemma run_alone_add n m s t :
  run_alone (n + m) s t = let '(s', t') := run_alone n s t in run_alone m s' t'.
Proof. revert s t. induction n as [|n IH]; intros s t; simpl; [done|]. destruct (task_step Done s t). apply IH. Qed.

(** Scheduling one task of a system for a while. *)
Lemma schedule allowed n s ts i t :
  ts !! i = Some t →
  rtc (sys_step allowed) (s, ts) ((run_alone n s t).1, <[i := (run_alone n s t).2]> ts).
Proof.
  revert s ts t. induction n as [|n IH]; intros s ts t Hi; simpl; [by rewrite list_insert_id|].
  destruct (task_step Done s t) as [s' t'] eqn:Ht. eapply rtc_l; [by eapply (sys_run _ _ _ i t Done)|].
  specialize (IH s' (<[i := t']> ts) t'). rewrite list_insert_insert_eq in IH. apply IH.
  apply list_lookup_insert_eq. by eapply lookup_lt_Some.
Qed.

(** Run on its own, a task is the operation of the sequential model: an
    ingestion touches nothing when its key is known and otherwise appends,
    handles and marks; an acceptance only appends; a retention sweep is the log's
    retention. Every task finishes within seven steps. *)
Theorem alone_is_sequential s :
  (∀ e, run_alone 7 s (IngestCheck e) =
     (if known_key e s then s else (run_alone 7 s (IngestCheck e)).1, Finished true) ∧
     (known_key e s = false →
      log_of (run_alone 7 s (IngestCheck e)).1 = log_mark_delivered (ev_id e) (log_append e (log_of s)))) ∧
  (∀ e, run_alone 7 s (AcceptCheck e) =
     (if known_key e s then s else append_event e s, Finished true)) ∧
  (∀ policy now, (run_alone 7 s (RetentionSnapshot policy now)).2 = Finished true ∧
     log_of (run_alone 7 s (RetentionSnapshot policy now)).1 =
       if is_unbounded policy then log_of s else (log_enforce_retention policy now (log_of s)).2).
Proof.
  split; [|split].
  - intros e. change (run_alone 7 s (IngestCheck e)) with
      (run_alone 6 s (if known_key e s then Finished true else IngestAppend e)).
    destruct (known_key e s); [by rewrite run_alone_finished|].
    destruct (handling_alone e (append_event e s)) as (s' & Hs' & Hl & _).
    assert (run_alone 6 s (IngestAppend e) = (s', Finished true)) as ->; [|by split; [|intros _; exact Hl]].
    change (run_alone 6 s (IngestAppend e)) with (run_alone (4 + 1) (append_event e s) (Handling e)).
    by rewrite run_alone_add, Hs'.
  - intros e. change (run_alone 7 s (AcceptCheck e)) with
      (run_alone 6 s (if known_key e s then Finished true else AcceptAppend e)).
    destruct (known_key e s); [by rewrite run_alone_finished|]. done.
  - intros policy now. change (run_alone 7 s (RetentionSnapshot policy now)) with
      (run_alone 6 s (if is_unbounded policy then Finished true else RetentionRetain policy now (sh_delivered s))).
    destruct (is_unbounded policy); [by rewrite run_alone_finished|].
    change (run_alone 6 s (RetentionRetain policy now (sh_delivered s))) with
      (let '(s1, t1) := task_step Done s (RetentionRetain policy now (sh_delivered s)) in run_alone 5 s1 t1).
    simpl task_step. unfold log_enforce_retention. simpl log_events. simpl log_delivered.
    destruct (_ >? 0); [|by rewrite run_alone_finished]. simpl. split; [done|]. unfold log_of. simpl.
    f_equal. apply kept_delivered_set.
Qed.

(** Deduplication is not atomic: two requests with one key that interleave
    between the check and the append both store their event and both are handled
    and acknowledged, where one after the other the second is recognised. *)
Theorem dedup_race allowed e1 e2 :
  is_Some (idempotency_key (ev_metadata e1)) →
  idempotency_key (ev_metadata e2) = idempotency_key (ev_metadata e1) →
  (∃ s, rtc (sys_step allowed) system0 (s, [Finished true; Finished true]) ∧
     sh_events s = [e1; e2] ∧ ev_id e1 ∈ sh_handled s ∧ ev_id e2 ∈ sh_handled s) ∧
  let s1 := (run_alone 7 system0.1 (IngestCheck e1)).1 in
  sh_events (run_alone 7 s1 (IngestCheck e2)).1 = [e1].
Proof.
  intros [key Hk] Hk2. split.
  - set (s2 := append_event e2 (append_event e1 system0.1)).
    destruct (handling_alone e1 s2) as (s3 & H3 & Hl3 & Hh3).
    destruct (handling_alone e2 s3) as (s4 & H4 & Hl4 & Hh4). exists s4. split; [|split].
    + assert (rtc (sys_step allowed) system0 (s2, [Handling e1; Handling e2])) as Hr.
      { eapply rtc_l; [apply (sys_ingest _ _ _ e1)|]. eapply rtc_l; [apply (sys_ingest _ _ _ e2)|]. simpl.
        eapply rtc_l; [apply (sys_run _ _ _ 0 (IngestCheck e1) Done system0.1 (IngestAppend e1)); [done|]|].
        { simpl. unfold known_key. by rewrite Hk. }
        eapply rtc_l; [apply (sys_run _ _ _ 1 (IngestCheck e2) Done system0.1 (IngestAppend e2)); [done|]|].
        { simpl. unfold known_key. by rewrite Hk2, Hk. }
        simpl. eapply rtc_l; [by apply (sys_run _ _ _ 0 (IngestAppend e1) Done)|].
        eapply rtc_l; [by apply (sys_run _ _ _ 1 (IngestAppend e2) Done)|]. done. }
      etrans; [exact Hr|].
      etrans; [apply (schedule _ 4 s2 _ 0 (Handling e1)); done|]. rewrite H3. simpl.
      etrans; [apply (schedule _ 4 s3 _ 1 (Handling e2)); done|]. by rewrite H4.
    + apply (f_equal log_events) in Hl3, Hl4. simpl in Hl3, Hl4. by rewrite Hl4, Hl3.
    + rewrite Hh4, Hh3, !elem_of_union, !elem_of_singleton. tauto.
  - cbv zeta. destruct (handling_alone e1 (append_event e1 system0.1)) as (s3 & H3 & Hl3 & _).
    assert (run_alone 7 system0.1 (IngestCheck e1) = (s3, Finished true)) as ->.
    { change (run_alone 7 system0.1 (IngestCheck e1)) with
        (run_alone 6 system0.1 (if known_key e1 system0.1 then Finished true else IngestAppend e1)).
      unfold known_key. rewrite Hk. simpl List.find. cbv iota.
      change (run_alone 6 system0.1 (IngestAppend e1)) with
        (run_alone (4 + 1) (append_event e1 system0.1) (Handling e1)). by rewrite run_alone_add, H3. }
    assert (sh_events s3 = [e1]) as He by (apply (f_equal log_events) in Hl3; exact Hl3).
    assert (known_key e2 s3 = true) as Hkn.
    { apply known_key_spec. exists e1. rewrite He, Hk2, Hk. split; [left|]. split; [by eexists|done]. }
    cbn [fst]. change (run_alone 7 s3 (IngestCheck e2)) with
      (run_alone 6 s3 (if known_key e2 s3 then Finished true else IngestAppend e2)).
    by rewrite Hkn, run_alone_finished.
Qed.
End tasks.

(** The next lock section of a task, spelled out. *)
Ltac unfold_steps :=
  unfold ingest_check_step, ingest_append_step, handling_step, accept_check_step, accept_append_step,
    mark_check_step, mark_journal_step, mark_set_step, retention_snapshot_step, retention_retain_step,
    retention_journal_step, retention_set_step in *.
