(* ===== verification/FileTasks.v ===== *)
(** * The interleaved tasks on their files

    The tasks of [Concurrency] once more, each lock section the operation of
    [FileStore] that it is in [crates/triggerlane-storage/src/lib.rs] (486-540), on
    the file system of [FileSystem]: any of its calls may fail anywhere, the process
    may end or the power be lost, and the next process opens what is there. Nothing
    is assumed of a section that fails. What the tasks of [Concurrency] are taken to
    do, these do. *)

From stdpp Require Import base gmap strings list relations.
From Stdlib Require Import ZArith Lia.
From S2P Require Import Prelude RustStd Event Retention Store FileSystem Jsonl JsonlSpec Durability FileStore FileDurability.
From S2P Require Import JsonlFaults FileCalm Runtime Ingest Concurrency.
Local Open Scope Z_scope.

(** The store, and the history of [Concurrency]. *)
Record Filed := mkFiled {
  fd_store : FileEventStore * FS;
  fd_handled : gset EventId;
  fd_appended : list EventEnvelope;
  fd_sound : bool;
}.

Section tasks.
Context `{JsonCodec EventEnvelope} `{JsonCodec EventId} `{HashSetIter}.
Implicit Types (d : Filed) (st : FileEventStore * FS).

(** ** The lock sections *)

Definition with_store st d : Filed := mkFiled st (fd_handled d) (fd_appended d) (fd_sound d).

(** A section whose operation fails ends its task; [o] tells whether it left the
    files in order, which [file_step] does not decide. *)
Definition section {A} (o : Outcome) (m : M (FileEventStore * FS) io_error A) d (k : A → Filed → Filed * Task)
    : Filed * Task :=
  match m (fd_store d) with
  | (Ok a, st) => k a (with_store st d)
  | (Err _, st) =>
    (mkFiled st (fd_handled d) (fd_appended d) (fd_sound d && bool_decide (o = Refused)), Finished false)
  end.

Definition acknowledge (event : EventEnvelope) d : Filed :=
  mkFiled (fd_store d) (fd_handled d) (fd_appended d ++ [event]) (fd_sound d).
Definition note_handled (id : EventId) d : Filed :=
  mkFiled (fd_store d) ({[id]} ∪ fd_handled d) (fd_appended d) (fd_sound d).

Definition file_step (o : Outcome) d (t : Task) : Filed * Task :=
  match t with
  | IngestCheck event =>
    (d, match existing_event event (fd_store d) with Some _ => Finished true | None => IngestAppend event end)
  | IngestAppend event => section o (fes_append event) d (λ _ d, (acknowledge event d, Handling event))
  | Handling event =>
    match o with Done => (note_handled (ev_id event) d, MarkCheck (ev_id event)) | _ => (d, Finished false) end
  | AcceptCheck event =>
    (d, match existing_event event (fd_store d) with Some _ => Finished true | None => AcceptAppend event end)
  | AcceptAppend event => section o (fes_append event) d (λ _ d, (acknowledge event d, Finished true))
  | MarkCheck id => (d, if bool_decide (id ∈ fes_delivered_set (fd_store d).1) then Finished true else MarkJournal id)
  | MarkJournal id => section o (on_delivered (jsonl_append id)) d (λ _ d, (d, MarkSet id))
  | MarkSet id =>
    section o (delivered ← gets (λ s, fes_delivered_set s.1); set_delivered_set ({[id]} ∪ delivered)) d
      (λ _ d, (d, Finished true))
  | RetentionSnapshot policy now =>
    (d, if is_unbounded policy then Finished true else RetentionRetain policy now (fes_delivered_set (fd_store d).1))
  | RetentionRetain policy now delivered =>
    let kept_ids := ids (retain_events (fes_all (fd_store d)) delivered policy now) in
    section o (on_inner (jsonl_retain (λ events, retain_events events delivered policy now))) d
      (λ removed d, (d, if removed >? 0 then RetentionJournal (filter (λ id, id ∈ kept_ids) (iter delivered))
                        else Finished true))
  | RetentionJournal kept_delivered =>
    section o (on_delivered (jsonl_replace_all kept_delivered)) d (λ _ d, (d, RetentionSet kept_delivered))
  | RetentionSet kept_delivered =>
    section o (set_delivered_set (list_to_set kept_delivered)) d (λ _ d, (d, Finished true))
  | Finished acknowledged => (d, Finished acknowledged)
  end.

(** The sections of a mark, and of a sweep, one after the other are the operation. *)
Fixpoint file_alone (n : nat) d (t : Task) : Filed * Task :=
  match n with
  | O => (d, t)
  | S n => let '(d', t') := file_step Broken d t in file_alone n d' t'
  end.

Lemma file_alone_finished n d r : file_alone n d (Finished r) = (d, Finished r).
Proof. induction n; [done|]. done. Qed.

Lemma mark_sections id d :
  let '(r, st) := fes_mark_delivered id (fd_store d) in
  fd_store (file_alone 3 d (MarkCheck id)).1 = st ∧ (file_alone 3 d (MarkCheck id)).2 = Finished (is_ok r).
Proof.
  unfold fes_mark_delivered, gets, mbind, M_bind. cbn [file_alone file_step].
  case_bool_decide as Hin; [done|]. unfold file_step, section.
  destruct (on_delivered (jsonl_append id) (fd_store d)) as [[u|x] st] eqn:Ho; [|done]. done.
Qed.

Lemma sweep_sections policy now d :
  let '(r, st) := fes_enforce_retention policy now (fd_store d) in
  fd_store (file_alone 4 d (RetentionSnapshot policy now)).1 = st ∧
  (file_alone 4 d (RetentionSnapshot policy now)).2 = Finished (is_ok r).
Proof.
  unfold fes_enforce_retention. cbn [file_alone file_step]. destruct (is_unbounded policy); [done|].
  unfold gets, mbind, M_bind. cbn [file_step]. unfold section, fes_all, jsonl_all.
  destruct (on_inner _ (fd_store d)) as [[removed|x] st]; [|done]. destruct (removed >? 0); [|done].
  cbn [file_step]. unfold section. cbn [with_store fd_store].
  by destruct (on_delivered (jsonl_replace_all _) st) as [[u|x] st2].
Qed.

(** ** The system *)

Definition FileSystemOfTasks : Type := Filed * list Task.

(** A call fails as a schedule says that may be any other at each section. *)
Definition scheduled (faults : list (option Fault)) d : Filed :=
  with_store ((fd_store d).1, set_faults faults (fd_store d).2) d.

(** The files are in order at [path], whatever the membership set in memory. *)
Definition resync st : FileEventStore * FS := with_journal st (fes_delivered st.1, st.2).
Definition files_ok (path : string) st : Prop := fes_at path (resync st).

(** Requests, dispatches, recoveries and sweeps start, run and are cancelled as in
    [Concurrency]. A failure may be called [Refused] only when the files are in order
    after it. *)
Inductive file_sys_step (path : string) (allowed : AutoRetention → Prop) :
    FileSystemOfTasks → FileSystemOfTasks → Prop :=
| file_run d ts i t faults o d' t' :
    ts !! i = Some t → file_step o (scheduled faults d) t = (d', t') →
    (o = Refused → files_ok path (fd_store d) → files_ok path (fd_store d')) →
    file_sys_step path allowed (d, ts) (d', <[i := t']> ts)
| file_ingest d ts event : file_sys_step path allowed (d, ts) (d, ts ++ [IngestCheck event])
| file_accept d ts event : file_sys_step path allowed (d, ts) (d, ts ++ [AcceptCheck event])
| file_dispatch d ts event : file_sys_step path allowed (d, ts) (d, ts ++ [Handling event])
| file_retention d ts policy now :
    allowed policy → file_sys_step path allowed (d, ts) (d, ts ++ [RetentionSnapshot policy now])
| file_cancel d ts i event :
    ts !! i = Some (Handling event) → file_sys_step path allowed (d, ts) (d, <[i := Finished false]> ts)
| file_crash d ts fs store fs' :
    crash (fd_store d).2 fs → no_faults fs → fes_open path fs = (Ok store, fs') →
    file_sys_step path allowed (d, ts) (mkFiled (store, fs') (fd_handled d) (fd_appended d) (fd_sound d), []).

Definition file_system0 st : FileSystemOfTasks := (mkFiled st ∅ [] true, []).

(** ** The tasks of [Concurrency] do what these do *)

Record refines (path : string) d (s : Shared) : Prop := mk_refines {
  rf_events : js_records (fes_inner (fd_store d).1) = sh_events s;
  rf_journal : js_records (fes_delivered (fd_store d).1) = sh_journal s;
  rf_delivered : fes_delivered_set (fd_store d).1 = sh_delivered s;
  rf_handled : fd_handled d = sh_handled s;
  rf_appended : fd_appended d = sh_appended s;
  rf_sound : fd_sound d = sh_sound s;
  rf_files : fd_sound d = true → files_ok path (fd_store d);
}.

Lemma files_ok_scheduled path faults d : files_ok path (fd_store d) → files_ok path (fd_store (scheduled faults d)).
Proof.
  intros [[Hp Hdp (Hpi & bs & Hbs & Hs) (Hpd & cs & Hcs & Hc) Hset] Hpath]. split; [|done].
  constructor; try done; (split; [done|]); eexists; (split; [eassumption|]); by apply safe_ignores_faults.
Qed.

Lemma files_ok_unscheduled path faults d : files_ok path (fd_store (scheduled faults d)) → files_ok path (fd_store d).
Proof.
  intros Hok%(files_ok_scheduled path (fs_faults (fd_store d).2)). by destruct d as [[store []] ? ? ?].
Qed.

Lemma refines_scheduled path faults d s : refines path d s → refines path (scheduled faults d) s.
Proof. intros []. constructor; try done. intros Hs. apply files_ok_scheduled. auto. Qed.

Lemma resync_inner {A} (m : M (JsonlStore EventEnvelope * FS) io_error A) st :
  on_inner m (resync st) = ((on_inner m st).1, resync (on_inner m st).2).
Proof. by rewrite !on_inner_run. Qed.

Lemma inner_files_ok {A} path (m : M (JsonlStore EventEnvelope * FS) io_error A) st a st' :
  (∀ s0 s1, fes_at path s0 → on_inner m s0 = (Ok a, s1) → fes_at path s1) →
  files_ok path st → on_inner m st = (Ok a, st') → files_ok path st'.
Proof. intros Hm Hok Ho. apply (Hm (resync st)); [done|]. by rewrite resync_inner, Ho. Qed.

Lemma append_files_ok path e st st' : files_ok path st → fes_append e st = (Ok tt, st') → files_ok path st'.
Proof. apply inner_files_ok. intros s0 s1. apply fes_append_at. Qed.

Lemma retain_files_ok path kp st n st' :
  files_ok path st → on_inner (jsonl_retain kp) st = (Ok n, st') → files_ok path st'.
Proof.
  apply inner_files_ok. intros s0 s1 [Hok <-] Ho. split; [by eapply fes_retain_ok|].
  rewrite on_inner_run in Ho. injection Ho as _ <-. apply retain_path.
Qed.

Lemma journal_files_ok path id st st' :
  files_ok path st → on_delivered (jsonl_append id) st = (Ok tt, st') → files_ok path st'.
Proof.
  intros [Hok Hpath] Ho. rewrite on_delivered_run in Ho.
  destruct (jsonl_append id (fes_delivered st.1, st.2)) as [[[]|x] t] eqn:Ha; [|done]. injection Ho as <-.
  destruct (journal_append_ok id (resync st) t Hok Ha) as [Hok' _]. by split.
Qed.

Lemma replace_files_ok path kept st st' :
  files_ok path st → on_delivered (jsonl_replace_all kept) st = (Ok tt, st') → files_ok path st'.
Proof.
  intros [Hok Hpath] Ho. rewrite on_delivered_run in Ho.
  destruct (jsonl_replace_all kept (fes_delivered st.1, st.2)) as [[[]|x] t] eqn:Ha; [|done]. injection Ho as <-.
  destruct (journal_replace_ok kept (resync st) t Hok Ha) as [Hok' _]. by split.
Qed.

(** A section that fails: the memory is as it was. *)
Definition label (o : Outcome) : Outcome := if decide (o = Refused) then Refused else Broken.

Lemma failed_refines path o d s st' :
  refines path d s →
  js_records (fes_inner st'.1) = js_records (fes_inner (fd_store d).1) →
  js_records (fes_delivered st'.1) = js_records (fes_delivered (fd_store d).1) →
  fes_delivered_set st'.1 = fes_delivered_set (fd_store d).1 →
  (o = Refused → files_ok path (fd_store d) → files_ok path st') →
  refines path (mkFiled st' (fd_handled d) (fd_appended d) (fd_sound d && bool_decide (o = Refused)))
    (failed_call (label o) s).
Proof.
  intros [] He Hj Hd Hok. constructor; simpl; try congruence.
  - rewrite rf_sound0. f_equal. apply bool_decide_ext. unfold label. case_decide; naive_solver.
  - intros [Hs Ho%bool_decide_eq_true]%andb_true_iff. auto.
Qed.

Lemma on_inner_memory {A} (m : M (JsonlStore EventEnvelope * FS) io_error A) f st r st' :
  memory m f → on_inner m st = (r, st') →
  match r with
  | Ok a => f (js_records (fes_inner st.1)) a (js_records (fes_inner st'.1))
  | Err _ => js_records (fes_inner st'.1) = js_records (fes_inner st.1)
  end ∧ fes_delivered st'.1 = fes_delivered st.1 ∧ fes_delivered_set st'.1 = fes_delivered_set st.1.
Proof.
  intros Hm Ho. rewrite on_inner_run in Ho. injection Ho as <- <-. split; [|done].
  specialize (Hm (fes_inner st.1, st.2)). by destruct (m _).
Qed.

Lemma on_delivered_memory {A} (m : M (JsonlStore EventId * FS) io_error A) f st r st' :
  memory m f → on_delivered m st = (r, st') →
  match r with
  | Ok a => f (js_records (fes_delivered st.1)) a (js_records (fes_delivered st'.1))
  | Err _ => js_records (fes_delivered st'.1) = js_records (fes_delivered st.1)
  end ∧ fes_inner st'.1 = fes_inner st.1 ∧ fes_delivered_set st'.1 = fes_delivered_set st.1.
Proof.
  intros Hm Ho. rewrite on_delivered_run in Ho. injection Ho as <- <-. split; [|done].
  specialize (Hm (fes_delivered st.1, st.2)). by destruct (m _).
Qed.

Lemma known_key_files path d s event :
  refines path d s → known_key event s = bool_decide (is_Some (existing_event event (fd_store d))).
Proof.
  intros Hr. unfold known_key, existing_event. destruct (idempotency_key (ev_metadata event)) as [key|]; [|done].
  simpl. unfold es_find_by_idempotency_key. simpl. unfold default_find_by_idempotency_key, fes_all, jsonl_all.
  rewrite (rf_events _ _ _ Hr). by destruct (List.find _ _).
Qed.

Definition simulated (path : string) (s : Shared) (t : Task) d' (t' : Task) : Prop :=
  ∃ o' s', task_step o' s t = (s', t') ∧ refines path d' s'.

Lemma append_simulated path o d s event (t : Task) (next : Task) d' t' :
  (∀ o s, task_step o s t = match o with Done => (append_event event s, next) | _ => (failed_call o s, Finished false) end) →
  refines path d s → section o (fes_append event) d (λ _ d, (acknowledge event d, next)) = (d', t') →
  (o = Refused → files_ok path (fd_store d) → files_ok path (fd_store d')) → simulated path s t d' t'.
Proof.
  intros Ht Hr Hs Hrefused. unfold section in Hs. destruct (fes_append event (fd_store d)) as [[[]|x] st] eqn:Ho.
  - injection Hs as <- <-. exists Done, (append_event event s). split; [by rewrite Ht|].
    destruct (on_inner_memory _ _ _ _ _ (append_memory event) Ho) as (He & Hj & Hd). destruct Hr.
    constructor; simpl; try congruence. intros Hsound. eapply append_files_ok; [|done]. auto.
  - injection Hs as <- <-. exists (label o), (failed_call (label o) s).
    split; [by rewrite Ht; unfold label; case_decide|].
    destruct (on_inner_memory _ _ _ _ _ (append_memory event) Ho) as (He & Hj & Hd).
    apply failed_refines; [done|done|by rewrite Hj|done|done].
Qed.

Lemma retain_simulated path o d s policy now X d' t' :
  refines path d s → file_step o d (RetentionRetain policy now X) = (d', t') →
  (o = Refused → files_ok path (fd_store d) → files_ok path (fd_store d')) →
  simulated path s (RetentionRetain policy now X) d' t'.
Proof.
  intros Hr Hs Hrefused. cbn [file_step] in Hs. unfold section in Hs.
  set (kp := λ events : list EventEnvelope, retain_events events X policy now) in *.
  destruct (on_inner (jsonl_retain kp) (fd_store d)) as [[n|x] st] eqn:Ho.
  - injection Hs as <- <-. destruct (on_inner_memory _ _ _ _ _ (retain_memory kp) Ho) as ((Hn & He) & Hj & Hd).
    exists Done. simpl. unfold retention_retain_step, fes_all, jsonl_all. fold (kp (sh_events s)).
    rewrite <-(rf_events _ _ _ Hr). rewrite <-Hn.
    destruct (n >? 0); eexists; (split; [done|]); destruct Hr; constructor; simpl; try congruence;
      intros Hsound; (eapply retain_files_ok; [|done]; auto).
  - assert ((len (sh_events s) - len (kp (sh_events s)) >? 0) = true) as Hgt.
    { rewrite <-(rf_events _ _ _ Hr). rewrite on_inner_run in Ho. injection Ho as Hx _.
      unfold jsonl_retain, gets, mbind, M_bind in Hx. simpl in Hx. by destruct (_ >? 0). }
    injection Hs as <- <-. exists (label o), (failed_call (label o) s). split.
    { simpl. unfold retention_retain_step. fold (kp (sh_events s)). rewrite Hgt. unfold label. by case_decide. }
    destruct (on_inner_memory _ _ _ _ _ (retain_memory kp) Ho) as (He & Hj & Hd).
    apply failed_refines; [done|done|by rewrite Hj|done|done].
Qed.

Lemma mark_simulated path o d s id d' t' :
  refines path d s → file_step o d (MarkJournal id) = (d', t') →
  (o = Refused → files_ok path (fd_store d) → files_ok path (fd_store d')) → simulated path s (MarkJournal id) d' t'.
Proof.
  intros Hr Hs Hrefused. cbn [file_step] in Hs. unfold section in Hs.
  destruct (on_delivered (jsonl_append id) (fd_store d)) as [[[]|x] st] eqn:Ho; injection Hs as <- <-;
    destruct (on_delivered_memory _ _ _ _ _ (append_memory id) Ho) as (Hj & He & Hd).
  - exists Done. eexists. split; [done|]. destruct Hr. constructor; simpl; try congruence.
    intros Hsound. eapply journal_files_ok; [|done]. auto.
  - exists (label o), (failed_call (label o) s). split; [by simpl; unfold label; case_decide|].
    apply failed_refines; [done|by rewrite He|done..].
Qed.

Lemma replace_simulated path o d s kept d' t' :
  refines path d s → file_step o d (RetentionJournal kept) = (d', t') →
  (o = Refused → files_ok path (fd_store d) → files_ok path (fd_store d')) → simulated path s (RetentionJournal kept) d' t'.
Proof.
  intros Hr Hs Hrefused. cbn [file_step] in Hs. unfold section in Hs.
  destruct (on_delivered (jsonl_replace_all kept) (fd_store d)) as [[[]|x] st] eqn:Ho; injection Hs as <- <-;
    destruct (on_delivered_memory _ _ _ _ _ (replace_all_memory kept) Ho) as (Hj & He & Hd).
  - exists Done. eexists. split; [done|]. destruct Hr. constructor; simpl; try congruence.
    intros Hsound. eapply replace_files_ok; [|done]. auto.
  - exists (label o), (failed_call (label o) s). split; [by simpl; unfold label; case_decide|].
    apply failed_refines; [done|by rewrite He|done..].
Qed.

(** A lock section on the files is the one of [Concurrency]. *)
Lemma file_step_simulated path o d s t d' t' :
  refines path d s → file_step o d t = (d', t') →
  (o = Refused → files_ok path (fd_store d) → files_ok path (fd_store d')) → simulated path s t d' t'.
Proof.
  intros Hr Hs Hrefused.
  destruct t as [e|e|e|e|e|id|id|id|policy now|policy now X|kept|kept|r]; try by (eapply append_simulated; [|done..]; intros []).
  - cbn [file_step] in Hs. injection Hs as <- <-. exists Done, s. split; [|done]. simpl. unfold_steps.
    rewrite (known_key_files _ _ _ _ Hr). by destruct (existing_event e (fd_store d)).
  - destruct Hr. destruct o; injection Hs as <- <-; [exists Done|exists Broken..]; eexists; (split; [done|]); constructor;
      simpl; congruence || auto.
  - cbn [file_step] in Hs. injection Hs as <- <-. exists Done, s. split; [|done]. simpl. unfold_steps.
    rewrite (known_key_files _ _ _ _ Hr). by destruct (existing_event e (fd_store d)).
  - cbn [file_step] in Hs. injection Hs as <- <-. exists Done, s. split; [|done]. simpl. unfold_steps. by rewrite (rf_delivered _ _ _ Hr).
  - by eapply mark_simulated.
  - injection Hs as <- <-. exists Done. eexists. split; [done|]. destruct Hr. constructor; simpl; try congruence. auto.
  - cbn [file_step] in Hs. injection Hs as <- <-. exists Done, s. split; [|done]. simpl. unfold_steps. by rewrite (rf_delivered _ _ _ Hr).
  - by eapply retain_simulated.
  - by eapply replace_simulated.
  - injection Hs as <- <-. exists Done. eexists. split; [done|]. destruct Hr. constructor; simpl; try congruence. auto.
  - injection Hs as <- <-. by exists Done, s.
Qed.

(** Restarting on files in order. *)
Lemma files_ok_restart path st fs :
  files_ok path st → crash st.2 fs → no_faults fs →
  fes_open path fs = (Ok (resync st).1, fs) ∧ files_ok path ((resync st).1, fs).
Proof. intros [Hok <-] Hcr Hnf. destruct (fes_restart (resync st) fs Hok Hcr Hnf) as [Ho Hok']. by split. Qed.

Lemma crash_simulated path d s fs store fs' :
  refines path d s → crash (fd_store d).2 fs → no_faults fs → fes_open path fs = (Ok store, fs') →
  ∃ s', reopened s s' ∧ refines path (mkFiled (store, fs') (fd_handled d) (fd_appended d) (fd_sound d)) s'.
Proof.
  intros Hr Hcr Hnf Ho. unfold reopened. rewrite <-(rf_sound _ _ _ Hr). destruct (fd_sound d) eqn:Hsound.
  - exists (restart s). split; [done|]. pose proof (rf_files _ _ _ Hr Hsound) as Hok.
    destruct (files_ok_restart _ _ _ Hok Hcr Hnf) as [Ho' Hok']. rewrite Ho' in Ho. injection Ho as <- <-.
    destruct Hr. constructor; simpl; try congruence. done.
  - exists (mkShared (js_records (fes_inner store)) (js_records (fes_delivered store)) (fes_delivered_set store)
      (fd_handled d) (fd_appended d) false).
    destruct Hr. by repeat constructor.
Qed.

Lemma file_sys_step_simulated path allowed d ts sys' s :
  file_sys_step path allowed (d, ts) sys' → refines path d s →
  ∃ s', sys_step allowed (s, ts) (s', sys'.2) ∧ refines path sys'.1 s'.
Proof.
  intros Hs. remember (d, ts) as sys eqn:Hsys. intros Hr.
  destruct Hs as [d1 ts1 i t faults o d' t' Hi Ht Ho|d1 ts1 e|d1 ts1 e|d1 ts1 e|d1 ts1 policy now Hp|d1 ts1 i e Hi
    |d1 ts1 fs store fs' Hcr Hnf Ho]; injection Hsys as -> ->; simpl.
  - destruct (file_step_simulated path o (scheduled faults d) s t d' t') as (o' & s' & Hs' & Hr'); [|done|..].
    { by apply refines_scheduled. }
    { intros Hrefused Hok. by apply Ho, (files_ok_unscheduled _ faults). }
    exists s'. split; [by eapply sys_run|done].
  - exists s. split; [constructor|done].
  - exists s. split; [constructor|done].
  - exists s. split; [constructor|done].
  - exists s. split; [by constructor|done].
  - exists s. split; [by eapply sys_cancel|done].
  - destruct (crash_simulated _ _ _ _ _ _ Hr Hcr Hnf Ho) as (s' & Hre & Hr'). exists s'. split; [by constructor|done].
Qed.

Lemma file_run_simulated path allowed d ts sys' s :
  rtc (file_sys_step path allowed) (d, ts) sys' → refines path d s →
  ∃ s', rtc (sys_step allowed) (s, ts) (s', sys'.2) ∧ refines path sys'.1 s'.
Proof.
  intros Hrun. remember (d, ts) as sys eqn:Hsys. revert d ts s Hsys.
  induction Hrun as [sys|sys [d1 ts1] sys2 Hs _ IH]; intros d ts s -> Hr; [by exists s|].
  destruct (file_sys_step_simulated _ _ _ _ _ _ Hs Hr) as (s1 & Hs1 & Hr1).
  destruct (IH d1 ts1 s1 eq_refl Hr1) as (s2 & Hs2 & Hr2). exists s2. split; [by eapply rtc_l|done].
Qed.

(** A new event store starts as the empty system does. *)
Lemma open_refines path fs0 store fs1 :
  paths_ok path → fs_wf fs0 → fs_dir fs0 !! path = None → fs_dir fs0 !! delivered_path path = None →
  fes_open path fs0 = (Ok store, fs1) → refines path (file_system0 (store, fs1)).1 system0.1.
Proof.
  intros Hp Hwf Hn Hdn Ho. destruct (fes_open_new _ _ _ _ Hp Hwf Hn Hdn Ho) as [Hv Hok].
  injection Hv as He HX. pose proof (fes_set _ Hok) as Hset. simpl in Hset, He, HX.
  assert (js_records (fes_delivered store) = []) as Hj.
  { destruct (js_records (fes_delivered store)) as [|id l]; [done|]. rewrite HX in Hset. set_solver. }
  assert (resync (store, fs1) = (store, fs1)) as Hre.
  { unfold resync, with_journal. simpl. rewrite <-Hset. by destruct store. }
  constructor; try done. intros _. change (fes_at path (resync (store, fs1))). rewrite Hre. split; [done|by eapply fes_open_path].
Qed.

(** C14: the tasks on their files. Whatever system calls fail in whichever lock
    sections, wherever tasks are cancelled and the power is lost, what the tasks do on
    the two files of a new event store the tasks of [Concurrency] do: same tasks, same
    memory, same history. As long as no section failed that left the files out of order,
    any power loss leaves files that open, the log is the one in memory with the marks
    of the journal, and, under policies without hard bounds, every event whose append
    was acknowledged and whose handling never succeeded is undelivered in it. *)
Theorem files_refine_tasks path allowed fs0 store fs1 d ts :
  paths_ok path → fs_wf fs0 → fs_dir fs0 !! path = None → fs_dir fs0 !! delivered_path path = None →
  fes_open path fs0 = (Ok store, fs1) → rtc (file_sys_step path allowed) (file_system0 (store, fs1)) (d, ts) →
  ∃ s, rtc (sys_step allowed) system0 (s, ts) ∧
    (log_of s, sh_journal s, sh_handled s, sh_appended s, sh_sound s) =
      (fes_view (fd_store d), js_records (fes_delivered (fd_store d).1), fd_handled d, fd_appended d, fd_sound d) ∧
    (fd_sound d = true → ∀ fs, crash (fd_store d).2 fs → no_faults fs →
     ∃ store', fes_open path fs = (Ok store', fs) ∧ fes_view (store', fs) = log_of (restart s) ∧
       ((∀ policy, allowed policy → grace_only policy) →
        ∀ e, e ∈ fd_appended d → ev_id e ∉ fd_handled d → e ∈ fes_undelivered (store', fs))).
Proof.
  intros Hp Hwf Hn Hdn Ho Hrun. pose proof (open_refines _ _ _ _ Hp Hwf Hn Hdn Ho) as Hr0.
  destruct (file_run_simulated _ _ _ _ _ _ Hrun Hr0) as (s & Hs & Hr). simpl in Hs, Hr. exists s. split; [exact Hs|].
  split; [by destruct Hr; unfold log_of, fes_view; congruence|]. intros Hsound fs Hcr Hnf.
  destruct (files_ok_restart _ _ _ (rf_files _ _ _ Hr Hsound) Hcr Hnf) as [Ho' _].
  exists (resync (fd_store d)).1. split; [done|].
  assert (fes_view ((resync (fd_store d)).1, fs) = log_of (restart s)) as Hv.
  { unfold fes_view, log_of, restart. simpl. by rewrite (rf_events _ _ _ Hr), (rf_journal _ _ _ Hr). }
  split; [done|]. intros Hg e He Hh.
  assert (sh_sound s = true) as Hss by (by rewrite <-(rf_sound _ _ _ Hr)).
  pose proof (reachable_ok _ _ Hg Hs Hss) as [Hj _ Hk _]. simpl in Hj, Hk.
  change (e ∈ log_undelivered (fes_view ((resync (fd_store d)).1, fs))). rewrite Hv.
  unfold log_undelivered. apply list_elem_of_filter. simpl. rewrite elem_of_list_to_set.
  rewrite (rf_appended _ _ _ Hr) in He. rewrite (rf_handled _ _ _ Hr) in Hh.
  split; [by intros ?%Hj|]. by destruct (Hk e He).
Qed.

(** *** Failures that leave the files in order

    An append that wrote nothing: its record has no text, or the first call failed
    before any byte. *)
Lemma append_refused path e st x st' :
  files_ok path st → fes_append e st = (Err x, st') →
  content st'.2 (js_file (fes_inner st.1)) = content st.2 (js_file (fes_inner st.1)) → files_ok path st'.
Proof.
  intros [Hok Hpath] Ho Hc. unfold fes_append in Ho. rewrite on_inner_run in Ho.
  destruct (fes_ok_journals _ Hok) as (bs & cs & Hs & Hd & Hne). simpl in Hs, Hd, Hne.
  destruct (jsonl_append e (fes_inner st.1, st.2)) as [[u|y] t] eqn:Ha; [done|]. injection Ho as -> <-. simpl in Hc.
  destruct (append_err_inv _ (fes_inner st.1, st.2) _ _ _ Hs Ha) as (Ht & z & _ & [Hwf Hdir Hddir (p & _ & Hcp) Hdu]).
  destruct (safe_inode_ne _ _ _ _ _ _ _ Hne Hs Hd) as [Hji Hlt].
  pose proof (append_frame _ _ _ e (fes_inner st.1, st.2) Hji Hlt Hd) as Hf. rewrite Ha in Hf. simpl in *.
  assert (content t.2 (js_file (fes_inner st.1)) = file_of bs) as Hcb.
  { rewrite Hc. by destruct Hs as [_ []]. }
  destruct Hok as [Hp Hdp (Hpi & bs' & Hbs' & Hs') (Hpd & cs' & Hcs' & Hd') Hset]. simpl in *.
  split; simpl; [|by rewrite Ht]. constructor; simpl; rewrite ?Ht; try done.
  - split; [done|]. exists bs'. split; [done|]. simpl.
    assert (file_of bs = file_of bs') as Hbb by (destruct Hs as [_ []], Hs' as [_ []]; congruence).
    rewrite <-Hbb. by split.
  - split; [done|]. exists cs'. split; [done|].
    assert (file_of cs = file_of cs') as <- by (destruct Hd as [_ []], Hd' as [_ []]; congruence). done.
Qed.
End tasks.
