(* ===== verification/ConcurrencyRuns.v ===== *)
(** * Sample interleavings

    The theorems on interleavings applied to concrete schedules, and a schedule
    in which an acknowledged delivery mark is lost. *)

From stdpp Require Import base gmap strings list relations.
From Stdlib Require Import ZArith Lia.
From S2P Require Import Prelude RustStd Event Retention Store FileSystem Jsonl JsonlSpec Durability FileStore FileDurability Samples FileCalm.
From S2P Require Import StorageRuns Concurrency FileTasks.
Local Open Scope Z_scope.

(** Delivered events expire after 50 ns. *)
Definition short_grace : AutoRetention := mkAutoRetention (Some 50) None None None.

Definition same_policy (policy : AutoRetention) : Prop := policy = short_grace.

(** [event1] is accepted, and the process crashes before it is dispatched. *)
Definition accepted_state : Shared := restart (append_event event1 system0.1).

Lemma accepted_run : rtc (sys_step same_policy) system0 (accepted_state, []).
Proof.
  eapply rtc_l; [apply (sys_accept _ _ _ event1)|].
  etrans; [apply (schedule same_policy 2 system0.1 _ 0 (AcceptCheck event1)); done|].
  apply rtc_once. apply (sys_crash _ (append_event event1 system0.1)). reflexivity.
Qed.

Lemma at_least_once_witness :
  event1 ∈ sh_events accepted_state ∧ (ev_id event1 ∉ sh_delivered accepted_state) ∧
  (ev_id event1 ∉ sh_journal accepted_state) ∧ ∀ s', reopened accepted_state s' → event1 ∈ log_undelivered (log_of s').
Proof.
  apply (at_least_once same_policy accepted_state [] event1).
  - intros policy ->. repeat split.
  - exact accepted_run.
  - reflexivity.
  - left.
  - set_solver.
Defined.

Definition event1_again : EventEnvelope := sample_event 3 (Some "k1") 150.

Lemma dedup_race_witness :
  (∃ s, rtc (sys_step same_policy) system0 (s, [Finished true; Finished true]) ∧
     sh_events s = [event1; event1_again] ∧ ev_id event1 ∈ sh_handled s ∧ ev_id event1_again ∈ sh_handled s) ∧
  let s1 := (run_alone 7 system0.1 (IngestCheck event1)).1 in
  sh_events (run_alone 7 s1 (IngestCheck event1_again)).1 = [event1].
Proof. apply (dedup_race same_policy event1 event1_again); [by exists "k1"|reflexivity]. Defined.

(** Play a schedule: which task takes the next step, every system call succeeding. *)
Fixpoint play (turns : list nat) (sys : System) : System :=
  match turns with
  | [] => sys
  | i :: turns =>
    match sys.2 !! i with
    | Some t => let '(s, t) := task_step Done sys.1 t in play turns (s, <[i := t]> sys.2)
    | None => play turns sys
    end
  end.

Lemma play_steps allowed turns sys : rtc (sys_step allowed) sys (play turns sys).
Proof.
  revert sys. induction turns as [|i turns IH]; intros [s ts]; simpl; [done|].
  destruct (ts !! i) as [t|] eqn:Hi; [|apply IH].
  destruct (task_step Done s t) as [s' t'] eqn:Ht. eapply rtc_l; [by eapply (sys_run _ _ _ i t Done)|apply IH].
Qed.

(** [event1] is delivered and old; a sweep has taken its snapshot when [event2] is
    marked delivered; the sweep then overwrites the mark. *)
Definition racing : System :=
  ((run_alone 7 system0.1 (IngestCheck event1)).1, [IngestCheck event2; RetentionSnapshot short_grace 220]).
Definition raced : System := play [0; 0; 1; 0; 0; 0; 0; 1; 1; 1]%nat racing.

(** The mark was acknowledged and is in neither record: [event2] will be handled
    again after a restart, which a deduplicating broker absorbs. *)
Example mark_is_lost :
  raced.2 = [Finished true; Finished true] ∧ sh_events raced.1 = [event2] ∧
  (ev_id event2 ∈ sh_handled raced.1) ∧ (ev_id event2 ∉ sh_delivered raced.1) ∧
  (ev_id event2 ∉ sh_journal raced.1) ∧ log_undelivered (log_of (restart raced.1)) = [event2].
Proof.
  split_and!; [vm_compute; reflexivity|..]; apply (bool_decide_unpack _); vm_compute; exact I.
Qed.

(** ** On the files *)

(** The disk is full: the first call fails before it wrote a byte. *)
Definition disk_full : list (option Fault) := [Some (mkFault (mkIoError (OsError 28) "No space left on device") 0)].

Definition filed0 : Filed := (file_system0 fes_sample).1.
Definition filed1 : Filed := (file_step Done (scheduled [] filed0) (AcceptAppend event1)).1.
Definition filed2 : Filed := (file_step Refused (scheduled disk_full (scheduled [] filed1)) (AcceptAppend event2)).1.

(** [event1] is accepted, [event2] is refused. *)
Lemma filed_run :
  rtc (file_sys_step sample_path same_policy) (filed0, []) (filed2, [Finished true; Finished false]).
Proof.
  assert (scheduled [] filed0 = filed0) as Hq by by vm_compute.
  eapply rtc_l; [apply (file_accept _ _ _ _ event1)|].
  eapply rtc_l; [apply (file_run _ _ _ _ 0 (AcceptCheck event1) [] Done filed0 (AcceptAppend event1)); [done|..|done]|].
  { rewrite Hq. vm_compute. reflexivity. }
  eapply rtc_l; [apply (file_run _ _ _ _ 0 (AcceptAppend event1) [] Done filed1 (Finished true)); [done|..|done]|].
  { vm_compute. reflexivity. }
  eapply rtc_l; [apply (file_accept _ _ _ _ event2)|].
  eapply rtc_l; [apply (file_run _ _ _ _ 1 (AcceptCheck event2) [] Done (scheduled [] filed1) (AcceptAppend event2)); [done|..|done]|].
  { vm_compute. reflexivity. }
  apply rtc_once. apply (file_run _ _ _ [Finished true; AcceptAppend event2] 1 (AcceptAppend event2) disk_full Refused filed2 (Finished false)); [done|..].
  { vm_compute. reflexivity. }
  intros _ Hok.
  apply (append_refused _ event2 (fd_store (scheduled disk_full (scheduled [] filed1))) (mkIoError (OsError 28) "No space left on device")).
  - by apply files_ok_scheduled.
  - vm_compute. reflexivity.
  - vm_compute. reflexivity.
Qed.

Lemma files_refine_tasks_witness :
  ∃ s, rtc (sys_step same_policy) system0 (s, [Finished true; Finished false]) ∧
    (log_of s, sh_journal s, sh_handled s, sh_appended s, sh_sound s) =
      (fes_view (fd_store filed2), js_records (fes_delivered (fd_store filed2).1), fd_handled filed2,
       fd_appended filed2, fd_sound filed2) ∧
    (fd_sound filed2 = true → ∀ fs, crash (fd_store filed2).2 fs → no_faults fs →
     ∃ store', fes_open sample_path fs = (Ok store', fs) ∧ fes_view (store', fs) = log_of (restart s) ∧
       ((∀ policy, same_policy policy → grace_only policy) →
        ∀ e, e ∈ fd_appended filed2 → ev_id e ∉ fd_handled filed2 → e ∈ fes_undelivered (store', fs))).
Proof.
  apply (files_refine_tasks sample_path same_policy fs_empty fes_sample.1 fes_sample.2 filed2).
  - exact sample_paths_ok.
  - exact fs_empty_wf.
  - reflexivity.
  - reflexivity.
  - exact fes_sample_run.
  - rewrite <-(surjective_pairing fes_sample). exact filed_run.
Defined.

(** [event1] was acknowledged and never handled, and the files are in order. *)
Example filed2_sound : fd_sound filed2 = true ∧ fd_appended filed2 = [event1] ∧ fd_handled filed2 = ∅.
Proof. vm_compute. split_and!; reflexivity. Qed.
