(* ===== verification/Sweeping.v ===== *)
(** * Sweeps and appends at once

    [FileEventStore::enforce_retention] computes its survivors from the live log
    under its lock ([crates/triggerlane-storage/src/lib.rs], 513-540), not from a
    snapshot it then writes back. Here one thread sweeps, again and again, while
    events are appended: whatever the interleaving of their lock sections and
    whichever of them fail, the log is what it was, swept once or not at all,
    followed by the acknowledged events. A section that fails leaves the log in
    memory as it was, as in [Concurrency]. The threaded test of the crate (lines
    1342-1408) is an instance, for every schedule of its two threads. *)

From stdpp Require Import base gmap list relations.
From Stdlib Require Import ZArith Lia.
From S2P Require Import Prelude RustStd Event Retention Store FileStore Concurrency.
Local Open Scope Z_scope.

Section race.
Context `{Serialize EventEnvelope} `{HashSetIter}.
Implicit Types s : Shared.

(** The store, the events whose append was acknowledged, in order, and where the
    sweeper stands. *)
Record Race := mkRace {
  race_store : Shared;
  race_appended : list EventEnvelope;
  race_sweeper : Task;
}.

Definition is_finished (t : Task) : bool := match t with Finished _ => true | _ => false end.

(** An append; the sweeper's next lock section; a sweep that begins when the one
    before has ended. *)
Definition race_append (o : Outcome) (event : EventEnvelope) (r : Race) : Race :=
  match accept_append_step o event (race_store r) with
  | (s, Finished true) => mkRace s (race_appended r ++ [event]) (race_sweeper r)
  | (s, _) => mkRace s (race_appended r) (race_sweeper r)
  end.
Definition race_sweep (o : Outcome) (r : Race) : Race :=
  let '(s, t) := task_step o (race_store r) (race_sweeper r) in mkRace s (race_appended r) t.
Definition race_begin (policy : AutoRetention) (now : DateTime) (r : Race) : Race :=
  if is_finished (race_sweeper r) then mkRace (race_store r) (race_appended r) (RetentionSnapshot policy now) else r.

Inductive race_step (policy : AutoRetention) (now : DateTime) : Race → Race → Prop :=
| race_step_append o event r : race_step policy now r (race_append o event r)
| race_step_sweep o r : race_step policy now r (race_sweep o r)
| race_step_begin r : race_step policy now r (race_begin policy now r).

(** A sweep on its own, every system call succeeding. *)
Definition swept (policy : AutoRetention) (now : DateTime) s : Shared :=
  (run_alone 7 s (RetentionSnapshot policy now)).1.

(** ** What a sweep keeps *)

Section invariant.
Context (policy : AutoRetention) (now : DateTime) (s0 : Shared).
Hypothesis grace : grace_only policy.

(** The events of the first log that outlive a sweep. *)
Definition outliving : list EventEnvelope := retain_events (sh_events s0) (sh_delivered s0) policy now.

Lemma retain_grace events delivered :
  retain_events events delivered policy now = filter (λ e, event_survives delivered policy now e = true) events.
Proof. destruct grace as (_ & Hc & Hb). unfold retain_events, apply_size_bounds. by rewrite Hc, Hb. Qed.

(** With fewer events taken to be delivered, more survive. *)
Lemma survives_mono d d' e :
  d ⊆ d' → event_survives d' policy now e = true → event_survives d policy now e = true.
Proof.
  intros Hd. destruct grace as (Ha & _). unfold event_survives. rewrite Ha.
  destruct (delivered_grace policy); [|done]. rewrite !negb_true_iff, !andb_false_iff, !bool_decide_eq_false. set_solver.
Qed.

Lemma undelivered_survives d e : ev_id e ∉ d → event_survives d policy now e = true.
Proof.
  intros Hd. destruct grace as (Ha & _). unfold event_survives. rewrite Ha.
  destruct (delivered_grace policy); [|done]. by rewrite bool_decide_false.
Qed.

(** A sweep of the first log and what was appended since. *)
Lemma retain_appended d more :
  d ⊆ sh_delivered s0 → (∀ e, e ∈ more → ev_id e ∉ sh_delivered s0) →
  retain_events (outliving ++ more) d policy now = outliving ++ more ∧
  retain_events (sh_events s0 ++ more) (sh_delivered s0) policy now = outliving ++ more.
Proof.
  intros Hd Hm. unfold outliving. rewrite !retain_grace. split.
  - apply filter_all, Forall_forall. intros e [He|He]%elem_of_app.
    + apply list_elem_of_filter in He as [He _]. by apply (survives_mono d (sh_delivered s0)).
    + apply undelivered_survives. specialize (Hm e He). set_solver.
  - rewrite filter_app. f_equal. apply filter_all, Forall_forall. intros e He. apply undelivered_survives. auto.
Qed.

(** ** The race *)

Definition sweeper_ok (d : gset EventId) (t : Task) : Prop :=
  match t with
  | Finished _ => True
  | RetentionSnapshot p n => p = policy ∧ n = now
  | RetentionRetain p n d' => p = policy ∧ n = now ∧ d' ⊆ d
  | RetentionJournal ids | RetentionSet ids => ∀ id, id ∈ ids → id ∈ d
  | _ => False
  end.

(** Until a sweep removes something, its snapshots are the first marks. *)
Definition unswept (t : Task) : Prop :=
  match t with
  | RetentionRetain _ _ d => d = sh_delivered s0
  | RetentionJournal _ | RetentionSet _ => False
  | _ => True
  end.

Definition race_ok (r : Race) : Prop :=
  sweeper_ok (sh_delivered s0) (race_sweeper r) ∧
  (sh_events (race_store r) = sh_events s0 ++ race_appended r ∧
     sh_delivered (race_store r) = sh_delivered s0 ∧ unswept (race_sweeper r) ∨
   sh_events (race_store r) = outliving ++ race_appended r ∧ sh_delivered (race_store r) ⊆ sh_delivered s0).

Lemma race_ok_start b : race_ok (mkRace s0 [] (Finished b)).
Proof. split; [done|]. left. simpl. by rewrite app_nil_r. Qed.

Lemma race_append_ok o event r : race_ok r → race_ok (race_append o event r).
Proof.
  intros [Ht Hr]. destruct o; [|by split..]. split; [done|]. unfold race_append. simpl.
  rewrite !(assoc_L (++)). destruct Hr as [(He & Hd & Hu)|(He & Hd)]; [left|right]; by rewrite He.
Qed.

Lemma race_begin_ok r : race_ok r → race_ok (race_begin policy now r).
Proof.
  intros Hr. unfold race_begin. destruct (is_finished (race_sweeper r)); [|done].
  destruct Hr as [_ Hr]. split; [done|]. simpl. destruct Hr as [(? & ? & _)|?]; auto.
Qed.

Lemma race_sweep_ok o r :
  (∀ e, e ∈ race_appended r → ev_id e ∉ sh_delivered s0) → race_ok r → race_ok (race_sweep o r).
Proof.
  destruct r as [s more t]. unfold race_ok, race_sweep. simpl. intros Hm [Ht Hr].
  destruct t as [e|e|e|e|e|id|id|id|p n|p n d|kept|kept|b]; simpl in Ht; try done; simpl.
  - destruct Ht as [-> ->]. destruct Hr as [(He & Hd & _)|(He & Hd)]; destruct (is_unbounded policy); simpl; rewrite ?Hd; auto 10.
  - destruct Ht as (-> & -> & Hd').
    assert (∀ id, id ∈ iter d → id ∈ sh_delivered s0) as Hids.
    { intros id Hi. rewrite iter_perm, elem_of_elements in Hi. by apply Hd'. }
    destruct (retain_appended d more Hd' Hm) as [Hkeep Hsweep].
    unfold retention_retain_step. destruct Hr as [(He & Hd & Hu)|(He & Hd)]; rewrite He.
    + simpl in Hu. subst d. rewrite Hsweep. destruct (_ >? 0) eqn:Hgt; [destruct o|]; simpl;
        (split; [done || (intros id [_ Hid]%list_elem_of_filter; by apply Hids)|]); [right|left..]; simpl; rewrite ?Hd; auto.
    + rewrite Hkeep, Z.sub_diag. simpl. eauto.
  - destruct Hr as [(_ & _ & [])|Hr]. destruct o; simpl; auto.
  - destruct Hr as [(_ & _ & [])|(He & Hd)]. split; [done|]. right. simpl. split; [done|].
    intros id Hid%elem_of_list_to_set. auto.
Qed.

(** The acknowledged events only grow. *)
Lemma race_step_appended r r' : race_step policy now r r' → ∃ more, race_appended r' = race_appended r ++ more.
Proof.
  intros [[| |] e r1|o r1|r1].
  - by exists [e].
  - exists []. by rewrite app_nil_r.
  - exists []. by rewrite app_nil_r.
  - exists []. unfold race_sweep. destruct (task_step o _ _). by rewrite app_nil_r.
  - exists []. unfold race_begin. case_match; by rewrite app_nil_r.
Qed.

Lemma race_run_appended r r' : rtc (race_step policy now) r r' → ∃ more, race_appended r' = race_appended r ++ more.
Proof.
  induction 1 as [r|r r1 r2 Hs _ [more IH]]; [exists []; by rewrite app_nil_r|].
  destruct (race_step_appended _ _ Hs) as [m Hm]. exists (m ++ more). by rewrite IH, Hm, (assoc_L (++)).
Qed.

Lemma race_run_ok r r' :
  rtc (race_step policy now) r r' → (∀ e, e ∈ race_appended r' → ev_id e ∉ sh_delivered s0) → race_ok r → race_ok r'.
Proof.
  induction 1 as [|r r1 r2 Hs Hr IH]; [done|]. intros Hm Hok. apply IH; [done|].
  destruct (race_run_appended _ _ Hr) as [more Hmore].
  destruct Hs as [o e r|o r|r]; [by apply race_append_ok| |by apply race_begin_ok].
  apply race_sweep_ok; [|done]. intros e He. apply Hm. rewrite Hmore. unfold race_sweep.
  destruct (task_step o _ _). simpl. apply elem_of_app. by left.
Qed.
End invariant.

(** A sweep on its own. *)
Lemma swept_events policy now s :
  grace_only policy → sh_events (swept policy now s) = retain_events (sh_events s) (sh_delivered s) policy now.
Proof.
  intros Hg. unfold swept. simpl. destruct (is_unbounded policy) eqn:Hu.
  { rewrite (retain_grace policy now Hg). symmetry. apply filter_all, Forall_forall. intros e _.
    destruct policy as [[] ? ? ?], Hg as (Ha & _ & _); simpl in *; [done|]. unfold event_survives. simpl. by rewrite Ha. }
  simpl task_step. unfold retention_retain_step.
  destruct (len (sh_events s) - len (retain_events (sh_events s) (sh_delivered s) policy now) >? 0) eqn:Hgt; [done|]. simpl.
  rewrite (retain_grace policy now Hg) in Hgt |- *. rewrite Z.gtb_ltb in Hgt. apply Z.ltb_ge in Hgt. unfold len in Hgt.
  symmetry. apply sublist_same_length; [apply sublist_filter|lia].
Qed.

Lemma race_settles policy now s0 b r :
  grace_only policy → (∀ e, e ∈ race_appended r → ev_id e ∉ sh_delivered s0) →
  rtc (race_step policy now) (mkRace s0 [] (Finished b)) r →
  sh_events (swept policy now (race_store r)) = sh_events (swept policy now s0) ++ race_appended r.
Proof.
  intros Hg Hm Hr. rewrite !swept_events by done.
  destruct (race_run_ok policy now s0 Hg _ _ Hr Hm) as [_ Hok]; [apply race_ok_start|].
  destruct (retain_appended policy now s0 Hg (sh_delivered (race_store r)) (race_appended r)) as [Hkeep Hsweep]; [|done|].
  { by destruct Hok as [(_ & -> & _)|[_ Hd]]. }
  by destruct Hok as [(-> & -> & _)|[-> _]].
Qed.

(** C5: sweeps do not lose what is appended during them. Events are appended while
    retention without hard bounds sweeps again and again, their lock sections
    interleaved in any order, any of them failing.
    This is the log the process has in memory; what its files hold after a failure
    is the subject of [Durability] and [JsonlFaults].
    At any moment the log is the first one, or what a sweep of the first one keeps of it,
    followed by the events whose append was acknowledged, in their order; and a
    sweep from there, whose system calls succeed, leaves exactly what sweeping
    first and appending afterwards would have left. *)
Theorem sweeps_and_appends policy now s0 b r :
  grace_only policy → (∀ e, e ∈ race_appended r → ev_id e ∉ sh_delivered s0) →
  rtc (race_step policy now) (mkRace s0 [] (Finished b)) r →
  (sh_events (race_store r) = sh_events s0 ++ race_appended r ∨
   sh_events (race_store r) = sh_events (swept policy now s0) ++ race_appended r) ∧
  sh_events (swept policy now (race_store r)) = sh_events (swept policy now s0) ++ race_appended r.
Proof.
  intros Hg Hm Hr. split; [|by eapply race_settles]. rewrite swept_events by done.
  destruct (race_run_ok policy now s0 Hg _ _ Hr Hm) as [_ [(He & _)|[He _]]]; [apply race_ok_start|by left|by right].
Qed.
End race.
