(* ===== verification/SweepingTests.v ===== *)
(** * The threaded test of [crates/triggerlane-storage/src/lib.rs], lines 1342-1408

    100 old delivered events, one thread that appends 200 recent ones and one that
    sweeps, then a last sweep. The test runs one schedule of the operating
    system's; here it passes on all of them. *)

From stdpp Require Import base gmap strings list relations.
From Stdlib Require Import ZArith Lia.
From S2P Require Import Prelude RustStd Event Retention Store FileSystem Jsonl FileStore Samples Testing.
From S2P Require Import StorageTests Concurrency Sweeping.
Local Open Scope Z_scope.

(** [event_at], the [n]th call. *)
Definition nth_event (timestamp : DateTime) (n : N) : EventEnvelope :=
  let event := EventEnvelope_new (mkEventId n) (Z.of_N n) GitHub (mkEventType EVENT_GITHUB_ISSUE_CREATED) (as_bytes "{}") in
  mkEventEnvelope (ev_id event) (ev_source event) (ev_type event) (ev_payload event) timestamp (ev_metadata event).

Definition removable : list EventEnvelope := (λ i, nth_event jan_2020 (N.of_nat i)) <$> seq 0 100.
Definition recent : list EventEnvelope := (λ i, nth_event (june 19 18) (N.of_nat i)) <$> seq 100 200.

(** Each old event appended and marked. *)
Definition seeded : Shared :=
  foldl (λ s event, (run_alone 7 (append_event event s) (MarkCheck (ev_id event))).1) system0.1 removable.

(** What the test asserts of the events that survive. *)
Definition nothing_lost (appended surviving : list EventEnvelope) : bool :=
  let surviving := ev_id <$> surviving in
  forallb (λ event, bool_decide (ev_id event ∈ surviving)) appended &&
  forallb (λ event, bool_decide (ev_id event ∉ surviving)) removable.

Lemma recent_unmarked e : e ∈ recent → ev_id e ∉ sh_delivered seeded.
Proof.
  revert e. apply Forall_forall. apply (bool_decide_unpack _). vm_compute. exact I.
Qed.

Lemma seeded_swept : sh_events (swept grace_policy now seeded) = [].
Proof. vm_compute. reflexivity. Qed.

(** Every schedule of the two threads passes the test. *)
Lemma file_auto_retention_does_not_drop_events_appended_during_a_sweep r :
  rtc (race_step grace_policy now) (mkRace seeded [] (Finished true)) r → race_appended r = recent →
  nothing_lost (race_appended r) (sh_events (swept grace_policy now (race_store r))) = true.
Proof.
  intros Hr Ha. rewrite (race_settles grace_policy now seeded true r); [|done| |done].
  - rewrite Ha, seeded_swept. vm_compute. reflexivity.
  - intros e. rewrite Ha. apply recent_unmarked.
Qed.

(** Two appends around the removal of the first event by a sweep, and one while the
    journal is rewritten. *)
Definition small_store : Shared := (run_alone 7 (append_event (nth_event jan_2020 0) system0.1) (MarkCheck (mkEventId 0))).1.
Definition small_race : Race :=
  race_sweep Done (race_append Done (nth_event (june 19 18) 3)
    (race_sweep Done (race_append Broken (nth_event (june 19 18) 2)
      (race_sweep Done (race_append Done (nth_event (june 19 18) 1)
        (race_sweep Done (race_begin grace_policy now (mkRace small_store [] (Finished true))))))))).

Lemma small_race_run : rtc (race_step grace_policy now) (mkRace small_store [] (Finished true)) small_race.
Proof. unfold small_race. do 8 (eapply rtc_r; [|constructor]). apply rtc_refl. Qed.

Definition with_ids (ids : list N) : list EventEnvelope := nth_event (june 19 18) <$> ids.

Lemma sweeps_and_appends_witness :
  (sh_events (race_store small_race) = sh_events small_store ++ with_ids [1; 3]%N ∨
   sh_events (race_store small_race) = sh_events (swept grace_policy now small_store) ++ with_ids [1; 3]%N) ∧
  sh_events (swept grace_policy now (race_store small_race)) =
    sh_events (swept grace_policy now small_store) ++ with_ids [1; 3]%N.
Proof.
  apply (sweeps_and_appends grace_policy now small_store true small_race).
  - repeat split.
  - apply (proj1 (Forall_forall _ _)). apply (bool_decide_unpack _). vm_compute. exact I.
  - exact small_race_run.
Defined.

Example small_race_swept : sh_events (race_store small_race) = with_ids [1; 3]%N.
Proof. vm_compute. reflexivity. Qed.
