(* ===== verification/Server.v ===== *)
(** * The serving process: [serve] and [serve_ingest] of [crates/triggerlane-cli/src/main.rs]

    The tasks of a running server around the shared store of [Concurrency]: the
    recovery that precedes the listener, the requests with their timeout, the
    bounded channel and the dispatcher of asynchronous ingestion, the maintenance
    ticker, the graceful shutdown, crashes and restarts. A step is one lock
    section, or one [await] that resolves.

    A request is modelled from the point where it reaches its handler; what it is
    refused for before that is the subject of [HttpSpec]. *)

From stdpp Require Import base gmap strings list relations.
From Stdlib Require Import ZArith Lia.
From S2P Require Import Prelude RustStd Event Retention Store FileStore Runtime Ingest Http Cli Concurrency.
Local Open Scope Z_scope.

(** A request to [POST /events], synchronous or asynchronous; [Sending] awaits a
    place in the channel. [Replaying] is a replay by id. *)
Inductive Request :=
| SyncRequest (t : Task)
| AsyncRequest (t : Task)
| Sending (event : EventEnvelope)
| Replaying (event : EventEnvelope)
| Answered (status : StatusCode)
| Disconnected.

(** [Starting]: the events [recover_undelivered] still has to handle, and the one
    it is handling. [Stopped]: no process. *)
Inductive Phase :=
| Starting (pending : list EventEnvelope) (current : option Task)
| Serving
| Draining
| Stopped.

(** [sv_old] is history: what had been acknowledged when the process started. *)
Record Server := mkServer {
  sv_shared : Shared;
  sv_phase : Phase;
  sv_requests : list Request;
  sv_channel : list EventEnvelope;
  sv_dispatcher : option Task;
  sv_maintenance : option Task;
  sv_old : list EventEnvelope;
}.

Definition up (sv : Server) : bool :=
  match sv_phase sv with Serving | Draining => true | _ => false end.

(** [spawn_maintenance] comes after the recovery and before the listener. *)
Definition spawned (sv : Server) : bool :=
  match sv_phase sv with Starting [] None | Serving | Draining => true | _ => false end.

Definition set_shared (s : Shared) (sv : Server) : Server :=
  mkServer s (sv_phase sv) (sv_requests sv) (sv_channel sv) (sv_dispatcher sv) (sv_maintenance sv) (sv_old sv).
Definition set_phase (p : Phase) (sv : Server) : Server :=
  mkServer (sv_shared sv) p (sv_requests sv) (sv_channel sv) (sv_dispatcher sv) (sv_maintenance sv) (sv_old sv).
Definition set_requests (rs : list Request) (sv : Server) : Server :=
  mkServer (sv_shared sv) (sv_phase sv) rs (sv_channel sv) (sv_dispatcher sv) (sv_maintenance sv) (sv_old sv).
Definition set_channel (c : list EventEnvelope) (sv : Server) : Server :=
  mkServer (sv_shared sv) (sv_phase sv) (sv_requests sv) c (sv_dispatcher sv) (sv_maintenance sv) (sv_old sv).
Definition set_dispatcher (d : option Task) (sv : Server) : Server :=
  mkServer (sv_shared sv) (sv_phase sv) (sv_requests sv) (sv_channel sv) d (sv_maintenance sv) (sv_old sv).
Definition set_maintenance (m : option Task) (sv : Server) : Server :=
  mkServer (sv_shared sv) (sv_phase sv) (sv_requests sv) (sv_channel sv) (sv_dispatcher sv) m (sv_old sv).

(** A task that runs in a loop of its own: what is left of it after a step. *)
Definition unfinished (t : Task) : option Task :=
  match t with Finished _ => None | t => Some t end.

Section server.
Context `{Serialize EventEnvelope} `{HashSetIter}.
Variable config : ServeConfig.
Implicit Types (sv : Server) (s : Shared).

(** ** Requests *)

(** [serve_ingest] mounts the handler: [AcceptEventHandler] when there is a
    channel, [IngestEventHandler] otherwise. *)
Definition new_request (event : EventEnvelope) : Request :=
  match sc_dispatch config with
  | Some _ => AsyncRequest (AcceptCheck event)
  | None => SyncRequest (IngestCheck event)
  end.

(** [IngestEventHandler::handle_event] and the status of its report. *)
Definition sync_request (t : Task) : Request :=
  match t with
  | Finished true => Answered STATUS_OK
  | Finished false => Answered INTERNAL_SERVER_ERROR
  | t => SyncRequest t
  end.

(** [AcceptEventHandler::handle_event]: a duplicate is answered at once, a fresh
    event is sent to the dispatcher first. *)
Definition async_request (t t' : Task) : Request :=
  match t, t' with
  | AcceptAppend event, Finished true => Sending event
  | _, Finished true => Answered ACCEPTED
  | _, Finished false => Answered INTERNAL_SERVER_ERROR
  | _, t' => AsyncRequest t'
  end.

(** [replay_by_id_route] on an event it found: handled again, not marked. *)
Definition replay_step (o : Outcome) (event : EventEnvelope) s : Shared * Request :=
  ((handling_step o event s).1, Answered (match o with Done => STATUS_OK | _ => INTERNAL_SERVER_ERROR end)).

Definition request_step (o : Outcome) s (r : Request) : Shared * Request :=
  match r with
  | SyncRequest t => let '(s', t') := task_step o s t in (s', sync_request t')
  | AsyncRequest t => let '(s', t') := task_step o s t in (s', async_request t t')
  | Replaying event => replay_step o event s
  | r => (s, r)
  end.

(** [self.dispatch.send(event).await]: waits while the channel is full. The
    receiver lives as long as the process, so it never fails. *)
Definition send_step (r : Request) (channel : list EventEnvelope) : option (list EventEnvelope * Request) :=
  match r, sc_dispatch config with
  | Sending event, Some capacity =>
    if len channel <? capacity then Some (channel ++ [event], Answered ACCEPTED) else None
  | _, _ => None
  end.

(** Where a request awaits: only there is it dropped, by the timeout or by a client
    that goes away. *)
Definition awaiting (r : Request) : bool :=
  match r with
  | SyncRequest (Handling _) | Sending _ | Replaying _ => true
  | _ => false
  end.

(** [with_request_timeout]: [TimeoutLayer] answers 408 and drops the handler. *)
Definition with_request_timeout (timeout : option Z) (r : Request) : option Request :=
  match timeout with
  | Some _ => if awaiting r then Some (Answered REQUEST_TIMEOUT) else None
  | None => None
  end.

Definition answered (r : Request) : bool :=
  match r with Answered _ | Disconnected => true | _ => false end.

(** ** The background tasks *)

(** [rx.recv().await] in [spawn_dispatcher]. *)
Definition receive_step sv : option Server :=
  match sv_dispatcher sv, sv_channel sv with
  | None, event :: channel => Some (set_channel channel (set_dispatcher (Some (Handling event)) sv))
  | _, _ => None
  end.

(** The dispatch of the event it received: [EventIngest::dispatch]. *)
Definition dispatcher_step (o : Outcome) sv : option Server :=
  t ← sv_dispatcher sv;
  let '(s', t') := task_step o (sv_shared sv) t in
  Some (set_shared s' (set_dispatcher (unfinished t') sv)).

(** [ticker.tick().await]: a tick starts a sweep when the last one is over. *)
Definition tick_step (now : DateTime) sv : option Server :=
  match sv_maintenance sv with
  | None => if sc_interval config =? 0 then None
            else Some (set_maintenance (Some (RetentionSnapshot (sc_policy config) now)) sv)
  | Some _ => None
  end.

Definition sweep_step (o : Outcome) sv : option Server :=
  t ← sv_maintenance sv;
  let '(s', t') := task_step o (sv_shared sv) t in
  Some (set_shared s' (set_maintenance (unfinished t') sv)).

(** ** Start and stop *)

(** A process opens the stores, finds [s] in them and begins [recover_undelivered]. *)
Definition start_step s : Server :=
  mkServer s (Starting (log_undelivered (log_of s)) None) [] [] None None (sh_appended s).

(** The loop of [recover_undelivered]; an error ends the process. *)
Definition recover_step (o : Outcome) sv : option Server :=
  match sv_phase sv with
  | Starting (event :: pending) None => Some (set_phase (Starting pending (Some (Handling event))) sv)
  | Starting pending (Some t) =>
    let '(s', t') := task_step o (sv_shared sv) t in
    Some (set_shared s' (set_phase (match t' with
                                    | Finished false => Stopped
                                    | t' => Starting pending (unfinished t')
                                    end) sv))
  | _ => None
  end.

(** The process ends: every task is dropped, the shared history stays. *)
Definition stop sv : Server := mkServer (sv_shared sv) Stopped [] [] None None (sv_old sv).

(** What the process does with the work it has. *)
Inductive work_step : Server → Server → Prop :=
| work_request sv i r o s' r' :
    up sv = true → sv_requests sv !! i = Some r → answered r = false →
    (∀ event, r ≠ Sending event) → request_step o (sv_shared sv) r = (s', r') →
    work_step sv (set_shared s' (set_requests (<[i := r']> (sv_requests sv)) sv))
| work_send sv i r channel r' :
    up sv = true → sv_requests sv !! i = Some r → send_step r (sv_channel sv) = Some (channel, r') →
    work_step sv (set_channel channel (set_requests (<[i := r']> (sv_requests sv)) sv))
| work_receive sv sv' : up sv = true → receive_step sv = Some sv' → work_step sv sv'
| work_dispatch sv o sv' : up sv = true → dispatcher_step o sv = Some sv' → work_step sv sv'
| work_sweep sv o sv' : spawned sv = true → sweep_step o sv = Some sv' → work_step sv sv'.

(** What happens to it. Requests reach a serving process only; the listener opens
    after the recovery; a draining process ends once its requests are answered. *)
Inductive server_step : Server → Server → Prop :=
| serve_work sv sv' : work_step sv sv' → server_step sv sv'
| serve_request sv event :
    sv_phase sv = Serving → server_step sv (set_requests (sv_requests sv ++ [new_request event]) sv)
| serve_replay sv event :
    sv_phase sv = Serving → event ∈ sh_events (sv_shared sv) →
    server_step sv (set_requests (sv_requests sv ++ [Replaying event]) sv)
| serve_timeout sv i r r' :
    up sv = true → sv_requests sv !! i = Some r → with_request_timeout (sc_request_timeout config) r = Some r' →
    server_step sv (set_requests (<[i := r']> (sv_requests sv)) sv)
| serve_disconnect sv i r :
    up sv = true → sv_requests sv !! i = Some r → awaiting r = true →
    server_step sv (set_requests (<[i := Disconnected]> (sv_requests sv)) sv)
| serve_tick sv now sv' : spawned sv = true → tick_step now sv = Some sv' → server_step sv sv'
| serve_shutdown sv : sv_phase sv = Serving → server_step sv (set_phase Draining sv)
| serve_exit sv :
    sv_phase sv = Draining → forallb answered (sv_requests sv) = true → server_step sv (stop sv)
| serve_crash sv : server_step sv (stop sv)
| serve_start sv s : sv_phase sv = Stopped → reopened (sv_shared sv) s → server_step sv (start_step s)
| serve_recover sv o sv' : recover_step o sv = Some sv' → server_step sv sv'
| serve_listen sv : sv_phase sv = Starting [] None → server_step sv (set_phase Serving sv).

(** Empty stores and no process. *)
Definition server0 : Server := mkServer system0.1 Stopped [] [] None None [].
End server.
