(* ===== verification/ServerSpec.v ===== *)
(** * What the serving process guarantees

    Every run of the process is a run of the interleaved tasks of [Concurrency], so
    what holds of those holds of it; it takes traffic only when everything acknowledged before has been handled;
    its channel is bounded and a drain ends; a request that times out leaves its
    event for the next start. *)

From stdpp Require Import base gmap strings list relations.
From Stdlib Require Import ZArith Lia.
From S2P Require Import Prelude RustStd Event Retention Store FileStore Runtime Ingest Http Cli Concurrency Server.
Local Open Scope Z_scope.

(** ** The tasks that are alive *)

Definition request_task (r : Request) : list Task :=
  match r with
  | SyncRequest t | AsyncRequest t => [t]
  | Replaying event => [Handling event]
  | _ => []
  end.

Definition phase_task (p : Phase) : list Task :=
  match p with Starting _ (Some t) => [t] | _ => [] end.

Definition live (sv : Server) : list Task :=
  phase_task (sv_phase sv) ++ (sv_requests sv ≫= request_task) ++
  option_list (sv_dispatcher sv) ++ option_list (sv_maintenance sv).

Lemma bind_lookup {A B} (f : A → list B) (l : list A) i x :
  l !! i = Some x → ∃ rest, l ≫= f ≡ₚ f x ++ rest ∧ ∀ y, <[i := y]> l ≫= f ≡ₚ f y ++ rest.
Proof.
  revert i. induction l as [|a l IH]; intros [|i] Hi; simplify_eq/=.
  - by exists (l ≫= f).
  - destruct (IH _ Hi) as (rest & Hr & Hins). exists (f a ++ rest). rewrite Hr.
    split; [solve_Permutation|]. intros y. rewrite Hins. solve_Permutation.
Qed.

Lemma live_request sv i r :
  sv_requests sv !! i = Some r →
  ∃ rest, live sv ≡ₚ request_task r ++ rest ∧
    ∀ r', live (set_requests (<[i := r']> (sv_requests sv)) sv) ≡ₚ request_task r' ++ rest.
Proof.
  intros Hi. destruct (bind_lookup request_task _ _ _ Hi) as (rest & Hr & Hins).
  exists (phase_task (sv_phase sv) ++ rest ++ option_list (sv_dispatcher sv) ++ option_list (sv_maintenance sv)).
  unfold live. rewrite Hr. split; [solve_Permutation|]. intros r'. simpl. rewrite Hins. solve_Permutation.
Qed.

Lemma live_dispatcher sv t :
  sv_dispatcher sv = Some t →
  ∃ rest, live sv ≡ₚ t :: rest ∧ ∀ d, live (set_dispatcher d sv) ≡ₚ option_list d ++ rest.
Proof.
  intros Hd. exists (phase_task (sv_phase sv) ++ (sv_requests sv ≫= request_task) ++ option_list (sv_maintenance sv)).
  unfold live. rewrite Hd. split; [solve_Permutation|]. intros d. simpl. solve_Permutation.
Qed.

Lemma live_maintenance sv t :
  sv_maintenance sv = Some t →
  ∃ rest, live sv ≡ₚ t :: rest ∧ ∀ m, live (set_maintenance m sv) ≡ₚ option_list m ++ rest.
Proof.
  intros Hd. exists (phase_task (sv_phase sv) ++ (sv_requests sv ≫= request_task) ++ option_list (sv_dispatcher sv)).
  unfold live. rewrite Hd. split; [solve_Permutation|]. intros d. simpl. solve_Permutation.
Qed.

Lemma live_shared s sv : live (set_shared s sv) = live sv.
Proof. done. Qed.

Lemma unfinished_task t : option_list (unfinished t) ⊆+ [t].
Proof. destruct t; simpl; done || apply submseteq_nil_l. Qed.

Section spec.
Context `{Serialize EventEnvelope} `{HashSetIter}.
Context (config : ServeConfig).
Implicit Types (sv : Server) (s : Shared).

(** ** The process refines the interleaved tasks *)

(** What a request becomes is the task's next state, or nothing that runs. *)
Lemma request_step_task o s r s' r' :
  answered r = false → (∀ event, r ≠ Sending event) → request_step o s r = (s', r') →
  ∃ t t', request_task r = [t] ∧ task_step o s t = (s', t') ∧ request_task r' ⊆+ [t'].
Proof.
  intros Ha Hns Hr. destruct r as [t|t|event|event|st|]; try done; simpl in Hr.
  - destruct (task_step o s t) as [s1 t'] eqn:Ht. simplify_eq. exists t, t'. split; [done|]. split; [done|].
    destruct t' as [| | | | | | | | | | | |[]]; simpl; done || apply submseteq_nil_l.
  - destruct (task_step o s t) as [s1 t'] eqn:Ht. simplify_eq. exists t, t'. split; [done|]. split; [done|].
    destruct t, t' as [| | | | | | | | | | | |[]]; simpl; done || apply submseteq_nil_l.
  - by destruct (Hns event).
  - unfold replay_step in Hr. injection Hr as <- <-. exists (Handling event), (task_step o s (Handling event)).2.
    split; [done|]. split; [apply surjective_pairing|]. apply submseteq_nil_l.
Qed.

(** A step of a task that is alive, somewhere in the system's list. *)
Lemma sim_task allowed o s s' t t' rest ts :
  t :: rest ⊆+ ts → task_step o s t = (s', t') →
  ∃ ts', sys_step allowed (s, ts) (s', ts') ∧ t' :: rest ⊆+ ts'.
Proof.
  intros Hsub Hs. apply submseteq_Permutation in Hsub as [k Hk].
  assert (t ∈ ts) as Hin by (rewrite Hk; left). apply list_elem_of_split in Hin as (l1 & l2 & ->).
  rewrite <-Permutation_middle in Hk. apply Permutation_cons_inv in Hk.
  exists (l1 ++ t' :: l2). split.
  - replace (l1 ++ t' :: l2) with (<[length l1 := t']> (l1 ++ t :: l2)).
    + apply (sys_run _ _ _ (length l1) t o); [|done]. by apply list_lookup_middle.
    + by rewrite insert_app_r_alt, Nat.sub_diag by done.
  - rewrite <-Permutation_middle, Hk. apply submseteq_skip. by apply submseteq_inserts_r.
Qed.

Definition serving_policy (policy : AutoRetention) : Prop := policy = sc_policy config.

Definition simulates sv (sys : System) : Prop := sv_shared sv = sys.1 ∧ live sv ⊆+ sys.2.

Definition follows sv sv' : Prop :=
  ∀ sys, simulates sv sys → ∃ sys', rtc (sys_step serving_policy) sys sys' ∧ simulates sv' sys'.

Lemma follows_task sv sv' t rest o s' t' k :
  live sv ≡ₚ t :: rest → task_step o (sv_shared sv) t = (s', t') →
  sv_shared sv' = s' → live sv' ≡ₚ k ++ rest → k ⊆+ [t'] → follows sv sv'.
Proof.
  intros Hl Ht Hs Hl' Hk [s ts] [Hsh Hsub]. simpl in *. subst s. rewrite Hl in Hsub.
  destruct (sim_task serving_policy o _ _ _ _ _ _ Hsub Ht) as (ts' & Hstep & Hsub').
  exists (s', ts'). split; [by apply rtc_once|]. split; [done|]. simpl. rewrite Hl'. etrans; [|exact Hsub'].
  change (t' :: rest) with ([t'] ++ rest). by apply submseteq_skips_r.
Qed.

Lemma follows_drop sv sv' : sv_shared sv' = sv_shared sv → live sv' ⊆+ live sv → follows sv sv'.
Proof. intros Hs Hl sys [Hsh Hsub]. exists sys. split; [done|]. split; [congruence|]. by etrans. Qed.

Lemma follows_start sv sv' t :
  sv_shared sv' = sv_shared sv → live sv' ≡ₚ t :: live sv →
  (∀ s ts, sys_step serving_policy (s, ts) (s, ts ++ [t])) → follows sv sv'.
Proof.
  intros Hs Hl Hstep [s ts] [Hsh Hsub]. exists (s, ts ++ [t]). split; [by apply rtc_once|].
  split; [simpl in *; congruence|]. simpl in *. rewrite Hl, <-Permutation_cons_append. by apply submseteq_skip.
Qed.

Lemma work_step_follows sv sv' : work_step config sv sv' → follows sv sv'.
Proof.
  destruct 1 as [sv i r o s' r' _ Hi Ha Hns Hr|sv i r channel r' _ Hi Hr|sv sv' _ Hr|sv o sv' _ Hr|sv o sv' _ Hr].
  - destruct (live_request _ _ _ Hi) as (rest & Hl & Hl').
    destruct (request_step_task _ _ _ _ _ Ha Hns Hr) as (t & t' & Ht & Hstep & Hk). rewrite Ht in Hl.
    by eapply follows_task; [exact Hl|exact Hstep|done|exact (Hl' r')|].
  - destruct (live_request _ _ _ Hi) as (rest & Hl & Hl'). apply follows_drop; [done|].
    unfold send_step in Hr. destruct r, (sc_dispatch config); try done. case_match; [|done]. simplify_eq/=.
    specialize (Hl' (Answered ACCEPTED)). rewrite Hl. unfold live in *. simpl in *. by rewrite Hl'.
  - unfold receive_step in Hr. destruct (sv_dispatcher sv) eqn:Hd, (sv_channel sv) as [|e c]; simplify_eq.
    apply (follows_start _ _ (Handling e)); [done| |intros; constructor].
    unfold live. simpl. rewrite Hd. simpl. solve_Permutation.
  - unfold dispatcher_step in Hr. destruct (sv_dispatcher sv) as [t|] eqn:Hd; [|done]. simpl in Hr.
    destruct (task_step o (sv_shared sv) t) as [s' t'] eqn:Ht. simplify_eq.
    destruct (live_dispatcher _ _ Hd) as (rest & Hl & Hl').
    by eapply follows_task; [exact Hl|exact Ht|done|apply Hl'|apply unfinished_task].
  - unfold sweep_step in Hr. destruct (sv_maintenance sv) as [t|] eqn:Hd; [|done]. simpl in Hr.
    destruct (task_step o (sv_shared sv) t) as [s' t'] eqn:Ht. simplify_eq.
    destruct (live_maintenance _ _ Hd) as (rest & Hl & Hl').
    by eapply follows_task; [exact Hl|exact Ht|done|apply Hl'|apply unfinished_task].
Qed.

(** A request that arrives. *)
Lemma follows_request sv r t :
  request_task r = [t] → (∀ s ts, sys_step serving_policy (s, ts) (s, ts ++ [t])) →
  follows sv (set_requests (sv_requests sv ++ [r]) sv).
Proof.
  intros Hr Hs. apply (follows_start _ _ t); [done| |done]. unfold live. simpl. rewrite bind_app. simpl. rewrite Hr.
  solve_Permutation.
Qed.

Lemma recover_step_follows o sv sv' : recover_step o sv = Some sv' → follows sv sv'.
Proof.
  unfold recover_step. intros Hr. destruct (sv_phase sv) as [pending [t|]| | |] eqn:Hp; try done.
  - assert (live sv ≡ₚ t :: live (set_phase Serving sv)) as Hl by (unfold live; by rewrite Hp).
    assert (∃ o' s' t', task_step o' (sv_shared sv) t = (s', t') ∧
      Some sv' = Some (set_shared s' (set_phase (match t' with Finished false => Stopped
        | t' => Starting pending (unfinished t') end) sv))) as (o' & s' & t' & Ht & [= ->]).
    { destruct pending; destruct (task_step o (sv_shared sv) t) as [s' t'] eqn:Ht; by exists o, s', t'. }
    eapply (follows_task _ _ t _ o' s' t' (phase_task (match t' with Finished false => Stopped
        | t' => Starting pending (unfinished t') end))); [exact Hl|exact Ht|done|done|].
    destruct t' as [| | | | | | | | | | | |[]]; simpl; done || apply submseteq_nil_l.
  - destruct pending as [|e pending]; [done|]. simplify_eq.
    apply (follows_start _ _ (Handling e)); [done| |intros; constructor].
    unfold live. rewrite Hp. simpl. done.
Qed.

Lemma server_step_follows sv sv' : server_step config sv sv' → follows sv sv'.
Proof.
  destruct 1 as [sv sv' Hw|sv e _|sv e _ _|sv i r r' _ Hi Ht|sv i r _ Hi Ha|sv now sv' _ Ht|sv Hp|sv Hp _|sv|sv s0 Hp Hre
    |sv o sv' Hr|sv Hp].
  - by apply work_step_follows.
  - unfold new_request. destruct (sc_dispatch config).
    + eapply follows_request; [done|]. constructor.
    + eapply follows_request; [done|]. constructor.
  - eapply follows_request; [done|]. intros. constructor.
  - destruct (live_request _ _ _ Hi) as (rest & Hl & Hl'). apply follows_drop; [done|].
    unfold with_request_timeout in Ht. destruct (sc_request_timeout config), (awaiting r); simplify_eq.
    rewrite Hl, Hl'. by apply submseteq_inserts_l.
  - destruct (live_request _ _ _ Hi) as (rest & Hl & Hl'). apply follows_drop; [done|].
    rewrite Hl, Hl'. by apply submseteq_inserts_l.
  - unfold tick_step in Ht. destruct (sv_maintenance sv) eqn:Hm; [done|]. case_match; [done|]. simplify_eq.
    apply (follows_start _ _ (RetentionSnapshot (sc_policy config) now)); [done| |by constructor].
    unfold live. simpl. rewrite Hm. simpl. solve_Permutation.
  - apply follows_drop; [done|]. unfold live. simpl. by rewrite Hp.
  - apply follows_drop; [done|]. apply submseteq_nil_l.
  - apply follows_drop; [done|]. apply submseteq_nil_l.
  - intros [s ts] [Hsh Hsub]. simpl in *. subst s. exists (s0, []).
    split; [apply rtc_once; by constructor|]. split; [done|]. done.
  - by eapply recover_step_follows.
  - apply follows_drop; [done|]. unfold live. simpl. by rewrite Hp.
Qed.

Lemma run_follows sv sv' : rtc (server_step config) sv sv' → follows sv sv'.
Proof.
  induction 1 as [sv|sv sv1 sv2 Hs _ IH]; [by apply follows_drop|]. intros sys Hsim.
  destruct (server_step_follows _ _ Hs _ Hsim) as (sys1 & Hr1 & Hsim1).
  destruct (IH _ Hsim1) as (sys2 & Hr2 & Hsim2). exists sys2. split; [by etrans|done].
Qed.

(** The serving process refines the interleaved tasks: whatever requests, timeouts,
    ticks, shutdowns, crashes and restarts it goes through, its store is the store
    of some run of [Concurrency], started with the process's own retention policy,
    in which all its live tasks are. *)
Lemma server_refines_tasks sv :
  rtc (server_step config) server0 sv →
  ∃ ts, rtc (sys_step serving_policy) system0 (sv_shared sv, ts) ∧ live sv ⊆+ ts.
Proof.
  intros Hr. destruct (run_follows _ _ Hr system0) as ([s ts] & Hrun & Hs & Hl); [by split|].
  simpl in *. subst s. by exists ts.
Qed.
(** ** Recovery before traffic *)

Lemma task_step_mono o s t s' t' :
  task_step o s t = (s', t') → sh_handled s ⊆ sh_handled s' ∧ (∀ e, e ∈ sh_appended s → e ∈ sh_appended s').
Proof.
  intros Ht. destruct t; simpl in Ht; unfold_steps; repeat case_match; simplify_eq/=; split; done || set_solver.
Qed.

Lemma request_step_mono o s r s' r' :
  request_step o s r = (s', r') → sh_handled s ⊆ sh_handled s' ∧ (∀ e, e ∈ sh_appended s → e ∈ sh_appended s').
Proof.
  intros Hr. destruct r as [t|t|event|event|st|]; simpl in Hr; try by simplify_eq.
  - destruct (task_step o s t) eqn:Ht. simplify_eq. by eapply task_step_mono.
  - destruct (task_step o s t) eqn:Ht. simplify_eq. by eapply task_step_mono.
  - unfold replay_step in Hr. injection Hr as <- _. eapply (task_step_mono o s (Handling event)), surjective_pairing.
Qed.

(** The steps of the work change neither the phase nor the history. *)
Lemma work_step_frame sv sv' :
  work_step config sv sv' →
  sv_phase sv' = sv_phase sv ∧ sv_old sv' = sv_old sv ∧ spawned sv = true ∧
  sh_handled (sv_shared sv) ⊆ sh_handled (sv_shared sv') ∧
  (∀ e, e ∈ sh_appended (sv_shared sv) → e ∈ sh_appended (sv_shared sv')).
Proof.
  assert (∀ sv, up sv = true → spawned sv = true) as Hup by (intros sv0; unfold up, spawned; by destruct (sv_phase sv0)).
  destruct 1 as [sv i r o s' r' Hu Hi Ha Hns Hr|sv i r channel r' Hu Hi Hr|sv sv' Hu Hr|sv o sv' Hu Hr|sv o sv' Hu Hr].
  - by apply request_step_mono in Hr as [? ?]; auto.
  - auto.
  - unfold receive_step in Hr. destruct (sv_dispatcher sv), (sv_channel sv); simplify_eq. auto.
  - unfold dispatcher_step in Hr. destruct (sv_dispatcher sv) as [t|]; [|done]. simpl in Hr.
    destruct (task_step o (sv_shared sv) t) as [s' t'] eqn:Ht. simplify_eq. apply task_step_mono in Ht as [? ?]. auto.
  - unfold sweep_step in Hr. destruct (sv_maintenance sv) as [t|]; [|done]. simpl in Hr.
    destruct (task_step o (sv_shared sv) t) as [s' t'] eqn:Ht. simplify_eq. apply task_step_mono in Ht as [? ?]. auto.
Qed.

(** What is left of the recovery covers every old event that was never handled. *)
Definition recovering sv : Prop :=
  ∀ e, e ∈ sv_old sv → ev_id e ∉ sh_handled (sv_shared sv) →
  match sv_phase sv with
  | Starting pending current => e ∈ pending ∨ current = Some (Handling e)
  | Serving | Draining => False
  | Stopped => True
  end.

Lemma recovering_frame sv sv' :
  sv_phase sv' = sv_phase sv → sv_old sv' = sv_old sv → sh_handled (sv_shared sv) ⊆ sh_handled (sv_shared sv') →
  recovering sv → recovering sv'.
Proof. intros Hp Ho Hh Hr e. rewrite Hp, Ho. intros He Hn. apply Hr; [done|]. auto. Qed.

Lemma recover_step_recovering o sv sv' : recovering sv → recover_step o sv = Some sv' → recovering sv'.
Proof.
  intros Hrec Hr. unfold recovering in Hrec. unfold recover_step in Hr.
  destruct (sv_phase sv) as [pending [t|]| | |] eqn:Hp; try done.
  - assert (∃ s' t', task_step o (sv_shared sv) t = (s', t') ∧
      sv' = set_shared s' (set_phase (match t' with Finished false => Stopped
        | t' => Starting pending (unfinished t') end) sv)) as (s' & t' & Ht & ->).
    { destruct pending; destruct (task_step o (sv_shared sv) t) as [s' t'] eqn:Ht; simplify_eq; by exists s', t'. }
    intros e He Hn. simpl in *. pose proof (task_step_mono _ _ _ _ _ Ht) as [Hmono _].
    destruct (Hrec e He) as [Hin|[= ->]]; [auto| |].
    + destruct t' as [| | | | | | | | | | | |[]]; auto.
    + simpl in Ht. unfold_steps. destruct o; simplify_eq/=; [set_solver|done..].
  - destruct pending as [|event pending]; [done|]. simplify_eq. intros e He Hn. simpl in *.
    destruct (Hrec e He Hn) as [[->|Hin]%elem_of_cons|?]; [auto..|done].
Qed.

(** Files that are not in order stay so until the next start, and after it. *)
Lemma server_step_sound sv sv' :
  server_step config sv sv' → sh_sound (sv_shared sv') = true → sh_sound (sv_shared sv) = true.
Proof.
  intros Hs. destruct (server_step_follows _ _ Hs (sv_shared sv, live sv)) as (sys' & Hr & Hsh & _); [by split|].
  rewrite Hsh. clear Hs Hsh.
  cut (sh_sound sys'.1 = true → sh_sound (sv_shared sv, live sv).1 = true); [done|].
  induction Hr as [|sys1 sys2 sys3 Hs _ IH]; [done|]. intros Hsound. by eapply sys_step_sound, IH.
Qed.

Lemma reachable_sys_ok sv :
  grace_only (sc_policy config) → rtc (server_step config) server0 sv → sh_sound (sv_shared sv) = true →
  ∃ ts, sys_ok (sv_shared sv, ts) ∧ live sv ⊆+ ts.
Proof.
  intros Hg Hr Hsound. destruct (server_refines_tasks sv Hr) as (ts & Hrun & Hl). exists ts. split; [|done].
  eapply reachable_ok; [|exact Hrun|done]. by intros ? ->.
Qed.

(** What is owed is in the log, unmarked, in memory and for the next start. *)
Lemma owed_is_stored sv e :
  grace_only (sc_policy config) → rtc (server_step config) server0 sv → sh_sound (sv_shared sv) = true →
  e ∈ sh_appended (sv_shared sv) → ev_id e ∉ sh_handled (sv_shared sv) →
  e ∈ log_undelivered (log_of (sv_shared sv)) ∧
  ∀ s, reopened (sv_shared sv) s → e ∈ log_undelivered (log_of s).
Proof.
  intros Hg Hr Hsound He Hn. destruct (reachable_sys_ok sv Hg Hr Hsound) as (ts & [Hj Hd Hk _] & _). simpl in *.
  destruct (Hk e He) as [Hin|]; [|done]. split.
  - apply list_elem_of_filter. split; [|done]. by intros ?%Hd.
  - unfold reopened. rewrite Hsound. intros s ->. apply list_elem_of_filter. split; [|done].
    simpl. intros Hin'%elem_of_list_to_set. auto.
Qed.

Lemma server_step_recovering sv sv' :
  grace_only (sc_policy config) → rtc (server_step config) server0 sv → server_step config sv sv' →
  sh_sound (sv_shared sv') = true → recovering sv → recovering sv'.
Proof.
  intros Hg Hreach Hs Hsound Hrec. pose proof (server_step_sound _ _ Hs Hsound) as Hsound0. revert Hreach Hrec Hsound0. clear Hsound.
  destruct Hs as [sv sv' Hw|sv e _|sv e _ _|sv i r r' _ Hi Ht|sv i r _ Hi Ha|sv now sv' _ Ht|sv Hp|sv Hp _|sv|sv s0 Hp Hre
    |sv o sv' Hr|sv Hp]; intros Hreach Hrec Hsound; try by eapply recovering_frame; [| | |exact Hrec].
  - apply work_step_frame in Hw as (? & ? & _ & ? & _). by eapply recovering_frame.
  - unfold tick_step in Ht. destruct (sv_maintenance sv); [done|]. case_match; [done|]. simplify_eq.
    by eapply recovering_frame; [| | |exact Hrec].
  - intros e He Hn. unfold recovering in Hrec. rewrite Hp in Hrec. by destruct (Hrec e He Hn).
  - done.
  - done.
  - pose proof Hre as Hre'. unfold reopened in Hre'. rewrite Hsound in Hre'. subst s0. intros e He Hn. simpl in *. left.
    by destruct (owed_is_stored sv e Hg Hreach Hsound He Hn) as [_ Hin]; apply (Hin _ Hre).
  - by eapply recover_step_recovering.
  - intros e He Hn. simpl in *. unfold recovering in Hrec. rewrite Hp in Hrec. destruct (Hrec e He Hn) as [?%not_elem_of_nil|]; done.
Qed.

Lemma reachable_recovering sv :
  grace_only (sc_policy config) → rtc (server_step config) server0 sv → sh_sound (sv_shared sv) = true → recovering sv.
Proof.
  intros Hg. apply (rtc_ind_r (λ sv, sh_sound (sv_shared sv) = true → recovering sv)); [by intros _ e ?%not_elem_of_nil|].
  intros sv1 sv2 Hr Hs IH Hsound. eapply server_step_recovering; [done..|]. by eapply IH, server_step_sound.
Qed.

(** C12: the listener opens only when nothing is owed. Through any runs, crashes and
    restarts of the process, with retention that only lets delivered events expire
    (the default also has a hard bound of 1,000,000 events, which may drop any), and
    as long as no call on the store's files failed in a way that left them out of
    order: while it serves or drains, every event whose append had been acknowledged
    when the process started has been handled; and every event acknowledged since
    that has not is in the log, unmarked, for the next start. *)
Theorem listening_owes_nothing sv e :
  grace_only (sc_policy config) → rtc (server_step config) server0 sv → sh_sound (sv_shared sv) = true → up sv = true →
  (e ∈ sv_old sv → ev_id e ∈ sh_handled (sv_shared sv)) ∧
  (e ∈ sh_appended (sv_shared sv) → ev_id e ∉ sh_handled (sv_shared sv) →
   ∀ s, reopened (sv_shared sv) s → e ∈ log_undelivered (log_of s)).
Proof.
  intros Hg Hr Hsound Hup. split.
  - intros He. destruct (decide (ev_id e ∈ sh_handled (sv_shared sv))) as [|Hn]; [done|].
    pose proof (reachable_recovering _ Hg Hr Hsound e He Hn) as Hrec. unfold up in Hup. by destruct (sv_phase sv).
  - intros He Hn. by apply owed_is_stored.
Qed.
End spec.
