(* ===== verification/ServerDrain.v ===== *)
(** * Backpressure, draining and timeouts of the serving process

    The channel holds at most its capacity, and only what is already in the store;
    the work a process has is finite, so a drain ends, with every request answered;
    a request that was dropped while it handled its event leaves the event for the
    next start, whatever its client retries. *)

From stdpp Require Import base gmap strings list relations.
From Stdlib Require Import ZArith Lia.
From S2P Require Import Prelude RustStd Event Retention Store FileStore Runtime Ingest Http Cli Concurrency Server ServerSpec.
Local Open Scope Z_scope.

Section drain.
Context `{Serialize EventEnvelope} `{HashSetIter}.
Context (config : ServeConfig).
Implicit Types (sv : Server) (s : Shared).

(** ** What is in flight *)

Definition request_ok s (r : Request) : Prop :=
  match r with
  | SyncRequest (Handling event) => event ∈ sh_appended s
  | AsyncRequest _ => is_Some (sc_dispatch config)
  | Sending event => is_Some (sc_dispatch config) ∧ event ∈ sh_appended s
  | _ => True
  end.

Definition dispatcher_ok s (t : Task) : Prop :=
  match t with Handling event => event ∈ sh_appended s | _ => True end.

Record flight_ok sv : Prop := mk_flight_ok {
  fl_requests r : r ∈ sv_requests sv → request_ok (sv_shared sv) r;
  fl_channel event : event ∈ sv_channel sv → event ∈ sh_appended (sv_shared sv);
  fl_dispatcher t : sv_dispatcher sv = Some t → dispatcher_ok (sv_shared sv) t;
  fl_bound : len (sv_channel sv) <= default 0 (sc_dispatch config);
}.

Lemma request_ok_mono s s' r :
  (∀ e, e ∈ sh_appended s → e ∈ sh_appended s') → request_ok s r → request_ok s' r.
Proof. intros Hs. destruct r as [[]| | | | |]; simpl; naive_solver. Qed.

Lemma dispatcher_ok_mono s s' t :
  (∀ e, e ∈ sh_appended s → e ∈ sh_appended s') → dispatcher_ok s t → dispatcher_ok s' t.
Proof. intros Hs. destruct t; simpl; naive_solver. Qed.

(** The store moves on; the requests, the channel and the dispatcher stay. *)
Lemma flight_ok_shared s sv :
  (∀ e, e ∈ sh_appended (sv_shared sv) → e ∈ sh_appended s) → flight_ok sv → flight_ok (set_shared s sv).
Proof.
  intros Hs [Hr Hc Hd Hb]. constructor; simpl; [|auto| |done].
  - intros r Hin. eapply request_ok_mono; eauto.
  - intros t Ht. eapply dispatcher_ok_mono; eauto.
Qed.

Lemma flight_ok_request sv i r r' :
  sv_requests sv !! i = Some r → request_ok (sv_shared sv) r' → flight_ok sv →
  flight_ok (set_requests (<[i := r']> (sv_requests sv)) sv).
Proof.
  intros Hi Hr' [Hr Hc Hd Hb]. constructor; simpl; [|done..].
  intros r2 [j Hj]%list_elem_of_lookup. apply list_lookup_insert_Some in Hj as [(_ & <- & _)|[_ Hj]]; [done|].
  apply Hr. by eapply list_elem_of_lookup_2.
Qed.

Lemma request_step_ok o s r s' r' :
  request_ok s r → request_step o s r = (s', r') → request_ok s' r'.
Proof.
  intros Hok Hr. destruct r as [t|t|event|event|st|]; simpl in Hr; try by simplify_eq.
  - destruct (task_step o s t) as [s1 t'] eqn:Ht. simplify_eq.
    destruct t; simpl in Ht; unfold_steps; repeat case_match; simplify_eq/=; try done; [apply elem_of_app; right; left|by case_match].
  - destruct (task_step o s t) as [s1 t'] eqn:Ht. simplify_eq. simpl in Hok.
    destruct t, t' as [| | | | | | | | | | | |[]]; simpl; try done.
    simpl in Ht. unfold_steps. destruct o; simplify_eq. split; [done|]. set_solver.
  - unfold replay_step in Hr. by simplify_eq.
Qed.

(** The dispatcher only ever handles what it received. *)
Lemma dispatcher_task_ok o s t s' t' :
  dispatcher_ok s t → task_step o s t = (s', t') →
  (match t with IngestAppend _ | IngestCheck _ => False | _ => True end) → dispatcher_ok s' t'.
Proof.
  intros Hd Ht Hn. destruct t; simpl in Ht; unfold_steps; repeat case_match; by simplify_eq/=.
Qed.

(** The tasks the dispatcher goes through. *)
Definition dispatch_task (t : Task) : Prop :=
  match t with Handling _ | MarkCheck _ | MarkJournal _ | MarkSet _ => True | _ => False end.

Definition dispatching sv : Prop := ∀ t, sv_dispatcher sv = Some t → dispatch_task t.

Lemma dispatch_task_step o s t s' t' :
  dispatch_task t → task_step o s t = (s', t') → unfinished t' = None ∨ dispatch_task t'.
Proof.
  intros Hd Ht. destruct t; simpl in *; try done; unfold_steps; repeat case_match; simplify_eq/=; auto.
Qed.

Lemma unfinished_Some t t' : unfinished t = Some t' → t = t'.
Proof. destruct t; simpl; congruence. Qed.

Lemma work_step_flight sv sv' :
  work_step config sv sv' → dispatching sv → flight_ok sv → flight_ok sv' ∧ dispatching sv'.
Proof.
  intros Hw Hdis Hfl. revert Hdis Hfl.
  destruct Hw as [sv i r o s' r' _ Hi Ha Hns Hr|sv i r channel r' _ Hi Hr|sv sv' _ Hr|sv o sv' _ Hr|sv o sv' _ Hr];
    intros Hdis Hfl.
  - split; [|done]. pose proof (request_step_mono _ _ _ _ _ Hr) as [_ Hmono].
    apply (flight_ok_request (set_shared s' sv) i r); [done| |by apply flight_ok_shared].
    eapply request_step_ok; [|exact Hr]. apply (fl_requests _ Hfl). by eapply list_elem_of_lookup_2.
  - split; [|done]. unfold send_step in Hr. destruct r as [| |event| | |]; try done.
    destruct (sc_dispatch config) as [cap|] eqn:Hcap; [|done]. destruct (Z.ltb_spec (len (sv_channel sv)) cap); [|done].
    simplify_eq. pose proof (flight_ok_request _ _ _ (Answered ACCEPTED) Hi I Hfl) as [Hr' Hc' Hd' _].
    pose proof (fl_requests _ Hfl (Sending event)) as Hse. destruct Hse as [_ Hse]; [by eapply list_elem_of_lookup_2|].
    constructor; simpl in *; [done| |done|].
    + intros e [?| ->%list_elem_of_singleton]%elem_of_app; auto.
    + rewrite Hcap. simpl. unfold len in *. rewrite length_app. simpl. lia.
  - unfold receive_step in Hr. destruct (sv_dispatcher sv), (sv_channel sv) as [|e c] eqn:Hch; simplify_eq.
    destruct Hfl as [Hrq Hc Hd Hb]. rewrite Hch in *. split.
    + constructor; simpl; [done| | |].
      * intros e' ?. apply Hc. by right.
      * intros t [= <-]. simpl. apply Hc. left.
      * unfold len in *. simpl in *. lia.
    + by intros t [= <-].
  - unfold dispatcher_step in Hr. destruct (sv_dispatcher sv) as [t|] eqn:Hd; [|done]. simpl in Hr.
    destruct (task_step o (sv_shared sv) t) as [s' t'] eqn:Ht. simplify_eq.
    pose proof (Hdis _ Hd) as Hdt. pose proof (task_step_mono _ _ _ _ _ Ht) as [_ Hmono].
    pose proof (flight_ok_shared _ _ Hmono Hfl) as [Hrq Hc _ Hb]. split.
    + constructor; simpl in *; [done..| |done]. intros t2 <-%unfinished_Some.
      eapply dispatcher_task_ok; [by apply (fl_dispatcher _ Hfl)|exact Ht|by destruct t].
    + intros t2 Ht2. simpl in Ht2. destruct (dispatch_task_step _ _ _ _ _ Hdt Ht) as [|Hdt']; [congruence|].
      by apply unfinished_Some in Ht2 as <-.
  - unfold sweep_step in Hr. destruct (sv_maintenance sv) as [t|] eqn:Hd; [|done]. simpl in Hr.
    destruct (task_step o (sv_shared sv) t) as [s' t'] eqn:Ht. simplify_eq.
    pose proof (task_step_mono _ _ _ _ _ Ht) as [_ Hmono].
    split; [|done]. pose proof (flight_ok_shared _ _ Hmono Hfl) as []. by constructor.
Qed.

(** A process that is not there has nothing in flight. *)
Lemma flight_ok_empty sv :
  0 <= default 0 (sc_dispatch config) → sv_requests sv = [] → sv_channel sv = [] → sv_dispatcher sv = None →
  flight_ok sv ∧ dispatching sv.
Proof.
  intros Hcap Hr Hc Hd. split.
  - constructor; rewrite ?Hr, ?Hc, ?Hd; [by intros ? ?%not_elem_of_nil..|done|done].
  - intros t. by rewrite Hd.
Qed.

Lemma flight_ok_new sv r :
  request_ok (sv_shared sv) r → flight_ok sv → flight_ok (set_requests (sv_requests sv ++ [r]) sv).
Proof.
  intros Hr [Hrq Hc Hd Hb]. constructor; simpl; [|done..].
  intros r2 [?| ->%list_elem_of_singleton]%elem_of_app; auto.
Qed.

Lemma server_step_flight sv sv' :
  0 <= default 0 (sc_dispatch config) → server_step config sv sv' → flight_ok sv ∧ dispatching sv →
  flight_ok sv' ∧ dispatching sv'.
Proof.
  intros Hcap Hs [Hfl Hdis]. revert Hfl Hdis.
  destruct Hs as [sv sv' Hw|sv e _|sv e _ _|sv i r r' _ Hi Ht|sv i r _ Hi Ha|sv now sv' _ Ht|sv Hp|sv Hp _|sv|sv s0 Hp Hre
    |sv o sv' Hr|sv Hp]; intros Hfl Hdis.
  - by eapply work_step_flight.
  - split; [|done]. apply flight_ok_new; [|done]. unfold new_request.
    destruct (sc_dispatch config) eqn:Hd; simpl; [by rewrite Hd|done].
  - split; [|done]. by apply flight_ok_new.
  - split; [|done]. eapply flight_ok_request; [exact Hi| |done].
    unfold with_request_timeout in Ht. destruct (sc_request_timeout config), (awaiting r); by simplify_eq.
  - split; [|done]. by eapply flight_ok_request.
  - unfold tick_step in Ht. destruct (sv_maintenance sv); [done|]. case_match; [done|]. simplify_eq.
    split; [|done]. destruct Hfl. by constructor.
  - split; [|done]. destruct Hfl. by constructor.
  - by apply flight_ok_empty.
  - by apply flight_ok_empty.
  - by apply flight_ok_empty.
  - unfold recover_step in Hr.
    assert (∃ s p, sv' = set_shared s (set_phase p sv) ∧ ∀ e, e ∈ sh_appended (sv_shared sv) → e ∈ sh_appended s)
      as (s & p & -> & Hmono).
    { destruct (sv_phase sv) as [[|e pending] [t|]| | |]; try done;
        [| |simplify_eq; by exists (sv_shared sv), (Starting pending (Some (Handling e))); destruct sv];
        destruct (task_step o (sv_shared sv) t) as [s' t'] eqn:Ht; simplify_eq;
        apply task_step_mono in Ht as [_ ?]; eauto. }
    pose proof (flight_ok_shared _ _ Hmono Hfl) as []. by split; [constructor|].
  - split; [|done]. destruct Hfl. by constructor.
Qed.

Lemma reachable_flight sv :
  0 <= default 0 (sc_dispatch config) → rtc (server_step config) server0 sv → flight_ok sv ∧ dispatching sv.
Proof.
  intros Hcap. apply (rtc_ind_r (λ sv, flight_ok sv ∧ dispatching sv)); [by apply flight_ok_empty|].
  intros sv1 sv2 _ Hs. by apply server_step_flight.
Qed.

(** C34: backpressure, and no reliance on it: the channel never holds more than its
    capacity, so a process holds at most that many accepted events and the one being
    dispatched beyond the requests that wait; and, with retention that only lets
    delivered events expire and as long as no call on the store's files failed in a
    way that left them out of order, whatever is in the channel, being sent or being
    dispatched is already in the store: handled, or, should the process end there,
    undelivered in the log the next start recovers. *)
Theorem in_flight_is_bounded_and_durable sv e :
  0 <= default 0 (sc_dispatch config) → rtc (server_step config) server0 sv →
  len (sv_channel sv) <= default 0 (sc_dispatch config) ∧
  (grace_only (sc_policy config) → sh_sound (sv_shared sv) = true →
   e ∈ sv_channel sv ∨ Sending e ∈ sv_requests sv ∨ sv_dispatcher sv = Some (Handling e) →
   ev_id e ∈ sh_handled (sv_shared sv) ∨
   ∀ s, reopened (sv_shared (stop sv)) s → e ∈ log_undelivered (log_of s)).
Proof.
  intros Hcap Hr. destruct (reachable_flight sv Hcap Hr) as [[Hrq Hc Hd Hb] _]. split; [done|].
  intros Hg Hsound Hin. assert (e ∈ sh_appended (sv_shared sv)) as Happ.
  { destruct Hin as [|[Hin|Hin]]; [auto|by apply (Hrq _ Hin)|by apply (Hd _ Hin)]. }
  destruct (decide (ev_id e ∈ sh_handled (sv_shared sv))) as [|Hn]; [by left|right].
  by destruct (owed_is_stored config sv e Hg Hr Hsound Happ Hn).
Qed.

(** ** Draining *)

(** How many steps a task, a request, a process have left at most. *)
Definition task_work (t : Task) : nat :=
  match t with
  | IngestCheck _ => 6
  | IngestAppend _ => 5
  | Handling _ | RetentionSnapshot _ _ => 4
  | MarkCheck _ | RetentionRetain _ _ _ => 3
  | MarkJournal _ | RetentionJournal _ | AcceptCheck _ => 2
  | MarkSet _ | RetentionSet _ | AcceptAppend _ => 1
  | Finished _ => 0
  end.

Definition request_work (r : Request) : nat :=
  match r with
  | SyncRequest t => 1 + task_work t
  | AsyncRequest t => 7 + task_work t
  | Sending _ => 7
  | Replaying _ => 1
  | Answered _ | Disconnected => 0
  end.

Definition loop_work (t : option Task) : nat := match t with Some t => 1 + task_work t | None => 0 end.

Definition work sv : nat :=
  sum_list_with request_work (sv_requests sv) + 6 * length (sv_channel sv) +
  loop_work (sv_dispatcher sv) + loop_work (sv_maintenance sv).

Lemma task_work_step o s t s' t' :
  task_step o s t = (s', t') → (task_work t' ≤ task_work t - 1)%nat.
Proof. intros Ht. destruct t; simpl in Ht; unfold_steps; repeat case_match; simplify_eq/=; lia. Qed.

Lemma loop_work_step o s t s' t' :
  task_step o s t = (s', t') → (loop_work (unfinished t') < loop_work (Some t))%nat.
Proof. intros Ht%task_work_step. destruct t'; simpl in *; lia. Qed.

Lemma request_work_step o s r s' r' :
  answered r = false → (∀ event, r ≠ Sending event) → request_step o s r = (s', r') →
  (request_work r' < request_work r)%nat.
Proof.
  intros Ha Hns Hr. destruct r as [t|t|event|event|st|]; try done; simpl in Hr.
  - destruct (task_step o s t) as [s1 t'] eqn:Ht. simplify_eq. apply task_work_step in Ht.
    destruct t' as [| | | | | | | | | | | |[]]; simpl in *; lia.
  - destruct (task_step o s t) as [s1 t'] eqn:Ht. simplify_eq. pose proof (task_work_step _ _ _ _ _ Ht).
    destruct t, t' as [| | | | | | | | | | | |[]]; simpl in *; lia.
  - by destruct (Hns event).
  - unfold replay_step in Hr. simplify_eq. destruct o; simpl; lia.
Qed.

Lemma sum_insert {A} (f : A → nat) (l : list A) i x y :
  l !! i = Some x → (sum_list_with f (<[i := y]> l) + f x = sum_list_with f l + f y)%nat.
Proof.
  revert i. induction l as [|a l IH]; intros [|i] Hi; simplify_eq/=; [lia|]. specialize (IH _ Hi). lia.
Qed.

Lemma work_decreases sv sv' : work_step config sv sv' → (work sv' < work sv)%nat.
Proof.
  destruct 1 as [sv i r o s' r' _ Hi Ha Hns Hr|sv i r channel r' _ Hi Hr|sv sv' _ Hr|sv o sv' _ Hr|sv o sv' _ Hr];
    unfold work; simpl.
  - apply request_work_step in Hr; [|done..]. pose proof (sum_insert request_work _ _ _ r' Hi). lia.
  - pose proof (sum_insert request_work _ _ _ r' Hi). unfold send_step in Hr. destruct r, (sc_dispatch config); try done.
    case_match; [|done]. simplify_eq/=. rewrite length_app. simpl. lia.
  - unfold receive_step in Hr. destruct (sv_dispatcher sv), (sv_channel sv); simplify_eq/=. lia.
  - unfold dispatcher_step in Hr. destruct (sv_dispatcher sv) as [t|]; [|done]. simpl in Hr.
    destruct (task_step o (sv_shared sv) t) as [s' t'] eqn:Ht. simplify_eq. apply loop_work_step in Ht. simpl in *. lia.
  - unfold sweep_step in Hr. destruct (sv_maintenance sv) as [t|]; [|done]. simpl in Hr.
    destruct (task_step o (sv_shared sv) t) as [s' t'] eqn:Ht. simplify_eq. apply loop_work_step in Ht. simpl in *. lia.
Qed.

(** A process with work left can do some of it. *)
Lemma work_can_step sv :
  (∀ capacity, sc_dispatch config = Some capacity → 0 < capacity) → flight_ok sv → up sv = true →
  nf (work_step config) sv →
  Forall (λ r, answered r = true) (sv_requests sv) ∧ sv_channel sv = [] ∧ sv_dispatcher sv = None ∧
  sv_maintenance sv = None.
Proof.
  intros Hcap Hfl Hup Hnf. assert (spawned sv = true) as Hsp by (unfold up, spawned in *; by destruct (sv_phase sv)).
  assert (sv_dispatcher sv = None) as Hd.
  { destruct (sv_dispatcher sv) as [t|] eqn:Hd; [|done]. exfalso. apply Hnf.
    destruct (task_step Done (sv_shared sv) t) as [s' t'] eqn:Ht. eexists.
    eapply (work_dispatch _ _ Done); [done|]. unfold dispatcher_step. rewrite Hd. simpl. by rewrite Ht. }
  assert (sv_maintenance sv = None) as Hm.
  { destruct (sv_maintenance sv) as [t|] eqn:Hm; [|done]. exfalso. apply Hnf.
    destruct (task_step Done (sv_shared sv) t) as [s' t'] eqn:Ht. eexists.
    eapply (work_sweep _ _ Done); [done|]. unfold sweep_step. rewrite Hm. simpl. by rewrite Ht. }
  assert (sv_channel sv = []) as Hc.
  { destruct (sv_channel sv) as [|e c] eqn:Hc; [done|]. exfalso. apply Hnf. eexists. apply work_receive; [done|].
    unfold receive_step. by rewrite Hd, Hc. }
  split; [|done]. apply Forall_forall. intros r [i Hi]%list_elem_of_lookup.
  destruct (answered r) eqn:Ha; [done|]. exfalso. apply Hnf.
  assert ((∃ event, r = Sending event) ∨ ∀ event, r ≠ Sending event) as [[e ->]|Hns]
    by (destruct r; eauto || by right).
  - destruct (fl_requests _ Hfl (Sending e)) as [[cap Hdc] _]; [by eapply list_elem_of_lookup_2|].
    eexists. eapply (work_send _ _ i); [done|exact Hi|]. unfold send_step. rewrite Hdc, Hc.
    rewrite (proj2 (Z.ltb_lt _ _)); [done|]. by apply Hcap.
  - destruct (request_step Done (sv_shared sv) r) as [s' r'] eqn:Hr. eexists.
    eapply (work_request _ _ i r Done); [done|exact Hi|done|exact Hns|exact Hr].
Qed.

(** C13: draining ends. However the work of a running process is scheduled, and
    whatever fails, it takes at most [work] steps, one more lock section each; and
    when no step is left every request is answered, the channel is empty and the
    dispatcher and the sweep are idle, so a draining process can end. No request is
    stuck on a full channel. *)
Theorem drain_ends sv :
  (∀ capacity, sc_dispatch config = Some capacity → 0 < capacity) →
  rtc (server_step config) server0 sv → up sv = true →
  (∀ n sv', nsteps (work_step config) n sv sv' → (n ≤ work sv)%nat) ∧
  (∀ sv', rtc (work_step config) sv sv' → nf (work_step config) sv' →
     Forall (λ r, answered r = true) (sv_requests sv') ∧ sv_channel sv' = [] ∧ sv_dispatcher sv' = None ∧
     sv_maintenance sv' = None).
Proof.
  intros Hcap Hr Hup. split.
  - intros n sv' Hn. clear Hr Hup. induction Hn as [sv|n sv sv1 sv2 Hs _ IH]; [lia|].
    apply work_decreases in Hs. lia.
  - intros sv' Hw Hnf. assert (0 <= default 0 (sc_dispatch config)) as Hcap0.
    { destruct (sc_dispatch config) as [c|] eqn:Hc; simpl; [|done]. specialize (Hcap c eq_refl). lia. }
    assert (rtc (server_step config) server0 sv' ∧ up sv' = true) as [Hr' Hup'].
    { clear Hnf. induction Hw as [sv|sv sv1 sv2 Hs _ IH]; [done|]. apply IH.
      - eapply rtc_r; [exact Hr|]. by constructor.
      - apply work_step_frame in Hs as (Hp & _). unfold up in *. by rewrite Hp. }
    apply work_can_step; [done| |done..]. by apply reachable_flight.
Qed.
(** ** Requests that are dropped *)

(** A task that would handle the event [id]. *)
Definition touches (id : EventId) (t : Task) : Prop :=
  match t with IngestCheck e | IngestAppend e | Handling e => ev_id e = id | _ => False end.

(** So would a request, once it is through. *)
Definition request_touches (id : EventId) (r : Request) : Prop :=
  match r with
  | SyncRequest t => touches id t
  | AsyncRequest (AcceptCheck e) | AsyncRequest (AcceptAppend e) | Sending e | Replaying e => ev_id e = id
  | AsyncRequest t => touches id t
  | Answered _ | Disconnected => False
  end.

(** A running process, or none, in which nothing will handle [e], which is stored
    and was not handled. *)
Record abandoned (e : EventEnvelope) sv : Prop := mk_abandoned {
  ab_stored : e ∈ sh_appended (sv_shared sv);
  ab_unhandled : ev_id e ∉ sh_handled (sv_shared sv);
  ab_phase : match sv_phase sv with Starting (_ :: _) _ | Starting _ (Some _) => False | _ => True end;
  ab_requests r : r ∈ sv_requests sv → ¬ request_touches (ev_id e) r;
  ab_channel e' : e' ∈ sv_channel sv → ev_id e' ≠ ev_id e;
  ab_dispatcher t : sv_dispatcher sv = Some t → ¬ touches (ev_id e) t;
  ab_maintenance t : sv_maintenance sv = Some t → ¬ touches (ev_id e) t;
}.

(** No restart, no request and no replay that carries the event [id]. *)
Definition undisturbed (id : EventId) sv sv' : Prop :=
  server_step config sv sv' ∧ sv_phase sv ≠ Stopped ∧
  ∀ r, sv' = set_requests (sv_requests sv ++ [r]) sv → ¬ request_touches id r.

Lemma touches_step o s t s' t' id :
  task_step o s t = (s', t') → ¬ touches id t →
  ¬ touches id t' ∧ (id ∈ sh_handled s' → id ∈ sh_handled s).
Proof.
  intros Ht Hn. destruct t; simpl in *; unfold_steps; repeat case_match; simplify_eq/=; split; try done; set_solver.
Qed.

Lemma request_touches_step o s r s' r' id :
  request_step o s r = (s', r') → ¬ request_touches id r →
  ¬ request_touches id r' ∧ (id ∈ sh_handled s' → id ∈ sh_handled s).
Proof.
  intros Hr Hn. destruct r as [t|t|event|event|st|]; simpl in Hr; try by simplify_eq.
  - destruct (task_step o s t) as [s1 t'] eqn:Ht. simplify_eq. destruct (touches_step _ _ _ _ _ _ Ht Hn) as [Hn' Hh].
    split; [|done]. by destruct t' as [| | | | | | | | | | | |[]].
  - destruct (task_step o s t) as [s1 t'] eqn:Ht. simplify_eq.
    assert (¬ touches id t) as Hnt by (destruct t; simpl in *; tauto). destruct (touches_step _ _ _ _ _ _ Ht Hnt) as [Hn' Hh].
    split; [|done]. destruct t; simpl in Ht; unfold_steps; repeat case_match; simplify_eq/=; try tauto. by destruct acknowledged.
  - unfold replay_step in Hr. simplify_eq. simpl in Hn. split; [by intros []|].
    eapply (touches_step o s (Handling event)); [apply surjective_pairing|done].
Qed.

Lemma abandoned_requests e sv rs s :
  abandoned e sv → (∀ x, x ∈ sh_appended (sv_shared sv) → x ∈ sh_appended s) →
  (ev_id e ∈ sh_handled s → ev_id e ∈ sh_handled (sv_shared sv)) →
  (∀ r, r ∈ rs → ¬ request_touches (ev_id e) r) → abandoned e (set_shared s (set_requests rs sv)).
Proof. intros [] Hs Hh Hr. by constructor; simpl; auto. Qed.

Lemma elem_of_insert {A} (l : list A) i x y : y ∈ <[i := x]> l → y = x ∨ y ∈ l.
Proof.
  intros [j Hj]%list_elem_of_lookup. apply list_lookup_insert_Some in Hj as [(_ & <- & _)|[_ Hj]]; [by left|right].
  by eapply list_elem_of_lookup_2.
Qed.

Lemma work_step_abandoned e sv sv' : work_step config sv sv' → abandoned e sv → abandoned e sv'.
Proof.
  intros Hw Hab. revert Hab.
  destruct Hw as [sv i r o s' r' _ Hi Ha Hns Hr|sv i r channel r' _ Hi Hr|sv sv' _ Hr|sv o sv' _ Hr|sv o sv' _ Hr];
    intros Hab.
  - assert (r ∈ sv_requests sv) as Hin by (by eapply list_elem_of_lookup_2).
    destruct (request_touches_step _ _ _ _ _ (ev_id e) Hr (ab_requests _ _ Hab _ Hin)) as [Hn Hh].
    apply request_step_mono in Hr as [_ Hmono]. apply abandoned_requests; [done..|].
    intros r2 [->|?]%elem_of_insert; [done|]. by apply Hab.
  - assert (r ∈ sv_requests sv) as Hin by (by eapply list_elem_of_lookup_2). pose proof (ab_requests _ _ Hab _ Hin) as Hn.
    unfold send_step in Hr. destruct r as [| |event| | |], (sc_dispatch config); try done. case_match; [|done]. simplify_eq.
    destruct Hab. constructor; simpl; try done.
    + intros r2 [->|?]%elem_of_insert; [by intros []|]. auto.
    + intros e' [?| ->%list_elem_of_singleton]%elem_of_app; auto.
  - unfold receive_step in Hr. destruct (sv_dispatcher sv), (sv_channel sv) as [|e1 c] eqn:Hc; simplify_eq.
    destruct Hab as [? ? ? ? Hch ? ?]. rewrite Hc in Hch. constructor; simpl; try done.
    + intros e' ?. apply Hch. by right.
    + intros t [= <-]. simpl. apply Hch. left.
  - unfold dispatcher_step in Hr. destruct (sv_dispatcher sv) as [t|] eqn:Hd; [|done]. simpl in Hr.
    destruct (task_step o (sv_shared sv) t) as [s' t'] eqn:Ht. simplify_eq.
    destruct (touches_step _ _ _ _ _ _ Ht (ab_dispatcher _ _ Hab _ Hd)) as [Hn Hh].
    apply task_step_mono in Ht as [_ Hmono]. destruct Hab. constructor; simpl; auto. by intros t2 <-%unfinished_Some.
  - unfold sweep_step in Hr. destruct (sv_maintenance sv) as [t|] eqn:Hd; [|done]. simpl in Hr.
    destruct (task_step o (sv_shared sv) t) as [s' t'] eqn:Ht. simplify_eq.
    destruct (touches_step _ _ _ _ _ _ Ht (ab_maintenance _ _ Hab _ Hd)) as [Hn Hh].
    apply task_step_mono in Ht as [_ Hmono]. destruct Hab. constructor; simpl; auto. by intros t2 <-%unfinished_Some.
Qed.

Lemma undisturbed_abandoned e sv sv' : undisturbed (ev_id e) sv sv' → abandoned e sv → abandoned e sv'.
Proof.
  intros (Hs & Hns & Hnew) Hab. revert Hns Hnew Hab.
  destruct Hs as [sv sv' Hw|sv e1 _|sv e1 _ _|sv i r r' _ Hi Ht|sv i r _ Hi Ha|sv now sv' _ Ht|sv Hp|sv Hp _|sv|sv s0 Hp Hre
    |sv o sv' Hr|sv Hp]; intros Hns Hnew Hab; try done.
  - by eapply work_step_abandoned.
  - apply (abandoned_requests _ _ _ (sv_shared sv)); [done..|].
    intros r [?| ->%list_elem_of_singleton]%elem_of_app; [by apply Hab|]. by apply Hnew.
  - apply (abandoned_requests _ _ _ (sv_shared sv)); [done..|].
    intros r [?| ->%list_elem_of_singleton]%elem_of_app; [by apply Hab|]. by apply Hnew.
  - apply (abandoned_requests _ _ _ (sv_shared sv)); [done..|]. intros r2 [->|?]%elem_of_insert; [|by apply Hab].
    unfold with_request_timeout in Ht. destruct (sc_request_timeout config), (awaiting r); simplify_eq; by intros [].
  - apply (abandoned_requests _ _ _ (sv_shared sv)); [done..|]. intros r2 [->|?]%elem_of_insert; [by intros []|by apply Hab].
  - unfold tick_step in Ht. destruct (sv_maintenance sv); [done|]. case_match; [done|]. simplify_eq.
    destruct Hab. constructor; try done. intros t [= <-]. by intros [].
  - destruct Hab. by constructor.
  - destruct Hab. constructor; simpl; try done; by intros ? ?%not_elem_of_nil.
  - destruct Hab. constructor; simpl; try done; by intros ? ?%not_elem_of_nil.
  - pose proof (ab_phase _ _ Hab) as Hph. unfold recover_step in Hr. by destruct (sv_phase sv) as [[] []| | |].
  - destruct Hab. by constructor.
Qed.

(** *** The request that was dropped *)

(** A request that awaits the handling of a stored event, or its dispatch. *)
Definition holds_up (e : EventEnvelope) (r : Request) : Prop := r = SyncRequest (Handling e) ∨ r = Sending e.

(** Nothing in the process but the request [i] carries the event [id]. *)
Record alone (id : EventId) (i : nat) sv : Prop := mk_alone {
  al_requests j r : j ≠ i → sv_requests sv !! j = Some r → ¬ request_touches id r;
  al_channel e : e ∈ sv_channel sv → ev_id e ≠ id;
  al_dispatcher t : sv_dispatcher sv = Some t → ¬ touches id t;
}.

(** The maintenance task only sweeps. *)
Definition sweep_task (t : Task) : Prop :=
  match t with
  | RetentionSnapshot _ _ | RetentionRetain _ _ _ | RetentionJournal _ | RetentionSet _ | Finished _ => True
  | _ => False
  end.

Lemma sweep_task_step o s t s' t' : sweep_task t → task_step o s t = (s', t') → sweep_task t'.
Proof. intros Hs Ht. destruct t; simpl in *; try done; unfold_steps; repeat case_match; by simplify_eq/=. Qed.

Lemma work_step_sweeping sv sv' :
  work_step config sv sv' → (∀ t, sv_maintenance sv = Some t → sweep_task t) →
  ∀ t, sv_maintenance sv' = Some t → sweep_task t.
Proof.
  destruct 1 as [sv i r o s' r' _ Hi Ha Hns Hr|sv i r channel r' _ Hi Hr|sv sv' _ Hr|sv o sv' _ Hr|sv o sv' _ Hr];
    intros IH; try done.
  - unfold receive_step in Hr. by destruct (sv_dispatcher sv), (sv_channel sv); simplify_eq.
  - unfold dispatcher_step in Hr. destruct (sv_dispatcher sv) as [t|]; [|done]. simpl in Hr.
    by destruct (task_step o (sv_shared sv) t); simplify_eq.
  - unfold sweep_step in Hr. destruct (sv_maintenance sv) as [t|] eqn:Hm; [|done]. simpl in Hr.
    destruct (task_step o (sv_shared sv) t) as [s' t'] eqn:Ht. simplify_eq. intros t2 <-%unfinished_Some.
    by eapply sweep_task_step; [apply IH|].
Qed.

Lemma reachable_sweeping sv :
  rtc (server_step config) server0 sv → ∀ t, sv_maintenance sv = Some t → sweep_task t.
Proof.
  apply (rtc_ind_r (λ sv, ∀ t, sv_maintenance sv = Some t → sweep_task t)); [done|]. intros sv1 sv2 _ Hs. clear sv.
  destruct Hs as [sv sv' Hw|sv e1 _|sv e1 _ _|sv i r r' _ Hi Ht|sv i r _ Hi Ha|sv now sv' _ Ht|sv Hp|sv Hp _|sv|sv s0 Hp Hre
    |sv o sv' Hr|sv Hp]; intros IH; try done.
  - by eapply work_step_sweeping.
  - unfold tick_step in Ht. destruct (sv_maintenance sv); [done|]. case_match; [done|]. simplify_eq. by intros t [= <-].
  - unfold recover_step in Hr. destruct (sv_phase sv) as [[|e pending] [t|]| | |]; try done; [| |by simplify_eq];
      by destruct (task_step o (sv_shared sv) t); simplify_eq.
Qed.

(** Dropping it abandons its event. *)
Lemma timeout_abandons sv i e r r' :
  0 <= default 0 (sc_dispatch config) → rtc (server_step config) server0 sv → up sv = true →
  sv_requests sv !! i = Some r → holds_up e r → ev_id e ∉ sh_handled (sv_shared sv) → alone (ev_id e) i sv →
  answered r' = true → abandoned e (set_requests (<[i := r']> (sv_requests sv)) sv).
Proof.
  intros Hcap Hr Hup Hi Hh Hn [Hal Hch Hdi] Ha. destruct (reachable_flight sv Hcap Hr) as [[Hrq _ _ _] _].
  constructor; simpl; try done.
  - assert (request_ok (sv_shared sv) r) as Hok by (apply Hrq; by eapply list_elem_of_lookup_2).
    destruct Hh as [-> | ->]; [exact Hok|apply Hok].
  - unfold up in Hup. by destruct (sv_phase sv).
  - intros r2 [j Hj]%list_elem_of_lookup. apply list_lookup_insert_Some in Hj as [(_ & <- & _)|[Hne Hj]].
    + destruct r'; try done; by intros [].
    + by eapply Hal.
  - intros t Ht. apply (reachable_sweeping sv Hr) in Ht. destruct t; try done; by intros [].
Qed.

(** C35: what the request timeout leaves behind. A request waits for the handling of
    its event, or for a place in the channel, and the timeout answers it 408; nothing
    else in the process carries the event, whose handling has not succeeded. Then,
    whatever the process does, as long as it does not start again and no request and
    no replay comes that carries the event's id, the event stays unhandled. With
    retention that only lets delivered events expire, and unless a call on the
    store's files fails in a way that leaves them out of order, it stays in the log,
    unmarked, for the next start; and meanwhile any other request with its key is
    answered with success without handling it. *)
Theorem abandoned_until_restart sv i e r r' sv' :
  0 <= default 0 (sc_dispatch config) → grace_only (sc_policy config) →
  rtc (server_step config) server0 sv → up sv = true → sv_requests sv !! i = Some r → holds_up e r →
  ev_id e ∉ sh_handled (sv_shared sv) → alone (ev_id e) i sv →
  with_request_timeout (sc_request_timeout config) r = Some r' →
  rtc (undisturbed (ev_id e)) (set_requests (<[i := r']> (sv_requests sv)) sv) sv' →
  r' = Answered REQUEST_TIMEOUT ∧ (ev_id e ∉ sh_handled (sv_shared sv')) ∧
  (sh_sound (sv_shared sv') = true →
   e ∈ log_undelivered (log_of (sv_shared sv')) ∧
   (∀ s, reopened (sv_shared sv') s → e ∈ log_undelivered (log_of s)) ∧
   (is_Some (idempotency_key (ev_metadata e)) → ∀ retry o,
    idempotency_key (ev_metadata retry) = idempotency_key (ev_metadata e) →
    request_step o (sv_shared sv') (new_request config retry) =
    (sv_shared sv', Answered (match sc_dispatch config with Some _ => ACCEPTED | None => STATUS_OK end)))).
Proof.
  intros Hcap Hg Hr Hup Hi Hh Hn Hal Ht Hrun. set (sv1 := set_requests _ _) in Hrun.
  assert (server_step config sv sv1) as Hstep by (by apply (serve_timeout _ _ i r r')).
  unfold with_request_timeout in Ht. destruct (sc_request_timeout config), (awaiting r); simplify_eq.
  assert (abandoned e sv1) as Hab by (by apply (timeout_abandons sv i e r)).
  assert (rtc (server_step config) server0 sv1) as Hr1 by (by eapply rtc_r).
  assert (abandoned e sv' ∧ rtc (server_step config) server0 sv') as [[Hst Hun _ _ _ _ _] Hr'].
  { clearbody sv1. clear Hstep. induction Hrun as [sv1|sv1 sv2 sv3 Hs _ IH]; [done|]. apply IH.
    - by eapply undisturbed_abandoned.
    - eapply rtc_r; [exact Hr1|]. by destruct Hs. }
  split; [done|]. split; [done|]. intros Hsound.
  destruct (owed_is_stored config sv' e Hg Hr' Hsound Hst Hun) as [Hin Hnext]. split; [exact Hin|]. split; [exact Hnext|].
  intros Hkey retry o Heq. assert (known_key retry (sv_shared sv') = true) as Hkn.
  { apply known_key_spec. exists e. rewrite Heq. apply list_elem_of_filter in Hin as [_ Hin]. done. }
  unfold new_request. destruct (sc_dispatch config); simpl; unfold_steps; by rewrite Hkn.
Qed.
End drain.
