(* ===== verification/ServerRuns.v ===== *)
(** * Sample runs of the serving process

    The steps of [Server] played from a list of actions, and its theorems applied
    to what they reach: a request that times out and is retried, a crash between
    the acceptance of an event and its dispatch, a drain with a full channel. *)

From stdpp Require Import base gmap strings list relations.
From Stdlib Require Import ZArith Lia.
From S2P Require Import Prelude RustStd Event Retention Store FileStore Runtime Ingest Http Cli Concurrency.
From S2P Require Import Samples StorageRuns ConcurrencyRuns Server ServerSpec ServerDrain.
Local Open Scope Z_scope.

(** One schedule entry: what happens, to which request, and how its lock section
    goes. Files that are not in order are not opened again. *)
Inductive Action :=
| ActRequest (event : EventEnvelope)
| ActReplay (event : EventEnvelope)
| ActRun (i : nat) (o : Outcome)
| ActSend (i : nat)
| ActTimeout (i : nat)
| ActReceive
| ActDispatch (o : Outcome)
| ActTick (now : DateTime)
| ActSweep (o : Outcome)
| ActShutdown
| ActExit
| ActCrash
| ActStart
| ActRecover (o : Outcome)
| ActListen.

Definition when (b : bool) (sv : Server) : option Server := if b then Some sv else None.

Definition serving (sv : Server) : bool := match sv_phase sv with Serving => true | _ => false end.
Definition draining (sv : Server) : bool := match sv_phase sv with Draining => true | _ => false end.
Definition stopped (sv : Server) : bool := match sv_phase sv with Stopped => true | _ => false end.
Definition recovered (sv : Server) : bool := match sv_phase sv with Starting [] None => true | _ => false end.
Definition is_sending (r : Request) : bool := match r with Sending _ => true | _ => false end.

Section play.
Variable config : ServeConfig.

Definition act (a : Action) (sv : Server) : option Server :=
  match a with
  | ActRequest event => when (serving sv) (set_requests (sv_requests sv ++ [new_request config event]) sv)
  | ActReplay event =>
    when (serving sv && bool_decide (event ∈ sh_events (sv_shared sv)))
      (set_requests (sv_requests sv ++ [Replaying event]) sv)
  | ActRun i o =>
    r ← sv_requests sv !! i;
    let '(s', r') := request_step o (sv_shared sv) r in
    when (up sv && negb (answered r) && negb (is_sending r))
      (set_shared s' (set_requests (<[i := r']> (sv_requests sv)) sv))
  | ActSend i =>
    r ← sv_requests sv !! i;
    '(channel, r') ← send_step config r (sv_channel sv);
    when (up sv) (set_channel channel (set_requests (<[i := r']> (sv_requests sv)) sv))
  | ActTimeout i =>
    r ← sv_requests sv !! i;
    r' ← with_request_timeout (sc_request_timeout config) r;
    when (up sv) (set_requests (<[i := r']> (sv_requests sv)) sv)
  | ActReceive => if up sv then receive_step sv else None
  | ActDispatch o => if up sv then dispatcher_step o sv else None
  | ActTick now => if spawned sv then tick_step config now sv else None
  | ActSweep o => if spawned sv then sweep_step o sv else None
  | ActShutdown => when (serving sv) (set_phase Draining sv)
  | ActExit => when (draining sv && forallb answered (sv_requests sv)) (stop sv)
  | ActCrash => Some (stop sv)
  | ActStart => when (stopped sv && sh_sound (sv_shared sv)) (start_step (restart (sv_shared sv)))
  | ActRecover o => recover_step o sv
  | ActListen => when (recovered sv) (set_phase Serving sv)
  end.

Fixpoint acts (l : list Action) (sv : Server) : option Server :=
  match l with
  | [] => Some sv
  | a :: l => sv ← act a sv; acts l sv
  end.

Lemma act_step a sv sv' : act a sv = Some sv' → server_step config sv sv'.
Proof.
  intros Ha. destruct a; simpl in Ha; unfold when in Ha.
  - unfold serving in Ha. destruct (sv_phase sv) eqn:Hp; simplify_eq. by constructor.
  - unfold serving in Ha. destruct (sv_phase sv) eqn:Hp; simplify_eq/=. case_bool_decide; simplify_eq. by constructor.
  - destruct (sv_requests sv !! i) as [r|] eqn:Hi; [|done]. simpl in Ha.
    destruct (request_step o (sv_shared sv) r) as [s' r'] eqn:Hr.
    destruct (up sv) eqn:Hu, (answered r) eqn:Han, (is_sending r) eqn:Hs; simplify_eq/=.
    constructor. eapply work_request; [done|exact Hi|done| |exact Hr]. by intros ? ->.
  - destruct (sv_requests sv !! i) as [r|] eqn:Hi; [|done]. simpl in Ha.
    destruct (send_step config r (sv_channel sv)) as [[c r']|] eqn:Hr; [|done]. simpl in Ha.
    destruct (up sv) eqn:Hu; simplify_eq. constructor. by eapply work_send.
  - destruct (sv_requests sv !! i) as [r|] eqn:Hi; [|done]. simpl in Ha.
    destruct (with_request_timeout (sc_request_timeout config) r) as [r'|] eqn:Hr; [|done]. simpl in Ha.
    destruct (up sv) eqn:Hu; simplify_eq. by eapply serve_timeout.
  - destruct (up sv) eqn:Hu; simplify_eq. constructor. by apply work_receive.
  - destruct (up sv) eqn:Hu; simplify_eq. constructor. by eapply work_dispatch.
  - destruct (spawned sv) eqn:Hu; simplify_eq. by eapply serve_tick.
  - destruct (spawned sv) eqn:Hu; simplify_eq. constructor. by eapply work_sweep.
  - unfold serving in Ha. destruct (sv_phase sv) eqn:Hp; simplify_eq. by constructor.
  - unfold draining in Ha. destruct (sv_phase sv) eqn:Hp; simplify_eq/=.
    destruct (forallb answered (sv_requests sv)) eqn:Hf; simplify_eq. by constructor.
  - simplify_eq. apply serve_crash.
  - unfold stopped in Ha. destruct (sv_phase sv) eqn:Hp; simplify_eq/=. destruct (sh_sound (sv_shared sv)) eqn:Hs; simplify_eq.
    constructor; [done|]. unfold reopened. by rewrite Hs.
  - by eapply serve_recover.
  - unfold recovered in Ha. destruct (sv_phase sv) as [[] []| | |] eqn:Hp; simplify_eq. by constructor.
Qed.

Lemma acts_run l sv sv' : acts l sv = Some sv' → rtc (server_step config) sv sv'.
Proof.
  revert sv. induction l as [|a l IH]; intros sv Ha; simpl in Ha; [by simplify_eq|].
  destruct (act a sv) as [sv1|] eqn:Hs; [|done]. simpl in Ha.
  eapply rtc_l; [by eapply act_step|]. by apply IH.
Qed.

(** The event an action brings in. *)
Definition brings (a : Action) : option EventEnvelope :=
  match a with ActRequest e | ActReplay e => Some e | _ => None end.

Lemma act_requests a sv sv' :
  act a sv = Some sv' →
  match brings a with
  | Some e => ∃ r, sv_requests sv' = sv_requests sv ++ [r] ∧ request_touches (ev_id e) r ∧
      ∀ id, request_touches id r → ev_id e = id
  | None => (length (sv_requests sv') ≤ length (sv_requests sv))%nat
  end.
Proof.
  intros Ha. destruct a; simpl in *; unfold when, send_step, receive_step, dispatcher_step, tick_step, sweep_step,
    recover_step, mbind, option_bind in Ha; simpl in Ha; repeat case_match; simplify_eq/=; rewrite ?length_insert; try lia;
    try (eexists; (split; [done|]); unfold new_request; by destruct (sc_dispatch config)).
Qed.

Lemma act_undisturbed a sv sv' id :
  act a sv = Some sv' → stopped sv = false → (∀ e, brings a = Some e → ev_id e ≠ id) →
  undisturbed config id sv sv'.
Proof.
  intros Ha Hst Hid. split; [by eapply act_step|]. split; [by intros Hp; unfold stopped in Hst; rewrite Hp in Hst|].
  intros r Hr Ht. apply act_requests in Ha. rewrite Hr in Ha. simpl in Ha.
  destruct (brings a) as [e|].
  - destruct Ha as (r' & [_ [= <-]]%app_inj_2 & _ & Hr'); [|done]. by eapply Hid, Hr'.
  - rewrite length_app in Ha. simpl in Ha. lia.
Qed.

(** A schedule that neither restarts the process nor brings the event [id]. *)
Fixpoint calm_acts (id : EventId) (l : list Action) (sv : Server) : option Server :=
  match l with
  | [] => Some sv
  | a :: l =>
    if stopped sv || match brings a with Some e => bool_decide (ev_id e = id) | None => false end then None
    else sv ← act a sv; calm_acts id l sv
  end.

Lemma calm_acts_run id l sv sv' : calm_acts id l sv = Some sv' → rtc (undisturbed config id) sv sv'.
Proof.
  revert sv. induction l as [|a l IH]; intros sv Ha; simpl in Ha; [by simplify_eq|].
  destruct (stopped sv) eqn:Hst; [done|]. simpl in Ha.
  assert (∀ e, brings a = Some e → ev_id e ≠ id) as Hid.
  { intros e Hb. rewrite Hb in Ha. by case_bool_decide. }
  assert (∃ sv1, act a sv = Some sv1 ∧ calm_acts id l sv1 = Some sv') as (sv1 & Hs & Hl).
  { case_match; [done|]. destruct (act a sv) as [sv1|]; [|done]. by exists sv1. }
  eapply rtc_l; [by eapply act_undisturbed|]. by apply IH.
Qed.

(** The server a schedule reaches from empty stores. *)
Definition played (l : list Action) : Server := default server0 (acts l server0).

Lemma played_run l : is_Some (acts l server0) → rtc (server_step config) server0 (played l).
Proof. intros [sv Hsv]. apply (acts_run l). unfold played. by rewrite Hsv. Qed.
End play.

(** Synchronous, with a timeout; asynchronous, with a channel of one place. *)
Definition sync_config : ServeConfig := mkServeConfig None None (Some (duration_from_secs 30)) None short_grace 300.
Definition async_config : ServeConfig := mkServeConfig None None None (Some 1) short_grace 300.

Definition starting : list Action := [ActStart; ActListen].

(** The request of [event1] stores its event and times out while it is handled. *)
Definition timing_out : list Action :=
  starting ++ [ActRequest event1; ActRun 0 Done; ActRun 0 Done].
Definition waiting : Server := played sync_config timing_out.
Definition timed_out : Server :=
  set_requests (<[0%nat := Answered REQUEST_TIMEOUT]> (sv_requests waiting)) waiting.

(** Then [event2] is served, and a shutdown begins. *)
Definition going_on : list Action :=
  [ActRequest event2; ActRun 1 Done; ActRun 1 Done; ActRun 1 Done; ActRun 1 Done; ActRun 1 Done; ActRun 1 Done;
   ActShutdown].
Definition gone_on : Server := default server0 (calm_acts sync_config (ev_id event1) going_on timed_out).

Example statuses :
  sv_requests gone_on = [Answered REQUEST_TIMEOUT; Answered STATUS_OK] ∧
  sh_events (sv_shared gone_on) = [event1; event2].
Proof. by vm_compute. Qed.

Lemma waiting_run : rtc (server_step sync_config) server0 waiting.
Proof. apply played_run. apply (bool_decide_unpack _). vm_compute. exact I. Qed.

(** Nothing else carries [event1]. *)
Lemma waiting_alone : alone (ev_id event1) 0 waiting.
Proof.
  assert (sv_requests waiting = [SyncRequest (Handling event1)]) as Hr by (by vm_compute).
  assert (sv_channel waiting = [] ∧ sv_dispatcher waiting = None) as [Hc Hd] by (by vm_compute).
  constructor; rewrite ?Hr, ?Hc, ?Hd; [|by intros ? ?%not_elem_of_nil|done]. by intros [|j] r Hj Hl.
Qed.

(** Nothing in [going_on] brings [event1] back. *)
Lemma going_on_undisturbed : rtc (undisturbed sync_config (ev_id event1)) timed_out gone_on.
Proof.
  apply (calm_acts_run _ _ going_on). unfold gone_on. assert (is_Some (calm_acts sync_config (ev_id event1) going_on timed_out)) as [sv Hsv].
  { apply (bool_decide_unpack _). vm_compute. exact I. }
  by rewrite Hsv.
Qed.

Lemma short_grace_only : grace_only short_grace.
Proof. repeat split. Qed.

Lemma abandoned_until_restart_witness :
  Answered REQUEST_TIMEOUT = Answered REQUEST_TIMEOUT ∧ (ev_id event1 ∉ sh_handled (sv_shared gone_on)) ∧
  (sh_sound (sv_shared gone_on) = true →
   event1 ∈ log_undelivered (log_of (sv_shared gone_on)) ∧
   (∀ s, reopened (sv_shared gone_on) s → event1 ∈ log_undelivered (log_of s)) ∧
   (is_Some (idempotency_key (ev_metadata event1)) → ∀ retry o,
    idempotency_key (ev_metadata retry) = idempotency_key (ev_metadata event1) →
    request_step o (sv_shared gone_on) (new_request sync_config retry) =
    (sv_shared gone_on, Answered (match sc_dispatch sync_config with Some _ => ACCEPTED | None => STATUS_OK end)))).
Proof.
  apply (abandoned_until_restart sync_config waiting 0 event1 (SyncRequest (Handling event1)) (Answered REQUEST_TIMEOUT) gone_on).
  - by vm_compute.
  - exact short_grace_only.
  - exact waiting_run.
  - by vm_compute.
  - by vm_compute.
  - by left.
  - apply (bool_decide_unpack _). vm_compute. exact I.
  - exact waiting_alone.
  - reflexivity.
  - exact going_on_undisturbed.
Defined.

Example gone_on_sound : sh_sound (sv_shared gone_on) = true.
Proof. by vm_compute. Qed.

(** The client's retry is answered 200; the next start handles [event1] before it
    listens. *)
Example retry_then_recovery :
  sv_requests (default server0 (acts sync_config [ActRequest event1_again; ActRun 1 Done] timed_out)) =
    [Answered REQUEST_TIMEOUT; Answered STATUS_OK] ∧
  sv_phase (default server0 (acts sync_config [ActCrash; ActStart] timed_out)) = Starting [event1] None ∧
  log_undelivered (log_of (sv_shared (default server0 (acts sync_config
    ([ActCrash; ActStart] ++ replicate 5 (ActRecover Done) ++ [ActListen]) timed_out)))) = [].
Proof. by vm_compute. Qed.

(** [event1] is accepted and put in the channel; [event2] is stored and waits for the
    place it takes. *)
Definition filling : list Action :=
  starting ++ [ActRequest event1; ActRun 0 Done; ActRun 0 Done; ActSend 0;
               ActRequest event2; ActRun 1 Done; ActRun 1 Done].
Definition full : Server := played async_config filling.

Lemma full_run : rtc (server_step async_config) server0 full.
Proof. apply played_run. apply (bool_decide_unpack _). vm_compute. exact I. Qed.

Example full_state :
  sv_requests full = [Answered ACCEPTED; Sending event2] ∧ sv_channel full = [event1] ∧
  send_step async_config (Sending event2) (sv_channel full) = None.
Proof. by vm_compute. Qed.

Lemma in_flight_is_bounded_and_durable_witness :
  len (sv_channel full) <= default 0 (sc_dispatch async_config) ∧
  (grace_only (sc_policy async_config) → sh_sound (sv_shared full) = true →
   event2 ∈ sv_channel full ∨ Sending event2 ∈ sv_requests full ∨ sv_dispatcher full = Some (Handling event2) →
   ev_id event2 ∈ sh_handled (sv_shared full) ∨
   ∀ s, reopened (sv_shared (stop full)) s → event2 ∈ log_undelivered (log_of s)).
Proof.
  apply (in_flight_is_bounded_and_durable async_config full event2).
  - by vm_compute.
  - exact full_run.
Defined.

Lemma drain_ends_witness :
  (∀ n sv', nsteps (work_step async_config) n full sv' → (n ≤ work full)%nat) ∧
  (∀ sv', rtc (work_step async_config) full sv' → nf (work_step async_config) sv' →
     Forall (λ r, answered r = true) (sv_requests sv') ∧ sv_channel sv' = [] ∧ sv_dispatcher sv' = None ∧
     sv_maintenance sv' = None).
Proof.
  apply (drain_ends async_config full).
  - by intros capacity [= <-].
  - exact full_run.
  - by vm_compute.
Defined.

(** The whole of the drain: [event1] is dispatched, [event2] takes its place, and so on. *)
Example drained :
  let sv := default server0 (acts async_config
    ([ActShutdown; ActReceive; ActSend 1] ++ replicate 4 (ActDispatch Done) ++ [ActReceive] ++ replicate 4 (ActDispatch Done)
     ++ [ActExit]) full) in
  sv_phase sv = Stopped ∧ log_undelivered (log_of (sv_shared sv)) = [].
Proof. by vm_compute. Qed.

(** A crash with [event1] in the channel; the next process handles it, and [event2],
    before it listens. *)
Definition recovering_run : list Action :=
  filling ++ [ActCrash; ActStart] ++ replicate 10 (ActRecover Done) ++ [ActListen].
Definition listening : Server := played async_config recovering_run.

Lemma listening_run : rtc (server_step async_config) server0 listening.
Proof. apply played_run. apply (bool_decide_unpack _). vm_compute. exact I. Qed.

Lemma listening_owes_nothing_witness :
  (event2 ∈ sv_old listening → ev_id event2 ∈ sh_handled (sv_shared listening)) ∧
  (event2 ∈ sh_appended (sv_shared listening) → ev_id event2 ∉ sh_handled (sv_shared listening) →
   ∀ s, reopened (sv_shared listening) s → event2 ∈ log_undelivered (log_of s)).
Proof.
  apply (listening_owes_nothing async_config listening event2).
  - exact short_grace_only.
  - exact listening_run.
  - by vm_compute.
  - by vm_compute.
Defined.

Example listening_state : sv_phase listening = Serving ∧ sv_old listening = [event1; event2].
Proof. by vm_compute. Qed.
