(* ===== verification/CoreTests.v ===== *)
(** * The tests of [crates/triggerlane-core/src/event.rs] and [trigger.rs], and of
    [crates/triggerlane-cli/src/config.rs], run on the model

    The JSON of the payloads and of the configuration documents is read by
    [JsonText] and [Serde]. *)

From stdpp Require Import base gmap strings list.
From Stdlib Require Import ZArith.
From S2P Require Import Prelude RustStd Event Trigger Retention Store Samples Testing JsonText Runtime Http Config Cli Serde.
Local Open Scope Z_scope.

Local Existing Instance text_Json.

(** ** [event.rs], lines 154-225 *)

Definition envelope_preserves_replay_fields : Test unit unit :=
  let metadata := mkEventMetadata (Some "trace-1") (Some "corr-1") (Some "tenant-1") (Some "idem-1") None in
  event ← new_event GitHub EVENT_GITHUB_ISSUE_CREATED issue_payload;
  let event := with_metadata event metadata in
  assert_eq "source" (ev_source event) GitHub;;
  assert_eq "type" (as_str (ev_type event)) EVENT_GITHUB_ISSUE_CREATED;;
  assert_eq "payload" (ev_payload event) issue_payload;;
  assert_eq "metadata" (ev_metadata event) metadata.

(** [EventEnvelope::follow_up], which draws an id as [new] does. *)
Definition follow_up_event (cause : EventEnvelope) (source : Source) (event_type : string) (payload : bytes)
    : Test unit EventEnvelope :=
  fresh ← new_event source event_type payload;
  mret (follow_up cause (ev_id fresh) (ev_timestamp fresh) source (mkEventType event_type) payload).

Definition follow_up_links_to_cause_and_propagates_chain : Test unit unit :=
  cause ← new_event GitHub EVENT_GITHUB_ISSUE_CREATED issue_payload;
  let cause := with_metadata cause (mkEventMetadata None (Some "corr-1") (Some "tenant-1") None None) in
  follow_up ← follow_up_event cause Manual "event.projection.created" (json_object [json_field "projection" "1"]);
  let metadata := ev_metadata follow_up in
  assert_eq "causation" (causation_id metadata) (Some (EventId_to_string (ev_id cause)));;
  assert_eq "correlation" (correlation_id metadata) (Some "corr-1");;
  assert_eq "tenant" (tenant_id metadata) (Some "tenant-1");;
  assert "a new id" (negb (bool_decide (ev_id follow_up = ev_id cause)));;
  assert_eq "key" (idempotency_key metadata) None.

Definition follow_up_starts_chain_from_cause_id_when_no_correlation : Test unit unit :=
  cause ← new_event Cron EVENT_CRON_DAILY (as_bytes "{}");
  follow_up ← follow_up_event cause Manual EVENT_CRON_DAILY (as_bytes "{}");
  let metadata := ev_metadata follow_up in
  assert_eq "correlation" (correlation_id metadata) (Some (EventId_to_string (ev_id cause)));;
  assert_eq "causation" (causation_id metadata) (Some (EventId_to_string (ev_id cause))).

(** ** [trigger.rs], lines 191-325 *)

Definition issue_event (payload : bytes) : Test unit EventEnvelope := new_event GitHub EVENT_GITHUB_ISSUE_CREATED payload.

(** [assert!(trigger.matches(&event))] and [assert!(!trigger.matches(&event))]. *)
Definition match_is {T} `{Trigger T} (t : T) (event : EventEnvelope) (expected : bool) : Test unit unit :=
  assert_eq "matches" (matches t event) expected.

Definition event_type_trigger_matches_only_configured_type : Test unit unit :=
  event ← issue_event (as_bytes "{}");
  match_is (mkEventTypeTrigger (mkEventType EVENT_GITHUB_ISSUE_CREATED)) event true;;
  match_is (mkEventTypeTrigger (mkEventType "event.discord.message.created")) event false.

Definition projection_binding : WorklaneJobBinding := WorklaneJobBinding_new "projection" "CreateProjectionJob" 3.

Definition worklane_binding_preserves_event_payload : Test unit unit :=
  event ← issue_event issue_payload;
  job ← expect "event should bind" (lift (bind projection_binding event));
  assert_eq "lane" (job_lane job) "projection";;
  assert_eq "kind" (job_kind job) "CreateProjectionJob";;
  assert_eq "payload" (job_payload job) issue_payload;;
  assert_eq "attempts" (job_max_attempts job) 3.

Definition binding_payload_transform_shapes_the_job_payload : Test unit unit :=
  event ← issue_event issue_payload;
  let binding := with_payload_transform projection_binding (λ _, Ok (as_bytes "shaped")) in
  job ← expect "event should bind" (lift (bind binding event));
  assert_eq "payload" (job_payload job) (as_bytes "shaped").

Definition binding_payload_transform_can_reject_the_event : Test unit unit :=
  event ← issue_event (as_bytes "{}");
  let binding := with_payload_transform projection_binding (λ _, Err (Rejected "no payload")) in
  assert "rejected" (negb (is_ok (bind binding event))).

(** [PayloadFieldEquals::new(pointer, text)]. *)
Definition field_is (p text : string) : PayloadFieldEquals := mkPayloadFieldEquals p (JString text).
Definition label (text : string) : bytes := json_object [json_field "label" (quoted text)].

Definition payload_field_equals_matches_configured_value : Test unit unit :=
  event ← issue_event (json_object [json_field "label" (quoted "bug"); json_field "number" "7"]);
  match_is (field_is "/label" "bug") event true.

Definition payload_field_equals_no_match_on_different_value : Test unit unit :=
  event ← issue_event (label "docs");
  match_is (field_is "/label" "bug") event false.

Definition payload_field_equals_no_match_when_field_absent : Test unit unit :=
  event ← issue_event (json_object [json_field "number" "7"]);
  match_is (field_is "/label" "bug") event false.

Definition payload_field_equals_no_match_on_non_json_payload : Test unit unit :=
  event ← issue_event (as_bytes "not json");
  match_is (field_is "/label" "bug") event false.

Definition payload_field_equals_matches_nested_pointer : Test unit unit :=
  event ← issue_event (json_object [json_field "issue" ("{" +:+ json_field "state" (quoted "open") +:+ "}")]);
  match_is (field_is "/issue/state" "open") event true.

Definition all_of_matches_only_when_every_condition_matches : Test unit unit :=
  let conditions text := mkAllOf [box_trigger (mkEventTypeTrigger (mkEventType EVENT_GITHUB_ISSUE_CREATED));
                                  box_trigger (field_is "/label" text)] in
  event ← issue_event (label "bug");
  match_is (conditions "bug") event true;;
  match_is (conditions "docs") event false.

Definition any_of_matches_when_at_least_one_condition_matches : Test unit unit :=
  let conditions text := mkAnyOf [box_trigger (field_is "/label" "docs"); box_trigger (field_is "/label" text)] in
  event ← issue_event (label "bug");
  match_is (conditions "bug") event true;;
  match_is (conditions "chore") event false.

(** ** The configuration document *)

Local Instance text_TriggerFile : Deserialize TriggerFile := json_from_str.

(** *** Texts of documents *)

Definition object (fields : list string) : string := "{ " +:+ String.concat ", " fields +:+ " }".
Definition text_field (key value : string) : string := json_field key (quoted value).
Definition document (entries : list string) : string :=
  object [json_field "triggers" ("[ " +:+ String.concat ", " entries +:+ " ]")].
Definition entry_text (name : string) (settings : list string) (condition lane kind attempts : string) : string :=
  object ([text_field "name" name] ++ settings ++
          [json_field "match" condition;
           json_field "bind" (object [text_field "lane" lane; text_field "kind" kind; json_field "max_attempts" attempts])]).
Definition on_issue : string := object [text_field "type" "event_type"; text_field "event_type" "event.github.issue.created"].

(** ** [config.rs], lines 131-226 *)

Definition composed : string :=
  document [entry_text "bug-projection" [json_field "priority" "10"]
    (object [text_field "type" "all_of";
             json_field "conditions" ("[" +:+ on_issue +:+ ", " +:+
               object [text_field "type" "payload_field_equals"; text_field "pointer" "/label"; text_field "value" "bug"] +:+ "]")])
    "projection" "CreateProjectionJob" "3"].

Definition names (registry : TriggerRegistry) (event : EventEnvelope) : list string := rt_name <$> matching registry event.

Definition composed_condition_matches_and_binds : Test unit unit :=
  registry ← expect "config should parse" (lift (parse_registry composed));
  matched ← issue_event (label "bug");
  assert_eq "names" (names registry matched) ["bug-projection"];;
  other ← issue_event (label "docs");
  assert_eq "others" (names registry other) [].

Definition ordered : string :=
  document [entry_text "low" [json_field "priority" "1"] on_issue "l" "Low" "1";
            entry_text "high" [json_field "priority" "100"] on_issue "l" "High" "1";
            entry_text "off" [json_field "enabled" "false"] on_issue "l" "Off" "1"].

Definition disabled_entry_does_not_match_and_priority_orders_matches : Test unit unit :=
  registry ← expect "config should parse" (lift (parse_registry ordered));
  event ← issue_event (as_bytes "{}");
  assert_eq "names" (names registry event) ["high"; "low"].

Definition is_parse_error (r : result ConfigError TriggerRegistry) : bool :=
  match r with Err (ConfigParse _) => true | _ => false end.

Definition malformed_json_is_a_config_error : Test unit unit :=
  assert "a parse error" (is_parse_error (parse_registry "{ not json")).

Definition unknown_match_type_is_a_config_error : Test unit unit :=
  assert "a parse error" (is_parse_error (parse_registry (document
    [entry_text "bad" [] (object [text_field "type" "regex"; text_field "pattern" ".*"]) "l" "K" "1"]))).

(** ** The suites *)

Definition core_tests : list (Test unit unit) := [
  envelope_preserves_replay_fields;
  follow_up_links_to_cause_and_propagates_chain;
  follow_up_starts_chain_from_cause_id_when_no_correlation;
  event_type_trigger_matches_only_configured_type;
  worklane_binding_preserves_event_payload;
  binding_payload_transform_shapes_the_job_payload;
  binding_payload_transform_can_reject_the_event;
  payload_field_equals_matches_configured_value;
  payload_field_equals_no_match_on_different_value;
  payload_field_equals_no_match_when_field_absent;
  payload_field_equals_no_match_on_non_json_payload;
  payload_field_equals_matches_nested_pointer;
  all_of_matches_only_when_every_condition_matches;
  any_of_matches_when_at_least_one_condition_matches
].

Definition config_tests : list (Test unit unit) := [
  composed_condition_matches_and_binds;
  disabled_entry_does_not_match_and_priority_orders_matches;
  malformed_json_is_a_config_error;
  unknown_match_type_is_a_config_error
].

Example core_tests_pass : passes ((λ t, run_test t tt) <$> core_tests).
Proof. repeat constructor. Qed.

Example config_tests_pass : passes ((λ t, run_test t tt) <$> config_tests).
Proof. repeat constructor. Qed.
