(* ===== verification/HttpTests.v ===== *)
(** * The tests of [crates/triggerlane-http/src/lib.rs], lines 723-1292, run on the model

    A request is looked up in the routing tables and handed to the endpoint it
    reaches, with the headers, codes and channels of [HttpRuns], the broker of
    [RuntimeTests] and the JSON of [JsonText]. *)

From stdpp Require Import base gmap strings list.
From Stdlib Require Import ZArith Lia.
From S2P Require Import Prelude RustStd Event Trigger Retention Store Samples Runtime Ingest Http HttpRuns.
From S2P Require Import Config Cli Serde.
From S2P Require Import Testing JsonText RuntimeTests.
Local Open Scope Z_scope.

Local Existing Instances memory_Worklane memory_Broker.

(** ** The body of [POST /events] *)

Local Instance text_IncomingEvent : Deserialize IncomingEvent := json_from_str.

(** ** Fixtures *)

(** *** [RecordingHandler], lines 1258-1291 *)
Record RecordingHandler := RecordingHandler_new { rh_report : EventHandlingReport }.
Local Instance RecordingHandler_EventHandler : EventHandler RecordingHandler (list EventEnvelope) := λ self event,
  modify (λ events, events ++ [event]);;
  mret (rh_report self).

Definition endpoint_at (table : list (Method * string * Endpoint)) (method : Method) (path : string) : option Endpoint :=
  snd <$> List.find (λ route, bool_decide (route.1 = (method, path))) table.

(** [assert_eq!(app.routes(method, path), endpoint)]. *)
Definition reaches {S} (table : list (Method * string * Endpoint)) (method : Method) (path : string) (endpoint : Endpoint)
    : Test S unit :=
  assert "route should respond"
    match endpoint_at table method path, endpoint with
    | Some Healthz, Healthz | Some Readyz, Readyz | Some Metrics, Metrics | Some PostEvents, PostEvents
    | Some ListEvents, ListEvents | Some GetEvent, GetEvent | Some ListDeadTriggers, ListDeadTriggers => true
    | _, _ => false
    end.

(** A request to an endpoint. *)
Definition oneshot {S} (app : S → Response * S) : Test S Response := λ '(n, s),
  let '(response, s) := app s in (Ok response, (n, s)).

Definition status_is {S} (response : Response) (expected : StatusCode) : Test S unit :=
  assert_eq "status" (status response) expected.

Definition json_headers : HeaderMap := [("content-type", "application/json")].
Definition request_body : bytes :=
  json_object [json_field "event_type" (quoted "event.manual.test"); json_field "payload" "[123,125]"].

(** What a drawn id and the clock give [EventEnvelope::new] in the route. *)
Definition post {S} (app : EventId → DateTime → HeaderMap → bytes → S → Response * S) (headers : HeaderMap) (body : bytes)
    : Test S Response :=
  fresh ← new_event Http "" [];
  reaches events_routes POST EVENTS_PATH PostEvents;;
  oneshot (app (ev_id fresh) (ev_timestamp fresh) headers body).

Definition event_response {S} (response : Response) : Test S EventResponse :=
  some "response should be json" match Http.body response with EventResponseBody r => Some r | _ => None end.

(** ** Probes and metrics *)

Definition healthz_is_ok_while_serving : Test unit unit :=
  reaches health_router GET HEALTHZ_PATH Healthz;;
  assert_eq "status" healthz_route STATUS_OK.

Definition readyz_reflects_readiness_state : Test unit unit :=
  reaches health_router GET READYZ_PATH Readyz;;
  assert_eq "ready" (readyz_route Readiness_ready) STATUS_OK;;
  assert_eq "draining" (readyz_route (set_ready false Readiness_ready)) SERVICE_UNAVAILABLE.

Definition metrics_endpoint_serves_rendered_text : Test unit unit :=
  let text := "triggerlane_events_handled_total 7" +:+ String (Ascii.ascii_of_nat 10) EmptyString in
  reaches metrics_router GET METRICS_PATH Metrics;;
  let response := metrics_route (λ _, text) in
  status_is response STATUS_OK;;
  match Http.body response with
  | TextBody content_type body =>
    assert "expected prometheus content type" (String.prefix "text/plain" content_type);;
    assert_eq "body" body text
  | _ => throw "body should read"
  end.

(** ** The write endpoint *)

Definition post_events_normalizes_http_source : Test unit unit :=
  fresh ← new_event Http "" [];
  let event := post_events (ev_id fresh) (ev_timestamp fresh)
    (mkIncomingEvent "event.manual.test" (as_bytes "{}") (mkEventMetadata (Some "trace-1") None None (Some "idem-1") None)) in
  assert_eq "source" (ev_source event) Http;;
  assert_eq "type" (as_str (ev_type event)) "event.manual.test";;
  assert_eq "payload" (ev_payload event) (as_bytes "{}");;
  assert_eq "trace" (trace_id (ev_metadata event)) (Some "trace-1");;
  assert_eq "key" (idempotency_key (ev_metadata event)) (Some "idem-1").

Definition github_webhook_normalizes_issue_opened : Test unit unit :=
  fresh ← new_event GitHub "" [];
  event ← expect "webhook should normalize"
    (lift (github_webhook (ev_id fresh) (ev_timestamp fresh) "issues" (Some "opened") (as_bytes "{}")));
  assert_eq "source" (ev_source event) GitHub;;
  assert_eq "type" (as_str (ev_type event)) EVENT_GITHUB_ISSUE_CREATED.

Definition one_job : RecordingHandler := RecordingHandler_new (EventHandlingReport_new ["job-1"] 0).

Definition post_events_route_dispatches_to_handler : Test (list EventEnvelope) unit :=
  response ← post (router one_job) json_headers request_body;
  status_is response STATUS_OK;;
  events ← look id;
  assert_eq "source and type" ((λ e, (ev_source e, as_str (ev_type e))) <$> events) [(Http, "event.manual.test")];;
  r ← event_response response;
  assert_eq "submitted" (head (resp_submitted r)) (Some "job-1");;
  assert_eq "failures" (resp_failure_count r) 0.

Definition post_events_through_ingest_persists_event : Test Ingesting unit :=
  response ← post (router (mkIngestEventHandler (memory_runtime TriggerRegistry_new))) json_headers request_body;
  status_is response STATUS_OK;;
  r ← event_response response;
  store ← look fst;
  assert_eq "stored" ((λ e, (EventId_to_string (ev_id e), ev_source e)) <$> es_all store) [(resp_event_id r, Http)].

Definition async_accept_returns_202_durably_stores_and_queues_for_dispatch : Test (SampleChannel * Ingesting) unit :=
  response ← post (router (mkAcceptEventHandler (memory_runtime TriggerRegistry_new))) json_headers request_body;
  status_is response ACCEPTED;;
  r ← event_response response;
  assert_eq "accepted" (resp_accepted r) true;;
  state ← look id;
  assert_eq "stored" (len (es_all state.2.1)) 1;;
  queued ← some "event queued for dispatch" (head (sent state.1));
  assert_eq "source" (ev_source queued) Http.

Definition invalid_json_is_rejected_before_handler : Test (list EventEnvelope) unit :=
  response ← post (router (RecordingHandler_new (EventHandlingReport_new [] 0))) json_headers (as_bytes "{not-json");
  status_is response BAD_REQUEST;;
  events ← look id;
  assert_eq "handled" events [].

(** *** Signatures *)

Definition sign (secret body : bytes) : string :=
  "sha256=" +:+ hex_encode match new_from_slice secret with Some mac => mac_finalize (mac_update body mac) | None => [] end.

Definition webhook_verifier_accepts_valid_and_rejects_tampered_or_missing : Test unit unit :=
  let secret := as_bytes "topsecret" in
  let body := json_object [json_field "event_type" (quoted "x")] in
  let verifier := WebhookVerifier_github secret in
  let headers := [("x-hub-signature-256", sign secret body)] in
  assert "valid" (verify verifier headers body);;
  assert "tampered" (negb (verify verifier headers (as_bytes "tampered body")));;
  assert "missing" (negb (verify verifier [] body)).

Definition signed_request_accepted_unsigned_rejected : Test (list EventEnvelope) unit :=
  let secret := as_bytes "shh" in
  let body := json_object [json_field "event_type" (quoted "event.manual.test"); json_field "payload" "[]"] in
  let app := router_with_verifier one_job (WebhookVerifier_github secret) in
  signed ← post app (json_headers ++ [("x-hub-signature-256", sign secret body)]) body;
  status_is signed STATUS_OK;;
  unsigned ← post app json_headers body;
  status_is unsigned UNAUTHORIZED;;
  events ← look id;
  assert_eq "only the signed request reached the handler" (len events) 1.

(** ** The read endpoints *)

Definition read (auth : option ReadAuth) (headers : HeaderMap) (request : ReadRequest) : Test Ingesting Response :=
  oneshot (read_router (memory_runtime TriggerRegistry_new) auth headers request).

Definition stores_event : Test Ingesting EventEnvelope :=
  event ← new_event Http "event.manual.test" (as_bytes "{}");
  expect "append" (on_store (es_append event));;
  mret event.

Definition whole_page : ListEventsQuery := mkListEventsQuery None None.

Definition read_router_gets_event_and_404s_unknown : Test Ingesting unit :=
  event ← stores_event;
  reaches read_routes GET (EVENTS_PATH +:+ "/{id}") GetEvent;;
  response ← read None [] (get_event (EventId_to_string (ev_id event)));
  status_is response STATUS_OK;;
  missing ← new_event Http "" [];
  response ← read None [] (get_event (EventId_to_string (ev_id missing)));
  status_is response NOT_FOUND.

Definition read_router_lists_events_and_dead_triggers : Test Ingesting unit :=
  stores_event;;
  reaches read_routes GET EVENTS_PATH ListEvents;;
  response ← read None [] (list_events whole_page);
  status_is response STATUS_OK;;
  assert "one event" match Http.body response with EventsBody [_] => true | _ => false end;;
  reaches read_routes GET DEAD_TRIGGERS_PATH ListDeadTriggers;;
  response ← read None [] list_dead_triggers;
  status_is response STATUS_OK.

Definition read_router_enforces_bearer_token_when_configured : Test Ingesting unit :=
  let auth := Some (mkReadAuth (as_bytes "s3cret")) in
  let request headers := read auth headers (list_events whole_page) in
  none ← request []; status_is none UNAUTHORIZED;;
  wrong ← request [("authorization", "Bearer nope")]; status_is wrong UNAUTHORIZED;;
  right ← request [("authorization", "Bearer s3cret")]; status_is right STATUS_OK.

Definition page_length (page : ListEventsQuery) (expected : Z) : Test Ingesting unit :=
  response ← read None [] (list_events page);
  status_is response STATUS_OK;;
  match Http.body response with
  | EventsBody events => assert_eq "page" (len events) expected
  | _ => throw "json"
  end.

Definition read_router_list_events_honors_limit_and_offset : Test Ingesting unit :=
  stores_event;; stores_event;; stores_event;;
  page_length (mkListEventsQuery (Some 2) None) 2;;
  page_length (mkListEventsQuery None (Some 2)) 1;;
  page_length (mkListEventsQuery (Some 1) (Some 1)) 1;;
  page_length (mkListEventsQuery None (Some 5)) 0.

(** ** The suite *)

Definition http_tests : list (result string unit) := [
  run_test healthz_is_ok_while_serving tt;
  run_test readyz_reflects_readiness_state tt;
  run_test metrics_endpoint_serves_rendered_text tt;
  run_test post_events_normalizes_http_source tt;
  run_test github_webhook_normalizes_issue_opened tt;
  run_test post_events_route_dispatches_to_handler [];
  run_test post_events_through_ingest_persists_event ingesting;
  run_test async_accept_returns_202_durably_stores_and_queues_for_dispatch (mkSampleChannel [] true, ingesting);
  run_test invalid_json_is_rejected_before_handler [];
  run_test webhook_verifier_accepts_valid_and_rejects_tampered_or_missing tt;
  run_test signed_request_accepted_unsigned_rejected [];
  run_test read_router_gets_event_and_404s_unknown ingesting;
  run_test read_router_lists_events_and_dead_triggers ingesting;
  run_test read_router_enforces_bearer_token_when_configured ingesting;
  run_test read_router_list_events_honors_limit_and_offset ingesting
].

Example http_tests_pass : passes http_tests.
Proof. assert (http_tests = replicate 15 (Ok tt)) as -> by (vm_compute; reflexivity). repeat constructor. Qed.
