(* ===== verification/CliTests.v ===== *)
(** * The tests of [crates/triggerlane-cli/src/main.rs], lines 1145-1494, run on the model

    The tests of the clap grammar are not here, and the sockets of the others are
    left out: the request is handed to the application. *)

From stdpp Require Import base gmap strings list.
From Stdlib Require Import ZArith Lia.
From S2P Require Import Prelude RustStd Event Trigger Retention Store Samples Runtime Ingest Http HttpRuns Config Cli CliRuns.
From S2P Require Import Concurrency Server.
From S2P Require Import Testing JsonText RuntimeTests HttpTests.
Local Open Scope Z_scope.

Local Existing Instances memory_Worklane memory_Broker text_IncomingEvent.

Definition parses {A} (r : result CliError A) : Test unit A := expect "value parses" (lift r).

Definition is_timeout_error (r : result CliError (option Z)) : bool := match r with Err (CliRequestTimeout _) => true | _ => false end.
Definition is_broker_error {A} (r : result CliError A) : bool := match r with Err (CliBroker _) => true | _ => false end.
Definition is_retention_error {A} (r : result CliError A) : bool := match r with Err (CliRetention _) => true | _ => false end.
Definition is_submission_error {A} (r : result CliError A) : bool := match r with Err (CliSubmission _) => true | _ => false end.

Definition inject_creates_manual_event : Test unit unit :=
  fresh ← new_event Manual "" [];
  let event := inject (ev_id fresh) (ev_timestamp fresh) "event.manual.test" (as_bytes "{}") in
  assert_eq "source" (ev_source event) Manual;;
  assert_eq "type" (as_str (ev_type event)) "event.manual.test";;
  assert_eq "payload" (ev_payload event) (as_bytes "{}").

Definition parse_request_timeout_handles_default_value_zero_and_invalid : Test unit unit :=
  unset ← parses (parse_request_timeout None);
  assert_eq "default" unset (Some (duration_from_secs DEFAULT_REQUEST_TIMEOUT_SECS));;
  five ← parses (parse_request_timeout (Some "5"));
  assert_eq "five" five (Some (duration_from_secs 5));;
  zero ← parses (parse_request_timeout (Some "0"));
  assert_eq "zero" zero None;;
  assert "invalid" (is_timeout_error (parse_request_timeout (Some "nope"))).

Definition parse_backend_selects_or_rejects : Test unit unit :=
  sqlite ← parses (parse_backend "sqlite"); assert_eq "sqlite" sqlite Sqlite;;
  postgres ← parses (parse_backend "postgres"); assert_eq "postgres" postgres Postgres;;
  redis ← parses (parse_backend "redis"); assert_eq "redis" redis Redis;;
  assert "unknown" (is_broker_error (parse_backend "mysql")).

Definition resolve_broker_url_applies_precedence_and_requires_a_source : Test unit unit :=
  let resolve url tl db := resolve_broker_url url tl db "DATABASE_URL" "postgres" in
  flag ← parses (resolve (Some "flag") (Some "tl") (Some "db"));
  assert_eq "flag wins" flag ("flag", "--url");;
  tl ← parses (resolve None (Some "tl") (Some "db"));
  assert_eq "triggerlane url wins" tl ("tl", "$TRIGGERLANE_WORKLANE_URL");;
  db ← parses (resolve None None (Some "db"));
  assert_eq "fallback used" db ("db", "$DATABASE_URL");;
  assert "no source" (is_broker_error (resolve_broker_url None None None "REDIS_URL" "redis")).

(** [chrono::Duration::seconds], [hours] and [days]. *)
Definition seconds (n : Z) : TimeDelta := n * nanos_per_sec.
Definition hours (n : Z) : TimeDelta := seconds (n * 3600).
Definition days (n : Z) : TimeDelta := hours (n * 24).

Definition parse_auto_retention_reads_bounds_and_disables : Test unit unit :=
  disabled ← parses (parse_auto_retention (Some "off") None (Some "0") None);
  assert "unbounded" (is_unbounded disabled);;
  policy ← parses (parse_auto_retention (Some "24h") (Some "30d") (Some "1000") (Some "4096"));
  assert_eq "grace" (delivered_grace policy) (Some (hours 24));;
  assert_eq "age" (max_age policy) (Some (days 30));;
  assert_eq "count" (max_count policy) (Some 1000);;
  assert_eq "bytes" (max_bytes policy) (Some 4096);;
  assert "invalid" (is_retention_error (parse_auto_retention (Some "nope") None None None));;
  defaulted ← parses (parse_auto_retention (Some DEFAULT_RETENTION_GRACE) None (Some DEFAULT_RETENTION_MAX_COUNT) None);
  assert_eq "default count" (max_count defaulted) (Some 1000000);;
  assert "default is bounded" (negb (is_unbounded defaulted)).

Definition parse_duration_handles_suffixes_and_rejects_bad_input : Test unit unit :=
  assert_eq "s" (parse_duration "30s") (Some (seconds 30));;
  assert_eq "m" (parse_duration "15m") (Some (seconds (15 * 60)));;
  assert_eq "h" (parse_duration "12h") (Some (hours 12));;
  assert_eq "d" (parse_duration "7d") (Some (days 7));;
  assert_eq "empty" (parse_duration EmptyString) None;;
  assert_eq "no suffix" (parse_duration "30") None;;
  assert_eq "non-numeric amount" (parse_duration "xd") None;;
  assert_eq "unknown unit" (parse_duration "5y") None;;
  assert_eq "negative" (parse_duration "-5d") None.

Definition parse_runtime_options_applies_defaults_floors_and_rejects : Test unit unit :=
  defaulted ← parses (parse_runtime_options None None);
  assert_eq "attempts" (max_submission_attempts defaulted) 3;;
  assert_eq "backoff" (submission_backoff defaulted) (duration_from_millis 100);;
  explicit ← parses (parse_runtime_options (Some "5") (Some "250"));
  assert_eq "attempts" (max_submission_attempts explicit) 5;;
  assert_eq "backoff" (submission_backoff explicit) (duration_from_millis 250);;
  zero ← parses (parse_runtime_options (Some "0") (Some "0"));
  assert_eq "attempts floor at 1" (max_submission_attempts zero) 1;;
  assert "attempts" (is_submission_error (parse_runtime_options (Some "nope") None));;
  assert "backoff" (is_submission_error (parse_runtime_options None (Some "soon"))).

Definition resolve_prune_policy_maps_subcommands_and_rejects_bad_input : Test unit unit :=
  let now := 1767225600 * nanos_per_sec in
  assert "keep" match resolve_prune_policy now (PruneKeep 100) with Some (Ok (KeepMostRecent 100)) => true | _ => false end;;
  assert "older than" match resolve_prune_policy now (PruneOlderThan "30d") with Some (Ok (OlderThan _)) => true | _ => false end;;
  assert "invalid" match resolve_prune_policy now (PruneOlderThan "nope") with Some r => is_retention_error r | None => false end.

(** ** The server *)

(** A handler that never completes awaits until the timeout answers for it. *)
Definition request_exceeding_timeout_returns_408 : Test unit unit :=
  event ← new_event Http "event.manual.test" [];
  let slow := SyncRequest (Handling event) in
  assert "408" match with_request_timeout (Some (duration_from_millis 50)) slow with
               | Some (Answered REQUEST_TIMEOUT) => true
               | _ => false
               end;;
  assert "no timeout" match with_request_timeout None slow with None => true | Some _ => false end.

Definition shutdown_resolves_when_terminate_source_fires : Test unit unit :=
  assert_eq "resolves" (wait_for_first None (Some 0)) (Some 0).

Definition shutdown_resolves_when_interrupt_source_fires : Test unit unit :=
  assert_eq "resolves" (wait_for_first (Some 0) None) (Some 0).

Definition open_config : ServeConfig := mkServeConfig None None (Some (duration_from_secs 30)) None unbounded 0.

Definition serve_handles_posted_event_over_socket : Test (SampleChannel * Ingesting) unit :=
  fresh ← new_event Http "" [];
  response ← oneshot (serve_ingest open_config (memory_runtime default_registry) Readiness_ready (λ _, EmptyString)
    (ev_id fresh) (ev_timestamp fresh) (ToEvents json_headers request_body));
  status_is response STATUS_OK;;
  state ← look id;
  assert_eq "stored" (len (es_all state.2.1)) 1.

(** ** The suite *)

Definition cli_tests : list (Test unit unit) := [
  inject_creates_manual_event;
  parse_request_timeout_handles_default_value_zero_and_invalid;
  parse_backend_selects_or_rejects;
  resolve_broker_url_applies_precedence_and_requires_a_source;
  parse_auto_retention_reads_bounds_and_disables;
  parse_duration_handles_suffixes_and_rejects_bad_input;
  parse_runtime_options_applies_defaults_floors_and_rejects;
  resolve_prune_policy_maps_subcommands_and_rejects_bad_input;
  request_exceeding_timeout_returns_408;
  shutdown_resolves_when_terminate_source_fires;
  shutdown_resolves_when_interrupt_source_fires
].

Definition cli_outcomes : list (result string unit) :=
  ((λ t, run_test t tt) <$> cli_tests) ++
  [run_test serve_handles_posted_event_over_socket (mkSampleChannel [] true, ingesting)].

Example cli_tests_pass : passes cli_outcomes.
Proof. assert (cli_outcomes = replicate 12 (Ok tt)) as -> by (vm_compute; reflexivity). repeat constructor. Qed.
