(* ===== verification/ExampleMain.v ===== *)
(** * The example program: [examples/src/main.rs]

    One trigger, one event, one job: the registry, the runtime, the store and
    Worklane's broker put together. What it prints is a list of lines. *)

From stdpp Require Import base gmap strings list pretty.
From Stdlib Require Import ZArith Lia.
From S2P Require Import Prelude RustStd Event Trigger Retention Store Samples Runtime Submission Handling Ingest Delivery.
From S2P Require Import Testing RuntimeTests.
Local Open Scope Z_scope.

(** What the program also calls of a broker: reserving a job of a lane, of which
    it reads the kind. *)
Class Reserving `{Worklane} (B : Type) := {
  Reservation : Type;
  reservation_kind : Reservation → string;
  broker_reserve : Lane → M B Error (option Reservation);
}.

(** [Box<dyn std::error::Error>], by what [?] boxes. *)
Inductive BoxedError `{Worklane} :=
| BoxedRuntime (e : RuntimeError)
| BoxedLane (e : string)
| BoxedBroker (e : Error).

Section main.
Context `{UuidText} `{Worklane} {B : Type} `{!Broker B} `{!Reserving B}.

Definition example_registry : TriggerRegistry :=
  register TriggerRegistry_new
    (RegisteredTrigger_new "github-issue-projection" 10
       (mkEventTypeTrigger (mkEventType EVENT_GITHUB_ISSUE_CREATED))
       (WorklaneJobBinding_new "projection" "CreateProjectionJob" 3)).

Definition example_event (fresh : EventId) (now : DateTime) : EventEnvelope :=
  EventEnvelope_new fresh now GitHub (mkEventType EVENT_GITHUB_ISSUE_CREATED)
    issue_payload.

Local Abbreviation I := (InMemoryEventStore * World B InMemoryDeadTriggerQueue NoopTraceSink)%type.

(** The lines printed, and the state of the ingestion. *)
Local Abbreviation X := (list string * I)%type.

Definition println {E} (line : string) : M X E unit := modify (λ x, (x.1 ++ [line], x.2)).
Definition on_ingest {E A} (m : M I E A) : M X E A := zoom snd (λ i x, (x.1, i)) m.

Definition ingested_line (report : IngestReport) (stored : Z) : string :=
  "ingested " +:+ ir_event_id report +:+ " (" +:+ pretty stored +:+ " stored, "
    +:+ pretty (len (submitted (ir_handle report))) +:+ " submitted)".

(** [main], after the broker [b] is made. *)
Definition main_body (fresh : EventId) (now : DateTime) (runtime : TriggerRuntime) : M X BoxedError unit :=
  report ← mapM_err BoxedRuntime (on_ingest (ingest runtime (example_event fresh now)));
  stored ← gets (λ x : X, len (es_all x.2.1));
  println (ingested_line report stored);;
  lane ← mapM_err BoxedLane (lift (lane_try_from "projection"));
  reserved ← mapM_err BoxedBroker (on_ingest (on_world (on_broker (broker_reserve lane))));
  match reserved with
  | Some reservation => println ("submitted " +:+ reservation_kind reservation)
  | None => mret tt
  end.

Definition example_main (b : B) (fresh : EventId) (now : DateTime) : result BoxedError unit * X :=
  let '(runtime, world) := TriggerRuntime_new example_registry b in
  main_body fresh now runtime ([], (InMemoryEventStore_new, world)).
End main.

(** ** What it does *)

Section theorem.
Context `{UuidText} `{Worklane} {B : Type} `{!Broker B} `{!Reserving B}.
Local Abbreviation W := (World B InMemoryDeadTriggerQueue NoopTraceSink).

(** The event matches the one trigger, whose job is submitted or recorded as a
    dead trigger: the in-memory queue does not fail. *)
Lemma example_handle (b : B) fresh now (w : W) :
  let self := (TriggerRuntime_new example_registry b).1 in
  ∃ report w', handle self (example_event fresh now) w = (Ok report, w') ∧
    records (w_dead_triggers w') = records (w_dead_triggers w) ++ failed report ∧
    (length (submitted report) + length (failed report) = 1)%nat.
Proof.
  intros self. pose proof (handle_run self (example_event fresh now) w) as Hr.
  destruct (handle self (example_event fresh now) w) as [[report|x] w'] eqn:Hh.
  - destruct Hr as (outcomes & Hos & -> & _ & Hrec & _). eexists _, w'. split_and!; [done|done|].
    assert (length outcomes = 1%nat) as Hlen by (by rewrite <-(length_fmap fst), Hos).
    destruct outcomes as [|[reg [id|e]] [|? ?]]; done.
  - exfalso. unfold handle in Hh. simpl in Hh. unfold mbind, M_bind, catch in Hh. simpl in Hh.
    repeat case_match; simplify_eq/=.
Qed.

Lemma example_ingest (b : B) fresh now (w : W) :
  let self := (TriggerRuntime_new example_registry b).1 in
  let event := example_event fresh now in
  ∃ report w', handle self event w = (Ok report, w') ∧
    ingest self event (InMemoryEventStore_new, w) =
      (Ok (mkIngestReport (EventId_to_string fresh) report false), (mkInMemoryEventStore [event] {[fresh]}, w')).
Proof.
  intros self event. destruct (example_handle b fresh now w) as (report & w' & Hh & _).
  exists report, w'. split; [exact Hh|]. unfold ingest, existing_event, gets, mbind, M_bind. simpl.
  unfold mapM_err, on_store, on_world, zoom. simpl.
  match goal with |- context [handle ?a ?b ?c] => change (handle a b c) with (handle self event w) end.
  unfold event, self. rewrite Hh. simpl. rewrite (right_id_L ∅ (∪)). done.
Qed.

(** The line about the event, and nothing undelivered. *)
Lemma example_stored fresh now :
  let store := mkInMemoryEventStore [example_event fresh now] {[fresh]} in
  es_all store = [example_event fresh now] ∧ es_undelivered store = [].
Proof.
  split; [done|]. simpl. unfold mem_undelivered. simpl. rewrite filter_cons, decide_False; [done|].
  intros Hn. apply Hn. set_solver.
Qed.

(** Whatever the broker does with the job, the example stores its event,
    leaves none undelivered, and says so on the first line it prints, with the
    number of jobs submitted: one, or none and the failure is kept as a dead
    trigger. It prints at most one line more, the kind of the job it reserves,
    and fails only where the broker's lane or its reservation does. *)
Theorem example_reports_its_event (b : B) fresh now :
  let event := example_event fresh now in
  let '(r, (lines, (store, w))) := example_main b fresh now in
  es_all store = [event] ∧ es_undelivered store = [] ∧
  (∃ (n : Z) more, lines = ("ingested " +:+ EventId_to_string fresh +:+ " (1 stored, " +:+ pretty n +:+ " submitted)") :: more ∧
    n + len (records (w_dead_triggers w)) = 1 ∧ 0 <= n ∧
    match r with
    | Ok _ => more = [] ∨ ∃ reservation, more = ["submitted " +:+ reservation_kind reservation]
    | Err e => more = [] ∧ ∀ e', e ≠ BoxedRuntime e'
    end).
Proof.
  intros event. unfold example_main. destruct (TriggerRuntime_new example_registry b) as [self w0] eqn:Hnew.
  assert (self = (TriggerRuntime_new example_registry b).1 ∧ records (w_dead_triggers w0) = []) as [-> Hw0]
    by (injection Hnew as <- <-; done).
  destruct (example_handle b fresh now w0) as (report & w1 & Hh & Hrec & Hn).
  destruct (example_ingest b fresh now w0) as (report' & w1' & Hh' & Hi).
  rewrite Hh in Hh'. injection Hh' as <- <-. rewrite Hw0 in Hrec.
  unfold main_body, on_ingest, mapM_err, zoom, mbind, M_bind, gets, println, modify, lift.
  cbn [fst snd]. rewrite Hi. cbn [fst snd map_err]. destruct (example_stored fresh now) as [Hall Hund].
  rewrite Hall. unfold ingested_line. cbn [ir_handle ir_event_id].
  assert (len (submitted report) + len (failed report) = 1) as Hlen by (unfold len; lia).
  assert (0 <= len (submitted report)) by (unfold len; lia).
  change (records (w_dead_triggers w1) = failed report) in Hrec. rewrite <-Hrec in Hlen.
  destruct (lane_try_from "projection") as [lane|e]; unfold on_world, on_broker, zoom; cbn.
  2: { split_and!; try done. eexists _, _. split_and!; done. }
  destruct (broker_reserve lane (w_broker w1)) as [[[reservation|]|e] b']; cbn; (split; [done|split; [done|]]);
    eexists (len (submitted report)), _; split_and!; try done; eauto.
Qed.
End theorem.

(** ** With the in-memory broker *)

Local Existing Instances memory_Worklane memory_Broker.
Local Instance memory_Reserving : Reserving MemoryBroker := {
  Reservation := MemoryJob;
  reservation_kind := mj_kind;
  broker_reserve lane := λ jobs, (Ok (reserve lane jobs), jobs);
}.

(** What is printed when the program succeeds. *)
Definition printed (b : MemoryBroker) (fresh : EventId) (now : DateTime) : option (list string) :=
  match example_main b fresh now with (Ok _, (lines, _)) => Some lines | _ => None end.

Example example_output :
  printed [] (mkEventId 7) 0 =
    Some ["ingested " +:+ EventId_to_string (mkEventId 7) +:+ " (1 stored, 1 submitted)";
          "submitted CreateProjectionJob"].
Proof. vm_compute. reflexivity. Qed.
