(* ===== verification/Invoker.v ===== *)
(** * The example worker: [examples/invoker/src/lib.rs]

    A Worklane consumer that runs each reserved job through an external invoker
    (an HTTP endpoint or a subprocess) under a deadline, extends the reservation
    while it runs, and resolves it. The consumer side of Worklane, hyper and the
    child process are parameters. Time is ideal: a timer fires at its instant,
    and the calls to the broker take none. *)

From stdpp Require Import base gmap strings list pretty.
From Stdlib Require Import ZArith Lia.
From S2P Require Import Prelude RustStd Event Retention.
Local Open Scope Z_scope.

(** ** What the worker uses of [worklane_core] *)

Record JobEnvelope (JobId : Type) := mkJobEnvelope {
  je_id : JobId;
  je_lane : string;
  je_kind : string;
  je_payload : bytes;
  je_attempts : Z;
  je_max_attempts : Z;
}.
Arguments mkJobEnvelope {JobId} _ _ _ _ _ _.
Arguments je_id {JobId} _.
Arguments je_lane {JobId} _.
Arguments je_kind {JobId} _.
Arguments je_payload {JobId} _.
Arguments je_attempts {JobId} _.
Arguments je_max_attempts {JobId} _.

Record DeadLetter (JobId : Type) := mkDeadLetter {
  dl_envelope : JobEnvelope JobId;
  dl_error : string;
}.
Arguments mkDeadLetter {JobId} _ _.
Arguments dl_envelope {JobId} _.
Arguments dl_error {JobId} _.

(** The consumer's calls; [is_stale] tells [Error::StaleReservation] from the
    other errors. *)
Class Consumer (B : Type) := {
  CJobId : Type;
  Receipt : Type;
  CError : Type;
  is_stale : CError → bool;
  CError_to_string : CError → string;
  reserve : string → M B CError (option (JobEnvelope CJobId * Receipt * Z));
  extend : Receipt → M B CError unit;
  ack : Receipt → M B CError unit;
  retry : Receipt → Z → M B CError unit;
  fail : Receipt → string → M B CError unit;
  read_dead_letters : string → Z → M B CError (list (DeadLetter CJobId));
  requeue : CJobId → M B CError unit;
}.

(** ** Jobs and results *)

Record InvocationJob (JobId : Type) := mkInvocationJob {
  ij_id : JobId;
  ij_kind : string;
  ij_payload : bytes;
  ij_attempts : Z;
  ij_max_attempts : Z;
}.
Arguments mkInvocationJob {JobId} _ _ _ _ _.
Arguments ij_id {JobId} _.
Arguments ij_kind {JobId} _.
Arguments ij_payload {JobId} _.
Arguments ij_attempts {JobId} _.
Arguments ij_max_attempts {JobId} _.

Record DeadInvocationJob (JobId : Type) := mkDeadInvocationJob {
  dij_id : JobId;
  dij_lane : string;
  dij_kind : string;
  dij_payload : bytes;
  dij_attempts : Z;
  dij_max_attempts : Z;
  dij_error : string;
}.
Arguments mkDeadInvocationJob {JobId} _ _ _ _ _ _ _.

Definition from_dead_letter {JobId} (dead_letter : DeadLetter JobId) : DeadInvocationJob JobId :=
  let envelope := dl_envelope dead_letter in
  mkDeadInvocationJob (je_id envelope) (je_lane envelope) (je_kind envelope) (je_payload envelope)
    (je_attempts envelope) (je_max_attempts envelope) (dl_error dead_letter).

Inductive InvocationResult :=
| Success
| RetryableFailure (error : string)
| TerminalFailure (error : string).

(** [trait ExternalInvoker], for an invoker [V]: the result of an invocation. *)
Class ExternalInvoker (JobId V : Type) := invoke : V → InvocationJob JobId → InvocationResult.

(** ** The HTTP invoker *)

(** What an endpoint is sent, and the status codes that end a job. *)
Record HttpEndpoint := mkHttpEndpoint {
  he_url : string;
  he_method : string;
  he_headers : list (string * string);
  he_terminal_status_codes : list Z;
}.

Inductive HttpEndpointError :=
| InvalidUri (e : string)
| InvalidHeaderName (e : string)
| InvalidHeaderValue (e : string).

Definition HttpEndpointError_to_string (e : HttpEndpointError) : string :=
  match e with
  | InvalidUri e => "invalid URI: " +:+ e
  | InvalidHeaderName e => "invalid header name: " +:+ e
  | InvalidHeaderValue e => "invalid header value: " +:+ e
  end.

(** [HttpEndpoint::new], after the URI parser. *)
Definition HttpEndpoint_new (from_str : string → result string string) (url : string)
    : result HttpEndpointError HttpEndpoint :=
  url ← map_err InvalidUri (from_str url);
  mret (mkHttpEndpoint url "POST" [] []).

Definition he_with_method (self : HttpEndpoint) (method : string) : HttpEndpoint :=
  mkHttpEndpoint (he_url self) method (he_headers self) (he_terminal_status_codes self).

Definition he_with_header (name_from_str value_from_str : string → result string string) (self : HttpEndpoint)
    (name value : string) : result HttpEndpointError HttpEndpoint :=
  name ← map_err InvalidHeaderName (name_from_str name);
  value ← map_err InvalidHeaderValue (value_from_str value);
  mret (mkHttpEndpoint (he_url self) (he_method self) (he_headers self ++ [(name, value)])
          (he_terminal_status_codes self)).

Definition he_with_terminal_status_code (self : HttpEndpoint) (status : Z) : HttpEndpoint :=
  mkHttpEndpoint (he_url self) (he_method self) (he_headers self) (he_terminal_status_codes self ++ [status]).

(** What [HttpTransport::send] answers, and the text of a status. *)
Class HttpTransport (T : Type) := {
  transport_send : T → HttpEndpoint → bytes → result string Z;
  status_to_string : Z → string;
}.

Record HttpInvoker (T : Type) := mkHttpInvoker {
  hi_endpoints : gmap string HttpEndpoint;
  hi_transport : T;
}.
Arguments mkHttpInvoker {T} _ _.
Arguments hi_endpoints {T} _.
Arguments hi_transport {T} _.

Definition with_transport {T} (transport : T) : HttpInvoker T := mkHttpInvoker ∅ transport.

Definition hi_register {T} (self : HttpInvoker T) (kind : string) (endpoint : HttpEndpoint) : HttpInvoker T :=
  mkHttpInvoker (<[kind := endpoint]> (hi_endpoints self)) (hi_transport self).

(** [StatusCode::is_success]. *)
Definition is_success (status : Z) : bool := between 200 299 status.

#[export] Instance HttpInvoker_ExternalInvoker {T JobId} `{HttpTransport T} : ExternalInvoker JobId (HttpInvoker T) := λ self job,
  match hi_endpoints self !! ij_kind job with
  | None => TerminalFailure ("no HTTP endpoint configured for kind " +:+ ij_kind job)
  | Some endpoint =>
    match transport_send (hi_transport self) endpoint (ij_payload job) with
    | Ok status =>
      if is_success status then Success
      else if bool_decide (status ∈ he_terminal_status_codes endpoint) then
        TerminalFailure ("HTTP endpoint returned terminal status " +:+ status_to_string status)
      else RetryableFailure ("HTTP endpoint returned status " +:+ status_to_string status)
    | Err error => RetryableFailure error
    end
  end.

(** [send_http_request], by what its three calls answer: the whole response must
    be read. *)
Inductive HttpInvocationError :=
| RequestBuild (error : string)
| TransportFailed (error : string)
| BodyFailed (error : string).

Definition HttpInvocationError_to_string (e : HttpInvocationError) : string :=
  match e with
  | RequestBuild error => "failed to build HTTP request: " +:+ error
  | TransportFailed error => "HTTP transport failed: " +:+ error
  | BodyFailed error => "failed to read HTTP response body: " +:+ error
  end.

Definition send_http_request (build : result string unit) (request : result string Z) (collect : result string unit)
    : result HttpInvocationError Z :=
  _ ← map_err RequestBuild build;
  status ← map_err TransportFailed request;
  _ ← map_err BodyFailed collect;
  mret status.

(** [HyperHttpTransport]: a client of hyper's is made for each request. *)
Inductive HyperHttpTransport := HyperTransport.

(** What hyper answers to the three calls. *)
Class Hyper := {
  request_build : HttpEndpoint → bytes → result string unit;
  client_request : HttpEndpoint → bytes → result string Z;
  collect_body : HttpEndpoint → bytes → result string unit;
  StatusCode_to_string : Z → string;
}.

#[export] Instance HyperHttpTransport_HttpTransport `{Hyper} : HttpTransport HyperHttpTransport := {
  transport_send _ endpoint payload :=
    map_err HttpInvocationError_to_string
      (send_http_request (request_build endpoint payload) (client_request endpoint payload) (collect_body endpoint payload));
  status_to_string := StatusCode_to_string;
}.

Definition HttpInvoker_new : HttpInvoker HyperHttpTransport := with_transport HyperTransport.

(** ** The subprocess invoker *)

Record SubprocessCommand := mkSubprocessCommand {
  sc_program : string;
  sc_args : list string;
  sc_terminal_exit_codes : list Z;
}.

Definition SubprocessCommand_new (program : string) : SubprocessCommand := mkSubprocessCommand program [] [].
Definition sc_arg (self : SubprocessCommand) (arg : string) : SubprocessCommand :=
  mkSubprocessCommand (sc_program self) (sc_args self ++ [arg]) (sc_terminal_exit_codes self).
Definition sc_terminal_exit_code (self : SubprocessCommand) (code : Z) : SubprocessCommand :=
  mkSubprocessCommand (sc_program self) (sc_args self) (sc_terminal_exit_codes self ++ [code]).

(** [Output]: the exit code ([None] when a signal ended the process) and what it
    wrote to its standard error. *)
Record Output := mkOutput {
  out_code : option Z;
  out_stderr : bytes;
}.

(** What the operating system answers to the three steps of [run_subprocess]. *)
Class Processes (P : Type) := {
  spawn : P → SubprocessCommand → result io_error unit;
  write_stdin : P → SubprocessCommand → bytes → result io_error unit;
  wait_with_output : P → SubprocessCommand → bytes → result io_error Output;
}.

Definition run_subprocess {P} `{Processes P} (os : P) (command : SubprocessCommand) (payload : bytes)
    : result io_error Output :=
  _ ← spawn os command;
  _ ← write_stdin os command payload;
  wait_with_output os command payload.

Definition subprocess_failure_message (code : Z) (stderr : bytes) : string :=
  let stderr := trim (of_chars (utf8_lossy stderr)) in
  if bool_decide (stderr = "") then "subprocess exited with code " +:+ pretty code
  else "subprocess exited with code " +:+ pretty code +:+ ": " +:+ stderr.

Record SubprocessInvoker (P : Type) := mkSubprocessInvoker {
  si_commands : gmap string SubprocessCommand;
  si_os : P;
}.
Arguments mkSubprocessInvoker {P} _ _.
Arguments si_commands {P} _.
Arguments si_os {P} _.

Definition SubprocessInvoker_new {P} (os : P) : SubprocessInvoker P := mkSubprocessInvoker ∅ os.

Definition si_register {P} (self : SubprocessInvoker P) (kind : string) (command : SubprocessCommand)
    : SubprocessInvoker P :=
  mkSubprocessInvoker (<[kind := command]> (si_commands self)) (si_os self).

#[export] Instance SubprocessInvoker_ExternalInvoker {P JobId} `{Processes P} : ExternalInvoker JobId (SubprocessInvoker P) := λ self job,
  match si_commands self !! ij_kind job with
  | None => TerminalFailure ("no subprocess configured for kind " +:+ ij_kind job)
  | Some command =>
    match run_subprocess (si_os self) command (ij_payload job) with
    | Ok output =>
      if bool_decide (out_code output = Some 0) then Success
      else
        let code := default (-1) (out_code output) in
        let message := subprocess_failure_message code (out_stderr output) in
        if bool_decide (code ∈ sc_terminal_exit_codes command) then TerminalFailure message
        else RetryableFailure message
    | Err error => RetryableFailure (io_message error)
    end
  end.

(** ** The runtime *)

(** [InvokerConfig], with [RetryPolicy::delay_for]. *)
Record InvokerConfig := mkInvokerConfig {
  ic_lane : string;
  ic_deadline : Z;
  ic_delay_for : Z → Z;
}.

(** [InvokerConfig::new]; [default_delay] is the default policy's. *)
Definition InvokerConfig_new (default_delay : Z → Z) (lane : string) (deadline : Z) : InvokerConfig :=
  mkInvokerConfig lane deadline default_delay.

Inductive ProcessOutcome :=
| Idle
| Acked
| Retried (delay : Z)
| OutcomeFailed (error : string)
| StaleResolution.

Inductive BoundedInvocation :=
| Completed (result : InvocationResult)
| TimedOut
| HeartbeatFailed (error : string).

Definition heartbeat_delay (lease : Z) : Z := Z.max (lease / 2) (duration_from_millis 1).

(** The branches of the [select!]. *)
Inductive Branch := OnInvocation | OnDeadline | OnHeartbeat.

Section runtime.
Context {B : Type} `{Consumer B}.
Local Abbreviation Job := (JobEnvelope CJobId).

(** [struct Reservation]. *)
Record Reservation := mkReservation {
  envelope : Job;
  receipt : Receipt;
  lease : Z;
}.

Definition of_reserve (r : Job * Receipt * Z) : Reservation := let '(e, c, l) := r in mkReservation e c l.

Definition from_reservation (reservation : Reservation) : InvocationJob CJobId :=
  let envelope := envelope reservation in
  mkInvocationJob (je_id envelope) (je_kind envelope) (je_payload envelope) (je_attempts envelope)
    (je_max_attempts envelope).

(** One call of [extend]: when it began and returned, and its answer. *)
Record Extension := mkExtension {
  ext_start : Z;
  ext_end : Z;
  ext_answer : result CError unit;
}.

(** How [run_bounded] ends, and when; or that it does not: an [extend] begun at
    [since] never answers. With the extensions that returned. *)
Inductive BoundedRun :=
| Ended (invocation : BoundedInvocation) (t : Z) (extensions : list Extension) (b : B)
| Hanging (since : Z) (extensions : list Extension).

Section run_bounded.
(** From when on a poll finds the invocation finished, counted from its start, and
    with what; [None] when it never does. *)
Variable finish : option (Z * InvocationResult).
Variable deadline : Z.
(** The order in which the [select!] polled at an instant tries its branches: it
    is random. *)
Variable order : Z → list Branch.
(** How long the broker takes to answer an [extend] called at an instant; [None]
    when it never does. *)
Variable latency : Z → option Z.
Variable delay : Z.
Variable rc : Receipt.

(** When the loop, back at its [select!] at [current], goes on: at once, if a branch
    is due, or when the first one is. *)
Definition next_due (enabled : bool) (heartbeat current : Z) : Z :=
  let due := match finish with Some (t, _) => Z.min deadline t | None => deadline end in
  Z.max current (if enabled then Z.min due heartbeat else due).

Definition ready (enabled : bool) (heartbeat : Z) (now : Z) (branch : Branch) : bool :=
  match branch with
  | OnInvocation => match finish with Some (t, _) => t <=? now | None => false end
  | OnDeadline => deadline <=? now
  | OnHeartbeat => enabled && (heartbeat <=? now)
  end.

(** The loop of [run_bounded]. Its [extend] is awaited inside the branch: until it
    answers, neither the invocation nor the deadline is polled. [None] when the fuel
    runs out. *)
Fixpoint run_bounded_loop (fuel : nat) (enabled : bool) (heartbeat current : Z) (extensions : list Extension) (b : B)
    : option BoundedRun :=
  match fuel with
  | O => None
  | S fuel =>
    let now := next_due enabled heartbeat current in
    match List.find (ready enabled heartbeat now) (order now) with
    | Some OnInvocation =>
      match finish with
      | Some (_, result) => Some (Ended (Completed result) now extensions b)
      | None => None
      end
    | Some OnDeadline => Some (Ended TimedOut now extensions b)
    | Some OnHeartbeat =>
      match latency now with
      | None => Some (Hanging now extensions)
      | Some d =>
        let current := now + d in
        let '(answer, b) := extend rc b in
        let extensions := extensions ++ [mkExtension now current answer] in
        match answer with
        | Ok _ => run_bounded_loop fuel true (current + delay) current extensions b
        | Err error =>
          if is_stale error then run_bounded_loop fuel false heartbeat current extensions b
          else Some (Ended (HeartbeatFailed (CError_to_string error)) current extensions b)
        end
      end
    | None => None
    end
  end.
End run_bounded.

(** Enough fuel: one turn per heartbeat before the deadline, and three more. *)
Definition bounded_fuel (deadline delay : Z) : nat := Z.to_nat (deadline / delay) + 3.

Definition run_bounded (finish : option (Z * InvocationResult)) (order : Z → list Branch) (latency : Z → option Z)
    (config : InvokerConfig) (reservation : Reservation) (b : B) : option BoundedRun :=
  let delay := heartbeat_delay (lease reservation) in
  run_bounded_loop finish (ic_deadline config) order latency delay (receipt reservation)
    (bounded_fuel (ic_deadline config) delay) true delay 0 [] b.

(** *** Resolving a reservation *)

Inductive InvokerError := InvokerError_Broker (error : CError).

Definition resolve_with (outcome : ProcessOutcome) (m : M B CError unit) : M B InvokerError ProcessOutcome := λ b,
  match m b with
  | (Ok _, b) => (Ok outcome, b)
  | (Err error, b) => if is_stale error then (Ok StaleResolution, b) else (Err (InvokerError_Broker error), b)
  end.

Definition resolve_ack (m : M B CError unit) : M B InvokerError ProcessOutcome := resolve_with Acked m.
Definition resolve_retry (m : M B CError unit) (delay : Z) : M B InvokerError ProcessOutcome :=
  resolve_with (Retried delay) m.
Definition resolve_fail (m : M B CError unit) (error_message : string) : M B InvokerError ProcessOutcome :=
  resolve_with (OutcomeFailed error_message) m.

(** [attempts + 1] on [u32]. *)
Definition retry_or_fail (config : InvokerConfig) (reservation : Reservation) (error : string)
    : M B InvokerError ProcessOutcome :=
  let completed_attempts := wrapping_add_u32 (je_attempts (envelope reservation)) 1 in
  if completed_attempts <? je_max_attempts (envelope reservation) then
    let delay := ic_delay_for config (je_attempts (envelope reservation)) in
    resolve_retry (retry (receipt reservation) delay) delay
  else resolve_fail (fail (receipt reservation) error) error.

Definition resolve (config : InvokerConfig) (reservation : Reservation) (invocation : BoundedInvocation)
    : M B InvokerError ProcessOutcome :=
  match invocation with
  | Completed Success => resolve_ack (ack (receipt reservation))
  | Completed (RetryableFailure error) => retry_or_fail config reservation error
  | TimedOut => retry_or_fail config reservation "invocation timed out"
  | Completed (TerminalFailure error) | HeartbeatFailed error =>
    resolve_fail (fail (receipt reservation) error) error
  end.

(** [process_reservation]: the invoker's result, [takes] telling when it is there.
    [None] when it never returns. *)
Definition process_reservation {V} `{!ExternalInvoker CJobId V} (config : InvokerConfig) (invoker : V)
    (takes : InvocationJob CJobId → option Z) (order : Z → list Branch) (latency : Z → option Z)
    (reservation : Reservation) (b : B) : option (result InvokerError ProcessOutcome * B) :=
  let job := from_reservation reservation in
  let finish := (λ t, (t, invoke invoker job)) <$> takes job in
  run ← run_bounded finish order latency config reservation b;
  match run with
  | Ended invocation _ _ b => Some (resolve config reservation invocation b)
  | Hanging _ _ => None
  end.

Definition process_once {V} `{!ExternalInvoker CJobId V} (config : InvokerConfig) (invoker : V)
    (takes : InvocationJob CJobId → option Z) (order : Z → list Branch) (latency : Z → option Z) (b : B)
    : option (result InvokerError ProcessOutcome * B) :=
  match reserve (ic_lane config) b with
  | (Err error, b) => Some (Err (InvokerError_Broker error), b)
  | (Ok None, b) => Some (Ok Idle, b)
  | (Ok (Some r), b) => process_reservation config invoker takes order latency (of_reserve r) b
  end.

Definition list_dead_letters (lane : string) (limit : Z) : M B InvokerError (list (DeadInvocationJob CJobId)) :=
  records ← mapM_err InvokerError_Broker (read_dead_letters lane limit);
  mret (from_dead_letter <$> records).

Definition requeue_dead_letter (id : CJobId) : M B InvokerError unit :=
  mapM_err InvokerError_Broker (requeue id).
End runtime.
