(* ===== verification/InvokerSpec.v ===== *)
(** * What the example worker guarantees

    The bounded invocation ends by its deadline, unless an extension of its
    reservation is under way then, and keeps its reservation alive until then; a
    reservation is resolved once, as the invocation's result and the attempts say; a
    job is tried at most as often as it may be, redeliveries aside. *)

From stdpp Require Import base gmap strings list pretty.
From Stdlib Require Import ZArith Lia.
From S2P Require Import Prelude RustStd Event Retention Invoker.
Local Open Scope Z_scope.

Section spec.
Context {B : Type} `{Consumer B}.
Implicit Types (config : InvokerConfig) (b : B).

(** Every poll of the [select!] tries each branch once. *)
Definition fair (order : Z → list Branch) : Prop :=
  ∀ t, order t ≡ₚ [OnInvocation; OnDeadline; OnHeartbeat].

Lemma find_ready order (p : Branch → bool) now :
  fair order → (∃ br, p br = true) → ∃ br, List.find p (order now) = Some br ∧ p br = true.
Proof.
  intros Hf [br Hbr]. destruct (List.find p (order now)) as [br'|] eqn:Hfind.
  - exists br'. split; [done|]. by apply List.find_some in Hfind as [_ Hp].
  - apply (List.find_none _ _) with (x := br) in Hfind; [congruence|].
    apply list_elem_of_In. rewrite (Hf now). destruct br; set_solver.
Qed.

(** *** The extensions of a run *)

Definition last_end (extensions : list Extension) : Z := match last extensions with Some x => ext_end x | None => 0 end.

Definition answered (x : Extension) : Prop := is_ok (ext_answer x) = true.

(** Every extension was answered, until the last one perhaps, by a broker that calls
    the reservation stale. *)
Definition refused (extensions : list Extension) (stale : bool) (error : CError) : Prop :=
  ∃ x, last extensions = Some x ∧ ext_answer x = Err error ∧ is_stale error = stale.

Lemma last_end_snoc l x : last_end (l ++ [x]) = ext_end x.
Proof. unfold last_end. by rewrite last_snoc. Qed.

Section run.
Context (finish : option (Z * InvocationResult)) (deadline delay : Z) (order : Z → list Branch).
Context (latency : Z → option Z) (rc : Receipt).

Definition not_finished_before (t : Z) : Prop := match finish with Some (tf, _) => t <= tf | None => True end.

(** The heartbeats: each a delay after the one before it was answered, by the
    deadline, while the result was not there. *)
Inductive paced : list Extension → Prop :=
| paced_nil : paced []
| paced_snoc l x :
    paced l → Forall answered l → ext_start x = last_end l + delay →
    latency (ext_start x) = Some (ext_end x - ext_start x) → ext_start x <= deadline →
    not_finished_before (ext_start x) → paced (l ++ [x]).

(** What a run says. *)
Definition bounded_end (run : BoundedRun (B := B)) : Prop :=
  match run with
  | Ended outcome t extensions _ =>
    paced extensions ∧ last_end extensions <= t ∧ (t <= deadline ∨ t = last_end extensions) ∧
    match outcome with
    | Completed result => ∃ tf, finish = Some (tf, result) ∧ t = Z.max (last_end extensions) tf
    | TimedOut => t = Z.max (last_end extensions) deadline ∧ (not_finished_before deadline ∨ t = last_end extensions)
    | HeartbeatFailed text =>
      t = last_end extensions ∧ ∃ error, refused extensions false error ∧ text = CError_to_string error
    end ∧
    (Forall answered extensions ∧ t <= last_end extensions + delay ∨ ∃ stale error, refused extensions stale error)
  | Hanging since extensions =>
    paced extensions ∧ Forall answered extensions ∧ since = last_end extensions + delay ∧ since <= deadline ∧
    not_finished_before since ∧ latency since = None
  end.

Context (Hfair : fair order) (Hdelay : 0 < delay).
Context (Hlatency : ∀ t d, latency t = Some d → 0 <= d).

Lemma next_due_ready enabled heartbeat current :
  ∃ br, ready finish deadline enabled heartbeat (next_due finish deadline enabled heartbeat current) br = true.
Proof.
  set (now := next_due _ _ _ _ _).
  assert (deadline <= now ∨ (∃ t r, finish = Some (t, r) ∧ t <= now) ∨ enabled = true ∧ heartbeat <= now) as [Hd|[(t & r & Hf & Ht)|[He Hh]]].
  { subst now. unfold next_due. destruct finish as [[t r]|], enabled; simpl.
    - destruct (Z.min_spec (Z.min deadline t) heartbeat) as [[? ?]|[? ?]]; [|right; right; split; [done|lia]].
      destruct (Z.min_spec deadline t) as [[? ?]|[? ?]]; [left; lia|right; left; exists t, r; split; [done|lia]].
    - destruct (Z.min_spec deadline t) as [[? ?]|[? ?]]; [left; lia|right; left; exists t, r; split; [done|lia]].
    - destruct (Z.min_spec deadline heartbeat) as [[? ?]|[? ?]]; [left; lia|right; right; split; [done|lia]].
    - left. lia. }
  - exists OnDeadline. by apply Z.leb_le.
  - exists OnInvocation. simpl. rewrite Hf. by apply Z.leb_le.
  - exists OnHeartbeat. simpl. rewrite He. by apply Z.leb_le.
Qed.

Lemma ready_invocation enabled heartbeat now :
  ready finish deadline enabled heartbeat now OnInvocation = true → ∃ t r, finish = Some (t, r) ∧ t <= now.
Proof. simpl. destruct finish as [[t r]|]; [|done]. intros Ht%Z.leb_le. eauto. Qed.

(** How far the loop goes at once: no further than the next branch that is due. *)
Lemma next_due_spec enabled heartbeat current :
  let now := next_due finish deadline enabled heartbeat current in
  current <= now ∧
  (now = current ∨ now <= deadline ∧ not_finished_before now ∧ (enabled = true → now <= heartbeat)).
Proof.
  unfold next_due. cbv zeta. set (due := if enabled then _ else _).
  assert (due <= deadline ∧ not_finished_before due ∧ (enabled = true → due <= heartbeat)) as Hdue.
  { subst due. unfold not_finished_before. destruct finish as [[t r]|], enabled; split_and!; intros; try done; lia. }
  split; [lia|]. destruct (Z.max_spec current due) as [[_ ->]|[_ ->]]; [by right|by left].
Qed.

Lemma ended_by_deadline enabled heartbeat extensions b :
  paced extensions →
  (Forall answered extensions ∧ enabled = true ∧ heartbeat = last_end extensions + delay ∨
   enabled = false ∧ ∃ error, refused extensions true error) →
  let now := next_due finish deadline enabled heartbeat (last_end extensions) in
  ready finish deadline enabled heartbeat now OnDeadline = true → bounded_end (Ended TimedOut now extensions b).
Proof.
  intros Hp Hcase now Hr%Z.leb_le.
  destruct (next_due_spec enabled heartbeat (last_end extensions)) as [Hc Hdue]. cbv zeta in *. fold now in Hc, Hdue.
  split; [done|]. split; [done|]. split; [destruct Hdue as [->|[? _]]; [by right|by left]|]. split.
  - split; [lia|]. destruct Hdue as [->|(Hd & Hf & _)]; [by right|left]. by replace deadline with now by lia.
  - destruct Hcase as [(Ha & -> & Hh)|(-> & error & Hrf)]; [left|right; by exists true, error]. split; [done|].
    destruct Hdue as [->|(_ & _ & Hle)]; [lia|]. specialize (Hle eq_refl). lia.
Qed.

Lemma ended_completed enabled heartbeat extensions b t result :
  paced extensions →
  (Forall answered extensions ∧ enabled = true ∧ heartbeat = last_end extensions + delay ∨
   enabled = false ∧ ∃ error, refused extensions true error) →
  finish = Some (t, result) →
  let now := next_due finish deadline enabled heartbeat (last_end extensions) in
  t <= now → bounded_end (Ended (Completed result) now extensions b).
Proof.
  intros Hp Hcase Hfin now Ht.
  destruct (next_due_spec enabled heartbeat (last_end extensions)) as [Hc Hdue]. cbv zeta in *. fold now in Hc, Hdue.
  split; [done|]. split; [done|]. split; [destruct Hdue as [->|[? _]]; [by right|by left]|]. split.
  - exists t. split; [done|]. destruct Hdue as [->|(_ & Hf & _)]; [lia|]. unfold not_finished_before in Hf. rewrite Hfin in Hf. lia.
  - destruct Hcase as [(Ha & -> & Hh)|(-> & error & Hrf)]; [left|right; by exists true, error]. split; [done|].
    destruct Hdue as [->|(_ & _ & Hle)]; [lia|]. specialize (Hle eq_refl). lia.
Qed.

(** The loop with the heartbeat disabled ends at its next turn. *)
Lemma run_disabled fuel heartbeat extensions error b :
  (1 <= fuel)%nat → paced extensions → refused extensions true error →
  ∃ run, run_bounded_loop finish deadline order latency delay rc fuel false heartbeat (last_end extensions) extensions b = Some run ∧
    bounded_end run.
Proof.
  intros Hfuel Hp Hrf. destruct fuel as [|fuel]; [lia|]. cbn [run_bounded_loop].
  assert (false = false ∧ ∃ error, refused extensions true error) as Hcase by eauto.
  destruct (find_ready order (ready finish deadline false heartbeat (next_due finish deadline false heartbeat (last_end extensions)))
    (next_due finish deadline false heartbeat (last_end extensions)) Hfair (next_due_ready _ _ _)) as (br & -> & Hbr).
  destruct br; [| |done].
  - destruct (ready_invocation _ _ _ Hbr) as (t & r & Hfin & Ht).
    exists (Ended (Completed r) (next_due finish deadline false heartbeat (last_end extensions)) extensions b).
    split; [by rewrite Hfin|]. by apply (ended_completed false heartbeat extensions b t r Hp (or_intror Hcase) Hfin).
  - eexists. split; [done|]. by apply ended_by_deadline; [|right|].
Qed.

Lemma run_enabled fuel k extensions b :
  (Z.to_nat (deadline / delay) + 2 <= fuel + k)%nat → Z.of_nat k * delay <= deadline →
  Z.of_nat k * delay <= last_end extensions → paced extensions → Forall answered extensions →
  ∃ run, run_bounded_loop finish deadline order latency delay rc fuel true (last_end extensions + delay)
      (last_end extensions) extensions b = Some run ∧ bounded_end run.
Proof.
  revert k extensions b. induction fuel as [|fuel IH]; intros k extensions b Hfuel Hk Hkc Hp Ha.
  { assert (Z.of_nat k <= deadline / delay) by (apply Z.div_le_lower_bound; lia). lia. }
  set (hb := last_end extensions + delay). cbn [run_bounded_loop].
  set (now := next_due finish deadline true hb (last_end extensions)).
  destruct (find_ready order (ready finish deadline true hb now) now Hfair (next_due_ready _ _ _)) as (br & -> & Hbr).
  assert (Forall answered extensions ∧ true = true ∧ hb = last_end extensions + delay) as Hcase by done.
  destruct br.
  - destruct (ready_invocation _ _ _ Hbr) as (t & r & Hfin & Ht).
    exists (Ended (Completed r) now extensions b). split; [by rewrite Hfin|]. by apply (ended_completed true hb extensions b t r Hp (or_introl Hcase) Hfin).
  - eexists. split; [done|]. by apply ended_by_deadline; [|left|].
  - simpl in Hbr. apply Z.leb_le in Hbr.
    destruct (next_due_spec true hb (last_end extensions)) as [_ [Hnow|(Hd & Hf & Hle)]]; [fold now in Hnow; lia|].
    fold now in Hd, Hf, Hle. assert (now = hb) as Hnow by (specialize (Hle eq_refl); lia). rewrite Hnow in *.
    destruct (latency hb) as [d|] eqn:Hlat; [|by eexists].
    pose proof (Hlatency _ _ Hlat) as Hd0. destruct (extend rc b) as [answer b'].
    set (x := mkExtension hb (hb + d) answer). set (exts := extensions ++ [x]).
    assert (last_end exts = hb + d) as Hend by apply last_end_snoc.
    assert (paced exts) as Hp'.
    { apply paced_snoc; try done. simpl. rewrite Hlat. f_equal. lia. }
    assert (Z.of_nat (S k) * delay <= deadline) as Hdl by lia.
    assert (Z.of_nat (S k) <= deadline / delay) as Hdiv by (apply Z.div_le_lower_bound; lia).
    destruct answer as [[]|error].
    + rewrite <-Hend. apply (IH (S k)); [lia|lia|lia|done|]. apply Forall_app. split; [done|by repeat constructor].
    + destruct (is_stale error) eqn:Hst.
      * rewrite <-Hend. apply (run_disabled _ _ _ error); [lia|done|]. exists x. unfold exts. by rewrite last_snoc.
      * assert (refused exts false error) as Hrf by (exists x; unfold exts; by rewrite last_snoc).
        eexists. split; [done|]. split; [done|]. rewrite Hend. split; [lia|]. split; [by right|].
        split; [split; [done|]; by exists error|]. right. by exists false, error.
Qed.
End run.

Lemma heartbeat_delay_pos l : 0 < heartbeat_delay l.
Proof. unfold heartbeat_delay, duration_from_millis, nanos_per_milli. lia. Qed.

(** C31: how a bounded invocation ends. A heartbeat is due whenever the delay (at most
    half the lease, or a millisecond) has passed since the last one was answered;
    none begins after the deadline or once the result is there. The invocation ends
    by the deadline, or when the extension under way at the deadline is answered;
    with its result if a poll finds it there, with a timeout if one finds the
    deadline past, and not before. While the heartbeat lasts, the reservation was
    extended a delay ago at most; it stops when an answer calls the reservation
    stale, and another error ends the invocation at once. Only an extension that the
    broker never answers, begun by the deadline, keeps the invocation from ending:
    neither the deadline nor the result is polled meanwhile. The fuel is enough. *)
Theorem bounded_invocation_ends finish order latency config reservation b :
  fair order → 0 <= ic_deadline config → (∀ t d, latency t = Some d → 0 <= d) →
  let delay := heartbeat_delay (lease reservation) in
  ∃ run, run_bounded finish order latency config reservation b = Some run ∧
  match run with
  | Ended outcome t extensions _ =>
    paced finish (ic_deadline config) delay latency extensions ∧ last_end extensions <= t ∧
    (t <= ic_deadline config ∨ t = last_end extensions) ∧
    match outcome with
    | Completed result => ∃ tf, finish = Some (tf, result) ∧ t = Z.max (last_end extensions) tf
    | TimedOut => t = Z.max (last_end extensions) (ic_deadline config) ∧
        (not_finished_before finish (ic_deadline config) ∨ t = last_end extensions)
    | HeartbeatFailed text =>
      t = last_end extensions ∧ ∃ error, refused extensions false error ∧ text = CError_to_string error
    end ∧
    (Forall answered extensions ∧ t <= last_end extensions + delay ∨ ∃ stale error, refused extensions stale error)
  | Hanging since extensions =>
    paced finish (ic_deadline config) delay latency extensions ∧ Forall answered extensions ∧
    since = last_end extensions + delay ∧ since <= ic_deadline config ∧ not_finished_before finish since ∧
    latency since = None
  end.
Proof.
  intros Hfair Hd Hlat delay. unfold run_bounded. fold delay. assert (0 < delay) as Hdelay by apply heartbeat_delay_pos.
  apply (run_enabled finish (ic_deadline config) delay order latency (receipt reservation) Hfair Hdelay Hlat
    (bounded_fuel (ic_deadline config) delay) 0 [] b); [unfold bounded_fuel; lia|lia|done|constructor|constructor].
Qed.

(** *** Resolving *)

(** A failure that another attempt may repair. *)
Definition retryable (invocation : BoundedInvocation) : option string :=
  match invocation with
  | Completed (RetryableFailure error) => Some error
  | TimedOut => Some "invocation timed out"
  | _ => None
  end.

(** What resolving calls, and what it gives when that succeeds. *)
Definition resolution config (reservation : Reservation) (invocation : BoundedInvocation)
    : M B CError unit * ProcessOutcome :=
  match invocation with
  | Completed Success => (ack (receipt reservation), Acked)
  | Completed (TerminalFailure error) | HeartbeatFailed error => (fail (receipt reservation) error, OutcomeFailed error)
  | Completed (RetryableFailure _) | TimedOut =>
    let error := default "" (retryable invocation) in
    if decide (je_attempts (envelope reservation) + 1 < je_max_attempts (envelope reservation))
    then let delay := ic_delay_for config (je_attempts (envelope reservation)) in
         (retry (receipt reservation) delay, Retried delay)
    else (fail (receipt reservation) error, OutcomeFailed error)
  end.

Definition attempts_in_range (reservation : Reservation) : Prop :=
  0 <= je_attempts (envelope reservation) < u32_max.

Lemma resolve_resolution config reservation invocation :
  attempts_in_range reservation →
  resolve config reservation invocation =
  resolve_with (resolution config reservation invocation).2 (resolution config reservation invocation).1.
Proof.
  intros [Hlo Hhi]. unfold u32_max in Hhi.
  assert (wrapping_add_u32 (je_attempts (envelope reservation)) 1 = je_attempts (envelope reservation) + 1) as Hw
    by (unfold wrapping_add_u32; apply Z.mod_small; lia).
  destruct invocation as [[| |]| |]; try done; simpl; unfold retry_or_fail; rewrite Hw;
    destruct (Z.ltb_spec (je_attempts (envelope reservation) + 1) (je_max_attempts (envelope reservation)));
    [rewrite decide_True by done|rewrite decide_False by lia
    |rewrite decide_True by done|rewrite decide_False by lia]; done.
Qed.

(** C32: a reservation is resolved by exactly one call to the broker: acknowledged
    after a success; sent back with the policy's delay after a failure that may
    pass or a timeout, while attempts remain; failed otherwise. A reservation gone
    stale meanwhile is not an error, any other refusal is, and nothing is repeated. *)
Theorem reservation_is_resolved_once config reservation invocation b :
  attempts_in_range reservation →
  resolve config reservation invocation b =
  match (resolution config reservation invocation).1 b with
  | (Ok _, b') => (Ok (resolution config reservation invocation).2, b')
  | (Err error, b') => (if is_stale error then Ok StaleResolution else Err (InvokerError_Broker error), b')
  end.
Proof.
  intros Hr. rewrite resolve_resolution by done. unfold resolve_with.
  destruct ((resolution config reservation invocation).1 b) as [[u|error] b']; [done|]. by destruct (is_stale error).
Qed.

(** The invocations of one job, and how many of them were redeliveries, from the
    attempts on that its reservation says. It was sent back, and comes again with one
    attempt more. Or its reservation was resolved in no such way (it had gone stale,
    the broker answered with an error, the worker was lost or never came to it): then
    the broker gives it out again when the lease is over, with as many attempts or
    more. Or it is over. *)
Inductive attempts_of config (max : Z) : Z → nat → nat → Prop :=
| attempts_last attempts : attempts_of config max attempts 1 0
| attempts_more attempts n redelivered reservation invocation b delay b' :
    je_attempts (envelope reservation) = attempts → je_max_attempts (envelope reservation) = max →
    resolve config reservation invocation b = (Ok (Retried delay), b') →
    attempts_of config max (attempts + 1) n redelivered → attempts_of config max attempts (S n) redelivered
| attempts_again attempts attempts' n redelivered :
    attempts <= attempts' < u32_max →
    attempts_of config max attempts' n redelivered → attempts_of config max attempts (S n) (S redelivered).

Lemma retried_below_max config reservation invocation b delay b' :
  attempts_in_range reservation → resolve config reservation invocation b = (Ok (Retried delay), b') →
  je_attempts (envelope reservation) + 1 < je_max_attempts (envelope reservation).
Proof.
  intros Hr Hres. rewrite resolve_resolution in Hres by done. unfold resolve_with, resolution in Hres.
  destruct invocation as [[|e|e]| |e]; simpl in Hres;
    try (destruct (decide _) as [|]; [done|]); simpl in Hres;
    match type of Hres with context [match ?m b with _ => _ end] => destruct (m b) as [[]] end;
    try done; by destruct (is_stale _).
Qed.

(** C33: how often a job that starts with no attempts is invoked, whatever its
    invocations end with: [max_attempts] times at most, or once if that is 0, and once
    more for each time that it is given out again without having been sent back. *)
Theorem attempts_are_bounded config max n redelivered :
  max <= u32_max → attempts_of config max 0 n redelivered →
  Z.of_nat n <= Z.max 1 max + Z.of_nat redelivered.
Proof.
  intros Hmax Ha.
  assert (∀ a, 0 <= a < u32_max → attempts_of config max a n redelivered →
    Z.of_nat n <= Z.max 1 (max - a) + Z.of_nat redelivered) as Hgen;
    [|specialize (Hgen 0 ltac:(unfold u32_max; lia) Ha); lia].
  clear Ha. intros a Hr Ha.
  induction Ha as [a|a n r reservation invocation b delay b' Hatt Hm Hres _ IH|a a' n r Haa _ IH]; [lia| |].
  - assert (attempts_in_range reservation) as Hrange by (unfold attempts_in_range; by rewrite Hatt).
    apply retried_below_max in Hres; [|done]. rewrite Hatt, Hm in Hres.
    specialize (IH ltac:(lia)). lia.
  - specialize (IH ltac:(lia)). lia.
Qed.
End spec.

(** ** The invokers *)

(** When an HTTP job succeeds, is given up, or may be tried again: it succeeds
    exactly when its kind has an endpoint whose whole response was read with a
    status of 200 to 299, even one listed as terminal; it is given up exactly when
    its kind has no endpoint, or the status is outside that range and listed. *)
Theorem http_invocation {T JobId} `{HttpTransport T} (invoker : HttpInvoker T) (job : InvocationJob JobId) :
  let answer endpoint := transport_send (hi_transport invoker) endpoint (ij_payload job) in
  (invoke invoker job = Success ↔ ∃ endpoint status, hi_endpoints invoker !! ij_kind job = Some endpoint ∧
     answer endpoint = Ok status ∧ 200 <= status <= 299) ∧
  ((∃ error, invoke invoker job = TerminalFailure error) ↔
     hi_endpoints invoker !! ij_kind job = None ∨
     ∃ endpoint status, hi_endpoints invoker !! ij_kind job = Some endpoint ∧ answer endpoint = Ok status ∧
       ¬ (200 <= status <= 299) ∧ status ∈ he_terminal_status_codes endpoint).
Proof.
  cbv zeta. unfold invoke, HttpInvoker_ExternalInvoker.
  destruct (hi_endpoints invoker !! ij_kind job) as [endpoint|] eqn:He.
  2: { split; (split; [|try done]); [done|by intros (? & ? & ? & _)|by left|by eexists]. }
  destruct (transport_send (hi_transport invoker) endpoint (ij_payload job)) as [status|error] eqn:Ha.
  2: { split; split; try done; [intros (? & ? & [= <-] & Hok & _)|by intros []
         |intros [|(? & ? & [= <-] & Hok & _)]]; congruence. }
  assert (∀ (P : HttpEndpoint → Z → Prop), (∃ e s, Some endpoint = Some e ∧
    transport_send (hi_transport invoker) e (ij_payload job) = Ok s ∧ P e s) ↔ P endpoint status) as Hex.
  { intros P. split; [intros (? & ? & [= <-] & Hok & HP)|eauto 6]. rewrite Ha in Hok. by injection Hok as <-. }
  rewrite (Hex (λ _ s, 200 <= s <= 299)), (Hex (λ e s, ¬ (200 <= s <= 299) ∧ s ∈ he_terminal_status_codes e)).
  unfold is_success. destruct (between 200 299 status) eqn:Hb; [apply between_true in Hb|apply between_false in Hb].
  - split; [done|]. split; [by intros []|]. intros [|[? _]]; [done|tauto].
  - case_bool_decide as Hin; (split; [by split|]); split; try (by intros []); try (intros [|[_ ?]]; done); eauto.
Qed.

(** When a subprocess job succeeds, is given up, or may be tried again: it
    succeeds exactly when the process was started, took its whole payload and
    exited with 0; it is given up exactly when its kind has no command or the exit
    code is not 0 and listed, a signal counting as -1. A process that exits with 0
    without reading its payload is a failure to retry. *)
Theorem subprocess_invocation {P JobId} `{Processes P} (invoker : SubprocessInvoker P) (job : InvocationJob JobId) :
  let run command := run_subprocess (si_os invoker) command (ij_payload job) in
  (invoke invoker job = Success ↔ ∃ command output, si_commands invoker !! ij_kind job = Some command ∧
     spawn (si_os invoker) command = Ok tt ∧ write_stdin (si_os invoker) command (ij_payload job) = Ok tt ∧
     wait_with_output (si_os invoker) command (ij_payload job) = Ok output ∧ out_code output = Some 0) ∧
  ((∃ error, invoke invoker job = TerminalFailure error) ↔
     si_commands invoker !! ij_kind job = None ∨
     ∃ command output, si_commands invoker !! ij_kind job = Some command ∧ run command = Ok output ∧
       out_code output ≠ Some 0 ∧ default (-1) (out_code output) ∈ sc_terminal_exit_codes command) ∧
  (∀ command error, si_commands invoker !! ij_kind job = Some command → spawn (si_os invoker) command = Ok tt →
     write_stdin (si_os invoker) command (ij_payload job) = Err error →
     invoke invoker job = RetryableFailure (io_message error)).
Proof.
  cbv zeta. unfold invoke, SubprocessInvoker_ExternalInvoker.
  destruct (si_commands invoker !! ij_kind job) as [command|] eqn:Hc.
  2: { split; [split; [done|by intros (? & ? & ? & _)]|]. split; [split; [by left|by eexists]|done]. }
  split; [|split].
  - unfold run_subprocess. split.
    + destruct (spawn (si_os invoker) command) as [[]|e] eqn:Hs; simpl; [|done].
      destruct (write_stdin (si_os invoker) command (ij_payload job)) as [[]|e] eqn:Hw; simpl; [|done].
      destruct (wait_with_output (si_os invoker) command (ij_payload job)) as [output|e] eqn:Ho; simpl; [|done].
      case_bool_decide; [eauto 10|]. by case_bool_decide.
    + intros (? & output & [= <-] & -> & Hw & Ho & Hcode). simpl. rewrite Hw. simpl. rewrite Ho. simpl.
      by rewrite bool_decide_true.
  - destruct (run_subprocess (si_os invoker) command (ij_payload job)) as [output|e] eqn:Hr.
    + split.
      * intros [error He]. right. exists command, output. split; [done|]. split; [done|].
        case_bool_decide; [done|]. split; [done|]. case_bool_decide; done.
      * intros [|(? & output' & [= <-] & Hr' & Hcode & Hin)]; [done|].
        assert (output' = output) as -> by congruence. rewrite bool_decide_false by done.
        rewrite bool_decide_true by done. by eexists.
    + split; [by intros []|]. intros [|(? & ? & [= <-] & Hr' & _)]; congruence.
  - intros ? error [= <-] Hs Hw. unfold run_subprocess. rewrite Hs. simpl. by rewrite Hw.
Qed.
