(* ===== verification/InvokerRuns.v ===== *)
(** * Sample invocations

    A sample consumer side of Worklane, and the theorems on the worker applied to
    its runs. *)

From stdpp Require Import base gmap strings list pretty.
From Stdlib Require Import ZArith Lia.
From S2P Require Import Prelude RustStd Event Retention StorageRuns Invoker InvokerSpec.
Local Open Scope Z_scope.

(** Jobs waiting, how many extensions are left before the reservation is stale, and
    the calls that resolved one. *)
Record SampleConsumer := mkSampleConsumer {
  co_jobs : list (JobEnvelope N);
  co_extensions : nat;
  co_resolved : list string;
}.

Definition resolved (call : string) : M SampleConsumer string unit := λ c,
  (Ok tt, mkSampleConsumer (co_jobs c) (co_extensions c) (co_resolved c ++ [call])).

#[export] Instance sample_Consumer : Consumer SampleConsumer := {
  CJobId := N;
  Receipt := N;
  CError := string;
  is_stale e := bool_decide (e = "stale");
  CError_to_string e := e;
  reserve _ := λ c,
    match co_jobs c with
    | [] => (Ok None, c)
    | j :: js => (Ok (Some (j, je_id j, duration_from_millis 20)), mkSampleConsumer js (co_extensions c) (co_resolved c))
    end;
  extend _ := λ c,
    match co_extensions c with
    | O => (Err "stale", c)
    | S n => (Ok tt, mkSampleConsumer (co_jobs c) n (co_resolved c))
    end;
  ack _ := resolved "ack";
  retry _ delay := resolved ("retry " +:+ pretty delay);
  fail _ error := resolved ("fail " +:+ error);
  read_dead_letters _ _ := λ c, (Ok [], c);
  requeue _ := λ c, (Err "unknown job", c);
}.

Definition sample_envelope (attempts : Z) : JobEnvelope N :=
  mkJobEnvelope 1%N "triage" "triage-issue" [] attempts 3.

Definition reservation (attempts : Z) : Reservation (B := SampleConsumer) :=
  mkReservation (B := SampleConsumer) (sample_envelope attempts) 1%N (duration_from_millis 20).

(** A deadline of 35 ms, heartbeats every 10 ms, retries after 5 ms. *)
Definition sample_config : InvokerConfig :=
  mkInvokerConfig "triage" (duration_from_millis 35) (λ _, duration_from_millis 5).

Definition in_order : Z → list Branch := λ _, [OnInvocation; OnDeadline; OnHeartbeat].

Definition consumer (extensions : nat) : SampleConsumer := mkSampleConsumer [sample_envelope 0] extensions [].

(** An extension takes 4 ms. *)
Definition four_ms : Z → option Z := λ _, Some (duration_from_millis 4).
(** The broker stops answering after 15 ms. *)
Definition then_silent : Z → option Z := λ t, if t <? duration_from_millis 15 then Some 0 else None.

Definition sample_extension (from until : Z) (answer : result string unit) : Extension (B := SampleConsumer) :=
  mkExtension (B := SampleConsumer) (duration_from_millis from) (duration_from_millis until) answer.

Definition sample_run (latency : Z → option Z) (finish : option (Z * InvocationResult)) (extensions : nat) :=
  run_bounded finish in_order latency sample_config (reservation 0) (consumer extensions).

(** The result is there after 25 ms, while the second extension is under way. *)
Lemma bounded_invocation_ends_witness :
  ∃ run, sample_run four_ms (Some (duration_from_millis 25, Success)) 5 = Some run ∧
    bounded_end (Some (duration_from_millis 25, Success)) (duration_from_millis 35) (duration_from_millis 10) four_ms run.
Proof.
  apply (bounded_invocation_ends (Some (duration_from_millis 25, Success)) in_order four_ms sample_config (reservation 0)
    (consumer 5)).
  - intros t. reflexivity.
  - by vm_compute.
  - intros t d [= <-]. by vm_compute.
Defined.

(** It is found when the extension is answered; a reservation that went stale is
    extended no more, and the deadline ends the invocation; an extension that is never
    answered leaves it hanging. *)
Example bounded_run :
  sample_run four_ms (Some (duration_from_millis 25, Success)) 5
  = Some (Ended (Completed Success) (duration_from_millis 28) [sample_extension 10 14 (Ok tt); sample_extension 24 28 (Ok tt)] (consumer 3)) ∧
  sample_run four_ms None 1
  = Some (Ended TimedOut (duration_from_millis 35) [sample_extension 10 14 (Ok tt); sample_extension 24 28 (Err "stale")] (consumer 0)) ∧
  sample_run then_silent None 5
  = Some (Hanging (duration_from_millis 20) [sample_extension 10 10 (Ok tt)]).
Proof. split_and!; vm_compute; reflexivity. Qed.

Lemma reservation_is_resolved_once_witness :
  resolve sample_config (reservation 1) TimedOut (consumer 0) =
  match (resolution sample_config (reservation 1) TimedOut).1 (consumer 0) with
  | (Ok _, b') => (Ok (resolution sample_config (reservation 1) TimedOut).2, b')
  | (Err error, b') => (if is_stale (B := SampleConsumer) error then Ok StaleResolution else Err (InvokerError_Broker error), b')
  end.
Proof. apply (reservation_is_resolved_once sample_config (reservation 1) TimedOut (consumer 0)). by vm_compute. Defined.

(** A retry, a redelivery of the second attempt, another retry, the last attempt. *)
Lemma four_invocations : attempts_of (B := SampleConsumer) sample_config 3 0 4 1.
Proof.
  eapply (attempts_more _ _ 0 3 1 (reservation 0) TimedOut (consumer 0)); [reflexivity|reflexivity| |].
  { apply (run_ok (resolve sample_config (reservation 0) TimedOut) (consumer 0)). vm_compute. reflexivity. }
  apply (attempts_again _ _ 1 1); [by vm_compute|].
  eapply (attempts_more _ _ 1 1 0 (reservation 1) TimedOut (consumer 0)); [reflexivity|reflexivity| |].
  { apply (run_ok (resolve sample_config (reservation 1) TimedOut) (consumer 0)). vm_compute. reflexivity. }
  constructor.
Qed.

Lemma attempts_are_bounded_witness : Z.of_nat 4 <= Z.max 1 3 + Z.of_nat 1.
Proof. apply (attempts_are_bounded (B := SampleConsumer) sample_config 3 4 1); [by vm_compute|exact four_invocations]. Defined.

(** The whole of [process_once]: the first attempt fails and is sent back. *)
#[export] Instance failing_invoker : ExternalInvoker N unit := λ _ _, RetryableFailure "connection refused".

Example processed :
  process_once sample_config () (λ _, Some 0) in_order four_ms (consumer 0)
  = Some (Ok (Retried (duration_from_millis 5)), mkSampleConsumer [] 0 ["retry 5000000"]).
Proof. vm_compute. reflexivity. Qed.
