(* ===== verification/InvokerTests.v ===== *)
(** * The tests of [examples/invoker/src/lib.rs], lines 567-1211, run on the model

    Worklane's in-memory broker is not part of the repository; [MemoryConsumer]
    stands for it with what the tests rely on: a job waits on its lane, is
    reserved, and is acknowledged, sent back or dead-lettered. Leases do not
    expire in it. *)

From stdpp Require Import base gmap strings list.
From Stdlib Require Import ZArith Lia.
From S2P Require Import Prelude RustStd Event Retention Testing Invoker.
Local Open Scope Z_scope.

(** ** Worklane's consumer side *)

Abbreviation Envelope := (JobEnvelope nat).

Record MemoryConsumer := mkMemoryConsumer {
  mc_waiting : list Envelope;
  mc_reserved : list Envelope;
  mc_dead : list (DeadLetter nat);
  mc_next : nat;
  mc_lease : Z;
}.

Definition InMemoryBroker_new : MemoryConsumer := mkMemoryConsumer [] [] [] 0 (duration_from_secs 30).
Definition with_lease (lease : Z) (b : MemoryConsumer) : MemoryConsumer :=
  mkMemoryConsumer (mc_waiting b) (mc_reserved b) (mc_dead b) (mc_next b) lease.

Inductive MemoryError := StaleReservation (message : string) | BrokerError (message : string).

Definition error_text (e : MemoryError) : string :=
  match e with StaleReservation m | BrokerError m => m end.

Definition job_is (id : nat) (e : Envelope) : bool := Nat.eqb (je_id e) id.
Definition without (id : nat) (l : list Envelope) : list Envelope := filter (λ e, job_is id e = false) l.

(** End a reservation: what becomes of the broker with the job taken out. *)
Definition end_reservation (id : nat) (k : Envelope → MemoryConsumer → MemoryConsumer) : M MemoryConsumer MemoryError unit := λ b,
  match List.find (job_is id) (mc_reserved b) with
  | Some e => (Ok tt, k e (mkMemoryConsumer (mc_waiting b) (without id (mc_reserved b)) (mc_dead b) (mc_next b) (mc_lease b)))
  | None => (Err (StaleReservation "stale"), b)
  end.

Definition add_waiting (e : Envelope) (b : MemoryConsumer) : MemoryConsumer :=
  mkMemoryConsumer (mc_waiting b ++ [e]) (mc_reserved b) (mc_dead b) (mc_next b) (mc_lease b).
Definition add_dead (e : Envelope) (error : string) (b : MemoryConsumer) : MemoryConsumer :=
  mkMemoryConsumer (mc_waiting b) (mc_reserved b) (mc_dead b ++ [mkDeadLetter e error]) (mc_next b) (mc_lease b).
Definition attempted (n : Z) (e : Envelope) : Envelope :=
  mkJobEnvelope (je_id e) (je_lane e) (je_kind e) (je_payload e) n (je_max_attempts e).

Definition memory_reserve (lane : string) : M MemoryConsumer MemoryError (option (Envelope * nat * Z)) := λ b,
  match List.find (λ e, bool_decide (je_lane e = lane)) (mc_waiting b) with
  | Some e => (Ok (Some (e, je_id e, mc_lease b)),
               mkMemoryConsumer (without (je_id e) (mc_waiting b)) (mc_reserved b ++ [e]) (mc_dead b) (mc_next b) (mc_lease b))
  | None => (Ok None, b)
  end.

Definition memory_requeue (id : nat) : M MemoryConsumer MemoryError unit := λ b,
  match List.find (λ d, job_is id (dl_envelope d)) (mc_dead b) with
  | Some d => (Ok tt, add_waiting (attempted 0 (dl_envelope d))
                 (mkMemoryConsumer (mc_waiting b) (mc_reserved b)
                    (filter (λ d, job_is id (dl_envelope d) = false) (mc_dead b)) (mc_next b) (mc_lease b)))
  | None => (Err (BrokerError "no dead-letter record"), b)
  end.

Local Instance memory_Consumer : Consumer MemoryConsumer := {
  CJobId := nat;
  Receipt := nat;
  CError := MemoryError;
  is_stale e := match e with StaleReservation _ => true | BrokerError _ => false end;
  CError_to_string := error_text;
  reserve := memory_reserve;
  extend id := λ b, if existsb (job_is id) (mc_reserved b) then (Ok tt, b) else (Err (StaleReservation "stale"), b);
  ack id := end_reservation id (λ _ b, b);
  retry id _ := end_reservation id (λ e, add_waiting (attempted (je_attempts e + 1) e));
  fail id error := end_reservation id (λ e, add_dead e error);
  read_dead_letters lane limit := λ b,
    (Ok (take (Z.to_nat limit) (filter (λ d, je_lane (dl_envelope d) = lane) (mc_dead b))), b);
  requeue := memory_requeue;
}.

(** [broker.enqueue(NewJob::new(lane, kind, payload, max_attempts))]. *)
Definition enqueue (lane kind : string) (payload : bytes) (max_attempts : Z) : Test MemoryConsumer nat := λ '(n, b),
  let id := mc_next b in
  (Ok id, (n, add_waiting (mkJobEnvelope id lane kind payload 0 max_attempts)
                (mkMemoryConsumer (mc_waiting b) (mc_reserved b) (mc_dead b) (S id) (mc_lease b)))).

(** *** The invokers of the tests *)

Inductive StaticInvoker := StaticInvoker_new (result : InvocationResult).
Local Instance StaticInvoker_ExternalInvoker : ExternalInvoker nat StaticInvoker := λ self _,
  match self with StaticInvoker_new result => result end.

(** [SleepingInvoker]: its result, which is there after [duration]. *)
Record SleepingInvoker := SleepingInvoker_new { sleeping_duration : Z; sleeping_result : InvocationResult }.
Local Instance SleepingInvoker_ExternalInvoker : ExternalInvoker nat SleepingInvoker := λ self _, sleeping_result self.

Definition external_config (lane : string) (deadline : Z) : InvokerConfig :=
  InvokerConfig_new (λ _, duration_from_secs 1) lane deadline.

Definition in_order : Z → list Branch := λ _, [OnInvocation; OnDeadline; OnHeartbeat].

(** [runtime.process_once().await], where the invocation takes [duration]. *)
Definition process {B V} `{Consumer B} `{!ExternalInvoker CJobId V} (config : InvokerConfig) (invoker : V) (duration : Z)
    : Test B ProcessOutcome := λ '(n, b),
  match process_once config invoker (λ _, Some duration) in_order (λ _, Some 0) b with
  | Some (Ok outcome, b) => (Ok outcome, (n, b))
  | Some (Err _, b) => (Err "process should run", (n, b))
  | None => (Err "out of fuel", (n, b))
  end.

Definition process_static (result : InvocationResult) : Test MemoryConsumer ProcessOutcome :=
  process (external_config "external" (duration_from_millis 100)) (StaticInvoker_new result) 0.

Definition job (kind : string) (payload : bytes) : InvocationJob nat := mkInvocationJob 0%nat kind payload 0 3.

Local Instance ProcessOutcome_eq_dec : EqDecision ProcessOutcome.
Proof. solve_decision. Defined.
Local Instance InvocationResult_eq_dec : EqDecision InvocationResult.
Proof. solve_decision. Defined.
Local Instance DeadInvocationJob_eq_dec : EqDecision (DeadInvocationJob nat).
Proof. solve_decision. Defined.

Definition opaque : bytes := as_bytes "opaque".
Definition job_total (expected : Z) : Test MemoryConsumer unit :=
  b ← look id; assert_eq "jobs" (len (mc_waiting b) + len (mc_reserved b)) expected.

(** ** Processing a reservation *)

Definition success_acks_real_broker_reservation : Test MemoryConsumer unit :=
  enqueue "external" "echo" opaque 3;;
  outcome ← process_static Success;
  assert_eq "outcome" outcome Acked;;
  job_total 0.

Definition retryable_failure_retries_real_broker_reservation : Test MemoryConsumer unit :=
  enqueue "external" "http" opaque 3;;
  outcome ← process_static (RetryableFailure "temporary");
  assert_eq "outcome" outcome (Retried (duration_from_secs 1));;
  job_total 1.

Definition terminal_failure_dead_letters_real_broker_reservation : Test MemoryConsumer unit :=
  enqueue "external" "http" opaque 3;;
  outcome ← process_static (TerminalFailure "bad request");
  assert_eq "outcome" outcome (OutcomeFailed "bad request");;
  b ← look id;
  assert_eq "dead letters" (len (mc_dead b)) 1.

Definition list_dead_letters_preserves_opaque_envelope_and_error : Test MemoryConsumer unit :=
  let payload := Byte.x00 :: opaque in
  job_id ← enqueue "external" "http" payload 3;
  process_static (TerminalFailure "bad request");;
  dead ← expect "dead letters should list" (list_dead_letters "external" 10);
  assert_eq "dead" dead [mkDeadInvocationJob job_id "external" "http" payload 0 3 "bad request"].

Definition list_dead_letters_is_lane_scoped_and_bounded : Test MemoryConsumer unit :=
  enqueue "external" "http" (as_bytes "one") 3;;
  enqueue "external" "http" (as_bytes "two") 3;;
  enqueue "other" "http" (as_bytes "other") 3;;
  process_static (TerminalFailure "bad request");;
  process_static (TerminalFailure "bad request");;
  process (external_config "other" (duration_from_millis 100)) (StaticInvoker_new (TerminalFailure "other failure")) 0;;
  dead ← expect "dead letters should list" (list_dead_letters "external" 1);
  assert_eq "lanes" (dij_lane _ <$> dead) ["external"].

Definition requeue_dead_letter_makes_job_reservable_on_original_lane : Test MemoryConsumer unit :=
  job_id ← enqueue "external" "http" opaque 3;
  process_static (TerminalFailure "bad request");;
  expect "requeue should succeed" (requeue_dead_letter job_id);;
  dead ← expect "dead letters should list" (list_dead_letters "external" 10);
  assert_eq "dead" dead [];;
  reserved ← expect "reserve should succeed" (reserve "external");
  reserved ← some "requeued job should be reservable" reserved;
  let envelope := reserved.1.1 in
  assert_eq "id" (je_id envelope) job_id;;
  assert_eq "lane" (je_lane envelope) "external";;
  assert_eq "kind" (je_kind envelope) "http";;
  assert_eq "payload" (je_payload envelope) opaque.

Definition requeue_unknown_dead_letter_returns_broker_error : Test MemoryConsumer unit :=
  error ← expect_err "unknown dead letter should fail" (requeue_dead_letter 7%nat);
  assert "a broker error" match error with InvokerError_Broker (BrokerError _) => true | _ => false end;;
  job_total 0.

Definition timeout_retries_until_attempts_are_exhausted : Test MemoryConsumer unit :=
  enqueue "external" "slow" opaque 2;;
  outcome ← process (external_config "external" (duration_from_millis 5))
    (SleepingInvoker_new (duration_from_millis 50) Success) (duration_from_millis 50);
  assert_eq "outcome" outcome (Retried (duration_from_secs 1)).

Definition heartbeat_keeps_real_broker_reservation_alive : Test MemoryConsumer unit :=
  enqueue "external" "slow" opaque 3;;
  outcome ← process (external_config "external" (duration_from_millis 100))
    (SleepingInvoker_new (duration_from_millis 30) Success) (duration_from_millis 30);
  assert_eq "outcome" outcome Acked;;
  job_total 0.

(** *** [StaleAckBroker], lines 1108-1210 *)

Record StaleAckBroker := mkStaleAckBroker { ack_calls : Z }.

Local Instance StaleAckBroker_Consumer : Consumer StaleAckBroker := {
  CJobId := nat;
  Receipt := nat;
  CError := MemoryError;
  is_stale e := match e with StaleReservation _ => true | BrokerError _ => false end;
  CError_to_string := error_text;
  reserve lane := mret (Some (mkJobEnvelope 0%nat lane "stale" (as_bytes "opaque") 0 3, 0%nat, duration_from_millis 100));
  extend _ := mret tt;
  ack _ := λ b, (Err (StaleReservation "stale"), mkStaleAckBroker (ack_calls b + 1));
  retry _ _ := mret tt;
  fail _ _ := mret tt;
  read_dead_letters _ _ := mret [];
  requeue _ := throw (BrokerError "no dead-letter record for job");
}.

Definition stale_resolution_is_non_fatal_outcome : Test StaleAckBroker unit :=
  outcome ← process (external_config "external" (duration_from_millis 100)) (StaticInvoker_new Success) 0;
  assert_eq "outcome" outcome StaleResolution;;
  b ← look id;
  assert_eq "calls" (ack_calls b) 1.

(** ** Subprocesses

    What the operating system answers for the commands of the tests. *)

Definition check_script : string := "test " +:+ quoted "$(cat)" +:+ " = " +:+ quoted "hello".

Definition run_program (command : SubprocessCommand) (payload : bytes) : option Z :=
  let runs program args := bool_decide ((sc_program command, sc_args command) = (program, args)) in
  if runs "sh" ["-c"; "cat >/dev/null"] then Some 0
  else if runs "sh" ["-c"; check_script] then Some (if bool_decide (payload = as_bytes "hello") then 0 else 1)
  else if runs "sh" ["-c"; "exit 2"] then Some 2
  else if runs "false" [] then Some 1
  else None.

Inductive TestProcesses := mkTestProcesses.
Local Instance TestProcesses_Processes : Processes TestProcesses := {
  spawn _ command :=
    match run_program command [] with Some _ => Ok tt | None => Err (mkIoError NotFound "No such file or directory") end;
  write_stdin _ _ _ := Ok tt;
  wait_with_output _ command payload := Ok (mkOutput (run_program command payload) []);
}.

Definition shell (script : string) : SubprocessCommand := sc_arg (sc_arg (SubprocessCommand_new "sh") "-c") script.

Definition is_terminal (result : InvocationResult) : bool := match result with TerminalFailure _ => true | _ => false end.
Definition is_retryable (result : InvocationResult) : bool := match result with RetryableFailure _ => true | _ => false end.

Definition subprocess_success_returns_success : Test unit unit :=
  let invoker := si_register (SubprocessInvoker_new mkTestProcesses) "cat" (shell "cat >/dev/null") in
  assert_eq "result" (invoke invoker (job "cat" opaque)) Success.

Definition subprocess_receives_payload_on_stdin : Test unit unit :=
  let invoker := si_register (SubprocessInvoker_new mkTestProcesses) "check-payload" (shell check_script) in
  assert_eq "result" (invoke invoker (job "check-payload" (as_bytes "hello"))) Success.

Definition subprocess_terminal_exit_code_returns_terminal_failure : Test unit unit :=
  let invoker := si_register (SubprocessInvoker_new mkTestProcesses) "bad-request" (sc_terminal_exit_code (SubprocessCommand_new "false") 1) in
  assert "terminal" (is_terminal (invoke invoker (job "bad-request" opaque))).

Definition subprocess_non_terminal_exit_returns_retryable_failure : Test unit unit :=
  let invoker := si_register (SubprocessInvoker_new mkTestProcesses) "temporary" (shell "exit 2") in
  assert "retryable" (is_retryable (invoke invoker (job "temporary" opaque))).

Definition subprocess_unknown_kind_returns_terminal_failure : Test unit unit :=
  assert "terminal" (is_terminal (invoke (SubprocessInvoker_new mkTestProcesses) (job "missing" opaque))).

(** ** HTTP *)

(** [FakeHttpTransport]: its answer to the one payload it is to be sent; any other
    payload is an answer the tests do not expect. *)
Record FakeHttpTransport := mkFakeHttpTransport { fake_result : result string Z; fake_payload : bytes }.
Local Instance FakeHttpTransport_HttpTransport : HttpTransport FakeHttpTransport := {
  transport_send self _ payload :=
    if bool_decide (payload = fake_payload self) then fake_result self else Err "unexpected payload";
  status_to_string := pretty.pretty;
}.

Definition answers (status : Z) (payload : bytes) : FakeHttpTransport := mkFakeHttpTransport (Ok status) payload.

Definition test_endpoint : Test unit HttpEndpoint :=
  expect "endpoint should parse" (lift (HttpEndpoint_new Ok "http://example.test/invoke")).

Definition http_success_returns_success : Test unit unit :=
  endpoint ← test_endpoint;
  let invoker := hi_register (with_transport (answers 200 opaque)) "webhook" endpoint in
  assert_eq "result" (invoke invoker (job "webhook" opaque)) Success.

Definition http_receives_payload_as_body : Test unit unit :=
  endpoint ← test_endpoint;
  let invoker := hi_register (with_transport (answers 200 (as_bytes "hello"))) "webhook" endpoint in
  assert_eq "result" (invoke invoker (job "webhook" (as_bytes "hello"))) Success.

Definition http_terminal_status_returns_terminal_failure : Test unit unit :=
  endpoint ← test_endpoint;
  let invoker := hi_register (with_transport (answers 400 opaque)) "webhook" (he_with_terminal_status_code endpoint 400) in
  assert "terminal" (is_terminal (invoke invoker (job "webhook" opaque))).

Definition http_non_terminal_status_returns_retryable_failure : Test unit unit :=
  endpoint ← test_endpoint;
  let invoker := hi_register (with_transport (answers 503 opaque)) "webhook" endpoint in
  assert "retryable" (is_retryable (invoke invoker (job "webhook" opaque))).

Definition http_transport_error_returns_retryable_failure : Test unit unit :=
  endpoint ← test_endpoint;
  let invoker := hi_register (with_transport (mkFakeHttpTransport (Err "connection refused") opaque)) "webhook" endpoint in
  assert "retryable" (is_retryable (invoke invoker (job "webhook" opaque))).

Definition http_unknown_kind_returns_terminal_failure : Test unit unit :=
  assert "terminal" (is_terminal (invoke (with_transport (answers 200 opaque)) (job "missing" opaque))).

(** ** The suites *)

Definition processing_tests : list (result string unit) :=
  ((λ t, run_test t InMemoryBroker_new) <$>
    [success_acks_real_broker_reservation;
     retryable_failure_retries_real_broker_reservation;
     terminal_failure_dead_letters_real_broker_reservation;
     list_dead_letters_preserves_opaque_envelope_and_error;
     list_dead_letters_is_lane_scoped_and_bounded;
     requeue_dead_letter_makes_job_reservable_on_original_lane;
     requeue_unknown_dead_letter_returns_broker_error;
     timeout_retries_until_attempts_are_exhausted]) ++
  [run_test heartbeat_keeps_real_broker_reservation_alive (with_lease (duration_from_millis 10) InMemoryBroker_new);
   run_test stale_resolution_is_non_fatal_outcome (mkStaleAckBroker 0)].

Definition invoker_tests : list (Test unit unit) := [
  subprocess_success_returns_success;
  subprocess_receives_payload_on_stdin;
  subprocess_terminal_exit_code_returns_terminal_failure;
  subprocess_non_terminal_exit_returns_retryable_failure;
  subprocess_unknown_kind_returns_terminal_failure;
  http_success_returns_success;
  http_receives_payload_as_body;
  http_terminal_status_returns_terminal_failure;
  http_non_terminal_status_returns_retryable_failure;
  http_transport_error_returns_retryable_failure;
  http_unknown_kind_returns_terminal_failure
].

Example processing_tests_pass : passes processing_tests.
Proof. assert (processing_tests = replicate 10 (Ok tt)) as -> by (vm_compute; reflexivity). repeat constructor. Qed.

Example invoker_tests_pass : passes ((λ t, run_test t tt) <$> invoker_tests).
Proof. assert (((λ t, run_test t tt) <$> invoker_tests) = replicate 11 (Ok tt)) as -> by (vm_compute; reflexivity). repeat constructor. Qed.
